(* ===== verification/_CoqProject ===== *)
-Q . S2P
Prelude.v
Codecs.v
OrdMap.v
History.v
KVStore.v
KVStoreFacts.v
KVStoreBatch.v
KVDyn.v
KVRedb.v
KVRedbFacts.v
Temporal.v
RaftLog.v
RaftNode.v
RaftFacts.v
RaftGroup.v
RaftElection.v
RaftDivergence.v
RaftStorage.v
RaftSnapshot.v
Text.v
SchemaKey.v
Value.v
StorageKey.v
IndexManager.v
IndexFacts.v
IndexPages.v
IndexDefs.v
Hash.v
Ring.v
RingFacts.v
Exec.v
Evaluator.v
EvaluatorFacts.v
VertexCodec.v
VertexCodecFacts.v
WireFacts.v
Vid.v
VidFacts.v
SpaceDdl.v
DdlFacts.v
DmlStaging.v
DmlStagingFacts.v
GraphAlgo.v
PathFacts.v
FindPath.v
AllPathFacts.v
Dml.v
DmlRules.v
EdgeRep.v
EdgeWrite.v
EdgeInsertion.v
EdgeDeletion.v
EdgeUpdating.v
EdgeStatements.v
Classes.v
ClassFacts.v
ShapeFacts.v
VertexDml.v
VertexRep.v
VertexInsertion.v
VertexFrame.v
VertexDeletion.v
VertexUpdating.v
VertexStatements.v
VertexWitness.v
