(* ===== verification/Prelude.v ===== *)
(** * ByoriDB: a verification library

    A model of the ByoriDB graph database (Rust sources under [src/]) as Rocq
    functions, with the theorems that make its parts correct.

    ** The program

    ByoriDB stores graphs as rows of an ordered key-value store. The store
    ([byoridb-kvstore]) has a current view and an append-only version history; a
    deployment keeps it in memory or in the embedded database redb. Over it lie the
    keys of the graph layout ([byoridb-executor/src/key.rs],
    [byoridb-storage/src/key.rs]), the secondary indexes
    ([byoridb-storage/src/index.rs]), the mapping of string vertex ids
    ([byoridb-executor/src/vid.rs]), vertex and edge records
    ([byoridb-codec/src/vertex.rs]), the statements that create and drop spaces
    and schemas ([byoridb-executor/src/executor/ddl.rs]), classes and shapes
    ([class_ddl.rs], [shape.rs]) and that change vertices and edges ([dml.rs]), the
    evaluation of their expressions ([byoridb-executor/src/evaluator.rs]), the staging
    of a statement's writes until it succeeds ([dml_atomic.rs]) and the search for
    paths ([byoridb-executor/src/algo_paths.rs]). In a cluster, vertex ids are hashed to partitions and a consistent hash ring assigns partitions to nodes
    ([byoridb-common/src/hash], [byoridb-common/src/partition.rs]); the replicas of a
    partition agree by Raft ([byoridb-storage/src/raft]).

    ** Files

    Shared:
    - [Prelude] (this file): results and the [?] operator, machine integers with
      their wrap-around, bytes and their encodings, ordered key types, state-passing
      calls, and the interfaces of the serialisers bincode and serde_json.
    - [Codecs]: a serialiser that satisfies those interfaces, for witnesses.
    - [OrdMap]: a [BTreeMap] as a strictly sorted association list.
    - [Text]: UTF-8, decimal numbers and [:]-separated keys.
    - [Exec]: executor errors, JSON values, and executor code as programs whose
      store calls are atomic steps.

    Store ([byoridb-kvstore/src/store.rs], [error.rs]):
    - [History]: keys and values of version rows.
    - [KVStore]: the [KVStore] trait with its default methods, and
      [MemoryKVStore] (Module [Memory]; state: the two tables).
    - [KVStoreFacts], [KVStoreBatch]: its invariant and the behaviour of scans,
      point-in-time reads, batches, counters and prefix deletion.
    - [KVDyn]: a store behind a trait object, as calls of the trait's methods, and
      what it means that one store implements another.
    - [KVRedb]: [RedbKVStore] (Module [Redb]) over an abstract redb, a class of
      transaction operations with laws.
    - [KVRedbFacts]: redb refines the in-memory store; durability; termination.
    - [Temporal] ([byoridb-executor/src/executor/temporal.rs]): transaction times and
      version rows of statements.

    Raft ([byoridb-storage/src/raft]):
    - [RaftLog] ([types.rs], [log.rs], Modules [Cluster], [Log]), [RaftNode]
      ([node.rs], Module [Node]; the state is the record [RaftNode]), [RaftGroup]
      ([mod.rs], [driver.rs]): the node's handlers and a group as a step relation
      over delivered, lost, repeated and reordered messages.
    - [RaftFacts], [RaftElection]: replication, commitment and election safety;
      [RaftDivergence]: a run that violates state machine safety.
    - [RaftStorage] ([storage.rs]), [RaftSnapshot] ([snapshot.rs]).

    Layout, indexes and statements:
    - [SchemaKey], [StorageKey]: text and binary keys.
    - [IndexManager] ([index.rs]; state: the record [IndexManager] and the store),
      [IndexFacts], [IndexPages], [IndexDefs].
    - [Vid], [VidFacts]: string vertex ids, alone and under interleaving.
    - [SpaceDdl], [DdlFacts]: spaces, tags and edge types.
    - [DmlStaging] ([dml_atomic.rs], Module [Mutation]; state: the staged changes
      over a store), [DmlStagingFacts].
    - [Evaluator] ([evaluator.rs], the expressions of [ast.rs]): expressions, their
      contexts and conditions; [EvaluatorFacts]: their types, and NULL as unknown.
    - [Dml] ([dml.rs], [ontology.rs], [sameas.rs], [inference.rs],
      [inference_recovery.rs]): INSERT EDGE, UPDATE EDGE and DELETE EDGE with their
      indexes, degree counters and the fence around inferred facts; merging of equal
      vertices. A statement is a tree of store calls that also threads the clock.
    - [DmlRules]: a program logic for such statements over the staged store.
    - [EdgeRep]: the graph a store represents, as a finite map from edges to
      properties, and the relation [graph_rep] between the two.
    - [EdgeWrite], [EdgeInsertion], [EdgeDeletion], [EdgeUpdating]: what each
      statement does to that graph; [EdgeStatements]: the statements in full, from
      the staging of their first write to the commit.
    - [Classes] ([class_ddl.rs], [shape.rs], [ontology.rs]): the class hierarchy of a
      space, the walk over it, and the shapes vertices are checked against;
      [ClassFacts], [ShapeFacts].
    - [VertexDml] ([dml.rs]): INSERT VERTEX, UPDATE VERTEX and DELETE VERTEX.
    - [VertexRep]: the vertices a store represents, as a finite map from ids to tags
      (relation [vertex_rep]); [VertexInsertion], [VertexDeletion], [VertexUpdating]:
      what each statement does to them; [VertexFrame]: what the statements leave
      alone; [VertexStatements]: the statements in full, and sequences of them;
      [VertexWitness]: a space at which the theorems are applied.

    Records and paths:
    - [Value] ([byoridb-common/src/datatypes], [types.rs]): run-time values.
    - [VertexCodec] ([byoridb-codec/src/vertex.rs], [migration.rs]),
      [VertexCodecFacts], [WireFacts]: records in both formats and their wire form.
    - [GraphAlgo] ([algo.rs], [algo_paths.rs]), [PathFacts], [FindPath],
      [AllPathFacts]: one shortest path and all of them.

    Placement:
    - [Hash], [Ring], [RingFacts].

    ** Conventions

    A Rust [Result] is [Result E A]. A method that changes its object takes the
    state and returns it with the result; a method of the [KVStore] trait is a
    [KVOp]. A possible panic is [None] of an [option]. Integers are values of [Z];
    arithmetic that can wrap in a release build, and [as] casts, reduce modulo the
    width. A [HashMap] is a [gmap]; iteration over it has no order the theorems
    rely on. Clocks, serialisers, redb and hash-set order are parameters, with what
    the code relies on as laws (prost reads back messages that nest within its
    recursion limit and refuses deeper ones; a commit of redb that reports an error
    leaves on disk what was there or what it was to commit); each theorem with such a law has a witness in which
    a concrete function satisfies it. Logging is left out.

    ** Theorems

    - Store: redb's methods do what the in-memory store does or fail without a
      partial effect; optimised reads agree with the trait's defaults; scans,
      deletions and counters are exact; relaxed durability loses at most the commits
      since the last checkpoint that succeeded, of which there are fewer than 64 and
      64 more for each checkpoint that failed.
    - Time: transaction times are unique and increasing under contention, and a
      point-in-time read returns the last version committed before it.
    - Raft: log operations implement an indexed log; a successful append gives the log
      the entries of the request; commitment needs a majority of the match indices the
      leader has recorded; two leaders of a term are impossible
      if votes are answered in their term. Without that, and in three more cases,
      the code misbehaves, and runs or states that show it are constructed.
    - Persistence: the Raft log, term, vote and snapshots are read back as saved;
      index definitions are the same in memory, on disk and after a restart.
    - Keys: no two records share a key, a prefix scan returns exactly the records it
      is meant for, index entries are sorted by value.
    - Indexes: lookups and range lookups return exactly the matching entries;
      following page cursors to the end yields each entry once.
    - String ids: one surrogate per string under every interleaving and failure.
    - Statements: dropping a space removes its rows and no others, except for two
      names for which it does.
    - Staging: a statement over the staged store takes effect as a whole or not at
      all, and reads its own writes.
    - Edge statements: on a store with integer ids that represents a graph, a statement
      leaves a store that represents the graph it describes: both directions of
      each edge, the entries of every index and the degree counters. Insertion of the
      reserved type [sameAs], which merges vertices, is modelled but not part of the
      theorems. An update of an edge whose indexed text is longer than an entry holds
      loses the entry.
    - Vertex statements: on a store with integer ids that represents vertices, the same
      for records, the lists of each tag, index entries and embeddings; insertion and
      update succeed exactly if the check of the shapes accepts the vertices. After any
      sequence of statements, with any results, every vertex conforms to the shapes.
    - Classes: statements on classes refine those on a hierarchy, which stays free of
      cycles; the walk over ancestors is exact within the depth limit, beyond which
      a class can be created but not used.
    - Expressions: a well-typed expression has a value of its type, the only failures
      being divisions; connectives follow three-valued logic.
    - Records: what is encoded is read back if it nests within the recursion limit of
      prost, and cannot be read otherwise; migration keeps it; the reader of a
      single vertex id agrees with the full decoder, and loops on a corrupt record.
    - Paths: a search ends and returns a shortest path, or each shortest path once.
    - Placement: every vertex has one partition in range; replicas are distinct
      nodes; a node that joins or leaves moves only its own share.

    ** Bounds and fuel

    The search for a string id's surrogate runs at most 2^63 rounds, given in
    binary ([Vid.PROBES]): each round tries another negative integer, and the
    theorems show the bound is never reached. Chunked deletion in redb takes fuel;
    one round per row and one more are shown to be enough. A search for a shortest
    path needs one round per vertex it can meet, at most two per row and one more;
    the enumeration of all paths needs one per partial path, and the theorem gives a
    number that is enough. The walks over classes and over merged vertices have the
    depth limits of the code as fuel and its errors at the end. Decoding loops use the
    length of their input, which shrinks in every round. Timeouts of Raft nodes are
    arbitrary natural numbers given by the environment.

    ** Not modelled

    The lexer and parser, planning, queries, pattern matching, the row codec, weighted
    paths, inference, authentication, the graph and meta services, bulk loading and
    backup. Network transport, generated RPC code, file I/O, metrics and logging have
    no behaviour a function of the state could
    describe. The asynchronous runtime is represented only by interleavings of
    atomic calls where a theorem says so; elsewhere one call runs at a time. *)

From Stdlib Require Import ZArith Lia.
From Stdlib Require Import Strings.Byte Strings.String.
From stdpp Require Import base tactics list numbers option strings countable.

#[global] Open Scope Z_scope.
#[global] Open Scope list_scope.

(** ** Results

    Rust's [Result<T, E>]; the [?] operator is [let?]. *)

Declare Scope byori_scope.
Delimit Scope byori_scope with byori.
#[global] Open Scope byori_scope.

Inductive Result (E A : Type) : Type :=
| Ok (a : A)
| Err (e : E).
Arguments Ok {E A} _.
Arguments Err {E A} _.

Definition is_ok {E A} (r : Result E A) : bool :=
  match r with Ok _ => true | Err _ => false end.

Notation "'let?' x := r 'in' k" :=
  (match r with Ok x => k | Err e => Err e end)
    (at level 10, x pattern, r at level 100, k at level 200) : byori_scope.

(** The [?] operator inside code that also threads a state: on [Err] the
    state [s] is returned as it is. *)
Notation "'try?' x := r 'on' s 'in' k" :=
  (match r with Ok x => k | Err e => (Err e, s) end)
    (at level 10, x pattern, r at level 100, s at level 100, k at level 200) : byori_scope.

(** ** Machine integers

    Unsigned and signed machine integers are values of [Z] in range; the
    wrap-around of Rust's release-mode arithmetic and of [as] casts is
    written out. *)

Definition two64 : Z := 2 ^ 64.
Definition two63 : Z := 2 ^ 63.
Definition two32 : Z := 2 ^ 32.

Definition u64_ok (z : Z) : Prop := 0 <= z < two64.
Definition i64_ok (z : Z) : Prop := - two63 <= z < two63.
Definition u32_ok (z : Z) : Prop := 0 <= z < two32.

(** [x as u64], for any integer [x]; wrapping results are reduced the same way. *)
Definition as_u64 (z : Z) : Z := z mod two64.

(** [x as u32]. *)
Definition as_u32 (z : Z) : Z := z mod two32.

(** [x as i64]: two's complement. *)
Definition as_i64 (z : Z) : Z :=
  let u := z mod two64 in if u <? two63 then u else u - two64.

Definition u64_add (a b : Z) : Z := as_u64 (a + b).
Definition u64_sub (a b : Z) : Z := as_u64 (a - b).
Definition u64_mul (a b : Z) : Z := as_u64 (a * b).
Definition u64_not (a : Z) : Z := Z.lxor a (two64 - 1).
Definition sat_sub (a b : Z) : Z := Z.max 0 (a - b).

Definition I64_MIN : Z := - two63.
Definition I64_MAX : Z := two63 - 1.

Ltac unfold_int :=
  unfold u64_ok, i64_ok, u32_ok, as_u64, as_u32, as_i64, u64_add, u64_sub, u64_mul,
    I64_MIN, I64_MAX, two64, two63, two32 in *.

Lemma as_u64_ok z : u64_ok (as_u64 z).
Proof. unfold_int. apply Z.mod_pos_bound. lia. Qed.

Lemma as_u64_id z : u64_ok z -> as_u64 z = z.
Proof. intros H. apply Z.mod_small, H. Qed.

Lemma as_i64_ok z : i64_ok (as_i64 z).
Proof.
  unfold_int. pose proof (Z.mod_pos_bound z (2 ^ 64) ltac:(lia)).
  destruct (Z.ltb_spec (z mod 2 ^ 64) (2 ^ 63)); lia.
Qed.

Lemma as_u64_signed z :
  i64_ok z -> as_u64 z = if z <? 0 then z + two64 else z.
Proof.
  unfold_int. intros H. destruct (Z.ltb_spec z 0).
  - symmetry. apply (Z.mod_unique_pos _ _ (-1)); lia.
  - apply Z.mod_small. lia.
Qed.

Lemma as_i64_as_u64 z : i64_ok z -> as_i64 (as_u64 z) = z.
Proof.
  intros H. unfold as_i64.
  change (as_u64 z mod two64) with (as_u64 (as_u64 z)).
  rewrite (as_u64_id (as_u64 z)) by apply as_u64_ok.
  rewrite as_u64_signed by done. unfold_int.
  destruct (Z.ltb_spec z 0);
    [destruct (Z.ltb_spec (z + 2 ^ 64) (2 ^ 63)) | destruct (Z.ltb_spec z (2 ^ 63))]; lia.
Qed.

Lemma as_i64_id z : i64_ok z -> as_i64 z = z.
Proof.
  intros H. rewrite <- (as_i64_as_u64 z H) at 2. unfold as_i64, as_u64.
  by rewrite Z.mod_mod by (unfold two64; lia).
Qed.

Lemma as_u64_as_i64 z : u64_ok z -> as_u64 (as_i64 z) = z.
Proof.
  unfold_int. intros H. rewrite (Z.mod_small z) by lia.
  destruct (Z.ltb_spec z (2 ^ 63)).
  - apply Z.mod_small; lia.
  - symmetry. apply (Z.mod_unique_pos _ _ (-1)); lia.
Qed.

Lemma u64_add_id a b : u64_ok (a + b) -> u64_add a b = a + b.
Proof. apply as_u64_id. Qed.

Lemma u64_sub_id a b : u64_ok (a - b) -> u64_sub a b = a - b.
Proof. apply as_u64_id. Qed.

(** Bits at or above the width of a value are clear. *)
Lemma testbit_high a n i : 0 <= n -> 0 <= a < 2 ^ n -> n <= i -> Z.testbit a i = false.
Proof.
  intros Hn Ha Hi. destruct (Z.eq_dec a 0) as [->|]; [apply Z.bits_0|].
  apply Z.bits_above_log2; [lia|]. apply Z.lt_le_trans with n; [|lia].
  apply Z.log2_lt_pow2; lia.
Qed.

(** Bit-wise complement and the flip of the sign bit as arithmetic. *)
Lemma u64_not_spec a : u64_ok a -> u64_not a = two64 - 1 - a.
Proof.
  unfold u64_ok, u64_not, two64. intros H.
  change (2 ^ 64 - 1) with (Z.ones 64).
  assert (Hlog : Z.log2 a < 64).
  { destruct (Z.eq_dec a 0) as [->|]; [done|]. apply Z.log2_lt_pow2; lia. }
  rewrite <- Z.ldiff_ones_l_low by lia.
  symmetry. apply Z.sub_nocarry_ldiff, Z.ldiff_ones_r_low; lia.
Qed.

Definition flip_sign (a : Z) : Z := Z.lxor a two63.

Lemma lxor_two63_low a : 0 <= a < two63 -> Z.lxor a two63 = a + two63.
Proof.
  unfold two63. intros H. symmetry. apply Z.add_nocarry_lxor, Z.bits_inj'. intros i Hi.
  rewrite Z.land_spec, Z.bits_0, Z.pow2_bits_eqb by lia.
  destruct (Z.eqb_spec 63 i) as [<-|]; [|by rewrite andb_false_r].
  by rewrite (testbit_high a 63) by lia.
Qed.

Lemma flip_sign_spec a :
  u64_ok a -> flip_sign a = if a <? two63 then a + two63 else a - two63.
Proof.
  unfold u64_ok, flip_sign. intros H. destruct (Z.ltb_spec a two63).
  - apply lxor_two63_low. lia.
  - replace a with (Z.lxor (a - two63) two63) at 1
      by (rewrite lxor_two63_low; unfold two64, two63 in *; lia).
    by rewrite Z.lxor_assoc, Z.lxor_nilpotent, Z.lxor_0_r.
Qed.

(** ** Bytes

    A [u8] is a [Byte.byte]; [b2z] and [z2b] are the casts from and to it. *)

Abbreviation bytes := (list byte).

#[global] Instance byte_eq_decision : EqDecision byte := Byte.byte_eq_dec.
#[global] Instance byte_countable : Countable byte.
Proof. apply (inj_countable' Byte.to_N (fun n => default x00 (Byte.of_N n))). intros b. by rewrite Byte.of_to_N. Defined.

Definition b2z (b : byte) : Z := Z.of_N (Byte.to_N b).
Definition z2b (z : Z) : byte :=
  match Byte.of_N (Z.to_N (z mod 256)) with Some b => b | None => x00 end.

#[global] Arguments b2z : simpl never.
#[global] Arguments z2b : simpl never.

(** The bytes of a string literal. *)
Definition bs (s : string) : bytes := list_byte_of_string s.

Lemma b2z_bound b : 0 <= b2z b < 256.
Proof. unfold b2z. pose proof (Byte.to_N_bounded b). lia. Qed.

Lemma b2z_z2b z : b2z (z2b z) = z mod 256.
Proof.
  unfold b2z, z2b. pose proof (Z.mod_pos_bound z 256 ltac:(lia)) as Hb.
  destruct (Byte.of_N (Z.to_N (z mod 256))) as [b|] eqn:E.
  - apply Byte.to_of_N in E. rewrite E. lia.
  - apply Byte.of_N_None_iff in E. lia.
Qed.

Lemma b2z_z2b_small z : 0 <= z < 256 -> b2z (z2b z) = z.
Proof. intros H. rewrite b2z_z2b. by apply Z.mod_small. Qed.

Lemma z2b_b2z b : z2b (b2z b) = b.
Proof.
  unfold z2b. rewrite Z.mod_small by apply b2z_bound. unfold b2z.
  by rewrite N2Z.id, Byte.of_to_N.
Qed.

Lemma b2z_inj b1 b2 : b2z b1 = b2z b2 -> b1 = b2.
Proof. intros H. by rewrite <- (z2b_b2z b1), H, z2b_b2z. Qed.

Lemma z2b_mod z : z2b (z mod 256) = z2b z.
Proof. apply b2z_inj. by rewrite !b2z_z2b, Z.mod_mod. Qed.

(** Big-endian and little-endian encodings of an [n]-byte integer
    ([to_be_bytes], [from_be_bytes], [to_le_bytes], [from_le_bytes]). *)

Fixpoint be_bytes (n : nat) (z : Z) : bytes :=
  match n with
  | O => []
  | S n' => z2b (z / 256 ^ Z.of_nat n') :: be_bytes n' z
  end.

Fixpoint of_be (l : bytes) : Z :=
  match l with
  | [] => 0
  | b :: l' => b2z b * 256 ^ Z.of_nat (length l') + of_be l'
  end.

Fixpoint le_bytes (n : nat) (z : Z) : bytes :=
  match n with
  | O => []
  | S n' => z2b z :: le_bytes n' (z / 256)
  end.

Fixpoint of_le (l : bytes) : Z :=
  match l with
  | [] => 0
  | b :: l' => b2z b + 256 * of_le l'
  end.

Lemma length_be_bytes n z : length (be_bytes n z) = n.
Proof. induction n; simpl; auto. Qed.

Lemma length_le_bytes n z : length (le_bytes n z) = n.
Proof. revert z. induction n; simpl; auto. Qed.

Lemma pow256_pos n : 0 < 256 ^ Z.of_nat n.
Proof. apply Z.pow_pos_nonneg; lia. Qed.

Lemma pow256_S n : 256 ^ Z.of_nat (S n) = 256 * 256 ^ Z.of_nat n.
Proof. rewrite Nat2Z.inj_succ, Z.pow_succ_r by lia. done. Qed.

Lemma of_be_bound l : 0 <= of_be l < 256 ^ Z.of_nat (length l).
Proof.
  induction l as [|b l IH]; [done|]. cbn [of_be length]. rewrite pow256_S.
  pose proof (b2z_bound b). nia.
Qed.

Lemma of_be_be_bytes n z : of_be (be_bytes n z) = z mod 256 ^ Z.of_nat n.
Proof.
  induction n as [|n IH]; [by rewrite Z.mod_1_r|].
  cbn [be_bytes of_be]. rewrite length_be_bytes, IH, b2z_z2b, pow256_S.
  pose proof (pow256_pos n). rewrite (Z.mul_comm 256), Z.rem_mul_r by lia. lia.
Qed.

Lemma of_be_be_bytes_small n z :
  0 <= z < 256 ^ Z.of_nat n -> of_be (be_bytes n z) = z.
Proof. intros H. rewrite of_be_be_bytes. by apply Z.mod_small. Qed.

Lemma be_bytes_add_high n z k : be_bytes n (z + k * 256 ^ Z.of_nat n) = be_bytes n z.
Proof.
  revert k. induction n as [|n IH]; intros k; [done|]. cbn [be_bytes]. f_equal.
  - rewrite pow256_S. pose proof (pow256_pos n).
    replace (z + k * (256 * 256 ^ Z.of_nat n)) with (z + (k * 256) * 256 ^ Z.of_nat n) by lia.
    rewrite Z.div_add by lia. apply b2z_inj. rewrite !b2z_z2b.
    by rewrite Z.mod_add by lia.
  - rewrite pow256_S.
    replace (z + k * (256 * 256 ^ Z.of_nat n)) with (z + (k * 256) * 256 ^ Z.of_nat n) by lia.
    apply IH.
Qed.

Lemma be_bytes_of_be l : be_bytes (length l) (of_be l) = l.
Proof.
  induction l as [|b l IH]; [done|]. cbn [length be_bytes of_be]. f_equal.
  - pose proof (of_be_bound l). pose proof (pow256_pos (length l)).
    rewrite Z.div_add_l by lia. rewrite Z.div_small by lia. rewrite Z.add_0_r. apply z2b_b2z.
  - rewrite Z.add_comm, be_bytes_add_high. done.
Qed.

Lemma of_le_le_bytes n z : of_le (le_bytes n z) = z mod 256 ^ Z.of_nat n.
Proof.
  revert z. induction n as [|n IH]; intros z; [by rewrite Z.mod_1_r|].
  cbn [le_bytes of_le]. rewrite IH, b2z_z2b, pow256_S. pose proof (pow256_pos n).
  rewrite Z.rem_mul_r by lia. lia.
Qed.

Lemma of_le_le_bytes_small n z :
  0 <= z < 256 ^ Z.of_nat n -> of_le (le_bytes n z) = z.
Proof. intros H. rewrite of_le_le_bytes. by apply Z.mod_small. Qed.

Lemma of_le_bound l : 0 <= of_le l < 256 ^ Z.of_nat (length l).
Proof.
  induction l as [|b l IH]; [done|]. cbn [of_le length]. rewrite pow256_S.
  pose proof (b2z_bound b). nia.
Qed.

(** The [i64] and [u64] instances. *)
Definition i64_to_be (z : Z) : bytes := be_bytes 8 (as_u64 z).
Definition i64_of_be (l : bytes) : Z := as_i64 (of_be l).
Definition i64_to_le (z : Z) : bytes := le_bytes 8 (as_u64 z).
Definition i64_of_le (l : bytes) : Z := as_i64 (of_le l).

Lemma i64_be_roundtrip z : i64_ok z -> i64_of_be (i64_to_be z) = z.
Proof.
  intros H. unfold i64_of_be, i64_to_be.
  rewrite of_be_be_bytes_small by apply (as_u64_ok z). by apply as_i64_as_u64.
Qed.

Lemma i64_le_roundtrip z : i64_ok z -> i64_of_le (i64_to_le z) = z.
Proof.
  intros H. unfold i64_of_le, i64_to_le.
  rewrite of_le_le_bytes_small by apply (as_u64_ok z). by apply as_i64_as_u64.
Qed.

(** ** Ordered key types

    Rust's [Ord]: a comparison that decides equality and is a strict total
    order.  [BTreeMap] keys are of such types. *)

Class Ordered (K : Type) := {
  cmp : K -> K -> comparison;
  cmp_eq_iff a b : cmp a b = Eq <-> a = b;
  cmp_flip a b : cmp b a = CompOpp (cmp a b);
  cmp_lt_trans a b c : cmp a b = Lt -> cmp b c = Lt -> cmp a c = Lt
}.

Definition kltb {K} `{Ordered K} (a b : K) : bool :=
  match cmp a b with Lt => true | _ => false end.
Definition kleb {K} `{Ordered K} (a b : K) : bool :=
  match cmp a b with Gt => false | _ => true end.

Section ordered.
Context {K : Type} `{Ordered K}.
Implicit Types a b c : K.

Lemma cmp_refl a : cmp a a = Eq.
Proof. by apply cmp_eq_iff. Qed.

Lemma cmp_gt_iff a b : cmp a b = Gt <-> cmp b a = Lt.
Proof. rewrite (cmp_flip b a). destruct (cmp b a); simpl; split; congruence. Qed.

Lemma kltb_iff a b : kltb a b = true <-> cmp a b = Lt.
Proof. unfold kltb. destruct (cmp a b); split; congruence. Qed.

Lemma kleb_iff a b : kleb a b = true <-> cmp a b <> Gt.
Proof. unfold kleb. destruct (cmp a b); split; congruence. Qed.

Lemma kleb_ltb a b : kleb a b = negb (kltb b a).
Proof. unfold kleb, kltb. rewrite (cmp_flip a b). by destruct (cmp a b). Qed.

Lemma kleb_refl a : kleb a a = true.
Proof. unfold kleb. by rewrite cmp_refl. Qed.

Lemma kleb_trans a b c : kleb a b = true -> kleb b c = true -> kleb a c = true.
Proof.
  unfold kleb. intros Hab Hbc.
  destruct (cmp a b) eqn:E1; [apply cmp_eq_iff in E1; by subst| |done].
  destruct (cmp b c) eqn:E2; [apply cmp_eq_iff in E2; subst; by rewrite E1| |done].
  by rewrite (cmp_lt_trans a b c).
Qed.

Lemma kleb_lt_trans a b c : kleb a b = true -> cmp b c = Lt -> cmp a c = Lt.
Proof.
  unfold kleb. intros Hab Hbc.
  destruct (cmp a b) eqn:E1; [apply cmp_eq_iff in E1; by subst| |done].
  by apply (cmp_lt_trans a b c).
Qed.

Lemma lt_kleb_trans a b c : cmp a b = Lt -> kleb b c = true -> cmp a c = Lt.
Proof.
  unfold kleb. intros Hab Hbc.
  destruct (cmp b c) eqn:E1; [apply cmp_eq_iff in E1; by subst| |done].
  by apply (cmp_lt_trans a b c).
Qed.

Lemma cmp_lt_neq a b : cmp a b = Lt -> a <> b.
Proof. intros E ->. by rewrite cmp_refl in E. Qed.
End ordered.

#[global, refine] Instance Z_ordered : Ordered Z := {| cmp := Z.compare |}.
Proof.
  - apply Z.compare_eq_iff.
  - intros. by rewrite Z.compare_antisym.
  - intros a b c. rewrite !Z.compare_lt_iff. lia.
Defined.

(** The lexicographic order of byte strings, [<[u8] as Ord>::cmp]. *)
Fixpoint bytes_cmp (a b : bytes) : comparison :=
  match a, b with
  | [], [] => Eq
  | [], _ :: _ => Lt
  | _ :: _, [] => Gt
  | x :: a', y :: b' =>
      match Z.compare (b2z x) (b2z y) with
      | Eq => bytes_cmp a' b'
      | c => c
      end
  end.

Lemma bytes_cmp_eq a b : bytes_cmp a b = Eq <-> a = b.
Proof.
  revert b. induction a as [|x a IH]; intros [|y b]; simpl; try done.
  destruct (Z.compare_spec (b2z x) (b2z y)) as [E|E|E].
  - apply b2z_inj in E. subst. rewrite IH. split; congruence.
  - split; [done|]. intros [= -> ->]. lia.
  - split; [done|]. intros [= -> ->]. lia.
Qed.

Lemma bytes_cmp_flip a b : bytes_cmp b a = CompOpp (bytes_cmp a b).
Proof.
  revert b. induction a as [|x a IH]; intros [|y b]; simpl; try done.
  rewrite (Z.compare_antisym (b2z x)). destruct (b2z x ?= b2z y); simpl; auto.
Qed.

Lemma bytes_cmp_lt_trans a b c :
  bytes_cmp a b = Lt -> bytes_cmp b c = Lt -> bytes_cmp a c = Lt.
Proof.
  revert b c. induction a as [|x a IH]; intros [|y b] [|z c]; simpl; try done.
  destruct (Z.compare_spec (b2z x) (b2z y)) as [E|E|E]; try done.
  - rewrite E. destruct (b2z y ?= b2z z); eauto.
  - destruct (Z.compare_spec (b2z y) (b2z z)) as [E'|E'|E']; try done; intros _ _.
    + by rewrite (proj2 (Z.compare_lt_iff _ _)) by lia.
    + by rewrite (proj2 (Z.compare_lt_iff _ _)) by lia.
Qed.

#[global] Instance bytes_ordered : Ordered bytes := {|
  cmp := bytes_cmp;
  cmp_eq_iff := bytes_cmp_eq;
  cmp_flip := bytes_cmp_flip;
  cmp_lt_trans := bytes_cmp_lt_trans
|}.

(** Tuples are compared component by component. *)
#[global, refine] Instance pair_ordered {A B} `{Ordered A} `{Ordered B} : Ordered (A * B) := {|
  cmp x y := match cmp x.1 y.1 with Eq => cmp x.2 y.2 | c => c end
|}.
Proof.
  - intros [a b] [a' b']. simpl. destruct (cmp a a') eqn:E.
    + apply cmp_eq_iff in E as ->. rewrite cmp_eq_iff. split; congruence.
    + split; [done|]. intros [= -> _]. by rewrite cmp_refl in E.
    + split; [done|]. intros [= -> _]. by rewrite cmp_refl in E.
  - intros [a b] [a' b']. simpl. rewrite (cmp_flip a a'). destruct (cmp a a'); simpl; auto using cmp_flip.
  - intros [a1 b1] [a2 b2] [a3 b3]. simpl. destruct (cmp a1 a2) eqn:E12; [|..|done].
    + apply cmp_eq_iff in E12 as ->. destruct (cmp a2 a3); eauto using cmp_lt_trans.
    + intros _. destruct (cmp a2 a3) eqn:E23; [|..|done].
      * apply cmp_eq_iff in E23 as ->. by rewrite E12.
      * by rewrite (cmp_lt_trans _ _ _ E12 E23).
Defined.

Lemma bytes_cmp_app a b c d :
  length a = length b ->
  bytes_cmp (a ++ c) (b ++ d) =
    match bytes_cmp a b with Eq => bytes_cmp c d | r => r end.
Proof.
  revert b. induction a as [|x a IH]; intros [|y b] Hl; try done.
  simpl in *. destruct (b2z x ?= b2z y); auto.
Qed.

Lemma bytes_cmp_app_l p a b : bytes_cmp (p ++ a) (p ++ b) = bytes_cmp a b.
Proof. rewrite bytes_cmp_app by done. by rewrite (proj2 (bytes_cmp_eq p p)). Qed.

(** Big-endian encoding preserves the order of equal-width integers. *)
Lemma bytes_cmp_of_be a b :
  length a = length b -> bytes_cmp a b = (of_be a ?= of_be b).
Proof.
  revert b. induction a as [|x a IH]; intros [|y b] Hl; try done.
  cbn [bytes_cmp of_be]. simpl in Hl. injection Hl as Hl. rewrite IH by done. rewrite Hl.
  pose proof (of_be_bound a) as Ha. pose proof (of_be_bound b) as Hb. rewrite Hl in Ha.
  destruct (Z.compare_spec (b2z x) (b2z y)) as [E|E|E].
  - rewrite E. destruct (Z.compare_spec (of_be a) (of_be b)) as [E1|E1|E1]; symmetry;
      [apply Z.compare_eq_iff | apply Z.compare_lt_iff | apply Z.compare_gt_iff]; lia.
  - symmetry. apply Z.compare_lt_iff. nia.
  - symmetry. apply Z.compare_gt_iff. nia.
Qed.

Lemma bytes_cmp_be_bytes n x y :
  0 <= x < 256 ^ Z.of_nat n -> 0 <= y < 256 ^ Z.of_nat n ->
  bytes_cmp (be_bytes n x) (be_bytes n y) = (x ?= y).
Proof.
  intros Hx Hy. rewrite bytes_cmp_of_be by by rewrite !length_be_bytes.
  by rewrite !of_be_be_bytes_small.
Qed.

(** [starts_with]; the keys with a given prefix form an interval. *)
Fixpoint starts_with (p k : bytes) : bool :=
  match p, k with
  | [], _ => true
  | _ :: _, [] => false
  | x :: p', y :: k' => bool_decide (x = y) && starts_with p' k'
  end.

Lemma starts_with_iff p k : starts_with p k = true <-> exists r, k = p ++ r.
Proof.
  revert k. induction p as [|x p IH]; intros k; simpl.
  - split; [intros _; by exists k|done].
  - destruct k as [|y k]; simpl.
    + split; [done|]. intros [r Hr]. done.
    + rewrite andb_true_iff, bool_decide_eq_true, IH. split.
      * intros [-> [r ->]]. by exists r.
      * intros [r [= -> ->]]. eauto.
Qed.

Lemma starts_with_app p r : starts_with p (p ++ r) = true.
Proof. apply starts_with_iff. by exists r. Qed.

Lemma starts_with_kleb p k : starts_with p k = true -> kleb p k = true.
Proof.
  intros [r ->]%starts_with_iff. unfold kleb. simpl.
  assert (E : bytes_cmp (p ++ []) (p ++ r) = bytes_cmp [] r) by apply bytes_cmp_app_l.
  rewrite app_nil_r in E. rewrite E. by destruct r.
Qed.

(** Once an ordered walk from [p] leaves the prefix [p], it never re-enters it. *)
Lemma starts_with_interval p k k' :
  kleb p k = true -> kleb k k' = true -> starts_with p k' = true -> starts_with p k = true.
Proof.
  unfold kleb. simpl. revert k k'. induction p as [|x p IH]; intros k k'; [done|].
  destruct k as [|y k]; [done|]. destruct k' as [|z k']; [done|].
  simpl. rewrite !andb_true_iff, !bool_decide_eq_true. intros H1 H2 [-> H3].
  destruct (Z.compare_spec (b2z z) (b2z y)) as [E|E|E]; [| |done].
  - apply b2z_inj in E. subst. split; [done|]. rewrite Z.compare_refl in H2. eauto.
  - rewrite (proj2 (Z.compare_gt_iff (b2z y) (b2z z))) in H2 by lia. done.
Qed.

(** ** Lists *)

(** [Iterator::take_while]. *)
Fixpoint take_while {A} (f : A -> bool) (l : list A) : list A :=
  match l with
  | [] => []
  | x :: l' => if f x then x :: take_while f l' else []
  end.

(** [Vec::chunks], for a positive chunk size. *)
Fixpoint chunks_fuel {A} (fuel n : nat) (l : list A) : list (list A) :=
  match fuel, l with
  | O, _ | _, [] => []
  | S fuel', _ => take n l :: chunks_fuel fuel' n (drop n l)
  end.
Definition chunks {A} (n : nat) (l : list A) : list (list A) := chunks_fuel (length l) n l.

Lemma concat_chunks_fuel {A} fuel n (l : list A) :
  (0 < n)%nat -> (length l <= fuel)%nat -> concat (chunks_fuel fuel n l) = l.
Proof.
  intros Hn. revert l. induction fuel as [|fuel IH]; intros [|x l] Hl; try done.
  - simpl in Hl. lia.
  - cbn [chunks_fuel concat]. rewrite IH; [apply take_drop|].
    rewrite length_drop. cbn [length] in *. lia.
Qed.

Lemma concat_chunks {A} n (l : list A) : (0 < n)%nat -> concat (chunks n l) = l.
Proof. intros. by apply concat_chunks_fuel. Qed.

Lemma take_while_all {A} (f : A -> bool) l :
  (forall x, x ∈ l -> f x = true) -> take_while f l = l.
Proof.
  induction l as [|x l IH]; intros H; simpl; [done|].
  rewrite H by left. f_equal. apply IH. intros y Hy. apply H. by right.
Qed.

Lemma take_while_none {A} (f : A -> bool) l :
  (forall x, x ∈ l -> f x = false) -> take_while f l = [].
Proof. destruct l as [|x l]; intros H; simpl; [done|]. by rewrite H by left. Qed.

Lemma take_app_exact {A} (a b : list A) n : n = length a -> take n (a ++ b) = a.
Proof. intros ->. by rewrite take_app_length. Qed.

Lemma drop_app_exact {A} (a b : list A) n : n = length a -> drop n (a ++ b) = b.
Proof. intros ->. by rewrite drop_app_length. Qed.

(** [Iterator::filter_map]. *)
Fixpoint filter_map {A B} (f : A -> option B) (l : list A) : list B :=
  match l with
  | [] => []
  | x :: l' => match f x with Some y => y :: filter_map f l' | None => filter_map f l' end
  end.

Lemma elem_of_filter_map {A B} (f : A -> option B) l y :
  y ∈ filter_map f l <-> exists x, x ∈ l /\ f x = Some y.
Proof.
  induction l as [|x l IH]; simpl.
  - split; [by intros ?%elem_of_nil|]. by intros (x & ?%elem_of_nil & _).
  - destruct (f x) as [z|] eqn:E; rewrite ?elem_of_cons, IH; split.
    + intros [->|(x' & Hin & Hx')]; [exists x|exists x']; rewrite elem_of_cons; auto.
    + intros (x' & [->|Hin]%elem_of_cons & Hx'); [left; congruence|eauto].
    + intros (x' & Hin & Hx'). exists x'. rewrite elem_of_cons. auto.
    + intros (x' & [->|Hin]%elem_of_cons & Hx'); [congruence|eauto].
Qed.

Lemma filter_map_app {A B} (f : A -> option B) l1 l2 :
  filter_map f (l1 ++ l2) = filter_map f l1 ++ filter_map f l2.
Proof. induction l1 as [|x l1 IH]; simpl; [done|]. destruct (f x); simpl; by rewrite IH. Qed.

Lemma filter_filter {A} (f g : A -> bool) l :
  List.filter f (List.filter g l) = List.filter (fun x => g x && f x) l.
Proof.
  induction l as [|x l IH]; simpl; [done|].
  destruct (g x); simpl; rewrite IH; done.
Qed.

Lemma filter_elem {A} (f : A -> bool) (l : list A) x : x ∈ List.filter f l <-> x ∈ l /\ f x = true.
Proof. rewrite !list_elem_of_In. apply filter_In. Qed.

Lemma filter_cong {A} (f g : A -> bool) (l : list A) :
  (forall x, x ∈ l -> f x = g x) -> List.filter f l = List.filter g l.
Proof. intros H. apply filter_ext_in. intros x Hx. apply H. by apply list_elem_of_In. Qed.

Lemma filter_all {A} (f : A -> bool) l : (forall x, x ∈ l -> f x = true) -> List.filter f l = l.
Proof.
  induction l as [|x l IH]; intros Hf; simpl; [done|]. rewrite (Hf x) by left. f_equal.
  apply IH. intros y Hy. apply Hf. by right.
Qed.

(** ** Calls that thread a state and may fail *)

Definition st_bind {E S A B} (c : S -> Result E A * S) (k : A -> S -> Result E B * S)
    : S -> Result E B * S :=
  fun s => match c s with (Ok a, s') => k a s' | (Err e, s') => (Err e, s') end.
Definition st_ret {E S A} (a : A) : S -> Result E A * S := fun s => (Ok a, s).
Definition st_fail {E S A} (e : E) : S -> Result E A * S := fun s => (Err e, s).

Notation "x <-! c ;; k" := (st_bind c (fun x => k))
  (at level 100, c at next level, right associativity) : byori_scope.
Notation "c ;;! k" := (st_bind c (fun _ => k)) (at level 100, right associativity) : byori_scope.

Fixpoint st_for_each {E S A} (f : A -> S -> Result E unit * S) (l : list A) : S -> Result E unit * S :=
  match l with
  | [] => st_ret tt
  | x :: l' => f x ;;! st_for_each f l'
  end.

(** ** Third-party serialisation

    [bincode] turns a value into bytes and back. The program relies on a
    serialised value deserialising to itself. *)

Class Bincode (A : Type) := {
  serialize : A -> Result string bytes;
  deserialize : bytes -> Result string A
}.
Class BincodeLaws (A : Type) `{Bincode A} :=
  deserialize_serialize a b : serialize a = Ok b -> deserialize b = Ok a.
(** Serialising a value whose integers fit their types does not fail. *)
Class BincodeTotal (A : Type) `{Bincode A} (fits : A -> Prop) :=
  serialize_total a : fits a -> exists b, serialize a = Ok b.

(** [serde_json] likewise. *)
Class SerdeJson (A : Type) := {
  json_to_vec : A -> Result string bytes;
  json_from_slice : bytes -> Result string A
}.
Class SerdeJsonLaws (A : Type) `{SerdeJson A} :=
  from_slice_to_vec a b : json_to_vec a = Ok b -> json_from_slice b = Ok a.
Class SerdeJsonTotal (A : Type) `{SerdeJson A} (fits : A -> Prop) :=
  to_vec_total a : fits a -> exists b, json_to_vec a = Ok b.
