(* ===== verification/Codecs.v ===== *)
(** * A reference serialiser

    The program's serialisers are third-party code, assumed to read back what they
    write. This one, for any countable type, shows that the assumptions can hold:
    it writes the bits of the value's number, one byte each. *)

From Stdlib Require Import ZArith Strings.Byte Strings.String.
From stdpp Require Import base tactics list countable.
From S2P Require Import Prelude.

Fixpoint pos_bytes (p : positive) : bytes :=
  match p with
  | xH => [x01]
  | xO p => x02 :: pos_bytes p
  | xI p => x03 :: pos_bytes p
  end.

Fixpoint bytes_pos (l : bytes) : option positive :=
  match l with
  | [x01] => Some xH
  | x02 :: l => xO <$> bytes_pos l
  | x03 :: l => xI <$> bytes_pos l
  | _ => None
  end.

Lemma bytes_pos_bytes p : bytes_pos (pos_bytes p) = Some p.
Proof. induction p as [p IH|p IH|]; simpl; [by rewrite IH..|done]. Qed.

Section countable.
Context (A : Type) `{Countable A}.

Definition ref_write (a : A) : bytes := pos_bytes (encode a).
Definition ref_read (b : bytes) : Result string A :=
  match p ← bytes_pos b; decode p with Some a => Ok a | None => Err "syntax"%string end.

Lemma ref_read_write a : ref_read (ref_write a) = Ok a.
Proof. unfold ref_read, ref_write. rewrite bytes_pos_bytes. simpl. by rewrite decode_encode. Qed.

Lemma ref_read_empty : exists e, ref_read [] = Err e.
Proof. by eexists. Qed.

Definition ref_json : SerdeJson A := {| json_to_vec a := Ok (ref_write a); json_from_slice := ref_read |}.

Lemma ref_json_laws : @SerdeJsonLaws A ref_json.
Proof. intros a b [= <-]. apply ref_read_write. Qed.

Lemma ref_json_total fits : @SerdeJsonTotal A ref_json fits.
Proof. intros a _. by eexists. Qed.
End countable.
