(* ===== verification/OrdMap.v ===== *)
(** * Ordered maps

    [std::collections::BTreeMap] as a list of pairs in strictly ascending key
    order, with the operations the code uses: [get], [insert], [remove],
    [range(start..)], [range(start..end)] and iteration.  [om_wf] is the
    representation invariant; the lemmas show that every operation keeps it and
    that lookups see exactly the effect of the operation. *)

From stdpp Require Import base tactics list sorting.
From S2P Require Import Prelude.

Section ord_map.
Context {K V : Type} `{Ordered K}.
Implicit Types (m : list (K * V)) (k : K) (v : V).

Fixpoint om_get k m : option V :=
  match m with
  | [] => None
  | (k', v) :: m' =>
      match cmp k k' with
      | Lt => None
      | Eq => Some v
      | Gt => om_get k m'
      end
  end.

Fixpoint om_insert k v m : list (K * V) :=
  match m with
  | [] => [(k, v)]
  | (k', v') :: m' =>
      match cmp k k' with
      | Lt => (k, v) :: m
      | Eq => (k, v) :: m'
      | Gt => (k', v') :: om_insert k v m'
      end
  end.

Fixpoint om_remove k m : list (K * V) :=
  match m with
  | [] => []
  | (k', v') :: m' =>
      match cmp k k' with
      | Lt => m
      | Eq => m'
      | Gt => (k', v') :: om_remove k m'
      end
  end.

(** [range(start..)] and [range(start..end)]: the entries of the interval, in order. *)
Definition om_range_from (start : K) m : list (K * V) :=
  List.filter (fun kv => kleb start kv.1) m.
Definition om_range (start stop : K) m : list (K * V) :=
  List.filter (fun kv => kleb start kv.1 && kltb kv.1 stop) m.

Definition om_wf m : Prop := StronglySorted (fun a b => cmp a.1 b.1 = Lt) m.

(** Insertion and removal of many keys, in list order. *)
Definition om_insert_all (l : list (K * V)) m : list (K * V) :=
  fold_left (fun m kv => om_insert kv.1 kv.2 m) l m.
Definition om_remove_all (l : list K) m : list (K * V) :=
  fold_left (fun m k => om_remove k m) l m.

Lemma om_wf_nil : om_wf [].
Proof. constructor. Qed.

Lemma om_wf_tail kv m : om_wf (kv :: m) -> om_wf m.
Proof. by inversion 1. Qed.

Lemma om_wf_head k v m k' v' : om_wf ((k, v) :: m) -> (k', v') ∈ m -> cmp k k' = Lt.
Proof.
  inversion 1 as [|? ? _ Hall]; subst. intros Hin.
  rewrite Forall_forall in Hall. by apply (Hall (k', v')).
Qed.

Lemma om_insert_elem k v m k' v' :
  (k', v') ∈ om_insert k v m -> (k' = k /\ v' = v) \/ (k', v') ∈ m.
Proof.
  induction m as [|[k0 v0] m IH]; simpl.
  - rewrite list_elem_of_singleton. intros [= -> ->]. auto.
  - destruct (cmp k k0) eqn:E; rewrite !elem_of_cons; intros Hin; intuition congruence.
Qed.

Lemma om_remove_elem k m k' v' : (k', v') ∈ om_remove k m -> (k', v') ∈ m.
Proof.
  induction m as [|[k0 v0] m IH]; simpl; [done|].
  destruct (cmp k k0); rewrite ?elem_of_cons; intuition.
Qed.

Lemma om_insert_wf k v m : om_wf m -> om_wf (om_insert k v m).
Proof.
  induction m as [|[k0 v0] m IH]; intros Hwf; simpl.
  - repeat constructor.
  - destruct (cmp k k0) eqn:E.
    + apply cmp_eq_iff in E. subst k0. inversion Hwf; subst. by constructor.
    + constructor; [done|]. apply Forall_forall. intros [k1 v1] [[= -> ->]|Hin]%elem_of_cons; [done|].
      simpl. apply (cmp_lt_trans k k0 k1); [done|]. by eapply om_wf_head.
    + constructor; [by apply IH, (om_wf_tail _ _ Hwf)|].
      apply Forall_forall. intros [k1 v1] [[-> ->]|Hin]%om_insert_elem; simpl.
      * by apply cmp_gt_iff.
      * by eapply om_wf_head.
Qed.

Lemma om_remove_wf k m : om_wf m -> om_wf (om_remove k m).
Proof.
  induction m as [|[k0 v0] m IH]; intros Hwf; simpl; [done|].
  destruct (cmp k k0) eqn:E; [by eapply om_wf_tail|done|].
  constructor; [by apply IH, (om_wf_tail _ _ Hwf)|].
  apply Forall_forall. intros [k1 v1] Hin%om_remove_elem. by eapply om_wf_head.
Qed.

Lemma om_insert_all_wf l m : om_wf m -> om_wf (om_insert_all l m).
Proof. revert m. induction l as [|[k v] l IH]; intros m Hwf; simpl; auto using om_insert_wf. Qed.

Lemma om_remove_all_wf l m : om_wf m -> om_wf (om_remove_all l m).
Proof. revert m. induction l as [|k l IH]; intros m Hwf; simpl; auto using om_remove_wf. Qed.

Lemma om_get_below k m : (forall k' v', (k', v') ∈ m -> cmp k k' = Lt) -> om_get k m = None.
Proof. destruct m as [|[k0 v0] m]; intros Hb; simpl; [done|]. by rewrite (Hb k0 v0) by left. Qed.

Lemma om_get_elem k v m : om_wf m -> (om_get k m = Some v <-> (k, v) ∈ m).
Proof.
  induction m as [|[k0 v0] m IH]; intros Hwf; simpl.
  - rewrite elem_of_nil. done.
  - pose proof (om_wf_tail _ _ Hwf) as Htl. rewrite elem_of_cons.
    destruct (cmp k k0) eqn:E.
    + apply cmp_eq_iff in E. subst k0. split; [intros [= ->]; auto|].
      intros [[= ->]|Hin]; [done|]. exfalso. apply (cmp_lt_neq k k); [|done].
      by eapply om_wf_head.
    + split; [done|]. intros [[= -> ->]|Hin]; [by rewrite cmp_refl in E|].
      pose proof (om_wf_head _ _ _ _ _ Hwf Hin) as E'. apply cmp_gt_iff in E'. congruence.
    + rewrite IH by done. split; [auto|]. intros [[= -> ->]|Hin]; [|done].
      by rewrite cmp_refl in E.
Qed.

Lemma om_get_insert k v m k' :
  om_wf m -> om_get k' (om_insert k v m) = match cmp k' k with Eq => Some v | _ => om_get k' m end.
Proof.
  induction m as [|[k0 v0] m IH]; intros Hwf; simpl; [by destruct (cmp k' k)|].
  pose proof (om_wf_tail _ _ Hwf) as Htl. destruct (cmp k k0) eqn:E; simpl.
  - apply cmp_eq_iff in E. subst k0. destruct (cmp k' k) eqn:E'; try done.
  - destruct (cmp k' k) eqn:E'; try done. by rewrite (cmp_lt_trans k' k k0).
  - destruct (cmp k' k0) eqn:E0.
    + apply cmp_eq_iff in E0. subst k'. apply cmp_gt_iff in E. by rewrite E.
    + destruct (cmp k' k) eqn:E'; try done. exfalso.
      apply cmp_eq_iff in E'. subst k'. congruence.
    + by apply IH.
Qed.

Lemma om_get_remove k m k' :
  om_wf m -> om_get k' (om_remove k m) = match cmp k' k with Eq => None | _ => om_get k' m end.
Proof.
  induction m as [|[k0 v0] m IH]; intros Hwf; simpl; [by destruct (cmp k' k)|].
  pose proof (om_wf_tail _ _ Hwf) as Htl. destruct (cmp k k0) eqn:E; simpl.
  - apply cmp_eq_iff in E. subst k0. destruct (cmp k' k) eqn:E'.
    + apply om_get_below. intros k1 v1 Hin. apply cmp_eq_iff in E'. subst k'. by eapply om_wf_head.
    + apply om_get_below. intros k1 v1 Hin. apply (cmp_lt_trans k' k k1); [done|]. by eapply om_wf_head.
    + done.
  - destruct (cmp k' k) eqn:E'; try done. apply cmp_eq_iff in E'. subst k'. by rewrite E.
  - destruct (cmp k' k0) eqn:E0.
    + apply cmp_eq_iff in E0. subst k'. apply cmp_gt_iff in E. by rewrite E.
    + destruct (cmp k' k) eqn:E'; try done.
    + by apply IH.
Qed.

Lemma om_get_insert_decide `{EqDecision K} k v m k' :
  om_wf m -> om_get k' (om_insert k v m) = if bool_decide (k' = k) then Some v else om_get k' m.
Proof.
  intros Hwf. rewrite om_get_insert by done. destruct (cmp k' k) eqn:E.
  - apply cmp_eq_iff in E. by rewrite bool_decide_eq_true_2.
  - apply cmp_lt_neq in E. by rewrite bool_decide_eq_false_2.
  - apply cmp_gt_iff, cmp_lt_neq in E. by rewrite bool_decide_eq_false_2.
Qed.

Lemma om_get_remove_decide `{EqDecision K} k m k' :
  om_wf m -> om_get k' (om_remove k m) = if bool_decide (k' = k) then None else om_get k' m.
Proof.
  intros Hwf. rewrite om_get_remove by done. destruct (cmp k' k) eqn:E.
  - apply cmp_eq_iff in E. by rewrite bool_decide_eq_true_2.
  - apply cmp_lt_neq in E. by rewrite bool_decide_eq_false_2.
  - apply cmp_gt_iff, cmp_lt_neq in E. by rewrite bool_decide_eq_false_2.
Qed.

(** Two well-formed maps with the same lookups are the same map. *)
Lemma om_ext m1 m2 :
  om_wf m1 -> om_wf m2 -> (forall k, om_get k m1 = om_get k m2) -> m1 = m2.
Proof.
  revert m2. induction m1 as [|[k1 v1] m1 IH]; intros [|[k2 v2] m2] Hw1 Hw2 Hg; [done| | |].
  - specialize (Hg k2). simpl in Hg. by rewrite cmp_refl in Hg.
  - specialize (Hg k1). simpl in Hg. by rewrite cmp_refl in Hg.
  - assert (k1 = k2 /\ v1 = v2) as [-> ->].
    { pose proof (Hg k1) as G1. pose proof (Hg k2) as G2. simpl in G1, G2.
      rewrite !cmp_refl in G1, G2. destruct (cmp k1 k2) eqn:E.
      - apply cmp_eq_iff in E. subst. split; congruence.
      - done.
      - apply cmp_gt_iff in E. by rewrite E in G2. }
    f_equal. apply IH; [by eapply om_wf_tail..|]. intros k.
    pose proof (Hg k) as G. simpl in G. destruct (cmp k k2) eqn:E; [| |done].
    + apply cmp_eq_iff in E. subst k.
      rewrite !om_get_below; [done|by intros; eapply (om_wf_head k2 v2 m2)|by intros; eapply (om_wf_head k2 v2 m1)].
    + rewrite !om_get_below; [done| |]; intros k' v' Hin; apply (cmp_lt_trans k k2 k'); try done;
        eauto using om_wf_head.
Qed.

Lemma om_filter_wf (f : K * V -> bool) m : om_wf m -> om_wf (List.filter f m).
Proof.
  induction m as [|[k v] m IH]; intros Hwf; simpl; [done|].
  pose proof (om_wf_tail _ _ Hwf) as Htl. destruct (f (k, v)); [|by apply IH].
  constructor; [by apply IH|]. apply Forall_forall. intros [k' v'] Hin. simpl.
  apply list_elem_of_In, filter_In in Hin as [Hin _]. apply list_elem_of_In in Hin.
  by eapply om_wf_head.
Qed.

Lemma om_range_from_elem s m kv : kv ∈ om_range_from s m <-> kv ∈ m /\ kleb s kv.1 = true.
Proof. unfold om_range_from. by rewrite !list_elem_of_In, filter_In. Qed.

Lemma om_range_elem s e m kv :
  kv ∈ om_range s e m <-> kv ∈ m /\ kleb s kv.1 = true /\ kltb kv.1 e = true.
Proof. unfold om_range. by rewrite !list_elem_of_In, filter_In, andb_true_iff. Qed.

(** The walk from [s] that stops at the first key failing [f] sees exactly the
    keys of the range that satisfy [f], when [f] holds on an initial interval. *)
Lemma om_take_while_range s (f : K * V -> bool) m :
  om_wf m ->
  (forall a b, a ∈ m -> b ∈ m -> kleb s a.1 = true -> kleb a.1 b.1 = true -> f b = true -> f a = true) ->
  take_while f (om_range_from s m) = List.filter (fun kv => kleb s kv.1 && f kv) m.
Proof.
  unfold om_range_from. induction m as [|[k v] m IH]; intros Hwf Hint; simpl; [done|].
  pose proof (om_wf_tail _ _ Hwf) as Htl.
  assert (IH' := IH Htl (fun a b Ha Hb => Hint a b (list_elem_of_further _ _ _ Ha) (list_elem_of_further _ _ _ Hb))).
  destruct (kleb s k) eqn:Es; simpl; [|done]. destruct (f (k, v)) eqn:Ef; [by f_equal|].
  symmetry.
  rewrite (List.filter_ext_in _ (fun _ => false)); [clear; by induction m|].
  intros [k' v'] Hin%list_elem_of_In. simpl.
  destruct (kleb s k') eqn:Es'; [|done]. destruct (f (k', v')) eqn:Ef'; [|done].
  exfalso. enough (f (k, v) = true) by congruence.
  apply (Hint (k, v) (k', v')); [left|by right|done| |done].
  unfold kleb. simpl. by rewrite (om_wf_head _ _ _ _ _ Hwf Hin).
Qed.

(** Inserting the rows of a sorted map into another lets them win. *)
Lemma om_get_union l m k :
  om_wf l -> om_wf m ->
  om_get k (om_insert_all l m) = match om_get k l with Some v => Some v | None => om_get k m end.
Proof.
  revert m. induction l as [|[k0 v0] l IH]; intros m Hl Hm; [done|].
  pose proof (om_wf_tail _ _ Hl) as Htl. unfold om_insert_all in *. cbn [fold_left om_get fst snd].
  rewrite IH, om_get_insert by auto using om_insert_wf.
  destruct (cmp k k0) eqn:E; [| |done]; rewrite om_get_below; try done.
  - apply cmp_eq_iff in E. subst. intros. by eapply om_wf_head.
  - intros k' v' Hin. eapply cmp_lt_trans; [done|]. by eapply om_wf_head.
Qed.

Lemma om_insert_all_self rows : om_wf rows -> om_insert_all rows [] = rows.
Proof.
  intros Hwf. apply om_ext; [by apply om_insert_all_wf, om_wf_nil|done|].
  intros k. rewrite om_get_union by auto using om_wf_nil. by destruct (om_get k rows).
Qed.

Lemma om_insert_fresh k v m kv :
  om_wf m -> om_get k m = None -> kv ∈ om_insert k v m <-> kv = (k, v) \/ kv ∈ m.
Proof.
  intros Hwf Hk. destruct kv as [k' v'].
  rewrite <- !om_get_elem, om_get_insert by (done || by apply om_insert_wf).
  destruct (cmp k' k) eqn:E.
  - apply cmp_eq_iff in E as ->. rewrite Hk. split; [intros [= ->]; by left|]. intros [[= ->]|?]; congruence.
  - apply cmp_lt_neq in E. split; [by right|]. intros [[= ? ?]|?]; congruence.
  - apply cmp_gt_iff, cmp_lt_neq in E. split; [by right|]. intros [[= ? ?]|?]; congruence.
Qed.

(** Rows with new and distinct keys are added beside the others. *)
Lemma om_insert_all_fresh l m kv :
  om_wf m -> NoDup l.*1 -> (forall a, a ∈ l -> om_get a.1 m = None) ->
  kv ∈ om_insert_all l m <-> kv ∈ l \/ kv ∈ m.
Proof.
  revert m. induction l as [|[k v] l IH]; intros m Hwf Hnd Hf; simpl; [rewrite elem_of_nil; intuition|].
  apply NoDup_cons in Hnd as [Hk Hnd]. rewrite IH; [|by apply om_insert_wf|done|].
  - rewrite om_insert_fresh by (done || apply (Hf (k, v)); left). rewrite elem_of_cons. intuition.
  - intros a Ha. rewrite om_get_insert by done. rewrite (Hf a) by by right.
    destruct (cmp a.1 k) eqn:E; [|done..]. apply cmp_eq_iff in E. destruct Hk. rewrite <- E.
    change (a.1 ∈ fst <$> l). by apply list_elem_of_fmap_2.
Qed.
End ord_map.
