(* ===== verification/History.v ===== *)
(** * Version-history keys and values

    The order-preserving encodings of [byoridb-kvstore/src/store.rs] under which
    the bitemporal versions of an entity sort newest-first: [desc_i64],
    [history_key], [history_prefix], [parse_history_key_times],
    [encode_history_value], [decode_history_value].

    The lemmas give the round trips, the exact comparison of two history keys,
    and the fact that the history rows of distinct entities never interleave. *)

From Stdlib Require Import ZArith Lia Strings.Byte.
From stdpp Require Import base tactics list.
From S2P Require Import Prelude.

(** ** Data *)

Definition VALID_OPEN : Z := I64_MAX.

Record VersionRecord := {
  valid_from : Z;
  valid_to : Z;
  tx : Z;
  value : bytes
}.

(** ** Encodings *)

(** [(!((v as u64) ^ (1u64 << 63))).to_be_bytes()]. *)
Definition desc_i64 (v : Z) : bytes := be_bytes 8 (u64_not (flip_sign (as_u64 v))).

(** [((!u64::from_be_bytes(arr)) ^ (1u64 << 63)) as i64]. *)
Definition undesc_i64 (b : bytes) : Z := as_i64 (flip_sign (u64_not (of_be b))).

Definition history_key (entity_key : bytes) (valid_from tx : Z) : bytes :=
  entity_key ++ [x00] ++ desc_i64 valid_from ++ desc_i64 tx.

Definition history_prefix (entity_key : bytes) : bytes := entity_key ++ [x00].

Definition parse_history_key_times (key : bytes) : option (Z * Z) :=
  if (length key <? 16)%nat then None
  else
    let vf := undesc_i64 (take 8 (drop (length key - 16) key)) in
    let tx := undesc_i64 (drop (length key - 8) key) in
    Some (vf, tx).

Definition encode_history_value (valid_to : Z) (payload : bytes) : bytes :=
  i64_to_be valid_to ++ payload.

Definition decode_history_value (v : bytes) : option (Z * bytes) :=
  if (length v <? 8)%nat then None
  else Some (i64_of_be (take 8 v), drop 8 v).

#[global] Arguments desc_i64 : simpl never.
#[global] Arguments undesc_i64 : simpl never.
#[global] Arguments history_key : simpl never.
#[global] Arguments history_prefix : simpl never.
#[global] Arguments parse_history_key_times : simpl never.
#[global] Arguments encode_history_value : simpl never.
#[global] Arguments decode_history_value : simpl never.

(** ** The descending encoding *)

Lemma desc_word_ok v : u64_ok (u64_not (flip_sign (as_u64 v))).
Proof.
  pose proof (as_u64_ok v) as Hu. rewrite flip_sign_spec by done.
  unfold u64_ok, two64, two63 in *.
  rewrite u64_not_spec; unfold u64_ok, two64;
    destruct (Z.ltb_spec (as_u64 v) (2 ^ 63)); lia.
Qed.

(** The encoded word is [2^63 - 1 - v]: the order of [i64] reversed. *)
Lemma desc_word v : i64_ok v -> u64_not (flip_sign (as_u64 v)) = two63 - 1 - v.
Proof.
  intros Hv. pose proof (as_u64_ok v) as Hu.
  rewrite flip_sign_spec by done. rewrite as_u64_signed by done.
  rewrite as_u64_signed in Hu by done. unfold u64_ok, i64_ok, two64, two63 in *.
  destruct (Z.ltb_spec v 0).
  - destruct (Z.ltb_spec (v + 2 ^ 64) (2 ^ 63)); [lia|].
    rewrite u64_not_spec; unfold u64_ok, two64; lia.
  - destruct (Z.ltb_spec v (2 ^ 63)); [|lia].
    rewrite u64_not_spec; unfold u64_ok, two64; lia.
Qed.

Lemma length_desc_i64 v : length (desc_i64 v) = 8%nat.
Proof. apply length_be_bytes. Qed.

Lemma u64_not_invol a : u64_not (u64_not a) = a.
Proof. unfold u64_not. by rewrite Z.lxor_assoc, Z.lxor_nilpotent, Z.lxor_0_r. Qed.

Lemma flip_sign_invol a : flip_sign (flip_sign a) = a.
Proof. unfold flip_sign. by rewrite Z.lxor_assoc, Z.lxor_nilpotent, Z.lxor_0_r. Qed.

Lemma undesc_desc v : i64_ok v -> undesc_i64 (desc_i64 v) = v.
Proof.
  intros Hv. unfold undesc_i64, desc_i64.
  rewrite of_be_be_bytes_small by apply (desc_word_ok v).
  rewrite u64_not_invol, flip_sign_invol. by apply as_i64_as_u64.
Qed.

Lemma desc_i64_cmp a b : i64_ok a -> i64_ok b -> bytes_cmp (desc_i64 a) (desc_i64 b) = (b ?= a).
Proof.
  intros Ha Hb. unfold desc_i64.
  rewrite bytes_cmp_be_bytes by apply desc_word_ok.
  rewrite !desc_word by done.
  destruct (Z.compare_spec b a); [apply Z.compare_eq_iff|apply Z.compare_lt_iff|apply Z.compare_gt_iff]; lia.
Qed.

(** ** Round trips *)

Lemma length_history_key e vf t : length (history_key e vf t) = (length e + 17)%nat.
Proof.
  unfold history_key. rewrite !length_app, !length_desc_i64. simpl. lia.
Qed.

Lemma history_key_prefix e vf t :
  history_key e vf t = history_prefix e ++ desc_i64 vf ++ desc_i64 t.
Proof. unfold history_key, history_prefix. by rewrite <- !app_assoc. Qed.

Lemma parse_history_key e vf t :
  i64_ok vf -> i64_ok t -> parse_history_key_times (history_key e vf t) = Some (vf, t).
Proof.
  intros Hvf Ht. unfold parse_history_key_times. rewrite length_history_key.
  destruct (Nat.ltb_spec (length e + 17) 16); [lia|].
  rewrite history_key_prefix.
  assert (Hp : length (history_prefix e) = (length e + 1)%nat)
    by (unfold history_prefix; rewrite length_app; done).
  rewrite (drop_app_exact (history_prefix e)) by lia.
  rewrite take_app_exact by by rewrite length_desc_i64.
  rewrite (app_assoc (history_prefix e)), drop_app_exact
    by (rewrite length_app, length_desc_i64; lia).
  by rewrite !undesc_desc.
Qed.

Lemma decode_encode_history_value vt p :
  i64_ok vt -> decode_history_value (encode_history_value vt p) = Some (vt, p).
Proof.
  intros Hvt. unfold decode_history_value, encode_history_value.
  assert (Hl : length (i64_to_be vt) = 8%nat) by apply length_be_bytes.
  rewrite length_app, Hl. destruct (Nat.ltb_spec (8 + length p) 8); [lia|].
  rewrite take_app_exact, drop_app_exact by done. by rewrite i64_be_roundtrip.
Qed.

(** ** Order of history keys *)

(** Entity keys are ASCII text, so they hold no [0x00]. *)
Definition zero_free (e : bytes) : Prop := x00 ∉ e.

Definition zero_freeb (e : bytes) : bool := forallb (fun b => negb (bool_decide (b = x00))) e.

Lemma zero_freeb_ok e : zero_freeb e = true -> zero_free e.
Proof.
  unfold zero_freeb, zero_free. rewrite forallb_forall. intros H Hin%list_elem_of_In.
  by specialize (H _ Hin).
Qed.

Lemma zero_free_cons b e : zero_free (b :: e) <-> b <> x00 /\ zero_free e.
Proof. unfold zero_free. rewrite elem_of_cons. intuition. Qed.

Lemma b2z_nonzero b : b <> x00 -> 0 < b2z b.
Proof.
  intros Hb. pose proof (b2z_bound b). destruct (Z.eq_dec (b2z b) 0) as [E|]; [|lia].
  exfalso. apply Hb, b2z_inj. by rewrite E.
Qed.

(** The separator makes the order of the rows of two entities the order of the
    entity keys, whatever follows. *)
Lemma bytes_cmp_separated e1 e2 x y :
  zero_free e1 -> zero_free e2 ->
  bytes_cmp (e1 ++ x00 :: x) (e2 ++ x00 :: y) =
    match bytes_cmp e1 e2 with Eq => bytes_cmp x y | c => c end.
Proof.
  revert e2. induction e1 as [|b1 e1 IH]; intros [|b2 e2]; rewrite ?zero_free_cons; simpl.
  - done.
  - intros _ [Hb _]. apply b2z_nonzero in Hb. by destruct (b2z b2).
  - intros [Hb _] _. apply b2z_nonzero in Hb. by destruct (b2z b1).
  - intros [_ H1] [_ H2]. destruct (b2z b1 ?= b2z b2); [by apply IH|done|done].
Qed.

(** Newest first: by descending [valid_from], then descending [tx]. *)
Definition version_cmp (vf1 tx1 vf2 tx2 : Z) : comparison :=
  match vf2 ?= vf1 with Eq => tx2 ?= tx1 | c => c end.

Lemma history_key_cmp e1 e2 vf1 tx1 vf2 tx2 :
  zero_free e1 -> zero_free e2 ->
  i64_ok vf1 -> i64_ok tx1 -> i64_ok vf2 -> i64_ok tx2 ->
  bytes_cmp (history_key e1 vf1 tx1) (history_key e2 vf2 tx2) =
    match bytes_cmp e1 e2 with Eq => version_cmp vf1 tx1 vf2 tx2 | c => c end.
Proof.
  intros He1 He2 Hv1 Ht1 Hv2 Ht2. unfold history_key. cbn [app].
  rewrite bytes_cmp_separated by done.
  rewrite bytes_cmp_app by by rewrite !length_desc_i64.
  by rewrite !desc_i64_cmp.
Qed.

(** A row lies under the prefix of exactly its own entity. *)
Lemma history_key_under_prefix e e' vf t :
  zero_free e -> zero_free e' ->
  starts_with (history_prefix e) (history_key e' vf t) = bool_decide (e = e').
Proof.
  intros He He'.
  destruct (starts_with _ _) eqn:E; symmetry;
    [apply bool_decide_eq_true | apply bool_decide_eq_false].
  - apply starts_with_iff in E as [r Hr]. unfold history_prefix, history_key in Hr.
    rewrite <- app_assoc in Hr. simpl in Hr.
    revert e He He' Hr. induction e' as [|b' e' IH]; intros [|b e];
      rewrite ?zero_free_cons; simpl; intros He He' Hr; try done.
    + injection Hr as Hb _. by destruct He as [[] _].
    + injection Hr as Hb _. by destruct He' as [[] _].
    + injection Hr as -> Hr. f_equal. by apply IH; [apply He|apply He'|].
  - intros <-. rewrite history_key_prefix, starts_with_app in E. done.
Qed.
