(* ===== verification/KVStore.v ===== *)
(** * The key-value store interface and the in-memory store

    [byoridb-kvstore/src/store.rs]: the [KVStore] trait and [MemoryKVStore].

    - [KVStoreRequired] is the trait's required part; the trait's default
      method bodies are the [default_*] definitions over it.
    - [Memory] holds the methods of [MemoryKVStore], over its two ordered maps
      (the current view and the version history).

    Every operation is a function of the store state that returns the method's
    [Result] and the state after the call. *)

From Stdlib Require Import ZArith Lia Strings.Byte Strings.String.
From stdpp Require Import base tactics list strings pretty.
From S2P Require Import Prelude OrdMap History.

(** ** Errors *)

Inductive KVStoreError :=
| RedbDatabase (msg : string)
| RedbTransaction (msg : string)
| RedbTable (msg : string)
| RedbStorage (msg : string)
| RedbCommit (msg : string)
| RedbSetDurability (msg : string)
| KeyNotFound (key : bytes)
| Raft (msg : string)
| Wal (msg : string)
| Serialization (msg : string)
| Io (msg : string)
| StoreClosed.

(** ** Errors as text *)

(** [{:?}] of a byte vector. *)
Definition debug_bytes (l : bytes) : string :=
  ("[" +:+ String.concat ", " ((fun b => pretty (b2z b)) <$> l) +:+ "]")%string.

Definition KVStoreError_to_string (e : KVStoreError) : string :=
  match e with
  | RedbDatabase m => ("redb database error: " +:+ m)%string
  | RedbTransaction m => ("redb transaction error: " +:+ m)%string
  | RedbTable m => ("redb table error: " +:+ m)%string
  | RedbStorage m => ("redb storage error: " +:+ m)%string
  | RedbCommit m => ("redb commit error: " +:+ m)%string
  | RedbSetDurability m => ("redb set-durability error: " +:+ m)%string
  | KeyNotFound k => ("Key not found: " +:+ debug_bytes k)%string
  | Raft m => ("Raft error: " +:+ m)%string
  | Wal m => ("WAL error: " +:+ m)%string
  | Serialization m => ("Serialization error: " +:+ m)%string
  | Io m => ("IO error: " +:+ m)%string
  | StoreClosed => "Store closed"%string
  end.

Abbreviation KVResult := (Result KVStoreError).
Abbreviation kv_pair := (bytes * bytes)%type.
(** [(entity_key, valid_from, valid_to, tx, value)]. *)
Abbreviation VersionRow := (bytes * Z * Z * Z * bytes)%type.

(** A method call: the state before, the result, the state after. *)
Abbreviation KVOp S A := (S -> KVResult A * S).

(** ** The trait: required methods *)

Class KVStoreRequired (S : Type) := {
  kv_get : bytes -> KVOp S (option bytes);
  kv_put : bytes -> bytes -> KVOp S unit;
  kv_put_if_absent : bytes -> bytes -> KVOp S (option bytes);
  kv_delete : bytes -> KVOp S unit;
  kv_batch_put : list kv_pair -> KVOp S unit;
  kv_batch_delete : list bytes -> KVOp S unit;
  kv_put_version : bytes -> Z -> Z -> Z -> bytes -> KVOp S unit;
  kv_scan_history : bytes -> KVOp S (list VersionRecord);
  kv_scan_history_entity_keys : bytes -> KVOp S (list bytes);
  kv_batch_put_version : list VersionRow -> KVOp S unit;
  kv_scan_prefix : bytes -> KVOp S (list kv_pair);
  kv_batch_get : list bytes -> KVOp S (list (option bytes))
}.

(** Sequencing of method calls ([.await?]). *)
Definition kv_bind {S A B} (c : KVOp S A) (k : A -> KVOp S B) : KVOp S B :=
  fun s => match c s with
           | (Ok a, s') => k a s'
           | (Err e, s') => (Err e, s')
           end.
Definition kv_ret {S A} (a : A) : KVOp S A := fun s => (Ok a, s).

Notation "x <-? c ;; k" := (kv_bind c (fun x => k))
  (at level 100, c at next level, right associativity) : byori_scope.
Notation "c ;;? k" := (kv_bind c (fun _ => k))
  (at level 100, right associativity) : byori_scope.

(** Run a method for each element of a list, stopping at the first error. *)
Fixpoint kv_for_each {S A} (f : A -> KVOp S unit) (l : list A) : KVOp S unit :=
  match l with
  | [] => kv_ret tt
  | x :: l' => f x ;;? kv_for_each f l'
  end.

(** [.take(limit.unwrap_or(usize::MAX))]. *)
Definition take_limit {A} (limit : option nat) (l : list A) : list A :=
  match limit with Some n => take n l | None => l end.

(** Length of the common prefix of two byte strings. *)
Fixpoint common_len (a b : bytes) : nat :=
  match a, b with
  | x :: a', y :: b' => if bool_decide (x = y) then S (common_len a' b') else O
  | _, _ => O
  end.

(** ** The trait: default methods *)

Section defaults.
Context {S : Type} `{KVStoreRequired S}.

(** Sequential fallback for stores without cross-keyspace transactions. *)
Definition default_batch_apply (puts : list kv_pair) (deletes : list bytes)
    (versions : list VersionRow) : KVOp S unit :=
  (match puts with [] => kv_ret tt | _ => kv_batch_put puts end) ;;?
  (match deletes with [] => kv_ret tt | _ => kv_batch_delete deletes end) ;;?
  (match versions with [] => kv_ret tt | _ => kv_batch_put_version versions end) ;;?
  kv_ret tt.

(** [(b.valid_from, b.tx) >= (v.valid_from, v.tx)], the tuple order. *)
Definition version_ge (b v : VersionRecord) : bool :=
  (valid_from v <? valid_from b) ||
  ((valid_from v =? valid_from b) && (tx v <=? tx b)).

(** The version qualifies for a read at [valid_at] with knowledge up to [tx_at]. *)
Definition version_qualifies (valid_at tx_at : Z) (v : VersionRecord) : bool :=
  (tx v <=? tx_at) && (valid_from v <=? valid_at) && (valid_at <? valid_to v).

(** One iteration of the loop of the default [get_as_of]. *)
Definition best_step (valid_at tx_at : Z) (best : option VersionRecord) (v : VersionRecord)
    : option VersionRecord :=
  if version_qualifies valid_at tx_at v then
    match best with
    | Some b => if version_ge b v then best else Some v
    | None => Some v
    end
  else best.

Definition default_get_as_of (entity_key : bytes) (valid_at tx_at : Z)
    : KVOp S (option bytes) :=
  versions <-? kv_scan_history entity_key ;;
  let best := fold_left (best_step valid_at tx_at) versions None in
  kv_ret (value <$> best).

(** The default [delete_prefix_chunked]. *)
Definition default_delete_prefix_chunked (prefix : bytes) (chunk : nat) : KVOp S nat :=
  entries <-? kv_scan_prefix prefix ;;
  let n := length entries in
  let keys := fst <$> entries in
  let chunk := Nat.max chunk 1 in
  kv_for_each kv_batch_delete (chunks chunk keys) ;;?
  kv_ret n.

Definition default_count_prefix (prefix : bytes) : KVOp S nat :=
  entries <-? kv_scan_prefix prefix ;;
  kv_ret (length entries).

Fixpoint default_count_prefixes (prefixes : list bytes) : KVOp S (list nat) :=
  match prefixes with
  | [] => kv_ret []
  | p :: ps =>
      n <-? default_count_prefix p ;;
      ns <-? default_count_prefixes ps ;;
      kv_ret (n :: ns)
  end.

(** The value of a counter cell: the first eight bytes, little endian; 0 when
    the key is absent or its value is shorter. *)
Definition counter_value (cell : option bytes) : Z :=
  match cell with
  | Some b => if (8 <=? length b)%nat then i64_of_le (take 8 b) else 0
  | None => 0
  end.

(** One iteration of the default [add_counters]. *)
Definition default_add_counter (kd : bytes * Z) : KVOp S unit :=
  let '(key, delta) := kd in
  cell <-? kv_get key ;;
  let cur := counter_value cell in
  let new := as_i64 (cur + delta) in
  if new <=? 0 then kv_delete key else kv_put key (i64_to_le new).

Definition default_add_counters (deltas : list (bytes * Z)) : KVOp S unit :=
  kv_for_each default_add_counter deltas.

Definition default_scan_range (start stop : bytes) (limit : option nat)
    : KVOp S (list kv_pair) :=
  if kleb stop start || bool_decide (limit = Some O) then kv_ret []
  else
    entries <-? kv_scan_prefix (take (common_len start stop) start) ;;
    kv_ret (take_limit limit
      (List.filter (fun kv => kleb start kv.1 && kltb kv.1 stop) entries)).

Definition default_scan_with_filter (prefix : bytes) (filter : bytes -> bytes -> bool)
    (limit : option nat) : KVOp S (list kv_pair) :=
  results <-? kv_scan_prefix prefix ;;
  kv_ret (take_limit limit (List.filter (fun kv => filter kv.1 kv.2) results)).

Definition default_scan_prefix_limited (prefix : bytes) (limit : option nat)
    : KVOp S (list kv_pair) :=
  default_scan_with_filter prefix (fun _ _ => true) limit.
End defaults.

(** The loop of the default [scan_with_filter_visit]: the visitor is a closure
    over a state of type [X]. *)
Fixpoint visit_rows {X} (visitor : X -> bytes -> bytes -> bool * X) (rows : list kv_pair)
    (x : X) : nat * X :=
  match rows with
  | [] => (O, x)
  | (k, v) :: rows' =>
      let '(continue, x') := visitor x k v in
      if negb continue then (1%nat, x')
      else let '(n, x'') := visit_rows visitor rows' x' in (S n, x'')
  end.

Definition default_scan_with_filter_visit {S} `{KVStoreRequired S} {X} (prefix : bytes)
    (filter : bytes -> bytes -> bool) (visitor : X -> bytes -> bytes -> bool * X)
    (limit : option nat) (x : X) : KVOp S (nat * X) :=
  results <-? default_scan_with_filter prefix filter limit ;;
  kv_ret (visit_rows visitor results x).

(** ** [MemoryKVStore] *)

Record MemoryKVStore := {
  data : list kv_pair;
  history : list kv_pair
}.

Definition with_data (s : MemoryKVStore) (d : list kv_pair) : MemoryKVStore :=
  {| data := d; history := history s |}.
Definition with_history (s : MemoryKVStore) (h : list kv_pair) : MemoryKVStore :=
  {| data := data s; history := h |}.

(** A version row as the entry it adds to the history map. *)
Definition version_entry (r : VersionRow) : kv_pair :=
  let '(ek, vf, vt, t, val) := r in (history_key ek vf t, encode_history_value vt val).

(** Parts of a version row. *)
Definition row_entity (r : VersionRow) : bytes := let '(e, _, _, _, _) := r in e.
Definition row_tx (r : VersionRow) : Z := let '(_, _, _, t, _) := r in t.
Definition row_record (r : VersionRow) : VersionRecord :=
  let '(_, vf, vt, t, val) := r in {| valid_from := vf; valid_to := vt; tx := t; value := val |}.

(** The loop of [scan_history] over the rows from the prefix on. *)
Fixpoint history_rows (prefix : bytes) (rows : list kv_pair) : list VersionRecord :=
  match rows with
  | [] => []
  | (k, v) :: rows' =>
      if negb (starts_with prefix k) then []
      else
        match parse_history_key_times k, decode_history_value v with
        | Some (vf, t), Some (vt, val) =>
            {| valid_from := vf; valid_to := vt; tx := t; value := val |}
              :: history_rows prefix rows'
        | _, _ => history_rows prefix rows'
        end
  end.

(** The loop of the seek-based [get_as_of]. *)
Fixpoint as_of_rows (prefix : bytes) (valid_at tx_at : Z) (rows : list kv_pair) : option bytes :=
  match rows with
  | [] => None
  | (k, v) :: rows' =>
      if negb (starts_with prefix k) then None
      else
        match parse_history_key_times k, decode_history_value v with
        | Some (_, t), Some (vt, val) =>
            if (t <=? tx_at) && (valid_at <? vt) then Some val
            else as_of_rows prefix valid_at tx_at rows'
        | _, _ => as_of_rows prefix valid_at tx_at rows'
        end
  end.

(** The loop of [scan_history_entity_keys]; [out] is the vector under
    construction. *)
Fixpoint entity_key_rows (prefix : bytes) (rows : list kv_pair) (out : list bytes) : list bytes :=
  match rows with
  | [] => out
  | (k, _) :: rows' =>
      if negb (starts_with prefix k) then out
      else if (length k <? 17)%nat || negb (bool_decide (k !! (length k - 17)%nat = Some x00))
      then entity_key_rows prefix rows' out
      else
        let entity := take (length k - 17) k in
        if bool_decide (last out = Some entity) then entity_key_rows prefix rows' out
        else entity_key_rows prefix rows' (out ++ [entity])
  end.

Module Memory.

Definition new : MemoryKVStore := {| data := []; history := [] |}.

Definition get (key : bytes) : KVOp MemoryKVStore (option bytes) :=
  fun s => (Ok (om_get key (data s)), s).

Definition put (key value : bytes) : KVOp MemoryKVStore unit :=
  fun s => (Ok tt, with_data s (om_insert key value (data s))).

Definition put_if_absent (key value : bytes) : KVOp MemoryKVStore (option bytes) :=
  fun s =>
    match om_get key (data s) with
    | Some existing => (Ok (Some existing), s)
    | None => (Ok None, with_data s (om_insert key value (data s)))
    end.

Definition put_version (entity_key : bytes) (valid_from valid_to tx : Z) (value : bytes)
    : KVOp MemoryKVStore unit :=
  fun s => (Ok tt, with_history s
    (om_insert (history_key entity_key valid_from tx)
               (encode_history_value valid_to value) (history s))).

Definition batch_put_version (versions : list VersionRow) : KVOp MemoryKVStore unit :=
  fun s => (Ok tt, with_history s (om_insert_all (version_entry <$> versions) (history s))).

Definition scan_history_entity_keys (entity_prefix : bytes) : KVOp MemoryKVStore (list bytes) :=
  fun s => (Ok (entity_key_rows entity_prefix (om_range_from entity_prefix (history s)) []), s).

Definition batch_apply (puts : list kv_pair) (deletes : list bytes) (versions : list VersionRow)
    : KVOp MemoryKVStore unit :=
  fun s =>
    (Ok tt, {| data := om_remove_all deletes (om_insert_all puts (data s));
               history := om_insert_all (version_entry <$> versions) (history s) |}).

Definition get_as_of (entity_key : bytes) (valid_at tx_at : Z)
    : KVOp MemoryKVStore (option bytes) :=
  fun s =>
    let prefix := history_prefix entity_key in
    let start := history_key entity_key valid_at tx_at in
    (Ok (as_of_rows prefix valid_at tx_at (om_range_from start (history s))), s).

Definition scan_history (entity_key : bytes) : KVOp MemoryKVStore (list VersionRecord) :=
  fun s =>
    let prefix := history_prefix entity_key in
    (Ok (history_rows prefix (om_range_from prefix (history s))), s).

Definition delete (key : bytes) : KVOp MemoryKVStore unit :=
  fun s => (Ok tt, with_data s (om_remove key (data s))).

Definition batch_put (pairs : list kv_pair) : KVOp MemoryKVStore unit :=
  fun s => (Ok tt, with_data s (om_insert_all pairs (data s))).

Definition batch_delete (keys : list bytes) : KVOp MemoryKVStore unit :=
  fun s => (Ok tt, with_data s (om_remove_all keys (data s))).

Definition scan_prefix (prefix : bytes) : KVOp MemoryKVStore (list kv_pair) :=
  fun s => (Ok (take_while (fun kv => starts_with prefix kv.1)
                 (om_range_from prefix (data s))), s).

Definition scan_range (start stop : bytes) (limit : option nat)
    : KVOp MemoryKVStore (list kv_pair) :=
  fun s =>
    if kleb stop start || bool_decide (limit = Some O) then (Ok [], s)
    else (Ok (take_limit limit (om_range start stop (data s))), s).

Definition batch_get (keys : list bytes) : KVOp MemoryKVStore (list (option bytes)) :=
  fun s => (Ok ((fun k => om_get k (data s)) <$> keys), s).

Definition scan_with_filter (prefix : bytes) (filter : bytes -> bytes -> bool)
    (limit : option nat) : KVOp MemoryKVStore (list kv_pair) :=
  fun s =>
    (Ok (take_limit limit
      (List.filter (fun kv => filter kv.1 kv.2)
        (take_while (fun kv => starts_with prefix kv.1) (om_range_from prefix (data s))))), s).

(** The loop of [scan_with_filter_visit]; [visited] counts the rows shown to
    the visitor, [limit = None] is [usize::MAX]. *)
Fixpoint visit_loop {X} (filter : bytes -> bytes -> bool)
    (visitor : X -> bytes -> bytes -> bool * X) (limit : option nat)
    (rows : list kv_pair) (visited : nat) (x : X) : nat * X :=
  match rows with
  | [] => (visited, x)
  | (k, v) :: rows' =>
      if filter k v then
        let visited := S visited in
        let '(continue, x') := visitor x k v in
        if negb continue || match limit with Some n => (n <=? visited)%nat | None => false end
        then (visited, x')
        else visit_loop filter visitor limit rows' visited x'
      else visit_loop filter visitor limit rows' visited x
  end.

Definition scan_with_filter_visit {X} (prefix : bytes) (filter : bytes -> bytes -> bool)
    (visitor : X -> bytes -> bytes -> bool * X) (limit : option nat) (x : X)
    : KVOp MemoryKVStore (nat * X) :=
  fun s =>
    if bool_decide (limit = Some O) then (Ok (O, x), s)
    else
      let rows := take_while (fun kv => starts_with prefix kv.1)
                    (om_range_from prefix (data s)) in
      (Ok (visit_loop filter visitor limit rows O x), s).

(** The stream yields the snapshot of the rows under the prefix. *)
Definition scan_stream (prefix : bytes) : KVOp MemoryKVStore (list (KVResult kv_pair)) :=
  fun s =>
    (Ok (Ok <$> take_while (fun kv => starts_with prefix kv.1) (om_range_from prefix (data s))), s).

End Memory.

#[global] Instance memory_required : KVStoreRequired MemoryKVStore := {|
  kv_get := Memory.get;
  kv_put := Memory.put;
  kv_put_if_absent := Memory.put_if_absent;
  kv_delete := Memory.delete;
  kv_batch_put := Memory.batch_put;
  kv_batch_delete := Memory.batch_delete;
  kv_put_version := Memory.put_version;
  kv_scan_history := Memory.scan_history;
  kv_scan_history_entity_keys := Memory.scan_history_entity_keys;
  kv_batch_put_version := Memory.batch_put_version;
  kv_scan_prefix := Memory.scan_prefix;
  kv_batch_get := Memory.batch_get
|}.

(** ** The provided methods, as a store dispatches them *)

Class KVStoreProvided (S : Type) := {
  kv_batch_apply : list kv_pair -> list bytes -> list VersionRow -> KVOp S unit;
  kv_get_as_of : bytes -> Z -> Z -> KVOp S (option bytes);
  kv_delete_prefix_chunked : bytes -> nat -> KVOp S nat;
  kv_count_prefix : bytes -> KVOp S nat;
  kv_add_counters : list (bytes * Z) -> KVOp S unit;
  kv_scan_range : bytes -> bytes -> option nat -> KVOp S (list kv_pair);
  kv_scan_with_filter : bytes -> (bytes -> bytes -> bool) -> option nat -> KVOp S (list kv_pair);
  kv_scan_prefix_limited : bytes -> option nat -> KVOp S (list kv_pair)
}.

#[global] Instance memory_provided : KVStoreProvided MemoryKVStore := {|
  kv_batch_apply := Memory.batch_apply;
  kv_get_as_of := Memory.get_as_of;
  kv_delete_prefix_chunked := default_delete_prefix_chunked;
  kv_count_prefix := default_count_prefix;
  kv_add_counters := default_add_counters;
  kv_scan_range := Memory.scan_range;
  kv_scan_with_filter := Memory.scan_with_filter;
  kv_scan_prefix_limited prefix limit := Memory.scan_with_filter prefix (fun _ _ => true) limit
|}.
