(* ===== verification/KVStoreFacts.v ===== *)
(** * Properties of the in-memory store

    The representation invariant of [MemoryKVStore] and its preservation, the
    exact results of the scans, and the equivalence of the overriding methods
    with the trait's default bodies: range scans, filtered visits and the
    seek-based point-in-time read. *)

From Stdlib Require Import ZArith Lia Strings.Byte Strings.String.
From stdpp Require Import base tactics list sorting relations.
From S2P Require Import Prelude OrdMap History KVStore.

(** ** Invariant *)

(** A version row the write paths may append: an ASCII entity key, [i64] times. *)
Definition row_ok (r : VersionRow) : Prop :=
  let '(ek, vf, vt, t, _) := r in zero_free ek /\ i64_ok vf /\ i64_ok vt /\ i64_ok t.

Definition hist_wf (h : list kv_pair) : Prop :=
  om_wf h /\ Forall (fun kv => exists r, row_ok r /\ kv = version_entry r) h.

Definition mem_wf (s : MemoryKVStore) : Prop := om_wf (data s) /\ hist_wf (history s).

(** The state-changing methods, as steps between store states. *)
Inductive mem_step : MemoryKVStore -> MemoryKVStore -> Prop :=
| step_put k v s : mem_step s (Memory.put k v s).2
| step_put_if_absent k v s : mem_step s (Memory.put_if_absent k v s).2
| step_delete k s : mem_step s (Memory.delete k s).2
| step_batch_put l s : mem_step s (Memory.batch_put l s).2
| step_batch_delete l s : mem_step s (Memory.batch_delete l s).2
| step_put_version ek vf vt t val s :
    row_ok (ek, vf, vt, t, val) -> mem_step s (Memory.put_version ek vf vt t val s).2
| step_batch_put_version l s :
    Forall row_ok l -> mem_step s (Memory.batch_put_version l s).2
| step_batch_apply puts deletes versions s :
    Forall row_ok versions -> mem_step s (Memory.batch_apply puts deletes versions s).2.

Lemma hist_wf_insert_all l h :
  Forall row_ok l -> hist_wf h -> hist_wf (om_insert_all (version_entry <$> l) h).
Proof.
  intros Hl [Hwf Hrows]. split; [by apply om_insert_all_wf|].
  clear Hwf. revert h Hrows. induction Hl as [|r l Hr Hl IH]; intros h Hrows; simpl; [done|].
  apply IH. rewrite Forall_forall in Hrows |- *. intros [k v] Hin.
  apply om_insert_elem in Hin as [[-> ->]|Hin]; [|by apply Hrows].
  exists r. split; [done|]. by destruct (version_entry r).
Qed.

Lemma hist_wf_insert r h :
  row_ok r -> hist_wf h -> hist_wf (om_insert (version_entry r).1 (version_entry r).2 h).
Proof. intros Hr Hh. by apply (hist_wf_insert_all [r]); [constructor|]. Qed.

Create HintDb kv.
#[export] Hint Resolve om_insert_wf om_remove_wf om_insert_all_wf om_remove_all_wf
  hist_wf_insert_all om_wf_nil : kv.

Lemma mem_step_wf s s' : mem_step s s' -> mem_wf s -> mem_wf s'.
Proof.
  intros Hstep [Hd Hh]. destruct Hstep; unfold Memory.put_if_absent; split; simpl; auto with kv.
  - destruct (om_get k (data s)); simpl; auto with kv.
  - by destruct (om_get k (data s)).
  - by apply (hist_wf_insert (ek, vf, vt, t, val)).
Qed.

(** ** Prefix scans *)

Lemma prefix_walk prefix (m : list kv_pair) :
  om_wf m ->
  take_while (fun kv => starts_with prefix kv.1) (om_range_from prefix m) =
  List.filter (fun kv => starts_with prefix kv.1) m.
Proof.
  intros Hwf. rewrite om_take_while_range by
    (try done; intros a b _ _ Ha Hab Hb; by apply (starts_with_interval _ _ b.1)).
  apply List.filter_ext. intros [k v]. simpl.
  destruct (starts_with prefix k) eqn:E; [|by rewrite andb_false_r].
  by rewrite starts_with_kleb.
Qed.

(** ** Range scans *)

Lemma common_len_prefix a b k :
  kleb a k = true -> kltb k b = true -> starts_with (take (common_len a b) a) k = true.
Proof.
  unfold kleb, kltb. simpl. revert b k.
  induction a as [|x a IH]; intros [|y b] k; simpl; [done|done|done|].
  - destruct (bool_decide_reflect (x = y)) as [->|Hne]; [|done].
    destruct k as [|z k]; [done|]. simpl.
    destruct (Z.compare_spec (b2z y) (b2z z)) as [E|E|E]; [| |done].
    + apply b2z_inj in E. subst z. rewrite Z.compare_refl. intros H1 H2.
      rewrite bool_decide_eq_true_2 by done. by apply IH.
    + rewrite (proj2 (Z.compare_gt_iff (b2z z) (b2z y))) by lia. done.
Qed.

Lemma default_range_filter start stop (m : list kv_pair) :
  om_wf m ->
  List.filter (fun kv => kleb start kv.1 && kltb kv.1 stop)
    (take_while (fun kv => starts_with (take (common_len start stop) start) kv.1)
       (om_range_from (take (common_len start stop) start) m)) =
  om_range start stop m.
Proof.
  intros Hwf. rewrite prefix_walk by done. rewrite filter_filter. unfold om_range.
  apply List.filter_ext. intros [k v]. simpl.
  destruct (kleb start k) eqn:E1; [|by rewrite andb_false_r].
  destruct (kltb k stop) eqn:E2; [|by rewrite andb_false_r].
  by rewrite common_len_prefix.
Qed.

(** ** Filtered visits *)

Lemma visit_loop_count {X} filter (visitor : X -> bytes -> bytes -> bool * X) limit rows visited x :
  match limit with Some n => (visited < n)%nat | None => True end ->
  Memory.visit_loop filter visitor limit rows visited x =
  let '(n, x') := visit_rows visitor
      (take_limit ((fun n => n - visited)%nat <$> limit)
         (List.filter (fun kv => filter kv.1 kv.2) rows)) x in
  ((visited + n)%nat, x').
Proof.
  revert visited x. induction rows as [|[k v] rows IH]; intros visited x Hlim; simpl.
  - destruct limit as [n|]; simpl; rewrite ?take_nil; simpl; f_equal; lia.
  - destruct (filter k v) eqn:Ef; [|by apply IH].
    destruct limit as [n|]; simpl.
    + destruct (n - visited)%nat as [|m] eqn:Em; [lia|]. simpl.
      destruct (visitor x k v) as [c x'] eqn:Ev. destruct c; simpl; [|f_equal; lia].
      destruct (Nat.leb_spec n (S visited)).
      * replace m with O by lia. simpl. f_equal. lia.
      * rewrite IH by lia. simpl. replace (n - S visited)%nat with m by lia.
        destruct (visit_rows _ _ _) as [n' x'']. f_equal. lia.
    + destruct (visitor x k v) as [c x'] eqn:Ev. destruct c; simpl; [|f_equal; lia].
      rewrite IH by done. simpl. destruct (visit_rows _ _ _) as [n' x'']. f_equal. lia.
Qed.

(** ** Version history *)

(** The record a history entry decodes to. *)
Definition rec_of (kv : kv_pair) : option VersionRecord :=
  match parse_history_key_times kv.1, decode_history_value kv.2 with
  | Some (vf, t), Some (vt, val) =>
      Some {| valid_from := vf; valid_to := vt; tx := t; value := val |}
  | _, _ => None
  end.

(** The versions of an entity, in the order of the history map. *)
Definition versions_of (e : bytes) (h : list kv_pair) : list VersionRecord :=
  filter_map rec_of (List.filter (fun kv => starts_with (history_prefix e) kv.1) h).

(** [a] sorts before [b]: a greater [(valid_from, tx)]. *)
Definition newer (a b : VersionRecord) : Prop :=
  valid_from b < valid_from a \/ (valid_from b = valid_from a /\ tx b < tx a).

Lemma history_rows_filter_map prefix rows :
  history_rows prefix rows = filter_map rec_of (take_while (fun kv => starts_with prefix kv.1) rows).
Proof.
  induction rows as [|[k v] rows IH]; simpl; [done|].
  destruct (starts_with prefix k); simpl; [|done]. unfold rec_of at 1. simpl. rewrite <- IH.
  destruct (parse_history_key_times k) as [[vf t]|]; [|done].
  by destruct (decode_history_value v) as [[vt val]|].
Qed.

Lemma as_of_rows_head prefix va ta rows :
  as_of_rows prefix va ta rows =
  value <$> head (List.filter (fun r => (tx r <=? ta) && (va <? valid_to r))
    (filter_map rec_of (take_while (fun kv => starts_with prefix kv.1) rows))).
Proof.
  induction rows as [|[k v] rows IH]; simpl; [done|].
  destruct (starts_with prefix k); simpl; [|done]. unfold rec_of at 1. simpl.
  destruct (parse_history_key_times k) as [[vf t]|]; [|done].
  destruct (decode_history_value v) as [[vt val]|]; [|done]. simpl.
  by destruct ((t <=? ta) && (va <? vt)).
Qed.

Lemma rec_of_entry e vf vt t val :
  row_ok (e, vf, vt, t, val) ->
  rec_of (version_entry (e, vf, vt, t, val)) =
    Some {| valid_from := vf; valid_to := vt; tx := t; value := val |}.
Proof.
  intros (He & Hvf & Hvt & Ht). unfold rec_of. cbn [version_entry fst snd].
  by rewrite parse_history_key, decode_encode_history_value by done.
Qed.

Section entity.
Context (e : bytes) (He : zero_free e).

(** The entries under the entity's prefix are rows of that entity. *)
Lemma entity_entries h kv :
  hist_wf h -> kv ∈ h -> starts_with (history_prefix e) kv.1 = true ->
  exists vf vt t val, row_ok (e, vf, vt, t, val) /\ kv = version_entry (e, vf, vt, t, val).
Proof.
  intros [_ Hrows] Hin Hp. rewrite Forall_forall in Hrows.
  destruct (Hrows kv Hin) as ([[[[e' vf] vt] t] val] & Hr & ->).
  pose proof Hr as (He' & _). simpl in Hp.
  rewrite history_key_under_prefix in Hp by done. apply bool_decide_eq_true in Hp. subst e'. eauto 6.
Qed.

Lemma versions_of_elem h r :
  hist_wf h ->
  r ∈ versions_of e h <->
  row_ok (e, valid_from r, valid_to r, tx r, value r) /\
  version_entry (e, valid_from r, valid_to r, tx r, value r) ∈ h.
Proof.
  intros Hwf. unfold versions_of. rewrite elem_of_filter_map. split.
  - intros (kv & Hin & Hrec). apply list_elem_of_In, filter_In in Hin as [Hin Hp].
    apply list_elem_of_In in Hin.
    destruct (entity_entries h kv Hwf Hin Hp) as (vf & vt & t & val & Hr & ->).
    rewrite rec_of_entry in Hrec by done. injection Hrec as <-. done.
  - intros [Hr Hin]. exists (version_entry (e, valid_from r, valid_to r, tx r, value r)). split.
    + apply list_elem_of_In, filter_In. rewrite <- list_elem_of_In. split; [done|]. simpl.
      rewrite history_key_under_prefix by done. by apply bool_decide_eq_true.
    + rewrite rec_of_entry by done. by destruct r.
Qed.

(** History order is newest-first within an entity. *)
Lemma entries_newest_first l :
  om_wf l ->
  Forall (fun kv => exists vf vt t val,
    row_ok (e, vf, vt, t, val) /\ kv = version_entry (e, vf, vt, t, val)) l ->
  StronglySorted newer (filter_map rec_of l).
Proof.
  intros Hwf Hall. revert Hwf. induction Hall as [|kv l Hkv Hall IH]; intros Hwf; simpl; [constructor|].
  pose proof (om_wf_tail _ _ Hwf) as Htl. specialize (IH Htl).
  destruct Hkv as (vf & vt & t & val & Hr & ->). rewrite rec_of_entry by done.
  constructor; [done|]. rewrite Forall_forall. intros r Hin.
  apply elem_of_filter_map in Hin as (kv' & Hin' & Hrec).
  rewrite Forall_forall in Hall. destruct (Hall kv' Hin') as (vf' & vt' & t' & val' & Hr' & ->).
  rewrite rec_of_entry in Hrec by done. injection Hrec as <-.
  pose proof (om_wf_head _ _ _ _ _ Hwf Hin') as Hcmp. simpl in Hcmp.
  destruct Hr as (_ & Hvf & _ & Ht). destruct Hr' as (_ & Hvf' & _ & Ht').
  rewrite history_key_cmp in Hcmp by done. rewrite (proj2 (bytes_cmp_eq e e)) in Hcmp by done.
  unfold version_cmp in Hcmp. unfold newer. simpl.
  destruct (Z.compare_spec vf' vf); [|lia|done]. rewrite Z.compare_lt_iff in Hcmp. lia.
Qed.

Lemma entity_forall h (f : kv_pair -> bool) :
  hist_wf h ->
  (forall kv, f kv = true -> starts_with (history_prefix e) kv.1 = true) ->
  Forall (fun kv => exists vf vt t val,
    row_ok (e, vf, vt, t, val) /\ kv = version_entry (e, vf, vt, t, val)) (List.filter f h).
Proof.
  intros Hwf Hf. rewrite Forall_forall. intros kv Hin.
  apply list_elem_of_In, filter_In in Hin as [Hin Hp]. apply list_elem_of_In in Hin.
  by apply (entity_entries h); [| |apply Hf].
Qed.

Lemma versions_of_sorted h : hist_wf h -> StronglySorted newer (versions_of e h).
Proof.
  intros Hwf. apply entries_newest_first.
  - apply om_filter_wf, Hwf.
  - by apply entity_forall.
Qed.

(** The rows from the seek key on are the versions not newer than it. *)
Definition not_after (va ta : Z) (r : VersionRecord) : bool :=
  (valid_from r <? va) || ((valid_from r =? va) && (tx r <=? ta)).

Lemma seek_key_leb va ta vf vt t val :
  i64_ok va -> i64_ok ta -> row_ok (e, vf, vt, t, val) ->
  kleb (history_key e va ta) (history_key e vf t) =
  not_after va ta {| valid_from := vf; valid_to := vt; tx := t; value := val |}.
Proof.
  intros Hva Hta (_ & Hvf & _ & Ht). unfold kleb, not_after. simpl.
  rewrite history_key_cmp by done. rewrite (proj2 (bytes_cmp_eq e e)) by done.
  unfold version_cmp. rewrite Z.ltb_compare, Z.eqb_compare, Z.leb_compare.
  by destruct (vf ?= va), (t ?= ta).
Qed.

Lemma seek_versions h va ta :
  hist_wf h -> i64_ok va -> i64_ok ta ->
  filter_map rec_of (take_while (fun kv => starts_with (history_prefix e) kv.1)
    (om_range_from (history_key e va ta) h)) =
  List.filter (not_after va ta) (versions_of e h).
Proof.
  intros Hwf Hva Hta. rewrite om_take_while_range; [|apply Hwf|].
  2:{ intros a b _ _ Ha Hab Hb. apply (starts_with_interval _ _ b.1); [|done|done].
      eapply kleb_trans; [|exact Ha]. apply starts_with_kleb.
      rewrite history_key_prefix. apply starts_with_app. }
  unfold versions_of. pose proof (entity_forall h _ Hwf (fun kv H => H)) as Hall.
  replace (List.filter (fun kv => kleb (history_key e va ta) kv.1 && starts_with (history_prefix e) kv.1) h)
    with (List.filter (fun kv => kleb (history_key e va ta) kv.1)
      (List.filter (fun kv => starts_with (history_prefix e) kv.1) h))
    by (rewrite filter_filter; apply List.filter_ext; intros; apply andb_comm).
  induction Hall as [|kv l Hkv Hall IH]; simpl; [done|].
  destruct Hkv as (vf & vt & t & val & Hr & Ekv).
  pose proof (seek_key_leb va ta vf vt t val Hva Hta Hr) as Hk.
  change (history_key e vf t) with (version_entry (e, vf, vt, t, val)).1 in Hk.
  pose proof (rec_of_entry e vf vt t val Hr) as Hrec. rewrite <- Ekv in Hk, Hrec. rewrite Hk, Hrec.
  simpl. destruct (not_after _ _ _); simpl; [|done]. rewrite Hrec. by f_equal.
Qed.
End entity.

(** On a newest-first list, the search of the default body is the first match. *)
Lemma best_step_older va ta b l :
  Forall (newer b) l -> fold_left (best_step va ta) l (Some b) = Some b.
Proof.
  induction 1 as [|v l Hv Hl IH]; simpl; [done|]. unfold best_step at 2.
  destruct (version_qualifies va ta v); [|done].
  assert (version_ge b v = true) as ->; [|done].
  unfold version_ge. unfold newer in Hv.
  destruct (Z.ltb_spec (valid_from v) (valid_from b)); [done|]. simpl.
  rewrite andb_true_iff, Z.eqb_eq, Z.leb_le. lia.
Qed.

Lemma best_first va ta l :
  StronglySorted newer l ->
  fold_left (best_step va ta) l None = head (List.filter (version_qualifies va ta) l).
Proof.
  induction 1 as [|v l Hs IH Hv]; simpl; [done|]. unfold best_step at 2.
  destruct (version_qualifies va ta v); simpl; [by apply best_step_older|done].
Qed.

#[global] Instance newer_antisymm : AntiSymm (=) newer.
Proof. intros a b. unfold newer. lia. Qed.

Lemma newer_nodup l : StronglySorted newer l -> NoDup l.
Proof.
  induction 1 as [|x l Hs IH Hx]; constructor; [|done]. intros Hin. rewrite Forall_forall in Hx.
  specialize (Hx x Hin). unfold newer in Hx. lia.
Qed.

(** Newest-first lists are determined by their elements. *)
Lemma newer_ext l1 l2 :
  StronglySorted newer l1 -> StronglySorted newer l2 -> (forall v, v ∈ l1 <-> v ∈ l2) -> l1 = l2.
Proof.
  intros H1 H2 Hm. apply (StronglySorted_unique newer); [done|done|].
  by apply NoDup_Permutation; auto using newer_nodup.
Qed.

Lemma mem_scan_history_versions e s :
  mem_wf s -> Memory.scan_history e s = (Ok (versions_of e (history s)), s).
Proof.
  intros [_ [Hwf _]]. unfold Memory.scan_history. rewrite history_rows_filter_map.
  by rewrite prefix_walk.
Qed.

(** The seek-based read returns the newest qualifying version. *)
Lemma get_as_of_head e va ta s :
  mem_wf s -> zero_free e -> i64_ok va -> i64_ok ta ->
  Memory.get_as_of e va ta s =
  (Ok (value <$> head (List.filter (version_qualifies va ta) (versions_of e (history s)))), s).
Proof.
  intros [_ Hh] He Hva Hta. unfold Memory.get_as_of. rewrite as_of_rows_head, seek_versions by done.
  rewrite filter_filter. do 4 f_equal. apply List.filter_ext. intros r.
  unfold not_after, version_qualifies.
  destruct (Z.leb_spec (tx r) ta), (Z.ltb_spec (valid_from r) va), (Z.eqb_spec (valid_from r) va),
    (Z.leb_spec (valid_from r) va); simpl; try done; lia.
Qed.

(** ** Batches *)

Lemma om_get_insert_all (l m : list kv_pair) k :
  om_wf m ->
  om_get k (om_insert_all l m) =
  match last (List.filter (fun kv => bool_decide (kv.1 = k)) l) with
  | Some kv => Some kv.2
  | None => om_get k m
  end.
Proof.
  revert m. induction l as [|[k0 v0] l IH]; intros m Hwf; simpl; [done|].
  rewrite IH by auto with kv. cbn [fst snd]. rewrite om_get_insert by done.
  destruct (bool_decide_reflect (k0 = k)) as [->|Hne].
  - rewrite cmp_refl. rewrite last_cons. by destruct (last _).
  - destruct (cmp k k0) eqn:E; try done. apply cmp_eq_iff in E. congruence.
Qed.

Lemma om_get_remove_all (l : list bytes) (m : list kv_pair) k :
  om_wf m ->
  om_get k (om_remove_all l m) = if bool_decide (k ∈ l) then None else om_get k m.
Proof.
  revert m. induction l as [|k0 l IH]; intros m Hwf; simpl; [done|].
  rewrite IH by auto with kv. rewrite om_get_remove by done.
  destruct (cmp k k0) eqn:E.
  1: apply cmp_eq_iff in E; subst k0;
     rewrite (bool_decide_eq_true_2 (k ∈ k :: l)) by left; by case_bool_decide.
  all: assert (k <> k0) by (intros ->; by rewrite cmp_refl in E);
       rewrite (bool_decide_ext (k ∈ k0 :: l) (k ∈ l)) by (rewrite elem_of_cons; intuition congruence);
       done.
Qed.

Lemma om_remove_all_app (l1 l2 : list bytes) (m : list kv_pair) :
  om_remove_all (l1 ++ l2) m = om_remove_all l2 (om_remove_all l1 m).
Proof. apply fold_left_app. Qed.

Lemma kv_for_each_batch_delete (cs : list (list bytes)) s :
  kv_for_each Memory.batch_delete cs s =
    (Ok tt, with_data s (om_remove_all (concat cs) (data s))).
Proof.
  revert s. induction cs as [|c cs IH]; intros s; [by destruct s|].
  cbn [kv_for_each concat]. unfold kv_bind. simpl. rewrite IH. simpl.
  by rewrite om_remove_all_app.
Qed.

Lemma remove_prefix_keys prefix (m : list kv_pair) :
  om_wf m ->
  om_remove_all (List.filter (fun kv => starts_with prefix kv.1) m).*1 m =
  List.filter (fun kv => negb (starts_with prefix kv.1)) m.
Proof.
  intros Hwf. apply om_ext; [by apply om_remove_all_wf|by apply om_filter_wf|]. intros k.
  rewrite om_get_remove_all by done. apply option_eq. intros v.
  rewrite (om_get_elem k v (List.filter _ m)) by by apply om_filter_wf.
  case_bool_decide as Hk; rewrite list_elem_of_In, filter_In, <- list_elem_of_In; simpl.
  - split; [done|]. intros [_ Hn]. apply list_elem_of_fmap in Hk as ([k' v'] & -> & Hin).
    apply list_elem_of_In, filter_In in Hin as [_ Hp]. simpl in *. by rewrite Hp in Hn.
  - rewrite om_get_elem by done. split; [|by intros [? _]]. intros Hin. split; [done|].
    destruct (starts_with prefix k) eqn:E; [|done]. exfalso. apply Hk.
    apply list_elem_of_fmap. exists (k, v). split; [done|].
    by rewrite list_elem_of_In, filter_In, <- list_elem_of_In.
Qed.

(** ** Main results *)

(** Every store state reachable from an empty [MemoryKVStore] by any
    sequence of its state-changing methods keeps both maps strictly sorted and
    the history map made only of well-formed version rows. *)
Theorem memory_invariant s : rtc mem_step Memory.new s -> mem_wf s.
Proof.
  assert (Hnew : mem_wf Memory.new) by (repeat split; auto with kv).
  intros Hr. induction Hr as [|s1 s2 s3 Hs _ IH]; [done|]. eauto using mem_step_wf.
Qed.

Lemma memory_invariant_witness :
  mem_wf (Memory.batch_apply [(bs "sp:vertex:1", bs "v")] [bs "old"]
    [(bs "sp:vertex:1", 5, VALID_OPEN, 5, bs "v")]
    (Memory.put (bs "a") (bs "b") Memory.new).2).2.
Proof.
  apply memory_invariant. eapply rtc_l; [apply step_put|].
  eapply rtc_l; [|apply rtc_refl]. apply step_batch_apply. constructor; [|constructor].
  repeat split; [|vm_compute; congruence..].
  by apply zero_freeb_ok.
Defined.

(** A prefix scan returns exactly the entries of the current view whose key
    starts with the prefix, in strictly ascending key order. *)
Theorem scan_prefix_exact prefix s :
  mem_wf s ->
  exists rows, Memory.scan_prefix prefix s = (Ok rows, s) /\ om_wf rows /\
    forall k v, (k, v) ∈ rows <-> starts_with prefix k = true /\ om_get k (data s) = Some v.
Proof.
  intros [Hwf _]. unfold Memory.scan_prefix. rewrite prefix_walk by done.
  eexists. split; [done|]. split; [by apply om_filter_wf|]. intros k v.
  rewrite list_elem_of_In, filter_In, <- list_elem_of_In, om_get_elem by done. simpl. naive_solver.
Qed.

Lemma scan_prefix_exact_witness :
  let s := (Memory.batch_put [(bs "b", bs "2"); (bs "ab", bs "1"); (bs "a", bs "0")] Memory.new).2 in
  mem_wf s /\
  exists rows, Memory.scan_prefix (bs "a") s = (Ok rows, s) /\ om_wf rows /\
    forall k v, (k, v) ∈ rows <-> starts_with (bs "a") k = true /\ om_get k (data s) = Some v.
Proof.
  assert (H : mem_wf (Memory.batch_put [(bs "b", bs "2"); (bs "ab", bs "1"); (bs "a", bs "0")] Memory.new).2)
    by (apply (mem_step_wf Memory.new); [apply step_batch_put|repeat split; auto with kv]).
  split; [exact H|]. exact (scan_prefix_exact (bs "a") _ H).
Defined.

(** The direct range scan of [MemoryKVStore] and the trait's default range
    scan (a scan of the common prefix, filtered) return the same rows for every
    pair of bounds and every limit. *)
Lemma scan_range_matches_default start stop limit s :
  om_wf (data s) -> Memory.scan_range start stop limit s = default_scan_range start stop limit s.
Proof.
  intros Hwf. unfold Memory.scan_range, default_scan_range.
  destruct (kleb stop start || bool_decide (limit = Some 0%nat)); [done|].
  unfold kv_bind. simpl. by rewrite default_range_filter.
Qed.

(** The streaming visit of [MemoryKVStore], which filters, counts and stops
    inside the scan, makes the same visitor calls in the same order and returns
    the same count as the trait's default, which materialises the filtered and
    truncated rows first; this for every visitor and limit. *)
Theorem scan_with_filter_visit_matches_default {X} prefix filter
    (visitor : X -> bytes -> bytes -> bool * X) limit x s :
  Memory.scan_with_filter_visit prefix filter visitor limit x s =
  default_scan_with_filter_visit prefix filter visitor limit x s.
Proof.
  unfold Memory.scan_with_filter_visit, default_scan_with_filter_visit, default_scan_with_filter.
  unfold kv_bind. simpl. case_bool_decide as Hl; [by subst|].
  rewrite visit_loop_count by (destruct limit as [[|n]|]; [done|lia|done]). simpl.
  replace ((fun n => n - 0)%nat <$> limit) with limit
    by (destruct limit; simpl; [by rewrite Nat.sub_0_r|done]).
  by destruct (visit_rows _ _ _).
Qed.

(** C5: the seek-based point-in-time read of [MemoryKVStore] agrees with the
    trait's default, which scans every version and keeps the best, on every
    well-formed history, entity and pair of times. *)
Theorem get_as_of_matches_default e va ta s :
  mem_wf s -> zero_free e -> i64_ok va -> i64_ok ta ->
  Memory.get_as_of e va ta s = default_get_as_of e va ta s.
Proof.
  intros Hwf He Hva Hta. pose proof Hwf as [_ Hh].
  unfold default_get_as_of, kv_bind. cbn [kv_scan_history memory_required].
  rewrite mem_scan_history_versions by done.
  rewrite best_first by by apply versions_of_sorted.
  by rewrite get_as_of_head.
Qed.

Definition as_of_example : MemoryKVStore :=
  (Memory.batch_put_version
    [(bs "sp:vertex:1", 10, VALID_OPEN, 10, bs "old");
     (bs "sp:vertex:1", 20, VALID_OPEN, 20, bs "new")] Memory.new).2.

Lemma as_of_example_wf : mem_wf as_of_example.
Proof.
  apply (mem_step_wf Memory.new); [|repeat split; auto with kv].
  apply step_batch_put_version.
  repeat constructor; try (by apply zero_freeb_ok); vm_compute; congruence.
Qed.

Lemma get_as_of_matches_default_witness :
  Memory.get_as_of (bs "sp:vertex:1") 15 15 as_of_example = (Ok (Some (bs "old")), as_of_example) /\
  Memory.get_as_of (bs "sp:vertex:1") 15 15 as_of_example =
  default_get_as_of (bs "sp:vertex:1") 15 15 as_of_example.
Proof.
  split; [vm_compute; reflexivity|].
  apply get_as_of_matches_default; [exact as_of_example_wf| |vm_compute; intuition congruence..].
  by apply zero_freeb_ok.
Defined.
