(* ===== verification/KVStoreBatch.v ===== *)
(** * Batches, counters and entity enumeration of the in-memory store

    Atomic dual writes, chunked prefix deletion, degree counters and the
    enumeration of the entities that have history, for [MemoryKVStore] and the
    default methods it inherits. *)

From Stdlib Require Import ZArith Lia Strings.Byte Strings.String.
From stdpp Require Import base tactics list sorting relations.
From S2P Require Import Prelude OrdMap History KVStore KVStoreFacts.

(** ** Dual writes *)

(** The atomic [batch_apply] has the effect of the three sequential batches
    of the trait's fallback, on every combination of empty and non-empty parts. *)
Theorem batch_apply_matches_default puts deletes versions s :
  Memory.batch_apply puts deletes versions s = default_batch_apply puts deletes versions s.
Proof.
  unfold default_batch_apply, kv_bind, Memory.batch_apply.
  by destruct puts, deletes, versions, s.
Qed.

Lemma batch_apply_view puts deletes versions s k :
  mem_wf s ->
  om_get k (data (Memory.batch_apply puts deletes versions s).2) =
  if bool_decide (k ∈ deletes) then None
  else match last (List.filter (fun kv => bool_decide (kv.1 = k)) puts) with
       | Some kv => Some kv.2
       | None => om_get k (data s)
       end.
Proof.
  intros [Hwf _]. simpl. rewrite om_get_remove_all by auto with kv.
  case_bool_decide; [done|]. by apply om_get_insert_all.
Qed.

(** ** Chunked prefix deletion *)

Lemma delete_prefix_rows prefix chunk s :
  mem_wf s ->
  default_delete_prefix_chunked prefix chunk s =
    (Ok (length (List.filter (fun kv => starts_with prefix kv.1) (data s))),
     with_data s (List.filter (fun kv => negb (starts_with prefix kv.1)) (data s))).
Proof.
  intros [Hwf _]. unfold default_delete_prefix_chunked, kv_bind. cbn [kv_scan_prefix memory_required].
  unfold Memory.scan_prefix. rewrite prefix_walk by done.
  cbn [kv_batch_delete memory_required]. rewrite kv_for_each_batch_delete.
  rewrite concat_chunks by lia. by rewrite remove_prefix_keys.
Qed.

Lemma delete_prefix_wf prefix s :
  mem_wf s -> mem_wf (with_data s (List.filter (fun kv => negb (starts_with prefix kv.1)) (data s))).
Proof. intros [Hd Hh]. split; [by apply om_filter_wf|done]. Qed.

Lemma delete_prefix_get prefix s k :
  mem_wf s ->
  om_get k (List.filter (fun kv => negb (starts_with prefix kv.1)) (data s)) =
    if starts_with prefix k then None else om_get k (data s).
Proof.
  intros [Hd _]. apply option_eq. intros v. rewrite om_get_elem, filter_elem by by apply om_filter_wf. cbn [fst].
  rewrite negb_true_iff. destruct (starts_with prefix k); [naive_solver|]. rewrite om_get_elem by done. naive_solver.
Qed.

(** The inherited [delete_prefix_chunked] removes exactly the keys under the
    prefix, returns how many there were and leaves the history alone, for every
    chunk size, zero included. *)
Theorem delete_prefix_chunked_exact prefix chunk s :
  mem_wf s ->
  exists n s', default_delete_prefix_chunked prefix chunk s = (Ok n, s') /\ mem_wf s' /\ history s' = history s /\
    n = length (List.filter (fun kv => starts_with prefix kv.1) (data s)) /\
    forall k, om_get k (data s') = if starts_with prefix k then None else om_get k (data s).
Proof.
  intros Hwf. rewrite delete_prefix_rows by done. eexists _, _. split; [reflexivity|].
  split; [by apply delete_prefix_wf|]. split; [done|]. split; [done|]. intros k. by apply delete_prefix_get.
Qed.

Lemma delete_prefix_chunked_exact_witness :
  let s := (Memory.batch_put [(bs "sp:1", bs "x"); (bs "sp:2", bs "y"); (bs "t:1", bs "z")] Memory.new).2 in
  exists s', default_delete_prefix_chunked (bs "sp:") 1 s = (Ok 2%nat, s') /\ om_get (bs "t:1") (data s') = Some (bs "z").
Proof.
  intros s. assert (H : mem_wf s) by (split; [apply om_insert_all_wf, om_wf_nil|repeat split; auto with kv]).
  destruct (delete_prefix_chunked_exact (bs "sp:") 1 s H) as (n & s' & Hrun & _ & _ & Hn & Hg).
  exists s'. rewrite Hg. split; [|reflexivity]. rewrite Hrun, Hn. reflexivity.
Defined.

(** ** Degree counters *)

(** The net effect of the deltas of one key on its counter: counts never go
    below zero, because a result that is not positive removes the key. *)
Definition counter_fold (cur : Z) (ds : list Z) : Z :=
  fold_left (fun c d => Z.max 0 (c + d)) ds cur.

Definition deltas_of (k : bytes) (l : list (bytes * Z)) : list Z :=
  (List.filter (fun kd => bool_decide (kd.1 = k)) l).*2.

Lemma deltas_of_cons k k0 d l :
  deltas_of k ((k0, d) :: l) = if bool_decide (k0 = k) then d :: deltas_of k l else deltas_of k l.
Proof. unfold deltas_of. simpl. by case_bool_decide. Qed.

Lemma deltas_of_absent k l : k ∉ l.*1 -> deltas_of k l = [].
Proof.
  intros Hnin. unfold deltas_of.
  rewrite (List.filter_ext_in _ (fun _ => false)); [clear; by induction l|].
  intros [k' d] Hin%list_elem_of_In. apply bool_decide_eq_false. intros <-. apply Hnin.
  apply list_elem_of_fmap. by exists (k', d).
Qed.

(** Every counter in use is non-negative and leaves room for [b] more. *)
Definition counters_below (b : Z) (m : list kv_pair) (ks : list bytes) : Prop :=
  forall k, k ∈ ks -> 0 <= counter_value (om_get k m) < two63 - b.

Lemma counter_value_encode n : i64_ok n -> counter_value (Some (i64_to_le n)) = n.
Proof.
  intros Hn. unfold counter_value. assert (Hl : length (i64_to_le n) = 8%nat) by apply length_le_bytes.
  rewrite Hl. change (8 <=? 8)%nat with true. cbv iota. rewrite take_ge by lia. by apply i64_le_roundtrip.
Qed.

Lemma add_counter_one k d s :
  om_wf (data s) -> 0 <= counter_value (om_get k (data s)) ->
  i64_ok (counter_value (om_get k (data s)) + d) ->
  exists s', default_add_counter (k, d) s = (Ok tt, s') /\ om_wf (data s') /\ history s' = history s /\
    counter_value (om_get k (data s')) = Z.max 0 (counter_value (om_get k (data s)) + d) /\
    forall k', k' <> k -> om_get k' (data s') = om_get k' (data s).
Proof.
  intros Hwf Hc Hok. set (c := counter_value (om_get k (data s))) in *.
  assert (Hnew : as_i64 (c + d) = c + d).
  { unfold_int. destruct (Z.leb_spec 0 (c + d)).
    - rewrite Z.mod_small by lia. destruct (Z.ltb_spec (c + d) (2 ^ 63)); lia.
    - rewrite <- (Z.mod_unique_pos (c + d) (2 ^ 64) (-1) (c + d + 2 ^ 64)) by lia.
      destruct (Z.ltb_spec (c + d + 2 ^ 64) (2 ^ 63)); lia. }
  unfold default_add_counter, kv_bind. cbn [kv_get memory_required Memory.get]. fold c. rewrite Hnew.
  assert (Hother : forall k' : bytes, k' <> k -> cmp k' k <> Eq)
    by (intros k' Hne Heq; by apply cmp_eq_iff in Heq).
  destruct (Z.leb_spec (c + d) 0).
  - eexists. split; [done|]. split; [by apply om_remove_wf|]. split; [done|].
    cbn [data Memory.delete with_data snd]. split.
    + rewrite om_get_remove, cmp_refl by done. simpl. lia.
    + intros k' Hne. rewrite om_get_remove by done. specialize (Hother k' Hne).
      by destruct (cmp k' k).
  - eexists. split; [done|]. split; [by apply om_insert_wf|]. split; [done|].
    cbn [data Memory.put with_data snd]. split.
    + rewrite om_get_insert, cmp_refl by done. rewrite counter_value_encode by done. lia.
    + intros k' Hne. rewrite om_get_insert by done. specialize (Hother k' Hne).
      by destruct (cmp k' k).
Qed.

Fixpoint abs_sum (l : list (bytes * Z)) : Z :=
  match l with [] => 0 | (_, d) :: l' => Z.abs d + abs_sum l' end.

Lemma abs_sum_nonneg l : 0 <= abs_sum l.
Proof. induction l as [|[k d] l IH]; simpl; lia. Qed.

(** [add_counters] applies the deltas of a batch in order: afterwards every
    counter is its old value with its own deltas folded in, each step clamped at
    zero, and every other key and the whole history are untouched, as long as
    no partial sum can exceed [i64]. *)
Theorem add_counters_fold deltas s :
  om_wf (data s) ->
  counters_below (abs_sum deltas) (data s) (deltas.*1) ->
  exists s', default_add_counters deltas s = (Ok tt, s') /\ om_wf (data s') /\ history s' = history s /\
    (forall k, k ∈ deltas.*1 ->
       counter_value (om_get k (data s')) =
       counter_fold (counter_value (om_get k (data s))) (deltas_of k deltas)) /\
    (forall k, k ∉ deltas.*1 -> om_get k (data s') = om_get k (data s)).
Proof.
  unfold default_add_counters. revert s.
  induction deltas as [|[k d] l IH]; intros s Hwf Hb.
  { by exists s. }
  pose proof (abs_sum_nonneg l) as Hnn. cbn [fmap list_fmap fst abs_sum] in Hb.
  assert (Hk0 : 0 <= counter_value (om_get k (data s)) < two63 - (Z.abs d + abs_sum l))
    by (apply Hb; left).
  destruct (add_counter_one k d s) as (s1 & E1 & Hwf1 & Hh1 & Hk1 & Hne1);
    [done|lia|unfold_int; lia|].
  destruct (IH s1 Hwf1) as (s2 & E2 & Hwf2 & Hh2 & Hk2 & Hne2).
  { intros k' Hk'. destruct (decide (k' = k)) as [->|Hne]; [rewrite Hk1; lia|].
    rewrite Hne1 by done. specialize (Hb k'). rewrite elem_of_cons in Hb. specialize (Hb (or_intror Hk')). lia. }
  exists s2. split; [cbn [kv_for_each]; unfold kv_bind; rewrite E1; exact E2|].
  split; [done|]. split; [congruence|]. split.
  - intros k' Hk'. rewrite deltas_of_cons. case_bool_decide as Hkk.
    + subst k'. cbn [counter_fold fold_left]. rewrite <- Hk1.
      destruct (decide (k ∈ l.*1)) as [Hin|Hnin]; [by apply Hk2|].
      rewrite Hne2, deltas_of_absent by done. done.
    + apply elem_of_cons in Hk' as [->|Hk']; [done|]. rewrite <- (Hne1 k') by congruence. by apply Hk2.
  - intros k' Hk'. apply not_elem_of_cons in Hk' as [Hne Hnin]. rewrite Hne2 by done. by apply Hne1.
Qed.

Lemma add_counters_fold_witness :
  let s := (Memory.put (bs "c") (i64_to_le 2) Memory.new).2 in
  let ds := [(bs "c", 3); (bs "d", 1); (bs "c", -9); (bs "c", 1)] in
  exists s', default_add_counters ds s = (Ok tt, s') /\ om_wf (data s') /\ history s' = history s /\
    (forall k, k ∈ ds.*1 ->
       counter_value (om_get k (data s')) = counter_fold (counter_value (om_get k (data s))) (deltas_of k ds)) /\
    (forall k, k ∉ ds.*1 -> om_get k (data s') = om_get k (data s)).
Proof.
  apply add_counters_fold.
  - apply om_insert_wf, om_wf_nil.
  - intros k Hk. apply list_elem_of_In in Hk. simpl in Hk.
    destruct Hk as [<-|[<-|[<-|[<-|[]]]]]; vm_compute; intuition congruence.
Defined.

(** ** Entities with history *)

Lemma entity_of_history_key e vf t :
  (length (history_key e vf t) <? 17)%nat = false /\
  history_key e vf t !! (length (history_key e vf t) - 17)%nat = Some x00 /\
  take (length (history_key e vf t) - 17) (history_key e vf t) = e.
Proof.
  rewrite length_history_key. replace (length e + 17 - 17)%nat with (length e) by lia.
  split; [apply Nat.ltb_ge; lia|]. unfold history_key. split.
  - by rewrite lookup_app_r, Nat.sub_diag by lia.
  - by rewrite take_app_length.
Qed.

(** Some row of [rows] is a version of [e]. *)
Definition has_version (rows : list kv_pair) (e : bytes) : Prop :=
  exists vf vt t val, row_ok (e, vf, vt, t, val) /\ version_entry (e, vf, vt, t, val) ∈ rows.

Lemma version_entry_inj r1 r2 : row_ok r1 -> row_ok r2 -> version_entry r1 = version_entry r2 -> r1 = r2.
Proof.
  destruct r1 as [[[[e1 vf1] vt1] t1] v1], r2 as [[[[e2 vf2] vt2] t2] v2]. intros H1 H2 E.
  pose proof (rec_of_entry _ _ _ _ _ H1) as R1. rewrite E in R1. rewrite rec_of_entry in R1 by done.
  injection R1 as -> -> -> ->. apply (f_equal fst) in E. cbn [version_entry fst] in E.
  apply (f_equal (fun l => take (length l - 17) l)) in E.
  pose proof (entity_of_history_key e1 vf1 t1) as (_ & _ & T1).
  pose proof (entity_of_history_key e2 vf1 t1) as (_ & _ & T2). congruence.
Qed.

Lemma has_version_cons e vf vt t val rows e0 :
  row_ok (e, vf, vt, t, val) ->
  has_version (version_entry (e, vf, vt, t, val) :: rows) e0 <-> e0 = e \/ has_version rows e0.
Proof.
  intros Hr. split.
  - intros (vf0 & vt0 & t0 & val0 & Hr0 & [Heq|Hin]%elem_of_cons); [left|right; by exists vf0, vt0, t0, val0].
    apply (f_equal fst) in Heq. cbn [version_entry fst] in Heq.
    apply (f_equal (fun l => take (length l - 17) l)) in Heq.
    pose proof (entity_of_history_key e0 vf0 t0) as (_ & _ & Ht0).
    pose proof (entity_of_history_key e vf t) as (_ & _ & Ht). congruence.
  - intros [->|(vf0 & vt0 & t0 & val0 & Hr0 & Hin)].
    + exists vf, vt, t, val. split; [done|]. left.
    + exists vf0, vt0, t0, val0. split; [done|]. by right.
Qed.

Lemma has_version_later e vf vt t val rows e' :
  row_ok (e, vf, vt, t, val) -> om_wf (version_entry (e, vf, vt, t, val) :: rows) ->
  has_version rows e' -> bytes_cmp e e' = Lt \/ e = e'.
Proof.
  intros Hr Hwf (vf' & vt' & t' & val' & Hr' & Hin').
  pose proof (om_wf_head _ _ _ _ _ Hwf Hin') as Hc. cbn [cmp bytes_ordered] in Hc.
  destruct Hr as (? & ? & ? & ?), Hr' as (? & ? & ? & ?).
  rewrite history_key_cmp in Hc by done. destruct (bytes_cmp e e') eqn:E; [|by left|done].
  right. by apply bytes_cmp_eq.
Qed.

(** A walk over well-formed rows under the prefix, with [out] collected so far. *)
Lemma entity_key_rows_walk prefix rows out :
  om_wf rows ->
  Forall (fun kv => starts_with prefix kv.1 = true /\ exists r, row_ok r /\ kv = version_entry r) rows ->
  StronglySorted (fun a b => bytes_cmp a b = Lt) out ->
  (forall a e, a ∈ out -> has_version rows e -> bytes_cmp a e = Lt \/ last out = Some e) ->
  StronglySorted (fun a b => bytes_cmp a b = Lt) (entity_key_rows prefix rows out) /\
  forall e, e ∈ entity_key_rows prefix rows out <-> e ∈ out \/ has_version rows e.
Proof.
  revert out. induction rows as [|kv rows IH]; intros out Hwf Hall Hs Hout.
  { split; [done|]. intros e. split; [auto|]. intros [?|(vf & vt & t & val & _ & Hin)]; [done|].
    by apply elem_of_nil in Hin. }
  inversion Hall as [|? ? [Hp (r & Hr & ->)] Hall']; subst. destruct r as [[[[e vf] vt] t] val].
  pose proof (entity_of_history_key e vf t) as (Hlen & Hsep & Htake).
  pose proof (om_wf_tail _ _ Hwf) as Htl.
  pose proof (fun e' => has_version_later e vf vt t val rows e' Hr Hwf) as Hlater.
  pose proof (fun e' => has_version_cons e vf vt t val rows e' Hr) as Hmem.
  cbn [version_entry entity_key_rows fst] in *. rewrite Hp. cbn [negb]. rewrite Hlen.
  rewrite bool_decide_eq_true_2 by done. cbn [negb orb]. rewrite Htake.
  setoid_rewrite Hmem. case_bool_decide as Hlast.
  - destruct (IH out Htl Hall' Hs) as [Hs' Hin'].
    { intros a e' Ha He'. apply Hout; [done|]. apply Hmem. by right. }
    split; [done|]. intros e0. rewrite Hin'. apply last_Some_elem_of in Hlast.
    split; [|intros [?|[->|?]]]; intuition.
  - assert (Hbelow : forall a, a ∈ out -> bytes_cmp a e = Lt).
    { intros a Ha. destruct (Hout a e Ha) as [?|?]; [apply Hmem; by left|done|congruence]. }
    destruct (IH (out ++ [e]) Htl Hall') as [Hs' Hin'].
    { apply StronglySorted_app_2; [|done|repeat constructor].
      intros a b Ha ->%list_elem_of_singleton. by apply Hbelow. }
    { intros a e' Ha He'. rewrite last_snoc. destruct (Hlater e' He') as [Hlt| ->]; [|by right].
      left. apply elem_of_app in Ha as [Ha|Ha%list_elem_of_singleton]; [|by subst].
      eapply bytes_cmp_lt_trans; [by apply Hbelow|done]. }
    split; [done|]. intros e0. rewrite Hin', elem_of_app, list_elem_of_singleton. intuition.
Qed.

(** The walk stops at the first key outside the prefix, so it reads the rows
    under the prefix and no others. *)
Lemma entity_key_rows_stop prefix rows out :
  om_wf rows ->
  entity_key_rows prefix (om_range_from prefix rows) out =
  entity_key_rows prefix (List.filter (fun kv => starts_with prefix kv.1) rows) out.
Proof.
  intros Hwf. rewrite <- prefix_walk by done. revert out.
  induction (om_range_from prefix rows) as [|[k v] l IH]; intros out; simpl; [done|].
  destruct (starts_with prefix k) eqn:E; simpl; [|done]. rewrite E. simpl. repeat case_match; auto.
Qed.

Lemma zero_free_key_prefix prefix e vf t :
  zero_free prefix -> zero_free e -> starts_with prefix (history_key e vf t) = starts_with prefix e.
Proof.
  unfold history_key. cbn [app]. generalize (desc_i64 vf ++ desc_i64 t). intros r.
  revert e. induction prefix as [|x p IHp]; intros [|y e]; rewrite ?zero_free_cons; simpl; try done.
  - intros [Hx _] _. by rewrite bool_decide_eq_false_2.
  - intros [_ H1] [_ H2]. by rewrite IHp.
Qed.

(** The enumeration of entities with history returns, in strictly ascending
    order and without repetition, exactly the entity keys under the prefix that
    have at least one version, whether or not the current view still has them. *)
Theorem scan_history_entity_keys_exact prefix s :
  mem_wf s -> zero_free prefix ->
  exists ks, Memory.scan_history_entity_keys prefix s = (Ok ks, s) /\
    StronglySorted (fun a b => bytes_cmp a b = Lt) ks /\
    forall e, e ∈ ks <-> starts_with prefix e = true /\ has_version (history s) e.
Proof.
  intros [_ [Hwf Hrows]] Hp.
  set (walk := List.filter (fun kv => starts_with prefix kv.1) (history s)).
  destruct (entity_key_rows_walk prefix walk []) as [Hs Hin].
  - by apply om_filter_wf.
  - rewrite Forall_forall in Hrows |- *. intros kv Hin.
    apply list_elem_of_In, filter_In in Hin as [Hin Hst]. apply list_elem_of_In in Hin. auto.
  - constructor.
  - intros a e Ha. by apply elem_of_nil in Ha.
  - exists (entity_key_rows prefix walk []). split; [unfold Memory.scan_history_entity_keys; by rewrite entity_key_rows_stop|].
    split; [done|].
    intros e. rewrite Hin. rewrite elem_of_nil. unfold has_version, walk.
    setoid_rewrite list_elem_of_In. setoid_rewrite filter_In. setoid_rewrite <- list_elem_of_In.
    cbn [version_entry fst]. split.
    + intros [[]|(vf & vt & t & val & Hr & Hin' & Hst)]. rewrite zero_free_key_prefix in Hst by (done || apply Hr).
      split; [done|]. by exists vf, vt, t, val.
    + intros [Hst (vf & vt & t & val & Hr & Hin')]. right. exists vf, vt, t, val.
      rewrite zero_free_key_prefix by (done || apply Hr). done.
Qed.

Lemma scan_history_entity_keys_exact_witness :
  exists ks, Memory.scan_history_entity_keys (bs "sp:vertex:") as_of_example = (Ok ks, as_of_example) /\
    StronglySorted (fun a b => bytes_cmp a b = Lt) ks /\
    forall e, e ∈ ks <-> starts_with (bs "sp:vertex:") e = true /\ has_version (history as_of_example) e.
Proof.
  apply (scan_history_entity_keys_exact (bs "sp:vertex:") as_of_example as_of_example_wf).
  apply zero_freeb_ok. reflexivity.
Defined.
