(* ===== verification/KVDyn.v ===== *)
(** * Calls of the store trait

    A call of a [KVStore] trait object ([byoridb-kvstore/src/store.rs]) as a value,
    so that [dyn KVStore] is a function of calls, and what it means that a store
    with tables behaves as the in-memory store. *)

From Stdlib Require Import ZArith Lia Strings.Byte Strings.String.
From stdpp Require Import base tactics list.
From S2P Require Import Prelude OrdMap History KVStore.

(** The methods of the trait that run in one transaction. *)
Inductive kv_call : Type -> Type :=
| call_get (k : bytes) : kv_call (option bytes)
| call_put (k v : bytes) : kv_call unit
| call_put_if_absent (k v : bytes) : kv_call (option bytes)
| call_delete (k : bytes) : kv_call unit
| call_batch_put (pairs : list kv_pair) : kv_call unit
| call_batch_delete (keys : list bytes) : kv_call unit
| call_checkpoint : kv_call unit
| call_count_prefix (p : bytes) : kv_call nat
| call_count_prefixes (ps : list bytes) : kv_call (list nat)
| call_add_counters (deltas : list (bytes * Z)) : kv_call unit
| call_batch_get (keys : list bytes) : kv_call (list (option bytes))
| call_scan_prefix (p : bytes) : kv_call (list kv_pair)
| call_scan_range (start stop : bytes) (limit : option nat) : kv_call (list kv_pair)
| call_scan_with_filter (p : bytes) (f : bytes -> bytes -> bool) (limit : option nat)
    : kv_call (list kv_pair)
| call_visit (X : Type) (p : bytes) (f : bytes -> bytes -> bool)
    (visitor : X -> bytes -> bytes -> bool * X) (limit : option nat) (x : X) : kv_call (nat * X)
| call_put_version (e : bytes) (vf vt t : Z) (v : bytes) : kv_call unit
| call_scan_history (e : bytes) : kv_call (list VersionRecord)
| call_batch_put_version (versions : list VersionRow) : kv_call unit
| call_entity_keys (p : bytes) : kv_call (list bytes)
| call_batch_apply (puts : list kv_pair) (deletes : list bytes) (versions : list VersionRow)
    : kv_call unit
| call_get_as_of (e : bytes) (valid_at tx_at : Z) : kv_call (option bytes).

(** [MemoryKVStore] inherits the methods it does not override. *)
Definition mem_run {A} (c : kv_call A) : KVOp MemoryKVStore A :=
  match c with
  | call_get k => Memory.get k
  | call_put k v => Memory.put k v
  | call_put_if_absent k v => Memory.put_if_absent k v
  | call_delete k => Memory.delete k
  | call_batch_put pairs => Memory.batch_put pairs
  | call_batch_delete keys => Memory.batch_delete keys
  | call_checkpoint => kv_ret tt
  | call_count_prefix p => default_count_prefix p
  | call_count_prefixes ps => default_count_prefixes ps
  | call_add_counters deltas => default_add_counters deltas
  | call_batch_get keys => Memory.batch_get keys
  | call_scan_prefix p => Memory.scan_prefix p
  | call_scan_range start stop limit => Memory.scan_range start stop limit
  | call_scan_with_filter p f limit => Memory.scan_with_filter p f limit
  | call_visit _ p f visitor limit x => Memory.scan_with_filter_visit p f visitor limit x
  | call_put_version e vf vt t v => Memory.put_version e vf vt t v
  | call_scan_history e => Memory.scan_history e
  | call_batch_put_version versions => Memory.batch_put_version versions
  | call_entity_keys p => Memory.scan_history_entity_keys p
  | call_batch_apply puts deletes versions => Memory.batch_apply puts deletes versions
  | call_get_as_of e valid_at tx_at => Memory.get_as_of e valid_at tx_at
  end.

(** [dyn KVStore]. *)
Class DynKVStore (S : Type) := dyn_call : forall {A : Type}, kv_call A -> KVOp S A.

#[global] Instance memory_dyn : DynKVStore MemoryKVStore := @mem_run.

(** The outcome of a call against the in-memory call: a success agrees with it,
    an error left the tables alone or the call took full effect. *)
Definition store_refines {S A} (view : S -> MemoryKVStore) (c : KVOp S A) (m : KVOp MemoryKVStore A) : Prop :=
  forall s r s', c s = (r, s') ->
  match r with
  | Ok a => m (view s) = (Ok a, view s')
  | Err _ => view s' = view s \/ view s' = (m (view s)).2
  end.
