(* ===== verification/KVRedb.v ===== *)
(** * The redb-backed store

    [byoridb-kvstore/src/store.rs], [RedbKVStore]: every method over the
    embedded database [redb]. The database is a third-party crate: [RedbOps] is
    the part of its interface the store calls, [RedbLaws] what its documentation
    promises of those calls (snapshot reads, sorted ranges, all-or-nothing
    commits, durability levels). The closures handed to [spawn_blocking] are run
    in place: each method is one function of the store state. *)

From Stdlib Require Import ZArith Lia Strings.Byte Strings.String.
From stdpp Require Import base tactics list.
From S2P Require Import Prelude OrdMap History KVStore.

(** ** The database interface *)

Inductive Durability := Immediate | NoDurability.
Inductive TableDefinition := KV_TABLE | HISTORY_TABLE.

#[export] Instance table_eq_dec : EqDecision TableDefinition.
Proof. solve_decision. Defined.

(** A range over a table hands out rows one by one, each of which may fail. *)
Abbreviation RangeItem := (KVResult kv_pair).

Class RedbOps (Database WriteTxn ReadTxn : Type) := {
  begin_read : KVOp Database ReadTxn;
  begin_write : KVOp Database WriteTxn;
  commit : WriteTxn -> KVOp Database unit;
  set_durability : Durability -> KVOp WriteTxn unit;
  open_table : TableDefinition -> KVOp WriteTxn unit;
  table_get : TableDefinition -> bytes -> KVOp WriteTxn (option bytes);
  table_insert : TableDefinition -> bytes -> bytes -> KVOp WriteTxn unit;
  table_remove : TableDefinition -> bytes -> KVOp WriteTxn unit;
  read_open_table : TableDefinition -> ReadTxn -> KVResult unit;
  read_get : TableDefinition -> bytes -> ReadTxn -> KVResult (option bytes);
  (** [table.range(start..)] and [table.range(start..end)] *)
  read_range : TableDefinition -> bytes -> option bytes -> ReadTxn -> KVResult (list RangeItem)
}.

(** ** The store *)

Record RedbKVStore (Database : Type) := mkRedb {
  db : Database;
  relaxed_durability : bool;
  commit_count : Z
}.
Arguments mkRedb {_} _ _ _.
Arguments db {_} _.
Arguments relaxed_durability {_} _.
Arguments commit_count {_} _.

Definition CHECKPOINT_EVERY : Z := 64.

(** A [for entry in table.range(..)] loop: [step] is the loop body on one row
    and says whether the loop goes on. *)
Fixpoint for_entries {X} (step : X -> bytes -> bytes -> bool * X) (items : list RangeItem) (x : X)
    : KVResult X :=
  match items with
  | [] => Ok x
  | Err e :: _ => Err e
  | Ok (k, v) :: items' =>
      let '(go, x') := step x k v in
      if go then for_entries step items' x' else Ok x'
  end.

(** [visited >= limit], the limit being [usize::MAX] when there is none. *)
Definition reached (limit : option nat) (n : nat) : bool :=
  match limit with Some m => (m <=? n)%nat | None => false end.

Module Redb.
Section store.
Context {Database WriteTxn ReadTxn : Type} {ops : RedbOps Database WriteTxn ReadTxn}.
Abbreviation Store := (RedbKVStore Database).

Definition with_database (s : Store) (d : Database) : Store :=
  mkRedb d (relaxed_durability s) (commit_count s).

Definition with_db (d : Database) : Store := mkRedb d false 0.

Definition next_durability (s : Store) : Durability * Store :=
  if negb (relaxed_durability s) then (Immediate, s)
  else
    let n := commit_count s in
    (if n mod CHECKPOINT_EVERY =? 0 then Immediate else NoDurability,
     mkRedb (db s) (relaxed_durability s) (u64_add n 1)).

(** A call on the database of the store. *)
Definition on_db {A} (c : KVOp Database A) : KVOp Store A :=
  fun s => let '(r, d) := c (db s) in (r, with_database s d).

(** One write transaction: the transaction [wtx] lives only in this closure and
    is dropped, hence aborted, when any step before the commit fails. *)
Definition write_with {A} (durability : Durability) (body : KVOp WriteTxn A) : KVOp Store A :=
  wtx <-? on_db begin_write ;;
  match (set_durability durability ;;? body) wtx with
  | (Err e, _) => fun s => (Err e, s)
  | (Ok a, wtx') => on_db (commit wtx') ;;? kv_ret a
  end.

Definition write {A} (body : KVOp WriteTxn A) : KVOp Store A :=
  fun s => let '(durability, s') := next_durability s in write_with durability body s'.

(** One read transaction over a table. *)
Definition read {A} (t : TableDefinition) (body : ReadTxn -> KVResult A) : KVOp Store A :=
  rtx <-? on_db begin_read ;;
  fun s => (match read_open_table t rtx with Ok _ => body rtx | Err e => Err e end, s).

Definition read_entries {X} (t : TableDefinition) (start : bytes) (stop : option bytes)
    (step : X -> bytes -> bytes -> bool * X) (x : X) (rtx : ReadTxn) : KVResult X :=
  let? items := read_range t start stop rtx in for_entries step items x.

(** ** Point operations *)

Definition get (key : bytes) : KVOp Store (option bytes) :=
  read KV_TABLE (read_get KV_TABLE key).

Definition put (key value : bytes) : KVOp Store unit :=
  write (open_table KV_TABLE ;;? table_insert KV_TABLE key value).

Definition put_if_absent (key value : bytes) : KVOp Store (option bytes) :=
  write (open_table KV_TABLE ;;?
         existing <-? table_get KV_TABLE key ;;
         match existing with
         | None => table_insert KV_TABLE key value ;;? kv_ret None
         | Some v => kv_ret (Some v)
         end).

Definition delete (key : bytes) : KVOp Store unit :=
  write (open_table KV_TABLE ;;? table_remove KV_TABLE key).

(** ** Batches *)

Definition insert_pair (t : TableDefinition) (kv : kv_pair) : KVOp WriteTxn unit :=
  table_insert t kv.1 kv.2.

Definition batch_put (pairs : list kv_pair) : KVOp Store unit :=
  write (open_table KV_TABLE ;;? kv_for_each (insert_pair KV_TABLE) pairs).

Definition batch_delete (keys : list bytes) : KVOp Store unit :=
  write (open_table KV_TABLE ;;? kv_for_each (table_remove KV_TABLE) keys).

Definition checkpoint : KVOp Store unit := write_with Immediate (kv_ret tt).

Definition add_counter (kd : bytes * Z) : KVOp WriteTxn unit :=
  let '(key, delta) := kd in
  cell <-? table_get KV_TABLE key ;;
  let cur := counter_value cell in
  let new := as_i64 (cur + delta) in
  if new <=? 0 then table_remove KV_TABLE key else table_insert KV_TABLE key (i64_to_le new).

Definition add_counters (deltas : list (bytes * Z)) : KVOp Store unit :=
  write (open_table KV_TABLE ;;? kv_for_each add_counter deltas).

Fixpoint get_all (keys : list bytes) (rtx : ReadTxn) : KVResult (list (option bytes)) :=
  match keys with
  | [] => Ok []
  | k :: ks =>
      let? v := read_get KV_TABLE k rtx in
      let? vs := get_all ks rtx in
      Ok (v :: vs)
  end.

Definition batch_get (keys : list bytes) : KVOp Store (list (option bytes)) :=
  read KV_TABLE (get_all keys).

(** ** Prefix deletion and counts *)

(** The keys-only scan of one round of [delete_prefix_chunked]. *)
Definition chunk_step (prefix : bytes) (chunk : nat) (out : list bytes) (k _v : bytes)
    : bool * list bytes :=
  if negb (starts_with prefix k) then (false, out)
  else let out := out ++ [k] in (negb (chunk <=? length out)%nat, out).

Definition chunk_keys (prefix : bytes) (chunk : nat) : KVOp Store (list bytes) :=
  read KV_TABLE (read_entries KV_TABLE prefix None (chunk_step prefix chunk) []).

(** The loop of [delete_prefix_chunked]; [None] when [fuel] rounds were not enough. *)
Fixpoint delete_rounds (fuel : nat) (prefix : bytes) (chunk total : nat) (s : Store)
    : option (KVResult nat * Store) :=
  match fuel with
  | O => None
  | S fuel' =>
      match chunk_keys prefix chunk s with
      | (Err e, s') => Some (Err e, s')
      | (Ok keys, s') =>
          match keys with
          | [] => Some (Ok total, s')
          | _ =>
              match batch_delete keys s' with
              | (Err e, s'') => Some (Err e, s'')
              | (Ok _, s'') => delete_rounds fuel' prefix chunk (total + length keys) s''
              end
          end
      end
  end.

Definition delete_prefix_chunked (fuel : nat) (prefix : bytes) (chunk : nat) (s : Store)
    : option (KVResult nat * Store) :=
  delete_rounds fuel prefix (Nat.max chunk 1) 0 s.

Definition count_step (prefix : bytes) (n : nat) (k _v : bytes) : bool * nat :=
  if negb (starts_with prefix k) then (false, n) else (true, S n).

Definition count_prefix (prefix : bytes) : KVOp Store nat :=
  read KV_TABLE (read_entries KV_TABLE prefix None (count_step prefix) O).

Fixpoint count_all (prefixes : list bytes) (rtx : ReadTxn) : KVResult (list nat) :=
  match prefixes with
  | [] => Ok []
  | p :: ps =>
      let? n := read_entries KV_TABLE p None (count_step p) O rtx in
      let? ns := count_all ps rtx in
      Ok (n :: ns)
  end.

Definition count_prefixes (prefixes : list bytes) : KVOp Store (list nat) :=
  read KV_TABLE (count_all prefixes).

(** ** Scans *)

Definition prefix_step (prefix : bytes) (results : list kv_pair) (k v : bytes)
    : bool * list kv_pair :=
  if negb (starts_with prefix k) then (false, results) else (true, results ++ [(k, v)]).

Definition scan_prefix (prefix : bytes) : KVOp Store (list kv_pair) :=
  read KV_TABLE (read_entries KV_TABLE prefix None (prefix_step prefix) []).

Definition range_step (limit : option nat) (results : list kv_pair) (k v : bytes)
    : bool * list kv_pair :=
  let results := results ++ [(k, v)] in (negb (reached limit (length results)), results).

Definition scan_range (start stop : bytes) (limit : option nat) : KVOp Store (list kv_pair) :=
  if kleb stop start || bool_decide (limit = Some O) then kv_ret []
  else read KV_TABLE (read_entries KV_TABLE start (Some stop) (range_step limit) []).

Definition filter_step (prefix : bytes) (filter : bytes -> bytes -> bool) (limit : option nat)
    (results : list kv_pair) (k v : bytes) : bool * list kv_pair :=
  if negb (starts_with prefix k) then (false, results)
  else if filter k v then
    let results := results ++ [(k, v)] in (negb (reached limit (length results)), results)
  else (true, results).

Definition scan_with_filter (prefix : bytes) (filter : bytes -> bytes -> bool)
    (limit : option nat) : KVOp Store (list kv_pair) :=
  if bool_decide (limit = Some O) then kv_ret []
  else read KV_TABLE (read_entries KV_TABLE prefix None (filter_step prefix filter limit) []).

Definition visit_step {X} (prefix : bytes) (filter : bytes -> bytes -> bool)
    (visitor : X -> bytes -> bytes -> bool * X) (limit : option nat) (st : nat * X) (k v : bytes)
    : bool * (nat * X) :=
  let '(visited, x) := st in
  if negb (starts_with prefix k) then (false, st)
  else if filter k v then
    let visited := S visited in
    let '(continue, x') := visitor x k v in
    (negb (negb continue || reached limit visited), (visited, x'))
  else (true, st).

Definition scan_with_filter_visit {X} (prefix : bytes) (filter : bytes -> bytes -> bool)
    (visitor : X -> bytes -> bytes -> bool * X) (limit : option nat) (x : X)
    : KVOp Store (nat * X) :=
  if bool_decide (limit = Some O) then kv_ret (O, x)
  else read KV_TABLE
    (read_entries KV_TABLE prefix None (visit_step prefix filter visitor limit) (O, x)).

(** The items a consumer that reads [scan_stream] to its end receives: the rows
    under the prefix, then the error that stopped the scan, if any. *)
Fixpoint stream_items (prefix : bytes) (items : list RangeItem) : list RangeItem :=
  match items with
  | [] => []
  | Err e :: _ => [Err e]
  | Ok (k, v) :: items' =>
      if negb (starts_with prefix k) then [] else Ok (k, v) :: stream_items prefix items'
  end.

Definition scan_stream (prefix : bytes) : KVOp Store (list RangeItem) :=
  fun s =>
    match read KV_TABLE (read_range KV_TABLE prefix None) s with
    | (Ok items, s') => (Ok (stream_items prefix items), s')
    | (Err e, s') => (Ok [Err e], s')
    end.

(** ** Version history *)

Definition put_version (entity_key : bytes) (valid_from valid_to tx : Z) (value : bytes)
    : KVOp Store unit :=
  write (open_table HISTORY_TABLE ;;?
         table_insert HISTORY_TABLE (history_key entity_key valid_from tx)
           (encode_history_value valid_to value)).

Definition insert_version (r : VersionRow) : KVOp WriteTxn unit :=
  let '(ek, vf, vt, t, val) := r in
  table_insert HISTORY_TABLE (history_key ek vf t) (encode_history_value vt val).

Definition batch_put_version (versions : list VersionRow) : KVOp Store unit :=
  match versions with
  | [] => kv_ret tt
  | _ => write (open_table HISTORY_TABLE ;;? kv_for_each insert_version versions)
  end.

Definition history_step (prefix : bytes) (out : list VersionRecord) (k v : bytes)
    : bool * list VersionRecord :=
  if negb (starts_with prefix k) then (false, out)
  else
    match parse_history_key_times k, decode_history_value v with
    | Some (vf, t), Some (vt, val) =>
        (true, out ++ [{| valid_from := vf; valid_to := vt; tx := t; value := val |}])
    | _, _ => (true, out)
    end.

Definition scan_history (entity_key : bytes) : KVOp Store (list VersionRecord) :=
  let prefix := history_prefix entity_key in
  read HISTORY_TABLE (read_entries HISTORY_TABLE prefix None (history_step prefix) []).

Definition entity_step (prefix : bytes) (out : list bytes) (k _v : bytes) : bool * list bytes :=
  if negb (starts_with prefix k) then (false, out)
  else if (length k <? 17)%nat || negb (bool_decide (k !! (length k - 17)%nat = Some x00))
  then (true, out)
  else
    let entity := take (length k - 17) k in
    if bool_decide (last out = Some entity) then (true, out) else (true, out ++ [entity]).

Definition scan_history_entity_keys (entity_prefix : bytes) : KVOp Store (list bytes) :=
  read HISTORY_TABLE
    (read_entries HISTORY_TABLE entity_prefix None (entity_step entity_prefix) []).

Definition batch_apply (puts : list kv_pair) (deletes : list bytes) (versions : list VersionRow)
    : KVOp Store unit :=
  match puts, deletes, versions with
  | [], [], [] => kv_ret tt
  | _, _, _ =>
      write (open_table KV_TABLE ;;?
             kv_for_each (insert_pair KV_TABLE) puts ;;?
             kv_for_each (table_remove KV_TABLE) deletes ;;?
             open_table HISTORY_TABLE ;;?
             kv_for_each insert_version versions)
  end.

Definition as_of_step (prefix : bytes) (valid_at tx_at : Z) (found : option bytes) (k v : bytes)
    : bool * option bytes :=
  if negb (starts_with prefix k) then (false, found)
  else
    match parse_history_key_times k, decode_history_value v with
    | Some (_, t), Some (vt, val) =>
        if (t <=? tx_at) && (valid_at <? vt) then (false, Some val) else (true, found)
    | _, _ => (true, found)
    end.

Definition get_as_of (entity_key : bytes) (valid_at tx_at : Z) : KVOp Store (option bytes) :=
  let prefix := history_prefix entity_key in
  let start := history_key entity_key valid_at tx_at in
  read HISTORY_TABLE
    (read_entries HISTORY_TABLE start None (as_of_step prefix valid_at tx_at) None).

End store.
End Redb.
