(* ===== verification/KVRedbFacts.v ===== *)
(** * The redb-backed store refines the in-memory store

    [RedbLaws] states what the store relies on in [redb]. Under it every method
    of [RedbKVStore] that succeeds returns and stores what the method of
    [MemoryKVStore] does, a failing method leaves the store as it was or has
    taken full effect, chunked deletion terminates, and relaxed durability loses
    at most the last 63 commits and 64 more for every checkpoint that failed. *)

From Stdlib Require Import ZArith Lia Strings.Byte Strings.String.
From stdpp Require Import base tactics list sorting relations.
From S2P Require Import Prelude OrdMap History KVStore KVStoreFacts KVStoreBatch KVDyn KVRedb.

(** ** What redb promises *)

Definition table (t : TableDefinition) (s : MemoryKVStore) : list kv_pair :=
  match t with KV_TABLE => data s | HISTORY_TABLE => history s end.
Definition with_table (t : TableDefinition) (s : MemoryKVStore) (m : list kv_pair) : MemoryKVStore :=
  match t with KV_TABLE => with_data s m | HISTORY_TABLE => with_history s m end.

(** The rows of a range, ascending. *)
Definition range_rows (start : bytes) (stop : option bytes) (m : list kv_pair) : list kv_pair :=
  match stop with None => om_range_from start m | Some e => om_range start e m end.

(** An iterator over [rows]: all of them, or some of them and then an error. *)
Fixpoint iterates (rows : list kv_pair) (items : list RangeItem) : Prop :=
  match items with
  | [] => rows = []
  | Err _ :: _ => True
  | Ok kv :: items' => match rows with kv' :: rows' => kv = kv' /\ iterates rows' items' | [] => False end
  end.

(** A call that succeeds has the effect [m] on the tables seen through [view]. *)
Definition implements {S A} (view : S -> MemoryKVStore) (c : KVOp S A) (m : KVOp MemoryKVStore A) : Prop :=
  forall s a s', c s = (Ok a, s') -> m (view s) = (Ok a, view s').

Class RedbLaws (Database WriteTxn ReadTxn : Type) {ops : RedbOps Database WriteTxn ReadTxn} := {
  (** the committed tables, what survives a crash, and the tables a transaction sees *)
  contents : Database -> MemoryKVStore;
  persisted : Database -> MemoryKVStore;
  working : WriteTxn -> MemoryKVStore;
  txn_durability : WriteTxn -> Durability;
  snapshot : ReadTxn -> MemoryKVStore;
  contents_sorted d : om_wf (data (contents d)) /\ om_wf (history (contents d));
  begin_read_db d r d' : begin_read d = (r, d') -> contents d' = contents d /\ persisted d' = persisted d;
  begin_read_snapshot d t d' : begin_read d = (Ok t, d') -> snapshot t = contents d;
  begin_write_db d r d' : begin_write d = (r, d') -> contents d' = contents d /\ persisted d' = persisted d;
  begin_write_working d t d' : begin_write d = (Ok t, d') -> working t = contents d;
  set_durability_ok l w w' : set_durability l w = (Ok tt, w') -> working w' = working w /\ txn_durability w' = l;
  open_table_ok t : implements working (open_table t) (kv_ret tt);
  table_get_ok t k : implements working (table_get t k) (fun s => (Ok (om_get k (table t s)), s));
  table_insert_ok t k v :
    implements working (table_insert t k v) (fun s => (Ok tt, with_table t s (om_insert k v (table t s))));
  table_remove_ok t k :
    implements working (table_remove t k) (fun s => (Ok tt, with_table t s (om_remove k (table t s))));
  open_table_durability t w r w' : open_table t w = (r, w') -> txn_durability w' = txn_durability w;
  table_get_durability t k w r w' : table_get t k w = (r, w') -> txn_durability w' = txn_durability w;
  table_insert_durability t k v w r w' : table_insert t k v w = (r, w') -> txn_durability w' = txn_durability w;
  table_remove_durability t k w r w' : table_remove t k w = (r, w') -> txn_durability w' = txn_durability w;
  read_get_ok t k r v : read_get t k r = Ok v -> v = om_get k (table t (snapshot r));
  read_range_ok t start stop r items :
    read_range t start stop r = Ok items -> iterates (range_rows start stop (table t (snapshot r))) items;
  commit_ok w d d' :
    commit w d = (Ok tt, d') ->
    contents d' = working w /\
    persisted d' = match txn_durability w with Immediate => working w | NoDurability => persisted d end;
  (** a commit that reports an error was applied in full or not at all *)
  commit_err w d e d' : commit w d = (Err e, d') -> contents d' = contents d \/ contents d' = working w
}.

(** What survives a crash after a commit that reports an error: all of it or none. *)
Class RedbCrashLaws (Database WriteTxn ReadTxn : Type) {ops : RedbOps Database WriteTxn ReadTxn}
    {laws : RedbLaws Database WriteTxn ReadTxn} := {
  commit_err_persisted w d e d' :
    commit w d = (Err e, d') -> persisted d' = persisted d \/ persisted d' = working w
}.

(** The rows under a prefix. *)
Abbreviation matching prefix m := (List.filter (fun kv : kv_pair => starts_with prefix kv.1) m).

(** ** Transactions *)

Section refinement.
Context {Database WriteTxn ReadTxn : Type} {ops : RedbOps Database WriteTxn ReadTxn}
  {laws : RedbLaws Database WriteTxn ReadTxn}.
Abbreviation Store := (RedbKVStore Database).

(** The store's state as an in-memory store. *)
Definition view (s : Store) : MemoryKVStore := contents (db s).

Abbreviation refines := (store_refines view).

(** The body of a write transaction does [m] and keeps the durability level. *)
Definition txn_body {A} (c : KVOp WriteTxn A) (m : KVOp MemoryKVStore A) : Prop :=
  implements working c m /\
  forall w a w', c w = (Ok a, w') -> txn_durability w' = txn_durability w.

Lemma txn_ret {A} (a : A) : txn_body (kv_ret a) (kv_ret a).
Proof. split; [intros w x w' [= <- <-]|intros w x w' [= _ <-]]; done. Qed.

Lemma txn_bind {A B} (c : KVOp WriteTxn A) (k : A -> KVOp WriteTxn B) m n :
  txn_body c m -> (forall a, txn_body (k a) (n a)) -> txn_body (kv_bind c k) (kv_bind m n).
Proof.
  intros [Hc Hcd] Hk. unfold kv_bind. split.
  - intros w b w'. destruct (c w) as [[a|e] w1] eqn:E; [|done]. intros Hb.
    rewrite (Hc _ _ _ E). by apply Hk.
  - intros w b w'. destruct (c w) as [[a|e] w1] eqn:E; [|done]. intros Hb.
    destruct (Hk a) as [_ Hd]. by rewrite (Hd _ _ _ Hb), (Hcd _ _ _ E).
Qed.

Lemma txn_for_each {A} (f : A -> KVOp WriteTxn unit) g l :
  (forall a, txn_body (f a) (g a)) -> txn_body (kv_for_each f l) (kv_for_each g l).
Proof. intros Hf. induction l as [|a l IH]; simpl; [apply txn_ret|]. by apply txn_bind. Qed.

Lemma txn_open t : txn_body (open_table t) (kv_ret tt).
Proof. split; [apply open_table_ok|]. eauto using open_table_durability. Qed.
Lemma txn_get t k : txn_body (table_get t k) (fun s => (Ok (om_get k (table t s)), s)).
Proof. split; [apply table_get_ok|]. eauto using table_get_durability. Qed.
Lemma txn_insert t k v :
  txn_body (table_insert t k v) (fun s => (Ok tt, with_table t s (om_insert k v (table t s)))).
Proof. split; [apply table_insert_ok|]. eauto using table_insert_durability. Qed.
Lemma txn_remove t k :
  txn_body (table_remove t k) (fun s => (Ok tt, with_table t s (om_remove k (table t s)))).
Proof. split; [apply table_remove_ok|]. eauto using table_remove_durability. Qed.

(** What a write transaction does to the committed and to the durable tables. *)
Definition write_outcome {A} (l : Durability) (m : KVOp MemoryKVStore A) (d : Database)
    (r : KVResult A) (d' : Database) : Prop :=
  match r with
  | Ok a =>
      m (contents d) = (Ok a, contents d') /\
      persisted d' = match l with Immediate => contents d' | NoDurability => persisted d end
  | Err _ => contents d' = contents d \/ contents d' = (m (contents d)).2
  end.

Lemma write_with_outcome {A} l (c : KVOp WriteTxn A) m s r s' :
  txn_body c m -> Redb.write_with l c s = (r, s') ->
  write_outcome l m (db s) r (db s') /\
  commit_count s' = commit_count s /\ relaxed_durability s' = relaxed_durability s.
Proof.
  intros [Hc Hd]. unfold Redb.write_with, Redb.on_db, kv_bind at 1 2.
  destruct (begin_write (db s)) as [[w|e] d1] eqn:Eb; cbn [Redb.with_database].
  2: { intros [= <- <-]. apply begin_write_db in Eb as [Eb _]. repeat split; try done. by left. }
  pose proof (begin_write_working _ _ _ Eb) as Hw. apply begin_write_db in Eb as [Ec Ep].
  unfold kv_bind. destruct (set_durability l w) as [[[]|e] w1] eqn:El.
  2: { intros [= <- <-]. repeat split; try done. by left. }
  apply set_durability_ok in El as [Hw1 Hl].
  destruct (c w1) as [[a|e] w2] eqn:E2.
  2: { intros [= <- <-]. repeat split; try done. by left. }
  pose proof (Hc _ _ _ E2) as Hm. rewrite Hw1, Hw in Hm. apply Hd in E2. rewrite Hl in E2.
  simpl. destruct (commit w2 d1) as [[[]|e] d2] eqn:Ecm; intros [= <- <-]; repeat split; simpl.
  - apply commit_ok in Ecm as [-> _]. done.
  - apply commit_ok in Ecm as [-> ->]. rewrite E2. by destruct l.
  - apply commit_err in Ecm as [->| ->]; [by left|right]. by rewrite Hm.
Qed.

Lemma write_refines {A} (c : KVOp WriteTxn A) m m' :
  txn_body c m -> (forall s, m s = m' s) -> refines (Redb.write c) m'.
Proof.
  intros Hb Hm s r s'. unfold Redb.write, Redb.next_durability.
  destruct (relaxed_durability s); simpl; intros Hw;
    apply (write_with_outcome _ _ m) in Hw as [Hw _]; try done;
    unfold write_outcome in Hw; simpl in Hw; unfold view; rewrite <- Hm;
    destruct r; intuition.
Qed.

(** [c] is one write transaction that does [m]. *)
Definition transacts {A} (c : KVOp Store A) (m : KVOp MemoryKVStore A) : Prop :=
  exists body m', txn_body body m' /\ (forall s, m' s = m s) /\ forall s, c s = Redb.write body s.

Lemma transacts_refines {A} (c : KVOp Store A) m : transacts c m -> refines c m.
Proof. intros (body & m' & Hb & Hm & Hc) s r s'. rewrite Hc. by apply (write_refines body m'). Qed.

(** ** Read transactions *)

Lemma read_refines {A} t (body : ReadTxn -> KVResult A) (f : MemoryKVStore -> A) :
  (forall rtx a, body rtx = Ok a -> a = f (snapshot rtx)) ->
  refines (Redb.read t body) (fun s => (Ok (f s), s)).
Proof.
  intros Hb s r s'. unfold Redb.read, Redb.on_db, kv_bind.
  destruct (begin_read (db s)) as [[rtx|e] d1] eqn:Eb.
  - intros [= <- <-]. pose proof (begin_read_snapshot _ _ _ Eb) as Hs.
    apply begin_read_db in Eb as [Ec _]. unfold view. simpl. rewrite Ec.
    destruct (read_open_table t rtx) as [[]|e]; [|by left].
    destruct (body rtx) as [a|e] eqn:Er; [|by left]. by rewrite (Hb _ _ Er), Hs.
  - intros [= <- <-]. apply begin_read_db in Eb as [Ec _]. by left.
Qed.

(** A loop over an iterator that returns is the loop over the rows themselves. *)
Lemma for_entries_rows {X} step rows items (x y : X) :
  iterates rows items -> for_entries step items x = Ok y ->
  for_entries step (Ok <$> rows) x = Ok y.
Proof.
  revert items x. induction rows as [|[k v] rows IH]; intros [|[[k' v']|e] items] x; simpl; try done.
  - intros [[= -> ->] Hit]. destruct (step x k v) as [[|] x']; [|done]. by apply IH.
Qed.

Lemma entries_refines {X} t start stop step (x : X) (f : list kv_pair -> X) :
  (forall rows, for_entries step (Ok <$> rows) x = Ok (f rows)) ->
  refines (Redb.read t (Redb.read_entries t start stop step x))
          (fun s => (Ok (f (range_rows start stop (table t s))), s)).
Proof.
  intros Hf. apply (read_refines t _ (fun s => f (range_rows start stop (table t s)))).
  intros rtx a. unfold Redb.read_entries.
  destruct (read_range t start stop rtx) as [items|e] eqn:E; [|done]. intros Hit.
  apply read_range_ok in E. eapply for_entries_rows in Hit; [|done]. rewrite Hf in Hit. congruence.
Qed.

(** ** The loops over the rows *)

Abbreviation under prefix rows := (take_while (fun kv : kv_pair => starts_with prefix kv.1) rows).

Lemma prefix_loop p rows acc :
  for_entries (Redb.prefix_step p) (Ok <$> rows) acc = Ok (acc ++ under p rows).
Proof.
  revert acc. induction rows as [|[k v] rows IH]; intros acc; simpl; [by rewrite app_nil_r|].
  unfold Redb.prefix_step at 1. destruct (starts_with p k); simpl; [|by rewrite app_nil_r].
  by rewrite IH, <- app_assoc.
Qed.

Lemma count_loop p rows n :
  for_entries (Redb.count_step p) (Ok <$> rows) n = Ok (n + length (under p rows))%nat.
Proof.
  revert n. induction rows as [|[k v] rows IH]; intros n; simpl; [f_equal; lia|].
  unfold Redb.count_step at 1. destruct (starts_with p k); simpl; [|f_equal; lia].
  rewrite IH. f_equal. lia.
Qed.

Lemma reached_take limit {A} (acc l : list A) :
  reached limit (length acc) = true -> limit <> None -> (length acc <= default O limit)%nat ->
  take_limit limit (acc ++ l) = acc.
Proof.
  destruct limit as [n|]; [|done]. simpl. intros Hr%Nat.leb_le _ Hle.
  rewrite take_app_le by lia. by rewrite take_ge by lia.
Qed.

(** The filtered scan, which is the range scan when nothing is filtered out. *)
Lemma filter_loop p f limit rows acc :
  reached limit (length acc) = false ->
  for_entries (Redb.filter_step p f limit) (Ok <$> rows) acc =
  Ok (take_limit limit (acc ++ List.filter (fun kv => f kv.1 kv.2) (under p rows))).
Proof.
  assert (Hkeep : forall acc : list kv_pair, reached limit (length acc) = false -> take_limit limit acc = acc).
  { intros a. destruct limit; simpl; [|done]. intros Ha%Nat.leb_gt. rewrite take_ge; [done|lia]. }
  revert acc. induction rows as [|[k v] rows IH]; intros acc Ha; simpl; [by rewrite app_nil_r, Hkeep|].
  unfold Redb.filter_step at 1. destruct (starts_with p k); simpl; [|by rewrite app_nil_r, Hkeep].
  destruct (f k v); simpl; [|by apply IH].
  destruct (reached limit (length (acc ++ [(k, v)]))) eqn:E; simpl; [|by rewrite IH, <- app_assoc].
  rewrite (cons_middle (k, v) acc (List.filter _ _)), app_assoc,
    (reached_take limit (acc ++ [(k, v)])); try done.
  - by destruct limit; simpl in E.
  - destruct limit as [n|]; [|done]. simpl in *. apply Nat.leb_gt in Ha. rewrite length_app. simpl. lia.
Qed.

Lemma range_loop limit rows acc :
  reached limit (length acc) = false ->
  for_entries (Redb.range_step limit) (Ok <$> rows) acc = Ok (take_limit limit (acc ++ rows)).
Proof.
  intros Ha. assert (Hall : List.filter (fun _ => true) (under [] rows) = rows).
  { clear Ha. induction rows as [|r rows IH]; simpl; [done|]. f_equal. exact IH. }
  rewrite <- Hall at 2. rewrite <- (filter_loop [] (fun _ _ => true)) by done. clear Ha Hall. revert acc.
  induction rows as [|[k v] rows IH]; intros acc; simpl; [done|].
  unfold Redb.range_step at 1, Redb.filter_step at 1. simpl. by case_match.
Qed.

Lemma visit_prefix_loop {X} p f (visitor : X -> bytes -> bytes -> bool * X) limit rows n x :
  for_entries (Redb.visit_step p f visitor limit) (Ok <$> rows) (n, x) =
  Ok (Memory.visit_loop f visitor limit (under p rows) n x).
Proof.
  revert n x. induction rows as [|[k v] rows IH]; intros n x; simpl; [done|].
  destruct (starts_with p k); simpl; [|done]. destruct (f k v); simpl; [|by apply IH].
  destruct (visitor x k v) as [go x']. unfold reached. simpl.
  destruct (negb go || _); simpl; [done|]. by apply IH.
Qed.

Lemma history_loop p rows acc :
  for_entries (Redb.history_step p) (Ok <$> rows) acc = Ok (acc ++ history_rows p rows).
Proof.
  revert acc. induction rows as [|[k v] rows IH]; intros acc; simpl; [by rewrite app_nil_r|].
  unfold Redb.history_step at 1. destruct (starts_with p k); simpl; [|by rewrite app_nil_r].
  destruct (parse_history_key_times k) as [[vf t]|]; [|by apply IH].
  destruct (decode_history_value v) as [[vt val]|]; [|by apply IH]. by rewrite IH, <- app_assoc.
Qed.

Lemma entity_loop p rows acc :
  for_entries (Redb.entity_step p) (Ok <$> rows) acc = Ok (entity_key_rows p rows acc).
Proof.
  revert acc. induction rows as [|[k v] rows IH]; intros acc; simpl; [done|].
  unfold Redb.entity_step at 1. destruct (starts_with p k); simpl; [|done].
  destruct (_ || _); [by apply IH|]. case_bool_decide; by apply IH.
Qed.

Lemma as_of_loop p va ta rows :
  for_entries (Redb.as_of_step p va ta) (Ok <$> rows) None = Ok (as_of_rows p va ta rows).
Proof.
  induction rows as [|[k v] rows IH]; simpl; [done|].
  unfold Redb.as_of_step at 1. destruct (starts_with p k); simpl; [|done].
  destruct (parse_history_key_times k) as [[vf t]|]; [|by apply IH].
  destruct (decode_history_value v) as [[vt val]|]; [|by apply IH].
  destruct (_ && _); [done|by apply IH].
Qed.

Lemma chunk_loop p chunk rows acc :
  (length acc < chunk)%nat ->
  for_entries (Redb.chunk_step p chunk) (Ok <$> rows) acc =
  Ok (take chunk (acc ++ (fst <$> under p rows))).
Proof.
  revert acc. induction rows as [|[k v] rows IH]; intros acc Ha; simpl.
  - rewrite app_nil_r, take_ge; [done|lia].
  - unfold Redb.chunk_step at 1. destruct (starts_with p k); simpl.
    2: { rewrite app_nil_r, take_ge; [done|lia]. }
    destruct (Nat.leb_spec chunk (length (acc ++ [k]))) as [Hle|Hlt]; simpl.
    + match goal with |- _ = Ok (take _ (_ ++ _ :: ?l)) => change (k :: l) with ([k] ++ l) end.
      rewrite app_assoc, take_app_le by done.
      rewrite length_app in *. simpl in *. by rewrite take_ge by (rewrite length_app; simpl; lia).
    + rewrite IH by done. by rewrite <- app_assoc.
Qed.

(** ** Batches on the in-memory side *)

Lemma for_each_insert {A} t (f : A -> kv_pair) l s :
  kv_for_each (fun a s => (Ok tt, with_table t s (om_insert (f a).1 (f a).2 (table t s)))) l s =
  (Ok tt, with_table t s (om_insert_all (f <$> l) (table t s))).
Proof.
  revert s. induction l as [|a l IH]; intros s; simpl; [by destruct t, s|].
  unfold kv_bind. rewrite IH. by destruct t, s.
Qed.

Lemma for_each_remove t l s :
  kv_for_each (fun k s => (Ok tt, with_table t s (om_remove k (table t s)))) l s =
  (Ok tt, with_table t s (om_remove_all l (table t s))).
Proof.
  revert s. induction l as [|a l IH]; intros s; simpl; [by destruct t, s|].
  unfold kv_bind. rewrite IH. by destruct t, s.
Qed.

Lemma kv_bind_ret {S A B} (a : A) (k : A -> KVOp S B) s : kv_bind (kv_ret a) k s = k a s.
Proof. done. Qed.

Definition mem_insert (t : TableDefinition) (k v : bytes) : KVOp MemoryKVStore unit :=
  fun s => (Ok tt, with_table t s (om_insert k v (table t s))).
Definition mem_remove (t : TableDefinition) (k : bytes) : KVOp MemoryKVStore unit :=
  fun s => (Ok tt, with_table t s (om_remove k (table t s))).

Lemma txn_insert_pair t kv : txn_body (Redb.insert_pair t kv) (mem_insert t kv.1 kv.2).
Proof. apply txn_insert. Qed.

Lemma txn_insert_version r :
  txn_body (Redb.insert_version r) (mem_insert HISTORY_TABLE (version_entry r).1 (version_entry r).2).
Proof. destruct r as [[[[ek vf] vt] t] val]. apply txn_insert. Qed.

Lemma txn_add_counter kd : txn_body (Redb.add_counter kd) (default_add_counter kd).
Proof.
  destruct kd as [key delta]. unfold Redb.add_counter, default_add_counter.
  apply txn_bind; [apply txn_get|]. intros cell. simpl. case_match; [apply txn_remove|apply txn_insert].
Qed.

(** Follow the structure of a transaction body. *)
Ltac solve_txn :=
  lazymatch goal with
  | |- txn_body (kv_bind _ _) _ => eapply txn_bind; [solve_txn|intros ?; solve_txn]
  | |- txn_body (kv_for_each _ _) _ => eapply txn_for_each; intros ?; solve_txn
  | |- _ => first [apply txn_ret | apply txn_open | apply txn_get | apply txn_insert_pair
                 | apply txn_insert_version | apply txn_add_counter | apply txn_insert | apply txn_remove]
  end.

Ltac transaction := eexists _, _; (split; [|split; [|intros s; reflexivity]]); [solve_txn|].

Lemma put_transacts k v : transacts (Redb.put k v) (Memory.put k v).
Proof. transaction. intros s. by rewrite kv_bind_ret. Qed.

Lemma delete_transacts k : transacts (Redb.delete k) (Memory.delete k).
Proof. transaction. intros s. by rewrite kv_bind_ret. Qed.

Lemma batch_put_transacts pairs : transacts (Redb.batch_put pairs) (Memory.batch_put pairs).
Proof.
  transaction. intros s. rewrite kv_bind_ret. unfold mem_insert.
  rewrite (for_each_insert KV_TABLE (fun kv => kv)). by rewrite list_fmap_id.
Qed.

Lemma batch_delete_transacts keys : transacts (Redb.batch_delete keys) (Memory.batch_delete keys).
Proof.
  transaction. intros s. rewrite kv_bind_ret. apply (for_each_remove KV_TABLE).
Qed.

Lemma batch_apply_transacts puts deletes versions :
  puts <> [] \/ deletes <> [] \/ versions <> [] ->
  transacts (Redb.batch_apply puts deletes versions) (Memory.batch_apply puts deletes versions).
Proof.
  intros Hne. exists (open_table KV_TABLE ;;?
    kv_for_each (Redb.insert_pair KV_TABLE) puts ;;?
    kv_for_each (table_remove KV_TABLE) deletes ;;?
    open_table HISTORY_TABLE ;;?
    kv_for_each Redb.insert_version versions). eexists. split; [solve_txn|]. split.
  - intros s. rewrite kv_bind_ret. unfold mem_insert, kv_bind.
    rewrite (for_each_insert KV_TABLE (fun kv => kv)), (for_each_remove KV_TABLE). simpl.
    rewrite (for_each_insert HISTORY_TABLE version_entry). by rewrite list_fmap_id.
  - unfold Redb.batch_apply. destruct puts, deletes, versions; try done. naive_solver.
Qed.

Lemma batch_apply_refines puts deletes versions :
  refines (Redb.batch_apply puts deletes versions) (Memory.batch_apply puts deletes versions).
Proof.
  destruct puts, deletes, versions; try (apply transacts_refines, batch_apply_transacts; naive_solver).
  intros s r s' [= <- <-]. unfold Memory.batch_apply. simpl. by destruct (view s).
Qed.

(** ** Every method *)

Definition redb_run {A} (c : kv_call A) : KVOp Store A :=
  match c with
  | call_get k => Redb.get k
  | call_put k v => Redb.put k v
  | call_put_if_absent k v => Redb.put_if_absent k v
  | call_delete k => Redb.delete k
  | call_batch_put pairs => Redb.batch_put pairs
  | call_batch_delete keys => Redb.batch_delete keys
  | call_checkpoint => Redb.checkpoint
  | call_count_prefix p => Redb.count_prefix p
  | call_count_prefixes ps => Redb.count_prefixes ps
  | call_add_counters deltas => Redb.add_counters deltas
  | call_batch_get keys => Redb.batch_get keys
  | call_scan_prefix p => Redb.scan_prefix p
  | call_scan_range start stop limit => Redb.scan_range start stop limit
  | call_scan_with_filter p f limit => Redb.scan_with_filter p f limit
  | call_visit _ p f visitor limit x => Redb.scan_with_filter_visit p f visitor limit x
  | call_put_version e vf vt t v => Redb.put_version e vf vt t v
  | call_scan_history e => Redb.scan_history e
  | call_batch_put_version versions => Redb.batch_put_version versions
  | call_entity_keys p => Redb.scan_history_entity_keys p
  | call_batch_apply puts deletes versions => Redb.batch_apply puts deletes versions
  | call_get_as_of e valid_at tx_at => Redb.get_as_of e valid_at tx_at
  end.

Lemma ret_refines {A} (a : A) (m : KVOp MemoryKVStore A) :
  (forall s, m s = (Ok a, s)) -> refines (kv_ret a) m.
Proof. intros Hm s r s' [= <- <-]. apply Hm. Qed.

Lemma refines_ext {A} (c : KVOp Store A) m m' :
  refines c m -> (forall s, m s = m' s) -> refines c m'.
Proof. intros Hc Hm s r s' E. apply Hc in E. by rewrite <- Hm. Qed.

Lemma get_all_refines keys :
  refines (Redb.batch_get keys) (Memory.batch_get keys).
Proof.
  apply (read_refines KV_TABLE _ (fun s => (fun k => om_get k (data s)) <$> keys)). intros rtx.
  induction keys as [|k keys IH]; intros a; simpl; [by intros [= <-]|].
  destruct (read_get KV_TABLE k rtx) as [v|e] eqn:E; [|done]. apply read_get_ok in E as ->.
  destruct (Redb.get_all keys rtx) as [vs|e]; [|done]. intros [= <-]. by rewrite (IH vs).
Qed.

Lemma count_prefixes_refines ps :
  refines (Redb.count_prefixes ps) (default_count_prefixes ps).
Proof.
  eapply refines_ext;
    [apply (read_refines KV_TABLE _ (fun s => (fun p => length (under p (om_range_from p (data s)))) <$> ps))|].
  - intros rtx. induction ps as [|p ps IH]; intros a; simpl; [by intros [= <-]|].
    unfold Redb.read_entries. destruct (read_range KV_TABLE p None rtx) as [items|e] eqn:E; [|done].
    apply read_range_ok in E.
    destruct (for_entries (Redb.count_step p) items O) as [n|e] eqn:En; [|done].
    eapply for_entries_rows in En; [|done]. rewrite count_loop in En. injection En as <-.
    destruct (Redb.count_all ps rtx) as [ns|e]; [|done]. intros [= <-]. by rewrite (IH ns).
  - intros s. induction ps as [|p ps IH]; simpl; [done|].
    unfold kv_bind at 1. simpl. unfold kv_bind. by rewrite <- IH.
Qed.

Definition put_if_absent_txn (k v : bytes) : KVOp WriteTxn (option bytes) :=
  open_table KV_TABLE ;;?
  existing <-? table_get KV_TABLE k ;;
  match existing with
  | None => table_insert KV_TABLE k v ;;? kv_ret None
  | Some v => kv_ret (Some v)
  end.

Lemma txn_put_if_absent k v :
  txn_body (put_if_absent_txn k v)
    (kv_ret tt ;;? kv_bind (fun s => (Ok (om_get k (table KV_TABLE s)), s))
      (fun existing => match existing with
        | None => mem_insert KV_TABLE k v ;;? kv_ret None
        | Some v => kv_ret (Some v) end)).
Proof. apply txn_bind; [apply txn_open|intros _]. apply txn_bind; [apply txn_get|]. intros [x|]; solve_txn. Qed.

Lemma put_if_absent_transacts k v : transacts (Redb.put_if_absent k v) (Memory.put_if_absent k v).
Proof.
  exists (put_if_absent_txn k v). eexists. split; [apply txn_put_if_absent|]. split; [|done].
  intros s. rewrite kv_bind_ret. unfold kv_bind, Memory.put_if_absent. simpl. by case_match.
Qed.

Lemma read_get_refines k : refines (Redb.get k) (Memory.get k).
Proof. apply (read_refines KV_TABLE _ (fun s => om_get k (data s))). intros rtx a. apply read_get_ok. Qed.

Lemma scan_range_refines start stop limit :
  refines (Redb.scan_range start stop limit) (Memory.scan_range start stop limit).
Proof.
  unfold Redb.scan_range. destruct (kleb stop start || bool_decide (limit = Some O)) eqn:E.
  - apply ret_refines. intros s. unfold Memory.scan_range. by rewrite E.
  - apply orb_false_iff in E as [E1 E2%bool_decide_eq_false].
    eapply refines_ext; [apply (entries_refines KV_TABLE _ _ _ _ (fun rows => take_limit limit rows))|].
    + intros rows. rewrite range_loop; [done|]. by destruct limit as [[|n]|].
    + intros s. unfold Memory.scan_range. by rewrite E1, bool_decide_eq_false_2.
Qed.

Lemma scan_with_filter_refines p f limit :
  refines (Redb.scan_with_filter p f limit) (Memory.scan_with_filter p f limit).
Proof.
  unfold Redb.scan_with_filter. case_bool_decide as E.
  - apply ret_refines. intros s. unfold Memory.scan_with_filter. subst. done.
  - eapply refines_ext; [apply (entries_refines KV_TABLE _ _ _ _
      (fun rows => take_limit limit (List.filter (fun kv => f kv.1 kv.2) (under p rows))))|done].
    intros rows. rewrite filter_loop; [done|]. by destruct limit as [[|n]|].
Qed.

Lemma visit_refines {X} p f (visitor : X -> bytes -> bytes -> bool * X) limit x :
  refines (Redb.scan_with_filter_visit p f visitor limit x)
          (Memory.scan_with_filter_visit p f visitor limit x).
Proof.
  unfold Redb.scan_with_filter_visit. case_bool_decide as E.
  - apply ret_refines. intros s. unfold Memory.scan_with_filter_visit. by rewrite bool_decide_eq_true_2.
  - eapply refines_ext; [apply (entries_refines KV_TABLE _ _ _ _
      (fun rows => Memory.visit_loop f visitor limit (under p rows) O x))|].
    + intros rows. apply visit_prefix_loop.
    + intros s. unfold Memory.scan_with_filter_visit. by rewrite bool_decide_eq_false_2.
Qed.

Lemma batch_put_version_transacts versions :
  versions <> [] -> transacts (Redb.batch_put_version versions) (Memory.batch_put_version versions).
Proof.
  destruct versions as [|r versions]; [done|]. intros _. transaction.
  intros s. rewrite kv_bind_ret. unfold mem_insert. apply (for_each_insert HISTORY_TABLE version_entry).
Qed.

Lemma batch_put_version_refines versions :
  refines (Redb.batch_put_version versions) (Memory.batch_put_version versions).
Proof.
  destruct versions; [apply ret_refines; by intros []|]. by apply transacts_refines, batch_put_version_transacts.
Qed.

Lemma scan_prefix_refines p : refines (Redb.scan_prefix p) (Memory.scan_prefix p).
Proof.
  eapply refines_ext; [apply (entries_refines KV_TABLE _ _ _ _ (fun rows => under p rows))|done].
  intros. apply prefix_loop.
Qed.

Lemma scan_history_refines e : refines (Redb.scan_history e) (Memory.scan_history e).
Proof.
  eapply refines_ext; [apply (entries_refines HISTORY_TABLE _ _ _ _ (history_rows (history_prefix e)))|done].
  intros. apply history_loop.
Qed.

Lemma entity_keys_refines p :
  refines (Redb.scan_history_entity_keys p) (Memory.scan_history_entity_keys p).
Proof.
  eapply refines_ext; [apply (entries_refines HISTORY_TABLE _ _ _ _ (fun rows => entity_key_rows p rows []))|done].
  intros. apply entity_loop.
Qed.

Lemma checkpoint_refines : refines Redb.checkpoint (kv_ret tt).
Proof.
  intros s r s' Hw. apply (write_with_outcome _ _ (kv_ret tt)) in Hw as [Hw _]; [|apply txn_ret].
  unfold write_outcome in Hw. unfold view. destruct r; intuition.
Qed.

(** C2: every method of the redb store that returns a result returns what the
    in-memory store returns on the same tables and commits the same tables; one
    that returns an error left the tables as they were or committed all of its
    effect, never a part of it. *)
Theorem redb_refines_memory {A} (c : kv_call A) : refines (redb_run c) (mem_run c).
Proof.
  destruct c; simpl.
  - apply read_get_refines.
  - apply transacts_refines, put_transacts.
  - apply transacts_refines, put_if_absent_transacts.
  - apply transacts_refines, delete_transacts.
  - apply transacts_refines, batch_put_transacts.
  - apply transacts_refines, batch_delete_transacts.
  - apply checkpoint_refines.
  - eapply refines_ext; [apply (entries_refines KV_TABLE _ _ _ _ (fun rows => length (under p rows)))|done].
    intros. apply count_loop.
  - apply count_prefixes_refines.
  - eapply write_refines; [solve_txn|]. done.
  - apply get_all_refines.
  - apply scan_prefix_refines.
  - apply scan_range_refines.
  - apply scan_with_filter_refines.
  - apply visit_refines.
  - eapply write_refines; [solve_txn|]. intros s. by rewrite kv_bind_ret.
  - apply scan_history_refines.
  - apply batch_put_version_refines.
  - apply entity_keys_refines.
  - apply batch_apply_refines.
  - eapply refines_ext; [apply (entries_refines HISTORY_TABLE _ _ _ _
      (as_of_rows (history_prefix e) valid_at tx_at))|done].
    intros. apply as_of_loop.
Qed.

(** ** Chunked deletion *)

Lemma om_wf_app (l1 l2 : list kv_pair) :
  om_wf (l1 ++ l2) -> om_wf l2 /\ forall a b, a ∈ l1 -> b ∈ l2 -> a.1 <> b.1.
Proof.
  induction l1 as [|[k v] l1 IH]; intros Hwf.
  - split; [done|]. intros a b Ha. by apply elem_of_nil in Ha.
  - destruct (IH (om_wf_tail _ _ Hwf)) as [Hwf2 Hne]. split; [done|].
    intros a [k' v'] [->|Ha]%elem_of_cons Hb; [|by apply Hne].
    apply (cmp_lt_neq k k'). eapply om_wf_head; [done|]. apply elem_of_app. by right.
Qed.

(** Deleting the first [c] matching keys leaves the other matching rows. *)
Lemma matching_remove_chunk prefix c (m : list kv_pair) :
  om_wf m ->
  matching prefix (om_remove_all (take c (matching prefix m).*1) m) = drop c (matching prefix m).
Proof.
  intros Hwf. pose proof (om_filter_wf (fun kv => starts_with prefix kv.1) m Hwf) as HL.
  set (L := matching prefix m) in *. rewrite <- (take_drop c L) in HL.
  apply om_wf_app in HL as [Hd Hne].
  apply om_ext; [by apply om_filter_wf, om_remove_all_wf|done|]. intros k. apply option_eq. intros v.
  rewrite !om_get_elem by (done || by apply om_filter_wf, om_remove_all_wf).
  rewrite list_elem_of_In, filter_In, <- list_elem_of_In.
  rewrite <- om_get_elem by by apply om_remove_all_wf. rewrite om_get_remove_all by done.
  assert (HLm : (k, v) ∈ L <-> (k, v) ∈ m /\ starts_with prefix k = true)
    by (unfold L; by rewrite list_elem_of_In, filter_In, <- list_elem_of_In).
  rewrite <- (take_drop c L), elem_of_app in HLm. rewrite <- fmap_take.
  case_bool_decide as Hk; simpl.
  - split; [by intros [? _]|]. intros Hin. apply list_elem_of_fmap in Hk as (a & -> & Ha).
    by destruct (Hne a _ Ha Hin).
  - rewrite om_get_elem, <- HLm by done. split; [|by right]. intros [Ht|?]; [|done].
    destruct Hk. by apply (list_elem_of_fmap_2 fst) in Ht.
Qed.

(** What a run of the deletion loop may leave behind. *)
Definition deletion_outcome (prefix : bytes) (before : MemoryKVStore) (total : nat)
    (r : KVResult nat) (after : MemoryKVStore) : Prop :=
  match r with
  | Ok n =>
      n = (total + length (matching prefix (data before)))%nat /\
      after = with_data before (om_remove_all (matching prefix (data before)).*1 (data before))
  | Err _ => exists c, after = with_data before
      (om_remove_all (take c (matching prefix (data before)).*1) (data before))
  end.

Lemma deletion_outcome_round prefix chunk s total r after :
  om_wf (data s) ->
  let keys := take chunk (matching prefix (data s)).*1 in
  deletion_outcome prefix (with_data s (om_remove_all keys (data s))) (total + length keys) r after ->
  deletion_outcome prefix s total r after.
Proof.
  intros Hwf keys. pose proof (matching_remove_chunk prefix chunk (data s) Hwf) as Hm. fold keys in Hm.
  unfold deletion_outcome. cbn [data with_data history]. rewrite Hm. destruct r as [n|e].
  - intros [-> ->]. split; [unfold keys; rewrite length_take, length_fmap, length_drop; lia|].
    unfold keys. rewrite <- om_remove_all_app, fmap_drop, take_drop. done.
  - intros [c ->]. exists (chunk + c)%nat. unfold keys. rewrite <- om_remove_all_app, fmap_drop.
    unfold with_data. simpl. do 2 f_equal. apply take_take_drop.
Qed.

Lemma read_err_view {A} t (body : ReadTxn -> KVResult A) s e s' :
  Redb.read t body s = (Err e, s') -> view s' = view s.
Proof.
  unfold Redb.read, Redb.on_db, kv_bind.
  destruct (begin_read (db s)) as [[rtx|e'] d1] eqn:Eb; intros [= ? <-];
    by apply begin_read_db in Eb as [Eb _].
Qed.

Lemma chunk_keys_spec prefix chunk s r s' :
  (0 < chunk)%nat -> Redb.chunk_keys prefix chunk s = (r, s') ->
  view s' = view s /\ forall keys, r = Ok keys -> keys = take chunk (matching prefix (data (view s))).*1.
Proof.
  intros Hc E. destruct r as [keys|e]; [|by apply read_err_view in E].
  apply (entries_refines KV_TABLE prefix None _ []
    (fun rows => take chunk (fst <$> under prefix rows))) in E.
  - injection E as <- ->. split; [done|]. intros keys' [= <-]. simpl.
    by rewrite prefix_walk by apply contents_sorted.
  - intros rows. by rewrite chunk_loop.
Qed.

Lemma delete_rounds_outcome fuel prefix chunk total s :
  (0 < chunk)%nat -> (length (matching prefix (data (view s))) < fuel)%nat ->
  exists r s', Redb.delete_rounds fuel prefix chunk total s = Some (r, s') /\
    deletion_outcome prefix (view s) total r (view s').
Proof.
  intros Hc. revert total s. induction fuel as [|fuel IH]; intros total s Hf; [lia|]. simpl.
  destruct (Redb.chunk_keys prefix chunk s) as [r s1] eqn:E1.
  apply chunk_keys_spec in E1 as [Hv1 Hkeys]; [|done].
  assert (Hsame : forall e, deletion_outcome prefix (view s) total (Err e) (view s1)).
  { intros e. exists O. rewrite Hv1. by destruct (view s). }
  destruct r as [keys|e]; [|by eauto].
  pose proof (contents_sorted (db s)) as [Hwf _]. change (contents (db s)) with (view s) in Hwf.
  specialize (Hkeys keys eq_refl). destruct keys as [|k keys].
  { exists (Ok total), s1. split; [done|]. rewrite Hv1. symmetry in Hkeys.
    destruct (matching prefix (data (view s))) eqn:EL; [|by destruct chunk; [lia|]].
    unfold deletion_outcome. rewrite EL. simpl. split; [lia|]. by destruct (view s). }
  rewrite Hkeys. destruct (Redb.batch_delete _ s1) as [[[]|e] s2] eqn:E2.
  - apply (transacts_refines _ _ (batch_delete_transacts _)) in E2. injection E2 as E2. rewrite Hv1 in E2.
    destruct (IH (total + length (take chunk (matching prefix (data (view s))).*1))%nat s2)
      as (r & s3 & E3 & Ho).
    { rewrite <- E2. simpl. rewrite matching_remove_chunk by done.
      assert (0 < length (k :: keys))%nat by (simpl; lia).
      rewrite Hkeys, length_take, length_fmap in H. rewrite length_drop. lia. }
    exists r, s3. split; [done|]. rewrite <- E2 in Ho. by eapply deletion_outcome_round.
  - apply (transacts_refines _ _ (batch_delete_transacts _)) in E2. exists (Err e), s2. split; [done|]. rewrite Hv1 in E2.
    destruct E2 as [->| ->]; [rewrite Hv1 in Hsame; apply Hsame|]. by exists chunk.
Qed.

(** C24: the redb store's chunked prefix deletion ends after at most one round per
    matching key and one more, for every chunk size. When it succeeds, exactly
    the rows under the prefix are gone and the count returned is theirs; when it
    fails, some leading part of those rows is gone and nothing else changed. *)
Theorem redb_delete_prefix_terminates prefix chunk fuel s :
  (length (matching prefix (data (view s))) < fuel)%nat ->
  exists r s', Redb.delete_prefix_chunked fuel prefix chunk s = Some (r, s') /\
  match r with
  | Ok n =>
      n = length (matching prefix (data (view s))) /\
      view s' = with_data (view s)
        (List.filter (fun kv => negb (starts_with prefix kv.1)) (data (view s)))
  | Err _ => exists c, view s' = with_data (view s)
      (om_remove_all (take c (matching prefix (data (view s))).*1) (data (view s)))
  end.
Proof.
  intros Hf. destruct (delete_rounds_outcome fuel prefix (Nat.max chunk 1) O s) as (r & s' & E & Ho);
    [lia|done|].
  exists r, s'. split; [done|]. destruct r as [n|e]; [|done]. destruct Ho as [-> ->]. split; [done|].
  by rewrite remove_prefix_keys by apply contents_sorted.
Qed.

(** A stream read to its end yields the rows the in-memory stream yields, or
    a leading part of them followed by one error. *)
Theorem redb_scan_stream_prefix prefix s items s' :
  Redb.scan_stream prefix s = (Ok items, s') ->
  view s' = view s /\
  exists rows, Memory.scan_stream prefix (view s) = (Ok rows, view s) /\
    (items = rows \/ exists n e, items = take n rows ++ [Err e]).
Proof.
  unfold Redb.scan_stream.
  destruct (Redb.read KV_TABLE (read_range KV_TABLE prefix None) s) as [[its|e] s1] eqn:E; intros [= <- <-].
  2: { apply read_err_view in E as ->. split; [done|]. eexists. split; [done|]. right. by exists O, e. }
  revert E. unfold Redb.read, Redb.on_db, kv_bind.
  destruct (begin_read (db s)) as [[rtx|e] d1] eqn:Eb; [|done].
  pose proof (begin_read_snapshot _ _ _ Eb) as Hs. apply begin_read_db in Eb as [Ec _].
  destruct (read_open_table KV_TABLE rtx) as [[]|]; [|done].
  destruct (read_range KV_TABLE prefix None rtx) as [its'|e] eqn:Er; [|done]. intros [= -> <-].
  apply read_range_ok in Er. rewrite Hs in Er. simpl in Er. split; [done|]. eexists. split; [done|].
  unfold view. clear -Er. revert its Er.
  induction (om_range_from prefix (data (contents (db s)))) as [|[k v] rows IH];
    intros [|[[k' v']|e] its]; simpl; try done; auto.
  - intros _. right. by exists O, e.
  - intros [[= -> ->] Hit]. destruct (starts_with prefix k); simpl; [|by left].
    destruct (IH its Hit) as [->|(n & e & ->)]; [by left|right]. by exists (S n), e.
  - intros _. right. by exists O, e.
Qed.

(** ** Durability *)

(** The calls that commit a write transaction at the level [next_durability] gives. *)
Definition commits {A} (c : kv_call A) : bool :=
  match c with
  | call_put _ _ | call_put_if_absent _ _ | call_delete _ | call_batch_put _ | call_batch_delete _
  | call_add_counters _ | call_put_version _ _ _ _ _ => true
  | call_batch_put_version versions => negb (bool_decide (versions = []))
  | call_batch_apply puts deletes versions =>
      negb (bool_decide (puts = []) && bool_decide (deletes = []) && bool_decide (versions = []))
  | _ => false
  end.

Lemma commits_transacts {A} (c : kv_call A) : commits c = true -> transacts (redb_run c) (mem_run c).
Proof.
  destruct c; simpl; try done; intros Hc.
  - apply put_transacts.
  - apply put_if_absent_transacts.
  - apply delete_transacts.
  - apply batch_put_transacts.
  - apply batch_delete_transacts.
  - transaction. done.
  - transaction. intros s. by rewrite kv_bind_ret.
  - apply batch_put_version_transacts. by intros ->.
  - apply batch_apply_transacts. destruct puts, deletes, versions; naive_solver.
Qed.

(** One attempt to commit: the tables it is to commit, whether it is a checkpoint
    and whether it reported success. *)
Record Attempt := { tried : MemoryKVStore; is_checkpoint : bool; succeeded : bool }.

Definition attempt {A} (c : kv_call A) (s : Store) : Attempt := {|
  tried := (mem_run c (view s)).2;
  is_checkpoint := commit_count s mod CHECKPOINT_EVERY =? 0;
  succeeded := match (redb_run c s).1 with Ok _ => true | Err _ => false end
|}.

(** The attempts, newest first, that lead from a store just opened with relaxed
    durability to [s]; between them there may be steps that leave the tables and the
    counter alone, such as reads. *)
Inductive commit_path (s0 : Store) : list Attempt -> Store -> Prop :=
| path_open :
    relaxed_durability s0 = true -> commit_count s0 = 0 -> persisted (db s0) = view s0 -> commit_path s0 [] s0
| path_commit A (c : kv_call A) s l :
    commit_path s0 l s -> commits c = true -> commit_path s0 (attempt c s :: l) (redb_run c s).2
| path_idle s s' l :
    commit_path s0 l s -> view s' = view s -> persisted (db s') = persisted (db s) ->
    commit_count s' = commit_count s -> relaxed_durability s' = relaxed_durability s -> commit_path s0 l s'.

Section crash.
Context {crash : RedbCrashLaws Database WriteTxn ReadTxn}.

(** Whatever the result, the disk is as before or holds what was to be committed. *)
Lemma write_with_persisted {A} l (c : KVOp WriteTxn A) m s r s' :
  txn_body c m -> Redb.write_with l c s = (r, s') ->
  persisted (db s') = persisted (db s) \/ persisted (db s') = (m (view s)).2.
Proof.
  intros [Hc Hd]. unfold Redb.write_with, Redb.on_db, kv_bind at 1 2.
  destruct (begin_write (db s)) as [[w|e] d1] eqn:Eb; cbn [Redb.with_database].
  2: { intros [= <- <-]. apply begin_write_db in Eb as [_ Eb]. by left. }
  pose proof (begin_write_working _ _ _ Eb) as Hw. apply begin_write_db in Eb as [Ec Ep].
  unfold kv_bind. destruct (set_durability l w) as [[[]|e] w1] eqn:El; [|intros [= <- <-]; by left].
  apply set_durability_ok in El as [Hw1 Hl].
  destruct (c w1) as [[a|e] w2] eqn:E2; [|intros [= <- <-]; by left].
  pose proof (Hc _ _ _ E2) as Hm. rewrite Hw1, Hw in Hm. unfold view. rewrite Hm. cbn [snd].
  simpl. destruct (commit w2 d1) as [[[]|e] d2] eqn:Ecm; intros [= <- <-]; simpl.
  - apply commit_ok in Ecm as [_ ->]. destruct (txn_durability w2); [by right|by left].
  - apply commit_err_persisted in Ecm as [->| ->]; [by left|by right].
Qed.

(** What an attempt does to the store. *)
Lemma attempt_effect {A} (c : kv_call A) s :
  commits c = true -> relaxed_durability s = true ->
  let s' := (redb_run c s).2 in
  relaxed_durability s' = true /\ commit_count s' = u64_add (commit_count s) 1 /\
  (succeeded (attempt c s) = true -> view s' = tried (attempt c s)) /\
  (persisted (db s') = tried (attempt c s) \/
   (persisted (db s') = persisted (db s) /\
    (is_checkpoint (attempt c s) = true -> succeeded (attempt c s) = false))).
Proof.
  intros (body & m & Hb & Hm & Hrun)%commits_transacts Hr. unfold attempt. cbn [tried is_checkpoint succeeded].
  rewrite Hrun, <- Hm. unfold Redb.write, Redb.next_durability. rewrite Hr. cbn [negb].
  destruct (Redb.write_with _ body _) as [r s'] eqn:Hw. cbn [fst snd].
  pose proof (write_with_persisted _ _ m _ _ _ Hb Hw) as Hp.
  apply (write_with_outcome _ _ m) in Hw as (Ho & -> & ->); [|done].
  unfold view in *. cbn [db relaxed_durability commit_count] in *. split_and!; [done|done| |].
  - destruct r as [a|e]; [|done]. intros _. unfold write_outcome in Ho. by destruct Ho as [-> _].
  - destruct Hp as [Hp| ->]; [|by left]. destruct r as [a|e]; [|by right]. destruct Ho as [Hok Hpe].
    destruct (commit_count s mod CHECKPOINT_EVERY =? 0); [left; by rewrite Hpe, Hok|right; split; done].
Qed.

Definition failed_checkpoints (l : list Attempt) : nat :=
  length (List.filter (fun a => is_checkpoint a && negb (succeeded a)) l).

(** Where the state on disk comes from: the [j]-th attempt from the newest, or the
    state at opening if there are only [j]. *)
Definition on_disk (s0 : Store) (l : list Attempt) (j : nat) (m : MemoryKVStore) : Prop :=
  match l !! j with Some a => m = tried a | None => j = length l /\ m = view s0 end.

Lemma checkpoint_number n : as_u64 (Z.of_nat n) mod CHECKPOINT_EVERY = Z.of_nat n mod 64.
Proof.
  unfold as_u64, two64, CHECKPOINT_EVERY. change (2 ^ 64) with (64 * 2 ^ 58). rewrite Z.rem_mul_r by lia.
  rewrite Z.mul_comm, Z.mod_add by lia. by apply Z.mod_mod.
Qed.

Lemma commit_path_invariant s0 l s :
  commit_path s0 l s ->
  relaxed_durability s = true /\ commit_count s = as_u64 (Z.of_nat (length l)) /\
  exists j, on_disk s0 l j (persisted (db s)) /\ (forall a, a ∈ take j l -> is_checkpoint a = true -> succeeded a = false) /\
    Z.of_nat j <= 64 * Z.of_nat (failed_checkpoints (take j l)) +
      (if (length l =? 0)%nat then 0 else (Z.of_nat (length l) - 1) mod 64).
Proof.
  induction 1 as [Hr Hc Hp|A c s l _ IH Hcm|s s' l _ IH Hv Hp Hc Hr].
  - split_and!; [done|done|]. exists O. split_and!; [done|set_solver|done].
  - destruct IH as (Hr & Hc & j & Hd & Hj & Hle).
    destruct (attempt_effect c s Hcm Hr) as (Hr' & Hc' & _ & Hp'). split; [done|]. split.
    { rewrite Hc', Hc. unfold u64_add, as_u64. rewrite Zplus_mod_idemp_l. cbn [length]. f_equal. lia. }
    cbn [length Nat.eqb]. replace (Z.of_nat (S (length l)) - 1) with (Z.of_nat (length l)) by lia.
    pose proof (Z.mod_pos_bound (Z.of_nat (length l)) 64 ltac:(lia)) as Hb.
    destruct Hp' as [->|[-> Hck]]; [exists O; split_and!; [done|set_solver|cbn; lia]|].
    exists (S j). split_and!.
    + unfold on_disk in *. cbn [lookup list_lookup length]. destruct (l !! j); [done|]. destruct Hd as [-> ->]. done.
    + cbn [take]. intros a [->|Ha]%elem_of_cons; [done|by apply Hj].
    + cbn [take failed_checkpoints List.filter]. assert (Hk : is_checkpoint (attempt c s) = (Z.of_nat (length l) mod 64 =? 0)).
      { unfold attempt. cbn [is_checkpoint]. by rewrite Hc, checkpoint_number. }
      unfold failed_checkpoints in *. cbn [List.filter]. rewrite Hk in *.
      destruct (Z.eqb_spec (Z.of_nat (length l) mod 64) 0) as [E|E].
      * rewrite (Hck eq_refl). cbn [andb negb length]. pose proof (Z.mod_pos_bound (Z.of_nat (length l) - 1) 64 ltac:(lia)).
        destruct (length l =? 0)%nat; lia.
      * cbn [andb]. destruct (Nat.eqb_spec (length l) 0) as [E0|E0]; [by rewrite E0 in E|].
        pose proof (Z.div_mod (Z.of_nat (length l)) 64). pose proof (Z.div_mod (Z.of_nat (length l) - 1) 64).
        pose proof (Z.mod_pos_bound (Z.of_nat (length l) - 1) 64 ltac:(lia)). lia.
  - rewrite Hr, Hc, Hp. done.
Qed.

(** C25: under relaxed durability, after any sequence of commits that succeed or
    fail, what is on disk is the state at opening or the tables one of the attempts
    was to commit; no later attempt was a successful checkpoint, and the number of
    later attempts is below 64 times one more than the number of failed checkpoints
    among them. So at most the last 63 commits are lost when no checkpoint failed,
    and up to 64 more for each one that did, also when the 64-bit counter has wrapped
    around. *)
Theorem relaxed_durability_loss s0 l s :
  commit_path s0 l s ->
  exists j, on_disk s0 l j (persisted (db s)) /\
    (forall a, a ∈ take j l -> is_checkpoint a = true -> succeeded a = false) /\
    (j < 64 * S (failed_checkpoints (take j l)))%nat.
Proof.
  intros (_ & _ & j & Hd & Hj & Hle)%commit_path_invariant. exists j. split_and!; [done|done|].
  pose proof (Z.mod_pos_bound (Z.of_nat (length l) - 1) 64). destruct (length l =? 0)%nat; lia.
Qed.
End crash.

End refinement.

(** ** A reference database

    Two sorted tables with a plan of injected failures: an instance of
    [RedbOps] and [RedbLaws] on which the store can be run. *)

Module RefDb.

Record Tables := {
  tabs : MemoryKVStore;
  tabs_wf : om_wf (data tabs) /\ om_wf (history tabs)
}.
Record Database := {
  committed : Tables;
  durable : MemoryKVStore;
  (** whether the next begin or commit fails *)
  faults : list bool
}.
Record WriteTxn := { pending : Tables; level : Durability }.

Definition insert (t : TableDefinition) (k v : bytes) (x : Tables) : Tables.
Proof.
  refine {| tabs := with_table t (tabs x) (om_insert k v (table t (tabs x))) |}.
  destruct x as [[d h] [Hd Hh]], t; simpl; auto using om_insert_wf.
Defined.
Definition remove (t : TableDefinition) (k : bytes) (x : Tables) : Tables.
Proof.
  refine {| tabs := with_table t (tabs x) (om_remove k (table t (tabs x))) |}.
  destruct x as [[d h] [Hd Hh]], t; simpl; auto using om_remove_wf.
Defined.
Definition empty : Tables.
Proof. refine {| tabs := Memory.new |}. split; constructor. Defined.

(** Take the next planned outcome. *)
Definition planned {A} (a : A) : KVOp Database A := fun d =>
  match faults d with
  | [] => (Ok a, d)
  | f :: fs =>
      (if f then Err (RedbTransaction "injected") else Ok a,
       {| committed := committed d; durable := durable d; faults := fs |})
  end.

Definition publish (w : WriteTxn) : KVOp Database unit := fun d =>
  match planned tt d with
  | (Ok _, d') =>
      (Ok tt, {| committed := pending w;
                 durable := match level w with Immediate => tabs (pending w) | NoDurability => durable d' end;
                 faults := faults d' |})
  | (Err e, d') => (Err e, d')
  end.

#[global] Instance ref_ops : RedbOps Database WriteTxn MemoryKVStore := {|
  begin_read := fun d => planned (tabs (committed d)) d;
  begin_write := fun d => planned {| pending := committed d; level := Immediate |} d;
  commit := publish;
  set_durability := fun l w => (Ok tt, {| pending := pending w; level := l |});
  open_table := fun _ w => (Ok tt, w);
  table_get := fun t k w => (Ok (om_get k (table t (tabs (pending w)))), w);
  table_insert := fun t k v w => (Ok tt, {| pending := insert t k v (pending w); level := level w |});
  table_remove := fun t k w => (Ok tt, {| pending := remove t k (pending w); level := level w |});
  read_open_table := fun _ _ => Ok tt;
  read_get := fun t k r => Ok (om_get k (table t r));
  read_range := fun t start stop r => Ok (Ok <$> range_rows start stop (table t r))
|}.

Lemma planned_db {A} (a : A) d r d' :
  planned a d = (r, d') ->
  committed d' = committed d /\ durable d' = durable d /\ forall b, r = Ok b -> b = a.
Proof.
  unfold planned. destruct (faults d) as [|[|] fs]; intros [= <- <-]; repeat split; congruence.
Qed.

Lemma iterates_all rows : iterates rows (Ok <$> rows).
Proof. induction rows; simpl; auto. Qed.

#[global] Program Instance ref_laws : RedbLaws Database WriteTxn MemoryKVStore := {|
  contents := fun d => tabs (committed d);
  persisted := durable;
  working := fun w => tabs (pending w);
  txn_durability := level;
  snapshot := fun r => r
|}.
Next Obligation. intros d. apply tabs_wf. Qed.
Next Obligation. intros d r d' (-> & -> & _)%planned_db. done. Qed.
Next Obligation. intros d t d' (_ & _ & Ht)%planned_db. by apply Ht. Qed.
Next Obligation. intros d r d' (-> & -> & _)%planned_db. done. Qed.
Next Obligation. intros d t d' (_ & _ & Ht)%planned_db. by rewrite (Ht _ eq_refl). Qed.
Next Obligation. intros l w w' [= <-]. done. Qed.
Next Obligation. intros t w a w' [= <- <-]. done. Qed.
Next Obligation. intros t k w a w' [= <- <-]. done. Qed.
Next Obligation. intros t k v w a w' [= <- <-]. done. Qed.
Next Obligation. intros t k w a w' [= <- <-]. done. Qed.
Next Obligation. intros t w r w' [= _ <-]. done. Qed.
Next Obligation. intros t k w r w' [= _ <-]. done. Qed.
Next Obligation. intros t k v w r w' [= _ <-]. done. Qed.
Next Obligation. intros t k w r w' [= _ <-]. done. Qed.
Next Obligation. intros t k r v [= <-]. done. Qed.
Next Obligation. intros t start stop r items [= <-]. apply iterates_all. Qed.
Next Obligation.
  intros w d d'. unfold commit; simpl. unfold publish.
  destruct (planned tt d) as [[[]|e] d1] eqn:E; intros [= <-]. apply planned_db in E as (_ & -> & _). done.
Qed.
Next Obligation.
  intros w d e d'. unfold commit; simpl. unfold publish.
  destruct (planned tt d) as [[[]|e'] d1] eqn:E; intros [= _ <-]. apply planned_db in E as (-> & _ & _). by left.
Qed.

#[global] Instance ref_crash : RedbCrashLaws Database WriteTxn MemoryKVStore.
Proof.
  split. intros w d e d'. unfold commit; simpl. unfold publish.
  destruct (planned tt d) as [[[]|e'] d1] eqn:E; intros [= _ <-]. apply planned_db in E as (_ & -> & _). by left.
Qed.

(** A store of the reference database with a failure plan. *)
Definition open_with (relaxed : bool) (plan : list bool) : RedbKVStore Database :=
  mkRedb {| committed := empty; durable := Memory.new; faults := plan |} relaxed 0.

End RefDb.

(** ** Runs on the reference database *)

Lemma redb_refines_memory_witness :
  let s := RefDb.open_with false [] in
  let c := call_batch_apply [(bs "a", bs "1"); (bs "b", bs "2")] [bs "a"]
             [(bs "b", 5, VALID_OPEN, 5, bs "2")] in
  (redb_run c s).1 = Ok tt /\
  mem_run c (view s) = (Ok tt, view (redb_run c s).2).
Proof.
  split; [reflexivity|].
  exact (redb_refines_memory
    (call_batch_apply [(bs "a", bs "1"); (bs "b", bs "2")] [bs "a"] [(bs "b", 5, VALID_OPEN, 5, bs "2")])
    (RefDb.open_with false []) (Ok tt) _ eq_refl).
Defined.

(** A store with three keys, on a database whose fourth transaction step fails. *)
Definition chunk_example (plan : list bool) : RedbKVStore RefDb.Database :=
  (Redb.batch_put [(bs "sp:1", bs "x"); (bs "sp:2", bs "y"); (bs "t:1", bs "z")]
    (RefDb.open_with false (false :: false :: plan))).2.

Lemma redb_delete_prefix_terminates_witness :
  (exists s', Redb.delete_prefix_chunked 3 (bs "sp:") 1 (chunk_example []) = Some (Ok 2%nat, s')) /\
  exists r s', Redb.delete_prefix_chunked 3 (bs "sp:") 1 (chunk_example [false; true]) = Some (r, s') /\
  match r with
  | Ok n =>
      n = length (matching (bs "sp:") (data (view (chunk_example [false; true])))) /\
      view s' = with_data (view (chunk_example [false; true]))
        (List.filter (fun kv => negb (starts_with (bs "sp:") kv.1))
          (data (view (chunk_example [false; true]))))
  | Err _ => exists c, view s' = with_data (view (chunk_example [false; true]))
      (om_remove_all (take c (matching (bs "sp:") (data (view (chunk_example [false; true])))).*1)
        (data (view (chunk_example [false; true]))))
  end.
Proof.
  split; [eexists; reflexivity|].
  apply (redb_delete_prefix_terminates (bs "sp:") 1 3 (chunk_example [false; true])).
  vm_compute. lia.
Defined.

Lemma redb_scan_stream_prefix_witness :
  let s := chunk_example [] in
  (Redb.scan_stream (bs "sp:") s).1 = Ok [Ok (bs "sp:1", bs "x"); Ok (bs "sp:2", bs "y")] /\
  exists rows, Memory.scan_stream (bs "sp:") (view s) = (Ok rows, view s) /\
    ([Ok (bs "sp:1", bs "x"); Ok (bs "sp:2", bs "y")] = rows \/
     exists n e, [Ok (bs "sp:1", bs "x"); Ok (bs "sp:2", bs "y")] = take n rows ++ [Err e]).
Proof.
  split; [reflexivity|].
  exact (proj2 (redb_scan_stream_prefix (bs "sp:") (chunk_example [])
    [Ok (bs "sp:1", bs "x"); Ok (bs "sp:2", bs "y")] (chunk_example []) eq_refl)).
Defined.

(** Three commits under relaxed durability: the first, a checkpoint, fails as its
    transaction begins; the other two succeed and are not on disk. *)
Definition relaxed_calls : list (kv_call unit) :=
  [call_put (bs "c") (bs "3"); call_put (bs "b") (bs "2"); call_put (bs "a") (bs "1")].
Fixpoint relaxed_run (cs : list (kv_call unit)) : list Attempt * RedbKVStore RefDb.Database :=
  match cs with
  | [] => ([], RefDb.open_with true [true])
  | c :: cs => let '(l, s) := relaxed_run cs in (attempt c s :: l, (redb_run c s).2)
  end.

Lemma relaxed_run_path cs :
  Forall (fun c => commits c = true) cs ->
  commit_path (RefDb.open_with true [true]) (relaxed_run cs).1 (relaxed_run cs).2.
Proof.
  induction 1 as [|c cs Hc _ IH]; cbn [relaxed_run]; [by apply path_open|].
  destruct (relaxed_run cs) as [l s]. by apply path_commit.
Qed.

Lemma relaxed_durability_loss_witness :
  let '(l, s) := relaxed_run relaxed_calls in
  succeeded <$> l = [true; true; false] /\ view s <> persisted (db s) /\
  exists j, on_disk (RefDb.open_with true [true]) l j (persisted (db s)) /\
    (forall a, a ∈ take j l -> is_checkpoint a = true -> succeeded a = false) /\
    (j < 64 * S (failed_checkpoints (take j l)))%nat.
Proof.
  pose proof (relaxed_durability_loss (RefDb.open_with true [true]) (relaxed_run relaxed_calls).1
    (relaxed_run relaxed_calls).2 (relaxed_run_path relaxed_calls ltac:(repeat constructor))) as H.
  assert (Hs : succeeded <$> (relaxed_run relaxed_calls).1 = [true; true; false]) by (vm_compute; reflexivity).
  assert (Hv : view (relaxed_run relaxed_calls).2 <> persisted (db (relaxed_run relaxed_calls).2)) by (vm_compute; congruence).
  destruct (relaxed_run relaxed_calls) as [l s]. split; [exact Hs|]. split; [exact Hv|]. exact H.
Defined.
