(* ===== verification/Temporal.v ===== *)
(** * Transaction time and the versions DML appends

    [byoridb-executor/src/executor/temporal.rs]: the monotonic transaction clock
    [tx_now] over the shared cell [LAST_TX], as a step relation over concurrent
    callers and as the function an uncontended caller computes; the version and
    tombstone rows built from it; and what a point-in-time read returns after
    any sequence of DML commits. *)

From Stdlib Require Import ZArith Lia Strings.Byte Strings.String.
From stdpp Require Import base tactics list sorting relations.
From S2P Require Import Prelude OrdMap History KVStore KVStoreFacts KVStoreBatch.

(** ** The clock *)

(** [now.max(last + 1)]. *)
Definition tx_next (now last : Z) : Z := Z.max now (as_i64 (last + 1)).

(** A caller of [tx_now]: it has read the wall clock, it is in the
    compare-exchange loop with the value of the cell it last saw, or it returned. *)
Inductive tx_caller :=
| Reading (now : Z)
| Looping (now last : Z)
| Returned (tx : Z).

Record tx_system := {
  LAST_TX : Z;
  callers : list tx_caller;
  (** the values installed in the cell, newest first *)
  issued : list Z
}.

Definition tx_init : tx_system := {| LAST_TX := 0; callers := []; issued := [] |}.

Definition set_caller (s : tx_system) (i : nat) (c : tx_caller) : tx_system :=
  {| LAST_TX := LAST_TX s; callers := <[i:=c]> (callers s); issued := issued s |}.

(** One atomic action of one caller. A weak compare-exchange may fail for any
    value of the cell. *)
Inductive tx_step (wall_max : Z) : tx_system -> tx_system -> Prop :=
| tx_enter s now :
    0 <= now <= wall_max ->
    tx_step wall_max s
      {| LAST_TX := LAST_TX s; callers := callers s ++ [Reading now]; issued := issued s |}
| tx_load s i now :
    callers s !! i = Some (Reading now) ->
    tx_step wall_max s (set_caller s i (Looping now (LAST_TX s)))
| tx_exchange_ok s i now last :
    callers s !! i = Some (Looping now last) -> LAST_TX s = last ->
    tx_step wall_max s
      {| LAST_TX := tx_next now last;
         callers := <[i:=Returned (tx_next now last)]> (callers s);
         issued := tx_next now last :: issued s |}
| tx_exchange_fail s i now last :
    callers s !! i = Some (Looping now last) ->
    tx_step wall_max s (set_caller s i (Looping now (LAST_TX s))).

(** What an uncontended caller does: [wall n] is the value of the [n]-th clock
    read, 0 for a clock before the epoch. *)
Record tx_clock := { last_tx : Z; reads : nat }.

Section clock.
Context (wall : nat -> Z).

Definition tx_now (c : tx_clock) : Z * tx_clock :=
  let next := tx_next (wall (reads c)) (last_tx c) in
  (next, {| last_tx := next; reads := S (reads c) |}).

Fixpoint build_versions (entities : list kv_pair) (c : tx_clock) : list VersionRow * tx_clock :=
  match entities with
  | [] => ([], c)
  | (k, v) :: rest =>
      let '(tx, c1) := tx_now c in
      let '(rows, c2) := build_versions rest c1 in
      ((k, tx, VALID_OPEN, tx, v) :: rows, c2)
  end.

Fixpoint build_tombstones (entity_keys : list bytes) (c : tx_clock) : list VersionRow * tx_clock :=
  match entity_keys with
  | [] => ([], c)
  | k :: rest =>
      let '(tx, c1) := tx_now c in
      let '(rows, c2) := build_tombstones rest c1 in
      ((k, tx, VALID_OPEN, tx, []) :: rows, c2)
  end.

(** ** DML commits *)

(** One commit: changes of the current view, tombstones, then versions. *)
Record dml := { puts : list kv_pair; deletes : list bytes; erased : list bytes; written : list kv_pair }.

Definition dml_rows (d : dml) (c : tx_clock) : list VersionRow * tx_clock :=
  let '(dead, c1) := build_tombstones (erased d) c in
  let '(live, c2) := build_versions (written d) c1 in
  (dead ++ live, c2).

Record temporal_db := { store : MemoryKVStore; clk : tx_clock }.

Definition dml_commit (d : dml) (st : temporal_db) : list VersionRow * temporal_db :=
  let '(rows, c) := dml_rows d (clk st) in
  (rows, {| store := (Memory.batch_apply (puts d) (deletes d) rows (store st)).2; clk := c |}).

(** The rows appended by a sequence of commits, in order, and the final state. *)
Fixpoint dml_run (ds : list dml) (st : temporal_db) : list VersionRow * temporal_db :=
  match ds with
  | [] => ([], st)
  | d :: ds' =>
      let '(rows, st1) := dml_commit d st in
      let '(rest, st2) := dml_run ds' st1 in
      (rows ++ rest, st2)
  end.
End clock.

(** The state of an entity at time [t] according to a log of appended rows: the
    payload of the last row for it that is not later than [t]. *)
Definition state_at (log : list VersionRow) (e : bytes) (t : Z) : option bytes :=
  snd <$> last (List.filter (fun r => bool_decide (row_entity r = e) && (row_tx r <=? t)) log).

(** ** The clock never repeats *)

Definition returned (c : tx_caller) : option Z :=
  match c with Returned t => Some t | _ => None end.

Definition tx_inv (wall_max : Z) (s : tx_system) : Prop :=
  Forall (fun c => match c with Reading now | Looping now _ => 0 <= now <= wall_max | Returned _ => True end)
    (callers s) /\
  filter_map returned (callers s) ≡ₚ issued s /\
  (wall_max + Z.of_nat (length (issued s)) < two63 ->
   0 <= LAST_TX s <= wall_max + Z.of_nat (length (issued s)) /\
   StronglySorted Z.gt (issued s) /\ Forall (fun t => t <= LAST_TX s) (issued s)).

Lemma filter_map_insert {A B} (f : A -> option B) l i x y :
  l !! i = Some x -> f x = None ->
  filter_map f (<[i:=y]> l) ≡ₚ match f y with Some b => [b] | None => [] end ++ filter_map f l.
Proof.
  intros Hi Hx. pose proof (lookup_lt_Some _ _ _ Hi) as Hlt.
  rewrite insert_take_drop by done. rewrite <- (take_drop_middle l i x Hi) at 3.
  rewrite !filter_map_app. simpl. rewrite Hx. destruct (f y); simpl; [|done].
  by rewrite Permutation_middle.
Qed.

Lemma tx_next_bounds now last wall_max n :
  0 <= now <= wall_max -> 0 <= last <= wall_max + Z.of_nat n ->
  wall_max + Z.of_nat (S n) < two63 ->
  last < tx_next now last /\ 0 <= tx_next now last <= wall_max + Z.of_nat (S n).
Proof.
  intros Hn Hl Hb. unfold tx_next. rewrite as_i64_id by (unfold_int; lia). lia.
Qed.

Lemma tx_step_inv wall_max s s' :
  tx_step wall_max s s' -> tx_inv wall_max s -> tx_inv wall_max s'.
Proof.
  intros Hstep (Hw & Hp & Hb). destruct Hstep as [s now Hn|s i now Hi|s i now last Hi Hl|s i now last Hi];
    unfold tx_inv, set_caller; simpl.
  - split; [apply Forall_app; auto|]. split; [|done]. rewrite filter_map_app. simpl. by rewrite app_nil_r.
  - rewrite Forall_lookup in Hw. pose proof (Hw _ _ Hi) as Hnow.
    split; [apply Forall_insert; [by apply Forall_lookup|done]|]. split; [|done].
    rewrite (filter_map_insert _ _ _ _ _ Hi) by done. done.
  - rewrite Forall_lookup in Hw. pose proof (Hw _ _ Hi) as Hnow.
    split; [apply Forall_insert; [by apply Forall_lookup|done]|]. split.
    { rewrite (filter_map_insert _ _ _ _ _ Hi) by done. simpl. by rewrite Hp. }
    intros Hlt. destruct Hb as (Hlast & Hs & Hle); [lia|]. subst last.
    destruct (tx_next_bounds now (LAST_TX s) wall_max (length (issued s))) as [Hgt Hbd]; [done..|].
    split; [done|]. split; constructor; [done| |lia|]; eapply Forall_impl; [exact Hle| |exact Hle|]; simpl; lia.
  - rewrite Forall_lookup in Hw. pose proof (Hw _ _ Hi) as Hnow.
    split; [apply Forall_insert; [by apply Forall_lookup|done]|]. split; [|done].
    rewrite (filter_map_insert _ _ _ _ _ Hi) by done. done.
Qed.

Lemma tx_reachable_inv wall_max s : 0 <= wall_max -> rtc (tx_step wall_max) tx_init s -> tx_inv wall_max s.
Proof.
  intros Hw Hr. assert (H0 : tx_inv wall_max tx_init).
  { repeat split; simpl; try constructor; lia. }
  induction Hr as [|s1 s2 s3 Hs _ IH]; [done|]. apply IH. by eapply tx_step_inv.
Qed.

(** C22: in every interleaving of any number of concurrent callers of [tx_now],
    spurious compare-exchange failures included, the transaction times handed
    out are strictly increasing in the order they are installed, and no two
    callers get the same one, as long as the wall clock and the number of calls
    stay within the 64-bit range. *)
Theorem tx_now_unique wall_max s :
  0 <= wall_max -> rtc (tx_step wall_max) tx_init s ->
  wall_max + Z.of_nat (length (issued s)) < two63 ->
  StronglySorted Z.gt (issued s) /\
  forall i j a b, i <> j -> callers s !! i = Some (Returned a) -> callers s !! j = Some (Returned b) -> a <> b.
Proof.
  intros Hw Hr Hb. apply tx_reachable_inv in Hr as (_ & Hp & Hs); [|done].
  destruct (Hs Hb) as (_ & Hsorted & _). split; [done|].
  assert (Hnd : NoDup (filter_map returned (callers s))).
  { rewrite Hp. clear -Hsorted. induction Hsorted as [|t l _ IH Ht]; constructor; [|done].
    intros Hin. rewrite Forall_forall in Ht. specialize (Ht t Hin). lia. }
  intros i j a b Hij Hi Hj ->. clear -Hnd Hij Hi Hj. revert i j Hij Hi Hj Hnd.
  assert (Hin : forall l k, l !! k = Some (Returned b) -> b ∈ filter_map returned l).
  { intros l k Hk. apply elem_of_filter_map. exists (Returned b). split; [by eapply list_elem_of_lookup_2|done]. }
  induction (callers s) as [|c l IH]; [done|]. intros [|i] [|j] Hij Hi Hj; simpl in *; [done| | |].
  - injection Hi as ->. simpl. intros [Hn _]%NoDup_cons. by apply Hn, (Hin _ j).
  - injection Hj as ->. simpl. intros [Hn _]%NoDup_cons. by apply Hn, (Hin _ i).
  - intros Hnd. apply (IH i j); [congruence|done|done|]. destruct (returned c); [|done].
    by apply NoDup_cons in Hnd as [_ ?].
Qed.

(** Two callers, the first of which loses the race for the cell. *)
Definition tx_race : tx_system :=
  {| LAST_TX := 8; callers := [Returned 8; Returned 7]; issued := [8; 7] |}.

Lemma tx_race_reachable : rtc (tx_step 7) tx_init tx_race.
Proof.
  eapply rtc_l; [apply (tx_enter 7 _ 5); lia|]. eapply rtc_l; [apply (tx_enter 7 _ 7); lia|].
  eapply rtc_l; [apply (tx_load 7 _ 0 5); reflexivity|]. eapply rtc_l; [apply (tx_load 7 _ 1 7); reflexivity|].
  eapply rtc_l; [apply (tx_exchange_ok 7 _ 1 7 0); reflexivity|].
  eapply rtc_l; [apply (tx_exchange_fail 7 _ 0 5 0); reflexivity|].
  eapply rtc_l; [apply (tx_exchange_ok 7 _ 0 5 7); reflexivity|]. apply rtc_refl.
Qed.

Lemma tx_now_unique_witness :
  StronglySorted Z.gt (issued tx_race) /\
  forall i j a b, i <> j -> callers tx_race !! i = Some (Returned a) ->
    callers tx_race !! j = Some (Returned b) -> a <> b.
Proof. apply (tx_now_unique 7 tx_race); [lia|exact tx_race_reachable|reflexivity]. Defined.

(** An uncontended call is a run of the concurrent system. *)
Lemma tx_now_run wall wall_max c :
  0 <= wall (reads c) <= wall_max ->
  rtc (tx_step wall_max) {| LAST_TX := last_tx c; callers := []; issued := [] |}
    {| LAST_TX := last_tx (tx_now wall c).2; callers := [Returned (tx_now wall c).1];
       issued := [(tx_now wall c).1] |}.
Proof.
  intros Hw. eapply rtc_l; [by apply (tx_enter _ _ (wall (reads c)))|].
  eapply rtc_l; [by apply (tx_load _ _ 0 (wall (reads c)))|].
  eapply rtc_l; [by apply (tx_exchange_ok _ _ 0 (wall (reads c)) (last_tx c))|]. apply rtc_refl.
Qed.

(** ** Rows appended by DML *)

Section rows.
Context (wall : nat -> Z) (wall_max : Z) (Hwall : forall n, 0 <= wall n <= wall_max).

Definition clock_ok (c : tx_clock) : Prop := 0 <= last_tx c <= wall_max + Z.of_nat (reads c).

Definition by_tx (a b : VersionRow) : Prop := row_tx a < row_tx b.

(** [rows] were stamped by the clock as it went from [c] to [c']. *)
Definition stamped (c : tx_clock) (rows : list VersionRow) (c' : tx_clock) : Prop :=
  reads c' = (reads c + length rows)%nat /\
  (clock_ok c -> wall_max + Z.of_nat (reads c') < two63 ->
   clock_ok c' /\ last_tx c <= last_tx c' /\ StronglySorted by_tx rows /\
   Forall (fun r => last_tx c < row_tx r <= last_tx c' /\
     r = (row_entity r, row_tx r, VALID_OPEN, row_tx r, r.2)) rows).

Lemma stamped_nil c : stamped c [] c.
Proof. split; [simpl; lia|]. repeat split; try constructor; unfold clock_ok in *; lia. Qed.

Lemma stamped_app c1 l1 c2 l2 c3 : stamped c1 l1 c2 -> stamped c2 l2 c3 -> stamped c1 (l1 ++ l2) c3.
Proof.
  intros [Hr1 H1] [Hr2 H2]. split; [rewrite length_app; lia|]. intros Hc Hb.
  destruct H1 as (Hc2 & Hle1 & Hs1 & Hf1); [done|lia|]. destruct (H2 Hc2 Hb) as (Hc3 & Hle2 & Hs2 & Hf2).
  split; [done|]. split; [lia|]. rewrite Forall_forall in Hf1, Hf2. split.
  - apply StronglySorted_app_2; [|done|done]. intros a b Ha Hb'. unfold by_tx.
    destruct (Hf1 a Ha) as [? _], (Hf2 b Hb') as [? _]. lia.
  - apply Forall_app. split; apply Forall_forall.
    + intros r Hr. destruct (Hf1 r Hr) as [? ?]. split; [lia|done].
    + intros r Hr. destruct (Hf2 r Hr) as [? ?]. split; [lia|done].
Qed.

Lemma stamped_one c k v :
  stamped c [(k, (tx_now wall c).1, VALID_OPEN, (tx_now wall c).1, v)] (tx_now wall c).2.
Proof.
  split; [simpl; lia|]. intros Hc Hb. unfold clock_ok in *. simpl in *.
  destruct (tx_next_bounds (wall (reads c)) (last_tx c) wall_max (reads c)) as [Hgt Hbd]; [auto..|].
  repeat split; try lia; repeat constructor; simpl; lia.
Qed.

Lemma build_versions_stamped es c :
  stamped c (build_versions wall es c).1 (build_versions wall es c).2 /\
  row_entity <$> (build_versions wall es c).1 = fst <$> es.
Proof.
  revert c. induction es as [|[k v] es IH]; intros c; simpl; [split; [apply stamped_nil|done]|].
  destruct (IH (tx_now wall c).2) as [IH1 IH2].
  destruct (build_versions wall es _) as [rows c2]. simpl in *.
  split; [|by f_equal]. eapply (stamped_app _ [_]); [apply stamped_one|done].
Qed.

Lemma build_tombstones_stamped ks c :
  stamped c (build_tombstones wall ks c).1 (build_tombstones wall ks c).2 /\
  row_entity <$> (build_tombstones wall ks c).1 = ks.
Proof.
  revert c. induction ks as [|k ks IH]; intros c; simpl; [split; [apply stamped_nil|done]|].
  destruct (IH (tx_now wall c).2) as [IH1 IH2].
  destruct (build_tombstones wall ks _) as [rows c2]. simpl in *.
  split; [|by f_equal]. eapply (stamped_app _ [_]); [apply stamped_one|done].
Qed.

Lemma dml_rows_stamped d c :
  stamped c (dml_rows wall d c).1 (dml_rows wall d c).2 /\
  row_entity <$> (dml_rows wall d c).1 = erased d ++ (fst <$> written d).
Proof.
  unfold dml_rows. destruct (build_tombstones_stamped (erased d) c) as [H1 H2].
  destruct (build_tombstones wall (erased d) c) as [dead c1]. simpl in *.
  destruct (build_versions_stamped (written d) c1) as [H3 H4].
  destruct (build_versions wall (written d) c1) as [live c2]. simpl in *.
  rewrite fmap_app, H2, H4. split; [by eapply stamped_app|done].
Qed.

(** ** The store and the log *)

Definition dml_ok (d : dml) : Prop := Forall zero_free (erased d ++ (fst <$> written d)).

(** A row of the log: an open version stamped by the clock up to [last]. *)
Definition logged (last : Z) (r : VersionRow) : Prop :=
  zero_free (row_entity r) /\ (0 < row_tx r <= last) /\
  r = (row_entity r, row_tx r, VALID_OPEN, row_tx r, r.2).

(** The history holds the rows of the log and no others. *)
Definition log_inv (log : list VersionRow) (st : temporal_db) : Prop :=
  mem_wf (store st) /\ clock_ok (clk st) /\ StronglySorted by_tx log /\
  Forall (logged (last_tx (clk st))) log /\
  forall kv, kv ∈ history (store st) <-> kv ∈ (version_entry <$> log).

Lemma open_row_ok r :
  zero_free (row_entity r) -> 0 <= row_tx r < two63 ->
  r = (row_entity r, row_tx r, VALID_OPEN, row_tx r, r.2) -> row_ok r.
Proof.
  intros He Ht Hr. rewrite Hr. unfold row_ok, VALID_OPEN. split; [done|]. unfold_int. lia.
Qed.

(** A row is determined by its history entry. *)
(** Appending rows whose entries are new and distinct adds exactly those entries. *)
Lemma append_rows rows h log :
  om_wf h -> Forall row_ok (log ++ rows) -> StronglySorted by_tx (log ++ rows) ->
  (forall kv, kv ∈ h <-> kv ∈ (version_entry <$> log)) ->
  forall kv, kv ∈ om_insert_all (version_entry <$> rows) h <-> kv ∈ (version_entry <$> (log ++ rows)).
Proof.
  revert h log. induction rows as [|r rows IH]; intros h log Hwf Hok Hs Hh; simpl.
  { by rewrite app_nil_r. }
  replace (log ++ r :: rows) with ((log ++ [r]) ++ rows) in * by by rewrite <- app_assoc.
  apply IH; [by apply om_insert_wf|done|done|]. intros kv.
  pose proof (StronglySorted_app_1_l _ _ _ Hs) as Hs'.
  rewrite !Forall_app, Forall_singleton in Hok. destruct Hok as [[Hlog Hr] _].
  rewrite Forall_forall in Hlog.
  assert (Hk : om_get (version_entry r).1 h = None).
  { apply eq_None_not_Some. intros [v Hv%om_get_elem]; [|done]. apply Hh in Hv.
    apply list_elem_of_fmap in Hv as (r' & E & Hin). pose proof (Hlog r' Hin) as Hr'.
    assert (Hlt : by_tx r' r) by (eapply StronglySorted_app_1_elem_of; [exact Hs'|done|left]).
    apply (f_equal (fun kv => parse_history_key_times kv.1)) in E. cbn [fst] in E.
    destruct r as [[[[e vf] vt] t] val], r' as [[[[e' vf'] vt'] t'] val'].
    destruct Hr as (? & ? & ? & ?), Hr' as (? & ? & ? & ?).
    cbn [version_entry fst] in E. rewrite !parse_history_key in E by done. injection E as -> ->.
    unfold by_tx in Hlt. simpl in Hlt. lia. }
  rewrite om_insert_fresh, fmap_app, elem_of_app, Hh by done.
  change (version_entry <$> [r]) with [version_entry r].
  rewrite list_elem_of_singleton. destruct (version_entry r). intuition.
Qed.

Lemma dml_commit_log log d st :
  dml_ok d -> log_inv log st ->
  wall_max + Z.of_nat (reads (clk (dml_commit wall d st).2)) < two63 ->
  log_inv (log ++ (dml_commit wall d st).1) (dml_commit wall d st).2.
Proof.
  intros Hd (Hwf & Hclk & Hs & Hlog & Hh). unfold dml_commit.
  destruct (dml_rows_stamped d (clk st)) as [[Hreads Hst] Hent].
  destruct (dml_rows wall d (clk st)) as [rows c]. cbn [fst snd clk store] in *. intros Hb.
  destruct (Hst Hclk Hb) as (Hc & Hle & Hsr & Hrows). clear Hst.
  assert (Hshape : Forall (logged (last_tx c)) (log ++ rows)).
  { apply Forall_app. rewrite !Forall_forall in *. split; intros r Hr.
    - destruct (Hlog r Hr) as (? & ? & ?). repeat split; (done || lia).
    - destruct (Hrows r Hr) as [? ?]. unfold clock_ok in Hclk. repeat split; [|lia..|done].
      unfold dml_ok in Hd. rewrite Forall_forall in Hd. apply Hd. rewrite <- Hent.
      by apply list_elem_of_fmap_2. }
  assert (Hok : Forall row_ok (log ++ rows)).
  { eapply Forall_impl; [exact Hshape|]. intros r (? & ? & ?). unfold clock_ok in Hc.
    apply open_row_ok; [done|lia|done]. }
  assert (Hsort : StronglySorted by_tx (log ++ rows)).
  { apply StronglySorted_app_2; [|done|done]. intros a b Ha Hb'. rewrite Forall_forall in Hlog, Hrows.
    destruct (Hlog a Ha) as (_ & ? & _), (Hrows b Hb') as [? _]. unfold by_tx. lia. }
  split; [|split; [done|split; [done|split; [done|]]]].
  - eapply mem_step_wf; [|exact Hwf]. apply step_batch_apply. by apply Forall_app in Hok as [_ ?].
  - by apply (append_rows rows (history (store st)) log); [apply Hwf|..].
Qed.

Lemma dml_run_reads ds st : (reads (clk st) <= reads (clk (dml_run wall ds st).2))%nat.
Proof.
  revert st. induction ds as [|d ds IH]; intros st; simpl; [lia|]. unfold dml_commit.
  destruct (dml_rows_stamped d (clk st)) as [[Hreads _] _].
  destruct (dml_rows wall d (clk st)) as [rows c]. simpl in *.
  specialize (IH {| store := (Memory.batch_apply (puts d) (deletes d) rows (store st)).2; clk := c |}).
  destruct (dml_run wall ds _) as [rest st2]. simpl in *. lia.
Qed.

Lemma dml_run_log ds log st :
  Forall dml_ok ds -> log_inv log st ->
  wall_max + Z.of_nat (reads (clk (dml_run wall ds st).2)) < two63 ->
  log_inv (log ++ (dml_run wall ds st).1) (dml_run wall ds st).2.
Proof.
  intros Hds. revert log st. induction Hds as [|d ds Hd Hds IH]; intros log st Hinv; simpl.
  { by rewrite app_nil_r. }
  pose proof (dml_commit_log log d st Hd Hinv) as Hc.
  destruct (dml_commit wall d st) as [rows st1]. simpl in Hc.
  specialize (IH (log ++ rows) st1).
  assert (Hmono : (reads (clk st1) <= reads (clk (dml_run wall ds st1).2))%nat) by apply dml_run_reads.
  destruct (dml_run wall ds st1) as [rest st2]. simpl in *. intros Hb. rewrite app_assoc.
  apply IH; [|done]. apply Hc. lia.
Qed.

(** ** Reading the log back *)

Lemma StronglySorted_reverse {A} (R : A -> A -> Prop) l :
  StronglySorted R l -> StronglySorted (fun a b => R b a) (reverse l).
Proof.
  induction 1 as [|x l Hs IH Hx]; [constructor|]. rewrite reverse_cons.
  apply StronglySorted_app_2; [|done|repeat constructor].
  intros a b Ha ->%list_elem_of_singleton. rewrite Forall_forall in Hx. apply Hx. by apply elem_of_reverse.
Qed.

Abbreviation of_entity e log := (List.filter (fun r => bool_decide (row_entity r = e)) log).

Lemma log_newer last l : Forall (logged last) l -> StronglySorted by_tx l ->
  StronglySorted (fun a b => newer b a) (row_record <$> l).
Proof.
  intros Hl Hs. induction Hs as [|r l Hs IH Hr]; simpl; [constructor|].
  apply Forall_cons in Hl as [(_ & _ & Er) Hl]. constructor; [by apply IH|].
  apply Forall_fmap. rewrite !Forall_forall in *. intros r' Hin. specialize (Hr r' Hin).
  destruct (Hl r' Hin) as (_ & _ & Er'). rewrite Er, Er'. unfold by_tx in Hr. left. simpl. lia.
Qed.

(** The stored versions of an entity are its rows of the log, newest first. *)
Lemma versions_of_log log st e :
  log_inv log st -> last_tx (clk st) < two63 -> zero_free e ->
  versions_of e (history (store st)) = reverse (row_record <$> of_entity e log).
Proof.
  intros (Hwf & _ & Hs & Hlog & Hh) Hlast He. pose proof Hwf as [_ Hhist].
  assert (Hfl : Forall (logged (last_tx (clk st))) (of_entity e log)).
  { rewrite Forall_forall in Hlog |- *. intros r [Hr _]%list_elem_of_In%filter_In. by apply Hlog, list_elem_of_In. }
  assert (Hsorted : StronglySorted newer (reverse (row_record <$> of_entity e log))).
  { apply StronglySorted_reverse. eapply log_newer; [exact Hfl|]. clear -Hs.
    induction Hs as [|r l Hs IH Hr]; simpl; [constructor|]. case_bool_decide; [|done].
    constructor; [done|]. rewrite Forall_forall in Hr |- *. intros r' [Hin _]%list_elem_of_In%filter_In.
    by apply Hr, list_elem_of_In. }
  apply newer_ext; [by apply versions_of_sorted|done|].
  intros v. rewrite versions_of_elem by done. rewrite elem_of_reverse, list_elem_of_fmap, Hh, list_elem_of_fmap.
  rewrite Forall_forall in Hlog. split.
  - intros [Hv (r & E & Hr)]. exists r. destruct (Hlog r Hr) as (Hz & Ht & Er).
    apply version_entry_inj in E; [|done|apply open_row_ok; [done|lia|done]].
    rewrite <- E. split; [by destruct v|]. apply list_elem_of_In, filter_In. rewrite <- list_elem_of_In.
    rewrite E. split; [done|]. apply bool_decide_eq_true. by rewrite <- E.
  - intros (r & -> & [Hr Hre]%list_elem_of_In%filter_In). apply list_elem_of_In in Hr.
    apply bool_decide_eq_true in Hre. destruct (Hlog r Hr) as (Hz & Ht & Er).
    assert (Hrow : r = (e, valid_from (row_record r), valid_to (row_record r), tx (row_record r),
      value (row_record r))) by (rewrite Er; simpl; congruence).
    rewrite <- Hrow. split; [apply open_row_ok; [done|lia|done]|]. by exists r.
Qed.

Lemma head_filter_reverse {A} (f : A -> bool) l :
  head (List.filter f (reverse l)) = last (List.filter f l).
Proof.
  rewrite <- head_reverse. f_equal. induction l as [|x l IH]; simpl; [done|].
  rewrite reverse_cons, List.filter_app, IH. simpl.
  destruct (f x); [by rewrite reverse_cons|by rewrite app_nil_r].
Qed.

Lemma state_at_records log e t last0 :
  Forall (logged last0) log -> t < VALID_OPEN ->
  state_at log e t =
  value <$> last (List.filter (version_qualifies t t) (row_record <$> of_entity e log)).
Proof.
  intros Hlog Ht. unfold state_at. revert Hlog.
  assert (Hgen : forall l, Forall (logged last0) l ->
    List.filter (version_qualifies t t) (row_record <$> of_entity e l) =
    row_record <$> List.filter (fun r => bool_decide (row_entity r = e) && (row_tx r <=? t)) l).
  { induction 1 as [|r l (_ & _ & Er) Hl IH]; simpl; [done|]. case_bool_decide as He; simpl; [|done].
    assert (Hq : version_qualifies t t (row_record r) = (row_tx r <=? t)).
    { rewrite Er. unfold version_qualifies. simpl. destruct (Z.leb_spec (row_tx r) t); simpl; [|done].
      by apply Z.ltb_lt. }
    rewrite Hq. destruct (row_tx r <=? t); [|exact IH]. simpl. f_equal. exact IH. }
  intros Hlog. rewrite Hgen by done. rewrite fmap_last.
  destruct (last _) as [[[[[e' vf] vt] t'] val]|]; done.
Qed.
End rows.

Definition temporal_init : temporal_db :=
  {| store := Memory.new; clk := {| last_tx := 0; reads := O |} |}.

(** C3: after any sequence of DML commits, each appending tombstones and versions
    stamped by the clock, a point-in-time read of an entity at [t] returns the
    payload of the last row appended for it with transaction time at most [t]
    (an empty payload for a tombstone), and nothing when there is no such row;
    the number of clock reads and the wall clock staying in the 64-bit range. *)
Theorem as_of_reads_last_write wall wall_max ds e t :
  (forall n, 0 <= wall n <= wall_max) ->
  Forall dml_ok ds -> zero_free e -> i64_ok t -> t < VALID_OPEN ->
  wall_max + Z.of_nat (reads (clk (dml_run wall ds temporal_init).2)) < two63 ->
  let '(log, st) := dml_run wall ds temporal_init in
  Memory.get_as_of e t t (store st) = (Ok (state_at log e t), store st).
Proof.
  intros Hwall Hds He Ht Hopen Hb.
  assert (Hw0 : 0 <= wall_max) by (specialize (Hwall O); lia).
  assert (Hinit : log_inv wall_max [] temporal_init).
  { split; [repeat split; auto with kv|]. split; [unfold clock_ok; simpl; lia|].
    repeat split; try constructor; done. }
  pose proof (dml_run_log wall wall_max Hwall ds [] temporal_init Hds Hinit Hb) as Hinv.
  destruct (dml_run wall ds temporal_init) as [log st]. simpl in Hb, Hinv.
  pose proof Hinv as (Hwf & Hclk & _ & Hlog & _). unfold clock_ok in Hclk.
  rewrite get_as_of_head by done. rewrite (versions_of_log wall_max log st e Hinv) by (lia || done).
  by rewrite head_filter_reverse, <- (state_at_records log e t (last_tx (clk st))).
Qed.

(** Two versions, then a deletion, on a clock that stands still. *)
Definition temporal_example : list dml :=
  [{| puts := [(bs "sp:vertex:1", bs "a")]; deletes := []; erased := [];
      written := [(bs "sp:vertex:1", bs "a"); (bs "sp:vertex:1", bs "b")] |};
   {| puts := []; deletes := [bs "sp:vertex:1"]; erased := [bs "sp:vertex:1"]; written := [] |}].

Lemma as_of_reads_last_write_witness :
  let '(log, st) := dml_run (fun _ => 100) temporal_example temporal_init in
  state_at log (bs "sp:vertex:1") 101 = Some (bs "b") /\
  Memory.get_as_of (bs "sp:vertex:1") 101 101 (store st) =
    (Ok (state_at log (bs "sp:vertex:1") 101), store st).
Proof.
  split; [reflexivity|].
  apply (as_of_reads_last_write (fun _ => 100) 100 temporal_example (bs "sp:vertex:1") 101).
  - lia.
  - repeat constructor; by apply zero_freeb_ok.
  - by apply zero_freeb_ok.
  - vm_compute; intuition congruence.
  - reflexivity.
  - reflexivity.
Defined.
