(* ===== verification/RaftLog.v ===== *)
(** * Raft types and the replicated log

    [byoridb-storage/src/raft/types.rs] and [raft/log.rs]: the protocol's data
    types and messages, and [RaftLog], the vector of entries behind a compaction
    offset. Indices and terms are [u64] with wrap-around written out; a slice
    that would panic is [None]. *)

From Stdlib Require Import ZArith Lia Strings.Byte Strings.String.
From stdpp Require Import base tactics list gmap.
From S2P Require Import Prelude.

(** ** Types *)

Abbreviation NodeId := Z.
Abbreviation LogIndex := Z.
Abbreviation Term := Z.

Inductive RaftState := Follower | Candidate | Leader.

#[global] Instance RaftState_eq_dec : EqDecision RaftState.
Proof. solve_decision. Defined.

Inductive ConfigChange :=
| AddNode (node_id : NodeId) (addr : string)
| RemoveNode (node_id : NodeId).

Inductive Command :=
| Noop
| Put (space_id part_id : Z) (key value : bytes)
| Delete (space_id part_id : Z) (key : bytes)
| CommandConfigChange (change : ConfigChange).

Record LogEntry := {
  entry_term : Term;
  entry_index : LogIndex;
  command : Command
}.

Record NodeInfo := { node_info_id : NodeId; node_addr : string; port : Z }.

Record ClusterConfig := {
  nodes : gmap NodeId NodeInfo;
  voters : list NodeId
}.

Module Cluster.

Definition new : ClusterConfig := {| nodes := ∅; voters := [] |}.

Definition add_node (info : NodeInfo) (c : ClusterConfig) : ClusterConfig :=
  let id := node_info_id info in
  {| nodes := <[id:=info]> (nodes c);
     voters := if bool_decide (id ∈ voters c) then voters c else voters c ++ [id] |}.

Definition remove_node (node_id : NodeId) (c : ClusterConfig) : ClusterConfig :=
  {| nodes := delete node_id (nodes c);
     voters := List.filter (fun id => negb (id =? node_id)) (voters c) |}.

Definition get_node (node_id : NodeId) (c : ClusterConfig) : option NodeInfo := nodes c !! node_id.

Definition majority (c : ClusterConfig) : nat := (length (voters c) / 2 + 1)%nat.

End Cluster.

Record RequestVoteRequest := {
  rv_term : Term;
  candidate_id : NodeId;
  last_log_index : LogIndex;
  last_log_term : Term
}.

Record RequestVoteResponse := { rvr_term : Term; vote_granted : bool }.

Record AppendEntriesRequest := {
  ae_term : Term;
  ae_leader_id : NodeId;
  prev_log_index : LogIndex;
  prev_log_term : Term;
  ae_entries : list LogEntry;
  leader_commit : LogIndex
}.

Record AppendEntriesResponse := {
  aer_term : Term;
  success : bool;
  aer_match_index : LogIndex
}.

Record InstallSnapshotRequest := {
  is_term : Term;
  is_leader_id : NodeId;
  last_included_index : LogIndex;
  last_included_term : Term;
  offset : Z;
  snapshot_bytes : bytes;
  done_ : bool
}.

Record InstallSnapshotResponse := { isr_term : Term }.

(** ** The log *)

Record RaftLog := {
  entries : list LogEntry;
  first_index : LogIndex;
  snapshot_term : Term
}.

(** [v[a..b]], which panics unless [a <= b <= v.len()]. *)
Definition slice {A} (a b : nat) (l : list A) : option (list A) :=
  if (a <=? b)%nat && (b <=? length l)%nat then Some (take (b - a) (drop a l)) else None.

Module Log.

Definition new : RaftLog := {| entries := []; first_index := 1; snapshot_term := 0 |}.

Definition with_entries (l : RaftLog) (es : list LogEntry) : RaftLog :=
  {| entries := es; first_index := first_index l; snapshot_term := snapshot_term l |}.

Definition last_index (l : RaftLog) : LogIndex :=
  match entries l with
  | [] => sat_sub (first_index l) 1
  | _ => u64_sub (u64_add (first_index l) (Z.of_nat (length (entries l)))) 1
  end.

Definition last_term (l : RaftLog) : Term :=
  match last (entries l) with Some e => entry_term e | None => snapshot_term l end.

Definition get (index : LogIndex) (l : RaftLog) : option LogEntry :=
  if (index <? first_index l) || (last_index l <? index) then None
  else entries l !! Z.to_nat (index - first_index l).

Definition term (index : LogIndex) (l : RaftLog) : option Term :=
  if index =? 0 then Some 0
  else if index <? first_index l then
    if index =? u64_sub (first_index l) 1 then Some (snapshot_term l) else None
  else entry_term <$> get index l.

Definition append (es : list LogEntry) (l : RaftLog) : RaftLog :=
  with_entries l (entries l ++ es).

Definition append_entry (t : Term) (c : Command) (l : RaftLog) : LogIndex * RaftLog :=
  let index := u64_add (last_index l) 1 in
  (index, with_entries l (entries l ++ [{| entry_term := t; entry_index := index; command := c |}])).

Definition truncate (from_index : LogIndex) (l : RaftLog) : RaftLog :=
  if from_index <=? first_index l then with_entries l []
  else if from_index <=? last_index l then
    with_entries l (take (Z.to_nat (from_index - first_index l)) (entries l))
  else l.

Definition entries_from (start_index : LogIndex) (l : RaftLog) : option (list LogEntry) :=
  if last_index l <? start_index then Some []
  else
    let start := if start_index <? first_index l then O
                 else Z.to_nat (start_index - first_index l) in
    slice start (length (entries l)) (entries l).

Definition entries_range (start stop : LogIndex) (l : RaftLog) : option (list LogEntry) :=
  if (last_index l <? start) || (stop <=? start) then Some []
  else
    let start_offset := if start <? first_index l then O
                        else Z.to_nat (start - first_index l) in
    let end_offset := if u64_add (last_index l) 1 <? stop then length (entries l)
                      else Z.to_nat (u64_sub stop (first_index l)) in
    slice start_offset end_offset (entries l).

Definition compact (up_to_index : LogIndex) (last_term : Term) (l : RaftLog) : RaftLog :=
  if up_to_index <? first_index l then l
  else
    let compact_count := Z.to_nat (u64_add (up_to_index - first_index l) 1) in
    {| entries := if (length (entries l) <=? compact_count)%nat then []
                  else drop compact_count (entries l);
       first_index := u64_add up_to_index 1;
       snapshot_term := last_term |}.

Definition is_up_to_date (last_log_index : LogIndex) (last_log_term : Term) (l : RaftLog) : bool :=
  let my_last_term := last_term l in
  let my_last_index := last_index l in
  if negb (last_log_term =? my_last_term) then my_last_term <? last_log_term
  else my_last_index <=? last_log_index.

(** The [while] loop of [find_conflict]. Each turn lowers [conflict_index] by
    one and stops at [first_index], so [index - first_index] turns are enough. *)
Fixpoint conflict_loop (fuel : nat) (l : RaftLog) (conflict_term : Term) (conflict_index : LogIndex)
    : LogIndex :=
  match fuel with
  | O => conflict_index
  | S fuel' =>
      if first_index l <? conflict_index then
        match get (conflict_index - 1) l with
        | Some prev =>
            if negb (entry_term prev =? conflict_term) then conflict_index
            else conflict_loop fuel' l conflict_term (conflict_index - 1)
        | None => conflict_index
        end
      else conflict_index
  end.

Definition find_conflict (index : LogIndex) (t : Term) (l : RaftLog) : LogIndex * Term :=
  match get index l with
  | Some entry =>
      if negb (entry_term entry =? t) then
        (conflict_loop (Z.to_nat (index - first_index l)) l (entry_term entry) index, entry_term entry)
      else (index, t)
  | None => (index, t)
  end.

Definition len (l : RaftLog) : nat := length (entries l).
Definition is_empty (l : RaftLog) : bool := match entries l with [] => true | _ => false end.

End Log.

(** ** Well-formed logs *)

(** Entries carry consecutive indices from [first_index], all below the [u64] limit. *)
Definition consecutive (start : Z) (es : list LogEntry) : Prop :=
  forall i e, es !! i = Some e -> entry_index e = start + Z.of_nat i.

Definition log_wf (l : RaftLog) : Prop :=
  1 <= first_index l /\ first_index l + Z.of_nat (length (entries l)) < two64 /\
  consecutive (first_index l) (entries l).

Lemma consecutive_app s l1 l2 :
  consecutive s l1 -> consecutive (s + Z.of_nat (length l1)) l2 -> consecutive s (l1 ++ l2).
Proof.
  intros H1 H2 i e Hi. apply lookup_app_Some in Hi as [Hi|[Hle Hi]]; [by apply H1|].
  rewrite (H2 _ _ Hi). lia.
Qed.

Lemma consecutive_take s n l : consecutive s l -> consecutive s (take n l).
Proof. intros H i e Hi. apply H. apply lookup_take_Some in Hi. by destruct Hi. Qed.

Lemma consecutive_drop s n l : consecutive s l -> consecutive (s + Z.of_nat n) (drop n l).
Proof. intros H i e Hi. rewrite lookup_drop in Hi. rewrite (H _ _ Hi). lia. Qed.

Lemma log_wf_new : log_wf Log.new.
Proof. split; [simpl; lia|]. split; [simpl; unfold two64; lia|]. by intros i e. Qed.

Lemma last_index_wf l : log_wf l -> Log.last_index l = first_index l + Z.of_nat (length (entries l)) - 1.
Proof.
  intros (H1 & H2 & _). unfold Log.last_index, sat_sub.
  destruct (entries l); simpl length in *; [lia|]. rewrite u64_add_id, u64_sub_id; unfold_int; lia.
Qed.

(** [get] reads the entry that carries the index. *)
Lemma log_get_lookup l i :
  log_wf l ->
  Log.get i l = if first_index l <=? i then entries l !! Z.to_nat (i - first_index l) else None.
Proof.
  intros Hwf. unfold Log.get. rewrite last_index_wf by done. rewrite Z.ltb_antisym.
  destruct (Z.leb_spec (first_index l) i); simpl; [|done].
  destruct (Z.ltb_spec (first_index l + Z.of_nat (length (entries l)) - 1) i); [|done].
  symmetry. apply lookup_ge_None. lia.
Qed.

Lemma log_get_index l i e : log_wf l -> Log.get i l = Some e -> entry_index e = i.
Proof.
  intros Hwf. rewrite log_get_lookup by done. destruct (Z.leb_spec (first_index l) i); [|done].
  intros He. destruct Hwf as (_ & _ & Hc). rewrite (Hc _ _ He). lia.
Qed.

Lemma log_get_some l i :
  log_wf l -> is_Some (Log.get i l) <-> first_index l <= i <= Log.last_index l.
Proof.
  intros Hwf. rewrite log_get_lookup, last_index_wf by done.
  destruct (Z.leb_spec (first_index l) i); [|split; [by intros []|lia]].
  rewrite lookup_lt_is_Some. lia.
Qed.

Lemma term_get l i : log_wf l -> first_index l <= i -> Log.term i l = entry_term <$> Log.get i l.
Proof.
  intros (H1 & _) Hi. unfold Log.term. destruct (Z.eqb_spec i 0); [lia|].
  destruct (Z.ltb_spec i (first_index l)); [lia|done].
Qed.

(** ** The log as a partial map from indices to entries *)

Lemma append_entry_view l t c :
  log_wf l -> Log.last_index l + 2 < two64 ->
  let '(i, l') := Log.append_entry t c l in
  i = Log.last_index l + 1 /\ log_wf l' /\ Log.last_index l' = i /\
  forall j, Log.get j l' = if j =? i then Some {| entry_term := t; entry_index := i; command := c |}
                           else Log.get j l.
Proof.
  intros Hwf Hlt. pose proof (last_index_wf l Hwf) as HL. pose proof Hwf as (H1 & H2 & H3).
  unfold Log.append_entry. rewrite u64_add_id by (unfold_int; lia).
  set (e := {| entry_term := t; entry_index := _; command := c |}).
  assert (Hwf' : log_wf (Log.with_entries l (entries l ++ [e]))).
  { split; [done|]. simpl. rewrite length_app. simpl. split; [lia|].
    apply consecutive_app; [done|]. intros [|i] x [= <-]. simpl. lia. }
  split; [done|]. split; [done|]. rewrite (last_index_wf _ Hwf'). simpl. rewrite length_app. simpl.
  split; [lia|]. intros j. rewrite !log_get_lookup by done. simpl.
  destruct (Z.eqb_spec j (Log.last_index l + 1)) as [->|Hne].
  - destruct (Z.leb_spec (first_index l) (Log.last_index l + 1)); [|lia].
    rewrite lookup_app_r by lia. by replace (Z.to_nat _ - _)%nat with O by lia.
  - destruct (Z.leb_spec (first_index l) j); [|done].
    destruct (decide (j <= Log.last_index l)); [by rewrite lookup_app_l by lia|].
    rewrite !lookup_ge_None_2; rewrite ?length_app; simpl; (done || lia).
Qed.

(** Entries numbered from the next index on are added as they are. *)
Lemma append_view l es :
  log_wf l -> consecutive (Log.last_index l + 1) es -> Log.last_index l + Z.of_nat (length es) + 1 < two64 ->
  log_wf (Log.append es l) /\ Log.last_index (Log.append es l) = Log.last_index l + Z.of_nat (length es) /\
  forall j, Log.get j (Log.append es l) =
    if j <=? Log.last_index l then Log.get j l else es !! Z.to_nat (j - Log.last_index l - 1).
Proof.
  intros Hwf Hc Hlt. pose proof (last_index_wf l Hwf) as HL. pose proof Hwf as (H1 & H2 & H3). unfold Log.append.
  assert (Hwf' : log_wf (Log.with_entries l (entries l ++ es))).
  { split; [done|]. simpl. rewrite length_app. split; [lia|]. apply consecutive_app; [done|].
    by replace (first_index l + Z.of_nat (length (entries l))) with (Log.last_index l + 1) by lia. }
  split; [done|]. split; [rewrite (last_index_wf _ Hwf'); simpl; rewrite length_app; lia|].
  intros j. rewrite !log_get_lookup by done. simpl.
  destruct (Z.leb_spec j (Log.last_index l)), (Z.leb_spec (first_index l) j); try lia; try done.
  - by rewrite lookup_app_l by lia.
  - rewrite lookup_app_r by lia. f_equal. lia.
Qed.

Lemma with_entries_nil_view l j : log_wf l -> log_wf (Log.with_entries l []) /\ Log.get j (Log.with_entries l []) = None.
Proof.
  intros (H1 & H2 & H3). assert (Hwf : log_wf (Log.with_entries l [])).
  { split; [done|]. split; [simpl; lia|]. by intros i e. }
  split; [done|]. rewrite log_get_lookup by done. by case_match.
Qed.

Lemma truncate_view l i :
  log_wf l ->
  log_wf (Log.truncate i l) /\
  Log.last_index (Log.truncate i l) =
    Z.max (first_index l - 1) (Z.min (i - 1) (Log.last_index l)) /\
  forall j, Log.get j (Log.truncate i l) = if j <? i then Log.get j l else None.
Proof.
  intros Hwf. pose proof (last_index_wf l Hwf) as HL. pose proof Hwf as (H1 & H2 & H3). unfold Log.truncate.
  destruct (Z.leb_spec i (first_index l)) as [Hi|Hi].
  { destruct (with_entries_nil_view l 0 Hwf) as [Hw _]. split; [done|]. split.
    { rewrite last_index_wf by done. simpl. lia. }
    intros j. rewrite (proj2 (with_entries_nil_view l j Hwf)).
    destruct (Z.ltb_spec j i); [|done]. rewrite log_get_lookup by done.
    destruct (Z.leb_spec (first_index l) j); [lia|done]. }
  destruct (Z.leb_spec i (Log.last_index l)) as [Hl|Hl].
  2: { split; [done|]. split; [lia|]. intros j. destruct (Z.ltb_spec j i); [done|].
       apply eq_None_not_Some. rewrite log_get_some by done. lia. }
  assert (Hwf' : log_wf (Log.with_entries l (take (Z.to_nat (i - first_index l)) (entries l)))).
  { split; [done|]. simpl. rewrite length_take. split; [lia|]. by apply consecutive_take. }
  split; [done|]. split.
  { rewrite last_index_wf by done. simpl. rewrite length_take. lia. }
  intros j. rewrite !log_get_lookup by done. simpl.
  destruct (Z.leb_spec (first_index l) j); [|by case_match].
  destruct (Z.ltb_spec j i); [by rewrite lookup_take_lt by lia|by rewrite lookup_take_ge by lia].
Qed.

Lemma compact_view l u t :
  log_wf l -> u + 1 < two64 ->
  log_wf (Log.compact u t l) /\
  (first_index l <= u -> first_index (Log.compact u t l) = u + 1 /\ Log.term u (Log.compact u t l) = Some t) /\
  Log.last_index (Log.compact u t l) = Z.max (Log.last_index l) u /\
  forall j, Log.get j (Log.compact u t l) = if u <? j then Log.get j l else None.
Proof.
  intros Hwf Hu. pose proof (last_index_wf l Hwf) as HL. pose proof Hwf as (H1 & H2 & H3). unfold Log.compact.
  destruct (Z.ltb_spec u (first_index l)) as [Hlt|Hge].
  { split; [done|]. split; [lia|]. split; [lia|]. intros j. destruct (Z.ltb_spec u j); [done|].
    apply eq_None_not_Some. rewrite log_get_some by done. lia. }
  rewrite !u64_add_id by (unfold_int; lia). set (es := if (_ <=? _)%nat then [] else _).
  assert (Hes : es = drop (Z.to_nat (u - first_index l + 1)) (entries l)).
  { unfold es. destruct (Nat.leb_spec (length (entries l)) (Z.to_nat (u - first_index l + 1))); [|done].
    by rewrite drop_ge by lia. }
  clearbody es. subst es. set (l' := {| entries := _; first_index := _; snapshot_term := _ |}).
  assert (Hwf' : log_wf l').
  { split; [simpl; lia|]. simpl. rewrite length_drop. split; [lia|].
    replace (u + 1) with (first_index l + Z.of_nat (Z.to_nat (u - first_index l + 1))) by lia.
    by apply consecutive_drop. }
  split; [done|]. split.
  { intros _. split; [done|]. unfold Log.term. simpl. destruct (Z.eqb_spec u 0); [lia|].
    rewrite u64_sub_id by (unfold_int; lia).
    destruct (Z.ltb_spec u (u + 1)); [|lia]. by rewrite (proj2 (Z.eqb_eq _ _)) by lia. }
  split; [rewrite (last_index_wf _ Hwf'); simpl; rewrite length_drop; lia|].
  intros j. rewrite !log_get_lookup by done. simpl.
  destruct (Z.leb_spec (u + 1) j), (Z.ltb_spec u j); try lia; [|done].
  destruct (Z.leb_spec (first_index l) j); [|lia]. rewrite lookup_drop. f_equal. lia.
Qed.

(** Four entries of terms 1, 1, 2, 2 behind a compacted prefix of ten. *)
Definition log_example : RaftLog :=
  {| entries := [{| entry_term := 1; entry_index := 11; command := Noop |};
                 {| entry_term := 1; entry_index := 12; command := Noop |};
                 {| entry_term := 2; entry_index := 13; command := Noop |};
                 {| entry_term := 2; entry_index := 14; command := Noop |}];
     first_index := 11; snapshot_term := 1 |}.

Lemma log_example_wf : log_wf log_example.
Proof.
  split; [simpl; lia|]. split; [simpl; unfold two64; lia|].
  intros i e H. do 4 (destruct i as [|i]; [injection H as <-; simpl; lia|]). done.
Qed.

(** ** Ranges of entries *)

(** [es] are the entries of the log from index [a] on, below [b]. *)
Definition segment (a b : LogIndex) (l : RaftLog) (es : list LogEntry) : Prop :=
  Z.of_nat (length es) <= Z.max 0 (b - a) /\
  forall i, a + Z.of_nat i < b -> es !! i = Log.get (a + Z.of_nat i) l.

Lemma segment_nil a b l : log_wf l -> Log.last_index l < a -> segment a b l [].
Proof.
  intros Hwf Ha. split; [simpl; lia|]. intros i _. symmetry. apply eq_None_not_Some. rewrite log_get_some by done. lia.
Qed.

(** A slice of the vector of entries is a segment of the log. *)
Lemma slice_segment a b l (x e : nat) :
  log_wf l -> (x <= e)%nat -> (e <= length (entries l))%nat -> a = first_index l + Z.of_nat x ->
  e = length (entries l) /\ Log.last_index l < b \/ b = first_index l + Z.of_nat e ->
  exists es, slice x e (entries l) = Some es /\ segment a b l es.
Proof.
  intros Hwf Hx He -> Hb. pose proof (last_index_wf l Hwf) as HL.
  unfold slice. rewrite (proj2 (Nat.leb_le x e)), (proj2 (Nat.leb_le e _)) by lia.
  eexists. split; [done|]. split; [rewrite length_take, length_drop; lia|].
  intros i Hi. rewrite log_get_lookup by done. rewrite (proj2 (Z.leb_le _ _)) by lia.
  replace (Z.to_nat (_ - first_index l)) with (x + i)%nat by lia.
  destruct (decide (i < e - x)%nat); [by rewrite lookup_take_lt, lookup_drop by done|].
  rewrite lookup_take_ge by lia. symmetry. apply lookup_ge_None. lia.
Qed.

Lemma entries_from_exact l start :
  log_wf l -> exists es, Log.entries_from start l = Some es /\
    segment (Z.max start (first_index l)) (Z.max start (Log.last_index l) + 1) l es.
Proof.
  intros Hwf. pose proof (last_index_wf l Hwf) as HL. unfold Log.entries_from.
  destruct (Z.ltb_spec (Log.last_index l) start).
  { exists []. split; [done|]. apply segment_nil; [done|lia]. }
  apply slice_segment; [done|destruct (Z.ltb_spec start (first_index l)); lia|done| |left; lia].
  destruct (Z.ltb_spec start (first_index l)); lia.
Qed.

Lemma entries_range_exact l start stop :
  log_wf l -> start < stop < two64 -> first_index l <= stop ->
  exists es, Log.entries_range start stop l = Some es /\ segment (Z.max start (first_index l)) stop l es.
Proof.
  intros Hwf Hb Hf. pose proof (last_index_wf l Hwf) as HL. pose proof Hwf as (H1 & H2 & H3).
  unfold Log.entries_range.
  destruct (Z.ltb_spec (Log.last_index l) start); cbn [orb].
  { exists []. split; [done|]. apply segment_nil; [done|lia]. }
  destruct (Z.leb_spec stop start); [lia|].
  rewrite u64_add_id by (unfold_int; lia). rewrite u64_sub_id by (unfold_int; lia).
  apply slice_segment; [done| | | |].
  all: destruct (Z.ltb_spec start (first_index l)), (Z.ltb_spec (Log.last_index l + 1) stop); lia.
Qed.

(** A range that ends in the compacted part of the log panics. *)
Lemma entries_range_compacted l start stop :
  log_wf l -> 0 <= start < stop -> stop < first_index l -> Log.entries_range start stop l = None.
Proof.
  intros Hwf Hs Hb. pose proof (last_index_wf l Hwf) as HL. pose proof Hwf as (H1 & H2 & H3).
  unfold Log.entries_range. destruct (Z.ltb_spec (Log.last_index l) start); [lia|]. simpl.
  destruct (Z.leb_spec stop start); [lia|]. destruct (Z.ltb_spec start (first_index l)); [|lia].
  rewrite u64_add_id by (unfold_int; lia). destruct (Z.ltb_spec (Log.last_index l + 1) stop); [lia|].
  assert (u64_sub stop (first_index l) = stop - first_index l + two64) as ->.
  { unfold u64_sub. unfold_int. symmetry. apply (Z.mod_unique_pos _ _ (-1)); lia. }
  unfold slice. rewrite (proj2 (Nat.leb_gt (Z.to_nat _) (length (entries l)))) by lia. by rewrite andb_false_r.
Qed.

(** ** Conflicts *)

Lemma conflict_loop_spec fuel l t ci :
  log_wf l -> first_index l <= ci -> ci - first_index l <= Z.of_nat fuel ->
  let r := Log.conflict_loop fuel l t ci in
  first_index l <= r <= ci /\
  (forall j, r <= j < ci -> entry_term <$> Log.get j l = Some t) /\
  (r = first_index l \/ forall e, Log.get (r - 1) l = Some e -> entry_term e <> t).
Proof.
  intros Hwf. revert ci. induction fuel as [|fuel IH]; intros ci Hc Hf; simpl.
  { split; [lia|]. split; [lia|left; lia]. }
  destruct (Z.ltb_spec (first_index l) ci) as [Hlt|Hge]; [|split; [lia|split; [lia|left; lia]]].
  destruct (Log.get (ci - 1) l) as [e|] eqn:E; [|split; [lia|split; [lia|right; congruence]]].
  destruct (Z.eqb_spec (entry_term e) t) as [Ht|Ht]; simpl.
  2: { split; [lia|]. split; [lia|]. right. congruence. }
  destruct (IH (ci - 1)) as (Hr & Hrun & Hend); [lia|lia|]. split; [lia|]. split; [|done].
  intros j Hj. destruct (decide (j = ci - 1)) as [->|]; [by rewrite E; simpl; rewrite Ht|].
  apply Hrun. lia.
Qed.

(** The first index of the run of entries of one term that reaches [index]. *)
Definition run_start (l : RaftLog) (index ci : LogIndex) (t : Term) : Prop :=
  first_index l <= ci <= index /\ (forall j, ci <= j <= index -> entry_term <$> Log.get j l = Some t) /\
  (ci = first_index l \/ forall e, Log.get (ci - 1) l = Some e -> entry_term e <> t).

Lemma find_conflict_spec l index t :
  log_wf l ->
  match Log.get index l with
  | Some e => if entry_term e =? t then Log.find_conflict index t l = (index, t)
              else exists ci, Log.find_conflict index t l = (ci, entry_term e) /\ run_start l index ci (entry_term e)
  | None => Log.find_conflict index t l = (index, t)
  end.
Proof.
  intros Hwf. unfold Log.find_conflict. destruct (Log.get index l) as [e|] eqn:He; [|done].
  destruct (Z.eqb_spec (entry_term e) t); [done|]. cbn [negb].
  assert (Hi : first_index l <= index) by (apply (log_get_some l index Hwf); by eexists).
  destruct (conflict_loop_spec (Z.to_nat (index - first_index l)) l (entry_term e) index)
    as (Hr & Hrun & Hend); [done|lia|lia|].
  eexists. split; [done|]. split; [lia|]. split; [|done]. intros j Hj.
  destruct (decide (j = index)) as [->|]; [by rewrite He|]. apply Hrun. lia.
Qed.

(** Lexicographic order of the last term and the last index. *)
Lemma is_up_to_date_spec l i t :
  Log.is_up_to_date i t l = true <-> Log.last_term l < t \/ (t = Log.last_term l /\ Log.last_index l <= i).
Proof. unfold Log.is_up_to_date. destruct (Z.eqb_spec t (Log.last_term l)); cbn [negb]; lia. Qed.

(** The term of the last entry, or of the compacted part when there is none. *)
Lemma last_term_spec l :
  log_wf l -> Some (Log.last_term l) =
    match Log.get (Log.last_index l) l with Some e => Some (entry_term e) | None => Some (snapshot_term l) end.
Proof.
  intros Hwf. rewrite log_get_lookup, last_index_wf by done. unfold Log.last_term. rewrite last_lookup.
  destruct (entries l) as [|e es] eqn:E; cbn [length].
  - destruct (_ <=? _); by rewrite ?lookup_nil.
  - rewrite (proj2 (Z.leb_le _ _)) by lia. cbn [Nat.pred].
    replace (Z.to_nat _) with (length es) by lia.
    by destruct (lookup_lt_is_Some_2 (e :: es) (length es)) as [x ->]; [simpl; lia|].
Qed.

(** C26: on a well-formed log, every operation that changes it keeps it well formed
    and acts on it as on a partial map from indices to entries. [append_entry] binds
    the next index and returns it; [append] binds the indices after the last to
    entries numbered that way; [truncate] unbinds the indices from the given one on;
    [compact] unbinds those up to the given one and keeps the term at the boundary.
    The reads are functions of the map: [entries_from] returns the bindings from an
    index on and [entries_range] those of a range that does not end below the first
    index, while a range that does panics; [find_conflict] returns the start of the
    run of the conflicting term; [is_up_to_date] compares last term and last index in
    lexicographic order. The bounds keep indices below the [u64] limit. *)
Theorem raft_log_ops_view l t c es i u start stop :
  log_wf l -> Log.last_index l + 2 < two64 -> first_index l <= u -> u + 1 < two64 ->
  consecutive (Log.last_index l + 1) es -> Log.last_index l + Z.of_nat (length es) + 1 < two64 ->
  0 <= start < stop -> stop < two64 ->
  (let '(k, l') := Log.append_entry t c l in
   k = Log.last_index l + 1 /\ log_wf l' /\
   forall j, Log.get j l' = if j =? k then Some {| entry_term := t; entry_index := k; command := c |}
                            else Log.get j l) /\
  (log_wf (Log.append es l) /\
   forall j, Log.get j (Log.append es l) =
     if j <=? Log.last_index l then Log.get j l else es !! Z.to_nat (j - Log.last_index l - 1)) /\
  (log_wf (Log.truncate i l) /\
   forall j, Log.get j (Log.truncate i l) = if j <? i then Log.get j l else None) /\
  (log_wf (Log.compact u t l) /\ Log.term u (Log.compact u t l) = Some t /\
   forall j, Log.get j (Log.compact u t l) = if u <? j then Log.get j l else None) /\
  (exists r, Log.entries_from start l = Some r /\
   segment (Z.max start (first_index l)) (Z.max start (Log.last_index l) + 1) l r) /\
  (if stop <? first_index l then Log.entries_range start stop l = None
   else exists r, Log.entries_range start stop l = Some r /\ segment (Z.max start (first_index l)) stop l r) /\
  match Log.get i l with
  | Some e => if entry_term e =? t then Log.find_conflict i t l = (i, t)
              else exists ci, Log.find_conflict i t l = (ci, entry_term e) /\ run_start l i ci (entry_term e)
  | None => Log.find_conflict i t l = (i, t)
  end /\
  (Log.is_up_to_date i t l = true <-> Log.last_term l < t \/ (t = Log.last_term l /\ Log.last_index l <= i)) /\
  Log.last_term l =
    match Log.get (Log.last_index l) l with Some e => entry_term e | None => snapshot_term l end.
Proof.
  intros Hwf Hlast Hu Hub Hes Hlen Hr Hstop. split_and!.
  - pose proof (append_entry_view l t c Hwf Hlast) as H. destruct (Log.append_entry t c l). intuition.
  - by apply append_view.
  - by apply append_view.
  - by apply truncate_view.
  - by apply truncate_view.
  - by apply compact_view.
  - by apply (compact_view l u t Hwf Hub).
  - by apply compact_view.
  - by apply entries_from_exact.
  - destruct (Z.ltb_spec stop (first_index l)); [by apply entries_range_compacted|].
    apply entries_range_exact; [done|lia|done].
  - by apply find_conflict_spec.
  - apply is_up_to_date_spec.
  - pose proof (last_term_spec l Hwf) as E. destruct (Log.get (Log.last_index l) l); by injection E.
Qed.

Lemma raft_log_ops_view_witness :
  log_wf (Log.append_entry 3 Noop log_example).2 /\
  Log.get 15 (Log.append [{| entry_term := 3; entry_index := 15; command := Noop |}] log_example) =
    Some {| entry_term := 3; entry_index := 15; command := Noop |} /\
  Log.entries_range 3 9 log_example = None /\
  (exists ci, Log.find_conflict 14 3 log_example = (ci, 2) /\ run_start log_example 14 ci 2) /\
  Log.find_conflict 14 3 log_example = (13, 2).
Proof.
  destruct (raft_log_ops_view log_example 3 Noop [{| entry_term := 3; entry_index := 15; command := Noop |}] 14 12 3 9)
    as ((_ & Ha & _) & (_ & Hp) & _ & _ & _ & Hn & Hc & _ & _).
  - exact log_example_wf.
  - reflexivity.
  - vm_compute. congruence.
  - reflexivity.
  - intros [|k] e He; [injection He as <-; reflexivity|discriminate He].
  - reflexivity.
  - lia.
  - reflexivity.
  - split; [exact Ha|]. split; [rewrite Hp; reflexivity|]. split; [exact Hn|]. split; [exact Hc|reflexivity].
Defined.
