(* ===== verification/RaftNode.v ===== *)
(** * The Raft node

    [byoridb-storage/src/raft/node.rs]: the state of a node and its RPC
    handlers, each the whole handler as a function of the node state. The clock
    and the random election timeout are inputs ([Env]); an operation that may
    panic (a slice or index out of bounds) returns [None] where it would. *)

From Stdlib Require Import ZArith Lia Strings.Byte Strings.String Strings.Ascii.
From stdpp Require Import base tactics list gmap sorting.
From S2P Require Import Prelude RaftLog.

(** ** State *)

Record RaftConfig := {
  election_timeout_min : Z;
  election_timeout_max : Z;
  heartbeat_interval : Z;
  max_entries_per_request : Z;
  snapshot_threshold : Z
}.

Definition RaftConfig_default : RaftConfig :=
  {| election_timeout_min := 150; election_timeout_max := 300; heartbeat_interval := 50;
     max_entries_per_request := 100; snapshot_threshold := 10000 |}.

Record PersistentState := { current_term : Term; voted_for : option NodeId }.
Record VolatileState := { commit_index : LogIndex; last_applied : LogIndex }.
Record LeaderState := { next_index : gmap NodeId LogIndex; match_index : gmap NodeId LogIndex }.

Record RaftNode := mkNode {
  id : NodeId;
  space_id : Z;
  part_id : Z;
  state : RaftState;
  persistent : PersistentState;
  volatile : VolatileState;
  leader_state : option LeaderState;
  log : RaftLog;
  config : ClusterConfig;
  raft_config : RaftConfig;
  leader_id : option NodeId;
  election_deadline : Z;
  votes_received : gmap NodeId bool
}.

(** What a handler reads from outside: [Instant::now()] and the timeout drawn
    by [gen_range(election_timeout_min..=election_timeout_max)]. *)
Record Env := { now : Z; timeout : Z }.

Inductive RaftAction :=
| ActionNone
| SendRequestVote (requests : list (NodeId * RequestVoteRequest))
| SendAppendEntries (requests : list (NodeId * AppendEntriesRequest))
| ApplyEntries (entries : list LogEntry).

Record InstallSnapshotAction := {
  act_last_included_index : LogIndex;
  act_last_included_term : Term;
  act_offset : Z;
  act_data : bytes;
  act_done : bool
}.

Inductive RaftNodeError :=
| NotLeader (leader_id : option NodeId)
| ProposalFailed (msg : string).

(** ** Field updates *)

Definition set_log (n : RaftNode) (l : RaftLog) : RaftNode :=
  mkNode (id n) (space_id n) (part_id n) (state n) (persistent n) (volatile n) (leader_state n)
    l (config n) (raft_config n) (leader_id n) (election_deadline n) (votes_received n).
Definition set_deadline (n : RaftNode) (d : Z) : RaftNode :=
  mkNode (id n) (space_id n) (part_id n) (state n) (persistent n) (volatile n) (leader_state n)
    (log n) (config n) (raft_config n) (leader_id n) d (votes_received n).
Definition set_leader_id (n : RaftNode) (i : option NodeId) : RaftNode :=
  mkNode (id n) (space_id n) (part_id n) (state n) (persistent n) (volatile n) (leader_state n)
    (log n) (config n) (raft_config n) i (election_deadline n) (votes_received n).
Definition set_volatile (n : RaftNode) (v : VolatileState) : RaftNode :=
  mkNode (id n) (space_id n) (part_id n) (state n) (persistent n) v (leader_state n)
    (log n) (config n) (raft_config n) (leader_id n) (election_deadline n) (votes_received n).
Definition set_leader_state (n : RaftNode) (s : option LeaderState) : RaftNode :=
  mkNode (id n) (space_id n) (part_id n) (state n) (persistent n) (volatile n) s
    (log n) (config n) (raft_config n) (leader_id n) (election_deadline n) (votes_received n).
Definition set_voted_for (n : RaftNode) (v : option NodeId) : RaftNode :=
  mkNode (id n) (space_id n) (part_id n) (state n)
    {| current_term := current_term (persistent n); voted_for := v |} (volatile n) (leader_state n)
    (log n) (config n) (raft_config n) (leader_id n) (election_deadline n) (votes_received n).
Definition set_votes (n : RaftNode) (v : gmap NodeId bool) : RaftNode :=
  mkNode (id n) (space_id n) (part_id n) (state n) (persistent n) (volatile n) (leader_state n)
    (log n) (config n) (raft_config n) (leader_id n) (election_deadline n) v.
Definition set_config (n : RaftNode) (c : ClusterConfig) : RaftNode :=
  mkNode (id n) (space_id n) (part_id n) (state n) (persistent n) (volatile n) (leader_state n)
    (log n) c (raft_config n) (leader_id n) (election_deadline n) (votes_received n).
Definition set_commit_index (n : RaftNode) (i : LogIndex) : RaftNode :=
  set_volatile n {| commit_index := i; last_applied := last_applied (volatile n) |}.

Abbreviation term_of n := (current_term (persistent n)).

Module Node.

(** ** Construction and timeouts *)

Definition random_election_deadline (env : Env) : Z := now env + timeout env.

Definition new (env : Env) (id space_id part_id : Z) (config : ClusterConfig)
    (raft_config : RaftConfig) : RaftNode :=
  {| id := id; space_id := space_id; part_id := part_id; state := Follower;
     persistent := {| current_term := 0; voted_for := None |};
     volatile := {| commit_index := 0; last_applied := 0 |};
     leader_state := None; log := Log.new; config := config; raft_config := raft_config;
     leader_id := None; election_deadline := random_election_deadline env;
     votes_received := ∅ |}.

Definition is_leader (n : RaftNode) : bool := bool_decide (state n = Leader).

Definition reset_election_timeout (env : Env) (n : RaftNode) : RaftNode :=
  set_deadline n (random_election_deadline env).

Definition election_timeout_elapsed (env : Env) (n : RaftNode) : bool :=
  election_deadline n <=? now env.

(** ** Role changes *)

Definition become_follower (env : Env) (term : Term) (leader : option NodeId) (n : RaftNode) : RaftNode :=
  reset_election_timeout env
    (mkNode (id n) (space_id n) (part_id n) Follower
      {| current_term := term; voted_for := None |} (volatile n) None
      (log n) (config n) (raft_config n) leader (election_deadline n) (votes_received n)).

Definition become_candidate (env : Env) (n : RaftNode)
    : list (NodeId * RequestVoteRequest) * RaftNode :=
  let term := u64_add (term_of n) 1 in
  let n' := reset_election_timeout env
    (mkNode (id n) (space_id n) (part_id n) Candidate
      {| current_term := term; voted_for := Some (id n) |} (volatile n) None
      (log n) (config n) (raft_config n) None (election_deadline n) {[id n := true]}) in
  let request := {| rv_term := term; candidate_id := id n;
                    last_log_index := Log.last_index (log n);
                    last_log_term := Log.last_term (log n) |} in
  ((fun node_id => (node_id, request)) <$>
     List.filter (fun node_id => negb (node_id =? id n)) (voters (config n)), n').

(** The loop of [become_leader] over the voters. *)
Definition track_voter (self : NodeId) (next : LogIndex) (s : LeaderState) (node_id : NodeId)
    : LeaderState :=
  if negb (node_id =? self) then
    {| next_index := <[node_id:=next]> (next_index s);
       match_index := <[node_id:=0]> (match_index s) |}
  else s.

Definition become_leader (n : RaftNode) : RaftNode :=
  let last_log_index := Log.last_index (log n) in
  let ls := fold_left (track_voter (id n) (u64_add last_log_index 1)) (voters (config n))
              {| next_index := ∅; match_index := ∅ |} in
  mkNode (id n) (space_id n) (part_id n) Leader (persistent n) (volatile n) (Some ls)
    (Log.append_entry (term_of n) Noop (log n)).2
    (config n) (raft_config n) (Some (id n)) (election_deadline n) (votes_received n).

(** ** Elections *)

Definition handle_request_vote (env : Env) (req : RequestVoteRequest) (n : RaftNode)
    : RequestVoteResponse * RaftNode :=
  let n := if term_of n <? rv_term req then become_follower env (rv_term req) None n else n in
  let '(granted, n) :=
    if rv_term req <? term_of n then (false, n)
    else if bool_decide (is_Some (voted_for (persistent n))) &&
            negb (bool_decide (voted_for (persistent n) = Some (candidate_id req))) then (false, n)
    else if negb (Log.is_up_to_date (last_log_index req) (last_log_term req) (log n)) then (false, n)
    else (true, reset_election_timeout env (set_voted_for n (Some (candidate_id req)))) in
  ({| rvr_term := term_of n; vote_granted := granted |}, n).

(** [votes_received.values().filter(|&&v| v).count()] *)
Definition votes_for (votes : gmap NodeId bool) : nat :=
  length (List.filter (fun kv => kv.2) (map_to_list votes)).

Definition handle_request_vote_response (env : Env) (from : NodeId) (resp : RequestVoteResponse)
    (n : RaftNode) : bool * RaftNode :=
  if negb (bool_decide (state n = Candidate)) then (false, n)
  else if term_of n <? rvr_term resp then (false, become_follower env (rvr_term resp) None n)
  else
    let n := set_votes n (<[from:=vote_granted resp]> (votes_received n)) in
    if (Cluster.majority (config n) <=? votes_for (votes_received n))%nat
    then (true, become_leader n) else (false, n).

(** ** Replication: follower side *)

(** The scan for the first conflicting entry, which truncates and stops. *)
Fixpoint truncate_conflict (es : list LogEntry) (l : RaftLog) : RaftLog :=
  match es with
  | [] => l
  | entry :: es' =>
      match Log.get (entry_index entry) l with
      | Some existing =>
          if negb (entry_term existing =? entry_term entry) then Log.truncate (entry_index entry) l
          else truncate_conflict es' l
      | None => truncate_conflict es' l
      end
  end.

(** The [Append new entries] block. *)
Definition merge_entries (es : list LogEntry) (l : RaftLog) : RaftLog :=
  let l := truncate_conflict es l in
  Log.append (List.filter (fun e => Log.last_index l <? entry_index e) es) l.

(** The consistency check: [Some l] is the failing branch, with the log it leaves. *)
Definition check_prev (req : AppendEntriesRequest) (l : RaftLog) : option RaftLog :=
  if 0 <? prev_log_index req then
    match Log.term (prev_log_index req) l with
    | None => Some l
    | Some term =>
        if negb (term =? prev_log_term req) then Some (Log.truncate (prev_log_index req) l) else None
    end
  else None.

Definition handle_append_entries (env : Env) (req : AppendEntriesRequest) (n : RaftNode)
    : AppendEntriesResponse * RaftNode :=
  let n := if term_of n <? ae_term req
           then become_follower env (ae_term req) (Some (ae_leader_id req)) n else n in
  if ae_term req <? term_of n then
    ({| aer_term := term_of n; success := false; aer_match_index := 0 |}, n)
  else
    let n := set_leader_id (reset_election_timeout env n) (Some (ae_leader_id req)) in
    let n := if bool_decide (state n = Candidate)
             then become_follower env (ae_term req) (Some (ae_leader_id req)) n else n in
    match check_prev req (log n) with
    | Some l =>
        ({| aer_term := term_of n; success := false; aer_match_index := Log.last_index l |}, set_log n l)
    | None =>
        let n := match ae_entries req with
                 | [] => n
                 | es => set_log n (merge_entries es (log n))
                 end in
        let n := if commit_index (volatile n) <? leader_commit req
                 then set_commit_index n (Z.min (leader_commit req) (Log.last_index (log n))) else n in
        ({| aer_term := term_of n; success := true; aer_match_index := Log.last_index (log n) |}, n)
    end.

(** ** Replication: leader side *)

(** [match_indices] after [sort_unstable]. *)
Definition sorted_match_indices (s : LeaderState) (last : LogIndex) : list LogIndex :=
  merge_sort Z.le ((map_to_list (match_index s)).*2 ++ [last]).

(** [None] when [match_indices.len() - majority] underflows. *)
Definition try_advance_commit_index (n : RaftNode) : option RaftNode :=
  match leader_state n with
  | None => Some n
  | Some s =>
      let match_indices := sorted_match_indices s (Log.last_index (log n)) in
      if (length match_indices <? Cluster.majority (config n))%nat then None
      else
        match match_indices !! (length match_indices - Cluster.majority (config n))%nat with
        | None => None
        | Some majority_index =>
            if commit_index (volatile n) <? majority_index then
              match Log.term majority_index (log n) with
              | Some term =>
                  if term =? term_of n then Some (set_commit_index n majority_index) else Some n
              | None => Some n
              end
            else Some n
        end
  end.

Definition handle_append_entries_response (env : Env) (from : NodeId) (resp : AppendEntriesResponse)
    (n : RaftNode) : option RaftNode :=
  if negb (bool_decide (state n = Leader)) then Some n
  else if term_of n <? aer_term resp then Some (become_follower env (aer_term resp) None n)
  else
    match leader_state n with
    | None => Some n
    | Some s =>
        if success resp then
          try_advance_commit_index (set_leader_state n (Some
            {| next_index := <[from:=u64_add (aer_match_index resp) 1]> (next_index s);
               match_index := <[from:=aer_match_index resp]> (match_index s) |}))
        else
          let next := default 1 (next_index s !! from) in
          Some (set_leader_state n (Some
            {| next_index := <[from:=Z.max (sat_sub next 1) 1]> (next_index s);
               match_index := match_index s |}))
    end.

Definition propose (c : Command) (n : RaftNode) : Result RaftNodeError LogIndex * RaftNode :=
  if negb (bool_decide (state n = Leader)) then (Err (NotLeader (leader_id n)), n)
  else let '(index, l) := Log.append_entry (term_of n) c (log n) in (Ok index, set_log n l).

(** The request for one voter; [None] when the slice of the log panics. *)
Definition append_request (n : RaftNode) (s : LeaderState) (node_id : NodeId)
    : option AppendEntriesRequest :=
  let next := default 1 (next_index s !! node_id) in
  let prev := sat_sub next 1 in
  match Log.entries_range next (u64_add next (max_entries_per_request (raft_config n))) (log n) with
  | None => None
  | Some es =>
      Some {| ae_term := term_of n; ae_leader_id := id n; prev_log_index := prev;
              prev_log_term := default 0 (Log.term prev (log n));
              ae_entries := es; leader_commit := commit_index (volatile n) |}
  end.

Fixpoint append_requests (n : RaftNode) (s : LeaderState) (vs : list NodeId)
    : option (list (NodeId * AppendEntriesRequest)) :=
  match vs with
  | [] => Some []
  | node_id :: vs' =>
      if node_id =? id n then append_requests n s vs'
      else
        match append_request n s node_id with
        | None => None
        | Some req => (cons (node_id, req)) <$> append_requests n s vs'
        end
  end.

Definition generate_append_entries (n : RaftNode) : option (list (NodeId * AppendEntriesRequest)) :=
  if negb (bool_decide (state n = Leader)) then Some []
  else
    match leader_state n with
    | None => Some []
    | Some s => append_requests n s (voters (config n))
    end.

(** ** Applying entries *)

(** The [while last_applied < commit_index] loop; it advances by one each turn,
    so [commit_index - last_applied] turns are enough. *)
Fixpoint apply_loop (fuel : nat) (l : RaftLog) (last_applied commit : LogIndex) (out : list LogEntry)
    : list LogEntry * LogIndex :=
  match fuel with
  | O => (out, last_applied)
  | S fuel' =>
      if last_applied <? commit then
        let last_applied := last_applied + 1 in
        apply_loop fuel' l last_applied commit
          (match Log.get last_applied l with Some e => out ++ [e] | None => out end)
      else (out, last_applied)
  end.

Definition get_entries_to_apply (n : RaftNode) : list LogEntry * RaftNode :=
  let v := volatile n in
  let '(es, applied) := apply_loop (Z.to_nat (commit_index v - last_applied v)) (log n)
                          (last_applied v) (commit_index v) [] in
  (es, set_volatile n {| commit_index := commit_index v; last_applied := applied |}).

(** ** Snapshots *)

Definition handle_install_snapshot (env : Env) (req : InstallSnapshotRequest) (n : RaftNode)
    : (InstallSnapshotResponse * option InstallSnapshotAction) * RaftNode :=
  let n := if term_of n <? is_term req
           then become_follower env (is_term req) (Some (is_leader_id req)) n else n in
  if is_term req <? term_of n then (({| isr_term := term_of n |}, None), n)
  else
    let n := set_leader_id (reset_election_timeout env n) (Some (is_leader_id req)) in
    (({| isr_term := term_of n |},
      Some {| act_last_included_index := last_included_index req;
              act_last_included_term := last_included_term req;
              act_offset := offset req; act_data := snapshot_bytes req; act_done := done_ req |}), n).

Definition apply_snapshot (index : LogIndex) (term : Term) (n : RaftNode) : RaftNode :=
  let n := set_log n (Log.compact index term (log n)) in
  let v := volatile n in
  set_volatile n {| commit_index := if commit_index v <? index then index else commit_index v;
                    last_applied := if last_applied v <? index then index else last_applied v |}.

Definition should_send_snapshot (follower_id : NodeId) (n : RaftNode) : bool :=
  if negb (bool_decide (state n = Leader)) then false
  else
    match leader_state n with
    | None => false
    | Some s => default 1 (next_index s !! follower_id) <? first_index (log n)
    end.

(** ** Membership *)

Definition propose_config_change (change : ConfigChange) (n : RaftNode)
    : Result RaftNodeError LogIndex * RaftNode :=
  propose (CommandConfigChange change) n.

(** [str::parse::<u32>] of a non-empty string of digits, with an optional plus sign. *)
Fixpoint parse_digits (l : list ascii) (acc : Z) : option Z :=
  match l with
  | [] => Some acc
  | c :: l' =>
      let d := Z.of_nat (nat_of_ascii c) - 48 in
      if (0 <=? d) && (d <=? 9) then
        let acc := acc * 10 + d in
        if acc <? two32 then parse_digits l' acc else None
      else None
  end.

Definition parse_u32 (s : list ascii) : option Z :=
  match s with
  | [] => None
  | c :: rest =>
      if bool_decide (c = "+"%char) then match rest with [] => None | _ => parse_digits rest 0 end
      else parse_digits s 0
  end.

(** The part of an address after its last colon, the whole address without one. *)
Fixpoint last_segment (l acc : list ascii) : list ascii :=
  match l with
  | [] => acc
  | c :: l' => if bool_decide (c = ":"%char) then last_segment l' [] else last_segment l' (acc ++ [c])
  end.

Definition extract_port (addr : string) : Z :=
  default 9779 (parse_u32 (last_segment (list_ascii_of_string addr) [])).

Definition apply_config_change (env : Env) (change : ConfigChange) (n : RaftNode) : RaftNode :=
  match change with
  | AddNode node_id addr =>
      let n := set_config n (Cluster.add_node
        {| node_info_id := node_id; node_addr := addr; port := extract_port addr |} (config n)) in
      match leader_state n with
      | Some s => set_leader_state n (Some
          {| next_index := <[node_id:=u64_add (Log.last_index (log n)) 1]> (next_index s);
             match_index := <[node_id:=0]> (match_index s) |})
      | None => n
      end
  | RemoveNode node_id =>
      let n := set_config n (Cluster.remove_node node_id (config n)) in
      let n := match leader_state n with
               | Some s => set_leader_state n (Some
                   {| next_index := delete node_id (next_index s);
                      match_index := delete node_id (match_index s) |})
               | None => n
               end in
      if (node_id =? id n) && bool_decide (state n = Leader)
      then become_follower env (term_of n) None n else n
  end.

(** ** Tick *)

(** The tail of [tick], reached when no request is to be sent. *)
Definition apply_or_none (n : RaftNode) : RaftAction * RaftNode :=
  let '(es, n) := get_entries_to_apply n in
  match es with [] => (ActionNone, n) | _ => (ApplyEntries es, n) end.

Definition tick (env : Env) (n : RaftNode) : option (RaftAction * RaftNode) :=
  match state n with
  | Follower | Candidate =>
      if election_timeout_elapsed env n then
        let '(requests, n) := become_candidate env n in Some (SendRequestVote requests, n)
      else Some (apply_or_none n)
  | Leader =>
      match generate_append_entries n with
      | None => None
      | Some [] => Some (apply_or_none n)
      | Some requests => Some (SendAppendEntries requests, n)
      end
  end.

End Node.
