(* ===== verification/RaftFacts.v ===== *)
(** * Properties of a Raft node's handlers

    Log matching after a successful AppendEntries, the majority rule of the
    leader's commit index, the exact entries handed to the state machine, and
    what a leader's tick does. *)

From Stdlib Require Import ZArith Lia Strings.String.
From stdpp Require Import base tactics list gmap sorting.
From S2P Require Import Prelude RaftLog RaftNode.

(** ** Merging entries into a follower's log *)

(** No entry of [es] disagrees with the log on the term at its index. *)
Definition no_conflict (es : list LogEntry) (l : RaftLog) : Prop :=
  forall x y, x ∈ es -> Log.get (entry_index x) l = Some y -> entry_term y = entry_term x.

Lemma no_conflict_dec es l : no_conflict es l \/ ~ no_conflict es l.
Proof.
  induction es as [|x es IH]; [left; by intros x y Hx%elem_of_nil|]. unfold no_conflict in *.
  assert (Hx : (forall y, Log.get (entry_index x) l = Some y -> entry_term y = entry_term x) \/
    exists y, Log.get (entry_index x) l = Some y /\ entry_term y <> entry_term x).
  { destruct (Log.get (entry_index x) l) as [y|]; [|left; congruence].
    destruct (decide (entry_term y = entry_term x)); [left; congruence|right; eauto]. }
  destruct Hx as [Hx|(y & Hy & Hne)]; [|right; intros Hn; apply Hne, (Hn x); [left|done]].
  destruct IH as [IH|IH]; [left|right; intros Hn; apply IH; intros z y Hz; apply Hn; by right].
  intros z y [->|Hz]%elem_of_cons; [apply Hx|by apply IH].
Qed.

Lemma truncate_conflict_cases s es l :
  consecutive s es ->
  (Node.truncate_conflict es l = l /\ no_conflict es l) \/
  exists es1 x es2 y, es = es1 ++ x :: es2 /\ no_conflict es1 l /\
    Log.get (entry_index x) l = Some y /\ entry_term y <> entry_term x /\
    Node.truncate_conflict es l = Log.truncate (entry_index x) l.
Proof.
  revert s. induction es as [|x es IH]; intros s Hc; simpl.
  { left. split; [done|]. by intros x y Hx%elem_of_nil. }
  assert (Hc' : consecutive (s + 1) es).
  { intros i e Hi. rewrite (Hc (S i) e Hi). lia. }
  assert (Hcons : (forall y, Log.get (entry_index x) l = Some y -> entry_term y = entry_term x) ->
    (Node.truncate_conflict es l = l /\ no_conflict (x :: es) l) \/
    exists es1 x0 es2 y, x :: es = es1 ++ x0 :: es2 /\ no_conflict es1 l /\
      Log.get (entry_index x0) l = Some y /\ entry_term y <> entry_term x0 /\
      Node.truncate_conflict es l = Log.truncate (entry_index x0) l).
  { intros Hx. destruct (IH _ Hc') as [[Heq Hno]|(es1 & x0 & es2 & y & -> & Hno & Hg & Ht & Heq)].
    - left. split; [done|]. intros z y [->|Hz]%elem_of_cons; [apply Hx|by apply Hno].
    - right. exists (x :: es1), x0, es2, y. repeat split; try done.
      intros z y' [->|Hz]%elem_of_cons; [apply Hx|by apply Hno]. }
  destruct (Log.get (entry_index x) l) as [y|] eqn:E; [|apply Hcons; congruence].
  destruct (Z.eqb_spec (entry_term y) (entry_term x)) as [Ht|Ht]; simpl; [apply Hcons; congruence|].
  right. exists [], x, es, y. repeat split; try done. by intros z y' Hz%elem_of_nil.
Qed.

(** Of consecutive entries, those past [b] are a suffix. *)
Lemma filter_after p es b :
  consecutive (p + 1) es -> p <= b ->
  List.filter (fun e => b <? entry_index e) es = drop (Z.to_nat (b - p)) es.
Proof.
  revert p. induction es as [|x es IH]; intros p Hc Hb; simpl; [by rewrite drop_nil|].
  assert (Hx : entry_index x = p + 1) by (rewrite (Hc O x eq_refl); lia).
  assert (Hc' : consecutive (p + 1 + 1) es) by (intros i e Hi; rewrite (Hc (S i) e Hi); lia).
  destruct (Z.ltb_spec b (entry_index x)) as [Hlt|Hge].
  - replace (Z.to_nat (b - p)) with O by lia. simpl. f_equal.
    apply filter_all. intros e He. apply Z.ltb_lt.
    apply list_elem_of_lookup_1 in He as [i Hi]. rewrite (Hc' _ _ Hi). lia.
  - rewrite (IH (p + 1)) by (done || lia).
    replace (Z.to_nat (b - p)) with (S (Z.to_nat (b - (p + 1)))) by lia. done.
Qed.

(** Appending the part of [es] that is past the log's end. *)
Lemma append_rest_view p es l :
  log_wf l -> consecutive (p + 1) es -> 0 <= p <= Log.last_index l ->
  p + Z.of_nat (length es) + 1 < two64 ->
  let l' := Log.append (List.filter (fun e => Log.last_index l <? entry_index e) es) l in
  log_wf l' /\
  forall j, Log.get j l' = if j <=? Log.last_index l then Log.get j l else es !! Z.to_nat (j - p - 1).
Proof.
  intros Hwf Hc Hp Hlt. pose proof (last_index_wf l Hwf) as HL. pose proof Hwf as (H1 & H2 & H3).
  simpl. rewrite (filter_after p) by (done || lia). unfold Log.append.
  set (d := Z.to_nat (Log.last_index l - p)).
  assert (Hwf' : log_wf (Log.with_entries l (entries l ++ drop d es))).
  { split; [done|]. simpl. rewrite length_app, length_drop. split; [lia|].
    apply consecutive_app; [done|].
    replace (first_index l + Z.of_nat (length (entries l))) with (p + 1 + Z.of_nat d) by lia.
    by apply consecutive_drop. }
  split; [done|]. intros j. rewrite !log_get_lookup by done. simpl.
  destruct (Z.leb_spec j (Log.last_index l)), (Z.leb_spec (first_index l) j); try lia; try done.
  - by rewrite lookup_app_l by lia.
  - rewrite lookup_app_r by lia. rewrite lookup_drop. f_equal. lia.
Qed.

(** The entry that consecutive entries [es] after index [p] carry at [j]. *)
Definition sent (p : LogIndex) (es : list LogEntry) (j : LogIndex) : option LogEntry :=
  if p <? j then es !! Z.to_nat (j - p - 1) else None.

(** The entries of [es] up to index [j]. *)
Definition up_to (j : LogIndex) (es : list LogEntry) : list LogEntry := List.filter (fun x => entry_index x <=? j) es.

Lemma elem_of_up_to j es x : x ∈ up_to j es <-> x ∈ es /\ entry_index x <= j.
Proof. unfold up_to. rewrite !list_elem_of_In, filter_In, Z.leb_le. done. Qed.

Lemma sent_elem p es e : consecutive (p + 1) es -> e ∈ es -> p < entry_index e /\ sent p es (entry_index e) = Some e.
Proof.
  intros Hc [i Hi]%list_elem_of_lookup_1. pose proof (Hc _ _ Hi) as He. split; [lia|]. unfold sent.
  rewrite (proj2 (Z.ltb_lt _ _)) by lia. rewrite <- Hi. f_equal. lia.
Qed.

(** Merging keeps the log's entries as long as the new ones do not contradict it;
    from the first contradiction on, and past the end, the new entries count. *)
Lemma merge_entries_view p es l :
  log_wf l -> consecutive (p + 1) es -> 0 <= p <= Log.last_index l ->
  p + Z.of_nat (length es) + 1 < two64 ->
  log_wf (Node.merge_entries es l) /\
  forall j, first_index l <= j ->
    (no_conflict (up_to j es) l -> Log.get j (Node.merge_entries es l) =
       match Log.get j l with Some e => Some e | None => sent p es j end) /\
    (~ no_conflict (up_to j es) l -> Log.get j (Node.merge_entries es l) = sent p es j).
Proof.
  intros Hwf Hc Hp Hlt. unfold Node.merge_entries.
  assert (Hin : forall j e, Log.get j l = Some e -> first_index l <= j <= Log.last_index l).
  { intros j e Hj. apply log_get_some; [done|by eexists]. }
  destruct (truncate_conflict_cases _ es l Hc) as [[-> Hno]|(es1 & x & es2 & y & Hes & Hno & Hg & Ht & ->)].
  - destruct (append_rest_view p es l Hwf Hc Hp Hlt) as [Hwf' Hget]. split; [done|]. intros j Hj. split.
    + intros _. rewrite Hget. destruct (Log.get j l) as [e|] eqn:E; [by rewrite (proj2 (Z.leb_le _ _)) by (apply Hin in E; lia)|].
      destruct (Z.leb_spec j (Log.last_index l)) as [Hle|Hgt]; [|unfold sent; by rewrite (proj2 (Z.ltb_lt _ _)) by lia].
      destruct (proj2 (log_get_some l j Hwf)) as [z Hz]; [done|congruence].
    + intros []. intros e z [He _]%elem_of_up_to. by apply Hno.
  - destruct (truncate_view l (entry_index x) Hwf) as (Hwft & HLt & Hgett).
    destruct (sent_elem p es x Hc) as [Hpx _]; [rewrite Hes; set_solver|]. pose proof (Hin _ _ Hg) as Hxr.
    destruct (append_rest_view p es (Log.truncate (entry_index x) l)) as [Hwf' Hget]; [done|done|lia|done|].
    split; [done|]. replace (Log.last_index (Log.truncate (entry_index x) l)) with (entry_index x - 1) in * by lia.
    assert (Hes1 : forall e, e ∈ es -> entry_index e < entry_index x -> e ∈ es1).
    { intros e [i Hi]%list_elem_of_lookup_1 He. pose proof (Hc _ _ Hi).
      assert (entry_index x = p + 1 + Z.of_nat (length es1)) by (apply Hc; rewrite Hes; by apply list_lookup_middle).
      rewrite Hes, lookup_app_l in Hi by lia. by eapply list_elem_of_lookup_2. }
    intros j Hj. rewrite Hget, Hgett. destruct (Z.leb_spec j (entry_index x - 1)) as [Hlej|Hgtj]; split.
    + intros _. rewrite (proj2 (Z.ltb_lt _ _)) by lia.
      destruct (proj2 (log_get_some l j Hwf)) as [z ->]; [lia|done].
    + intros []. intros e z [He Hle]%elem_of_up_to. apply Hno, Hes1; [done|lia].
    + intros Hnc. destruct Ht. apply (Hnc x); [|done]. apply elem_of_up_to. split; [rewrite Hes; set_solver|lia].
    + intros _. unfold sent. by rewrite (proj2 (Z.ltb_lt _ _)) by lia.
Qed.

(** ** AppendEntries on a follower *)

(** A request a leader builds: entries numbered from [prev_log_index + 1] on. *)
Definition request_wf (req : AppendEntriesRequest) : Prop :=
  0 <= prev_log_index req /\ consecutive (prev_log_index req + 1) (ae_entries req) /\
  prev_log_index req + Z.of_nat (length (ae_entries req)) + 1 < two64.

(** The state in which the log part of the handler runs. *)
Lemma handle_append_entries_cases env req n :
  exists n0, log n0 = log n /\ volatile n0 = volatile n /\
  let '(resp, n') := Node.handle_append_entries env req n in
  (success resp = false /\ n' = n0) \/
  (exists l, success resp = false /\ Node.check_prev req (log n) = Some l /\ n' = set_log n0 l) \/
  (success resp = true /\ Node.check_prev req (log n) = None /\
   aer_match_index resp = Log.last_index (log n') /\ aer_term resp = ae_term req /\
   log n' = match ae_entries req with [] => log n | es => Node.merge_entries es (log n) end /\
   volatile n' = if commit_index (volatile n) <? leader_commit req
     then {| commit_index := Z.min (leader_commit req) (Log.last_index (log n'));
             last_applied := last_applied (volatile n) |}
     else volatile n).
Proof.
  unfold Node.handle_append_entries.
  set (n1 := if term_of n <? ae_term req then _ else n).
  assert (H1 : log n1 = log n /\ volatile n1 = volatile n /\ ae_term req <= term_of n1)
    by (unfold n1; destruct (Z.ltb_spec (term_of n) (ae_term req)); simpl; repeat split; lia).
  clearbody n1. destruct H1 as (H1l & H1v & H1t).
  destruct (Z.ltb_spec (ae_term req) (term_of n1)) as [Hlt|Hge].
  { exists n1. repeat split; try done. by left. }
  set (n2 := if bool_decide _ then _ else _).
  assert (H2 : log n2 = log n /\ volatile n2 = volatile n /\ term_of n2 = ae_term req)
    by (unfold n2; case_bool_decide; simpl; repeat split; (done || lia)).
  clearbody n2. destruct H2 as (H2l & H2v & H2t). exists n2. repeat split; try done. rewrite H2l.
  destruct (Node.check_prev req (log n)) as [l|]; [right; left; by exists l|]. right; right.
  set (n3 := match ae_entries req with [] => n2 | _ => _ end).
  assert (H3 : log n3 = match ae_entries req with [] => log n | es => Node.merge_entries es (log n) end /\
    volatile n3 = volatile n /\ term_of n3 = ae_term req)
    by (unfold n3; destruct (ae_entries req); simpl; rewrite ?H2l; done).
  clearbody n3. destruct H3 as (<- & H3v & H3t). rewrite H3v.
  destruct (commit_index (volatile n) <? leader_commit req); simpl; repeat split; try done.
  by rewrite H3v.
Qed.

Lemma check_prev_none req l :
  log_wf l -> 0 <= prev_log_index req -> Node.check_prev req l = None ->
  prev_log_index req <= Log.last_index l /\
  (0 < prev_log_index req -> Log.term (prev_log_index req) l = Some (prev_log_term req)).
Proof.
  intros Hwf Hp. pose proof (last_index_wf l Hwf) as HL. pose proof Hwf as (H1 & _ & _). unfold Node.check_prev.
  destruct (Z.ltb_spec 0 (prev_log_index req)); [|split; lia].
  destruct (Log.term (prev_log_index req) l) as [t|] eqn:Et; [|done].
  destruct (Z.eqb_spec t (prev_log_term req)) as [->|]; [|done]. intros _. split; [|done].
  destruct (decide (prev_log_index req < first_index l)); [lia|].
  rewrite term_get in Et by (done || lia). destruct (Log.get (prev_log_index req) l) eqn:Eg; [|done].
  assert (is_Some (Log.get (prev_log_index req) l)) as Hs by by eexists.
  apply log_get_some in Hs; [lia|done].
Qed.

Lemma check_prev_some req l l' : log_wf l -> Node.check_prev req l = Some l' -> log_wf l'.
Proof.
  intros Hwf. unfold Node.check_prev. repeat case_match; intros [= <-]; [|done]. by apply truncate_view.
Qed.

(** C11: handling AppendEntries keeps the follower's log well formed. When the
    reply is a success, the log agreed with the leader's term at [prev_log_index]
    (unless that is 0), and from its first index on the new log is exactly this: up
    to the first entry of the request whose term contradicts the log, the follower's
    own entries, continued by those of the request; from that entry on, the entries
    of the request, commands included, and nothing else. So a delayed or repeated
    request undoes nothing; and if an entry of the log that agrees with one of the
    request on index and term is that entry, the new log holds every entry of the
    request that is not compacted away. *)
Theorem append_entries_log_matching env req n :
  log_wf (log n) -> request_wf req ->
  let '(resp, n') := Node.handle_append_entries env req n in
  log_wf (log n') /\
  (success resp = true ->
   (0 < prev_log_index req -> Log.term (prev_log_index req) (log n) = Some (prev_log_term req)) /\
   (forall j, first_index (log n) <= j ->
     (no_conflict (up_to j (ae_entries req)) (log n) -> Log.get j (log n') =
        match Log.get j (log n) with Some e => Some e | None => sent (prev_log_index req) (ae_entries req) j end) /\
     (~ no_conflict (up_to j (ae_entries req)) (log n) -> Log.get j (log n') =
        sent (prev_log_index req) (ae_entries req) j)) /\
   ((forall e y, e ∈ ae_entries req -> Log.get (entry_index e) (log n) = Some y -> entry_term y = entry_term e -> y = e) ->
    forall e, e ∈ ae_entries req -> first_index (log n) <= entry_index e -> Log.get (entry_index e) (log n') = Some e)).
Proof.
  intros Hwf (Hp & Hc & Hlt). destruct (handle_append_entries_cases env req n) as (n0 & Hl0 & _ & H).
  destruct (Node.handle_append_entries env req n) as [resp n'].
  destruct H as [[Hs ->]|[(l & Hs & Hck & ->)|(Hs & Hck & _ & _ & Hl & _)]].
  - rewrite Hl0, Hs. done.
  - rewrite Hs. split; [|done]. simpl. by eapply check_prev_some.
  - destruct (check_prev_none req (log n) Hwf Hp Hck) as [Hpl Hpt].
    assert (Hl' : log n' = Node.merge_entries (ae_entries req) (log n)).
    { rewrite Hl. destruct (ae_entries req); [|done]. unfold Node.merge_entries. simpl. unfold Log.append, Log.with_entries.
      rewrite app_nil_r. by destruct (log n). }
    rewrite Hl'. destruct (merge_entries_view (prev_log_index req) (ae_entries req) (log n)) as [Hw Hm]; [done..|].
    split; [done|]. intros _. split_and!; [done|done|]. intros Hsame e He Hf. destruct (Hm _ Hf) as [Hkeep Hnew].
    destruct (sent_elem _ _ _ Hc He) as [_ Hse]. destruct (no_conflict_dec (up_to (entry_index e) (ae_entries req)) (log n)) as [Hn|Hn].
    + rewrite Hkeep by done. destruct (Log.get (entry_index e) (log n)) as [y|] eqn:Ey; [|done]. f_equal.
      apply Hsame; [done|done|]. apply (Hn e); [|done]. apply elem_of_up_to. split; [done|lia].
    + by rewrite Hnew.
Qed.

(** A follower at term 2 whose log has terms 1, 1, 2 at indices 1 to 3. *)
Definition follower_example : RaftNode :=
  set_log (Node.become_follower {| now := 0; timeout := 150 |} 2 None
    (Node.new {| now := 0; timeout := 150 |} 2 1 1 Cluster.new RaftConfig_default))
    {| entries := [{| entry_term := 1; entry_index := 1; command := Noop |};
                   {| entry_term := 1; entry_index := 2; command := Noop |};
                   {| entry_term := 2; entry_index := 3; command := Noop |}];
       first_index := 1; snapshot_term := 0 |}.

Definition append_example : AppendEntriesRequest :=
  {| ae_term := 3; ae_leader_id := 1; prev_log_index := 1; prev_log_term := 1;
     ae_entries := [{| entry_term := 1; entry_index := 2; command := Noop |};
                    {| entry_term := 3; entry_index := 3; command := Noop |}];
     leader_commit := 0 |}.

Lemma consecutive_check s es :
  forallb (fun ie => entry_index ie.2 =? s + Z.of_nat ie.1) (combine (seq 0 (length es)) es) = true ->
  consecutive s es.
Proof.
  intros H i e Hi. rewrite forallb_forall in H.
  assert (Hg : forall b i e, es !! i = Some e -> (b + i, e)%nat ∈ combine (seq b (length es)) es).
  { clear. induction es as [|x es IH]; intros b [|i] e; simpl; try done.
    - intros [= ->]. rewrite Nat.add_0_r. left.
    - intros Hi. right. rewrite <- Nat.add_succ_comm. by apply IH. }
  specialize (H (i, e)). simpl in H. apply Z.eqb_eq, H, list_elem_of_In. by apply (Hg O).
Qed.

Lemma append_entries_log_matching_witness :
  let '(resp, n') := Node.handle_append_entries {| now := 0; timeout := 150 |} append_example follower_example in
  success resp = true /\ log_wf (log n') /\
  (forall e, e ∈ ae_entries append_example -> Log.get (entry_index e) (log n') = Some e) /\
  Log.get 3 (log n') <> Log.get 3 (log follower_example).
Proof.
  pose proof (append_entries_log_matching {| now := 0; timeout := 150 |} append_example follower_example) as H.
  assert (Hs : success (Node.handle_append_entries {| now := 0; timeout := 150 |} append_example follower_example).1 = true)
    by reflexivity.
  destruct (Node.handle_append_entries {| now := 0; timeout := 150 |} append_example follower_example) as [resp n'] eqn:E.
  destruct H as [Hwf H].
  - split; [simpl; lia|]. split; [reflexivity|]. by apply consecutive_check.
  - split; [simpl; lia|]. split; [by apply consecutive_check|reflexivity].
  - destruct (H Hs) as (_ & _ & Hm). split; [exact Hs|]. split; [exact Hwf|].
    assert (He : forall e, e ∈ ae_entries append_example -> Log.get (entry_index e) (log n') = Some e).
    { intros e He. apply Hm; [|done|].
      - intros x y [->|[->|Hx%elem_of_nil]%elem_of_cons]%elem_of_cons; [..|done];
          intros Hy; vm_compute in Hy; injection Hy as <-; vm_compute; congruence.
      - assert (first_index (log follower_example) = 1) as -> by reflexivity.
        apply elem_of_cons in He as [->|[->|He%elem_of_nil]%elem_of_cons]; [simpl; lia..|done]. }
    split; [exact He|].
    assert (E3 : Log.get 3 (log n') = Some {| entry_term := 3; entry_index := 3; command := Noop |})
      by exact (He _ (list_elem_of_further _ _ _ (list_elem_of_here _ _))).
    rewrite E3. vm_compute. congruence.
Defined.

(** ** The leader's commit index *)

(** How many of [l] are at least [k]. *)
Definition count_ge (k : Z) (l : list Z) : nat := length (List.filter (fun x => k <=? x) l).

Lemma count_ge_perm k l1 l2 : l1 ≡ₚ l2 -> count_ge k l1 = count_ge k l2.
Proof.
  unfold count_ge. induction 1 as [|x l1 l2 _ IH|x y l|l1 l2 l3 _ IH1 _ IH2]; simpl; [done| | |congruence].
  - destruct (k <=? x); simpl; congruence.
  - by destruct (k <=? x), (k <=? y).
Qed.

Lemma count_ge_app k l1 l2 : count_ge k (l1 ++ l2) = (count_ge k l1 + count_ge k l2)%nat.
Proof. unfold count_ge. by rewrite List.filter_app, length_app. Qed.

(** In a sorted list the [m]-th largest value is the greatest that [m] values reach. *)
Lemma sorted_mth_largest l i x :
  StronglySorted Z.le l -> l !! i = Some x ->
  (length l - i <= count_ge x l)%nat /\ forall k, (length l - i <= count_ge k l)%nat -> k <= x.
Proof.
  intros Hs Hi. pose proof (lookup_lt_Some _ _ _ Hi) as Hlt.
  rewrite <- (take_drop_middle l i x Hi) in Hs |- *.
  assert (Hlen : length (take i l) = i) by (rewrite length_take; lia).
  apply StronglySorted_app in Hs as (Hb & _ & Ha). rewrite length_app, Hlen.
  inversion Ha as [|? ? _ Hge]; subst. rewrite Forall_forall in Hge. split.
  - rewrite count_ge_app. unfold count_ge at 2. rewrite filter_all; [lia|].
    intros y [->|Hy]%elem_of_cons; [lia|]. apply Z.leb_le, Hge, Hy.
  - intros k. rewrite count_ge_app. intros Hk. destruct (Z.le_gt_cases k x) as [|Hgt]; [done|].
    assert (Hz : count_ge k (take i l) = O).
    { unfold count_ge. destruct (List.filter _ (take i l)) as [|y r] eqn:E; [done|].
      assert (Hy : In y (List.filter (fun z => k <=? z) (take i l))) by (rewrite E; by left).
      apply filter_In in Hy as [Hy%list_elem_of_In Hky%Z.leb_le].
      assert (y <= x) by (apply Hb; [done|left]). lia. }
    rewrite Hz in Hk. unfold count_ge in Hk. simpl in Hk.
    destruct (Z.leb_spec k x); [lia|].
    pose proof (List.filter_length_le (fun z => k <=? z) (drop (S i) l)). lia.
Qed.

(** The indices a majority is counted over. *)
Definition replicated (n : RaftNode) (s : LeaderState) : list Z :=
  (map_to_list (match_index s)).*2 ++ [Log.last_index (log n)].

(** C15: the leader's commit step does not panic when it tracks enough voters. It
    changes nothing but the commit index, never lowers it, and moves it exactly
    to the greatest index that a majority is recorded to have reached, provided the
    entry there is of the current term. Counted are the match indices the leader has
    recorded from the replies, and its own last index; what the followers store is
    not part of the statement. *)
Theorem commit_index_majority n s :
  leader_state n = Some s -> (Cluster.majority (config n) <= S (size (match_index s)))%nat ->
  exists m, (Cluster.majority (config n) <= count_ge m (replicated n s))%nat /\
    (forall k, (Cluster.majority (config n) <= count_ge k (replicated n s))%nat -> k <= m) /\
    Node.try_advance_commit_index n =
      Some (if (commit_index (volatile n) <? m) && bool_decide (Log.term m (log n) = Some (term_of n))
            then set_commit_index n m else n).
Proof.
  intros Hs Hmaj. unfold Node.try_advance_commit_index. rewrite Hs.
  unfold Node.sorted_match_indices. fold (replicated n s).
  pose proof (merge_sort_Permutation Z.le (replicated n s)) as Hperm.
  pose proof (StronglySorted_merge_sort Z.le (replicated n s)) as Hsorted.
  set (ms := merge_sort Z.le (replicated n s)) in *.
  assert (Hlen : length ms = S (size (match_index s))).
  { rewrite Hperm. unfold replicated. rewrite length_app, length_fmap, length_map_to_list. simpl. lia. }
  destruct (Nat.ltb_spec (length ms) (Cluster.majority (config n))); [lia|].
  assert (Hpos : (0 < Cluster.majority (config n))%nat) by (unfold Cluster.majority; lia).
  destruct (lookup_lt_is_Some_2 ms (length ms - Cluster.majority (config n))) as [m Hm]; [lia|].
  rewrite Hm. apply sorted_mth_largest in Hm as [Hm1 Hm2]; [|done].
  exists m. rewrite <- (count_ge_perm m _ _ Hperm). split; [lia|]. split.
  { intros k Hk. apply Hm2. rewrite (count_ge_perm k _ _ Hperm). lia. }
  destruct (commit_index (volatile n) <? m); simpl; [|done].
  destruct (Log.term m (log n)) as [t|]; [|by rewrite bool_decide_eq_false_2].
  destruct (Z.eqb_spec t (term_of n)) as [->|Hne]; [by rewrite bool_decide_eq_true_2|].
  rewrite bool_decide_eq_false_2; [done|congruence].
Qed.

Definition three_voters : ClusterConfig :=
  Cluster.add_node {| node_info_id := 3; node_addr := "c"; port := 3 |}
    (Cluster.add_node {| node_info_id := 2; node_addr := "b"; port := 2 |}
      (Cluster.add_node {| node_info_id := 1; node_addr := "a"; port := 1 |} Cluster.new)).

Definition env0 : Env := {| now := 0; timeout := 150 |}.

(** A fresh leader of three voters, in term 1, with its no-op at index 1. *)
Definition leader_example : RaftNode :=
  let '(_, n) := Node.become_candidate env0 (Node.new env0 1 1 1 three_voters RaftConfig_default) in
  (Node.handle_request_vote_response env0 2 {| rvr_term := 1; vote_granted := true |} n).2.

Lemma commit_index_majority_witness :
  let n := set_leader_state leader_example
    (Some {| next_index := {[2 := 2; 3 := 1]}; match_index := {[2 := 1; 3 := 0]} |}) in
  let s := {| next_index := {[2 := 2; 3 := 1]}; match_index := {[2 := 1; 3 := 0]} |} in
  (commit_index (volatile n) = 0 /\
   (commit_index ∘ volatile) <$> Node.try_advance_commit_index n = Some 1) /\
  exists m, (Cluster.majority (config n) <= count_ge m (replicated n s))%nat /\
    (forall k, (Cluster.majority (config n) <= count_ge k (replicated n s))%nat -> k <= m) /\
    Node.try_advance_commit_index n =
      Some (if (commit_index (volatile n) <? m) && bool_decide (Log.term m (log n) = Some (term_of n))
            then set_commit_index n m else n).
Proof.
  split; [split; reflexivity|].
  apply (commit_index_majority (set_leader_state leader_example
    (Some {| next_index := {[2 := 2; 3 := 1]}; match_index := {[2 := 1; 3 := 0]} |}))
    {| next_index := {[2 := 2; 3 := 1]}; match_index := {[2 := 1; 3 := 0]} |}).
  - reflexivity.
  - vm_compute. lia.
Defined.

(** ** Applying committed entries *)

Lemma apply_loop_spec fuel l a c out :
  log_wf l -> first_index l - 1 <= a <= c -> c <= Log.last_index l -> Z.to_nat (c - a) = fuel ->
  exists es, Node.apply_loop fuel l a c out = (out ++ es, c) /\ length es = fuel /\
    forall i, (i < fuel)%nat -> es !! i = Log.get (a + 1 + Z.of_nat i) l.
Proof.
  intros Hwf. revert a out. induction fuel as [|fuel IH]; intros a out Ha Hc Hf; simpl.
  { exists []. rewrite app_nil_r. replace c with a by lia. repeat split. lia. }
  destruct (Z.ltb_spec a c); [|lia].
  destruct (proj2 (log_get_some l (a + 1) Hwf)) as [e He]; [lia|]. rewrite He.
  destruct (IH (a + 1) (out ++ [e])) as (es & -> & Hlen & Hes); [lia|lia|lia|].
  exists (e :: es). rewrite <- app_assoc. split; [done|]. split; [simpl; lia|].
  intros [|i] Hi; simpl; [rewrite <- He; f_equal; lia|]. rewrite Hes by lia. f_equal. lia.
Qed.

(** Taking the entries to apply returns every committed entry not yet
    applied, in index order and without a gap, and marks them applied. *)
Theorem entries_to_apply_exact n :
  log_wf (log n) -> first_index (log n) - 1 <= last_applied (volatile n) <= commit_index (volatile n) ->
  commit_index (volatile n) <= Log.last_index (log n) ->
  let '(es, n') := Node.get_entries_to_apply n in
  last_applied (volatile n') = commit_index (volatile n) /\
  commit_index (volatile n') = commit_index (volatile n) /\ log n' = log n /\
  length es = Z.to_nat (commit_index (volatile n) - last_applied (volatile n)) /\
  forall i, (i < length es)%nat -> es !! i = Log.get (last_applied (volatile n) + 1 + Z.of_nat i) (log n).
Proof.
  intros Hwf Ha Hc. unfold Node.get_entries_to_apply.
  destruct (apply_loop_spec (Z.to_nat (commit_index (volatile n) - last_applied (volatile n))) (log n)
    (last_applied (volatile n)) (commit_index (volatile n)) []) as (es & -> & Hlen & Hes); [done..|].
  simpl. rewrite Hlen. repeat split. done.
Qed.

Lemma entries_to_apply_exact_witness :
  let n := set_volatile follower_example {| commit_index := 3; last_applied := 1 |} in
  length (Node.get_entries_to_apply n).1 = 2%nat /\
  let '(es, n') := Node.get_entries_to_apply n in
  last_applied (volatile n') = commit_index (volatile n) /\
  commit_index (volatile n') = commit_index (volatile n) /\ log n' = log n /\
  length es = Z.to_nat (commit_index (volatile n) - last_applied (volatile n)) /\
  forall i, (i < length es)%nat -> es !! i = Log.get (last_applied (volatile n) + 1 + Z.of_nat i) (log n).
Proof.
  split; [reflexivity|].
  apply (entries_to_apply_exact (set_volatile follower_example {| commit_index := 3; last_applied := 1 |})).
  - split; [simpl; lia|]. split; [reflexivity|]. by apply consecutive_check.
  - simpl. lia.
  - vm_compute. congruence.
Defined.

(** ** The leader's tick *)

Lemma append_requests_nonempty n s vs reqs :
  Node.append_requests n s vs = Some reqs -> (exists v, v ∈ vs /\ v <> id n) -> reqs <> [].
Proof.
  revert reqs. induction vs as [|v vs IH]; intros reqs; simpl.
  { intros _ (v & Hv%elem_of_nil & _). done. }
  destruct (Z.eqb_spec v (id n)) as [->|Hne].
  - intros H (w & [->|Hw]%elem_of_cons & Hn); [done|]. apply IH; [done|]. by exists w.
  - destruct (Node.append_request n s v); [|done].
    destruct (Node.append_requests n s vs); simpl; [|done]. by intros [= <-] _.
Qed.

(** A leader that has another voter never applies an entry: its tick sends
    requests (or panics) and leaves the node as it was, so [last_applied] stays
    behind however far the commit index advances. *)
Theorem leader_tick_never_applies env n s :
  state n = Leader -> leader_state n = Some s -> (exists v, v ∈ voters (config n) /\ v <> id n) ->
  forall a n', Node.tick env n = Some (a, n') ->
  n' = n /\ exists requests, a = SendAppendEntries requests.
Proof.
  intros Hst Hs Hv a n'. unfold Node.tick, Node.generate_append_entries. rewrite Hst, Hs.
  rewrite bool_decide_eq_true_2 by done. simpl.
  destruct (Node.append_requests n s (voters (config n))) as [[|r reqs]|] eqn:E; [|intros [= <- <-]; eauto|done].
  by apply append_requests_nonempty in E.
Qed.

Lemma leader_tick_never_applies_witness :
  let n := set_commit_index leader_example 1 in
  last_applied (volatile n) = 0 /\
  exists a n', Node.tick env0 n = Some (a, n') /\ n' = n /\ exists requests, a = SendAppendEntries requests.
Proof.
  split; [reflexivity|]. eexists _, _. split; [reflexivity|].
  eapply (leader_tick_never_applies env0 (set_commit_index leader_example 1)); [reflexivity|reflexivity| |reflexivity].
  exists 2. split; [|vm_compute; congruence]. right. left.
Defined.

(** A leader that has compacted its log past what a follower still needs, by
    more than one request's worth of entries, panics when it builds the request
    for that follower instead of falling back to a snapshot, although
    [should_send_snapshot] says a snapshot is due. *)
Theorem compacted_follower_panics env n s v :
  state n = Leader -> leader_state n = Some s -> log_wf (log n) ->
  v ∈ voters (config n) -> v <> id n ->
  let next := default 1 (next_index s !! v) in
  0 <= next -> 0 < max_entries_per_request (raft_config n) ->
  next + max_entries_per_request (raft_config n) < first_index (log n) ->
  Node.should_send_snapshot v n = true /\ Node.tick env n = None.
Proof.
  intros Hst Hs Hwf Hv Hne next Hn Hm Hlt. unfold Node.should_send_snapshot, Node.tick, Node.generate_append_entries.
  rewrite Hst, Hs. rewrite !bool_decide_eq_true_2 by done. simpl. fold next.
  split; [apply Z.ltb_lt; lia|].
  assert (Hreq : Node.append_request n s v = None).
  { unfold Node.append_request. fold next. destruct Hwf as (H1 & H2 & H3) eqn:Ew.
    rewrite u64_add_id by (unfold_int; lia). by rewrite entries_range_compacted by (done || lia). }
  assert (Node.append_requests n s (voters (config n)) = None) as ->; [|done].
  clear -Hv Hne Hreq. induction (voters (config n)) as [|w vs IH]; simpl; [by apply elem_of_nil in Hv|].
  apply elem_of_cons in Hv as [<-|Hv].
  - destruct (Z.eqb_spec v (id n)); [done|]. by rewrite Hreq.
  - rewrite IH by done. by repeat case_match.
Qed.

Lemma compacted_follower_panics_witness :
  let n := set_log leader_example (Log.compact 200 1 (log leader_example)) in
  Node.should_send_snapshot 2 n = true /\ Node.tick env0 n = None.
Proof.
  eapply (compacted_follower_panics env0 (set_log leader_example (Log.compact 200 1 (log leader_example))) _ 2).
  - reflexivity.
  - reflexivity.
  - apply compact_view; [|reflexivity]. split; [vm_compute; congruence|]. split; [reflexivity|]. by apply consecutive_check.
  - right. left.
  - vm_compute. congruence.
  - vm_compute. congruence.
  - reflexivity.
  - reflexivity.
Defined.
