(* ===== verification/RaftGroup.v ===== *)
(** * Raft groups of a storage node and the driver

    [byoridb-storage/src/raft/mod.rs]: [RaftGroupManager], the map from
    partitions to Raft nodes on one storage node; and the message loop of
    [raft/driver.rs], as an executable transition system over the nodes of one
    partition's group: ticks put requests on the network, the network delivers
    any message it has carried, at any time and any number of times. *)

From Stdlib Require Import ZArith Lia Strings.String.
From stdpp Require Import base tactics list gmap strings pretty relations.
From S2P Require Import Prelude RaftLog RaftNode.

(** ** The group manager *)

Inductive RaftError :=
| GroupNotFound (space_id part_id : Z)
| ErrNotLeader (leader_hint : string)
| LogCompacted
| ErrStorage (msg : string).

Record RaftGroupManager := {
  node_id : NodeId;
  groups : gmap (Z * Z) RaftNode;
  default_config : ClusterConfig;
  manager_raft_config : RaftConfig
}.

Module Manager.

Definition with_groups (m : RaftGroupManager) (g : gmap (Z * Z) RaftNode) : RaftGroupManager :=
  {| node_id := node_id m; groups := g; default_config := default_config m;
     manager_raft_config := manager_raft_config m |}.

Definition new (node_id : NodeId) (config : ClusterConfig) : RaftGroupManager :=
  {| node_id := node_id; groups := ∅; default_config := config;
     manager_raft_config := RaftConfig_default |}.

Definition with_config (node_id : NodeId) (config : ClusterConfig) (raft_config : RaftConfig)
    : RaftGroupManager :=
  {| node_id := node_id; groups := ∅; default_config := config; manager_raft_config := raft_config |}.

Definition get_or_create_group (env : Env) (space part : Z) (m : RaftGroupManager)
    : RaftNode * RaftGroupManager :=
  match groups m !! (space, part) with
  | Some group => (group, m)
  | None =>
      let node := Node.new env (node_id m) space part (default_config m) (manager_raft_config m) in
      (node, with_groups m (<[(space, part):=node]> (groups m)))
  end.

Definition get_group (space part : Z) (m : RaftGroupManager) : option RaftNode :=
  groups m !! (space, part).

Definition remove_group (space part : Z) (m : RaftGroupManager) : option RaftNode * RaftGroupManager :=
  (groups m !! (space, part), with_groups m (delete (space, part) (groups m))).

(** [RaftNodeError::to_string]. *)
Definition node_error_string (e : RaftNodeError) : string :=
  match e with
  | NotLeader leader =>
      ("Not the leader (leader is " +:+
       match leader with Some i => "Some(" +:+ pretty i +:+ ")" | None => "None" end +:+ ")")%string
  | ProposalFailed msg => ("Proposal failed: " +:+ msg)%string
  end.

(** Run a proposal on the group of a partition. *)
Definition on_group (space part : Z) (m : RaftGroupManager)
    (f : RaftNode -> Result RaftNodeError LogIndex * RaftNode)
    : Result RaftError LogIndex * RaftGroupManager :=
  match get_group space part m with
  | None => (Err (GroupNotFound space part), m)
  | Some node =>
      let '(r, node') := f node in
      (match r with Ok i => Ok i | Err e => Err (ErrNotLeader (node_error_string e)) end,
       with_groups m (<[(space, part):=node']> (groups m)))
  end.

Definition propose (space part : Z) (c : Command) (m : RaftGroupManager) :=
  on_group space part m (Node.propose c).

Definition propose_add_node (space part : Z) (node_id : NodeId) (addr : string) (m : RaftGroupManager) :=
  on_group space part m (Node.propose_config_change (AddNode node_id addr)).

Definition propose_remove_node (space part : Z) (node_id : NodeId) (m : RaftGroupManager) :=
  on_group space part m (Node.propose_config_change (RemoveNode node_id)).

Definition is_leader (space part : Z) (m : RaftGroupManager) : bool :=
  match get_group space part m with Some node => Node.is_leader node | None => false end.

Definition get_leader (space part : Z) (m : RaftGroupManager) : option NodeId :=
  match get_group space part m with Some node => leader_id node | None => None end.

(** Run an RPC handler on the group of a partition, created on first use. *)
Definition serve {R} (env : Env) (space part : Z) (m : RaftGroupManager) (f : RaftNode -> R * RaftNode)
    : Result RaftError R * RaftGroupManager :=
  let '(node, m) := get_or_create_group env space part m in
  let '(r, node') := f node in
  (Ok r, with_groups m (<[(space, part):=node']> (groups m))).

Definition handle_request_vote (env : Env) (space part : Z) (req : RequestVoteRequest)
    (m : RaftGroupManager) := serve env space part m (Node.handle_request_vote env req).

Definition handle_append_entries (env : Env) (space part : Z) (req : AppendEntriesRequest)
    (m : RaftGroupManager) := serve env space part m (Node.handle_append_entries env req).

Definition handle_install_snapshot (env : Env) (space part : Z) (req : InstallSnapshotRequest)
    (m : RaftGroupManager) := serve env space part m (Node.handle_install_snapshot env req).

(** The loop of [tick_all] over the groups, in the order the map gives them;
    [None] when a tick panics. *)
Fixpoint tick_groups (env : Env) (gs : list ((Z * Z) * RaftNode)) (m : RaftGroupManager)
    : option (list ((Z * Z) * RaftAction) * RaftGroupManager) :=
  match gs with
  | [] => Some ([], m)
  | (key, node) :: gs' =>
      match Node.tick env node with
      | None => None
      | Some (action, node') =>
          match tick_groups env gs' (with_groups m (<[key:=node']> (groups m))) with
          | None => None
          | Some (actions, m') =>
              Some (match action with ActionNone => actions | _ => (key, action) :: actions end, m')
          end
      end
  end.

Definition tick_all (env : Env) (m : RaftGroupManager)
    : option (list ((Z * Z) * RaftAction) * RaftGroupManager) :=
  tick_groups env (map_to_list (groups m)) m.

Definition get_all_partitions (m : RaftGroupManager) : list (Z * Z) := (map_to_list (groups m)).*1.

Definition group_count (m : RaftGroupManager) : nat := size (groups m).

End Manager.

(** ** One group across its storage nodes *)

Inductive Message :=
| MsgRequestVote (to : NodeId) (req : RequestVoteRequest)
| MsgVoteResponse (to from : NodeId) (resp : RequestVoteResponse)
| MsgAppend (to : NodeId) (req : AppendEntriesRequest)
| MsgAppendResponse (to from : NodeId) (resp : AppendEntriesResponse).

Record Group := {
  members : gmap NodeId RaftNode;
  (** every message ever put on the network *)
  sent : list Message;
  (** every election won: the node and its term, newest first *)
  elected : list (NodeId * Term);
  (** the commands handed to the apply callback of each node, newest first *)
  applied : list (NodeId * Command)
}.

Inductive Event :=
| EvTick (n : NodeId) (env : Env)
| EvDeliver (i : nat) (env : Env)
| EvPropose (n : NodeId) (c : Command).

(** The state after node [n] became [node], with what it put out. *)
Definition update (g : Group) (n : NodeId) (node : RaftNode) (out : list Message) : Group :=
  {| members := <[n:=node]> (members g); sent := sent g ++ out; elected := elected g;
     applied := applied g |}.

(** What the driver does with the action of a tick. *)
Definition carry_out (n : NodeId) (node : RaftNode) (action : RaftAction) (g : Group) : Group :=
  match action with
  | ActionNone => update g n node []
  | SendRequestVote requests =>
      update g n node ((fun '(to, req) => MsgRequestVote to req) <$> requests)
  | SendAppendEntries requests =>
      update g n node ((fun '(to, req) => MsgAppend to req) <$> requests)
  | ApplyEntries es =>
      {| members := <[n:=node]> (members g); sent := sent g; elected := elected g;
         applied := rev ((fun e => (n, command e)) <$> es) ++ applied g |}
  end.

(** [process_tick] for one group of one storage node. *)
Definition process_tick (env : Env) (n : NodeId) (node : RaftNode) (g : Group) : option Group :=
  match Node.tick env node with
  | None => None
  | Some (action, node') => Some (carry_out n node' action g)
  end.

(** A message reaches its destination: a request is served and its response
    sent back, a response goes to the handler the sending task calls. *)
Definition deliver (env : Env) (m : Message) (g : Group) : option Group :=
  match m with
  | MsgRequestVote to req =>
      match members g !! to with
      | None => None
      | Some node =>
          let '(resp, node') := Node.handle_request_vote env req node in
          Some (update g to node' [MsgVoteResponse (candidate_id req) to resp])
      end
  | MsgVoteResponse to from resp =>
      match members g !! to with
      | None => None
      | Some node =>
          let '(won, node') := Node.handle_request_vote_response env from resp node in
          Some {| members := <[to:=node']> (members g); sent := sent g;
                  elected := if won then (to, term_of node') :: elected g else elected g;
                  applied := applied g |}
      end
  | MsgAppend to req =>
      match members g !! to with
      | None => None
      | Some node =>
          let '(resp, node') := Node.handle_append_entries env req node in
          Some (update g to node' [MsgAppendResponse (ae_leader_id req) to resp])
      end
  | MsgAppendResponse to from resp =>
      match members g !! to with
      | None => None
      | Some node =>
          match Node.handle_append_entries_response env from resp node with
          | None => None
          | Some node' => Some (update g to node' [])
          end
      end
  end.

(** [None] when the event is not enabled or a handler panics. *)
Definition exec (ev : Event) (g : Group) : option Group :=
  match ev with
  | EvTick n env =>
      match members g !! n with None => None | Some node => process_tick env n node g end
  | EvDeliver i env =>
      match sent g !! i with None => None | Some m => deliver env m g end
  | EvPropose n c =>
      match members g !! n with
      | None => None
      | Some node => Some (update g n (Node.propose c node).2 [])
      end
  end.

Fixpoint run (evs : list Event) (g : Group) : option Group :=
  match evs with
  | [] => Some g
  | ev :: evs' => match exec ev g with None => None | Some g' => run evs' g' end
  end.

(** All nodes freshly created with the same configuration. *)
Definition group_init (env : Env) (cfg : ClusterConfig) (rc : RaftConfig) : Group :=
  {| members := list_to_map ((fun i => (i, Node.new env i 1 1 cfg rc)) <$> voters cfg);
     sent := []; elected := []; applied := [] |}.

(** The event does not hand a candidate a vote of an earlier term. *)
Definition fresh (ev : Event) (g : Group) : Prop :=
  match ev with
  | EvDeliver i _ =>
      match sent g !! i with
      | Some (MsgVoteResponse to _ resp) =>
          forall node, members g !! to = Some node -> term_of node <= rvr_term resp
      | _ => True
      end
  | _ => True
  end.

(** No term is at the end of the [u64] range. *)
Definition terms_in_range (g : Group) : Prop :=
  forall n node, members g !! n = Some node -> term_of node + 1 < two64.

Inductive group_step (timely : bool) : Group -> Group -> Prop :=
| step_event ev g g' :
    (timely = true -> fresh ev g) -> terms_in_range g -> exec ev g = Some g' ->
    group_step timely g g'.
