(* ===== verification/RaftElection.v ===== *)
(** * Election safety of a Raft group

    At most one node wins the election of a term, in every run of the group in
    which no vote response is delivered to a candidate of a later term; and a
    run without that restriction in which two nodes lead the same term. *)

From Stdlib Require Import ZArith Lia Strings.String.
From stdpp Require Import base tactics list gmap relations.
From S2P Require Import Prelude RaftLog RaftNode RaftFacts RaftGroup.

(** ** What the handlers do to a node's election state *)

(** The node keeps its identity; it moves to a later term as a follower, or keeps
    its term and its vote, or steps down from candidate in its term. *)
Definition quiet (n n' : RaftNode) : Prop :=
  id n' = id n /\ config n' = config n /\
  ((term_of n < term_of n' /\ state n' = Follower) \/
   (term_of n' = term_of n /\ state n' = state n /\
    voted_for (persistent n') = voted_for (persistent n) /\ votes_received n' = votes_received n) \/
   (term_of n' = term_of n /\ state n = Candidate /\ state n' = Follower)).

Lemma quiet_refl n : quiet n n.
Proof. split; [done|]. split; [done|]. right; left. done. Qed.

(** The fields an election does not read. *)
Lemma quiet_same n n' :
  id n' = id n -> config n' = config n -> persistent n' = persistent n -> state n' = state n ->
  votes_received n' = votes_received n -> quiet n n'.
Proof. intros ? ? Hp ? ?. unfold quiet. rewrite Hp. auto 10. Qed.

Lemma handle_append_entries_quiet env req n : quiet n (Node.handle_append_entries env req n).2.
Proof.
  unfold Node.handle_append_entries.
  set (n1 := if term_of n <? ae_term req then _ else n).
  assert (H1 : quiet n n1 /\ ae_term req <= term_of n1).
  { unfold n1. destruct (Z.ltb_spec (term_of n) (ae_term req)) as [Hlt|Hge].
    - split; [|simpl; lia]. split; [done|]. split; [done|]. left. simpl. split; [lia|done].
    - split; [apply quiet_refl|lia]. }
  clearbody n1. destruct H1 as [Hq Hle].
  destruct (Z.ltb_spec (ae_term req) (term_of n1)) as [Hlt|Hge]; [done|].
  set (n2 := if bool_decide _ then _ else _).
  assert (H2 : quiet n n2).
  { unfold n2. destruct Hq as (Hi & Hc & Hcases). case_bool_decide as Hs; simpl in Hs.
    - split; [done|]. split; [done|].
      destruct Hcases as [[? Hf]|[(Ht & Hst & _)|(Ht & Hst & Hf)]]; [congruence| |congruence].
      right; right. simpl. split; [lia|]. split; [congruence|done].
    - split; [done|]. split; [done|]. done. }
  clearbody n2.
  assert (Hsame : forall n3, id n3 = id n2 -> config n3 = config n2 -> persistent n3 = persistent n2 ->
    state n3 = state n2 -> votes_received n3 = votes_received n2 -> quiet n n3).
  { intros n3 E1 E2 E3 E4 E5. unfold quiet. rewrite E1, E2, E3, E4, E5. done. }
  destruct (Node.check_prev req (log n2)); [by apply Hsame|].
  destruct (ae_entries req), (_ <? leader_commit req); by apply Hsame.
Qed.

Lemma handle_append_entries_response_quiet env from resp n n' :
  Node.handle_append_entries_response env from resp n = Some n' -> quiet n n'.
Proof.
  unfold Node.handle_append_entries_response, Node.try_advance_commit_index.
  case_bool_decide as Hs; simpl; [|intros [= <-]; apply quiet_refl].
  destruct (Z.ltb_spec (term_of n) (aer_term resp)) as [Hlt|Hge].
  { intros [= <-]. split; [done|]. split; [done|]. left. simpl. split; [lia|done]. }
  destruct (leader_state n) as [s|]; [|intros [= <-]; apply quiet_refl].
  destruct (success resp); [|intros [= <-]; by apply quiet_same].
  simpl. repeat case_match; intros [= <-]; by apply quiet_same.
Qed.

Lemma apply_or_none_quiet n : quiet n (Node.apply_or_none n).2.
Proof.
  unfold Node.apply_or_none, Node.get_entries_to_apply.
  destruct (Node.apply_loop _ _ _ _ _) as [es a]. destruct es; by apply quiet_same.
Qed.

Lemma propose_quiet c n : quiet n (Node.propose c n).2.
Proof. unfold Node.propose. case_bool_decide; simpl; [by apply quiet_same|apply quiet_refl]. Qed.

(** A vote request: granted, the node is at the request's term and bound to the
    candidate, and was not bound to another one in that term; else it is quiet. *)
Lemma handle_request_vote_cases env req n :
  let '(resp, n') := Node.handle_request_vote env req n in
  rvr_term resp = term_of n' /\ (term_of n <= term_of n') /\
  if vote_granted resp then
    id n' = id n /\ config n' = config n /\ term_of n' = rv_term req /\
    voted_for (persistent n') = Some (candidate_id req) /\
    ((term_of n < term_of n' /\ state n' = Follower) \/
     (term_of n' = term_of n /\ state n' = state n /\ votes_received n' = votes_received n /\
      (voted_for (persistent n) = None \/ voted_for (persistent n) = Some (candidate_id req))))
  else quiet n n'.
Proof.
  unfold Node.handle_request_vote.
  set (n1 := if term_of n <? rv_term req then _ else n).
  assert (H1 : quiet n n1 /\ rv_term req <= term_of n1 /\ term_of n <= term_of n1 /\
    (term_of n < term_of n1 -> state n1 = Follower) /\ (term_of n1 = term_of n -> n1 = n)).
  { unfold n1. destruct (Z.ltb_spec (term_of n) (rv_term req)) as [Hlt|Hge].
    - split; [split; [done|split; [done|left; simpl; split; [lia|done]]]|]. simpl.
      repeat split; (done || lia).
    - split; [apply quiet_refl|]. repeat split; (done || lia). }
  clearbody n1. destruct H1 as (Hq & Hle & Hmono & Hlt1 & Heq1).
  destruct (Z.ltb_spec (rv_term req) (term_of n1)) as [Hlt|Hge]; [done|].
  destruct (bool_decide _ && negb _) eqn:Ev; [done|].
  destruct (negb (Log.is_up_to_date _ _ _)); [done|]. simpl. split; [done|]. split; [done|].
  destruct Hq as (Hi & Hc & _). split; [done|]. split; [done|]. split; [lia|]. split; [done|].
  destruct (decide (term_of n < term_of n1)) as [Hl|Hg]; [left; auto|right].
  rewrite Heq1 in Ev |- * by lia. repeat split.
  destruct (voted_for (persistent n)) as [w|]; [|by left]. right.
  rewrite bool_decide_eq_true_2 in Ev by by eexists. simpl in Ev. case_bool_decide as Hw; [done|done].
Qed.

(** ** The invariant *)

Section election.
Context (cfg : ClusterConfig).

(** [v] has sent [c] its vote for term [t]. *)
Definition granted (g : Group) (v : NodeId) (t : Term) (c : NodeId) : Prop :=
  exists resp, MsgVoteResponse c v resp ∈ sent g /\ vote_granted resp = true /\ rvr_term resp = t.

Definition message_ok (m : Message) : Prop :=
  match m with
  | MsgRequestVote to req => to <> candidate_id req /\ 0 <= rv_term req
  | MsgVoteResponse to from resp => from <> to /\ from ∈ voters cfg /\ 0 <= rvr_term resp
  | MsgAppend to req => 0 <= ae_term req
  | MsgAppendResponse to from resp => 0 <= aer_term resp
  end.

Definition is_grant (m : Message) : bool :=
  match m with MsgVoteResponse _ _ resp => vote_granted resp | _ => false end.

(** A node is at term [t] in this way, or past it. *)
Definition at_or_past (g : Group) (i : NodeId) (t : Term) (P : RaftNode -> Prop) : Prop :=
  exists n, members g !! i = Some n /\ (t < term_of n \/ (t = term_of n /\ P n)).

Definition quorum_for (g : Group) (l : NodeId) (t : Term) : Prop :=
  exists q : gset NodeId, (Cluster.majority cfg <= size q)%nat /\
    forall v, v ∈ q -> v ∈ voters cfg /\ (v = l \/ granted g v t l).

Record election_inv (g : Group) : Prop := {
  inv_member i n : members g !! i = Some n ->
    i ∈ voters cfg /\ id n = i /\ config n = cfg /\ 0 <= term_of n;
  inv_message m : m ∈ sent g -> message_ok m;
  inv_granted v t c : granted g v t c ->
    at_or_past g v t (fun n => state n = Follower /\ voted_for (persistent n) = Some c);
  inv_once v t c c' : granted g v t c -> granted g v t c' -> c = c';
  inv_candidate i n : members g !! i = Some n -> state n = Candidate ->
    voted_for (persistent n) = Some i /\
    forall v, votes_received n !! v = Some true -> v ∈ voters cfg /\ (v = i \/ granted g v (term_of n) i);
  inv_leader i n : members g !! i = Some n -> state n = Leader ->
    voted_for (persistent n) = Some i /\ (i, term_of n) ∈ elected g;
  inv_elected l t : (l, t) ∈ elected g ->
    at_or_past g l t (fun n => state n = Leader /\ voted_for (persistent n) = Some l) /\
    quorum_for g l t /\ forall c, ~ granted g l t c
}.

Lemma granted_app g i n' out v t c :
  (forall m, m ∈ out -> is_grant m = false) -> granted (update g i n' out) v t c <-> granted g v t c.
Proof.
  intros Hout. unfold granted. simpl. split; intros (resp & Hin & Hg & Ht); exists resp.
  - apply elem_of_app in Hin as [Hin|Hin]; [done|]. apply Hout in Hin. simpl in Hin. congruence.
  - rewrite elem_of_app. auto.
Qed.

Lemma quorum_mono g g' l t :
  (forall v, granted g v t l -> granted g' v t l) -> quorum_for g l t -> quorum_for g' l t.
Proof.
  intros Hg (q & Hs & Hq). exists q. split; [done|]. intros v Hv. destruct (Hq v Hv) as [? [?|?]]; auto.
Qed.

(** Replacing one node by a later state of it. *)
Lemma at_or_past_update g i n n' out (v : NodeId) t (P Q : RaftNode -> Prop) :
  members g !! i = Some n -> term_of n <= term_of n' ->
  (v <> i -> forall m, P m -> Q m) -> (v = i -> P n -> term_of n' = term_of n -> Q n') ->
  at_or_past g v t P -> at_or_past (update g i n' out) v t Q.
Proof.
  intros Hn Hle Hother Hsame (m & Hm & Hc). unfold at_or_past. simpl.
  destruct (decide (v = i)) as [->|Hne].
  - rewrite Hn in Hm. injection Hm as <-. exists n'. split; [by rewrite lookup_insert_eq|].
    destruct Hc as [Hlt|[-> HP]]; [left; lia|].
    destruct (decide (term_of n < term_of n')); [by left|right]. split; [lia|]. apply Hsame; (done || lia).
  - exists m. split; [by rewrite lookup_insert_ne|]. destruct Hc as [?|[? ?]]; auto.
Qed.

Lemma quiet_le n n' : quiet n n' -> term_of n <= term_of n'.
Proof. intros (_ & _ & H). intuition lia. Qed.

(** A quiet change of one node, with messages that grant no vote. *)
Lemma election_inv_quiet g i n n' out :
  election_inv g -> members g !! i = Some n -> quiet n n' ->
  (forall m, m ∈ out -> is_grant m = false /\ message_ok m) ->
  election_inv (update g i n' out).
Proof.
  intros Hinv Hn Hq Hout. pose proof (quiet_le _ _ Hq) as Hle. destruct Hq as (Hid & Hcfg & Hcases).
  pose proof (fun v t c => granted_app g i n' out v t c (fun m Hm => proj1 (Hout m Hm))) as Hgr.
  destruct (inv_member g Hinv i n Hn) as (Hv & Hin & Hcf & Ht0).
  split; simpl.
  - intros j m [[<- <-]|[Hne Hm]]%lookup_insert_Some; [|by apply (inv_member g Hinv)].
    repeat split; [done|congruence|congruence|lia].
  - intros m [Hm|Hm]%elem_of_app; [by apply (inv_message g Hinv)|by apply Hout].
  - intros v t c Hg. apply Hgr, (inv_granted g Hinv) in Hg. eapply at_or_past_update; [exact Hn|done| | |exact Hg]; cbn beta; [auto|].
    intros _ [Hs Hvf] Ht. destruct Hcases as [[? ?]|[(? & ? & ? & _)|(? & ? & _)]]; [lia|split; congruence|congruence].
  - intros v t c c' Hg%Hgr Hg'%Hgr. by eapply (inv_once g Hinv).
  - intros j m [[<- <-]|[Hne Hm]]%lookup_insert_Some Hs.
    + destruct Hcases as [[? ?]|[(Ht & Hst & Hvf & Hvr)|(? & ? & ?)]]; [congruence| |congruence].
      rewrite Hvf, Hvr, Ht. setoid_rewrite Hgr. apply (inv_candidate g Hinv); [done|congruence].
    + setoid_rewrite Hgr. by apply (inv_candidate g Hinv).
  - intros j m [[<- <-]|[Hne Hm]]%lookup_insert_Some Hs; [|by apply (inv_leader g Hinv)].
    destruct Hcases as [[? ?]|[(Ht & Hst & Hvf & Hvr)|(? & ? & ?)]]; [congruence| |congruence].
    rewrite Hvf, Ht. apply (inv_leader g Hinv); [done|congruence].
  - intros l t Hel. destruct (inv_elected g Hinv l t Hel) as (Hap & Hqu & Hno). split; [|split].
    + eapply at_or_past_update; [exact Hn|done| | |exact Hap]; cbn beta; [auto|].
      intros _ [Hs Hvf] Ht. destruct Hcases as [[? ?]|[(? & ? & ? & _)|(? & ? & _)]]; [lia|split; congruence|congruence].
    + eapply quorum_mono; [|done]. intros v. apply Hgr.
    + intros c Hg%Hgr. by apply (Hno c).
Qed.

(** A node starts an election. *)
Lemma election_inv_candidate g i n env :
  election_inv g -> members g !! i = Some n -> term_of n + 1 < two64 ->
  let '(reqs, n') := Node.become_candidate env n in
  election_inv (update g i n' ((fun '(to, req) => MsgRequestVote to req) <$> reqs)).
Proof.
  intros Hinv Hn Hlt. destruct (inv_member g Hinv i n Hn) as (Hv & Hid & Hcf & Ht0).
  destruct (Node.become_candidate env n) as [reqs n'] eqn:E. unfold Node.become_candidate in E.
  rewrite u64_add_id in E by (unfold_int; lia). injection E as <- <-. set (out := _ <$> _).
  assert (Hout : forall m, m ∈ out -> is_grant m = false /\ message_ok m).
  { intros m Hm. unfold out in Hm. rewrite <- list_fmap_compose in Hm.
    apply list_elem_of_fmap in Hm as (to & -> & Hto). apply list_elem_of_In, filter_In in Hto as [_ Hto].
    split; [done|]. simpl. split; [|lia]. intros ->. by rewrite Z.eqb_refl in Hto. }
  clearbody out. set (n' := Node.reset_election_timeout _ _).
  pose proof (fun v t c => granted_app g i n' out v t c (fun m Hm => proj1 (Hout m Hm))) as Hgr.
  split; simpl.
  - intros j m [[<- <-]|[Hne Hm]]%lookup_insert_Some; [|by apply (inv_member g Hinv)].
    repeat split; try done. simpl. lia.
  - intros m [Hm|Hm]%elem_of_app; [by apply (inv_message g Hinv)|by apply Hout].
  - intros v t c Hg. apply Hgr, (inv_granted g Hinv) in Hg.
    eapply at_or_past_update; [exact Hn|simpl; lia| | |exact Hg]; simpl; [auto|lia].
  - intros v t c c' Hg%Hgr Hg'%Hgr. by eapply (inv_once g Hinv).
  - intros j m [[<- <-]|[Hne Hm]]%lookup_insert_Some Hs.
    + simpl. rewrite Hid. split; [done|]. intros v [<- _]%lookup_singleton_Some. auto.
    + setoid_rewrite Hgr. by apply (inv_candidate g Hinv).
  - intros j m [[<- <-]|[Hne Hm]]%lookup_insert_Some Hs; [done|by apply (inv_leader g Hinv)].
  - intros l t Hel. destruct (inv_elected g Hinv l t Hel) as (Hap & Hqu & Hno). split; [|split].
    + eapply at_or_past_update; [exact Hn|simpl; lia| | |exact Hap]; simpl; [auto|lia].
    + eapply quorum_mono; [|done]. intros v. apply Hgr.
    + intros c Hg%Hgr. by apply (Hno c).
Qed.

Lemma message_sent g i n' out m : m ∈ sent g -> m ∈ sent (update g i n' out).
Proof. intros Hm. simpl. apply elem_of_app. by left. Qed.

Lemma granted_mono g i n' out v t c : granted g v t c -> granted (update g i n' out) v t c.
Proof. intros (resp & Hin & H). exists resp. split; [by apply message_sent|done]. Qed.

(** A node answers a vote request. *)
Lemma election_inv_vote g to req n env :
  election_inv g -> MsgRequestVote to req ∈ sent g -> members g !! to = Some n ->
  let '(resp, n') := Node.handle_request_vote env req n in
  election_inv (update g to n' [MsgVoteResponse (candidate_id req) to resp]).
Proof.
  intros Hinv Hreq Hn. destruct (inv_member g Hinv to n Hn) as (Hv & Hid & Hcf & Ht0).
  destruct (inv_message g Hinv _ Hreq) as [Hne _].
  pose proof (handle_request_vote_cases env req n) as H.
  destruct (Node.handle_request_vote env req n) as [resp n']. destruct H as (Hrt & Hle & H).
  assert (Hok : message_ok (MsgVoteResponse (candidate_id req) to resp))
    by (simpl; split; [done|split; [done|lia]]).
  destruct (vote_granted resp) eqn:Eg.
  2: { eapply election_inv_quiet; [done|done|done|]. intros m ->%list_elem_of_singleton. done. }
  destruct H as (Hid' & Hcf' & Ht & Hvf & Hst).
  set (cand := candidate_id req) in *. set (g' := update g to n' _).
  assert (Hfol : state n' = Follower /\ (term_of n' = term_of n -> state n = Follower)).
  { destruct Hst as [[Hlt ->]|(Heq & Hs & _ & Hb)]; [split; [done|lia]|]. rewrite Hs.
    destruct (state n) eqn:Es; [done| |].
    - destruct (inv_candidate g Hinv to n Hn Es) as [Hw _]. destruct Hb; congruence.
    - destruct (inv_leader g Hinv to n Hn Es) as [Hw _]. destruct Hb; congruence. }
  assert (Hbind : forall c, term_of n' = term_of n -> voted_for (persistent n) = Some c -> c = cand)
    by (intros c Heq Hc; destruct Hst as [[? _]|(_ & _ & _ & [?|?])]; [lia|congruence|congruence]).
  assert (Hgr : forall v t c, granted g' v t c -> granted g v t c \/ (v = to /\ t = term_of n' /\ c = cand)).
  { intros v t c (r & Hin & Hg & Htt). simpl in Hin.
    apply elem_of_app in Hin as [Hin|Hin]; [left; by exists r|].
    apply list_elem_of_singleton in Hin. injection Hin as -> -> ->. right. split; [done|]. split; congruence. }
  assert (Hold : forall c, granted g to (term_of n') c -> c = cand).
  { intros c Hg. apply (inv_granted g Hinv) in Hg as (m & Hm & Hc). rewrite Hn in Hm. injection Hm as <-.
    destruct Hc as [?|(? & _ & Hc)]; [lia|]. by apply Hbind. }
  split; simpl.
  - intros j m [[<- <-]|[Hj Hm]]%lookup_insert_Some; [|by apply (inv_member g Hinv)].
    repeat split; [done|congruence|congruence|lia].
  - intros m [Hm|Hm]%elem_of_app; [by apply (inv_message g Hinv)|]. by apply list_elem_of_singleton in Hm as ->.
  - intros v t c [Hg|(-> & -> & ->)]%Hgr.
    + apply (inv_granted g Hinv) in Hg. eapply at_or_past_update; [exact Hn|done| | |exact Hg]; cbn beta; [auto|].
      intros _ [_ Hc] Heq. split; [apply Hfol|]. by rewrite Hvf, (Hbind c).
    + exists n'. split; [simpl; by rewrite lookup_insert_eq|]. right. split; [done|]. split; [apply Hfol|done].
  - intros v t c c' [Hg|(-> & -> & ->)]%Hgr [Hg'|(Hv' & Ht' & ->)]%Hgr.
    + by eapply (inv_once g Hinv).
    + subst v t. by apply Hold.
    + symmetry. by apply Hold.
    + done.
  - intros j m [[<- <-]|[Hj Hm]]%lookup_insert_Some Hs; [by rewrite (proj1 Hfol) in Hs|].
    destruct (inv_candidate g Hinv j m Hm Hs) as [? Hvotes]. split; [done|].
    intros v Hvv. destruct (Hvotes v Hvv) as [Hvin [?|?]]; (split; [exact Hvin|]); [by left|right; by apply granted_mono].
  - intros j m [[<- <-]|[Hj Hm]]%lookup_insert_Some Hs; [by rewrite (proj1 Hfol) in Hs|].
    by apply (inv_leader g Hinv).
  - intros l t Hel. destruct (inv_elected g Hinv l t Hel) as (Hap & Hqu & Hno). split; [|split].
    + eapply at_or_past_update; [exact Hn|done| | |exact Hap]; cbn beta; [auto|].
      intros _ [Hs _] Heq. by rewrite (proj2 Hfol Heq) in Hs.
    + eapply quorum_mono; [|done]. intros v. apply granted_mono.
    + intros c [Hg|(-> & -> & ->)]%Hgr; [by apply (Hno c)|].
      destruct Hap as (m & Hm & Hc). rewrite Hn in Hm. injection Hm as <-.
      destruct Hc as [?|(Heq & Hs & _)]; [lia|]. by rewrite (proj2 Hfol) in Hs.
Qed.

Lemma update_nil g i n' :
  update g i n' [] = {| members := <[i:=n']> (members g); sent := sent g; elected := elected g;
                        applied := applied g |}.
Proof. unfold update. by rewrite app_nil_r. Qed.

(** A candidate records a vote of its own term. *)
Lemma election_inv_record g to from resp n :
  election_inv g -> MsgVoteResponse to from resp ∈ sent g -> members g !! to = Some n ->
  state n = Candidate -> rvr_term resp = term_of n ->
  election_inv (update g to (set_votes n (<[from:=vote_granted resp]> (votes_received n))) []).
Proof.
  intros Hinv Hm Hn Hs Ht. set (n' := set_votes n _).
  destruct (inv_message g Hinv _ Hm) as (_ & Hfv & _).
  assert (Hgr : forall v t c, granted (update g to n' []) v t c <-> granted g v t c)
    by (intros; apply granted_app; by intros m' H%elem_of_nil).
  split; simpl.
  - intros j m [[<- <-]|[Hj Hmm]]%lookup_insert_Some; [exact (inv_member g Hinv to n Hn)|by apply (inv_member g Hinv)].
  - rewrite app_nil_r. apply (inv_message g Hinv).
  - intros v t c Hg%Hgr%(inv_granted g Hinv). by eapply at_or_past_update; [exact Hn| | | |exact Hg].
  - intros v t c c' Hg%Hgr Hg'%Hgr. by eapply (inv_once g Hinv).
  - setoid_rewrite Hgr. intros j m [[<- <-]|[Hj Hmm]]%lookup_insert_Some Hc; [|by apply (inv_candidate g Hinv)].
    destruct (inv_candidate g Hinv to n Hn Hs) as [Hvf Hvotes]. split; [done|]. simpl.
    intros v [[<- Hg]|[_ Hvv]]%lookup_insert_Some; [|by apply Hvotes]. split; [done|]. right. by exists resp.
  - intros j m [[<- <-]|[Hj Hmm]]%lookup_insert_Some Hc; [simpl in Hc; congruence|by apply (inv_leader g Hinv)].
  - intros l t Hel. destruct (inv_elected g Hinv l t Hel) as (Hap & Hqu & Hno). split; [|split].
    + by eapply at_or_past_update; [exact Hn| | | |exact Hap].
    + eapply quorum_mono; [|done]. intros v. apply Hgr.
    + intros c Hg%Hgr. by apply (Hno c).
Qed.

Lemma NoDup_fst_filter {A B} (f : A * B -> bool) l : NoDup l.*1 -> NoDup (List.filter f l).*1.
Proof.
  induction l as [|x l IH]; simpl; [done|]. intros [Hx Hl]%NoDup_cons. destruct (f x); [|by apply IH].
  simpl. constructor; [|by apply IH]. intros (y & Hy & Hin)%list_elem_of_fmap. apply Hx.
  apply list_elem_of_In, filter_In in Hin as [Hin _]. rewrite Hy. by apply list_elem_of_fmap_2, list_elem_of_In.
Qed.

(** The nodes whose votes are counted. *)
Lemma votes_for_set votes :
  exists q : gset NodeId, size q = Node.votes_for votes /\ forall v, v ∈ q -> votes !! v = Some true.
Proof.
  exists (list_to_set (List.filter (fun kv : NodeId * bool => kv.2) (map_to_list votes)).*1). split.
  - rewrite size_list_to_set, length_fmap by apply NoDup_fst_filter, NoDup_fst_map_to_list. done.
  - intros v Hv. apply elem_of_list_to_set, list_elem_of_fmap in Hv as ([k b] & -> & Hin).
    apply list_elem_of_In, filter_In in Hin as [Hin Hb]. simpl in *. subst b.
    by apply elem_of_map_to_list, list_elem_of_In.
Qed.

(** A candidate with a majority becomes leader. *)
Lemma election_inv_win g to n :
  election_inv g -> members g !! to = Some n -> state n = Candidate ->
  (Cluster.majority cfg <= Node.votes_for (votes_received n))%nat ->
  election_inv {| members := <[to:=Node.become_leader n]> (members g); sent := sent g;
                  elected := (to, term_of n) :: elected g; applied := applied g |}.
Proof.
  intros Hinv Hn Hs Hmaj. destruct (inv_candidate g Hinv to n Hn Hs) as [Hvf Hvotes].
  set (g' := {| members := _; sent := _; elected := _; applied := _ |}).
  assert (Hap : forall v t (P Q : RaftNode -> Prop), (forall m, P m -> Q m) -> ~ P n ->
    at_or_past g v t P -> at_or_past g' v t Q).
  { intros v t P Q HPQ HnP (m & Hm & Hc). destruct (decide (v = to)) as [->|Hne].
    - rewrite Hn in Hm. injection Hm as <-. exists (Node.become_leader n).
      split; [simpl; by rewrite lookup_insert_eq|]. destruct Hc as [?|[_ ?]]; [by left|done].
    - exists m. split; [simpl; by rewrite lookup_insert_ne|]. destruct Hc as [?|[? ?]]; auto. }
  split; simpl.
  - intros j m [[<- <-]|[Hj Hm]]%lookup_insert_Some; [exact (inv_member g Hinv to n Hn)|by apply (inv_member g Hinv)].
  - apply (inv_message g Hinv).
  - intros v t c Hg%(inv_granted g Hinv). eapply Hap; [|..|exact Hg]; [done|]. intros [? _]. congruence.
  - apply (inv_once g Hinv).
  - intros j m [[<- <-]|[Hj Hm]]%lookup_insert_Some Hc; [done|by apply (inv_candidate g Hinv)].
  - intros j m [[<- <-]|[Hj Hm]]%lookup_insert_Some Hc; [split; [done|left]|].
    destruct (inv_leader g Hinv j m Hm Hc). split; [done|by right].
  - intros l t [[= -> ->]|Hel]%elem_of_cons.
    + split; [|split].
      * exists (Node.become_leader n). split; [simpl; by rewrite lookup_insert_eq|]. by right.
      * destruct (votes_for_set (votes_received n)) as (q & Hsz & Hq). exists q. split; [lia|].
        intros v Hv. by apply Hvotes, Hq.
      * intros c Hg. apply (inv_granted g Hinv) in Hg as (m & Hm & Hc). rewrite Hn in Hm. injection Hm as <-.
        destruct Hc as [?|(_ & ? & _)]; [lia|congruence].
    + destruct (inv_elected g Hinv l t Hel) as (Hapl & Hqu & Hno). split; [|done].
      eapply Hap; [|..|exact Hapl]; [done|]. intros [? _]. congruence.
Qed.

(** ** Every event keeps the invariant *)

Lemma election_inv_applied g a :
  election_inv g ->
  election_inv {| members := members g; sent := sent g; elected := elected g; applied := a |}.
Proof. intros H. split; simpl; apply H. Qed.

Lemma append_requests_term n s vs reqs to req :
  Node.append_requests n s vs = Some reqs -> (to, req) ∈ reqs -> ae_term req = term_of n.
Proof.
  revert reqs. induction vs as [|v vs IH]; intros reqs; simpl.
  { intros [= <-] H. by apply elem_of_nil in H. }
  destruct (v =? id n); [by apply IH|]. unfold Node.append_request.
  destruct (Log.entries_range _ _ _) as [es|]; [|done].
  destruct (Node.append_requests n s vs) as [reqs'|]; simpl; [|done]. intros [= <-].
  intros [[= -> ->]|H]%elem_of_cons; [done|]. by eapply IH.
Qed.

Lemma handle_append_entries_term env req n :
  let '(resp, n') := Node.handle_append_entries env req n in aer_term resp = term_of n'.
Proof. unfold Node.handle_append_entries. repeat (case_match; simplify_eq/=; try done). Qed.

(** A tick starts an election, takes entries to apply, or sends entries. *)
Lemma tick_cases env node a node' :
  Node.tick env node = Some (a, node') ->
  (exists reqs, Node.become_candidate env node = (reqs, node') /\ a = SendRequestVote reqs) \/
  Node.apply_or_none node = (a, node') \/
  (node' = node /\ exists s reqs, a = SendAppendEntries reqs /\
    Node.append_requests node s (voters (config node)) = Some reqs).
Proof.
  unfold Node.tick, Node.generate_append_entries. destruct (state node).
  1, 2: destruct (Node.election_timeout_elapsed env node); [|intros [= E]; right; left; exact E].
  1, 2: destruct (Node.become_candidate env node) as [reqs n']; intros H; injection H as <- <-;
    left; exists reqs; split; reflexivity.
  change (bool_decide (Leader = Leader)) with true. cbn [negb].
  destruct (leader_state node) as [s|]; [|intros [= E]; right; left; exact E].
  destruct (Node.append_requests node s (voters (config node))) as [[|r reqs]|] eqn:Er; [| |done].
  - intros [= E]. right; left. exact E.
  - intros [= <- <-]. right; right. split; [done|]. by exists s, (r :: reqs).
Qed.

Lemma election_inv_tick g n node env g' :
  election_inv g -> members g !! n = Some node -> term_of node + 1 < two64 ->
  process_tick env n node g = Some g' -> election_inv g'.
Proof.
  intros Hinv Hn Hlt. destruct (inv_member g Hinv n node Hn) as (_ & _ & _ & Ht0). unfold process_tick.
  destruct (Node.tick env node) as [[a node']|] eqn:E; [|done]. intros [= <-].
  apply tick_cases in E as [(reqs & E & ->)|[E|(-> & s & reqs & -> & Er)]].
  - pose proof (election_inv_candidate g n node env Hinv Hn Hlt) as H. by rewrite E in H.
  - assert (Hi : election_inv (update g n node' [])).
    { eapply election_inv_quiet; [done|done| |by intros m Hm%elem_of_nil].
      pose proof (apply_or_none_quiet node) as Hq. by rewrite E in Hq. }
    unfold Node.apply_or_none in E. destruct (Node.get_entries_to_apply node) as [[|e es] x];
      injection E as <- <-; simpl; [done|].
    rewrite update_nil in Hi. apply (election_inv_applied _ _ Hi).
  - eapply election_inv_quiet; [done|done|apply quiet_refl|].
    intros m Hm. apply list_elem_of_fmap in Hm as ([to req] & -> & Hin). split; [done|]. simpl.
    by erewrite append_requests_term.
Qed.

Lemma election_inv_response g to from resp n env :
  election_inv g -> MsgVoteResponse to from resp ∈ sent g -> members g !! to = Some n ->
  term_of n <= rvr_term resp ->
  let '(won, n') := Node.handle_request_vote_response env from resp n in
  election_inv {| members := <[to:=n']> (members g); sent := sent g;
                  elected := if won then (to, term_of n') :: elected g else elected g;
                  applied := applied g |}.
Proof.
  intros Hinv Hm Hn Hfresh. unfold Node.handle_request_vote_response.
  assert (Hquiet : forall n', quiet n n' ->
    election_inv {| members := <[to:=n']> (members g); sent := sent g; elected := elected g; applied := applied g |}).
  { intros n' Hq. rewrite <- update_nil. eapply election_inv_quiet; [done|done|done|by intros m H%elem_of_nil]. }
  case_bool_decide as Hs; cbn [negb]; [|by apply Hquiet, quiet_refl].
  destruct (Z.ltb_spec (term_of n) (rvr_term resp)) as [Hlt|Hge].
  { apply Hquiet. split; [done|]. split; [done|]. left. simpl. split; [lia|done]. }
  pose proof (election_inv_record g to from resp n Hinv Hm Hn Hs ltac:(lia)) as Hrec.
  set (n1 := set_votes n _) in *. rewrite update_nil in Hrec.
  destruct (Nat.leb_spec (Cluster.majority (config n1)) (Node.votes_for (votes_received n1))) as [Hmaj|_]; [|exact Hrec].
  assert (Hcfg : config n1 = cfg) by apply (inv_member g Hinv to n Hn).
  rewrite Hcfg in Hmaj. pose proof (election_inv_win _ to n1 Hrec (lookup_insert_eq _ _ _) Hs Hmaj) as Hwin.
  simpl in Hwin. by rewrite insert_insert_eq in Hwin.
Qed.

Lemma election_inv_step g g' : group_step true g g' -> election_inv g -> election_inv g'.
Proof.
  intros [ev g0 g1 Hfresh Hrange Hexec] Hinv. specialize (Hfresh eq_refl). destruct ev as [n env|i env|n c]; simpl in *.
  - destruct (members g0 !! n) as [node|] eqn:Hn; [|done]. eapply election_inv_tick; eauto.
  - destruct (sent g0 !! i) as [m|] eqn:Hi; [|done]. apply list_elem_of_lookup_2 in Hi.
    destruct m as [to req|to from resp|to req|to from resp]; simpl in *;
      destruct (members g0 !! to) as [node|] eqn:Hn; try done;
      destruct (inv_member g0 Hinv to node Hn) as (_ & _ & _ & Ht0).
    + pose proof (election_inv_vote g0 to req node env Hinv Hi Hn) as H.
      destruct (Node.handle_request_vote env req node). by injection Hexec as <-.
    + pose proof (election_inv_response g0 to from resp node env Hinv Hi Hn (Hfresh _ eq_refl)) as H.
      destruct (Node.handle_request_vote_response env from resp node). by injection Hexec as <-.
    + pose proof (handle_append_entries_quiet env req node) as Hq.
      pose proof (handle_append_entries_term env req node) as Ht.
      destruct (Node.handle_append_entries env req node) as [resp n']. injection Hexec as <-.
      eapply election_inv_quiet; [done|done|done|]. intros m ->%list_elem_of_singleton. split; [done|].
      simpl. apply quiet_le in Hq. simpl in Hq. lia.
    + destruct (Node.handle_append_entries_response env from resp node) as [n'|] eqn:E; [|done].
      injection Hexec as <-. eapply election_inv_quiet; [done|done| |by intros m H%elem_of_nil].
      by eapply handle_append_entries_response_quiet.
  - destruct (members g0 !! n) as [node|] eqn:Hn; [|done]. injection Hexec as <-.
    eapply election_inv_quiet; [done|done|apply propose_quiet|by intros m H%elem_of_nil].
Qed.

Lemma election_inv_init env rc : NoDup (voters cfg) -> election_inv (group_init env cfg rc).
Proof.
  intros Hnd. assert (Hl : forall i n, members (group_init env cfg rc) !! i = Some n ->
    i ∈ voters cfg /\ n = Node.new env i 1 1 cfg rc).
  { intros i n Hi. simpl in Hi. apply elem_of_list_to_map_2, list_elem_of_fmap in Hi as (j & [= -> ->] & Hj). done. }
  split; simpl.
  - intros i n Hi. apply Hl in Hi as [? ->]. done.
  - by intros m Hm%elem_of_nil.
  - intros v t c (resp & Hin & _). by apply elem_of_nil in Hin.
  - intros v t c c' (resp & Hin & _). by apply elem_of_nil in Hin.
  - intros i n Hi. by apply Hl in Hi as [_ ->].
  - intros i n Hi. by apply Hl in Hi as [_ ->].
  - by intros l t Hin%elem_of_nil.
Qed.

Lemma election_inv_reachable env rc g :
  NoDup (voters cfg) -> rtc (group_step true) (group_init env cfg rc) g -> election_inv g.
Proof.
  intros Hnd Hr. apply (election_inv_init env rc) in Hnd.
  induction Hr as [|g1 g2 g3 Hs _ IH]; [done|]. by eapply IH, election_inv_step.
Qed.

(** Two majorities of the voters share a member. *)
Lemma quorums_meet (q1 q2 : gset NodeId) :
  (forall v, v ∈ q1 -> v ∈ voters cfg) -> (forall v, v ∈ q2 -> v ∈ voters cfg) ->
  (Cluster.majority cfg <= size q1)%nat -> (Cluster.majority cfg <= size q2)%nat ->
  exists v, v ∈ q1 /\ v ∈ q2.
Proof.
  intros H1 H2 Hs1 Hs2. destruct (decide (q1 ∩ q2 = ∅)) as [He|Hne].
  - assert (Hd : q1 ## q2) by set_solver.
    assert (Hsub : q1 ∪ q2 ⊆ list_to_set (voters cfg)).
    { intros v Hv. apply elem_of_list_to_set. apply elem_of_union in Hv as [?|?]; auto. }
    apply subseteq_size in Hsub. rewrite size_union in Hsub by done.
    assert (Hle : (size (list_to_set (voters cfg) : gset NodeId) <= length (voters cfg))%nat).
    { clear. induction (voters cfg) as [|v vs IH]; simpl; [done|].
      pose proof (size_union_alt ({[v]} : gset NodeId) (list_to_set vs)) as Hu.
      rewrite size_singleton in Hu.
      assert ((size ((list_to_set vs : gset NodeId) ∖ {[v]}) <= size (list_to_set vs : gset NodeId))%nat)
        by (apply subseteq_size; set_solver). lia. }
    unfold Cluster.majority in *.
    pose proof (Nat.div_mod (length (voters cfg)) 2). pose proof (Nat.mod_upper_bound (length (voters cfg)) 2). lia.
  - apply set_choose_L in Hne as [v Hv]. exists v. set_solver.
Qed.

Lemma one_winner g a b t :
  election_inv g -> (a, t) ∈ elected g -> (b, t) ∈ elected g -> a = b.
Proof.
  intros Hinv Ha Hb. destruct (inv_elected g Hinv a t Ha) as (_ & (q1 & Hs1 & Hq1) & Hno1).
  destruct (inv_elected g Hinv b t Hb) as (_ & (q2 & Hs2 & Hq2) & Hno2).
  destruct (quorums_meet q1 q2) as (v & Hv1 & Hv2); [intros v Hv; by apply Hq1|intros v Hv; by apply Hq2|done|done|].
  destruct (Hq1 v Hv1) as [_ [Hva|Hg1]], (Hq2 v Hv2) as [_ [Hvb|Hg2]]; [congruence| | |].
  - subst v. by destruct (Hno1 b).
  - subst v. by destruct (Hno2 a).
  - by eapply (inv_once g Hinv).
Qed.
End election.

(** ** Main results *)

(** C9: in every run of a Raft group of any size from its initial state, with
    messages lost, reordered and repeated at will, in which no vote response
    reaches a candidate that has moved to a later term, at most one node wins the
    election of each term; in particular no two nodes lead in the same term. *)
Theorem election_safety env cfg rc g :
  NoDup (voters cfg) -> rtc (group_step true) (group_init env cfg rc) g ->
  (forall a b t, (a, t) ∈ elected g -> (b, t) ∈ elected g -> a = b) /\
  (forall a b na nb, members g !! a = Some na -> members g !! b = Some nb ->
    state na = Leader -> state nb = Leader -> term_of na = term_of nb -> a = b).
Proof.
  intros Hnd Hr. apply election_inv_reachable in Hr as Hinv; [|done]. split.
  - intros a b t. by apply (one_winner cfg).
  - intros a b na nb Ha Hb Hsa Hsb Ht. apply (one_winner cfg g a b (term_of na) Hinv).
    + by apply (inv_leader cfg g Hinv).
    + rewrite Ht. by apply (inv_leader cfg g Hinv).
Qed.

(** Two instants, each past every election deadline set before it. *)
Definition late : Env := {| now := 1000; timeout := 150 |}.
Definition later : Env := {| now := 2000; timeout := 150 |}.

(** Node 1 stands in term 1 and wins with the vote of node 2. *)
Definition won_events : list Event := [EvTick 1 late; EvDeliver 0 late; EvDeliver 2 late].

Definition group0 : Group := group_init env0 three_voters RaftConfig_default.

(** [fresh] and [terms_in_range] by evaluation. *)
Definition freshb (ev : Event) (g : Group) : bool :=
  match ev with
  | EvDeliver i _ =>
      match sent g !! i with
      | Some (MsgVoteResponse to _ resp) =>
          match members g !! to with Some node => term_of node <=? rvr_term resp | None => true end
      | _ => true
      end
  | _ => true
  end.

Definition terms_in_rangeb (g : Group) : bool :=
  forallb (fun kn => term_of kn.2 + 1 <? two64) (map_to_list (members g)).

(** Run the events, checking that each is a step. *)
Fixpoint checked_run (timely : bool) (evs : list Event) (g : Group) : option Group :=
  match evs with
  | [] => Some g
  | ev :: evs' =>
      if (negb timely || freshb ev g) && terms_in_rangeb g then
        match exec ev g with Some g1 => checked_run timely evs' g1 | None => None end
      else None
  end.

Lemma freshb_sound ev g : freshb ev g = true -> fresh ev g.
Proof.
  destruct ev as [|i env|]; simpl; try done. destruct (sent g !! i) as [[]|]; try done.
  intros H node Hn. rewrite Hn in H. lia.
Qed.

Lemma terms_in_rangeb_sound g : terms_in_rangeb g = true -> terms_in_range g.
Proof.
  intros H n node Hn. unfold terms_in_rangeb in H. rewrite forallb_forall in H.
  apply elem_of_map_to_list, list_elem_of_In in Hn. specialize (H _ Hn). simpl in H. lia.
Qed.

Lemma checked_run_steps timely evs g g' :
  checked_run timely evs g = Some g' -> rtc (group_step timely) g g'.
Proof.
  revert g. induction evs as [|ev evs IH]; intros g; simpl; [intros [= ->]; apply rtc_refl|].
  destruct ((negb timely || freshb ev g) && terms_in_rangeb g) eqn:Ec; [|done].
  apply andb_true_iff in Ec as [Hf Ht]. destruct (exec ev g) as [g1|] eqn:E; [|done]. intros Hr.
  eapply rtc_l; [|by apply IH]. apply (step_event timely ev); [|by apply terms_in_rangeb_sound|done].
  intros ->. by apply freshb_sound.
Qed.

Lemma election_safety_witness :
  exists g, run won_events group0 = Some g /\ elected g = [(1, 1)] /\
  (forall a b t, (a, t) ∈ elected g -> (b, t) ∈ elected g -> a = b) /\
  (forall a b na nb, members g !! a = Some na -> members g !! b = Some nb ->
    state na = Leader -> state nb = Leader -> term_of na = term_of nb -> a = b).
Proof.
  destruct (checked_run true won_events group0) as [g|] eqn:E; [|by vm_compute in E].
  exists g. split; [vm_compute in E |- *; congruence|].
  split; [vm_compute in E; by injection E as <-|].
  apply (election_safety env0 three_voters RaftConfig_default).
  - assert (voters three_voters = [1; 2; 3]) as -> by reflexivity.
    repeat (constructor; [set_solver|]). constructor.
  - exact (checked_run_steps true won_events group0 g E).
Defined.

(** Node 1 stands in terms 1 and 2, node 3 too; node 2 votes for node 1 in term
    1 and for node 3 in term 2; its vote of term 1 reaches node 1 last. *)
Definition stale_vote_events : list Event :=
  [EvTick 1 late; EvDeliver 0 late;                   (* 2 votes for 1 in term 1 *)
   EvTick 1 later; EvTick 3 late; EvTick 3 later;     (* 1 and 3 stand in term 2 *)
   EvDeliver 8 later; EvDeliver 9 later;              (* 2 votes for 3, which leads term 2 *)
   EvDeliver 2 later].                                (* the old vote makes 1 leader of term 2 *)

(** C36: votes are counted without looking at their term. A run of three nodes in
    which a vote of term 1 reaches a candidate of term 2 ends with two nodes
    leading term 2, one of them elected by a vote that was not cast in it. *)
Theorem stale_vote_two_leaders :
  exists g n1 n3, rtc (group_step false) (group_init env0 three_voters RaftConfig_default) g /\
    members g !! 1 = Some n1 /\ members g !! 3 = Some n3 /\
    state n1 = Leader /\ state n3 = Leader /\ term_of n1 = 2 /\ term_of n3 = 2.
Proof.
  destruct (checked_run false stale_vote_events group0) as [g|] eqn:E; [|by vm_compute in E].
  pose proof (checked_run_steps _ _ _ _ E) as Hg. vm_compute in E. injection E as <-.
  eexists _, _, _. split; [exact Hg|]. repeat split; reflexivity.
Qed.
