(* ===== verification/RaftDivergence.v ===== *)
(** * A run in which two nodes apply different commands at one index

    A follower advances its commit index up to its last entry, also over entries
    the request did not cover. With small requests and several requests in
    flight, the part of its log it commits can be left over from an old leader. *)

From Stdlib Require Import ZArith Lia Strings.String.
From stdpp Require Import base tactics list gmap relations.
From S2P Require Import Prelude RaftLog RaftNode RaftFacts RaftGroup RaftElection.

(** One entry per request. *)
Definition small_requests : RaftConfig :=
  {| election_timeout_min := 150; election_timeout_max := 300; heartbeat_interval := 50;
     max_entries_per_request := 1; snapshot_threshold := 10000 |}.

Definition at_time (t : Z) : Env := {| now := t; timeout := 150 |}.

Definition stale_put : Command := Put 1 1 [] [].

(** Node 1 leads term 1: its no-op reaches all, two further entries nobody. *)
Definition first_leader : list Event :=
  [EvTick 1 (at_time 1000); EvDeliver 0 (at_time 1000); EvDeliver 2 (at_time 1000);
   EvTick 1 (at_time 1010); EvDeliver 3 (at_time 1010); EvDeliver 4 (at_time 1010);
   EvPropose 1 stale_put; EvPropose 1 stale_put].

(** Node 2 leads term 2 and replicates indices 2 and 3 to node 3. *)
Definition second_leader : list Event :=
  [EvTick 2 (at_time 2000); EvDeliver 8 (at_time 2000); EvDeliver 9 (at_time 2000);
   EvPropose 2 Noop;
   EvTick 2 (at_time 2010); EvDeliver 11 (at_time 2010); EvDeliver 12 (at_time 2010);
   EvTick 2 (at_time 2020); EvDeliver 14 (at_time 2020)].

(** Node 3 leads term 3; three requests to node 1 are in flight at once. *)
Definition third_leader : list Event :=
  [EvTick 3 (at_time 3000); EvDeliver 17 (at_time 3000); EvDeliver 18 (at_time 3000);
   EvTick 3 (at_time 3010); EvTick 3 (at_time 3020); EvTick 3 (at_time 3030)].

(** Node 2 acknowledges index 4; the three requests fail on node 1, one after
    the other, and lower its next index to 1; the request from there succeeds. *)
Definition commit_stale : list Event :=
  [EvDeliver 20 (at_time 3040); EvDeliver 25 (at_time 3040);
   EvDeliver 19 (at_time 3040); EvDeliver 21 (at_time 3040); EvDeliver 23 (at_time 3040);
   EvDeliver 26 (at_time 3050); EvDeliver 27 (at_time 3050); EvDeliver 28 (at_time 3050);
   EvTick 3 (at_time 3060); EvDeliver 29 (at_time 3070); EvDeliver 30 (at_time 3070);
   EvTick 1 (at_time 3080); EvTick 2 (at_time 3080)].

Definition divergence_events : list Event :=
  Eval cbv [app first_leader second_leader third_leader commit_stale] in
  first_leader ++ second_leader ++ third_leader ++ commit_stale.

(** C37: a follower commits entries its leader never confirmed. A run of three
    nodes with one entry per request, in which every message is delivered at most
    once and no vote is stale, ends with two nodes that have applied different
    commands at index 2: one applied an entry left over from the leader of term
    1, the other the entry committed in its place. *)
Theorem followers_apply_different_commands :
  exists g n1 n2 e1 e2,
    rtc (group_step true) (group_init env0 three_voters small_requests) g /\
    members g !! 1 = Some n1 /\ members g !! 2 = Some n2 /\
    2 <= last_applied (volatile n1) /\ 2 <= last_applied (volatile n2) /\
    Log.get 2 (log n1) = Some e1 /\ Log.get 2 (log n2) = Some e2 /\
    command e1 = stale_put /\ command e2 = Noop /\
    (1, stale_put) ∈ applied g /\ (2, stale_put) ∉ applied g.
Proof.
  destruct (checked_run true divergence_events (group_init env0 three_voters small_requests)) as [g|] eqn:E;
    [|by vm_compute in E].
  pose proof (checked_run_steps _ _ _ _ E) as Hg.
  vm_compute in E. injection E as <-. eexists _, _, _, _, _. split; [exact Hg|].
  split; [reflexivity|]. split; [reflexivity|]. split; [simpl; lia|]. split; [simpl; lia|].
  split; [reflexivity|]. split; [reflexivity|]. split; [reflexivity|]. split; [reflexivity|].
  simpl. split; [set_solver|]. rewrite !not_elem_of_cons. repeat split; try discriminate.
  apply not_elem_of_nil.
Qed.
