(* ===== verification/RaftStorage.v ===== *)
(** * Persistent Raft state

    [byoridb-storage/src/raft/storage.rs]: the term, vote and log entries of a
    Raft group in a key-value store, under keys made of a prefix, the group's
    space and partition in big-endian, and the entry's index in big-endian. *)

From Stdlib Require Import ZArith Lia Strings.Byte Strings.String.
From stdpp Require Import base tactics list sorting strings pretty.
From S2P Require Import Prelude OrdMap History KVStore KVStoreFacts RaftLog.

Definition STATE_PREFIX : bytes := bs "raft:state:".
Definition LOG_PREFIX : bytes := bs "raft:log:".

Record RaftPersistentState := { rps_current_term : Term; rps_voted_for : option NodeId }.

Definition RaftPersistentState_default : RaftPersistentState :=
  {| rps_current_term := 0; rps_voted_for := None |}.

Inductive RaftStorageError :=
| Store (msg : string)
| Serialization (msg : string)
| Deserialization (msg : string).

(** [raft_space_id] and [raft_part_id] of the group; the store is the state. *)
Record RaftStorage := { rs_space_id : Z; rs_part_id : Z }.

(** The key of [sort_by_key(|e| e.index)]. *)
Definition index_le (a b : LogEntry) : Prop := entry_index a <= entry_index b.
#[global] Instance index_le_dec : RelDecision index_le.
Proof. intros a b. apply Z.le_dec. Defined.

Section storage.
Context {S : Type} `{KVStoreRequired S} `{Bincode RaftPersistentState} `{Bincode LogEntry}.

Abbreviation RS A := (S -> Result RaftStorageError A * S).

(** [.await.map_err(|e| RaftStorageError::Store(e.to_string()))] *)
Definition store_err {A} (c : KVOp S A) : RS A :=
  fun s => match c s with
           | (Ok a, s') => (Ok a, s')
           | (Err e, s') => (Err (Store (KVStoreError_to_string e)), s')
           end.

Definition group_bytes (r : RaftStorage) : bytes :=
  be_bytes 4 (rs_space_id r) ++ be_bytes 4 (rs_part_id r).

Definition state_key (r : RaftStorage) : bytes := STATE_PREFIX ++ group_bytes r.
Definition log_prefix (r : RaftStorage) : bytes := LOG_PREFIX ++ group_bytes r ++ bs ":".
Definition log_key (r : RaftStorage) (index : LogIndex) : bytes := log_prefix r ++ be_bytes 8 index.

Definition deserialize_as {A} `{Bincode A} (data : bytes) : RS A :=
  match deserialize data with Ok a => st_ret a | Err m => st_fail (Deserialization m) end.
Definition serialize_as {A} `{Bincode A} (a : A) : RS bytes :=
  match serialize a with Ok b => st_ret b | Err m => st_fail (Serialization m) end.

Definition load_state (r : RaftStorage) : RS RaftPersistentState :=
  cell <-! store_err (kv_get (state_key r)) ;;
  match cell with
  | Some data => deserialize_as data
  | None => st_ret RaftPersistentState_default
  end.

Definition save_state (r : RaftStorage) (st : RaftPersistentState) : RS unit :=
  data <-! serialize_as st ;;
  store_err (kv_put (state_key r) data).

Definition load_entry (r : RaftStorage) (index : LogIndex) : RS (option LogEntry) :=
  cell <-! store_err (kv_get (log_key r index)) ;;
  match cell with
  | Some data => e <-! deserialize_as data ;; st_ret (Some e)
  | None => st_ret None
  end.

Definition save_entry (r : RaftStorage) (entry : LogEntry) : RS unit :=
  data <-! serialize_as entry ;;
  store_err (kv_put (log_key r (entry_index entry)) data).

Definition save_entries (r : RaftStorage) (es : list LogEntry) : RS unit :=
  st_for_each (save_entry r) es.

(** The index parsed from a log key, when the key is long enough. *)
Definition key_index (prefix key : bytes) : option LogIndex :=
  if (length prefix + 8 <=? length key)%nat
  then Some (of_be (take 8 (drop (length prefix) key))) else None.

Definition delete_entries_from (r : RaftStorage) (start_index : LogIndex) : RS unit :=
  let prefix := log_prefix r in
  rows <-! store_err (kv_scan_prefix prefix) ;;
  st_for_each (fun kv : kv_pair =>
    match key_index prefix kv.1 with
    | Some index => if start_index <=? index then store_err (kv_delete kv.1) else st_ret tt
    | None => st_ret tt
    end) rows.

(** The loop that decodes the rows of the log. *)
Fixpoint decode_rows (rows : list kv_pair) : RS (list LogEntry) :=
  match rows with
  | [] => st_ret []
  | (_, data) :: rows' =>
      e <-! deserialize_as data ;;
      es <-! decode_rows rows' ;;
      st_ret (e :: es)
  end.

Definition load_all_entries (r : RaftStorage) : RS (list LogEntry) :=
  rows <-! store_err (kv_scan_prefix (log_prefix r)) ;;
  es <-! decode_rows rows ;;
  st_ret (merge_sort index_le es).

(** The loop of [compact_log]; the result is the number of keys deleted. *)
Fixpoint compact_rows (prefix : bytes) (up_to_index : LogIndex) (rows : list kv_pair) (deleted : nat)
    : RS nat :=
  match rows with
  | [] => st_ret deleted
  | (key, _) :: rows' =>
      match key_index prefix key with
      | Some index =>
          if index <? up_to_index then
            store_err (kv_delete key) ;;! compact_rows prefix up_to_index rows' (Datatypes.S deleted)
          else compact_rows prefix up_to_index rows' deleted
      | None => compact_rows prefix up_to_index rows' deleted
      end
  end.

Definition compact_log (r : RaftStorage) (up_to_index : LogIndex) : RS nat :=
  let prefix := log_prefix r in
  rows <-! store_err (kv_scan_prefix prefix) ;;
  compact_rows prefix up_to_index rows 0.
End storage.

(** ** The stored log *)

Section facts.
Context `{Bincode RaftPersistentState} `{HB : Bincode LogEntry} `{!BincodeLaws LogEntry}.
Context (r : RaftStorage).

(** Every row under the group's log prefix is an entry under its own key. *)
Definition rows_ok (s : MemoryKVStore) : Prop :=
  forall k v, om_get k (data s) = Some v -> starts_with (log_prefix r) k = true ->
  exists e, u64_ok (entry_index e) /\ k = log_key r (entry_index e) /\ deserialize v = Ok e.

Definition stored (s : MemoryKVStore) (e : LogEntry) : Prop :=
  u64_ok (entry_index e) /\
  exists v, om_get (log_key r (entry_index e)) (data s) = Some v /\ deserialize v = Ok e.

Lemma log_key_cmp i j : u64_ok i -> u64_ok j -> bytes_cmp (log_key r i) (log_key r j) = (i ?= j).
Proof. intros Hi Hj. unfold log_key. rewrite bytes_cmp_app_l. by apply bytes_cmp_be_bytes. Qed.

Lemma log_key_inj i j : u64_ok i -> u64_ok j -> log_key r i = log_key r j -> i = j.
Proof.
  intros Hi Hj E. apply bytes_cmp_eq in E. rewrite log_key_cmp in E by done. by apply Z.compare_eq_iff.
Qed.

Lemma log_key_prefix i : starts_with (log_prefix r) (log_key r i) = true.
Proof. apply starts_with_app. Qed.

Lemma key_index_log_key i : u64_ok i -> key_index (log_prefix r) (log_key r i) = Some i.
Proof.
  intros Hi. unfold key_index, log_key. rewrite length_app, length_be_bytes, Nat.leb_refl.
  rewrite drop_app_exact by done. rewrite take_ge by by rewrite length_be_bytes.
  by rewrite of_be_be_bytes_small.
Qed.

(** The entries decoded from the rows, in key order. *)
Definition decoded (rows : list kv_pair) (es : list LogEntry) : Prop :=
  Forall2 (fun kv e => u64_ok (entry_index e) /\ kv.1 = log_key r (entry_index e) /\ deserialize kv.2 = Ok e)
    rows es.

Lemma decode_rows_decoded (rows : list kv_pair) es (s : MemoryKVStore) :
  decoded rows es -> decode_rows rows s = (Ok es, s).
Proof.
  induction 1 as [|[k v] e rows es (_ & _ & Hd) _ IH]; simpl; [done|].
  unfold st_bind at 1, deserialize_as. simpl in Hd. rewrite Hd. simpl. unfold st_bind. by rewrite IH.
Qed.

Lemma decoded_exists (rows : list kv_pair) :
  (forall k v, (k, v) ∈ rows -> exists e, u64_ok (entry_index e) /\ k = log_key r (entry_index e) /\ deserialize v = Ok e) ->
  exists es, decoded rows es.
Proof.
  induction rows as [|[k v] rows IH]; intros Hr; [exists []; constructor|].
  destruct (Hr k v) as (e & He); [left|]. destruct IH as [es Hes]; [intros; apply Hr; by right|].
  exists (e :: es). by constructor.
Qed.

Definition by_index (a b : LogEntry) : Prop := entry_index a < entry_index b.

Lemma decoded_sorted (rows : list kv_pair) es : om_wf rows -> decoded rows es -> StronglySorted by_index es.
Proof.
  intros Hwf Hd. revert Hwf. induction Hd as [|[k v] e rows es (Hu & Hk & _) Hd IH]; intros Hwf; constructor.
  - eauto using om_wf_tail.
  - rewrite Forall_forall. intros e' He'. apply list_elem_of_lookup_1 in He' as [i Hi].
    destruct (Forall2_lookup_r _ _ _ _ _ Hd Hi) as ([k' v'] & Hk' & Hu' & Ek' & _).
    apply list_elem_of_lookup_2 in Hk'. simpl in *. subst k k'.
    pose proof (om_wf_head _ _ _ _ _ Hwf Hk') as Hc. cbn [cmp bytes_ordered] in Hc.
    rewrite log_key_cmp in Hc by done. by rewrite Z.compare_lt_iff in Hc.
Qed.

Lemma by_index_unique es a b :
  StronglySorted by_index es -> a ∈ es -> b ∈ es -> entry_index a = entry_index b -> a = b.
Proof.
  induction 1 as [|x l _ IH Hx]; [by intros ?%elem_of_nil|]. rewrite Forall_forall in Hx.
  unfold by_index in Hx. intros [->|Ha]%elem_of_cons [->|Hb]%elem_of_cons Hi; [done| | |by apply IH].
  - specialize (Hx b Hb). lia.
  - specialize (Hx a Ha). lia.
Qed.

#[local] Instance index_le_trans : Transitive index_le.
Proof. unfold index_le. intros a b c. lia. Qed.
#[local] Instance index_le_total : Total index_le.
Proof. unfold index_le. intros a b. lia. Qed.

(** The rows come back in key order, so the final sort changes nothing. *)
Lemma merge_sort_by_index es : StronglySorted by_index es -> merge_sort index_le es = es.
Proof.
  intros Hs. assert (Hle : StronglySorted index_le es).
  { clear -Hs. induction Hs as [|x l Hs IH Hx]; constructor; [done|]. eapply Forall_impl; [exact Hx|].
    unfold by_index, index_le. lia. }
  pose proof (merge_sort_Permutation index_le es) as Hp.
  apply (StronglySorted_unique_strong index_le); [|apply (StronglySorted_merge_sort index_le)|done|done].
  intros a b Ha Hb H1 H2. rewrite Hp in Ha. apply (by_index_unique es); [done..|].
  unfold index_le in *. lia.
Qed.

(** Loading the log returns the stored entries, ascending by index. *)
Lemma load_all_spec s :
  mem_wf s -> rows_ok s ->
  exists es, load_all_entries r s = (Ok es, s) /\ StronglySorted by_index es /\
    forall e, e ∈ es <-> stored s e.
Proof.
  intros [Hwf _] Hrows. set (rows := List.filter (fun kv => starts_with (log_prefix r) kv.1) (data s)).
  assert (Hin : forall k v, (k, v) ∈ rows <-> om_get k (data s) = Some v /\ starts_with (log_prefix r) k = true).
  { intros k v. unfold rows. by rewrite list_elem_of_In, filter_In, <- list_elem_of_In, om_get_elem. }
  destruct (decoded_exists rows) as [es Hd].
  { intros k v [Hg Hp]%Hin. by apply Hrows. }
  pose proof (decoded_sorted rows es ltac:(by apply om_filter_wf) Hd) as Hs. exists es. split; [|split; [done|]].
  - unfold load_all_entries, st_bind, store_err. cbn [kv_scan_prefix memory_required].
    unfold Memory.scan_prefix. rewrite prefix_walk by done. fold rows.
    rewrite (decode_rows_decoded rows es s Hd). unfold st_ret. by rewrite merge_sort_by_index.
  - intros e. split.
    + intros He. apply list_elem_of_lookup_1 in He as [i Hi].
      destruct (Forall2_lookup_r _ _ _ _ _ Hd Hi) as ([k v] & Hk & Hu & Ek & Hdv). simpl in *. subst k.
      apply list_elem_of_lookup_2, Hin in Hk as [Hk _]. split; [done|]. by exists v.
    + intros [Hu (v & Hg & Hdv)].
      assert (Hk : (log_key r (entry_index e), v) ∈ rows) by (apply Hin; split; [done|apply log_key_prefix]).
      apply list_elem_of_lookup_1 in Hk as [i Hi].
      destruct (Forall2_lookup_l _ _ _ _ _ Hd Hi) as (e' & He' & _ & _ & Hdv'). simpl in Hdv'.
      rewrite Hdv in Hdv'. injection Hdv' as <-. by eapply list_elem_of_lookup_2.
Qed.

Lemma by_index_ext l1 l2 :
  StronglySorted by_index l1 -> StronglySorted by_index l2 -> (forall e, e ∈ l1 <-> e ∈ l2) -> l1 = l2.
Proof.
  intros H1 H2 Hm.
  assert (Hnd : forall l, StronglySorted by_index l -> NoDup l).
  { induction 1 as [|x l _ IH Hx]; constructor; [|done]. intros Hin. rewrite Forall_forall in Hx.
    specialize (Hx x Hin). unfold by_index in Hx. lia. }
  apply (StronglySorted_unique_strong by_index); [|done|done|by apply NoDup_Permutation; auto].
  unfold by_index. lia.
Qed.

Lemma by_index_filter f es : StronglySorted by_index es -> StronglySorted by_index (List.filter f es).
Proof.
  induction 1 as [|x l _ IH Hx]; simpl; [constructor|]. destruct (f x); [|done]. constructor; [done|].
  rewrite Forall_forall in Hx |- *. intros y [Hy _]%list_elem_of_In%filter_In. by apply Hx, list_elem_of_In.
Qed.

(** The row's index satisfies [f]. *)
Definition selected (f : Z -> bool) (kv : kv_pair) : bool :=
  match key_index (log_prefix r) kv.1 with Some i => f i | None => false end.

Lemma selected_pair f k v :
  selected f (k, v) = match key_index (log_prefix r) k with Some i => f i | None => false end.
Proof. done. Qed.

(** The state after deleting the rows whose index satisfies [f]. *)
Definition drop_indices (f : Z -> bool) (s : MemoryKVStore) : MemoryKVStore :=
  with_data s (om_remove_all
    (List.filter (selected f)
      (List.filter (fun kv => starts_with (log_prefix r) kv.1) (data s))).*1 (data s)).

Lemma drop_indices_get f s k v :
  mem_wf s -> rows_ok s -> starts_with (log_prefix r) k = true ->
  om_get k (data (drop_indices f s)) = Some v <->
  om_get k (data s) = Some v /\ key_index (log_prefix r) k ≠ None /\
  (forall i, key_index (log_prefix r) k = Some i -> f i = false).
Proof.
  intros [Hwf _] Hrows Hp. unfold drop_indices. simpl. rewrite om_get_remove_all by done.
  case_bool_decide as Hk.
  - apply list_elem_of_fmap in Hk as ([k' v'] & -> & Hin).
    apply list_elem_of_In, filter_In in Hin as [_ Hf]. unfold selected in Hf. cbn [fst] in *.
    destruct (key_index (log_prefix r) k') as [i|] eqn:Ei; [|done].
    split; [done|]. intros (_ & _ & Hi). specialize (Hi i eq_refl). congruence.
  - split; [|by intros [? _]]. intros Hg. split; [done|].
    destruct (Hrows k v Hg Hp) as (e & Hu & -> & _). rewrite key_index_log_key by done.
    split; [done|]. intros i [= <-]. destruct (f (entry_index e)) eqn:Ef; [|done]. destruct Hk.
    apply list_elem_of_fmap. exists (log_key r (entry_index e), v). split; [done|].
    apply list_elem_of_In, filter_In. unfold selected. cbn [fst]. rewrite key_index_log_key by done. split; [|done].
    apply filter_In. split; [|done]. by apply list_elem_of_In, om_get_elem.
Qed.

Lemma drop_indices_spec f s :
  mem_wf s -> rows_ok s ->
  mem_wf (drop_indices f s) /\ rows_ok (drop_indices f s) /\
  forall e, stored (drop_indices f s) e <-> stored s e /\ f (entry_index e) = false.
Proof.
  intros Hwf Hrows. split; [|split].
  - destruct Hwf as [Hd Hh]. split; [simpl; by apply om_remove_all_wf|done].
  - intros k v Hg Hp. apply drop_indices_get in Hg as [Hg _]; [|done..]. by apply Hrows.
  - intros e. unfold stored. split.
    + intros [Hu (v & Hg & Hd)]. apply drop_indices_get in Hg as (Hg & _ & Hf); [|done|done|apply log_key_prefix].
      split; [split; [done|by exists v]|]. apply Hf. by apply key_index_log_key.
    + intros [[Hu (v & Hg & Hd)] Hf]. split; [done|]. exists v. split; [|done].
      apply drop_indices_get; [done|done|apply log_key_prefix|]. rewrite key_index_log_key by done.
      split; [done|]. split; [done|]. by intros i [= <-].
Qed.

(** Loading after such a deletion. *)
Lemma load_all_drop f s es :
  mem_wf s -> rows_ok s -> load_all_entries r s = (Ok es, s) ->
  load_all_entries r (drop_indices f s) =
    (Ok (List.filter (fun e => negb (f (entry_index e))) es), drop_indices f s).
Proof.
  intros Hwf Hrows Hes. destruct (drop_indices_spec f s Hwf Hrows) as (Hwf' & Hrows' & Hst).
  destruct (load_all_spec s Hwf Hrows) as (es0 & Hl & Hs & Hm). rewrite Hes in Hl. injection Hl as <-.
  destruct (load_all_spec _ Hwf' Hrows') as (es' & Hl' & Hs' & Hm'). rewrite Hl'. do 2 f_equal.
  apply by_index_ext; [done|by apply by_index_filter|]. intros e.
  rewrite Hm', Hst, list_elem_of_In, filter_In, <- list_elem_of_In, Hm, negb_true_iff. done.
Qed.

Lemma delete_rows_run (f : Z -> bool) (rows : list kv_pair) s :
  st_for_each (fun kv : kv_pair =>
    match key_index (log_prefix r) kv.1 with
    | Some index => if f index then store_err (kv_delete kv.1) else st_ret tt
    | None => st_ret tt
    end) rows s =
  (Ok tt : Result RaftStorageError unit, with_data s (om_remove_all
    (List.filter (selected f) rows).*1
    (data s))).
Proof.
  revert s. induction rows as [|[k v] rows IH]; intros s; simpl; [by destruct s|].
  unfold st_bind at 1. rewrite selected_pair.
  destruct (key_index (log_prefix r) k) as [i|]; [|apply IH].
  destruct (f i); [|apply IH]. unfold store_err at 1. simpl. by rewrite IH.
Qed.

Lemma compact_rows_run up (rows : list kv_pair) n s :
  compact_rows (log_prefix r) up rows n s =
  (Ok (n + length (List.filter (selected (fun i => (i <? up)%Z)) rows))%nat,
   with_data s (om_remove_all
    (List.filter (selected (fun i => (i <? up)%Z)) rows).*1
    (data s))).
Proof.
  revert n s. induction rows as [|[k v] rows IH]; intros n s; simpl.
  { destruct s. by rewrite Nat.add_0_r. }
  rewrite !selected_pair. destruct (key_index (log_prefix r) k) as [i|]; [|apply IH].
  destruct (i <? up); [|apply IH]. unfold st_bind, store_err. simpl. rewrite IH. simpl. do 3 f_equal. lia.
Qed.

Lemma scan_log_rows s :
  mem_wf s -> Memory.scan_prefix (log_prefix r) s =
    (Ok (List.filter (fun kv => starts_with (log_prefix r) kv.1) (data s)), s).
Proof. intros [Hwf _]. unfold Memory.scan_prefix. by rewrite prefix_walk. Qed.

Lemma delete_entries_from_run i s :
  mem_wf s -> delete_entries_from r i s = (Ok tt, drop_indices (fun j => i <=? j) s).
Proof.
  intros Hwf. unfold delete_entries_from, st_bind at 1, store_err at 1. cbn [kv_scan_prefix memory_required].
  rewrite scan_log_rows by done. apply (delete_rows_run (fun j => i <=? j)).
Qed.

Lemma compact_log_run up s es :
  mem_wf s -> rows_ok s -> load_all_entries r s = (Ok es, s) ->
  compact_log r up s =
    (Ok (length (List.filter (fun e => entry_index e <? up) es)), drop_indices (fun j => j <? up) s).
Proof.
  intros Hwf Hrows Hes. unfold compact_log, st_bind, store_err at 1. cbn [kv_scan_prefix memory_required].
  rewrite scan_log_rows by done. rewrite compact_rows_run.
  set (rows := List.filter (fun kv => starts_with (log_prefix r) kv.1) (data s)).
  destruct (decoded_exists rows) as [es0 Hd].
  { intros k v Hin. apply list_elem_of_In, filter_In in Hin as [Hin Hp]. apply Hrows; [|done].
    apply om_get_elem; [apply Hwf|by apply list_elem_of_In]. }
  assert (es0 = es) as ->.
  { revert Hes. unfold load_all_entries, st_bind, store_err at 1. cbn [kv_scan_prefix memory_required].
    rewrite scan_log_rows by done. fold rows. rewrite (decode_rows_decoded _ es0 s Hd). intros [= <-].
    symmetry. apply merge_sort_by_index. eapply decoded_sorted; [|exact Hd]. apply om_filter_wf, Hwf. }
  assert (Hlen : length (List.filter (selected (fun i => (i <? up)%Z)) rows) =
    length (List.filter (fun e => entry_index e <? up) es)).
  { clear Hes. clearbody rows. unfold decoded in Hd.
    induction Hd as [|[k v] e rows es (Hu & Hk & _) _ IH]; [done|].
    simpl in Hk. subst k. cbn [List.filter]. rewrite selected_pair, key_index_log_key by done.
    destruct (entry_index e <? up); simpl; congruence. }
  by rewrite Hlen.
Qed.

Lemma save_entry_spec s e data_e :
  mem_wf s -> rows_ok s -> u64_ok (entry_index e) -> serialize e = Ok data_e ->
  exists s1, save_entry r e s = (Ok tt, s1) /\ mem_wf s1 /\ rows_ok s1 /\
    forall x, stored s1 x <-> x = e \/ (stored s x /\ entry_index x <> entry_index e).
Proof.
  intros Hwf Hrows Hu Hser. pose proof (deserialize_serialize e data_e Hser) as Hde.
  pose proof Hwf as [Hd Hh]. eexists. split.
  { unfold save_entry, st_bind, serialize_as. rewrite Hser. reflexivity. }
  pose proof (fun k => om_get_insert_decide (log_key r (entry_index e)) data_e (data s) k Hd) as Hget.
  split; [|split].
  - split; [simpl; by apply om_insert_wf|done].
  - intros k v. simpl. rewrite Hget. case_bool_decide as Hk; [|by apply Hrows].
    intros [= <-] _. by exists e.
  - intros x. unfold stored. simpl. rewrite Hget. case_bool_decide as Hk.
    + split.
      * intros [Hux (v & [= <-] & Hdv)]. left. congruence.
      * intros [->|[[Hux _] Hne]]; [by eauto|]. destruct Hne. by apply log_key_inj.
    + split.
      * intros [Hux Hx]. right. split; [done|]. congruence.
      * intros [->|[? _]]; [done|done].
Qed.

(** C29: on a well-formed store the persisted Raft log behaves as a set of entries
    keyed by index: loading returns them in strictly ascending index order,
    saving an entry replaces the one of its index, deleting from an index keeps
    exactly the entries before it, and compacting up to an index keeps exactly
    the entries from it on and returns how many were removed. *)
Theorem raft_storage_log s es e data_e i :
  mem_wf s -> rows_ok s -> load_all_entries r s = (Ok es, s) ->
  u64_ok (entry_index e) -> serialize e = Ok data_e ->
  StronglySorted by_index es /\
  (exists s1 es1, save_entry r e s = (Ok tt, s1) /\ load_all_entries r s1 = (Ok es1, s1) /\
    forall x, x ∈ es1 <-> x = e \/ (x ∈ es /\ entry_index x <> entry_index e)) /\
  (exists s2, delete_entries_from r i s = (Ok tt, s2) /\
    load_all_entries r s2 = (Ok (List.filter (fun x => entry_index x <? i) es), s2)) /\
  (exists s3, compact_log r i s = (Ok (length (List.filter (fun x => entry_index x <? i) es)), s3) /\
    load_all_entries r s3 = (Ok (List.filter (fun x => i <=? entry_index x) es), s3)).
Proof.
  intros Hwf Hrows Hes Hu Hser. pose proof (deserialize_serialize e data_e Hser) as Hde.
  destruct (load_all_spec s Hwf Hrows) as (es0 & Hl & Hs & Hm). rewrite Hes in Hl. injection Hl as <-.
  split; [done|]. split; [|split].
  - destruct (save_entry_spec s e data_e Hwf Hrows Hu Hser) as (s1 & Hsave & Hwf1 & Hrows1 & Hst1).
    destruct (load_all_spec s1 Hwf1 Hrows1) as (es1 & Hl1 & _ & Hm1).
    exists s1, es1. split; [done|]. split; [done|]. intros x. by rewrite Hm1, Hst1, Hm.
  - eexists. split; [by apply delete_entries_from_run|]. rewrite (load_all_drop _ s es) by done.
    do 2 f_equal. apply List.filter_ext. intros x. by rewrite Z.ltb_antisym.
  - eexists. split; [by apply compact_log_run|]. rewrite (load_all_drop _ s es) by done.
    do 2 f_equal. apply List.filter_ext. intros x. by rewrite Z.leb_antisym.
Qed.
End facts.

(** ** Term and vote *)

Definition storage_ok (r : RaftStorage) : Prop := u32_ok (rs_space_id r) /\ u32_ok (rs_part_id r).

Lemma state_key_inj r r' : storage_ok r -> storage_ok r' -> state_key r = state_key r' -> r = r'.
Proof.
  intros [H1 H2] [H3 H4] E. unfold state_key, group_bytes in E. apply app_inv_head in E.
  apply app_inj_1 in E as [E1 E2]; [|by rewrite !length_be_bytes].
  apply (f_equal of_be) in E1, E2. rewrite (of_be_be_bytes_small 4 _ H1), (of_be_be_bytes_small 4 _ H3) in E1.
  rewrite (of_be_be_bytes_small 4 _ H2), (of_be_be_bytes_small 4 _ H4) in E2.
  destruct r, r'. simpl in *. congruence.
Qed.

(** Writing outside a prefix does not change a scan of the prefix. *)
Lemma scan_prefix_put_outside prefix key value s :
  mem_wf s -> starts_with prefix key = false ->
  (Memory.scan_prefix prefix (with_data s (om_insert key value (data s)))).1 =
  (Memory.scan_prefix prefix s).1.
Proof.
  intros [Hwf _] Hoff. unfold Memory.scan_prefix. cbn [fst data with_data].
  assert (Hwf' : om_wf (om_insert key value (data s))) by by apply om_insert_wf.
  rewrite !prefix_walk by done. f_equal. apply om_ext; [by apply om_filter_wf..|].
  intros k. apply option_eq. intros v. rewrite !om_get_elem by by apply om_filter_wf.
  rewrite !list_elem_of_In, !filter_In, <- !list_elem_of_In. cbn [fst].
  rewrite <- !om_get_elem by done. rewrite om_get_insert by done. destruct (cmp k key) eqn:E; try done.
  apply cmp_eq_iff in E. subst k. rewrite Hoff. split; by intros [_ ?].
Qed.

Lemma decode_rows_result `{Bincode LogEntry} rows (s1 s2 : MemoryKVStore) :
  (decode_rows rows s1).1 = (decode_rows rows s2).1.
Proof.
  induction rows as [|[k v] rows IH]; cbn [decode_rows]; [done|].
  unfold st_bind, deserialize_as. destruct (deserialize v) as [e|m]; simpl; [|done].
  destruct (decode_rows rows s1) as [[] ?], (decode_rows rows s2) as [[] ?]; simpl in *; congruence.
Qed.

Lemma load_all_entries_scan `{Bincode LogEntry} r (s1 s2 : MemoryKVStore) :
  (Memory.scan_prefix (log_prefix r) s1).1 = (Memory.scan_prefix (log_prefix r) s2).1 ->
  (load_all_entries r s1).1 = (load_all_entries r s2).1.
Proof.
  unfold load_all_entries. generalize (log_prefix r). intros p Hscan.
  unfold st_bind, store_err. cbn [kv_scan_prefix memory_required].
  destruct (Memory.scan_prefix p s1) as [x t1], (Memory.scan_prefix p s2) as [y t2].
  cbn [fst] in Hscan. subst y. destruct x as [rows|]; [|done].
  pose proof (decode_rows_result rows t1 t2) as Hdec.
  destruct (decode_rows rows t1) as [[] ?], (decode_rows rows t2) as [[] ?]; simpl in *; congruence.
Qed.

(** A saved term and vote are read back as saved, and saving them changes
    neither the term and vote of any other group nor any group's log. *)
Theorem raft_state_roundtrip `{Bincode RaftPersistentState, !BincodeLaws RaftPersistentState, Bincode LogEntry}
    r st data_st s :
  mem_wf s -> storage_ok r -> serialize st = Ok data_st ->
  exists s', save_state r st s = (Ok tt, s') /\ load_state r s' = (Ok st, s') /\
    (forall r', storage_ok r' -> r' <> r -> (load_state r' s').1 = (load_state r' s).1) /\
    (forall r', (load_all_entries r' s').1 = (load_all_entries r' s).1).
Proof.
  intros Hm Hr Hser. pose proof Hm as [Hwf _]. exists (with_data s (om_insert (state_key r) data_st (data s))).
  split. { unfold save_state, st_bind, serialize_as. rewrite Hser. reflexivity. }
  pose proof (fun k => om_get_insert_decide (state_key r) data_st (data s) k Hwf) as Hget.
  split; [|split].
  - unfold load_state, st_bind, store_err. cbn [kv_get memory_required]. unfold Memory.get.
    cbn [data with_data]. rewrite Hget, bool_decide_eq_true_2 by done.
    unfold deserialize_as. by rewrite (deserialize_serialize st data_st Hser).
  - intros r' Hr' Hne. unfold load_state, st_bind, store_err. cbn [kv_get memory_required]. unfold Memory.get.
    cbn [data with_data]. rewrite Hget, bool_decide_eq_false_2.
    + destruct (om_get (state_key r') (data s)) as [d|]; [|done]. unfold deserialize_as. by destruct (deserialize d).
    + intros E. by apply Hne, state_key_inj.
  - intros r'. apply load_all_entries_scan. by apply scan_prefix_put_outside.
Qed.

(** ** A concrete codec

    Entries of no-operation commands and every term and vote in range, in
    fixed-width big-endian fields; other commands are refused. *)
#[local] Instance noop_codec : Bincode LogEntry := {|
  serialize e :=
    match command e with
    | Noop => if decide (u64_ok (entry_term e) /\ u64_ok (entry_index e))
              then Ok (be_bytes 8 (entry_term e) ++ be_bytes 8 (entry_index e)) else Err "range"%string
    | _ => Err "command"%string
    end;
  deserialize b :=
    if decide (length b = 16%nat)
    then Ok {| entry_term := of_be (take 8 b); entry_index := of_be (drop 8 b); command := Noop |}
    else Err "length"%string |}.

#[local] Instance noop_codec_laws : BincodeLaws LogEntry.
Proof.
  intros [t i c] b. unfold serialize, deserialize, noop_codec. cbn [entry_term entry_index command].
  destruct c; try discriminate. destruct (decide _) as [[Ht Hi]|]; [|discriminate]. intros Hb.
  assert (b = be_bytes 8 t ++ be_bytes 8 i) as -> by congruence.
  rewrite decide_True by by rewrite length_app, !length_be_bytes.
  rewrite take_app_length', drop_app_length' by by rewrite length_be_bytes.
  by rewrite (of_be_be_bytes_small 8 t Ht), (of_be_be_bytes_small 8 i Hi).
Qed.

#[local] Instance vote_codec : Bincode RaftPersistentState := {|
  serialize st :=
    if decide (u64_ok (rps_current_term st) /\ u64_ok (default 0 (rps_voted_for st)))
    then Ok (be_bytes 8 (rps_current_term st) ++
             match rps_voted_for st with Some v => be_bytes 8 v | None => [] end)
    else Err "range"%string;
  deserialize b :=
    Ok {| rps_current_term := of_be (take 8 b);
          rps_voted_for := match drop 8 b with [] => None | v => Some (of_be v) end |} |}.

#[local] Instance vote_codec_laws : BincodeLaws RaftPersistentState.
Proof.
  intros [t v] b. unfold serialize, deserialize, vote_codec. cbn [rps_current_term rps_voted_for].
  destruct (decide _) as [[Ht Hv]|]; [|discriminate]. intros Hb.
  assert (b = be_bytes 8 t ++ match v with Some v => be_bytes 8 v | None => [] end) as -> by congruence.
  rewrite take_app_length', drop_app_length' by by rewrite length_be_bytes.
  rewrite (of_be_be_bytes_small 8 t Ht). destruct v as [v|]; [|done].
  pose proof (length_be_bytes 8 v) as Hl. destruct (be_bytes 8 v) eqn:E; [done|]. rewrite <- E.
  by rewrite (of_be_be_bytes_small 8 v Hv).
Qed.

Definition group_1_2 : RaftStorage := {| rs_space_id := 1; rs_part_id := 2 |}.
Definition noop_at (t i : Z) : LogEntry := {| entry_term := t; entry_index := i; command := Noop |}.
Definition stored_log : MemoryKVStore := (save_entry group_1_2 (noop_at 1 1) Memory.new).2.

Lemma stored_log_ok : mem_wf stored_log /\ rows_ok group_1_2 stored_log.
Proof.
  destruct (save_entry_spec group_1_2 Memory.new (noop_at 1 1) (be_bytes 8 1 ++ be_bytes 8 1))
    as (s1 & Hs & Hw & Hr & _); [repeat split; auto with kv|done|done|done|].
  unfold stored_log. by rewrite Hs.
Qed.

Lemma raft_storage_log_witness :
  exists s2, delete_entries_from group_1_2 1 stored_log = (Ok tt, s2) /\
    load_all_entries group_1_2 s2 = (Ok [], s2).
Proof.
  destruct (raft_storage_log group_1_2 stored_log [noop_at 1 1] (noop_at 2 2) (be_bytes 8 2 ++ be_bytes 8 2) 1
    (proj1 stored_log_ok) (proj2 stored_log_ok) ltac:(reflexivity) ltac:(done) ltac:(reflexivity))
    as (_ & _ & H & _).
  exact H.
Defined.

Lemma raft_state_roundtrip_witness :
  exists s', save_state group_1_2 {| rps_current_term := 3; rps_voted_for := Some 1 |} Memory.new = (Ok tt, s') /\
    load_state group_1_2 s' = (Ok {| rps_current_term := 3; rps_voted_for := Some 1 |}, s').
Proof.
  destruct (raft_state_roundtrip group_1_2 {| rps_current_term := 3; rps_voted_for := Some 1 |}
    (be_bytes 8 3 ++ be_bytes 8 1) Memory.new ltac:(repeat split; auto with kv)
    ltac:(repeat split; done) ltac:(reflexivity)) as (s' & H1 & H2 & _).
  exists s'. split; [exact H1|exact H2].
Defined.
