(* ===== verification/RaftSnapshot.v ===== *)
(** * Raft snapshots

    [byoridb-storage/src/raft/snapshot.rs]: a snapshot is a byte stream of
    length-prefixed key-value pairs, stored as metadata and 64 KB chunks. The
    writer builds and saves it, the reader loads and parses it, and the
    installer collects the chunks a leader sends and saves them with the writer.
    The store is threaded through the calls; the clock is an argument. *)

From Stdlib Require Import ZArith Lia Strings.Byte Strings.String.
From stdpp Require Import base tactics list sorting strings pretty gmap.
From S2P Require Import Prelude OrdMap History KVStore KVStoreFacts RaftLog RaftStorage.

Definition SNAPSHOT_META_PREFIX : bytes := bs "raft:snapshot:meta:".
Definition SNAPSHOT_DATA_PREFIX : bytes := bs "raft:snapshot:data:".

Record SnapshotMeta := {
  last_included_index : LogIndex;
  last_included_term : Term;
  meta_size : Z;
  chunk_count : Z;
  created_at : Z
}.

Record SnapshotChunk := {
  chunk_index : Z;
  chunk_offset : Z;
  chunk_data : bytes;
  is_last : bool
}.

Inductive SnapshotError :=
| SnapStorage (msg : string)
| SnapSerialization (msg : string)
| SnapDeserialization (msg : string)
| SnapCorruption (msg : string)
| SnapInvalidChunk (msg : string)
| SnapInvalidState (msg : string).

(** 64 KB chunks. *)
Definition CHUNK_SIZE : Z := 64 * 1024.

(** [u64::div_ceil] *)
Definition div_ceil (a b : Z) : Z := if a mod b =? 0 then a / b else a / b + 1.

Definition meta_key (space_id part_id : Z) : bytes :=
  SNAPSHOT_META_PREFIX ++ be_bytes 4 space_id ++ be_bytes 4 part_id.
Definition chunk_key (space_id part_id chunk_index : Z) : bytes :=
  SNAPSHOT_DATA_PREFIX ++ be_bytes 4 space_id ++ be_bytes 4 part_id ++ bs ":" ++ be_bytes 4 chunk_index.

Record SnapshotWriter := {
  w_space_id : Z;
  w_part_id : Z;
  w_last_included_index : LogIndex;
  w_last_included_term : Term;
  w_data : bytes;
  w_chunk_size : Z
}.

Record SnapshotReader := { r_space_id : Z; r_part_id : Z }.

Record SnapshotInstaller := {
  i_space_id : Z;
  i_part_id : Z;
  pending_meta : option SnapshotMeta;
  pending_chunks : list (option bytes);
  received_chunks : Z
}.

Section snapshot.
Context {S : Type} `{KVStoreRequired S} `{Bincode SnapshotMeta} `{Bincode SnapshotChunk}.

Abbreviation SN A := (S -> Result SnapshotError A * S).

Definition snap_store {A} (c : KVOp S A) : SN A :=
  fun s => match c s with
           | (Ok a, s') => (Ok a, s')
           | (Err e, s') => (Err (SnapStorage (KVStoreError_to_string e)), s')
           end.
Definition snap_serialize {A} `{Bincode A} (a : A) : SN bytes :=
  match serialize a with Ok b => st_ret b | Err m => st_fail (SnapSerialization m) end.
Definition snap_deserialize {A} `{Bincode A} (b : bytes) : SN A :=
  match deserialize b with Ok a => st_ret a | Err m => st_fail (SnapDeserialization m) end.

(** ** Writer *)

Definition writer_new (space_id part_id : Z) (index : LogIndex) (term : Term) : SnapshotWriter :=
  {| w_space_id := space_id; w_part_id := part_id; w_last_included_index := index;
     w_last_included_term := term; w_data := []; w_chunk_size := CHUNK_SIZE |}.

Definition write (d : bytes) (w : SnapshotWriter) : SnapshotWriter :=
  {| w_space_id := w_space_id w; w_part_id := w_part_id w;
     w_last_included_index := w_last_included_index w; w_last_included_term := w_last_included_term w;
     w_data := w_data w ++ d; w_chunk_size := w_chunk_size w |}.

(** The lengths are cast to [u32]. *)
Definition write_kv (key value : bytes) (w : SnapshotWriter) : SnapshotWriter :=
  write (le_bytes 4 (as_u32 (Z.of_nat (length key))) ++ key ++
         le_bytes 4 (as_u32 (Z.of_nat (length value))) ++ value) w.

(** The loop of [finish] over the chunks, from the [i]th. *)
Fixpoint save_chunks (w : SnapshotWriter) (count i : Z) (cs : list bytes) : SN unit :=
  match cs with
  | [] => st_ret tt
  | d :: cs' =>
      let chunk := {| chunk_index := as_u32 i; chunk_offset := as_u64 (i * w_chunk_size w);
                      chunk_data := d; is_last := as_u32 i =? as_u32 (count - 1) |} in
      value <-! snap_serialize chunk ;;
      snap_store (kv_put (chunk_key (w_space_id w) (w_part_id w) (as_u32 i)) value) ;;!
      save_chunks w count (i + 1) cs'
  end.

Definition finish (now : Z) (w : SnapshotWriter) : SN SnapshotMeta :=
  let size := Z.of_nat (length (w_data w)) in
  let count := as_u32 (div_ceil size (w_chunk_size w)) in
  let meta := {| last_included_index := w_last_included_index w;
                 last_included_term := w_last_included_term w;
                 meta_size := size; chunk_count := count; created_at := now |} in
  save_chunks w count 0 (chunks (Z.to_nat (w_chunk_size w)) (w_data w)) ;;!
  meta_value <-! snap_serialize meta ;;
  snap_store (kv_put (meta_key (w_space_id w) (w_part_id w)) meta_value) ;;!
  st_ret meta.

(** ** Reader *)

Definition load_meta (r : SnapshotReader) : SN (option SnapshotMeta) :=
  cell <-! snap_store (kv_get (meta_key (r_space_id r) (r_part_id r))) ;;
  match cell with
  | Some d => m <-! snap_deserialize d ;; st_ret (Some m)
  | None => st_ret None
  end.

Definition load_chunk (r : SnapshotReader) (index : Z) : SN (option SnapshotChunk) :=
  cell <-! snap_store (kv_get (chunk_key (r_space_id r) (r_part_id r) index)) ;;
  match cell with
  | Some d => c <-! snap_deserialize d ;; st_ret (Some c)
  | None => st_ret None
  end.

(** The [n] chunks from the [i]th, appended to [acc]. *)
Fixpoint load_chunks (r : SnapshotReader) (n : nat) (i : Z) (acc : bytes) : SN bytes :=
  match n with
  | O => st_ret acc
  | Datatypes.S n' =>
      c <-! load_chunk r i ;;
      match c with
      | None => st_fail (SnapCorruption ("Missing chunk " +:+ pretty i))
      | Some chunk => load_chunks r n' (i + 1) (acc ++ chunk_data chunk)
      end
  end.

Definition load_all_data (r : SnapshotReader) : SN (option bytes) :=
  m <-! load_meta r ;;
  match m with
  | None => st_ret None
  | Some meta => d <-! load_chunks r (Z.to_nat (chunk_count meta)) 0 [] ;; st_ret (Some d)
  end.

(** The loop of [iter_kvs]; [rest] is the data from the current offset. Every
    turn consumes eight bytes at least. *)
Fixpoint parse_kvs (fuel : nat) (rest : bytes) (kvs : list kv_pair) : Result SnapshotError (list kv_pair) :=
  match fuel with
  | O => Ok kvs
  | Datatypes.S fuel' =>
      if (8 <=? length rest)%nat then
        let key_len := Z.to_nat (of_le (take 4 rest)) in
        let rest := drop 4 rest in
        if (length rest <? key_len)%nat then Err (SnapCorruption "Truncated key") else
        let key := take key_len rest in
        let rest := drop key_len rest in
        if (length rest <? 4)%nat then Err (SnapCorruption "Truncated value length") else
        let value_len := Z.to_nat (of_le (take 4 rest)) in
        let rest := drop 4 rest in
        if (length rest <? value_len)%nat then Err (SnapCorruption "Truncated value") else
        parse_kvs fuel' (drop value_len rest) (kvs ++ [(key, take value_len rest)])
      else Ok kvs
  end.

Definition iter_kvs (r : SnapshotReader) : SN (list kv_pair) :=
  d <-! load_all_data r ;;
  match d with
  | None => st_ret []
  | Some d => fun s => (parse_kvs (length d) d [], s)
  end.

(** ** Installer *)

Definition installer_new (space_id part_id : Z) : SnapshotInstaller :=
  {| i_space_id := space_id; i_part_id := part_id; pending_meta := None;
     pending_chunks := []; received_chunks := 0 |}.

Definition with_pending (i : SnapshotInstaller) (m : option SnapshotMeta) (cs : list (option bytes)) (n : Z)
    : SnapshotInstaller :=
  {| i_space_id := i_space_id i; i_part_id := i_part_id i; pending_meta := m;
     pending_chunks := cs; received_chunks := n |}.

Definition begin (now : Z) (index : LogIndex) (term : Term) (total_size : Z) (i : SnapshotInstaller)
    : SnapshotInstaller :=
  let count := as_u32 (div_ceil total_size CHUNK_SIZE) in
  with_pending i
    (Some {| last_included_index := index; last_included_term := term; meta_size := total_size;
             chunk_count := count; created_at := now |})
    (replicate (Z.to_nat count) None) 0.

Definition receive_chunk (offset : Z) (d : bytes) (done : bool) (i : SnapshotInstaller)
    : Result SnapshotError bool * SnapshotInstaller :=
  let index := offset / CHUNK_SIZE in
  match pending_chunks i !! Z.to_nat index with
  | None => (Err (SnapInvalidChunk ("Chunk index " +:+ pretty index +:+ " out of range")), i)
  | Some cell =>
      let i := match cell with
               | None => with_pending i (pending_meta i) (<[Z.to_nat index := Some d]> (pending_chunks i))
                           (as_u32 (received_chunks i + 1))
               | Some _ => i
               end in
      (Ok (done && (as_u32 (Z.of_nat (length (pending_chunks i))) <=? received_chunks i)), i)
  end.

(** The chunks from the [n]th in order, or the number of the first missing one. *)
Fixpoint combine_chunks (n : nat) (cs : list (option bytes)) : Result nat bytes :=
  match cs with
  | [] => Ok []
  | None :: _ => Err n
  | Some d :: cs' => match combine_chunks (Datatypes.S n) cs' with Ok r => Ok (d ++ r) | Err e => Err e end
  end.

(** Taking the metadata and draining the chunks happen also when a chunk is missing. *)
Definition install (now : Z) (i : SnapshotInstaller) : S -> Result SnapshotError SnapshotMeta * SnapshotInstaller * S :=
  fun s =>
    match pending_meta i with
    | None => (Err (SnapInvalidState "No pending snapshot"), i, s)
    | Some meta =>
        let drained := with_pending i None [] (received_chunks i) in
        match combine_chunks 0 (pending_chunks i) with
        | Err n => (Err (SnapInvalidChunk ("Missing chunk " +:+ pretty (Z.of_nat n))), drained, s)
        | Ok d =>
            let w := write d (writer_new (i_space_id i) (i_part_id i)
                       (last_included_index meta) (last_included_term meta)) in
            match finish now w s with
            | (Ok saved, s') => (Ok saved, with_pending i None [] 0, s')
            | (Err e, s') => (Err e, drained, s')
            end
        end
    end.

Definition cancel (i : SnapshotInstaller) : SnapshotInstaller := with_pending i None [] 0.
End snapshot.

(** ** The key-value stream *)

Definition encode_kv (kv : kv_pair) : bytes :=
  le_bytes 4 (as_u32 (Z.of_nat (length kv.1))) ++ kv.1 ++
  le_bytes 4 (as_u32 (Z.of_nat (length kv.2))) ++ kv.2.
Definition encode_kvs (kvs : list kv_pair) : bytes := concat (encode_kv <$> kvs).

(** Both lengths fit the [u32] they are written as. *)
Definition kv_fits (kv : kv_pair) : Prop :=
  Z.of_nat (length kv.1) < two32 /\ Z.of_nat (length kv.2) < two32.

Definition write_kvs (kvs : list kv_pair) (w : SnapshotWriter) : SnapshotWriter :=
  foldl (fun w kv => write_kv kv.1 kv.2 w) w kvs.

Lemma write_write a b w : write b (write a w) = write (a ++ b) w.
Proof. unfold write. simpl. by rewrite <- app_assoc. Qed.

Lemma write_kvs_encode kvs w : write_kvs kvs w = write (encode_kvs kvs) w.
Proof.
  unfold write_kvs, encode_kvs. revert w. induction kvs as [|kv kvs IH]; intros w.
  - destruct w. unfold write. simpl. by rewrite app_nil_r.
  - cbn [foldl fmap list_fmap concat]. rewrite IH. unfold write_kv. apply write_write.
Qed.

Lemma length_prefix_roundtrip (d rest : bytes) :
  Z.of_nat (length d) < two32 ->
  let l := le_bytes 4 (as_u32 (Z.of_nat (length d))) ++ d ++ rest in
  take 4 l = le_bytes 4 (as_u32 (Z.of_nat (length d))) /\
  Z.to_nat (of_le (take 4 l)) = length d /\ drop 4 l = d ++ rest.
Proof.
  intros Hd l. assert (Ht : take 4 l = le_bytes 4 (as_u32 (Z.of_nat (length d))))
    by (apply take_app_exact; by rewrite length_le_bytes).
  split; [done|]. split; [|by apply drop_app_exact; rewrite length_le_bytes].
  rewrite Ht, of_le_le_bytes. unfold as_u32.
  change (256 ^ Z.of_nat 4) with two32. rewrite Z.mod_mod by done.
  rewrite Z.mod_small by lia. lia.
Qed.

Lemma length_encode_kv kv : length (encode_kv kv) = (8 + length kv.1 + length kv.2)%nat.
Proof. unfold encode_kv. rewrite !length_app, !length_le_bytes. lia. Qed.

(** One turn of the loop reads one pair. *)
Lemma parse_kvs_step fuel kv rest acc :
  kv_fits kv -> parse_kvs (S fuel) (encode_kv kv ++ rest) acc = parse_kvs fuel rest (acc ++ [kv]).
Proof.
  intros [Hk Hv]. destruct kv as [k v]. cbn [fst snd] in *. cbn [parse_kvs].
  rewrite length_app, length_encode_kv. cbn [fst snd].
  rewrite (proj2 (Nat.leb_le 8 _)) by lia.
  unfold encode_kv. cbn [fst snd]. rewrite <- !app_assoc.
  pose proof (length_prefix_roundtrip k (le_bytes 4 (as_u32 (Z.of_nat (length v))) ++ v ++ rest) Hk) as (_ & -> & ->).
  rewrite (proj2 (Nat.ltb_ge _ _)) by (rewrite length_app; lia).
  rewrite (drop_app_exact k _ (length k)), (take_app_exact k _ (length k)) by done.
  rewrite (proj2 (Nat.ltb_ge _ _)) by (rewrite length_app, length_le_bytes; lia).
  pose proof (length_prefix_roundtrip v rest Hv) as (_ & -> & ->).
  rewrite (proj2 (Nat.ltb_ge _ _)) by (rewrite length_app; lia).
  by rewrite (drop_app_exact v _ (length v)), (take_app_exact v _ (length v)) by done.
Qed.

Lemma parse_encode_kvs kvs fuel acc :
  Forall kv_fits kvs -> (length (encode_kvs kvs) <= fuel)%nat ->
  parse_kvs fuel (encode_kvs kvs) acc = Ok (acc ++ kvs).
Proof.
  intros Hf. revert fuel acc. induction Hf as [|kv kvs Hkv _ IH]; intros fuel acc Hfuel.
  - rewrite app_nil_r. by destruct fuel.
  - unfold encode_kvs in *. cbn [fmap list_fmap concat] in *. rewrite length_app, length_encode_kv in Hfuel.
    destruct fuel as [|fuel]; [lia|]. rewrite parse_kvs_step by done. rewrite IH by lia.
    by rewrite <- app_assoc.
Qed.

(** ** Chunks in the store *)

Definition chunk_fits (c : SnapshotChunk) : Prop := u32_ok (chunk_index c) /\ u64_ok (chunk_offset c).
Definition meta_fits (m : SnapshotMeta) : Prop :=
  u64_ok (last_included_index m) /\ u64_ok (last_included_term m) /\ u64_ok (meta_size m) /\
  u32_ok (chunk_count m) /\ u64_ok (created_at m).

Lemma as_u32_id z : u32_ok z -> as_u32 z = z.
Proof. intros Hz. by apply Z.mod_small. Qed.

Lemma chunk_key_inj sp pa i j : u32_ok i -> u32_ok j -> chunk_key sp pa i = chunk_key sp pa j -> i = j.
Proof.
  intros Hi Hj E. unfold chunk_key in E. do 4 apply app_inv_head in E. apply (f_equal of_be) in E.
  by rewrite (of_be_be_bytes_small 4 i Hi), (of_be_be_bytes_small 4 j Hj) in E.
Qed.

Lemma meta_key_chunk_key sp pa sp' pa' i : meta_key sp pa <> chunk_key sp' pa' i.
Proof. discriminate. Qed.

Lemma length_chunks_fuel {A} fuel n (l : list A) :
  (0 < n)%nat -> (length l <= fuel)%nat ->
  Z.of_nat (length (chunks_fuel fuel n l)) = div_ceil (Z.of_nat (length l)) (Z.of_nat n).
Proof.
  intros Hn. revert l. induction fuel as [|fuel IH]; intros [|x l] Hl; [done|simpl in Hl; lia|done|].
  cbn [chunks_fuel]. rewrite length_cons, Nat2Z.inj_succ, IH by (rewrite length_drop; simpl in *; lia).
  rewrite length_drop. set (len := length (x :: l)). assert (0 < len)%nat by (unfold len; simpl; lia).
  unfold div_ceil. destruct (decide (n <= len)%nat) as [Hle|Hgt].
  - replace (Z.of_nat len) with (Z.of_nat (len - n) + 1 * Z.of_nat n) by lia.
    rewrite Z.mod_add, Z.div_add by lia. destruct (_ =? 0); lia.
  - replace (len - n)%nat with 0%nat by lia. rewrite (Z.mod_small (Z.of_nat len)), (Z.div_small (Z.of_nat len)) by lia.
    rewrite (proj2 (Z.eqb_neq (Z.of_nat len) 0)) by lia. done.
Qed.

Lemma length_chunks {A} n (l : list A) :
  (0 < n)%nat -> Z.of_nat (length (chunks n l)) = div_ceil (Z.of_nat (length l)) (Z.of_nat n).
Proof. intros Hn. by apply length_chunks_fuel. Qed.

Section facts.
Context `{Bincode SnapshotMeta, !BincodeLaws SnapshotMeta, !BincodeTotal SnapshotMeta meta_fits}.
Context `{Bincode SnapshotChunk, !BincodeLaws SnapshotChunk, !BincodeTotal SnapshotChunk chunk_fits}.

(** The store holds [d] as chunk [i] of the group. *)
Definition has_chunk (sp pa i : Z) (d : bytes) (s : MemoryKVStore) : Prop :=
  exists b c, om_get (chunk_key sp pa i) (data s) = Some b /\ deserialize b = Ok c /\ chunk_data c = d.

Lemma save_chunks_run w count i cs s :
  mem_wf s -> 0 <= i -> i + Z.of_nat (length cs) <= two32 ->
  exists s', save_chunks w count i cs s = (Ok tt, s') /\ mem_wf s' /\
    (forall k d, cs !! k = Some d -> has_chunk (w_space_id w) (w_part_id w) (i + Z.of_nat k) d s') /\
    (forall key, (forall j, i <= j < i + Z.of_nat (length cs) ->
        key <> chunk_key (w_space_id w) (w_part_id w) j) ->
      om_get key (data s') = om_get key (data s)).
Proof.
  revert i s. induction cs as [|d cs IH]; intros i s Hwf Hi Hlen.
  { exists s. split; [done|]. split; [done|]. split; [|done]. intros k d. by rewrite lookup_nil. }
  cbn [length] in Hlen.
  assert (Hiu : u32_ok i) by (unfold u32_ok; lia).
  set (c := {| chunk_index := as_u32 i; chunk_offset := as_u64 (i * w_chunk_size w);
               chunk_data := d; is_last := as_u32 i =? as_u32 (count - 1) |}).
  destruct (serialize_total c) as [b Hb].
  { split; [unfold chunk_index, c; by rewrite as_u32_id|apply as_u64_ok]. }
  set (s1 := with_data s (om_insert (chunk_key (w_space_id w) (w_part_id w) i) b (data s))).
  destruct (IH (i + 1) s1) as (s' & Hrun & Hwf' & Hin & Hout); [|lia|lia|].
  { destruct Hwf as [Hd Hh]. split; [by apply om_insert_wf|done]. }
  exists s'. split; [|split; [done|split]].
  - cbn [save_chunks]. fold c. unfold snap_serialize. rewrite Hb. unfold st_bind at 1. cbn [st_ret].
    rewrite as_u32_id by done. exact Hrun.
  - intros [|k] d' Hk.
    + injection Hk as <-. rewrite Z.add_0_r. exists b, c. split; [|by split; [apply deserialize_serialize|]].
      rewrite Hout.
      * unfold s1. cbn [data with_data]. rewrite om_get_insert_decide by apply Hwf. by rewrite bool_decide_eq_true_2.
      * intros j Hj E. apply chunk_key_inj in E; unfold u32_ok in *; lia.
    + replace (i + Z.of_nat (S k)) with (i + 1 + Z.of_nat k) by lia. by apply Hin.
  - intros key Hk. rewrite Hout by (intros j Hj; apply Hk; cbn [length]; lia).
    unfold s1. cbn [data with_data]. rewrite om_get_insert_decide by apply Hwf.
    rewrite bool_decide_eq_false_2; [done|]. apply Hk. cbn [length]. lia.
Qed.

Lemma load_chunks_run r cs i acc (s : MemoryKVStore) :
  (forall k d, cs !! k = Some d -> has_chunk (r_space_id r) (r_part_id r) (i + Z.of_nat k) d s) ->
  load_chunks r (length cs) i acc s = (Ok (acc ++ concat cs), s).
Proof.
  revert i acc. induction cs as [|d cs IH]; intros i acc Hin.
  { cbn [concat length load_chunks]. by rewrite app_nil_r. }
  destruct (Hin 0%nat d eq_refl) as (b & c & Hg & Hd & Hc). rewrite Z.add_0_r in Hg.
  cbn [length load_chunks concat]. unfold st_bind at 1, load_chunk, st_bind at 1, snap_store.
  cbn [kv_get memory_required]. unfold Memory.get. rewrite Hg. unfold snap_deserialize. rewrite Hd.
  unfold st_bind at 1. cbn [st_ret]. rewrite Hc, IH; [by rewrite <- app_assoc|].
  intros k d' Hk. replace (i + 1 + Z.of_nat k) with (i + Z.of_nat (S k)) by lia. by apply Hin.
Qed.

(** The snapshot of the group is exactly the bytes [d]. *)
Definition holds (sp pa : Z) (index : LogIndex) (term : Term) (d : bytes) (s : MemoryKVStore) : Prop :=
  load_all_data {| r_space_id := sp; r_part_id := pa |} s = (Ok (Some d), s) /\
  exists m, load_meta {| r_space_id := sp; r_part_id := pa |} s = (Ok (Some m), s) /\
    last_included_index m = index /\ last_included_term m = term /\ meta_size m = Z.of_nat (length d).

(** The largest snapshot whose number of chunks fits a [u32]. *)
Definition snapshot_fits (d : bytes) : Prop := Z.of_nat (length d) <= CHUNK_SIZE * (two32 - 1).

Lemma chunk_size_pos : (0 < Z.to_nat CHUNK_SIZE)%nat.
Proof. apply (Z2Nat.inj_lt 0); by compute. Qed.

Lemma snapshot_chunk_count d :
  snapshot_fits d ->
  Z.of_nat (length (chunks (Z.to_nat CHUNK_SIZE) d)) = div_ceil (Z.of_nat (length d)) CHUNK_SIZE /\
  u32_ok (div_ceil (Z.of_nat (length d)) CHUNK_SIZE) /\ u64_ok (Z.of_nat (length d)).
Proof.
  unfold snapshot_fits. intros Hd. rewrite length_chunks by exact chunk_size_pos.
  rewrite (Z2Nat.id CHUNK_SIZE) by by compute. split; [done|].
  unfold div_ceil, u32_ok, u64_ok, two32, two64, CHUNK_SIZE in *.
  pose proof (Z.div_mod (Z.of_nat (length d)) (64 * 1024) ltac:(lia)) as Hdm.
  pose proof (Z.mod_pos_bound (Z.of_nat (length d)) (64 * 1024) ltac:(lia)) as Hmb.
  destruct (_ =? 0) eqn:E; [apply Z.eqb_eq in E|apply Z.eqb_neq in E]; lia.
Qed.

Lemma finish_run sp pa index term now d s :
  mem_wf s -> u64_ok index -> u64_ok term -> u64_ok now -> snapshot_fits d ->
  exists m s', finish now (write d (writer_new sp pa index term)) s = (Ok m, s') /\ mem_wf s' /\
    holds sp pa index term d s' /\ last_included_index m = index /\ last_included_term m = term.
Proof.
  intros Hwf Hix Ht Hnow Hd. destruct (snapshot_chunk_count d Hd) as (Hlen & Hcnt & Hsz).
  set (w := write d (writer_new sp pa index term)).
  set (m := {| last_included_index := index; last_included_term := term; meta_size := Z.of_nat (length d);
               chunk_count := div_ceil (Z.of_nat (length d)) CHUNK_SIZE; created_at := now |}).
  destruct (serialize_total m) as [b Hb]; [by repeat split; try apply Hix; try apply Ht; try apply Hsz;
    try apply Hcnt; try apply Hnow|].
  destruct (save_chunks_run w (div_ceil (Z.of_nat (length d)) CHUNK_SIZE) 0 (chunks (Z.to_nat CHUNK_SIZE) d) s)
    as (s1 & Hrun & Hwf1 & Hin & _); [done|done|unfold u32_ok in Hcnt; lia|].
  set (s2 := with_data s1 (om_insert (meta_key sp pa) b (data s1))).
  assert (Hget : forall k, om_get k (data s2) = if bool_decide (k = meta_key sp pa) then Some b else om_get k (data s1)).
  { intros k. apply om_get_insert_decide, Hwf1. }
  assert (Hmeta : load_meta {| r_space_id := sp; r_part_id := pa |} s2 = (Ok (Some m), s2)).
  { unfold load_meta, st_bind at 1, snap_store. cbn [kv_get memory_required]. unfold Memory.get.
    cbn [r_space_id r_part_id]. rewrite Hget, bool_decide_eq_true_2 by done.
    unfold snap_deserialize. by rewrite (deserialize_serialize m b Hb). }
  exists m, s2. split; [|split; [|split; [split|done]]].
  - unfold finish. cbn [w_chunk_size w_data w_space_id w_part_id w_last_included_index w_last_included_term write writer_new w].
    rewrite app_nil_l, as_u32_id by done. fold m. fold w. unfold st_bind at 1. rewrite Hrun.
    unfold st_bind at 1, snap_serialize. rewrite Hb. reflexivity.
  - destruct Hwf1. split; [by apply om_insert_wf|done].
  - unfold load_all_data, st_bind at 1. rewrite Hmeta. unfold st_bind. cbn [chunk_count m].
    rewrite <- Hlen, Nat2Z.id, (load_chunks_run _ _ 0 [] s2).
    + by rewrite concat_chunks by exact chunk_size_pos.
    + intros k d' Hk. destruct (Hin k d' Hk) as (b' & c & Hg & Hrest). exists b', c. split; [|done].
      rewrite Hget, bool_decide_eq_false_2; [exact Hg|]. intros E. symmetry in E. by apply meta_key_chunk_key in E.
  - by exists m.
Qed.

(** A snapshot written pair by pair and finished is read back as the same
    pairs in the same order, with the log position it was taken at, whatever the
    store held before, when every key and value length fits a [u32] and the
    number of chunks does. *)
Theorem snapshot_roundtrip sp pa index term now kvs s :
  mem_wf s -> u64_ok index -> u64_ok term -> u64_ok now ->
  Forall kv_fits kvs -> snapshot_fits (encode_kvs kvs) ->
  exists m s', finish now (write_kvs kvs (writer_new sp pa index term)) s = (Ok m, s') /\
    last_included_index m = index /\ last_included_term m = term /\
    iter_kvs {| r_space_id := sp; r_part_id := pa |} s' = (Ok kvs, s').
Proof.
  intros Hwf Hix Ht Hnow Hkv Hfit. rewrite write_kvs_encode.
  destruct (finish_run sp pa index term now _ s Hwf Hix Ht Hnow Hfit) as (m & s' & Hrun & _ & [Hall _] & H1 & H2).
  exists m, s'. do 3 (split; [done|]). unfold iter_kvs, st_bind. rewrite Hall. by rewrite parse_encode_kvs.
Qed.

(** ** Receiving a snapshot in chunks *)

(** The installer has received exactly the chunks [R] of the snapshot [cs]. *)
Record collecting (sp pa : Z) (m : SnapshotMeta) (cs : list bytes) (R : gset nat) (i : SnapshotInstaller) : Prop := {
  coll_space : i_space_id i = sp;
  coll_part : i_part_id i = pa;
  coll_meta : pending_meta i = Some m;
  coll_chunks : pending_chunks i = imap (fun j c => if bool_decide (j ∈ R) then Some c else None) cs;
  coll_count : received_chunks i = Z.of_nat (size R);
  coll_range : R ⊆ set_seq 0 (length cs)
}.

Lemma all_received (R : gset nat) n : R ⊆ set_seq 0 n -> (n <= size R)%nat <-> set_seq 0 n ⊆ R.
Proof.
  intros HR. split.
  - intros Hn. assert (Hs : size (set_seq 0 n : gset nat) = n) by apply size_set_seq.
    destruct (decide (set_seq 0 n ⊆ R)) as [|Hne]; [done|].
    assert (Hlt : (size R < size (set_seq 0 n : gset nat))%nat) by (apply subset_size; by split). lia.
  - intros Hn. rewrite <- (size_set_seq (C:=gset nat) 0 n). by apply subseteq_size.
Qed.

Lemma receive_collecting sp pa m cs R i k c done :
  collecting sp pa m cs R i -> Z.of_nat (length cs) < two32 -> cs !! k = Some c ->
  exists i', receive_chunk (Z.of_nat k * CHUNK_SIZE) c done i =
      (Ok (done && bool_decide (set_seq 0 (length cs) ⊆ {[k]} ∪ R)), i') /\
    collecting sp pa m cs ({[k]} ∪ R) i'.
Proof.
  intros [Hsp Hpa Hm Hc Hn HR] Hlen Hk. pose proof (lookup_lt_Some _ _ _ Hk) as Hlt.
  assert (HR' : {[k]} ∪ R ⊆ set_seq 0 (length cs)).
  { apply union_subseteq. split; [|done]. rewrite singleton_subseteq_l. apply elem_of_set_seq. lia. }
  assert (Hsz : (size ({[k]} ∪ R) <= length cs)%nat).
  { rewrite <- (size_set_seq (C:=gset nat) 0 (length cs)). by apply subseteq_size. }
  unfold receive_chunk. rewrite Z.div_mul by done. rewrite Nat2Z.id, Hc, list_lookup_imap, Hk. cbn [fmap option_fmap option_map].
  assert (Hcount : forall l : list (option bytes), length l = length cs -> forall n, n = Z.of_nat (size ({[k]} ∪ R)) ->
    (as_u32 (Z.of_nat (length l)) <=? n) = bool_decide (set_seq 0 (length cs) ⊆ {[k]} ∪ R)).
  { intros l Hl n ->. rewrite Hl, as_u32_id by (unfold u32_ok; lia).
    apply eq_bool_prop_intro. rewrite !Is_true_true, Z.leb_le, bool_decide_eq_true, <- all_received by done. lia. }
  destruct (decide (k ∈ R)) as [Hin|Hin];
    [rewrite (bool_decide_eq_true_2 (k ∈ R)) by done|rewrite (bool_decide_eq_false_2 (k ∈ R)) by done].
  - assert (E : {[k]} ∪ R = R) by (clear -Hin; set_solver). rewrite E in *. exists i. rewrite (Hcount _) by
      (by rewrite ?Hc, ?length_imap). split; [done|by split].
  - assert (Hs1 : size ({[k]} ∪ R) = S (size R)) by (rewrite size_union, size_singleton by (clear -Hin; set_solver); lia).
    assert (Hcnt : as_u32 (received_chunks i + 1) = Z.of_nat (size ({[k]} ∪ R))).
    { rewrite Hn, as_u32_id; [lia|]. unfold u32_ok. lia. }
    eexists. split.
    + cbn [pending_chunks received_chunks with_pending]. rewrite (Hcount _); [done|by rewrite length_insert, length_imap|done].
    + split; cbn [i_space_id i_part_id pending_meta pending_chunks received_chunks with_pending]; try done.
      apply list_eq. intros j. rewrite list_lookup_imap. destruct (decide (j = k)) as [->|Hj].
      * rewrite list_lookup_insert_eq by (rewrite length_imap; lia). rewrite Hk. simpl.
        by rewrite bool_decide_eq_true_2 by (clear; set_solver).
      * rewrite list_lookup_insert_ne, list_lookup_imap by done. destruct (cs !! j); [|done]. simpl.
        by rewrite (bool_decide_ext (j ∈ R) (j ∈ {[k]} ∪ R)) by (clear -Hj; set_solver).
Qed.

Lemma combine_chunks_all n cs R k :
  (forall j, (j < length cs)%nat -> (k + j)%nat ∈ R) ->
  combine_chunks n (imap (fun j c => if bool_decide ((k + j)%nat ∈ (R : gset nat)) then Some c else None) cs) = Ok (concat cs).
Proof.
  revert n k. induction cs as [|c cs IH]; intros n k Hall; [done|].
  rewrite imap_cons. cbn [combine_chunks concat]. rewrite bool_decide_eq_true_2 by (apply (Hall 0%nat); simpl; lia).
  assert (E : imap ((fun j c => if bool_decide ((k + j)%nat ∈ R) then Some c else None) ∘ S) cs =
    imap (fun j c => if bool_decide ((S k + j)%nat ∈ R) then Some c else None) cs).
  { apply imap_ext. intros j x _. simpl. by rewrite Nat.add_succ_r. }
  rewrite E, IH; [done|]. intros j Hj. replace (S k + j)%nat with (k + S j)%nat by lia. apply Hall. simpl. lia.
Qed.

Lemma combine_chunks_missing n l : None ∈ l -> exists e, combine_chunks n l = Err e.
Proof.
  revert n. induction l as [|[d|] l IH]; intros n Hin; [by apply elem_of_nil in Hin| |by eexists].
  apply elem_of_cons in Hin as [?|Hin]; [done|]. destruct (IH (S n) Hin) as [e He]. simpl. rewrite He. by eexists.
Qed.

(** The chunks numbered by [order], one after the other. *)
Definition deliver_chunks (cs : list bytes) (order : list nat) (i : SnapshotInstaller) : SnapshotInstaller :=
  foldl (fun i k => (receive_chunk (Z.of_nat k * CHUNK_SIZE) (default [] (cs !! k)) false i).2) i order.

Lemma deliver_collecting sp pa m cs R i order :
  collecting sp pa m cs R i -> Z.of_nat (length cs) < two32 -> Forall (fun k => (k < length cs)%nat) order ->
  collecting sp pa m cs (list_to_set order ∪ R) (deliver_chunks cs order i).
Proof.
  intros Hc Hlen Ho. revert R i Hc. unfold deliver_chunks.
  induction Ho as [|k order Hk _ IH]; intros R i Hc; cbn [foldl list_to_set].
  { by rewrite union_empty_l_L. }
  apply lookup_lt_is_Some in Hk as [c Hk]. rewrite Hk. cbn [from_option id].
  destruct (receive_collecting sp pa m cs R i k c false Hc Hlen Hk) as (i' & -> & Hc'). cbn [snd].
  specialize (IH _ _ Hc'). by replace ({[k]} ∪ list_to_set order ∪ R) with (list_to_set order ∪ ({[k]} ∪ R) : gset nat) by (clear; set_solver).
Qed.

Lemma begin_collecting sp pa now index term d :
  snapshot_fits d ->
  exists m, last_included_index m = index /\ last_included_term m = term /\
    collecting sp pa m (chunks (Z.to_nat CHUNK_SIZE) d) ∅
      (begin now index term (Z.of_nat (length d)) (installer_new sp pa)).
Proof.
  intros Hd. destruct (snapshot_chunk_count d Hd) as (Hlen & Hcnt & _). eexists. split; [|split]; [| |split].
  3-5: reflexivity. 1-2: reflexivity.
  - cbn [begin pending_chunks with_pending]. rewrite as_u32_id, <- Hlen, Nat2Z.id by done.
    generalize (chunks (Z.to_nat CHUNK_SIZE) d). intros cs. apply list_eq. intros j. rewrite list_lookup_imap.
    destruct (cs !! j) eqn:E; simpl.
    + apply lookup_replicate_2. by eapply lookup_lt_Some.
    + apply lookup_replicate_None. by apply lookup_ge_None in E.
  - done.
  - apply empty_subseteq.
Qed.

(** A snapshot sent in chunks, in any order and with any repetition, is
    reported ready exactly when every chunk has arrived and the sender marks the
    chunk as done. Installing then leaves the sender's bytes and log position in
    the store and resets the installer; while a chunk is missing, installing is
    an error that leaves the store unchanged. *)
Theorem snapshot_install_any_order sp pa now0 now index term d order k c done s :
  mem_wf s -> u64_ok index -> u64_ok term -> u64_ok now -> snapshot_fits d ->
  let cs := chunks (Z.to_nat CHUNK_SIZE) d in
  Forall (fun j => (j < length cs)%nat) order -> cs !! k = Some c ->
  let i := deliver_chunks cs order (begin now0 index term (Z.of_nat (length d)) (installer_new sp pa)) in
  let complete := Forall (fun j => j ∈ k :: order) (seq 0 (length cs)) in
  exists i', receive_chunk (Z.of_nat k * CHUNK_SIZE) c done i = (Ok (done && bool_decide complete), i') /\
    (complete -> exists m s', install now i' s = (Ok m, installer_new sp pa, s') /\ mem_wf s' /\
       holds sp pa index term d s') /\
    (~ complete -> exists e, install now i' s =
       (Err (SnapInvalidChunk e), with_pending i' None [] (received_chunks i'), s)).
Proof.
  intros Hwf Hix Ht Hnow Hd cs Ho Hk i complete.
  destruct (snapshot_chunk_count d Hd) as (Hlen & Hcnt & _).
  destruct (begin_collecting sp pa now0 index term d Hd) as (m & Hmi & Hmt & Hb).
  assert (Hlt : Z.of_nat (length cs) < two32) by (unfold cs, u32_ok in *; lia).
  pose proof (deliver_collecting sp pa m cs ∅ _ order Hb Hlt Ho) as Hi. fold i in Hi.
  destruct (receive_collecting sp pa m cs _ i k c done Hi Hlt Hk) as (i' & Hrec & [Hs Hp Hm Hc Hn _]).
  replace ({[k]} ∪ (list_to_set order ∪ ∅)) with (list_to_set (k :: order) : gset nat) in * by (clear; set_solver).
  assert (Hcomplete : set_seq 0 (length cs) ⊆ (list_to_set (k :: order) : gset nat) <-> complete).
  { unfold complete. rewrite Forall_forall. split; intros Hall j Hj.
    - apply (elem_of_list_to_set (C := gset nat)), Hall, elem_of_set_seq. apply elem_of_seq in Hj. lia.
    - apply elem_of_list_to_set, Hall, elem_of_seq. apply elem_of_set_seq in Hj. lia. }
  exists i'. split; [by rewrite Hrec, (bool_decide_ext _ _ Hcomplete)|]. unfold install. rewrite Hm, Hc. split.
  - intros Hall. destruct (finish_run sp pa index term now d s Hwf Hix Ht Hnow Hd) as (m' & s' & Hrun & Hwf' & Hh & _).
    exists m', s'. split; [|done].
    rewrite (combine_chunks_all 0 cs (list_to_set (k :: order)) 0).
    + unfold cs. rewrite concat_chunks by exact chunk_size_pos. rewrite Hs, Hp, Hmi, Hmt, Hrun.
      unfold with_pending. by rewrite Hs, Hp.
    + intros j Hj. apply Hcomplete; [done|]. apply elem_of_set_seq. simpl. lia.
  - intros Hmiss. match goal with |- context [combine_chunks 0 ?l] =>
      destruct (combine_chunks_missing 0 l) as [e He]; [|rewrite He; by eexists] end.
    apply not_Forall_Exists in Hmiss; [|apply _]. apply Exists_exists in Hmiss as (j & Hj & Hn').
    apply elem_of_seq in Hj. destruct (lookup_lt_is_Some_2 cs j) as [x Hx]; [lia|].
    apply list_elem_of_lookup. exists j. rewrite list_lookup_imap, Hx. cbn [fmap option_fmap option_map].
    by rewrite bool_decide_eq_false_2 by by rewrite elem_of_list_to_set.
Qed.
End facts.

(** ** A concrete codec

    Fixed-width big-endian fields, with the chunk's data last. *)

#[local] Instance meta_codec : Bincode SnapshotMeta := {|
  serialize m :=
    if decide (meta_fits m)
    then Ok (be_bytes 8 (last_included_index m) ++ be_bytes 8 (last_included_term m) ++
             be_bytes 8 (meta_size m) ++ be_bytes 4 (chunk_count m) ++ be_bytes 8 (created_at m))
    else Err "range"%string;
  deserialize b :=
    Ok {| last_included_index := of_be (take 8 b); last_included_term := of_be (take 8 (drop 8 b));
          meta_size := of_be (take 8 (drop 8 (drop 8 b)));
          chunk_count := of_be (take 4 (drop 8 (drop 8 (drop 8 b))));
          created_at := of_be (drop 4 (drop 8 (drop 8 (drop 8 b)))) |} |}.

#[local] Instance meta_codec_laws : BincodeLaws SnapshotMeta.
Proof.
  intros m b. unfold serialize, deserialize, meta_codec.
  destruct (decide (meta_fits m)) as [(H1 & H2 & H3 & H4 & H5)|]; [|discriminate]. intros Hb.
  match type of Hb with Ok ?x = Ok b => assert (b = x) as -> by congruence end.
  rewrite !drop_app_exact, !take_app_exact by by rewrite length_be_bytes.
  rewrite (of_be_be_bytes_small 8 _ H1), (of_be_be_bytes_small 8 _ H2), (of_be_be_bytes_small 8 _ H3).
  rewrite (of_be_be_bytes_small 4 _ H4), (of_be_be_bytes_small 8 _ H5). by destruct m.
Qed.

#[local] Instance meta_codec_total : BincodeTotal SnapshotMeta meta_fits.
Proof. intros m Hm. eexists. unfold serialize, meta_codec. by rewrite decide_True. Qed.

#[local] Instance chunk_codec : Bincode SnapshotChunk := {|
  serialize c :=
    if decide (chunk_fits c)
    then Ok (be_bytes 4 (chunk_index c) ++ be_bytes 8 (chunk_offset c) ++
             [if is_last c then z2b 1 else z2b 0] ++ chunk_data c)
    else Err "range"%string;
  deserialize b :=
    match drop 8 (drop 4 b) with
    | l :: d => Ok {| chunk_index := of_be (take 4 b); chunk_offset := of_be (take 8 (drop 4 b));
                      is_last := b2z l =? 1; chunk_data := d |}
    | [] => Err "length"%string
    end |}.

#[local] Instance chunk_codec_laws : BincodeLaws SnapshotChunk.
Proof.
  intros c b. unfold serialize, deserialize, chunk_codec.
  destruct (decide (chunk_fits c)) as [(H1 & H2)|]; [|discriminate]. intros Hb.
  match type of Hb with Ok ?x = Ok b => assert (b = x) as -> by congruence end.
  rewrite !drop_app_exact, !take_app_exact by by rewrite length_be_bytes.
  rewrite (of_be_be_bytes_small 4 _ H1), (of_be_be_bytes_small 8 _ H2). by destruct c as [? ? ? []].
Qed.

#[local] Instance chunk_codec_total : BincodeTotal SnapshotChunk chunk_fits.
Proof. intros c Hc. eexists. unfold serialize, chunk_codec. by rewrite decide_True. Qed.

Definition two_pairs : list kv_pair := [(bs "k1", bs "v1"); (bs "k2", [])].

Lemma two_pairs_fits : Forall kv_fits two_pairs /\ snapshot_fits (encode_kvs two_pairs).
Proof.
  split; [repeat constructor|]. unfold snapshot_fits.
  assert (E : Z.of_nat (length (encode_kvs two_pairs)) = 22) by by vm_compute. rewrite E. by compute.
Qed.

Lemma snapshot_roundtrip_witness :
  exists m s', finish 5 (write_kvs two_pairs (writer_new 1 2 10 3)) Memory.new = (Ok m, s') /\
    iter_kvs {| r_space_id := 1; r_part_id := 2 |} s' = (Ok two_pairs, s').
Proof.
  destruct (snapshot_roundtrip 1 2 10 3 5 two_pairs Memory.new ltac:(repeat split; auto with kv)
    ltac:(done) ltac:(done) ltac:(done) (proj1 two_pairs_fits) (proj2 two_pairs_fits)) as (m & s' & H1 & _ & _ & H2).
  exists m, s'. split; [exact H1|exact H2].
Defined.

Lemma snapshot_install_any_order_witness :
  exists i', receive_chunk 0 (encode_kvs two_pairs) true
      (begin 5 10 3 (Z.of_nat (length (encode_kvs two_pairs))) (installer_new 1 2)) = (Ok true, i') /\
    exists m s', install 6 i' Memory.new = (Ok m, installer_new 1 2, s').
Proof.
  assert (Hc : chunks (Z.to_nat CHUNK_SIZE) (encode_kvs two_pairs) = [encode_kvs two_pairs]) by by vm_compute.
  pose proof (snapshot_install_any_order 1 2 5 6 10 3 (encode_kvs two_pairs) [] 0 (encode_kvs two_pairs) true
    Memory.new ltac:(repeat split; auto with kv) ltac:(done) ltac:(done) ltac:(done) (proj2 two_pairs_fits)) as H.
  cbn zeta in H. rewrite Hc in H. destruct (H ltac:(constructor) eq_refl) as (i' & H1 & H2 & _).
  exists i'. split; [exact H1|]. destruct (H2 ltac:(repeat constructor)) as (m & s' & H3 & _). exists m, s'. exact H3.
Defined.
