(* ===== verification/Text.v ===== *)
(** * Text: UTF-8, decimal integers and colon-separated segments

    The parts of the Rust standard library's text handling that the keys use:
    [str::from_utf8] and [String::from_utf8_lossy], [Display] and [FromStr] of
    integers, and splitting at colons. Text is the bytes of its UTF-8 encoding. *)

From Stdlib Require Import ZArith Lia Strings.Byte Strings.String.
From stdpp Require Import base tactics list.
From S2P Require Import Prelude.

(** ** UTF-8 *)

Definition in_range (lo hi : Z) (b : byte) : bool := (lo <=? b2z b) && (b2z b <=? hi).
Definition continuation (b : byte) : bool := in_range 0x80 0xBF b.

(** The second byte allowed after a first byte of a three- or four-byte sequence. *)
Definition second_of_three (b : byte) : byte -> bool :=
  if b2z b =? 0xE0 then in_range 0xA0 0xBF
  else if b2z b =? 0xED then in_range 0x80 0x9F else continuation.
Definition second_of_four (b : byte) : byte -> bool :=
  if b2z b =? 0xF0 then in_range 0x90 0xBF
  else if b2z b =? 0xF4 then in_range 0x80 0x8F else continuation.

(** The length of the longest sequence of bytes that satisfy the tests in turn. *)
Fixpoint matched (tests : list (byte -> bool)) (l : bytes) : nat :=
  match tests, l with
  | t :: tests', b :: l' => if t b then S (matched tests' l') else O
  | _, _ => O
  end.

(** The tests of the bytes after the first; [None] when no character starts with it. *)
Definition utf8_tail (b : byte) : option (list (byte -> bool)) :=
  if in_range 0x00 0x7F b then Some []
  else if in_range 0xC2 0xDF b then Some [continuation]
  else if in_range 0xE0 0xEF b then Some [second_of_three b; continuation]
  else if in_range 0xF0 0xF4 b then Some [second_of_four b; continuation; continuation]
  else None.

(** The first character of a text, or the maximal ill-formed sequence: whether it
    is well formed, and how many bytes it has after its first. *)
Definition utf8_step (b : byte) (l : bytes) : bool * nat :=
  match utf8_tail b with
  | None => (false, 0%nat)
  | Some tests => let n := matched tests l in ((n =? length tests)%nat, n)
  end.

Fixpoint utf8_valid_fuel (fuel : nat) (l : bytes) : bool :=
  match fuel, l with
  | _, [] => true
  | O, _ => false
  | S fuel', b :: l' => let '(ok, n) := utf8_step b l' in ok && utf8_valid_fuel fuel' (drop n l')
  end.

(** [str::from_utf8(l).is_ok()] *)
Definition utf8_valid (l : bytes) : bool := utf8_valid_fuel (length l) l.

(** U+FFFD. *)
Definition REPLACEMENT : bytes := [z2b 0xEF; z2b 0xBF; z2b 0xBD].

Fixpoint utf8_lossy_fuel (fuel : nat) (l : bytes) : bytes :=
  match fuel, l with
  | _, [] | O, _ => []
  | S fuel', b :: l' =>
      let '(ok, n) := utf8_step b l' in
      (if ok then b :: take n l' else REPLACEMENT) ++ utf8_lossy_fuel fuel' (drop n l')
  end.

(** [String::from_utf8_lossy] *)
Definition utf8_lossy (l : bytes) : bytes := utf8_lossy_fuel (length l) l.

Lemma matched_length tests l : (matched tests l <= length l)%nat.
Proof.
  revert l. induction tests as [|t tests IH]; intros [|b l]; simpl; try lia.
  destruct (t b); [|lia]. specialize (IH l). lia.
Qed.

Lemma matched_app tests l r : matched tests l = length tests -> matched tests (l ++ r) = length tests.
Proof.
  revert l. induction tests as [|t tests IH]; intros [|b l]; simpl; try done.
  destruct (t b); [|done]. intros [= H]. by rewrite IH.
Qed.

Lemma utf8_step_app b l r n : utf8_step b l = (true, n) -> utf8_step b (l ++ r) = (true, n) /\ (n <= length l)%nat.
Proof.
  unfold utf8_step. destruct (utf8_tail b) as [tests|]; [|done]. cbn zeta. intros H.
  assert (Hm : matched tests l = length tests /\ matched tests l = n).
  { destruct (Nat.eqb_spec (matched tests l) (length tests)); by inversion H. }
  destruct Hm as [Hm <-]. rewrite (matched_app _ _ _ Hm). rewrite Nat.eqb_refl.
  split; [by rewrite Hm|apply matched_length].
Qed.

Lemma utf8_valid_fuel_mono f1 f2 l :
  (length l <= f1)%nat -> (length l <= f2)%nat -> utf8_valid_fuel f1 l = utf8_valid_fuel f2 l.
Proof.
  revert f2 l. induction f1 as [|f1 IH]; intros [|f2] [|b l] H1 H2; simpl in *; try done; try lia.
  destruct (utf8_step b l) as [ok n]. f_equal. apply IH; rewrite length_drop; lia.
Qed.

Lemma utf8_valid_cons b l :
  utf8_valid (b :: l) = (utf8_step b l).1 && utf8_valid (drop (utf8_step b l).2 l).
Proof.
  unfold utf8_valid. cbn [length utf8_valid_fuel]. destruct (utf8_step b l) as [ok n]. cbn [fst snd]. f_equal.
  apply utf8_valid_fuel_mono; rewrite length_drop; lia.
Qed.

(** Text followed by text is text. *)
Lemma utf8_valid_app a b : utf8_valid a = true -> utf8_valid b = true -> utf8_valid (a ++ b) = true.
Proof.
  intros Ha Hb. remember (length a) as m eqn:Hm. assert (Hle : (length a <= m)%nat) by lia. clear Hm.
  revert a Ha Hle. induction m as [|m IH]; intros [|x a] Ha Hle; try done; [simpl in Hle; lia|].
  rewrite utf8_valid_cons in Ha. apply andb_true_iff in Ha as [Hok Hrest].
  destruct (utf8_step x a) as [ok n] eqn:Hs. cbn [fst snd] in *. subst ok.
  destruct (utf8_step_app _ _ b _ Hs) as [Hs' Hn]. cbn [app]. rewrite utf8_valid_cons, Hs'. cbn [fst snd].
  rewrite drop_app_le by done. apply IH; [done|]. rewrite length_drop. cbn [length] in Hle. lia.
Qed.

Lemma utf8_valid_ascii l : Forall (fun b => b2z b <= 0x7F) l -> utf8_valid l = true.
Proof.
  induction 1 as [|b l Hb _ IH]; [done|]. rewrite utf8_valid_cons. unfold utf8_step, utf8_tail, in_range.
  pose proof (b2z_bound b). rewrite (proj2 (Z.leb_le 0 (b2z b))), (proj2 (Z.leb_le (b2z b) _)) by lia. done.
Qed.

(** Well-formed text is decoded to itself. *)
Lemma utf8_lossy_valid l : utf8_valid l = true -> utf8_lossy l = l.
Proof.
  unfold utf8_valid, utf8_lossy. generalize (length l) at 1 2 as f. intros f. revert l.
  induction f as [|f IH]; intros [|b l] Hv; simpl in *; try done.
  destruct (utf8_step b l) as [ok n]. apply andb_true_iff in Hv as [-> Hv].
  rewrite IH by done. cbn [app]. by rewrite take_drop.
Qed.

(** ** Decimal integers *)

(** The digits of a non-negative integer, before [acc]; twenty are enough for 64 bits. *)
Fixpoint digits (fuel : nat) (z : Z) (acc : bytes) : bytes :=
  match fuel with
  | O => acc
  | S fuel' =>
      let acc := z2b (48 + z mod 10) :: acc in
      if z / 10 =? 0 then acc else digits fuel' (z / 10) acc
  end.

(** [Display] of an integer. *)
Definition dec (z : Z) : bytes :=
  if z <? 0 then bs "-" ++ digits 20 (- z) [] else digits 20 z [].

Fixpoint parse_dec (l : bytes) (acc : Z) : option Z :=
  match l with
  | [] => Some acc
  | b :: l' => let d := b2z b - 48 in
               if (0 <=? d) && (d <=? 9) then parse_dec l' (acc * 10 + d) else None
  end.

(** The integer of an optional sign and one digit at least. *)
Definition parse_int (l : bytes) : option Z :=
  match l with
  | [] => None
  | c :: rest =>
      if bool_decide (c = "+"%byte) then match rest with [] => None | _ => parse_dec rest 0 end
      else if bool_decide (c = "-"%byte) then match rest with [] => None | _ => Z.opp <$> parse_dec rest 0 end
      else parse_dec l 0
  end.

(** [str::parse::<i64>]; a value out of range is an error. *)
Definition parse_i64 (l : bytes) : option Z :=
  z ← parse_int l; if bool_decide (i64_ok z) then Some z else None.

Definition is_digit (b : byte) : Prop := 48 <= b2z b <= 57.

Lemma digit_of_mod z : is_digit (z2b (48 + z mod 10)) /\ b2z (z2b (48 + z mod 10)) - 48 = z mod 10.
Proof.
  pose proof (Z.mod_pos_bound z 10 ltac:(lia)). unfold is_digit. rewrite b2z_z2b_small by lia. lia.
Qed.

Lemma digits_are_digits fuel z acc : Forall is_digit acc -> Forall is_digit (digits fuel z acc).
Proof.
  revert z acc. induction fuel as [|fuel IH]; intros z acc Ha; cbn [digits]; [done|]. cbv zeta.
  assert (Hc : Forall is_digit (z2b (48 + z mod 10) :: acc)) by (constructor; [apply digit_of_mod|done]).
  destruct (z / 10 =? 0); [done|by apply IH].
Qed.

Lemma parse_dec_digit b l acc : is_digit b -> parse_dec (b :: l) acc = parse_dec l (acc * 10 + (b2z b - 48)).
Proof.
  unfold is_digit. intros H. cbn [parse_dec]. cbv zeta.
  by rewrite (proj2 (Z.leb_le 0 _)), (proj2 (Z.leb_le (b2z b - 48) 9)) by lia.
Qed.

Lemma parse_dec_digits fuel z acc a :
  0 <= z < 10 ^ Z.of_nat fuel ->
  exists k, 0 <= k /\ parse_dec (digits fuel z acc) a = parse_dec acc (a * 10 ^ k + z).
Proof.
  revert z acc a. induction fuel as [|fuel IH]; intros z acc a Hz.
  { exists 0. cbn [digits]. split; [lia|]. f_equal. simpl in Hz. lia. }
  cbn [digits]. cbv zeta. destruct (digit_of_mod z) as [Hd Hv]. pose proof (Z.div_mod z 10 ltac:(lia)) as Hdm.
  destruct (Z.eqb_spec (z / 10) 0) as [E|E].
  - exists 1. split; [lia|]. rewrite parse_dec_digit, Hv by done. f_equal. lia.
  - destruct (IH (z / 10) (z2b (48 + z mod 10) :: acc) a) as (k & Hk & Hp).
    { rewrite Nat2Z.inj_succ, Z.pow_succ_r in Hz by lia. split; [apply Z.div_pos; lia|apply Z.div_lt_upper_bound; lia]. }
    exists (k + 1). split; [lia|]. rewrite Hp, parse_dec_digit, Hv by done. f_equal.
    rewrite Z.pow_add_r by lia. nia.
Qed.

Lemma digits_nonempty fuel z acc : digits (S fuel) z acc <> [].
Proof.
  cbn [digits]. cbv zeta. destruct (_ =? 0); [done|].
  generalize (z2b (48 + z mod 10)) as b. revert z acc. induction fuel as [|fuel IH]; intros z acc b; [done|].
  cbn [digits]. cbv zeta. destruct (_ =? 0); [done|apply IH].
Qed.

Lemma parse_int_dec z : - 10 ^ 20 < z < 10 ^ 20 -> parse_int (dec z) = Some z.
Proof.
  intros Hz. unfold dec. destruct (Z.ltb_spec z 0) as [Hneg|Hpos].
  - destruct (parse_dec_digits 20 (- z) [] 0 ltac:(simpl Z.of_nat; lia)) as (k & _ & Hp).
    change (bs "-") with ["-"%byte]. cbn [app]. unfold parse_int. rewrite bool_decide_eq_false_2, bool_decide_eq_true_2 by done.
    destruct (digits 20 (- z) []) eqn:E; [by apply digits_nonempty in E|]. rewrite Hp. simpl. f_equal. lia.
  - destruct (parse_dec_digits 20 z [] 0 ltac:(simpl Z.of_nat; lia)) as (k & _ & Hp).
    pose proof (digits_are_digits 20 z [] (Forall_nil_2 _)) as Hd. unfold parse_int.
    destruct (digits 20 z []) as [|c rest] eqn:E; [by apply digits_nonempty in E|].
    apply Forall_cons in Hd as [Hc _]. unfold is_digit in Hc.
    rewrite !bool_decide_eq_false_2 by (intros ->; vm_compute in Hc; by destruct Hc).
    rewrite Hp. simpl. f_equal; lia.
Qed.

(** Printing an [i64] and parsing it gives it back. *)
Lemma parse_i64_dec z : i64_ok z -> parse_i64 (dec z) = Some z.
Proof.
  intros Hz. unfold parse_i64. rewrite parse_int_dec by (unfold i64_ok, two63 in Hz; lia).
  simpl. by rewrite bool_decide_eq_true_2.
Qed.

Lemma dec_inj x y : i64_ok x -> i64_ok y -> dec x = dec y -> x = y.
Proof. intros Hx Hy E. apply (f_equal parse_i64) in E. rewrite !parse_i64_dec in E by done. congruence. Qed.

(** A digit or a minus sign. *)
Lemma dec_chars z : Forall (fun b => 45 <= b2z b <= 57) (dec z).
Proof.
  unfold dec. assert (Hd : forall x, Forall (fun b => 45 <= b2z b <= 57) (digits 20 x [])).
  { intros x. eapply Forall_impl; [apply digits_are_digits; constructor|]. unfold is_digit. lia. }
  destruct (_ <? _); [|done]. constructor; [by vm_compute|done].
Qed.

Lemma dec_ascii z : utf8_valid (dec z) = true.
Proof. apply utf8_valid_ascii. eapply Forall_impl; [apply dec_chars|]. simpl. lia. Qed.

(** ** Segments separated by colons *)

Definition COLON : byte := ":"%byte.

(** [s.split(sep)] *)
Fixpoint split_on (sep : byte) (l : bytes) : list bytes :=
  match l with
  | [] => [[]]
  | b :: l' =>
      if bool_decide (b = sep) then [] :: split_on sep l'
      else match split_on sep l' with s :: ss => (b :: s) :: ss | [] => [[b]] end
  end.
Notation split_colon := (split_on COLON).

(** The last piece: [s.rsplit(':').next()], which always exists. *)
Definition rsplit_colon (l : bytes) : bytes := default [] (last (split_colon l)).

Fixpoint join_colon (ss : list bytes) : bytes :=
  match ss with
  | [] => []
  | [s] => s
  | s :: ss' => s ++ COLON :: join_colon ss'
  end.

Definition colon_free (s : bytes) : Prop := COLON ∉ s.

Lemma dec_colon_free z : colon_free (dec z).
Proof.
  intros Hin. pose proof (dec_chars z) as Hd. rewrite Forall_forall in Hd. specialize (Hd _ Hin).
  by vm_compute in Hd; destruct Hd.
Qed.

Lemma split_colon_nonempty l : split_colon l <> [].
Proof. destruct l as [|b l]; [done|]. simpl. case_bool_decide; [done|]. by destruct (split_colon l). Qed.

Lemma join_colon_cons s ss : ss <> [] -> join_colon (s :: ss) = s ++ COLON :: join_colon ss.
Proof. by destruct ss. Qed.

Lemma join_split l : join_colon (split_colon l) = l.
Proof.
  induction l as [|b l IH]; [done|]. cbn [split_on]. pose proof (split_colon_nonempty l) as Hne. case_bool_decide as E.
  - rewrite join_colon_cons by done. cbn [app]. by rewrite IH, E.
  - destruct (split_colon l) as [|s ss] eqn:Es; [done|]. destruct ss as [|s' ss]; simpl in *; congruence.
Qed.

Lemma split_colon_free s : colon_free s -> split_colon s = [s].
Proof.
  induction s as [|b s IH]; intros Hf; [done|]. unfold colon_free in *. rewrite not_elem_of_cons in Hf.
  cbn [split_on]. rewrite bool_decide_eq_false_2 by (intros ->; tauto). by rewrite IH by tauto.
Qed.

Lemma split_colon_app s l : colon_free s -> split_colon (s ++ COLON :: l) = s :: split_colon l.
Proof.
  induction s as [|b s IH]; intros Hf; [done|]. unfold colon_free in *. rewrite not_elem_of_cons in Hf.
  cbn [app split_on]. rewrite bool_decide_eq_false_2 by (intros ->; tauto). by rewrite IH by tauto.
Qed.

Lemma split_join ss : ss <> [] -> Forall colon_free ss -> split_colon (join_colon ss) = ss.
Proof.
  induction ss as [|s ss IH]; [done|]. intros _ [Hs Hss]%Forall_cons. destruct ss as [|s' ss].
  - by apply split_colon_free.
  - rewrite join_colon_cons, split_colon_app by done. by rewrite IH.
Qed.

Lemma join_colon_inj s1 s2 :
  s1 <> [] -> s2 <> [] -> Forall colon_free s1 -> Forall colon_free s2 ->
  join_colon s1 = join_colon s2 -> s1 = s2.
Proof. intros H1 H2 F1 F2 E. apply (f_equal split_colon) in E. by rewrite !split_join in E. Qed.

Lemma join_colon_app p l : p <> [] -> join_colon (p ++ [[]]) ++ l = join_colon (p ++ [l]).
Proof.
  induction p as [|s p IH]; [done|]. intros _. cbn [app]. rewrite !join_colon_cons by by destruct p.
  rewrite <- app_assoc. cbn [app]. do 2 f_equal. destruct p as [|s' p]; [done|]. by apply IH.
Qed.

Lemma join_colon_app_join p q : q <> [] -> join_colon (p ++ [join_colon q]) = join_colon (p ++ q).
Proof.
  intros Hq. induction p as [|s p IH]; [done|]. cbn [app].
  rewrite !join_colon_cons; [by rewrite IH|by destruct p; [destruct q|]|by destruct p].
Qed.

(** A key starts with a prefix that ends in a colon exactly when its segments
    start with the segments of the prefix. *)
Lemma segments_prefix p q :
  p <> [] -> q <> [] -> Forall colon_free p -> Forall colon_free q ->
  starts_with (join_colon (p ++ [[]])) (join_colon q) = true <-> exists r, r <> [] /\ q = p ++ r.
Proof.
  intros Hp Hq Fp Fq. rewrite starts_with_iff. split.
  - intros [l E]. rewrite join_colon_app in E by done.
    apply (f_equal split_colon) in E. rewrite split_join in E by done. subst q.
    clear Hq Fq. exists (split_colon l). split; [apply split_colon_nonempty|].
    clear -Fp Hp. induction Fp as [|s p Hs Fp IH]; [done|]. cbn [app].
    rewrite join_colon_cons by by destruct p. rewrite split_colon_app by done. destruct p as [|s' p]; [done|].
    by rewrite IH.
  - intros (r & Hr & ->). exists (join_colon r). by rewrite join_colon_app, join_colon_app_join.
Qed.

Lemma rsplit_join ss s : Forall colon_free (ss ++ [s]) -> rsplit_colon (join_colon (ss ++ [s])) = s.
Proof.
  intros Hf. unfold rsplit_colon. rewrite split_join; [|by destruct ss|done]. by rewrite last_snoc.
Qed.

Create HintDb text.
#[export] Hint Resolve dec_colon_free dec_ascii : text.
