(* ===== verification/SchemaKey.v ===== *)
(** * Keys of the executor's key-value layout

    [byoridb-executor/src/key.rs]: the text keys under which metadata, vertices,
    edges, indexes, inferred facts and counters are stored, the prefixes that
    scans use, and the parsers of the trailing segment. Names are the bytes of
    their UTF-8 text. *)

From Stdlib Require Import ZArith Lia Strings.Byte Strings.String.
From stdpp Require Import base tactics list.
From S2P Require Import Prelude OrdMap History KVStore KVStoreFacts Text.

Module SchemaKey.

Definition USER_KEY_PREFIX : bytes := bs "__user_".

Definition space (name : bytes) : bytes := bs "space:" ++ name.
Definition space_prefix : bytes := bs "space:".

Definition tag (space name : bytes) : bytes := bs "space:" ++ space ++ bs ":tag:" ++ name.
Definition tag_prefix (space : bytes) : bytes := bs "space:" ++ space ++ bs ":tag:".

Definition class (space name : bytes) : bytes := bs "space:" ++ space ++ bs ":class:" ++ name.
Definition class_prefix (space : bytes) : bytes := bs "space:" ++ space ++ bs ":class:".

Definition shape (space name : bytes) : bytes := bs "space:" ++ space ++ bs ":shape:" ++ name.
Definition shape_prefix (space : bytes) : bytes := bs "space:" ++ space ++ bs ":shape:".

Definition edge (space name : bytes) : bytes := bs "space:" ++ space ++ bs ":edge:" ++ name.
Definition edge_prefix (space : bytes) : bytes := bs "space:" ++ space ++ bs ":edge:".

Definition vertex (space : bytes) (vid : Z) : bytes := space ++ bs ":vertex:" ++ dec vid.
Definition vertex_prefix (space : bytes) : bytes := space ++ bs ":vertex:".

Definition edge_data (space : bytes) (src : Z) (edge_type : bytes) (dst ranking : Z) : bytes :=
  space ++ bs ":edge:" ++ dec src ++ bs ":" ++ edge_type ++ bs ":" ++ dec dst ++ bs ":" ++ dec ranking.
Definition edge_data_src_prefix (space : bytes) (src : Z) : bytes :=
  space ++ bs ":edge:" ++ dec src ++ bs ":".

Definition in_edge_data (space : bytes) (dst : Z) (edge_type : bytes) (src ranking : Z) : bytes :=
  space ++ bs ":in-edge:" ++ dec dst ++ bs ":" ++ edge_type ++ bs ":" ++ dec src ++ bs ":" ++ dec ranking.
Definition in_edge_data_dst_prefix (space : bytes) (dst : Z) : bytes :=
  space ++ bs ":in-edge:" ++ dec dst ++ bs ":".

Definition vtype (space : bytes) (vid : Z) (class : bytes) : bytes :=
  space ++ bs ":vtype:" ++ dec vid ++ bs ":" ++ class.
Definition vtype_prefix (space : bytes) (vid : Z) : bytes := space ++ bs ":vtype:" ++ dec vid ++ bs ":".
Definition vtype_class_from_key (key : bytes) : option bytes :=
  if utf8_valid key then Some (rsplit_colon key) else None.

Definition prov_edge (space : bytes) (s : Z) (p : bytes) (d : Z) : bytes :=
  space ++ bs ":prov:e:" ++ dec s ++ bs ":" ++ p ++ bs ":" ++ dec d.
Definition prov_vtype (space : bytes) (vid : Z) (class : bytes) : bytes :=
  space ++ bs ":prov:v:" ++ dec vid ++ bs ":" ++ class.
Definition prov_prefix (space : bytes) : bytes := space ++ bs ":prov:".
Definition prov_rev_edge (space : bytes) (s : Z) (p : bytes) (d : Z) : bytes :=
  space ++ bs ":prov-rev:e:" ++ dec s ++ bs ":" ++ p ++ bs ":" ++ dec d.
Definition prov_rev_prefix (space : bytes) : bytes := space ++ bs ":prov-rev:".

Definition tagvid (space tag : bytes) (vid : Z) : bytes := space ++ bs ":tagvid:" ++ tag ++ bs ":" ++ dec vid.

Definition sameas (space : bytes) (vid : Z) : bytes := space ++ bs ":sameas:" ++ dec vid.
Definition sameas_member (space : bytes) (rep member : Z) : bytes :=
  space ++ bs ":sameas-members:" ++ dec rep ++ bs ":" ++ dec member.
Definition sameas_members_prefix (space : bytes) (rep : Z) : bytes :=
  space ++ bs ":sameas-members:" ++ dec rep ++ bs ":".
Definition sameas_member_from_key (key : bytes) : option Z :=
  if utf8_valid key then parse_i64 (rsplit_colon key) else None.

Definition vec_data (space prop : bytes) (vid : Z) : bytes := space ++ bs ":vec:" ++ prop ++ bs ":" ++ dec vid.
Definition vec_data_prop_prefix (space prop : bytes) : bytes := space ++ bs ":vec:" ++ prop ++ bs ":".
Definition vec_data_vid_from_key (key : bytes) : option Z :=
  if utf8_valid key then parse_i64 (rsplit_colon key) else None.
Definition vec_index (space prop : bytes) : bytes := space ++ bs ":vecidx:" ++ prop.
Definition vec_index_dirty (space prop : bytes) : bytes := space ++ bs ":vecidx-dirty:" ++ prop.

Definition tag_index (space name : bytes) : bytes := bs "space:" ++ space ++ bs ":tag_index:" ++ name.
Definition edge_index (space name : bytes) : bytes := bs "space:" ++ space ++ bs ":edge_index:" ++ name.
Definition next_space_id_key : bytes := bs "__meta:next_space_id".

Definition indeg_counter (space etype : bytes) (dst : Z) : bytes :=
  space ++ bs ":indeg:" ++ etype ++ bs ":" ++ dec dst.
Definition outdeg_counter (space etype : bytes) (src : Z) : bytes :=
  space ++ bs ":outdeg:" ++ etype ++ bs ":" ++ dec src.

Definition encode_count (n : Z) : bytes := i64_to_le n.
Definition decode_count (b : bytes) : option Z :=
  if bool_decide (length b = 8%nat) then Some (i64_of_le b) else None.

End SchemaKey.

(** ** What is stored *)

(** The rows of one space. *)
Inductive DataRow :=
| Vertex (vid : Z)
| EdgeData (src : Z) (etype : bytes) (dst rank : Z)
| InEdge (dst : Z) (etype : bytes) (src rank : Z)
| VType (vid : Z) (class : bytes)
| ProvEdge (s : Z) (p : bytes) (d : Z)
| ProvVType (vid : Z) (class : bytes)
| ProvRevEdge (s : Z) (p : bytes) (d : Z)
| TagVid (tag : bytes) (vid : Z)
| SameAs (vid : Z)
| SameAsMember (rep member : Z)
| VecData (prop : bytes) (vid : Z)
| VecIndex (prop : bytes)
| VecIndexDirty (prop : bytes)
| InDeg (etype : bytes) (vid : Z)
| OutDeg (etype : bytes) (vid : Z).

(** The kinds of named objects of a space's schema. *)
Inductive SchemaKind := KTag | KClass | KShape | KEdge | KTagIndex | KEdgeIndex.

Inductive Row :=
| Space (name : bytes)
| Schema (kind : SchemaKind) (space name : bytes)
| Data (space : bytes) (row : DataRow)
| NextSpaceId.

Definition data_key (sp : bytes) (r : DataRow) : bytes :=
  match r with
  | Vertex v => SchemaKey.vertex sp v
  | EdgeData s t d k => SchemaKey.edge_data sp s t d k
  | InEdge d t s k => SchemaKey.in_edge_data sp d t s k
  | VType v c => SchemaKey.vtype sp v c
  | ProvEdge s p d => SchemaKey.prov_edge sp s p d
  | ProvVType v c => SchemaKey.prov_vtype sp v c
  | ProvRevEdge s p d => SchemaKey.prov_rev_edge sp s p d
  | TagVid t v => SchemaKey.tagvid sp t v
  | SameAs v => SchemaKey.sameas sp v
  | SameAsMember r m => SchemaKey.sameas_member sp r m
  | VecData p v => SchemaKey.vec_data sp p v
  | VecIndex p => SchemaKey.vec_index sp p
  | VecIndexDirty p => SchemaKey.vec_index_dirty sp p
  | InDeg t v => SchemaKey.indeg_counter sp t v
  | OutDeg t v => SchemaKey.outdeg_counter sp t v
  end.

Definition schema_key (k : SchemaKind) (sp name : bytes) : bytes :=
  match k with
  | KTag => SchemaKey.tag sp name
  | KClass => SchemaKey.class sp name
  | KShape => SchemaKey.shape sp name
  | KEdge => SchemaKey.edge sp name
  | KTagIndex => SchemaKey.tag_index sp name
  | KEdgeIndex => SchemaKey.edge_index sp name
  end.

Definition row_key (r : Row) : bytes :=
  match r with
  | Space n => SchemaKey.space n
  | Schema k sp n => schema_key k sp n
  | Data sp r => data_key sp r
  | NextSpaceId => SchemaKey.next_space_id_key
  end.

(** The segments of a row's key. *)
Definition data_segments (r : DataRow) : list bytes :=
  match r with
  | Vertex v => [bs "vertex"; dec v]
  | EdgeData s t d k => [bs "edge"; dec s; t; dec d; dec k]
  | InEdge d t s k => [bs "in-edge"; dec d; t; dec s; dec k]
  | VType v c => [bs "vtype"; dec v; c]
  | ProvEdge s p d => [bs "prov"; bs "e"; dec s; p; dec d]
  | ProvVType v c => [bs "prov"; bs "v"; dec v; c]
  | ProvRevEdge s p d => [bs "prov-rev"; bs "e"; dec s; p; dec d]
  | TagVid t v => [bs "tagvid"; t; dec v]
  | SameAs v => [bs "sameas"; dec v]
  | SameAsMember r m => [bs "sameas-members"; dec r; dec m]
  | VecData p v => [bs "vec"; p; dec v]
  | VecIndex p => [bs "vecidx"; p]
  | VecIndexDirty p => [bs "vecidx-dirty"; p]
  | InDeg t v => [bs "indeg"; t; dec v]
  | OutDeg t v => [bs "outdeg"; t; dec v]
  end.

Definition kind_segment (k : SchemaKind) : bytes :=
  match k with
  | KTag => bs "tag" | KClass => bs "class" | KShape => bs "shape" | KEdge => bs "edge"
  | KTagIndex => bs "tag_index" | KEdgeIndex => bs "edge_index"
  end.

Definition segments (r : Row) : list bytes :=
  match r with
  | Space n => [bs "space"; n]
  | Schema k sp n => [bs "space"; sp; kind_segment k; n]
  | Data sp r => sp :: data_segments r
  | NextSpaceId => [bs "__meta"; bs "next_space_id"]
  end.

Lemma row_key_segments r : row_key r = join_colon (segments r).
Proof. destruct r as [n|[] sp n|sp []|]; reflexivity. Qed.

(** Names as the lexer accepts them: a letter or underscore first, then letters,
    digits and underscores. *)
Definition name_start (b : byte) : bool :=
  in_range 65 90 b || in_range 97 122 b || bool_decide (b = "_"%byte).
Definition name_char (b : byte) : bool := name_start b || in_range 48 57 b.
Definition identifier (s : bytes) : bool :=
  match s with [] => false | b :: s' => name_start b && forallb name_char s' end.

Definition data_row_ok (r : DataRow) : Prop :=
  match r with
  | Vertex v | SameAs v => i64_ok v
  | EdgeData a t b c | InEdge a t b c => identifier t = true /\ i64_ok a /\ i64_ok b /\ i64_ok c
  | VType v n | ProvVType v n | TagVid n v | VecData n v | InDeg n v | OutDeg n v =>
      identifier n = true /\ i64_ok v
  | ProvEdge a p b | ProvRevEdge a p b => identifier p = true /\ i64_ok a /\ i64_ok b
  | SameAsMember a b => i64_ok a /\ i64_ok b
  | VecIndex n | VecIndexDirty n => identifier n = true
  end.

Definition row_ok (r : Row) : Prop :=
  match r with
  | Space n => identifier n = true
  | Schema _ sp n => identifier sp = true /\ identifier n = true
  | Data sp r => identifier sp = true /\ data_row_ok r
  | NextSpaceId => True
  end.

(** ** Rows and keys *)

Lemma name_char_bounds b : name_char b = true -> 48 <= b2z b <= 122 /\ b <> COLON.
Proof.
  unfold name_char, name_start, in_range, COLON. intros H.
  assert (Hb : 48 <= b2z b <= 57 \/ 65 <= b2z b <= 90 \/ 97 <= b2z b <= 122 \/ b = "_"%byte).
  { rewrite !orb_true_iff, !andb_true_iff, !Z.leb_le, bool_decide_eq_true in H. tauto. }
  destruct Hb as [Hb|[Hb|[Hb|Hb]]]; [..|subst b; by vm_compute]; (split; [lia|intros ->; by vm_compute in Hb; destruct Hb]).
Qed.

Lemma identifier_chars s : identifier s = true -> Forall (fun b => name_char b = true) s.
Proof.
  destruct s as [|b s]; [done|]. simpl. intros [Hb Hs]%andb_true_iff. constructor.
  - unfold name_char. by rewrite Hb.
  - rewrite forallb_forall in Hs. apply Forall_forall. intros x Hx. by apply Hs, list_elem_of_In.
Qed.

Lemma identifier_colon_free s : identifier s = true -> colon_free s.
Proof.
  intros Hs Hin. pose proof (identifier_chars s Hs) as H. rewrite Forall_forall in H.
  by apply (name_char_bounds _ (H _ Hin)).
Qed.

Lemma identifier_utf8 s : identifier s = true -> utf8_valid s = true.
Proof.
  intros Hs. apply utf8_valid_ascii. eapply Forall_impl; [by apply identifier_chars|].
  intros b [? _]%name_char_bounds. lia.
Qed.

(** A name is not a number. *)
Lemma identifier_dec s z : identifier s = true -> s <> dec z.
Proof.
  destruct s as [|b s]; [done|]. simpl. intros [Hb _]%andb_true_iff E.
  pose proof (dec_chars z) as Hd. rewrite <- E in Hd. apply Forall_cons in Hd as [Hd _].
  unfold name_start, in_range in Hb. rewrite !orb_true_iff, !andb_true_iff, !Z.leb_le, bool_decide_eq_true in Hb.
  destruct Hb as [[Hb|Hb]|Hb]; [lia|lia|subst b]. by vm_compute in Hd; destruct Hd.
Qed.

#[export] Hint Resolve identifier_colon_free identifier_utf8 : text.

Lemma const_colon_free s : forallb (fun b => negb (bool_decide (b = COLON))) s = true -> colon_free s.
Proof.
  rewrite forallb_forall. intros H Hin. apply list_elem_of_In, H in Hin. by rewrite bool_decide_eq_true_2 in Hin.
Qed.

Ltac segment_ok := repeat apply Forall_cons_2; try apply Forall_nil_2; auto with text;
  try (apply const_colon_free; reflexivity).

Lemma segments_colon_free r : row_ok r -> Forall colon_free (segments r).
Proof.
  destruct r as [n|k sp n|sp r|]; simpl; intros H; [segment_ok|destruct H; segment_ok; by destruct k; segment_ok| |segment_ok].
  destruct H as [Hsp Hr]. constructor; [auto with text|].
  destruct r; simpl in *; destruct_and?; segment_ok.
Qed.

Lemma segments_nonempty r : segments r <> [].
Proof. by destruct r. Qed.

(** Decimal segments determine the integers, and names differ from integers. *)
Ltac decide_segments :=
  repeat match goal with
  | H : dec ?x = dec ?y |- _ => apply dec_inj in H; [|done|done]; subst
  | H : identifier (dec ?z) = true |- _ => exfalso; exact (identifier_dec _ z H eq_refl)
  | H : ?s = dec ?z, Hs : identifier ?s = true |- _ => exfalso; exact (identifier_dec s z Hs H)
  | H : dec ?z = ?s, Hs : identifier ?s = true |- _ => exfalso; exact (identifier_dec s z Hs (eq_sym H))
  end.

Lemma data_segments_inj r1 r2 :
  data_row_ok r1 -> data_row_ok r2 -> data_segments r1 = data_segments r2 -> r1 = r2.
Proof.
  intros H1 H2 E. destruct r1, r2; simpl in *; try discriminate E; injection E; clear E; intros; subst;
    destruct_and?; try discriminate; decide_segments; done.
Qed.

Lemma schema_not_data k sp n sp' r :
  identifier n = true -> data_row_ok r -> segments (Schema k sp n) <> sp' :: data_segments r.
Proof.
  intros Hn Hr E. simpl in E. injection E. clear E. intros E <-. destruct r; simpl in *; try discriminate E;
    injection E; clear E; intros; subst; destruct_and?; decide_segments.
  all: assert (Hk : identifier (kind_segment k) = true) by (by destruct k); eapply identifier_dec; eauto.
Qed.

(** No two rows share a key: over all spaces and all kinds of metadata,
    vertices, edges, indexes, inferred facts and counters, equal keys mean equal
    rows, when names are identifiers of the query language and identifiers fit
    64 bits. *)
Theorem row_key_injective r1 r2 : row_ok r1 -> row_ok r2 -> row_key r1 = row_key r2 -> r1 = r2.
Proof.
  intros H1 H2 E. rewrite !row_key_segments in E.
  apply join_colon_inj in E; try apply segments_nonempty; try by apply segments_colon_free.
  destruct r1 as [n1|k1 sp1 n1|sp1 r1|], r2 as [n2|k2 sp2 n2|sp2 r2|]; simpl in H1, H2.
  - by injection E as ->.
  - discriminate E.
  - exfalso. destruct r2; discriminate E.
  - discriminate E.
  - discriminate E.
  - injection E. intros -> Hk ->. by destruct k1, k2.
  - destruct (schema_not_data k1 sp1 n1 sp2 r2 (proj2 H1) (proj2 H2) E).
  - discriminate E.
  - exfalso. destruct r1; discriminate E.
  - destruct (schema_not_data k2 sp2 n2 sp1 r1 (proj2 H2) (proj2 H1) (eq_sym E)).
  - simpl in E. injection E. intros Hr ->. f_equal. apply data_segments_inj; [apply H1|apply H2|exact Hr].
  - exfalso. destruct r1; discriminate E.
  - discriminate E.
  - discriminate E.
  - exfalso. destruct r2; discriminate E.
  - done.
Qed.

Lemma row_key_injective_witness :
  row_key (Data (bs "g") (EdgeData 1 (bs "knows") (-2) 0)) <>
  row_key (Data (bs "g") (EdgeData 1 (bs "knows") 2 0)).
Proof.
  intros E. apply row_key_injective in E; [discriminate E|..]; vm_compute; intuition discriminate.
Defined.

(** ** Prefix scans *)

Inductive Prefix :=
| PSpaces
| PSchema (kind : SchemaKind) (space : bytes)
| PSchemaOf (space : bytes)
| PDataOf (space : bytes)
| PVertex (space : bytes)
| PEdgeSrc (space : bytes) (src : Z)
| PInEdgeDst (space : bytes) (dst : Z)
| PVType (space : bytes) (vid : Z)
| PProv (space : bytes)
| PProvRev (space : bytes)
| PSameAsMembers (space : bytes) (rep : Z)
| PVecData (space prop : bytes).

(** The prefixes without a function of their own are built where they are used:
    [space:{name}:] and [{name}:] by DROP SPACE, and the two index kinds. *)
Definition prefix_key (p : Prefix) : bytes :=
  match p with
  | PSpaces => SchemaKey.space_prefix
  | PSchema KTag sp => SchemaKey.tag_prefix sp
  | PSchema KClass sp => SchemaKey.class_prefix sp
  | PSchema KShape sp => SchemaKey.shape_prefix sp
  | PSchema KEdge sp => SchemaKey.edge_prefix sp
  | PSchema KTagIndex sp => SchemaKey.tag_index sp []
  | PSchema KEdgeIndex sp => SchemaKey.edge_index sp []
  | PSchemaOf sp => bs "space:" ++ sp ++ bs ":"
  | PDataOf sp => sp ++ bs ":"
  | PVertex sp => SchemaKey.vertex_prefix sp
  | PEdgeSrc sp s => SchemaKey.edge_data_src_prefix sp s
  | PInEdgeDst sp d => SchemaKey.in_edge_data_dst_prefix sp d
  | PVType sp v => SchemaKey.vtype_prefix sp v
  | PProv sp => SchemaKey.prov_prefix sp
  | PProvRev sp => SchemaKey.prov_rev_prefix sp
  | PSameAsMembers sp r => SchemaKey.sameas_members_prefix sp r
  | PVecData sp p => SchemaKey.vec_data_prop_prefix sp p
  end.

Definition prefix_segments (p : Prefix) : list bytes :=
  match p with
  | PSpaces => [bs "space"]
  | PSchema k sp => [bs "space"; sp; kind_segment k]
  | PSchemaOf sp => [bs "space"; sp]
  | PDataOf sp => [sp]
  | PVertex sp => [sp; bs "vertex"]
  | PEdgeSrc sp s => [sp; bs "edge"; dec s]
  | PInEdgeDst sp d => [sp; bs "in-edge"; dec d]
  | PVType sp v => [sp; bs "vtype"; dec v]
  | PProv sp => [sp; bs "prov"]
  | PProvRev sp => [sp; bs "prov-rev"]
  | PSameAsMembers sp r => [sp; bs "sameas-members"; dec r]
  | PVecData sp p => [sp; bs "vec"; p]
  end.

Lemma prefix_key_segments p : prefix_key p = join_colon (prefix_segments p ++ [[]]).
Proof. destruct p as [|[] sp|sp|sp|sp|sp s|sp d|sp v|sp|sp|sp r|sp p]; reflexivity. Qed.

Definition prefix_ok (p : Prefix) : Prop :=
  match p with
  | PSpaces => True
  | PSchema _ sp | PSchemaOf sp | PDataOf sp | PVertex sp | PProv sp | PProvRev sp => identifier sp = true
  | PEdgeSrc sp v | PInEdgeDst sp v | PVType sp v | PSameAsMembers sp v => identifier sp = true /\ i64_ok v
  | PVecData sp p => identifier sp = true /\ identifier p = true
  end.

(** The rows a scan of the prefix is meant to return. *)
Definition covers (p : Prefix) (r : Row) : Prop :=
  match p, r with
  | PSpaces, Space _ | PSpaces, Schema _ _ _ => True
  | PSchema k sp, Schema k' sp' _ => k = k' /\ sp = sp'
  | PSchemaOf sp, Schema _ sp' _ => sp = sp'
  | PDataOf sp, Data sp' _ => sp = sp'
  | PVertex sp, Data sp' (Vertex _) => sp = sp'
  | PEdgeSrc sp s, Data sp' (EdgeData s' _ _ _) => sp = sp' /\ s = s'
  | PInEdgeDst sp d, Data sp' (InEdge d' _ _ _) => sp = sp' /\ d = d'
  | PVType sp v, Data sp' (VType v' _) => sp = sp' /\ v = v'
  | PProv sp, Data sp' (ProvEdge _ _ _) | PProv sp, Data sp' (ProvVType _ _) => sp = sp'
  | PProvRev sp, Data sp' (ProvRevEdge _ _ _) => sp = sp'
  | PSameAsMembers sp r, Data sp' (SameAsMember r' _) => sp = sp' /\ r = r'
  | PVecData sp p, Data sp' (VecData p' _) => sp = sp' /\ p = p'
  | _, _ => False
  end.

Definition RESERVED : bytes := bs "space".

(** No space of the row or prefix is called [space] or [__meta]. *)
Definition unreserved_row (r : Row) : Prop :=
  match r with Data sp _ => sp <> RESERVED | _ => True end.
Definition unreserved_prefix (p : Prefix) : Prop :=
  match p with
  | PSpaces | PSchema _ _ | PSchemaOf _ => True
  | PDataOf sp | PVertex sp | PProv sp | PProvRev sp | PEdgeSrc sp _ | PInEdgeDst sp _ | PVType sp _
  | PSameAsMembers sp _ | PVecData sp _ => sp <> RESERVED /\ sp <> bs "__meta"
  end.

Lemma prefix_segments_ok p : prefix_ok p -> Forall colon_free (prefix_segments p).
Proof.
  destruct p as [|k sp|sp|sp|sp|sp s|sp d|sp v|sp|sp|sp r|sp p]; simpl; intros H; destruct_and?; segment_ok.
  by destruct k; segment_ok.
Qed.

Lemma prefix_segments_nonempty p : prefix_segments p <> [].
Proof. by destruct p. Qed.

Lemma covers_segments p r :
  covers p r -> exists rest, rest <> [] /\ segments r = prefix_segments p ++ rest.
Proof.
  destruct p as [|k sp|sp|sp|sp|sp s|sp d|sp v|sp|sp|sp rp|sp p], r as [n|k' sp' n|sp' []|]; simpl; intros H;
    try done; destruct_and?; subst; eexists; (split; [|reflexivity]); done.
Qed.

Lemma segments_covers_schema p r :
  prefix_ok p -> row_ok r -> unreserved_prefix p -> unreserved_row r ->
  match p with PSpaces | PSchema _ _ | PSchemaOf _ => True | _ => False end ->
  (exists rest, rest <> [] /\ segments r = prefix_segments p ++ rest) -> covers p r.
Proof.
  intros Hp Hr Hup Hur Hs (rest & Hne & E).
  destruct p as [|k sp|sp| | | | | | | | | ]; try done; destruct r as [n|k' sp' n|sp' row|]; simpl in *; try done.
  all: injection E; clear E; intros; subst; try done; try (by destruct Hur).
  all: destruct k, k'; done.
Qed.

Lemma segments_covers_data p sp r :
  prefix_ok p -> row_ok (Data sp r) -> (exists rest, rest <> [] /\ segments (Data sp r) = prefix_segments p ++ rest) ->
  match p with PSpaces | PSchema _ _ | PSchemaOf _ => False | _ => True end -> covers p (Data sp r).
Proof.
  intros Hp Hr (rest & Hne & E) Hd.
  destruct p as [|k sp0|sp0|sp0|sp0|sp0 s|sp0 d|sp0 v|sp0|sp0|sp0 rp|sp0 p]; try done;
    destruct r; simpl in *; try discriminate E; injection E; clear E; intros; subst; try discriminate;
    destruct_and?; decide_segments; done.
Qed.

Lemma prefix_covers p r :
  prefix_ok p -> row_ok r -> unreserved_prefix p -> unreserved_row r ->
  starts_with (prefix_key p) (row_key r) = true <-> covers p r.
Proof.
  intros Hp Hr Hup Hur. rewrite prefix_key_segments, row_key_segments.
  rewrite segments_prefix by (apply prefix_segments_nonempty || apply segments_nonempty ||
    by apply prefix_segments_ok || by apply segments_colon_free).
  split; [|apply covers_segments]. intros Hex.
  destruct p as [|k sp|sp|sp|sp|sp s|sp d|sp v|sp|sp|sp rp|sp p]; try by apply segments_covers_schema.
  all: destruct r as [n|k' sp' n|sp' row|]; [exfalso|exfalso|by apply segments_covers_data|exfalso].
  all: destruct Hex as (rest & Hne & E); simpl in *; destruct_and?; try discriminate E; injection E; intros; subst; try done.
Qed.

(** A prefix scan returns exactly the rows it is meant for. Of all the rows a
    store can hold, a scan with one of the prefixes - all spaces, one kind of schema
    object, everything of a space, its vertices, the out- or in-edges of a vertex,
    its inferred types, the provenance, the members of a class of equal vertices,
    the vectors of a property - returns those that are one of those and stored,
    with their values, when no space is called [space] or [__meta]. *)
Theorem prefix_scan_exact p s :
  mem_wf s -> prefix_ok p -> unreserved_prefix p ->
  exists rows, Memory.scan_prefix (prefix_key p) s = (Ok rows, s) /\
    forall r v, row_ok r -> unreserved_row r ->
      (row_key r, v) ∈ rows <-> covers p r /\ om_get (row_key r) (data s) = Some v.
Proof.
  intros [Hd _] Hp Hup. eexists. split; [reflexivity|]. intros r v Hr Hur.
  rewrite prefix_walk, filter_elem by done. cbn [fst]. rewrite prefix_covers, om_get_elem by done. tauto.
Qed.

Lemma prefix_scan_exact_witness :
  let s := (Memory.put (SchemaKey.edge_data (bs "g") 12 (bs "knows") 1 0) (bs "e") Memory.new).2 in
  exists rows, Memory.scan_prefix (SchemaKey.edge_data_src_prefix (bs "g") 1) s = (Ok rows, s) /\
    (SchemaKey.edge_data (bs "g") 12 (bs "knows") 1 0, bs "e") ∉ rows.
Proof.
  intros s. assert (Hwf : mem_wf s) by (split; [apply om_insert_wf, om_wf_nil|repeat split; auto with kv]).
  destruct (prefix_scan_exact (PEdgeSrc (bs "g") 1) s Hwf) as (rows & Hscan & Hrows); [by vm_compute|by vm_compute|].
  exists rows. split; [exact Hscan|].
  rewrite (Hrows (Data (bs "g") (EdgeData 12 (bs "knows") 1 0)) (bs "e")); [|by vm_compute|by vm_compute].
  by intros [[_ H] _].
Defined.

(** ** Parsing keys and counters *)

Lemma utf8_valid_key sp s : utf8_valid sp = true -> utf8_valid s = true -> utf8_valid (sp ++ bs ":" ++ s) = true.
Proof. intros H1 H2. repeat apply utf8_valid_app; done. Qed.

Lemma utf8_join_colon ss : Forall (fun s => utf8_valid s = true) ss -> utf8_valid (join_colon ss) = true.
Proof.
  induction 1 as [|s ss Hs Hss IH]; [done|]. destruct ss as [|s' ss]; [done|].
  rewrite join_colon_cons by done. change (COLON :: ?l) with (bs ":" ++ l). by apply utf8_valid_key.
Qed.

(** The parsers of a key's last segment return what the key was built from:
    the member of a merged vertex, the vertex of a vector and the class of an
    inferred type; and a degree counter's value is read back as written, while
    bytes of any other length are refused. *)
Theorem key_parsers_roundtrip sp rep m prop vid class n b :
  identifier sp = true -> identifier prop = true -> identifier class = true ->
  i64_ok m -> i64_ok vid -> i64_ok n -> length b <> 8%nat ->
  SchemaKey.sameas_member_from_key (SchemaKey.sameas_member sp rep m) = Some m /\
  SchemaKey.vec_data_vid_from_key (SchemaKey.vec_data sp prop vid) = Some vid /\
  SchemaKey.vtype_class_from_key (SchemaKey.vtype sp vid class) = Some class /\
  SchemaKey.decode_count (SchemaKey.encode_count n) = Some n /\ SchemaKey.decode_count b = None.
Proof.
  intros Hsp Hprop Hclass Hm Hvid Hn Hb.
  assert (Hparse : forall ss s, Forall (fun s => utf8_valid s = true) (ss ++ [s]) -> Forall colon_free (ss ++ [s]) ->
    utf8_valid (join_colon (ss ++ [s])) = true /\ rsplit_colon (join_colon (ss ++ [s])) = s).
  { intros ss s Hu Hc. split; [by apply utf8_join_colon|by apply rsplit_join]. }
  split; [|split; [|split; [|split]]].
  - destruct (Hparse [sp; bs "sameas-members"; dec rep] (dec m)) as [Hu Hr]; [repeat constructor; auto with text|segment_ok|].
    unfold SchemaKey.sameas_member_from_key. change (SchemaKey.sameas_member sp rep m) with
      (join_colon ([sp; bs "sameas-members"; dec rep] ++ [dec m])). rewrite Hu, Hr. by apply parse_i64_dec.
  - destruct (Hparse [sp; bs "vec"; prop] (dec vid)) as [Hu Hr]; [repeat constructor; auto with text|segment_ok|].
    unfold SchemaKey.vec_data_vid_from_key. change (SchemaKey.vec_data sp prop vid) with
      (join_colon ([sp; bs "vec"; prop] ++ [dec vid])). rewrite Hu, Hr. by apply parse_i64_dec.
  - destruct (Hparse [sp; bs "vtype"; dec vid] class) as [Hu Hr]; [repeat constructor; auto with text|segment_ok|].
    unfold SchemaKey.vtype_class_from_key. change (SchemaKey.vtype sp vid class) with
      (join_colon ([sp; bs "vtype"; dec vid] ++ [class])). by rewrite Hu, Hr.
  - unfold SchemaKey.decode_count, SchemaKey.encode_count, i64_to_le. rewrite bool_decide_eq_true_2 by apply length_le_bytes.
    f_equal. by apply i64_le_roundtrip.
  - unfold SchemaKey.decode_count. by rewrite bool_decide_eq_false_2.
Qed.

Lemma key_parsers_roundtrip_witness :
  SchemaKey.sameas_member_from_key (SchemaKey.sameas_member (bs "g") 3 (-7)) = Some (-7).
Proof.
  apply (key_parsers_roundtrip (bs "g") 3 (-7) (bs "p") 1 (bs "C") 0 []); vm_compute; intuition discriminate.
Defined.
