(* ===== verification/Value.v ===== *)
(** * Values

    [byoridb-common/src/types.rs] and [byoridb-common/src/datatypes]: the value type
    of properties and results. A float is given by its 64 bits. A [HashMap] inside a
    value is a finite map. *)

From Stdlib Require Import ZArith Lia Strings.Byte Strings.String Floats.SpecFloat.
From stdpp Require Import base tactics list gmap countable.
From S2P Require Import Prelude Text.

Inductive NullType :=
| NullNull | NullNaN | NullBadData | NullBadType | NullErrOverflow | NullUnknownProp | NullDivByZero | NullOutOfRange.

Definition null_display (n : NullType) : bytes :=
  match n with
  | NullNull => bs "NULL"
  | NullNaN => bs "NaN"
  | NullBadData => bs "BAD_DATA"
  | NullBadType => bs "BAD_TYPE"
  | NullErrOverflow => bs "ERR_OVERFLOW"
  | NullUnknownProp => bs "UNKNOWN_PROP"
  | NullDivByZero => bs "DIV_BY_ZERO"
  | NullOutOfRange => bs "OUT_OF_RANGE"
  end.

Inductive ValueType :=
| TEmpty | TBool | TInt | TFloat | TString | TDate | TTime | TDateTime | TVertex | TEdge | TPath | TList | TMap | TSet
| TDataSet | TGeography | TDuration | TNullValue.

Definition type_name (t : ValueType) : bytes :=
  match t with
  | TEmpty => bs "empty"
  | TBool => bs "bool"
  | TInt => bs "int"
  | TFloat => bs "float"
  | TString => bs "string"
  | TDate => bs "date"
  | TTime => bs "time"
  | TDateTime => bs "datetime"
  | TVertex => bs "vertex"
  | TEdge => bs "edge"
  | TPath => bs "path"
  | TList => bs "list"
  | TMap => bs "map"
  | TSet => bs "set"
  | TDataSet => bs "dataset"
  | TGeography => bs "geography"
  | TDuration => bs "duration"
  | TNullValue => bs "null"
  end.

Record Date := mkDate { d_year : Z; d_month : Z; d_day : Z }.
Record Time := mkTime { t_hour : Z; t_minute : Z; t_second : Z; t_microsec : Z }.
Record DateTime := mkDateTime {
  dt_year : Z; dt_month : Z; dt_day : Z; dt_hour : Z; dt_minute : Z; dt_second : Z; dt_microsecond : Z
}.

#[warnings="-register-all"] Inductive Value :=
| VEmpty
| VNull (n : NullType)
| VBool (b : bool)
| VInt (i : Z)
| VFloat (bits : Z)
| VString (s : bytes)
| VDate (d : Date)
| VTime (t : Time)
| VDateTime (dt : DateTime)
| VVertex (vid : Value) (tags : list (bytes * gmap bytes Value))
| VEdge (src dst : Value) (edge_type : Z) (name : bytes) (ranking : Z) (props : gmap bytes Value)
| VPath (vertices : list (Value * list (bytes * gmap bytes Value)))
| VList (values : list Value)
| VMap (data : gmap bytes Value)
| VSet (data : gset bytes)
| VDataSet (column_names : list bytes) (rows : list (list Value))
| VGeography (value : bytes)
| VDuration (value : bytes).

Definition type_of (v : Value) : ValueType :=
  match v with
  | VEmpty => TEmpty
  | VNull _ => TNullValue
  | VBool _ => TBool
  | VInt _ => TInt
  | VFloat _ => TFloat
  | VString _ => TString
  | VDate _ => TDate
  | VTime _ => TTime
  | VDateTime _ => TDateTime
  | VVertex _ _ => TVertex
  | VEdge _ _ _ _ _ _ => TEdge
  | VPath _ => TPath
  | VList _ => TList
  | VMap _ => TMap
  | VSet _ => TSet
  | VDataSet _ _ => TDataSet
  | VGeography _ => TGeography
  | VDuration _ => TDuration
  end.

Definition is_null (v : Value) : bool := match v with VNull _ => true | _ => false end.

(** [byoridb_common::Error], the part the conversions use. *)
Inductive CommonError := BadType (expected found : bytes).

Definition as_bool (v : Value) : Result CommonError bool :=
  match v with VBool b => Ok b | _ => Err (BadType (bs "bool") (type_name (type_of v))) end.
Definition as_int (v : Value) : Result CommonError Z :=
  match v with VInt i => Ok i | _ => Err (BadType (bs "int") (type_name (type_of v))) end.
Definition as_float (v : Value) : Result CommonError Z :=
  match v with VFloat f => Ok f | _ => Err (BadType (bs "float") (type_name (type_of v))) end.
Definition as_str (v : Value) : Result CommonError bytes :=
  match v with VString s => Ok s | _ => Err (BadType (bs "string") (type_name (type_of v))) end.

(** ** Text *)

(** A decimal number padded with zeros to [n] digits, [{:0n}]. *)
Definition padded (n : nat) (z : Z) : bytes := replicate (n - length (dec z)) x30 ++ dec z.

Definition date_to_string (d : Date) : bytes :=
  padded 4 (d_year d) ++ bs "-" ++ padded 2 (d_month d) ++ bs "-" ++ padded 2 (d_day d).
Definition time_to_string (t : Time) : bytes :=
  padded 2 (t_hour t) ++ bs ":" ++ padded 2 (t_minute t) ++ bs ":" ++ padded 2 (t_second t) ++ bs "." ++
  padded 6 (t_microsec t).
Definition datetime_to_string (dt : DateTime) : bytes :=
  padded 4 (dt_year dt) ++ bs "-" ++ padded 2 (dt_month dt) ++ bs "-" ++ padded 2 (dt_day dt) ++ bs " " ++
  padded 2 (dt_hour dt) ++ bs ":" ++ padded 2 (dt_minute dt) ++ bs ":" ++ padded 2 (dt_second dt) ++ bs "." ++
  padded 6 (dt_microsecond dt).

(** The standard library's text of floats, and its [{:?}] text of collections. *)
Class DebugText := {
  float_display : Z -> bytes;
  debug_props : gmap bytes Value -> bytes;
  debug_vertices : list (Value * list (bytes * gmap bytes Value)) -> bytes;
  debug_strings : list bytes -> bytes;
  debug_set : gset bytes -> bytes
}.

(** [join]. *)
Fixpoint join (sep : bytes) (l : list bytes) : bytes :=
  match l with
  | [] => []
  | [x] => x
  | x :: l => x ++ sep ++ join sep l
  end.

Definition tag_to_string `{DebugText} (tag : bytes * gmap bytes Value) : bytes :=
  tag.1 ++ bs ": " ++ debug_props tag.2.
Definition tags_to_string `{DebugText} (tags : list (bytes * gmap bytes Value)) : bytes :=
  match tags with
  | [] => bs "[]"
  | _ => bs "[" ++ join (bs ", ") (tag_to_string <$> tags) ++ bs "]"
  end.

Fixpoint value_to_string `{DebugText} (v : Value) : bytes :=
  match v with
  | VEmpty => []
  | VNull n => null_display n
  | VBool b => if b then bs "true" else bs "false"
  | VInt i => dec i
  | VFloat f => float_display f
  | VString s => s
  | VDate d => date_to_string d
  | VTime t => time_to_string t
  | VDateTime dt => datetime_to_string dt
  | VVertex vid tags => value_to_string vid ++ tags_to_string tags
  | VEdge src dst edge_type name ranking props =>
      value_to_string src ++ bs " -> [" ++ name ++ bs " " ++ dec edge_type ++ bs " " ++ dec ranking ++ bs " " ++
      value_to_string dst ++ bs "]" ++ if (size props =? 0)%nat then [] else bs " " ++ debug_props props
  | VPath vertices => debug_vertices vertices
  | VList values => bs "[" ++ join (bs ", ") (value_to_string <$> values) ++ bs "]"
  | VMap data => debug_props data
  | VSet data => debug_set data
  | VDataSet column_names rows =>
      bs "Columns: " ++ debug_strings column_names ++ [x0a] ++
      concat ((fun row => join (bs ", ") (value_to_string <$> row) ++ [x0a]) <$> rows)
  | VGeography value => value
  | VDuration value => value
  end.

(** A map collected from entries; a later entry replaces an earlier one. *)
Definition collect_map {A} (l : list (bytes * A)) : gmap bytes A := foldl (fun m kv => <[kv.1 := kv.2]> m) ∅ l.

(** ** Conversion of integers to floats

    [z as f64], rounded to the nearest float, ties to even. *)
Definition f64_of_nonneg (z : Z) : Z :=
  if z =? 0 then 0 else
  let e := Z.log2 z in
  if e <=? 52 then Z.shiftl (e + 1023) 52 + (Z.shiftl z (52 - e) - Z.shiftl 1 52)
  else
    let shift := e - 52 in
    let q := Z.shiftr z shift in
    let r := z - Z.shiftl q shift in
    let half := Z.shiftl 1 (shift - 1) in
    let q := if (half <? r) || ((half =? r) && Z.odd q) then q + 1 else q in
    Z.shiftl (e + 1023) 52 + (q - Z.shiftl 1 52).
Definition f64_of_int (z : Z) : Z := if z <? 0 then f64_of_nonneg (- z) + two63 else f64_of_nonneg z.

(** ** Equality

    [PartialEq for Value]; floats are compared up to [1e-8]. *)

#[export] Instance null_eq_dec : EqDecision NullType.
Proof. solve_decision. Defined.
#[export] Instance date_eq_dec : EqDecision Date.
Proof. solve_decision. Defined.
#[export] Instance time_eq_dec : EqDecision Time.
Proof. solve_decision. Defined.
#[export] Instance datetime_eq_dec : EqDecision DateTime.
Proof. solve_decision. Defined.

(** A [f64] given by its bits. *)
Definition f64_value (bits : Z) : spec_float :=
  let sign := Z.testbit bits 63 in
  let ex := Z.land (Z.shiftr bits 52) 0x7ff in
  let frac := Z.land bits (2 ^ 52 - 1) in
  if ex =? 0x7ff then (if frac =? 0 then S754_infinity sign else S754_nan)
  else if ex =? 0 then match frac with Z.pos m => S754_finite sign m (-1074) | _ => S754_zero sign end
  else match frac + 2 ^ 52 with Z.pos m => S754_finite sign m (ex - 1075) | _ => S754_nan end.

(** [(f1 - f2).abs() < 1e-8]. *)
Definition float_close (f1 f2 : Z) : bool :=
  SFltb (SFabs (SFsub 53 1024 (f64_value f1) (f64_value f2))) (f64_value 0x3e45798ee2308c3a).

(** Two slices are equal elementwise, two hash maps on the same keys. *)
Definition slice_eq {A B} (eq : A -> B -> bool) : list A -> list B -> bool :=
  fix go l1 l2 :=
    match l1, l2 with
    | [], [] => true
    | x :: l1, y :: l2 => eq x y && go l1 l2
    | _, _ => false
    end.
Definition props_eq {A B} (eq : A -> B -> bool) (m1 : gmap bytes A) (m2 : gmap bytes B) : bool :=
  (size m1 =? size m2)%nat &&
  map_fold (fun k x acc => acc && match m2 !! k with Some y => eq x y | None => false end) true m1.

Fixpoint value_eq (v1 v2 : Value) : bool :=
  match v1, v2 with
  | VEmpty, VEmpty => true
  | VNull n1, VNull n2 => bool_decide (n1 = n2)
  | VBool b1, VBool b2 => Bool.eqb b1 b2
  | VInt i1, VInt i2 => i1 =? i2
  | VFloat f1, VFloat f2 => float_close f1 f2
  | VString s1, VString s2 => bool_decide (s1 = s2)
  | VVertex vid1 _, VVertex vid2 _ => value_eq vid1 vid2
  | VEdge src1 dst1 type1 name1 rank1 props1, VEdge src2 dst2 type2 name2 rank2 props2 =>
      value_eq src1 src2 && value_eq dst1 dst2 && (type1 =? type2) && (rank1 =? rank2) &&
      bool_decide (name1 = name2) && props_eq value_eq props1 props2
  | VList l1, VList l2 => slice_eq value_eq l1 l2
  | VMap m1, VMap m2 => props_eq value_eq m1 m2
  | VSet s1, VSet s2 => bool_decide (s1 = s2)
  | VPath p1, VPath p2 => slice_eq (fun x y => value_eq x.1 y.1) p1 p2
  | VDate d1, VDate d2 => bool_decide (d1 = d2)
  | VTime t1, VTime t2 => bool_decide (t1 = t2)
  | VDateTime t1, VDateTime t2 => bool_decide (t1 = t2)
  | VDuration d1, VDuration d2 => bool_decide (d1 = d2)
  | _, _ => false
  end.
