(* ===== verification/StorageKey.v ===== *)
(** * Binary keys of the storage service and index values

    [byoridb-storage/src/key.rs]: keys of vertices, edges and index entries in
    big-endian fields, and the encoding of indexed values. A 64-bit float is its
    IEEE 754 bits ([f64::to_bits]), text its UTF-8 bytes. *)

From Stdlib Require Import ZArith Lia Strings.Byte Strings.String.
From stdpp Require Import base tactics list.
From S2P Require Import Prelude Text.

Inductive KeyType := KeyVertex | KeyEdge | KeySystem | KeyTagIndex | KeyEdgeIndex.

Definition key_type_byte (t : KeyType) : byte :=
  z2b match t with KeyVertex => 1 | KeyEdge => 2 | KeySystem => 3 | KeyTagIndex => 4 | KeyEdgeIndex => 5 end.

Inductive IndexValue :=
| IVNull
| IVBool (b : bool)
| IVInt (i : Z)
| IVFloat (bits : Z)
| IVString (s : bytes).

(** [bits & (1 << 63) != 0] *)
Definition sign_bit (bits : Z) : bool := negb (Z.land bits two63 =? 0).

Definition encode_float (bits : Z) : Z := if sign_bit bits then u64_not bits else flip_sign bits.
Definition decode_float (encoded : Z) : Z := if sign_bit encoded then flip_sign encoded else u64_not encoded.

Module IndexValue.

(** The bytes appended to the buffer. *)
Definition encode (v : IndexValue) : bytes :=
  match v with
  | IVNull => [z2b 0x00]
  | IVBool b => [z2b 0x01; z2b (if b then 1 else 0)]
  | IVInt i => z2b 0x02 :: be_bytes 8 (flip_sign (as_u64 i))
  | IVFloat bits => z2b 0x03 :: be_bytes 8 (encode_float bits)
  | IVString s => let len := Nat.min (length s) 255 in
                  z2b 0x04 :: z2b (Z.of_nat len) :: take len s
  end.

Definition encoded_len (v : IndexValue) : nat :=
  match v with
  | IVNull => 1
  | IVBool _ => 2
  | IVInt _ | IVFloat _ => 9
  | IVString s => 2 + Nat.min (length s) 255
  end.

Definition decode (data : bytes) : option (IndexValue * nat) :=
  match data with
  | [] => None
  | t :: rest =>
      if b2z t =? 0x00 then Some (IVNull, 1%nat)
      else if (b2z t =? 0x01) && (2 <=? length data)%nat then
        match rest with x :: _ => Some (IVBool (negb (b2z x =? 0)), 2%nat) | [] => None end
      else if (b2z t =? 0x02) && (9 <=? length data)%nat then
        Some (IVInt (as_i64 (flip_sign (of_be (take 8 rest)))), 9%nat)
      else if (b2z t =? 0x03) && (9 <=? length data)%nat then
        Some (IVFloat (decode_float (of_be (take 8 rest))), 9%nat)
      else if (b2z t =? 0x04) && (2 <=? length data)%nat then
        match rest with
        | l :: s =>
            let len := Z.to_nat (b2z l) in
            if (2 + len <=? length data)%nat then Some (IVString (utf8_lossy (take len s)), (2 + len)%nat) else None
        | [] => None
        end
      else None
  end.

Definition encode_all (vs : list IndexValue) : bytes := concat (encode <$> vs).

End IndexValue.

Module KeyUtils.

Definition vertex_key (part_id vid tag_id : Z) : bytes :=
  be_bytes 4 part_id ++ i64_to_be vid ++ [key_type_byte KeyVertex] ++ be_bytes 4 tag_id.

Definition edge_key (part_id src_vid edge_type rank dst_vid : Z) : bytes :=
  be_bytes 4 part_id ++ i64_to_be src_vid ++ [key_type_byte KeyEdge] ++ be_bytes 4 edge_type ++
  i64_to_be rank ++ i64_to_be dst_vid.

Definition system_key (suffix : bytes) : bytes := [key_type_byte KeySystem] ++ suffix.

Definition tag_index_prefix (part_id index_id : Z) : bytes :=
  be_bytes 4 part_id ++ [key_type_byte KeyTagIndex] ++ be_bytes 4 index_id.

Definition tag_index_key (part_id index_id : Z) (prop_values : list IndexValue) (vid : Z) : bytes :=
  (be_bytes 4 part_id ++ [key_type_byte KeyTagIndex] ++ be_bytes 4 index_id) ++
  IndexValue.encode_all prop_values ++ i64_to_be vid.

Definition tag_index_prefix_with_values (part_id index_id : Z) (prop_values : list IndexValue) : bytes :=
  tag_index_prefix part_id index_id ++ IndexValue.encode_all prop_values.

Definition edge_index_prefix (part_id index_id : Z) : bytes :=
  be_bytes 4 part_id ++ [key_type_byte KeyEdgeIndex] ++ be_bytes 4 index_id.

Definition edge_index_key (part_id index_id : Z) (prop_values : list IndexValue) (src_vid rank dst_vid : Z) : bytes :=
  (be_bytes 4 part_id ++ [key_type_byte KeyEdgeIndex] ++ be_bytes 4 index_id) ++
  IndexValue.encode_all prop_values ++ i64_to_be src_vid ++ i64_to_be rank ++ i64_to_be dst_vid.

Definition edge_index_prefix_with_values (part_id index_id : Z) (prop_values : list IndexValue) : bytes :=
  edge_index_prefix part_id index_id ++ IndexValue.encode_all prop_values.

Definition parse_tag_index_vid (key : bytes) : option Z :=
  if (length key <? 17)%nat then None else Some (i64_of_be (drop (length key - 8) key)).

Definition parse_edge_index_edge (key : bytes) : option (Z * Z * Z) :=
  if (length key <? 33)%nat then None else
  let edge := drop (length key - 24) key in
  Some (i64_of_be (take 8 edge), i64_of_be (take 8 (drop 8 edge)), i64_of_be (take 8 (drop 16 edge))).

End KeyUtils.

(** ** Index values *)

Definition index_ok (v : IndexValue) : Prop :=
  match v with IVInt i => i64_ok i | IVFloat b => u64_ok b | _ => True end.

Lemma sign_bit_spec b : u64_ok b -> sign_bit b = (two63 <=? b).
Proof.
  intros Hb. unfold sign_bit. pose proof (flip_sign_spec b Hb) as Hf. unfold flip_sign in Hf.
  assert (Hand : b + two63 = Z.lxor b two63 + 2 * Z.land b two63).
  { symmetry. apply Z.add_lxor_2land. }
  rewrite Hf in Hand. destruct (Z.ltb_spec b two63); destruct (Z.leb_spec two63 b); try lia;
    destruct (Z.eqb_spec (Z.land b two63) 0) as [E|E]; try done; unfold two63 in *; lia.
Qed.

Lemma encode_float_spec b : u64_ok b -> encode_float b = if b <? two63 then b + two63 else two64 - 1 - b.
Proof.
  intros Hb. unfold encode_float. rewrite sign_bit_spec, u64_not_spec, flip_sign_spec by done.
  destruct (Z.ltb_spec b two63), (Z.leb_spec two63 b); lia.
Qed.

Lemma encode_float_ok b : u64_ok b -> u64_ok (encode_float b).
Proof.
  intros Hb. rewrite encode_float_spec by done. unfold u64_ok, two64, two63 in *.
  destruct (Z.ltb_spec b (2 ^ 63)); lia.
Qed.

Lemma decode_encode_float b : u64_ok b -> decode_float (encode_float b) = b.
Proof.
  intros Hb. pose proof (encode_float_ok b Hb) as He. unfold decode_float.
  rewrite sign_bit_spec, u64_not_spec, flip_sign_spec by done. rewrite encode_float_spec by done.
  unfold u64_ok, two64, two63 in *.
  destruct (Z.ltb_spec b (2 ^ 63)); destruct (Z.leb_spec (2 ^ 63) (b + 2 ^ 63)), (Z.leb_spec (2 ^ 63) (2 ^ 64 - 1 - b));
    destruct (Z.ltb_spec (b + 2 ^ 63) (2 ^ 63)), (Z.ltb_spec (2 ^ 64 - 1 - b) (2 ^ 63)); lia.
Qed.

(** The biased integer of the integer encoding. *)
Lemma flip_sign_i64 i : i64_ok i -> flip_sign (as_u64 i) = i + two63.
Proof.
  intros Hi. rewrite flip_sign_spec by apply as_u64_ok. unfold as_u64, i64_ok, two64, two63 in *.
  destruct (Z.ltb_spec i 0).
  - replace (i mod 2 ^ 64) with (i + 2 ^ 64) by (apply Z.mod_unique with (-1); lia).
    destruct (Z.ltb_spec (i + 2 ^ 64) (2 ^ 63)); lia.
  - rewrite Z.mod_small by lia. destruct (Z.ltb_spec i (2 ^ 63)); lia.
Qed.

Lemma flip_sign_i64_ok i : i64_ok i -> u64_ok (flip_sign (as_u64 i)).
Proof. intros Hi. rewrite flip_sign_i64 by done. unfold i64_ok, u64_ok, two64, two63 in *. lia. Qed.

Lemma decode_flip_sign i : i64_ok i -> as_i64 (flip_sign (flip_sign (as_u64 i))) = i.
Proof.
  intros Hi. unfold flip_sign. rewrite Z.lxor_assoc, Z.lxor_nilpotent, Z.lxor_0_r. by apply as_i64_as_u64.
Qed.

Lemma encode_length v : length (IndexValue.encode v) = IndexValue.encoded_len v.
Proof.
  destruct v; cbn [IndexValue.encode IndexValue.encoded_len length]; rewrite ?length_be_bytes; try done.
  cbv zeta. cbn [length]. rewrite length_take. lia.
Qed.

(** What decoding makes of a value: text is cut after 255 bytes, and a character
    the cut breaks becomes a replacement character. *)
Definition canonical (v : IndexValue) : IndexValue :=
  match v with IVString s => IVString (utf8_lossy (take 255 s)) | _ => v end.

Lemma take_min_length {A} n (l : list A) : take (Nat.min (length l) n) l = take n l.
Proof.
  destruct (Nat.min_spec (length l) n) as [[Hlt ->]|[_ ->]]; [|done]. rewrite !take_ge; [done|lia|lia].
Qed.

Lemma index_value_decode_encode v rest :
  index_ok v -> IndexValue.decode (IndexValue.encode v ++ rest) = Some (canonical v, IndexValue.encoded_len v).
Proof.
  intros Hv. destruct v as [|b|i|b|s]; simpl in Hv.
  - reflexivity.
  - by destruct b.
  - unfold IndexValue.decode, IndexValue.encode. cbn [app].
    rewrite length_cons, length_app, length_be_bytes. cbn [Nat.add Nat.leb].
    rewrite take_app_exact by by rewrite length_be_bytes.
    rewrite (of_be_be_bytes_small 8 _ (flip_sign_i64_ok i Hv)), decode_flip_sign by done. reflexivity.
  - unfold IndexValue.decode, IndexValue.encode. cbn [app].
    rewrite length_cons, length_app, length_be_bytes. cbn [Nat.add Nat.leb].
    rewrite take_app_exact by by rewrite length_be_bytes.
    rewrite (of_be_be_bytes_small 8 _ (encode_float_ok b Hv)), decode_encode_float by done. reflexivity.
  - unfold IndexValue.decode, IndexValue.encode, IndexValue.encoded_len, canonical. cbv zeta. cbn [app].
    set (len := Nat.min (length s) 255). assert (Hlen : (len <= 255)%nat) by (unfold len; lia).
    rewrite b2z_z2b_small by (compute; split; discriminate || reflexivity).
    rewrite (b2z_z2b_small (Z.of_nat len)) by lia. rewrite Nat2Z.id. cbn [length].
    rewrite take_app_exact by (rewrite length_take; lia). rewrite length_app, length_take.
    replace (Nat.min len (length s)) with len by (unfold len; lia).
    rewrite (proj2 (Nat.leb_le (2 + len) _)) by lia.
    replace (take len s) with (take 255 s) by (symmetry; apply take_min_length). reflexivity.
Qed.

(** [f64::total_cmp] compares these integers. *)
Definition total_key (bits : Z) : Z := if bits <? two63 then bits else two63 - 1 - bits.

Definition marker (v : IndexValue) : Z :=
  match v with IVNull => 0 | IVBool _ => 1 | IVInt _ => 2 | IVFloat _ => 3 | IVString _ => 4 end.

Definition bool_cmp (a b : bool) : comparison :=
  match a, b with false, true => Lt | true, false => Gt | _, _ => Eq end.

(** The order of encoded values: by type, and within a type by value, except that
    text is ordered by its length, up to 255 bytes, before its bytes. *)
Definition index_cmp (a b : IndexValue) : comparison :=
  match a, b with
  | IVBool x, IVBool y => bool_cmp x y
  | IVInt x, IVInt y => x ?= y
  | IVFloat x, IVFloat y => total_key x ?= total_key y
  | IVString x, IVString y =>
      match (Nat.min (length x) 255 ?= Nat.min (length y) 255)%nat with
      | Eq => bytes_cmp (take 255 x) (take 255 y)
      | c => c
      end
  | _, _ => marker a ?= marker b
  end.

Lemma bytes_cmp_cons x y a b :
  bytes_cmp (x :: a) (y :: b) = match b2z x ?= b2z y with Eq => bytes_cmp a b | c => c end.
Proof. done. Qed.

Lemma encode_marker v : exists l, IndexValue.encode v = z2b (marker v) :: l.
Proof. destruct v; by eexists. Qed.

Lemma bytes_cmp_be_app n x y r1 r2 :
  0 <= x < 256 ^ Z.of_nat n -> 0 <= y < 256 ^ Z.of_nat n ->
  bytes_cmp (be_bytes n x ++ r1) (be_bytes n y ++ r2) = match x ?= y with Eq => bytes_cmp r1 r2 | c => c end.
Proof.
  intros Hx Hy. rewrite bytes_cmp_app by by rewrite !length_be_bytes. by rewrite bytes_cmp_be_bytes.
Qed.

Lemma encode_float_cmp x y : u64_ok x -> u64_ok y -> (encode_float x ?= encode_float y) = (total_key x ?= total_key y).
Proof.
  intros Hx Hy. rewrite !encode_float_spec by done. unfold total_key, u64_ok, two64, two63 in *.
  destruct (Z.ltb_spec x (2 ^ 63)), (Z.ltb_spec y (2 ^ 63)).
  - by rewrite !(Z.add_comm _ (2 ^ 63)), Z.add_compare_mono_l.
  - rewrite (proj2 (Z.compare_gt_iff _ _)), (proj2 (Z.compare_gt_iff _ _)) by lia. done.
  - rewrite (proj2 (Z.compare_lt_iff _ _)), (proj2 (Z.compare_lt_iff _ _)) by lia. done.
  - destruct (Z.compare_spec (2 ^ 64 - 1 - x) (2 ^ 64 - 1 - y)) as [?|?|?]; symmetry;
      [apply Z.compare_eq_iff|apply Z.compare_lt_iff|apply Z.compare_gt_iff]; lia.
Qed.

(** Encoded values are compared as the values, and what follows decides ties: no
    encoding is a proper prefix of another. *)
Lemma encode_cmp a b r1 r2 :
  index_ok a -> index_ok b ->
  bytes_cmp (IndexValue.encode a ++ r1) (IndexValue.encode b ++ r2) =
    match index_cmp a b with Eq => bytes_cmp r1 r2 | c => c end.
Proof.
  intros Ha Hb. destruct (decide (marker a = marker b)) as [Hm|Hm].
  - destruct a as [|x|x|x|x], b as [|y|y|y|y]; try discriminate Hm; simpl in Ha, Hb.
    + reflexivity.
    + by destruct x, y.
    + cbn [IndexValue.encode app]. rewrite bytes_cmp_cons, Z.compare_refl.
      rewrite (bytes_cmp_be_app 8 _ _ _ _ (flip_sign_i64_ok x Ha) (flip_sign_i64_ok y Hb)).
      rewrite !flip_sign_i64, !(Z.add_comm _ two63), Z.add_compare_mono_l by done. done.
    + cbn [IndexValue.encode app]. rewrite bytes_cmp_cons, Z.compare_refl.
      rewrite (bytes_cmp_be_app 8 _ _ _ _ (encode_float_ok x Ha) (encode_float_ok y Hb)).
      by rewrite encode_float_cmp.
    + cbn [IndexValue.encode]. cbv zeta. cbn [app]. rewrite bytes_cmp_cons, Z.compare_refl, bytes_cmp_cons.
      rewrite !b2z_z2b_small by lia. rewrite Nat2Z.inj_compare. cbn [index_cmp].
      destruct (Nat.compare_spec (Nat.min (length x) 255) (Nat.min (length y) 255)) as [E|E|E]; [|done..].
      rewrite bytes_cmp_app by (rewrite !length_take; lia). by rewrite !take_min_length.
  - destruct (encode_marker a) as [la ->], (encode_marker b) as [lb ->]. cbn [app]. rewrite bytes_cmp_cons.
    rewrite !b2z_z2b_small by (destruct a, b; simpl; lia).
    replace (index_cmp a b) with (marker a ?= marker b) by (destruct a, b; done).
    destruct (Z.compare_spec (marker a) (marker b)); done.
Qed.

(** ** Index keys *)

Fixpoint values_cmp (vs ws : list IndexValue) : comparison :=
  match vs, ws with
  | v :: vs, w :: ws => match index_cmp v w with Eq => values_cmp vs ws | c => c end
  | [], [] => Eq
  | [], _ => Lt
  | _, [] => Gt
  end.

Lemma encode_all_cmp vs ws r1 r2 :
  length vs = length ws -> Forall index_ok vs -> Forall index_ok ws ->
  bytes_cmp (IndexValue.encode_all vs ++ r1) (IndexValue.encode_all ws ++ r2) =
    match values_cmp vs ws with Eq => bytes_cmp r1 r2 | c => c end.
Proof.
  unfold IndexValue.encode_all. revert ws. induction vs as [|v vs IH]; intros [|w ws]; try done.
  intros [= Hlen] [Hv Hvs]%Forall_cons [Hw Hws]%Forall_cons. cbn [fmap list_fmap concat values_cmp].
  rewrite <- !(assoc_L (++)), encode_cmp by done. destruct (index_cmp v w); [|done..]. by apply IH.
Qed.

(** The entries of a tag index are sorted by their property values, field by
    field in the order [index_cmp] (integers and floats by value, text by length
    before content), and then by vertex id, non-negative ids first; and the vertex
    id and every value are read back from the key, text up to 255 bytes. *)
Theorem index_key_order part id vs ws vid wid :
  length vs = length ws -> Forall index_ok vs -> Forall index_ok ws -> i64_ok vid -> i64_ok wid ->
  bytes_cmp (KeyUtils.tag_index_key part id vs vid) (KeyUtils.tag_index_key part id ws wid) =
    match values_cmp vs ws with Eq => as_u64 vid ?= as_u64 wid | c => c end /\
  KeyUtils.parse_tag_index_vid (KeyUtils.tag_index_key part id vs vid) = Some vid /\
  (forall v vs', vs = v :: vs' ->
     IndexValue.decode (drop 9 (KeyUtils.tag_index_key part id vs vid)) = Some (canonical v, IndexValue.encoded_len v)).
Proof.
  intros Hlen Hvs Hws Hv Hw. unfold KeyUtils.tag_index_key.
  set (h := be_bytes 4 part ++ [key_type_byte KeyTagIndex] ++ be_bytes 4 id).
  assert (Hh : length h = 9%nat) by (unfold h; rewrite !length_app, !length_be_bytes; reflexivity).
  assert (Ht : length (i64_to_be vid) = 8%nat) by apply length_be_bytes. repeat split.
  - rewrite bytes_cmp_app_l, encode_all_cmp by done. destruct (values_cmp vs ws); [|done..].
    apply (bytes_cmp_be_bytes 8); apply as_u64_ok.
  - unfold KeyUtils.parse_tag_index_vid. rewrite (proj2 (Nat.ltb_ge _ _)) by (rewrite !length_app; lia).
    rewrite app_assoc, drop_app_exact by (rewrite (length_app _ (i64_to_be vid)); lia).
    by rewrite i64_be_roundtrip.
  - intros v vs' ->. rewrite drop_app_exact by done. cbn [IndexValue.encode_all fmap list_fmap concat].
    unfold IndexValue.encode_all. cbn [fmap list_fmap concat]. rewrite <- (assoc_L (++)).
    apply index_value_decode_encode. by apply Forall_cons in Hvs as [? _].
Qed.

Lemma index_key_order_witness :
  bytes_cmp (KeyUtils.tag_index_key 1 2 [IVInt 5; IVString (bs "b")] (-1))
            (KeyUtils.tag_index_key 1 2 [IVInt 5; IVString (bs "aa")] 7) = Lt.
Proof.
  refine (proj1 (index_key_order 1 2 [IVInt 5; IVString (bs "b")] [IVInt 5; IVString (bs "aa")] (-1) 7 _ _ _ _ _));
    [reflexivity|by repeat (apply Forall_cons_2; [by vm_compute|])|by repeat (apply Forall_cons_2; [by vm_compute|])
    |by vm_compute|by vm_compute].
Defined.
