(* ===== verification/IndexManager.v ===== *)
(** * Secondary indexes

    [byoridb-storage/src/index.rs]: the definitions of tag and edge indexes, kept
    in memory and persisted in the key-value store, and the index entries, which
    are keys without values. A call takes the manager and the store and returns
    both; the manager's locks are taken one call at a time. JSON is a parameter. *)

From Stdlib Require Import ZArith Lia Strings.Byte Strings.String.
From stdpp Require Import base tactics list gmap.
From S2P Require Import Prelude OrdMap History KVStore Text StorageKey.

Definition INDEX_DEF_PREFIX : bytes := bs "__meta:index_def:".

Definition index_def_key (space_id index_id : Z) : bytes :=
  INDEX_DEF_PREFIX ++ dec space_id ++ bs ":" ++ dec index_id.

Inductive IndexType := IndexTag | IndexEdge.
#[export] Instance index_type_eq_dec : EqDecision IndexType.
Proof. solve_decision. Defined.

Record IndexDef := {
  idx_id : Z;
  idx_space_id : Z;
  index_name : bytes;
  index_type : IndexType;
  schema_id : Z;
  schema_name : bytes;
  fields : list bytes;
  field_indices : list nat
}.

Record ScanOptions := {
  limit : nat;
  start_values : option (list IndexValue);
  end_values : option (list IndexValue);
  include_start : bool;
  include_end : bool
}.

Inductive RangeOperator := GreaterThan | GreaterThanOrEqual | LessThan | LessThanOrEqual.

Inductive IndexError :=
| IndexAlreadyExists (name : bytes)
| IndexNotFound (name : bytes)
| FieldNotFound (name : bytes)
| IndexStorage (msg : bytes)
| InvalidValue (msg : bytes).

(** The loop from the last byte back: the last byte below 255 is incremented and
    what follows it cut. *)
Fixpoint prefix_successor (prefix : bytes) : option bytes :=
  match prefix with
  | [] => None
  | b :: rest =>
      match prefix_successor rest with
      | Some end_ => Some (b :: end_)
      | None => if b2z b =? 255 then None else Some [z2b (b2z b + 1)]
      end
  end.

Record LookupCursor := {
  cur_version : Z;
  cur_space_id : Z;
  cur_index_name : bytes;
  cur_schema_name : bytes;
  cur_fields : list bytes;
  cur_prefix : bytes;
  last_key : bytes
}.

(** Both records are countable, so that they can be serialised. *)
#[export] Instance index_type_countable : Countable IndexType.
Proof.
  apply (inj_countable' (fun t => match t with IndexTag => true | IndexEdge => false end)
    (fun b : bool => if b then IndexTag else IndexEdge)). by intros [].
Defined.
#[export] Instance index_def_eq_dec : EqDecision IndexDef.
Proof. solve_decision. Defined.
#[export] Instance index_def_countable : Countable IndexDef.
Proof.
  apply (inj_countable' (fun d => (idx_id d, idx_space_id d, index_name d, index_type d, schema_id d, schema_name d, fields d, field_indices d))
    (fun '(a, b, c, d, e, f, g, h) => Build_IndexDef a b c d e f g h)). by intros [].
Defined.
#[export] Instance cursor_eq_dec : EqDecision LookupCursor.
Proof. solve_decision. Defined.
#[export] Instance cursor_countable : Countable LookupCursor.
Proof.
  apply (inj_countable' (fun c => (cur_version c, cur_space_id c, cur_index_name c, cur_schema_name c, cur_fields c, cur_prefix c, last_key c))
    (fun '(a, b, c, d, e, f, g) => Build_LookupCursor a b c d e f g)). by intros [].
Defined.

Record IndexManager := mkManager {
  indexes : gmap (Z * Z) IndexDef;
  index_names : gmap (Z * bytes) Z;
  next_index_id : Z;
  loaded : bool
}.

Definition manager_new : IndexManager := mkManager ∅ ∅ 1 false.

Section index.
Context {S : Type} `{KVStoreRequired S} `{KVStoreProvided S} `{SerdeJson IndexDef} `{SerdeJson LookupCursor}.

(** A call on the manager and its store. *)
Abbreviation IX A := (IndexManager * S -> Result IndexError A * (IndexManager * S)).

(** [.await.map_err(|e| IndexError::Storage(e.to_string()))] *)
Definition index_store {A} (c : KVOp S A) : IX A :=
  fun '(m, s) => match c s with
                 | (Ok a, s') => (Ok a, (m, s'))
                 | (Err e, s') => (Err (IndexStorage (bs (KVStoreError_to_string e))), (m, s'))
                 end.
Definition get_manager : IX IndexManager := fun '(m, s) => (Ok m, (m, s)).
Definition set_manager (m : IndexManager) : IX unit := fun '(_, s) => (Ok tt, (m, s)).

(** ** Definitions *)

(** One persisted row of the load; a corrupt definition is skipped. The state is
    the two maps, the largest identifier and the number of definitions. *)
Definition load_row (acc : gmap (Z * Z) IndexDef * gmap (Z * bytes) Z * Z * nat) (kv : kv_pair) :=
  let '(ixs, names, max_id, n) := acc in
  match json_from_slice kv.2 with
  | Err _ => acc
  | Ok def =>
      (<[(idx_space_id def, idx_id def) := def]> ixs,
       <[(idx_space_id def, index_name def) := idx_id def]> names,
       Z.max max_id (idx_id def), Datatypes.S n)
  end.

Definition ensure_loaded : IX unit :=
  m <-! get_manager ;;
  if loaded m then st_ret tt else
  entries <-! index_store (kv_scan_prefix INDEX_DEF_PREFIX) ;;
  let '(ixs, names, max_id, n) := foldl load_row (indexes m, index_names m, 0, 0%nat) entries in
  let next := if (0 <? n)%nat then Z.max (next_index_id m) (as_u32 (max_id + 1)) else next_index_id m in
  set_manager (mkManager ixs names next true).

Definition ensure_loaded_or_log : IX unit :=
  fun st => match ensure_loaded st with (Ok _, st') => (Ok tt, st') | (Err _, st') => (Ok tt, st') end.

Definition persist_def (def : IndexDef) : IX unit :=
  match json_to_vec def with
  | Err m => st_fail (IndexStorage (bs m))
  | Ok value => index_store (kv_put (index_def_key (idx_space_id def) (idx_id def)) value)
  end.

Definition delete_persisted_def (space_id index_id : Z) : IX unit :=
  index_store (kv_delete (index_def_key space_id index_id)).

(** The two halves of creating an index: the check under the read lock of the
    names, and everything after it. *)
Definition check_name_free (space_id : Z) (name : bytes) : IX unit :=
  m <-! get_manager ;;
  match index_names m !! (space_id, name) with
  | Some _ => st_fail (IndexAlreadyExists name)
  | None => st_ret tt
  end.

Definition register_index (ty : IndexType) (space_id : Z) (name : bytes) (schema : Z) (sname : bytes)
    (fs : list bytes) (fis : list nat) : IX Z :=
  m <-! get_manager ;;
  let id := next_index_id m in
  set_manager (mkManager (indexes m) (index_names m) (as_u32 (id + 1)) (loaded m)) ;;!
  let def := {| idx_id := id; idx_space_id := space_id; index_name := name; index_type := ty;
                schema_id := schema; schema_name := sname; fields := fs; field_indices := fis |} in
  persist_def def ;;!
  m <-! get_manager ;;
  set_manager (mkManager (<[(space_id, id) := def]> (indexes m)) (<[(space_id, name) := id]> (index_names m))
    (next_index_id m) (loaded m)) ;;!
  st_ret id.

Definition create_index (ty : IndexType) (space_id : Z) (name : bytes) (schema : Z) (sname : bytes)
    (fs : list bytes) (fis : list nat) : IX Z :=
  ensure_loaded ;;!
  check_name_free space_id name ;;!
  register_index ty space_id name schema sname fs fis.

Definition create_tag_index := create_index IndexTag.
Definition create_edge_index := create_index IndexEdge.

Definition get_index (space_id : Z) (name : bytes) : IX (option IndexDef) :=
  ensure_loaded_or_log ;;!
  m <-! get_manager ;;
  st_ret (id ← index_names m !! (space_id, name); indexes m !! (space_id, id)).

Definition get_index_by_id (space_id index_id : Z) : IX (option IndexDef) :=
  ensure_loaded_or_log ;;!
  m <-! get_manager ;;
  st_ret (indexes m !! (space_id, index_id)).

(** The definitions that satisfy a test; the order of a hash map's values is unspecified. *)
Definition definitions (f : IndexDef -> bool) (m : IndexManager) : list IndexDef :=
  List.filter f (map_to_list (indexes m)).*2.

Definition list_indexes (space_id : Z) : IX (list IndexDef) :=
  ensure_loaded_or_log ;;! m <-! get_manager ;;
  st_ret (definitions (fun d => idx_space_id d =? space_id) m).
Definition list_tag_indexes (space_id : Z) : IX (list IndexDef) :=
  ensure_loaded_or_log ;;! m <-! get_manager ;;
  st_ret (definitions (fun d => (idx_space_id d =? space_id) && bool_decide (index_type d = IndexTag)) m).
Definition list_edge_indexes (space_id : Z) : IX (list IndexDef) :=
  ensure_loaded_or_log ;;! m <-! get_manager ;;
  st_ret (definitions (fun d => (idx_space_id d =? space_id) && bool_decide (index_type d = IndexEdge)) m).

(** These two read the maps without loading the persisted definitions. *)
Definition get_indexes_for_tag (space_id tag_id : Z) : IX (list IndexDef) :=
  m <-! get_manager ;;
  st_ret (definitions (fun d => (idx_space_id d =? space_id) && bool_decide (index_type d = IndexTag) &&
                                (schema_id d =? tag_id)) m).
Definition get_indexes_for_edge (space_id edge_type : Z) : IX (list IndexDef) :=
  m <-! get_manager ;;
  st_ret (definitions (fun d => (idx_space_id d =? space_id) && bool_decide (index_type d = IndexEdge) &&
                                (schema_id d =? edge_type)) m).

Definition forget (space_id : Z) (name : bytes) (id : Z) : IX unit :=
  m <-! get_manager ;;
  set_manager (mkManager (delete (space_id, id) (indexes m)) (delete (space_id, name) (index_names m))
    (next_index_id m) (loaded m)).

Definition drop_index (space_id : Z) (name : bytes) : IX unit :=
  d <-! get_index space_id name ;;
  match d with
  | None => st_fail (IndexNotFound name)
  | Some def =>
      delete_persisted_def space_id (idx_id def) ;;!
      forget space_id name (idx_id def)
  end.

(** ** Entries *)

Definition index_prefix (ty : IndexType) (part_id index_id : Z) : bytes :=
  match ty with
  | IndexTag => KeyUtils.tag_index_prefix part_id index_id
  | IndexEdge => KeyUtils.edge_index_prefix part_id index_id
  end.

Fixpoint delete_all_index_entries (def : IndexDef) (partition_ids : list Z) (total : nat) : IX nat :=
  match partition_ids with
  | [] => st_ret total
  | part_id :: rest =>
      entries <-! index_store (kv_scan_prefix (index_prefix (index_type def) part_id (idx_id def))) ;;
      st_for_each (fun kv : kv_pair => index_store (kv_delete kv.1)) entries ;;!
      delete_all_index_entries def rest (total + length entries)
  end.

Definition drop_index_with_data (space_id : Z) (name : bytes) (partition_ids : list Z) : IX unit :=
  d <-! get_index space_id name ;;
  match d with
  | None => st_fail (IndexNotFound name)
  | Some def =>
      delete_all_index_entries def partition_ids 0 ;;!
      delete_persisted_def space_id (idx_id def) ;;!
      forget space_id name (idx_id def)
  end.

Definition insert_tag_index (part_id index_id : Z) (vs : list IndexValue) (vid : Z) : IX unit :=
  index_store (kv_put (KeyUtils.tag_index_key part_id index_id vs vid) []).
Definition delete_tag_index (part_id index_id : Z) (vs : list IndexValue) (vid : Z) : IX unit :=
  index_store (kv_delete (KeyUtils.tag_index_key part_id index_id vs vid)).
Definition insert_edge_index (part_id index_id : Z) (vs : list IndexValue) (src rank dst : Z) : IX unit :=
  index_store (kv_put (KeyUtils.edge_index_key part_id index_id vs src rank dst) []).
Definition delete_edge_index (part_id index_id : Z) (vs : list IndexValue) (src rank dst : Z) : IX unit :=
  index_store (kv_delete (KeyUtils.edge_index_key part_id index_id vs src rank dst)).

(** ** Scans *)

Definition malformed_msg (kind : string) (def : IndexDef) (part_id : Z) : IndexError :=
  IndexStorage (bs "malformed " ++ bs kind ++ bs "-index key for index '" ++ index_name def ++
                bs "' in partition " ++ dec part_id).

(** The bytes left after decoding one value per field. *)
Fixpoint decode_fields (fs : list bytes) (values : bytes) : option bytes :=
  match fs with
  | [] => Some values
  | _ :: fs' =>
      match IndexValue.decode values with
      | Some (_, consumed) => decode_fields fs' (drop consumed values)
      | None => None
      end
  end.

(** The key is a header, one value per field and a trailer of [tail] bytes. *)
Definition layout_ok (header_len tail : nat) (fs : list bytes) (key : bytes) : bool :=
  (tail <=? length key)%nat && (header_len <=? length key - tail)%nat &&
  bool_decide (decode_fields fs (drop header_len (take (length key - tail) key)) = Some []).

Definition group_count (counts : gmap bytes (IndexValue * Z)) (values : bytes) (v : IndexValue)
    : gmap bytes (IndexValue * Z) :=
  match counts !! values with
  | Some (v0, n) => <[values := (v0, n + 1)]> counts
  | None => <[values := (v, 1)]> counts
  end.

Fixpoint group_rows (part_id : Z) (def : IndexDef) (prefix : bytes) (keys : list bytes)
    (counts : gmap bytes (IndexValue * Z)) : Result IndexError (gmap bytes (IndexValue * Z)) :=
  match keys with
  | [] => Ok counts
  | key :: keys' =>
      let malformed := malformed_msg "tag" def part_id in
      if starts_with prefix key then
        let payload := drop (length prefix) key in
        if (length payload <? 8)%nat then Err malformed else
        let value_len := (length payload - 8)%nat in
        let values := take value_len payload in
        match IndexValue.decode values with
        | None => Err malformed
        | Some (v, consumed) =>
            if (consumed =? value_len)%nat then group_rows part_id def prefix keys' (group_count counts values v)
            else Err malformed
        end
      else Err malformed
  end.

Definition tag_index_group_counts (part_id : Z) (def : IndexDef) : IX (list (IndexValue * Z)) :=
  if negb (length (fields def) =? 1)%nat
  then st_fail (IndexStorage (bs "group-count optimization requires a single-field index")) else
  let prefix := KeyUtils.tag_index_prefix part_id (idx_id def) in
  entries <-! index_store (kv_scan_prefix prefix) ;;
  match group_rows part_id def prefix entries.*1 ∅ with
  | Ok counts => st_ret (map_to_list counts).*2
  | Err e => st_fail e
  end.

(** The raw rows of a scan: those under the prefix, or those between the bounds. *)
Definition scan_index_rows (ty : IndexType) (part_id : Z) (def : IndexDef) (prefix_values : list IndexValue)
    (options : ScanOptions) : IX (list kv_pair) :=
  let with_values vs := index_prefix ty part_id (idx_id def) ++ IndexValue.encode_all vs in
  let prefix := with_values prefix_values in
  let lim := if (0 <? limit options)%nat then Some (limit options) else None in
  match start_values options, end_values options with
  | None, None => index_store (kv_scan_prefix_limited prefix lim)
  | _, _ =>
      match prefix_successor prefix with
      | None => st_fail (InvalidValue (bs "index prefix has no upper bound"))
      | Some prefix_end =>
          let start := match start_values options with
            | Some vs =>
                let boundary := with_values (prefix_values ++ vs) in
                if include_start options then boundary else default prefix_end (prefix_successor boundary)
            | None => prefix
            end in
          let stop := match end_values options with
            | Some vs =>
                let boundary := with_values (prefix_values ++ vs) in
                if include_end options then default prefix_end (prefix_successor boundary) else boundary
            | None => prefix_end
            end in
          index_store (kv_scan_range start stop lim)
      end
  end.

(** [.map(f).collect::<Result<_, _>>()] *)
Fixpoint collect {A B E} (f : A -> Result E B) (l : list A) : Result E (list B) :=
  match l with
  | [] => Ok []
  | x :: l' => let? y := f x in let? ys := collect f l' in Ok (y :: ys)
  end.

Definition truncate {A} (lim : nat) (l : list A) : list A := if (0 <? lim)%nat then take lim l else l.

Definition tag_result (part_id : Z) (def : IndexDef) (key : bytes) : Result IndexError Z :=
  let header_len := length (KeyUtils.tag_index_prefix part_id (idx_id def)) in
  if layout_ok header_len 8 (fields def) key then
    match KeyUtils.parse_tag_index_vid key with Some vid => Ok vid | None => Err (malformed_msg "tag" def part_id) end
  else Err (malformed_msg "tag" def part_id).

Definition scan_tag_index (part_id : Z) (def : IndexDef) (prefix_values : list IndexValue)
    (options : ScanOptions) : IX (list Z) :=
  entries <-! scan_index_rows IndexTag part_id def prefix_values options ;;
  match collect (fun kv : kv_pair => tag_result part_id def kv.1) entries with
  | Ok vids => st_ret (truncate (limit options) vids)
  | Err e => st_fail e
  end.

Definition edge_result (part_id : Z) (def : IndexDef) (key : bytes) : Result IndexError (Z * Z * Z) :=
  let header_len := length (KeyUtils.edge_index_prefix part_id (idx_id def)) in
  if layout_ok header_len 24 (fields def) key then
    match KeyUtils.parse_edge_index_edge key with Some e => Ok e | None => Err (malformed_msg "edge" def part_id) end
  else Err (malformed_msg "edge" def part_id).

Definition scan_edge_index (part_id : Z) (def : IndexDef) (prefix_values : list IndexValue)
    (options : ScanOptions) : IX (list (Z * Z * Z)) :=
  entries <-! scan_index_rows IndexEdge part_id def prefix_values options ;;
  match collect (fun kv : kv_pair => edge_result part_id def kv.1) entries with
  | Ok edges => st_ret (truncate (limit options) edges)
  | Err e => st_fail e
  end.

(** ** Range lookups *)

Definition NEG_INFINITY : Z := 0xFFF0000000000000.
Definition INFINITY : Z := 0x7FF0000000000000.
Definition magnitude (bits : Z) : Z := Z.land bits (two63 - 1).
Definition is_nan (bits : Z) : bool := INFINITY <? magnitude bits.
Definition is_zero (bits : Z) : bool := magnitude bits =? 0.

(** The least and the greatest value of the type of a boundary; [None] when the
    boundary has no order. *)
Definition type_bounds (v : IndexValue) : option (IndexValue * IndexValue) :=
  match v with
  | IVNull | IVString _ => None
  | IVFloat bits => if is_nan bits || is_zero bits then None
                    else Some (IVFloat NEG_INFINITY, IVFloat INFINITY)
  | IVBool _ => Some (IVBool false, IVBool true)
  | IVInt _ => Some (IVInt I64_MIN, IVInt I64_MAX)
  end.

Definition range_options (type_min type_max v : IndexValue) (op : RangeOperator) (lim : nat) : ScanOptions :=
  match op with
  | GreaterThan => {| limit := lim; start_values := Some [v]; end_values := Some [type_max];
                      include_start := false; include_end := true |}
  | GreaterThanOrEqual => {| limit := lim; start_values := Some [v]; end_values := Some [type_max];
                             include_start := true; include_end := true |}
  | LessThan => {| limit := lim; start_values := Some [type_min]; end_values := Some [v];
                   include_start := true; include_end := false |}
  | LessThanOrEqual => {| limit := lim; start_values := Some [type_min]; end_values := Some [v];
                          include_start := true; include_end := true |}
  end.

Definition range_checked {A} (def : IndexDef) (v : IndexValue) (op : RangeOperator) (lim : nat)
    (scan : ScanOptions -> IX A) : IX A :=
  if negb (length (fields def) =? 1)%nat
  then st_fail (InvalidValue (bs "range lookup requires a single-field index")) else
  match type_bounds v with
  | None => st_fail (InvalidValue
      (bs "ordered range lookup requires bool, int, or a non-zero non-NaN float boundary"))
  | Some (type_min, type_max) => scan (range_options type_min type_max v op lim)
  end.

Definition lookup_tag_range (part_id : Z) (def : IndexDef) (v : IndexValue) (op : RangeOperator) (lim : nat)
    : IX (list Z) := range_checked def v op lim (scan_tag_index part_id def []).
Definition lookup_edge_range (part_id : Z) (def : IndexDef) (v : IndexValue) (op : RangeOperator) (lim : nat)
    : IX (list (Z * Z * Z)) := range_checked def v op lim (scan_edge_index part_id def []).

(** [ScanOptions { limit, ..Default::default() }] *)
Definition limit_only (lim : nat) : ScanOptions :=
  {| limit := lim; start_values := None; end_values := None; include_start := false; include_end := false |}.

Definition lookup_tag (part_id : Z) (def : IndexDef) (vs : list IndexValue) (lim : nat) : IX (list Z) :=
  scan_tag_index part_id def vs (limit_only lim).
Definition lookup_edge (part_id : Z) (def : IndexDef) (vs : list IndexValue) (lim : nat) : IX (list (Z * Z * Z)) :=
  scan_edge_index part_id def vs (limit_only lim).

(** ** Pages *)

Definition validate_key (header_len tail : nat) (fs : list bytes) (prefix key : bytes) : Result IndexError unit :=
  if starts_with prefix key && layout_ok header_len tail fs key then Ok tt
  else Err (InvalidValue (bs "malformed index page key")).

Definition cursor_matches (c : LookupCursor) (def : IndexDef) (prefix : bytes) : bool :=
  (cur_version c =? 1) && (cur_space_id c =? idx_space_id def) &&
  bool_decide (cur_index_name c = index_name def) && bool_decide (cur_schema_name c = schema_name def) &&
  bool_decide (cur_fields c = fields def) && bool_decide (cur_prefix c = prefix).

(** Where a page starts: at the prefix, or just after the last key of the cursor. *)
Definition page_start (header_len tail : nat) (def : IndexDef) (prefix cursor : bytes) : Result IndexError bytes :=
  match cursor with
  | [] => Ok prefix
  | _ =>
      match json_from_slice cursor with
      | Err _ => Err (InvalidValue (bs "invalid index cursor"))
      | Ok parsed =>
          if negb (cursor_matches parsed def prefix)
          then Err (InvalidValue (bs "index cursor does not match this query"))
          else let? _ := validate_key header_len tail (fields def) prefix (last_key parsed) in
               Ok (last_key parsed ++ [z2b 0])
      end
  end.

(** The keys of the page, the cursor of the next one, and whether there is one.
    When there is one the page is not empty, so it has a last key. *)
Definition lookup_page_keys (part_id : Z) (def : IndexDef) (vs : list IndexValue) (lim : nat) (cursor : bytes)
    (edge : bool) : IX (list bytes * bytes * bool) :=
  let ty := if edge then IndexEdge else IndexTag in
  let tail := if edge then 24%nat else 8%nat in
  if (part_id =? 0) || (length (fields def) <? length vs)%nat || negb (bool_decide (index_type def = ty))
  then st_fail (InvalidValue (bs "invalid index page request")) else
  let header := index_prefix ty part_id (idx_id def) in
  let prefix := header ++ IndexValue.encode_all vs in
  match page_start (length header) tail def prefix cursor with
  | Err e => st_fail e
  | Ok start =>
      match prefix_successor prefix with
      | None => st_fail (InvalidValue (bs "index prefix has no upper bound"))
      | Some stop =>
          let lim := if (lim =? 0)%nat then 1024%nat else lim in
          if two64 <=? Z.of_nat lim + 1 then st_fail (InvalidValue (bs "index page limit overflow")) else
          entries <-! index_store (kv_scan_range start stop (Some (Datatypes.S lim))) ;;
          match collect (fun kv : kv_pair => validate_key (length header) tail (fields def) prefix kv.1) entries with
          | Err e => st_fail e
          | Ok _ =>
              let has_more := (lim <? length entries)%nat in
              let keys := take lim entries.*1 in
              if has_more then
                match json_to_vec {| cur_version := 1; cur_space_id := idx_space_id def;
                    cur_index_name := index_name def; cur_schema_name := schema_name def;
                    cur_fields := fields def; cur_prefix := prefix; last_key := default [] (last keys) |} with
                | Ok next => st_ret (keys, next, true)
                | Err m => st_fail (IndexStorage (bs m))
                end
              else st_ret (keys, [], false)
          end
      end
  end.

Definition page_results {A} (parse : bytes -> option A) (err : string)
    (page : IX (list bytes * bytes * bool)) : IX (list A * bytes * bool) :=
  r <-! page ;;
  let '(keys, cursor, has_more) := r in
  match collect (fun k => match parse k with Some a => Ok a | None => Err (InvalidValue (bs err)) end) keys with
  | Ok l => st_ret (l, cursor, has_more)
  | Err e => st_fail e
  end.

Definition lookup_tag_page (part_id : Z) (def : IndexDef) (vs : list IndexValue) (lim : nat) (cursor : bytes)
    : IX (list Z * bytes * bool) :=
  page_results KeyUtils.parse_tag_index_vid "invalid index VID" (lookup_page_keys part_id def vs lim cursor false).
Definition lookup_edge_page (part_id : Z) (def : IndexDef) (vs : list IndexValue) (lim : nat) (cursor : bytes)
    : IX (list (Z * Z * Z) * bytes * bool) :=
  page_results KeyUtils.parse_edge_index_edge "invalid index edge" (lookup_page_keys part_id def vs lim cursor true).

End index.
