(* ===== verification/IndexFacts.v ===== *)
(** * Lookups through an index

    What lookups, range lookups and pages of [byoridb-storage/src/index.rs] return,
    on the in-memory store, in terms of the entries inserted. *)

From Stdlib Require Import ZArith Lia Strings.Byte Strings.String.
From stdpp Require Import base tactics list sorting gmap.
From S2P Require Import Prelude OrdMap History KVStore KVStoreFacts Text StorageKey IndexManager.

(** ** The successor of a prefix *)

Lemma prefix_successor_none p k :
  prefix_successor p = None -> bytes_cmp k p = Lt \/ starts_with p k = true.
Proof.
  revert k. induction p as [|b p IH]; intros k; [by right|]. cbn [prefix_successor].
  destruct (prefix_successor p) eqn:E; [done|]. destruct (Z.eqb_spec (b2z b) 255) as [Hb|]; [|done]. intros _.
  destruct k as [|c k]; [by left|]. rewrite bytes_cmp_cons. pose proof (b2z_bound c).
  destruct (Z.compare_spec (b2z c) (b2z b)) as [Hc|Hc|Hc]; [|by left|lia]. apply b2z_inj in Hc as ->.
  cbn [starts_with]. rewrite bool_decide_eq_true_2 by done. by apply IH.
Qed.

(** The keys below the successor are those below the prefix and those under it. *)
Lemma prefix_successor_lt p e k :
  prefix_successor p = Some e -> bytes_cmp k e = Lt <-> bytes_cmp k p = Lt \/ starts_with p k = true.
Proof.
  revert e k. induction p as [|b p IH]; intros e k; [done|]. cbn [prefix_successor].
  pose proof (b2z_bound b) as Hbb. destruct (prefix_successor p) as [e'|] eqn:E.
  - intros [= <-]. destruct k as [|c k]; [split; [by left|done]|]. rewrite !bytes_cmp_cons. cbn [starts_with].
    destruct (Z.compare_spec (b2z c) (b2z b)) as [Hc|Hc|Hc].
    + apply b2z_inj in Hc as ->. rewrite bool_decide_eq_true_2 by done. by apply IH.
    + split; [by left|done].
    + rewrite bool_decide_eq_false_2 by (intros ->; lia). split; [done|by intros [?|?]].
  - destruct (Z.eqb_spec (b2z b) 255) as [|Hb]; [done|]. intros [= <-].
    destruct k as [|c k]; [split; [by left|done]|]. rewrite !bytes_cmp_cons. cbn [starts_with].
    rewrite b2z_z2b_small by lia. destruct (Z.compare_spec (b2z c) (b2z b)) as [Hc|Hc|Hc].
    + apply b2z_inj in Hc as ->. rewrite (proj2 (Z.compare_lt_iff (b2z b) (b2z b + 1))) by lia.
      rewrite bool_decide_eq_true_2 by done. split; [|done]. intros _.
      destruct (prefix_successor_none p k E); [by left|by right].
    + rewrite (proj2 (Z.compare_lt_iff (b2z c) (b2z b + 1))) by lia. split; [by left|done].
    + rewrite bool_decide_eq_false_2 by (intros ->; lia). split; [|by intros [?|?]].
      destruct (Z.compare_spec (b2z c) (b2z b + 1)); [by destruct k|lia|done].
Qed.

Lemma prefix_successor_some p b : b ∈ p -> b2z b <> 255 -> exists e, prefix_successor p = Some e.
Proof.
  intros Hin Hb. induction p as [|c p IH]; [by apply elem_of_nil in Hin|]. cbn [prefix_successor].
  apply elem_of_cons in Hin as [<-|Hin].
  - destruct (prefix_successor p); [by eexists|]. rewrite (proj2 (Z.eqb_neq _ _)) by done. by eexists.
  - destruct (IH Hin) as [e ->]. by eexists.
Qed.

(** The rows between a prefix and its successor are those under the prefix. *)
Lemma prefix_range p e k :
  prefix_successor p = Some e -> kleb p k && kltb k e = starts_with p k.
Proof.
  intros He. apply eq_true_iff_eq. rewrite andb_true_iff, kltb_iff. cbn [cmp bytes_ordered].
  rewrite (prefix_successor_lt p e k He), kleb_iff. cbn [cmp bytes_ordered]. rewrite (bytes_cmp_flip k p). split.
  - intros [H1 [H2|H2]]; [|done]. rewrite bytes_cmp_flip in H2. destruct (bytes_cmp p k) eqn:E; simpl in *; try done.
    rewrite (bytes_cmp_flip k p) in E. destruct (bytes_cmp k p); done.
  - intros H. split; [|by right]. pose proof (starts_with_kleb p k H) as Hk. apply kleb_iff in Hk.
    cbn [cmp bytes_ordered] in Hk. rewrite (bytes_cmp_flip k p) in Hk. by destruct (bytes_cmp k p).
Qed.

(** ** Entries of an index *)

Definition trailer_len (ty : IndexType) : nat := match ty with IndexTag => 8 | IndexEdge => 24 end.

(** An entry's key: the header, the values and the vertex or edge they belong to. *)
Definition entry_key (ty : IndexType) (part id : Z) (ws : list IndexValue) (t : bytes) : bytes :=
  index_prefix ty part id ++ IndexValue.encode_all ws ++ t.

(** The keys under the index's header are entries with [n] values. *)
Definition index_wf (ty : IndexType) (part id : Z) (n : nat) (s : MemoryKVStore) : Prop :=
  forall k v, om_get k (data s) = Some v -> starts_with (index_prefix ty part id) k = true ->
  exists ws t, k = entry_key ty part id ws t /\ length ws = n /\ Forall index_ok ws /\ length t = trailer_len ty.

Definition has_entry (ty : IndexType) (part id : Z) (ws : list IndexValue) (t : bytes) (s : MemoryKVStore) : Prop :=
  om_get (entry_key ty part id ws t) (data s) <> None.

(** Values that are indexed alike: text is compared up to 255 bytes. *)
Definition index_eq (v w : IndexValue) : Prop := index_cmp v w = Eq.

Lemma encode_eq v w : index_ok v -> index_ok w -> index_eq v w <-> IndexValue.encode v = IndexValue.encode w.
Proof.
  intros Hv Hw. pose proof (encode_cmp v w [] [] Hv Hw) as H. rewrite !app_nil_r in H. unfold index_eq.
  rewrite <- bytes_cmp_eq, H. destruct (index_cmp v w); done.
Qed.

Lemma encode_prefix v w r1 r2 :
  index_ok v -> index_ok w -> IndexValue.encode v ++ r1 = IndexValue.encode w ++ r2 -> index_eq v w /\ r1 = r2.
Proof.
  intros Hv Hw E. apply bytes_cmp_eq in E. rewrite encode_cmp in E by done. unfold index_eq.
  destruct (index_cmp v w); try done. by apply bytes_cmp_eq in E.
Qed.

Lemma encode_all_prefix vs ws t :
  Forall index_ok vs -> Forall index_ok ws -> (length vs <= length ws)%nat ->
  starts_with (IndexValue.encode_all vs) (IndexValue.encode_all ws ++ t) = true <->
  Forall2 index_eq vs (take (length vs) ws).
Proof.
  intros Hvs. revert ws. unfold IndexValue.encode_all.
  induction Hvs as [|v vs Hv _ IH]; intros ws Hws Hl; [split; [constructor|done]|].
  destruct Hws as [|w ws Hw Hws]; [simpl in Hl; lia|]. cbn [fmap list_fmap concat take length] in *.
  rewrite <- app_assoc, starts_with_iff. split.
  - intros [r E]. rewrite <- app_assoc in E. symmetry in E. apply encode_prefix in E as [Heq E]; [|done..].
    constructor; [done|]. apply IH; [done|lia|]. apply starts_with_iff. by exists r.
  - intros H. inversion H as [|? ? ? ? Heq Hrest]; subst. apply encode_eq in Heq as ->; [|done..].
    apply IH in Hrest; [|done|lia]. apply starts_with_iff in Hrest as [r ->]. exists r. by rewrite <- app_assoc.
Qed.

Lemma decode_fields_encode fs ws :
  Forall index_ok ws -> length ws = length fs -> decode_fields fs (IndexValue.encode_all ws) = Some [].
Proof.
  intros Hws. revert fs. unfold IndexValue.encode_all.
  induction Hws as [|w ws Hw _ IH]; intros [|f fs] Hl; try done.
  cbn [fmap list_fmap concat decode_fields]. rewrite index_value_decode_encode by done.
  rewrite drop_app_exact by (symmetry; apply encode_length). apply IH. simpl in Hl. lia.
Qed.

Lemma header_length ty part id : length (index_prefix ty part id) = 9%nat.
Proof.
  destruct ty; unfold index_prefix, KeyUtils.tag_index_prefix, KeyUtils.edge_index_prefix;
    rewrite !length_app, !length_be_bytes; reflexivity.
Qed.

Lemma entry_layout ty part id fs ws t :
  Forall index_ok ws -> length ws = length fs -> length t = trailer_len ty ->
  layout_ok (length (index_prefix ty part id)) (trailer_len ty) fs (entry_key ty part id ws t) = true.
Proof.
  intros Hws Hl Ht. unfold layout_ok. set (k := entry_key ty part id ws t).
  assert (Hk : length k = (9 + length (IndexValue.encode_all ws) + trailer_len ty)%nat).
  { unfold k, entry_key. rewrite !length_app, header_length, Ht. lia. }
  rewrite header_length, Hk. rewrite (proj2 (Nat.leb_le _ _)), (proj2 (Nat.leb_le 9 _)) by lia.
  assert (Hv : drop 9 (take (9 + length (IndexValue.encode_all ws) + trailer_len ty - trailer_len ty) k) =
    IndexValue.encode_all ws).
  { unfold k, entry_key. rewrite app_assoc, take_app_exact by (rewrite length_app, header_length; lia).
    apply drop_app_exact. by rewrite header_length. }
  rewrite Hv, decode_fields_encode by done. by rewrite bool_decide_eq_true_2.
Qed.

Lemma entry_trailer ty part id ws t :
  length t = trailer_len ty -> drop (length (entry_key ty part id ws t) - trailer_len ty) (entry_key ty part id ws t) = t.
Proof.
  intros Ht. unfold entry_key. rewrite app_assoc. apply drop_app_exact. rewrite (length_app _ t). lia.
Qed.

Lemma entry_min_length ty part id ws t :
  length t = trailer_len ty -> (9 + trailer_len ty <= length (entry_key ty part id ws t))%nat.
Proof. intros Ht. unfold entry_key. rewrite !length_app, header_length, Ht. lia. Qed.

Lemma tag_result_entry part def ws t :
  Forall index_ok ws -> length ws = length (fields def) -> length t = 8%nat ->
  tag_result part def (entry_key IndexTag part (idx_id def) ws t) = Ok (i64_of_be t).
Proof.
  intros Hws Hl Ht. unfold tag_result.
  pose proof (entry_layout IndexTag part (idx_id def) (fields def) ws t Hws Hl Ht) as HL. cbn [index_prefix trailer_len] in HL.
  rewrite HL. unfold KeyUtils.parse_tag_index_vid.
  pose proof (entry_min_length IndexTag part (idx_id def) ws t Ht) as Hm. cbn [trailer_len] in Hm.
  rewrite (proj2 (Nat.ltb_ge _ _)) by lia. do 2 f_equal. exact (entry_trailer IndexTag part (idx_id def) ws t Ht).
Qed.

Lemma edge_result_entry part def ws t :
  Forall index_ok ws -> length ws = length (fields def) -> length t = 24%nat ->
  edge_result part def (entry_key IndexEdge part (idx_id def) ws t) =
  Ok (i64_of_be (take 8 t), i64_of_be (take 8 (drop 8 t)), i64_of_be (take 8 (drop 16 t))).
Proof.
  intros Hws Hl Ht. unfold edge_result.
  pose proof (entry_layout IndexEdge part (idx_id def) (fields def) ws t Hws Hl Ht) as HL. cbn [index_prefix trailer_len] in HL.
  rewrite HL. unfold KeyUtils.parse_edge_index_edge.
  pose proof (entry_min_length IndexEdge part (idx_id def) ws t Ht) as Hm. cbn [trailer_len] in Hm.
  rewrite (proj2 (Nat.ltb_ge _ _)) by lia. cbv zeta.
  pose proof (entry_trailer IndexEdge part (idx_id def) ws t Ht) as Et. cbn [trailer_len] in Et. by rewrite Et.
Qed.

Lemma collect_map {A B E} (f : A -> Result E B) (g : A -> B) l :
  (forall x, x ∈ l -> f x = Ok (g x)) -> collect f l = Ok (g <$> l).
Proof.
  induction l as [|x l IH]; intros Hf; [done|]. cbn [collect fmap list_fmap]. rewrite Hf by left.
  by rewrite IH by (intros; apply Hf; by right).
Qed.

(** ** What a scan returns *)

Definition trailer (ty : IndexType) (k : bytes) : bytes := drop (length k - trailer_len ty) k.

(** The trailers [ts] are those of the entries whose values satisfy [P]. *)
Definition hits (ty : IndexType) (part id : Z) (n : nat) (P : list IndexValue -> Prop) (s : MemoryKVStore)
    (ts : list bytes) : Prop :=
  forall t, t ∈ ts <-> length t = trailer_len ty /\
    exists ws, length ws = n /\ Forall index_ok ws /\ has_entry ty part id ws t s /\ P ws.

Definition is_entry (ty : IndexType) (part id : Z) (n : nat) (k : bytes) : Prop :=
  exists ws, Forall index_ok ws /\ length ws = n /\ length (trailer ty k) = trailer_len ty /\
    k = entry_key ty part id ws (trailer ty k).

Lemma entry_is_entry ty part id ws t :
  Forall index_ok ws -> length t = trailer_len ty ->
  trailer ty (entry_key ty part id ws t) = t /\ is_entry ty part id (length ws) (entry_key ty part id ws t).
Proof.
  intros Hws Ht. pose proof (entry_trailer ty part id ws t Ht) as E. split; [exact E|].
  exists ws. unfold trailer. by rewrite E.
Qed.

(** A scan that selects keys under the header by a test equivalent to [P]. *)
Lemma selected_rows ty part id n (f : bytes -> bool) (P : list IndexValue -> Prop) s :
  mem_wf s -> index_wf ty part id n s ->
  (forall k, f k = true -> starts_with (index_prefix ty part id) k = true) ->
  (forall ws t, length ws = n -> Forall index_ok ws -> length t = trailer_len ty ->
     f (entry_key ty part id ws t) = true <-> P ws) ->
  let rows := List.filter (fun kv : kv_pair => f kv.1) (data s) in
  hits ty part id n P s (trailer ty <$> rows.*1) /\ forall kv, kv ∈ rows -> is_entry ty part id n kv.1.
Proof.
  intros [Hwf _] Hix Hf HP rows.
  assert (Hrow : forall k v, (k, v) ∈ rows <-> om_get k (data s) = Some v /\ f k = true).
  { intros k v. unfold rows. by rewrite list_elem_of_In, filter_In, <- list_elem_of_In, om_get_elem. }
  split.
  - intros t. rewrite list_elem_of_fmap. setoid_rewrite list_elem_of_fmap. split.
    + intros (k & -> & [k' v] & -> & [Hg Hfk]%Hrow). cbn [fst].
      destruct (Hix k' v Hg (Hf k' Hfk)) as (ws & t & -> & Hn & Hws & Ht).
      destruct (entry_is_entry ty part id ws t Hws Ht) as [Et _]. rewrite Et. split; [done|].
      exists ws. do 2 (split; [done|]). split; [unfold has_entry; by rewrite Hg|]. by apply (HP ws t).
    + intros (Ht & ws & Hn & Hws & He & HPws). unfold has_entry in He.
      destruct (om_get (entry_key ty part id ws t) (data s)) as [v|] eqn:Hg; [|done].
      exists (entry_key ty part id ws t). split; [by destruct (entry_is_entry ty part id ws t Hws Ht)|].
      exists (entry_key ty part id ws t, v). split; [done|]. apply Hrow. split; [done|]. by apply HP.
  - intros [k v] [Hg Hfk]%Hrow. destruct (Hix k v Hg (Hf k Hfk)) as (ws & t & -> & <- & Hws & Ht).
    by apply entry_is_entry.
Qed.

(** [None] stands for a limit of zero. *)
Definition limited {A} (lim : nat) (l : list A) : list A := take_limit (if (0 <? lim)%nat then Some lim else None) l.

Lemma truncate_limited {A} lim (l : list A) : truncate lim (limited lim l) = limited lim l.
Proof.
  unfold truncate, limited. destruct (0 <? lim)%nat; [|done]. simpl. rewrite take_take. by rewrite Nat.min_id.
Qed.

Lemma limited_fmap {A B} (g : A -> B) lim l : g <$> limited lim l = limited lim (g <$> l).
Proof. unfold limited. destruct (0 <? lim)%nat; [|done]. simpl. by rewrite fmap_take. Qed.

Lemma limited_elem {A} lim (l : list A) x : x ∈ limited lim l -> x ∈ l.
Proof.
  unfold limited. destruct (0 <? lim)%nat; [|done]. simpl. intros H.
  rewrite <- (take_drop lim l). apply elem_of_app. by left.
Qed.

Definition vid_of (t : bytes) : Z := i64_of_be t.
Definition edge_of (t : bytes) : Z * Z * Z :=
  (i64_of_be (take 8 t), i64_of_be (take 8 (drop 8 t)), i64_of_be (take 8 (drop 16 t))).

Lemma collect_tags part def lim (rows : list kv_pair) :
  (forall kv, kv ∈ rows -> is_entry IndexTag part (idx_id def) (length (fields def)) kv.1) ->
  collect (fun kv : kv_pair => tag_result part def kv.1) (limited lim rows) =
  Ok (limited lim (vid_of <$> (trailer IndexTag <$> rows.*1))).
Proof.
  intros Hr. rewrite (collect_map _ (fun kv : kv_pair => vid_of (trailer IndexTag kv.1))).
  - rewrite limited_fmap. do 2 f_equal. by rewrite <- !list_fmap_compose.
  - intros kv Hkv%limited_elem. destruct (Hr kv Hkv) as (ws & Hws & Hn & Ht & E). rewrite E at 1.
    by apply tag_result_entry.
Qed.

Lemma collect_edges part def lim (rows : list kv_pair) :
  (forall kv, kv ∈ rows -> is_entry IndexEdge part (idx_id def) (length (fields def)) kv.1) ->
  collect (fun kv : kv_pair => edge_result part def kv.1) (limited lim rows) =
  Ok (limited lim (edge_of <$> (trailer IndexEdge <$> rows.*1))).
Proof.
  intros Hr. rewrite (collect_map _ (fun kv : kv_pair => edge_of (trailer IndexEdge kv.1))).
  - rewrite limited_fmap. do 2 f_equal. by rewrite <- !list_fmap_compose.
  - intros kv Hkv%limited_elem. destruct (Hr kv Hkv) as (ws & Hws & Hn & Ht & E). rewrite E at 1.
    by apply edge_result_entry.
Qed.

Section lookups.
Context `{SerdeJson IndexDef} `{SerdeJson LookupCursor}.

(** A scan of an index against the rows its keys select. *)
Lemma scan_with_rows part def vs opts (m : IndexManager) s (f : bytes -> bool) (P : list IndexValue -> Prop) ty :
  mem_wf s -> index_wf ty part (idx_id def) (length (fields def)) s ->
  (forall k, f k = true -> starts_with (index_prefix ty part (idx_id def)) k = true) ->
  (forall ws t, length ws = length (fields def) -> Forall index_ok ws -> length t = trailer_len ty ->
     f (entry_key ty part (idx_id def) ws t) = true <-> P ws) ->
  scan_index_rows ty part def vs opts (m, s) =
    (Ok (limited (limit opts) (List.filter (fun kv : kv_pair => f kv.1) (data s))), (m, s)) ->
  exists ts, hits ty part (idx_id def) (length (fields def)) P s ts /\
    (ty = IndexTag -> scan_tag_index part def vs opts (m, s) = (Ok (limited (limit opts) (vid_of <$> ts)), (m, s))) /\
    (ty = IndexEdge -> scan_edge_index part def vs opts (m, s) = (Ok (limited (limit opts) (edge_of <$> ts)), (m, s))).
Proof.
  intros Hwf Hix Hf HP Hscan. destruct (selected_rows ty part _ _ f P s Hwf Hix Hf HP) as [Hhits Hent].
  eexists. split; [exact Hhits|]. split; intros ->.
  - unfold scan_tag_index, st_bind. rewrite Hscan, collect_tags by done. unfold st_ret. by rewrite truncate_limited.
  - unfold scan_edge_index, st_bind. rewrite Hscan, collect_edges by done. unfold st_ret. by rewrite truncate_limited.
Qed.

Lemma starts_with_app_l a b k : starts_with (a ++ b) k = true -> starts_with a k = true.
Proof. rewrite !starts_with_iff. intros [r ->]. exists (b ++ r). by rewrite app_assoc. Qed.

Lemma starts_with_app_both p a b : starts_with (p ++ a) (p ++ b) = starts_with a b.
Proof. induction p as [|x p IH]; [done|]. simpl. by rewrite bool_decide_eq_true_2, IH by done. Qed.

(** C20: an equality lookup through a tag or edge index returns exactly the
    vertices or edges of the entries whose leading values are the given ones,
    text being compared up to its first 255 bytes, and a positive limit returns
    a prefix of that list. *)
Theorem index_lookup_exact ty part def vs lim (m : IndexManager) s :
  mem_wf s -> index_wf ty part (idx_id def) (length (fields def)) s ->
  Forall index_ok vs -> (length vs <= length (fields def))%nat ->
  exists ts, hits ty part (idx_id def) (length (fields def)) (fun ws => Forall2 index_eq vs (take (length vs) ws)) s ts /\
    (ty = IndexTag -> lookup_tag part def vs lim (m, s) = (Ok (limited lim (vid_of <$> ts)), (m, s))) /\
    (ty = IndexEdge -> lookup_edge part def vs lim (m, s) = (Ok (limited lim (edge_of <$> ts)), (m, s))).
Proof.
  intros Hwf Hix Hvs Hl. set (p := index_prefix ty part (idx_id def) ++ IndexValue.encode_all vs).
  apply (scan_with_rows part def vs (limit_only lim) m s (starts_with p)); [done|done|..].
  - intros k. apply starts_with_app_l.
  - intros ws t Hn Hws _. unfold p, entry_key. rewrite starts_with_app_both. apply encode_all_prefix; [done|done|lia].
  - unfold scan_index_rows. cbn [start_values end_values limit limit_only]. fold p. unfold index_store.
    cbn [kv_scan_prefix_limited memory_provided]. unfold Memory.scan_with_filter. destruct Hwf as [Hwf _].
    rewrite prefix_walk by done. by rewrite List.filter_true.
Qed.

(** ** Range lookups *)

(** The comparison an operator asks for, of a value with the boundary. *)
Definition in_bounds (op : RangeOperator) (w v : IndexValue) : bool :=
  match op, index_cmp w v with
  | GreaterThan, Gt | LessThan, Lt => true
  | GreaterThanOrEqual, (Gt | Eq) | LessThanOrEqual, (Lt | Eq) => true
  | _, _ => false
  end.

(** The value has the type of the boundary and, as a float, is a number. *)
Definition comparable (w v : IndexValue) : bool :=
  (marker w =? marker v) && match w with IVFloat b => negb (is_nan b) | _ => true end.

Lemma index_cmp_flip a b : index_ok a -> index_ok b -> index_cmp b a = CompOpp (index_cmp a b).
Proof.
  intros Ha Hb. pose proof (encode_cmp a b [] [] Ha Hb) as H1. pose proof (encode_cmp b a [] [] Hb Ha) as H2.
  rewrite !app_nil_r in *. rewrite bytes_cmp_flip, H1 in H2.
  destruct (index_cmp a b), (index_cmp b a); done.
Qed.

Lemma boundary_cmp h w v t :
  index_ok w -> index_ok v -> t <> [] ->
  bytes_cmp (h ++ IndexValue.encode_all [w] ++ t) (h ++ IndexValue.encode_all [v]) =
    match index_cmp w v with Eq => Gt | c => c end /\
  starts_with (h ++ IndexValue.encode_all [v]) (h ++ IndexValue.encode_all [w] ++ t) =
    match index_cmp w v with Eq => true | _ => false end.
Proof.
  intros Hw Hv Ht. unfold IndexValue.encode_all. cbn [fmap list_fmap concat]. rewrite !app_nil_r. split.
  - rewrite bytes_cmp_app_l. replace (IndexValue.encode v) with (IndexValue.encode v ++ []) by apply app_nil_r.
    rewrite encode_cmp by done. destruct (index_cmp w v); [by destruct t|done|done].
  - rewrite starts_with_app_both. destruct (index_cmp w v) eqn:E.
    + assert (Hq : index_eq w v) by done. apply encode_eq in Hq as ->; [|done..]. apply starts_with_app.
    + apply not_true_iff_false. intros [r Er]%starts_with_iff. apply encode_prefix in Er as [Er _]; [|done..].
      unfold index_eq in Er. congruence.
    + apply not_true_iff_false. intros [r Er]%starts_with_iff. apply encode_prefix in Er as [Er _]; [|done..].
      unfold index_eq in Er. congruence.
Qed.

Lemma header_byte ty part id : exists b, b ∈ index_prefix ty part id /\ b2z b <> 255.
Proof.
  exists (key_type_byte match ty with IndexTag => KeyTagIndex | IndexEdge => KeyEdgeIndex end).
  destruct ty; (split; [|by vm_compute]); apply elem_of_app; right; left.
Qed.

Lemma header_successor ty part id l : exists e, prefix_successor (index_prefix ty part id ++ l) = Some e.
Proof.
  destruct (header_byte ty part id) as (b & Hb & Hne). apply (prefix_successor_some _ b); [|done].
  apply elem_of_app. by left.
Qed.

Definition low_ok (incl : bool) (c : comparison) : bool := match c with Gt => true | Eq => incl | Lt => false end.
Definition high_ok (incl : bool) (c : comparison) : bool := match c with Lt => true | Eq => incl | Gt => false end.

(** A lower bound selects a key by how its value compares with the boundary. *)
Lemma low_bound h start lo (incl : bool) w t :
  index_ok w -> index_ok lo -> t <> [] ->
  (if incl then start = h ++ IndexValue.encode_all [lo] else prefix_successor (h ++ IndexValue.encode_all [lo]) = Some start) ->
  kleb start (h ++ IndexValue.encode_all [w] ++ t) = low_ok incl (index_cmp w lo).
Proof.
  intros Hw Hlo Ht Hs. destruct (boundary_cmp h w lo t Hw Hlo Ht) as [Hc Hp].
  rewrite kleb_ltb. unfold kltb. cbn [cmp bytes_ordered]. destruct incl.
  - subst start. rewrite Hc. by destruct (index_cmp w lo).
  - pose proof (prefix_successor_lt _ _ (h ++ IndexValue.encode_all [w] ++ t) Hs) as Hlt. rewrite Hc, Hp in Hlt.
    destruct (bytes_cmp _ start), (index_cmp w lo); simpl; try done; exfalso; intuition congruence.
Qed.

Lemma high_bound h stop hi (incl : bool) w t :
  index_ok w -> index_ok hi -> t <> [] ->
  (if incl then prefix_successor (h ++ IndexValue.encode_all [hi]) = Some stop else stop = h ++ IndexValue.encode_all [hi]) ->
  kltb (h ++ IndexValue.encode_all [w] ++ t) stop = high_ok incl (index_cmp w hi).
Proof.
  intros Hw Hhi Ht Hs. destruct (boundary_cmp h w hi t Hw Hhi Ht) as [Hc Hp].
  unfold kltb. cbn [cmp bytes_ordered]. destruct incl.
  - pose proof (prefix_successor_lt _ _ (h ++ IndexValue.encode_all [w] ++ t) Hs) as Hlt. rewrite Hc, Hp in Hlt.
    destruct (bytes_cmp _ stop), (index_cmp w hi); simpl; try done; exfalso; intuition congruence.
  - subst stop. rewrite Hc. by destruct (index_cmp w hi).
Qed.

(** Keys between the bounds of an index are keys of the index. *)
Lemma bounds_under_header h lo hi start stop (incl1 incl2 : bool) k :
  (if incl1 then start = h ++ lo else prefix_successor (h ++ lo) = Some start) ->
  (if incl2 then prefix_successor (h ++ hi) = Some stop else stop = h ++ hi) ->
  kleb start k = true -> kltb k stop = true -> starts_with h k = true.
Proof.
  intros Hs He H1 H2. assert (Hlo : kleb (h ++ lo) k = true).
  { destruct incl1; [by subst|]. rewrite kleb_ltb in H1 |- *. apply negb_true_iff in H1. apply negb_true_iff, not_true_iff_false.
    intros Hlt. apply kltb_iff in Hlt. apply not_true_iff_false in H1. apply H1, kltb_iff. cbn [cmp bytes_ordered] in *.
    apply (prefix_successor_lt _ _ _ Hs). by left. }
  apply kltb_iff in H2. cbn [cmp bytes_ordered] in H2.
  assert (Hcase : bytes_cmp k (h ++ hi) = Lt \/ starts_with (h ++ hi) k = true).
  { destruct incl2; [by apply (prefix_successor_lt _ _ _ He)|subst; by left]. }
  destruct Hcase as [Hlt|Hsw]; [|by apply starts_with_app_l in Hsw].
  apply (starts_with_interval h k (h ++ hi)); [|unfold kleb; cbn [cmp bytes_ordered]; by rewrite Hlt|apply starts_with_app].
  apply (kleb_trans _ (h ++ lo)); [apply starts_with_kleb, starts_with_app|done].
Qed.

(** A scan between two one-value bounds. *)
Lemma scan_rows_between ty part def lim lo hi (incl1 incl2 : bool) (m : IndexManager) s :
  mem_wf s ->
  let h := index_prefix ty part (idx_id def) in
  exists start stop,
    (if incl1 then start = h ++ IndexValue.encode_all [lo] else prefix_successor (h ++ IndexValue.encode_all [lo]) = Some start) /\
    (if incl2 then prefix_successor (h ++ IndexValue.encode_all [hi]) = Some stop else stop = h ++ IndexValue.encode_all [hi]) /\
    scan_index_rows ty part def []
      {| limit := lim; start_values := Some [lo]; end_values := Some [hi]; include_start := incl1; include_end := incl2 |} (m, s) =
    (Ok (limited lim (List.filter (fun kv : kv_pair => kleb start kv.1 && kltb kv.1 stop) (data s))), (m, s)).
Proof.
  intros [Hwf _] h. destruct (header_successor ty part (idx_id def) (IndexValue.encode_all [])) as [pe Hpe].
  destruct (header_successor ty part (idx_id def) (IndexValue.encode_all [lo])) as [sl Hsl].
  destruct (header_successor ty part (idx_id def) (IndexValue.encode_all [hi])) as [sh Hsh]. fold h in Hpe, Hsl, Hsh.
  exists (if incl1 then h ++ IndexValue.encode_all [lo] else sl), (if incl2 then sh else h ++ IndexValue.encode_all [hi]).
  split; [by destruct incl1|]. split; [by destruct incl2|].
  unfold scan_index_rows. cbn [start_values end_values include_start include_end limit app]. fold h.
  rewrite Hpe, Hsl, Hsh. cbn [from_option]. unfold index_store. cbn [kv_scan_range memory_provided].
  set (start := if incl1 then _ else _). set (stop := if incl2 then _ else _).
  replace (if incl1 then h ++ IndexValue.encode_all [lo] else id sl) with start by (unfold start; by destruct incl1).
  replace (if incl2 then id sh else h ++ IndexValue.encode_all [hi]) with stop by (unfold stop; by destruct incl2).
  unfold Memory.scan_range. destruct (kleb stop start) eqn:Hle; cbn [orb].
  - replace (List.filter _ (data s)) with (@nil kv_pair); [unfold limited; by destruct (0 <? lim)%nat; [destruct lim|]|].
    symmetry. apply List.incl_l_nil. intros kv [_ Hkv]%filter_In. apply andb_true_iff in Hkv as [H1 H2].
    apply kltb_iff in H2. pose proof (kleb_lt_trans _ _ _ (kleb_trans _ _ _ Hle H1) H2) as Hc. by rewrite cmp_refl in Hc.
  - unfold limited. destruct (0 <? lim)%nat eqn:El; [|done]. rewrite bool_decide_eq_false_2; [done|].
    intros E. injection E as ->. discriminate El.
Qed.

Lemma magnitude_spec b : u64_ok b -> magnitude b = if b <? two63 then b else b - two63.
Proof.
  intros Hb. unfold magnitude. change (two63 - 1) with (Z.ones 63). rewrite Z.land_ones by lia.
  unfold u64_ok, two64, two63 in *. destruct (Z.ltb_spec b (2 ^ 63)).
  - apply Z.mod_small. lia.
  - symmetry. apply Z.mod_unique with 1; lia.
Qed.

Lemma nan_bounds b : u64_ok b ->
  is_nan b = negb ((total_key NEG_INFINITY <=? total_key b) && (total_key b <=? total_key INFINITY)).
Proof.
  intros Hb. unfold is_nan. rewrite magnitude_spec by done. unfold total_key.
  change (INFINITY <? two63) with true. change (NEG_INFINITY <? two63) with false. cbn iota.
  assert (HN : two63 - 1 - NEG_INFINITY = -1 - INFINITY) by reflexivity. rewrite HN.
  assert (HI : 0 <= INFINITY < two63) by (vm_compute; split; [discriminate|reflexivity]).
  destruct (Z.ltb_spec b two63); apply eq_true_iff_eq;
    rewrite negb_true_iff, andb_false_iff, !Z.leb_gt, Z.ltb_lt; unfold u64_ok in *; lia.
Qed.

Lemma float_ok : u64_ok NEG_INFINITY /\ u64_ok INFINITY.
Proof. vm_compute. intuition discriminate. Qed.

(** The bounds of a range lookup select the comparable values in the range. *)
Lemma range_selects v op w tmin tmax :
  index_ok v -> index_ok w -> type_bounds v = Some (tmin, tmax) ->
  index_ok tmin /\ index_ok tmax /\
  let '(lo, il, hi, ih) :=
    match op with
    | GreaterThan => (v, false, tmax, true) | GreaterThanOrEqual => (v, true, tmax, true)
    | LessThan => (tmin, true, v, false) | LessThanOrEqual => (tmin, true, v, true)
    end in
  low_ok il (index_cmp w lo) && high_ok ih (index_cmp w hi) = comparable w v && in_bounds op w v.
Proof.
  intros Hv Hw Hb. destruct v as [|b|i|b|x]; try discriminate Hb; simpl in Hb, Hv.
  - injection Hb as <- <-. do 2 (split; [done|]). destruct op, w as [|b'|i'|b'|x'], b; try done; by destruct b'.
  - injection Hb as <- <-. do 2 (split; [by vm_compute; intuition discriminate|]).
    assert (Hr : I64_MIN <= I64_MAX) by by compute. unfold comparable, in_bounds.
    destruct op, w as [|b'|i'|b'|x']; try done; cbn [index_cmp marker]; simpl in Hw; unfold i64_ok, I64_MIN, I64_MAX in *;
      simpl (2 =? 2); cbn [andb];
      repeat match goal with |- context [?a ?= ?b] => destruct (Z.compare_spec a b); subst end; simpl; try done; lia.
  - destruct (is_nan b || is_zero b) eqn:Hnz; [done|]. injection Hb as <- <-. apply orb_false_iff in Hnz as [Hn _].
    do 2 (split; [apply float_ok|]). rewrite nan_bounds in Hn by done. apply negb_false_iff, andb_true_iff in Hn as [Hn1 Hn2].
    rewrite Z.leb_le in Hn1, Hn2. unfold comparable, in_bounds.
    destruct op, w as [|b'|i'|b'|x']; try done; cbn [index_cmp marker]; simpl in Hw; rewrite (nan_bounds b' Hw);
      simpl (3 =? 3); cbn [andb]; rewrite negb_involutive;
      repeat match goal with |- context [?a ?= ?b] => destruct (Z.compare_spec a b) end;
      repeat match goal with |- context [?a <=? ?b] => destruct (Z.leb_spec a b) end; simpl; try done; lia.
Qed.

(** C21: a range lookup on a one-field index returns exactly the vertices or edges
    whose indexed value has the type of the boundary, is a number when it is a
    float, and compares with the boundary as the operator asks; boundaries
    without an order - null, text, NaN and zero - are refused. *)
Theorem range_lookup_exact ty part def v op lim (m : IndexManager) s :
  mem_wf s -> index_wf ty part (idx_id def) 1 s -> length (fields def) = 1%nat -> index_ok v ->
  match type_bounds v with
  | None => exists e, lookup_tag_range part def v op lim (m, s) = (Err (InvalidValue e), (m, s)) /\
                      lookup_edge_range part def v op lim (m, s) = (Err (InvalidValue e), (m, s))
  | Some _ =>
      exists ts, hits ty part (idx_id def) 1
          (fun ws => exists w, ws = [w] /\ comparable w v = true /\ in_bounds op w v = true) s ts /\
        (ty = IndexTag -> lookup_tag_range part def v op lim (m, s) = (Ok (limited lim (vid_of <$> ts)), (m, s))) /\
        (ty = IndexEdge -> lookup_edge_range part def v op lim (m, s) = (Ok (limited lim (edge_of <$> ts)), (m, s)))
  end.
Proof.
  intros Hwf Hix Hf Hv. unfold lookup_tag_range, lookup_edge_range, range_checked. rewrite Hf. cbn [Nat.eqb negb].
  destruct (type_bounds v) as [[tmin tmax]|] eqn:Hb; [|by eexists].
  set (b := match op with
    | GreaterThan => (v, false, tmax, true) | GreaterThanOrEqual => (v, true, tmax, true)
    | LessThan => (tmin, true, v, false) | LessThanOrEqual => (tmin, true, v, true) end).
  destruct b as [[[lo il] hi] ih] eqn:Eb.
  assert (Hopt : range_options tmin tmax v op lim =
    {| limit := lim; start_values := Some [lo]; end_values := Some [hi]; include_start := il; include_end := ih |}).
  { unfold b in Eb. destruct op; injection Eb as <- <- <- <-; done. }
  destruct (scan_rows_between ty part def lim lo hi il ih m s Hwf) as (start & stop & Hs & He & Hscan).
  rewrite <- Hf in Hix |- *. rewrite Hopt.
  apply (scan_with_rows part def []
    {| limit := lim; start_values := Some [lo]; end_values := Some [hi]; include_start := il; include_end := ih |}
    m s (fun k => kleb start k && kltb k stop)); [done|done| | |exact Hscan].
  - intros k [H1 H2]%andb_true_iff. by eapply bounds_under_header.
  - intros ws t Hn Hws Ht. rewrite Hf in Hn. destruct ws as [|w [|? ?]]; try discriminate Hn.
    apply Forall_cons in Hws as [Hws _]. destruct (range_selects v op w tmin tmax Hv Hws Hb) as (Hmin & Hmax & Hsel).
    fold b in Hsel. rewrite Eb in Hsel.
    assert (Hok : index_ok lo /\ index_ok hi) by (unfold b in Eb; destruct op; injection Eb as <- <- <- <-; done).
    assert (Hne : t <> []) by (intros ->; by destruct ty).
    unfold entry_key. rewrite (low_bound _ start lo il) by (done || apply Hok). rewrite (high_bound _ stop hi ih) by (done || apply Hok).
    rewrite Hsel, andb_true_iff. split; [by exists w|]. by intros (w' & [= <-] & ?).
Qed.
End lookups.
