(* ===== verification/IndexPages.v ===== *)
(** * Pages of an index lookup

    Following the cursors of [lookup_tag_page] and [lookup_edge_page]
    ([byoridb-storage/src/index.rs]) from the first page to the last visits every
    matching entry once, in key order. *)

From Stdlib Require Import ZArith Lia Strings.Byte Strings.String.
From stdpp Require Import base tactics sorting gmap list.
From S2P Require Import Prelude Codecs OrdMap History KVStore KVStoreFacts Text StorageKey IndexManager IndexFacts.

(** The next byte string after [l] is [l] followed by a zero byte. *)
Lemma bytes_cmp_snoc_zero k l : bytes_cmp k (l ++ [z2b 0]) = Lt <-> bytes_cmp k l <> Gt.
Proof.
  revert k. induction l as [|x l IH]; intros [|y k]; cbn [app]; [by vm_compute| |done|].
  - rewrite bytes_cmp_cons. pose proof (b2z_bound y). rewrite b2z_z2b_small by lia.
    destruct (Z.compare_spec (b2z y) 0); [by destruct k|lia|done].
  - rewrite !bytes_cmp_cons. destruct (b2z y ?= b2z x); [apply IH|done|done].
Qed.

Lemma filter_drop_sorted (m : list kv_pair) n k v :
  om_wf m -> m !! n = Some (k, v) -> List.filter (fun kv => kleb (k ++ [z2b 0]) kv.1) m = drop (S n) m.
Proof.
  revert n. induction m as [|[k0 v0] m IH]; intros n Hwf Hn; [done|].
  pose proof (om_wf_tail _ _ Hwf) as Htl.
  assert (Hle : forall k', kleb (k ++ [z2b 0]) k' = kltb k k').
  { intros k'. rewrite kleb_ltb. unfold kltb. cbn [cmp bytes_ordered].
    pose proof (bytes_cmp_snoc_zero k' k) as Hz. rewrite (bytes_cmp_flip k' k).
    destruct (bytes_cmp k' (k ++ [z2b 0])), (bytes_cmp k' k); simpl; try done; exfalso; intuition congruence. }
  destruct n as [|n].
  - injection Hn as -> ->. cbn [List.filter fst drop]. rewrite Hle. unfold kltb. rewrite cmp_refl.
    rewrite drop_0. apply filter_all. intros [k' v'] Hin. cbn [fst]. rewrite Hle. unfold kltb.
    by rewrite (om_wf_head _ _ _ _ _ Hwf Hin).
  - cbn [List.filter fst drop]. rewrite Hle. unfold kltb.
    assert (Hc : cmp k0 k = Lt) by (eapply om_wf_head; [exact Hwf|]; by eapply list_elem_of_lookup_2).
    rewrite (proj2 (cmp_gt_iff k k0) Hc). by apply IH.
Qed.

Section pages.
Context `{SerdeJson IndexDef} `{SerdeJson LookupCursor, !SerdeJsonLaws LookupCursor}.

(** JSON of a cursor whose integers fit does not fail, and no JSON text is empty. *)
Definition cursor_fits (c : LookupCursor) : Prop := cur_version c = 1 /\ u32_ok (cur_space_id c).
Context {Htotal : SerdeJsonTotal LookupCursor cursor_fits}.
Context (Hempty : exists e, json_from_slice (A := LookupCursor) [] = Err e).

Context (edge : bool) (part : Z) (def : IndexDef) (vs : list IndexValue) (m : IndexManager) (s : MemoryKVStore).
Abbreviation ty := (if edge then IndexEdge else IndexTag).
Context (Hwf : mem_wf s) (Hix : index_wf ty part (idx_id def) (length (fields def)) s).
Context (Hpart : part <> 0) (Hvs : (length vs <= length (fields def))%nat) (Hty : index_type def = ty).
Context (Hspace : u32_ok (idx_space_id def)).

Abbreviation header := (index_prefix ty part (idx_id def)).
Abbreviation prefix := (header ++ IndexValue.encode_all vs).
Abbreviation tail := (if edge then 24%nat else 8%nat).

(** The rows of the lookup, in key order. *)
Definition lookup_rows : list kv_pair := List.filter (fun kv => starts_with prefix kv.1) (data s).

Lemma lookup_rows_wf : om_wf lookup_rows.
Proof. apply om_filter_wf, Hwf. Qed.

Lemma lookup_rows_valid kv : kv ∈ lookup_rows -> validate_key (length header) tail (fields def) prefix kv.1 = Ok tt.
Proof.
  destruct kv as [k v]. unfold lookup_rows. rewrite list_elem_of_In, filter_In, <- list_elem_of_In. cbn [fst].
  intros [Hin Hp]. apply om_get_elem in Hin; [|apply Hwf].
  destruct (Hix k v Hin (starts_with_app_l _ _ _ Hp)) as (ws & t & -> & Hn & Hws & Ht).
  unfold validate_key. rewrite Hp. replace tail with (trailer_len ty) by by destruct edge.
  by rewrite entry_layout.
Qed.

(** The cursor continues after the first [j] rows. *)
Definition cursor_at (j : nat) (cursor : bytes) : Prop :=
  exists start, page_start (length header) tail def prefix cursor = Ok start /\
  forall stop, prefix_successor prefix = Some stop ->
    List.filter (fun kv : kv_pair => kleb start kv.1 && kltb kv.1 stop) (data s) = drop j lookup_rows.

Lemma cursor_at_first : cursor_at 0 [].
Proof.
  exists prefix. split; [done|]. intros stop Hstop. rewrite drop_0. unfold lookup_rows. apply List.filter_ext.
  intros [k v]. by apply prefix_range.
Qed.

(** The cursor a page returns continues after its last row. *)
Lemma cursor_at_next j k v cursor :
  lookup_rows !! j = Some (k, v) ->
  json_to_vec {| cur_version := 1; cur_space_id := idx_space_id def; cur_index_name := index_name def;
    cur_schema_name := schema_name def; cur_fields := fields def; cur_prefix := prefix; last_key := k |} = Ok cursor ->
  cursor_at (S j) cursor.
Proof.
  intros Hj Hc. pose proof (from_slice_to_vec _ _ Hc) as Hd. exists (k ++ [z2b 0]).
  pose proof (list_elem_of_lookup_2 _ _ _ Hj) as Hin. split.
  - unfold page_start. destruct cursor as [|b cursor].
    { destruct Hempty as [e He]. by rewrite He in Hd. }
    rewrite Hd. unfold cursor_matches. cbn [cur_version cur_space_id cur_index_name cur_schema_name cur_fields cur_prefix last_key].
    rewrite !bool_decide_eq_true_2, !Z.eqb_refl by done. cbn [negb andb].
    pose proof (lookup_rows_valid (k, v) Hin) as Hv. cbn [fst] in Hv. by rewrite Hv.
  - intros stop Hstop. rewrite <- (filter_drop_sorted lookup_rows j k v lookup_rows_wf Hj).
    unfold lookup_rows. rewrite filter_filter. apply List.filter_ext. intros [k' v']. cbn [fst].
    rewrite <- (prefix_range _ _ k' Hstop).
    assert (Hk : kleb (k ++ [z2b 0]) k' = true -> kleb prefix k' = true).
    { intros Hle. unfold lookup_rows in Hin. rewrite list_elem_of_In, filter_In in Hin. destruct Hin as [_ Hp].
      apply (kleb_trans _ k); [by apply starts_with_kleb|]. apply (kleb_trans _ (k ++ [z2b 0])); [|done].
      apply starts_with_kleb, starts_with_app. }
    destruct (kleb (k ++ [z2b 0]) k'); [rewrite Hk by done|]; destruct (kleb prefix k'), (kltb k' stop); done.
Qed.

Definition page_size (lim : nat) : nat := if (lim =? 0)%nat then 1024%nat else lim.

Lemma page_size_pos lim : (0 < page_size lim)%nat.
Proof. unfold page_size. destruct (Nat.eqb_spec lim 0); lia. Qed.

(** One page: the next rows, and a cursor after them when there are more. *)
Lemma page_run j lim cursor :
  cursor_at j cursor -> Z.of_nat (page_size lim) + 1 < two64 ->
  exists next, lookup_page_keys part def vs lim cursor edge (m, s) =
      (Ok ((take (page_size lim) (drop j lookup_rows)).*1, next, (page_size lim <? length (drop j lookup_rows))%nat), (m, s)) /\
    ((page_size lim < length (drop j lookup_rows))%nat -> cursor_at (j + page_size lim) next).
Proof.
  intros (start & Hstart & Hrows) Hlim. unfold lookup_page_keys. cbv zeta.
  rewrite (proj2 (Z.eqb_neq part 0)), (proj2 (Nat.ltb_ge _ _)), bool_decide_eq_true_2 by done. cbn [orb negb].
  rewrite Hstart. destruct (header_successor ty part (idx_id def) (IndexValue.encode_all vs)) as [stop Hstop].
  rewrite Hstop. fold (page_size lim). rewrite (proj2 (Z.leb_gt _ _)) by done.
  set (R := drop j lookup_rows). specialize (Hrows stop Hstop). fold R in Hrows.
  assert (Hscan : index_store (kv_scan_range start stop (Some (S (page_size lim)))) (m, s) = (Ok (take (S (page_size lim)) R), (m, s))).
  { unfold index_store. cbn [kv_scan_range memory_provided]. unfold Memory.scan_range, om_range. rewrite Hrows.
    rewrite (bool_decide_eq_false_2 (Some _ = _)) by done. rewrite orb_false_r.
    destruct (kleb stop start) eqn:Hle; [|done]. enough (R = []) as -> by done. rewrite <- Hrows.
    apply List.incl_l_nil. intros kv [_ Hkv]%filter_In. apply andb_true_iff in Hkv as [H1 H2].
    apply kltb_iff in H2. pose proof (kleb_lt_trans _ _ _ (kleb_trans _ _ _ Hle H1) H2) as Hc. by rewrite cmp_refl in Hc. }
  unfold st_bind. rewrite Hscan.
  rewrite (collect_map _ (fun _ => tt)) by
    (intros kv Hkv; apply lookup_rows_valid; rewrite <- (take_drop j lookup_rows); apply elem_of_app; right; fold R;
     rewrite <- (take_drop (S (page_size lim)) R); apply elem_of_app; by left).
  assert (Hlen : (page_size lim <? length (take (S (page_size lim)) R))%nat = (page_size lim <? length R)%nat).
  { rewrite length_take. destruct (Nat.ltb_spec (page_size lim) (length R));
      [apply Nat.ltb_lt|apply Nat.ltb_ge]; lia. }
  rewrite Hlen. assert (Hkeys : take (page_size lim) (take (S (page_size lim)) R).*1 = (take (page_size lim) R).*1).
  { rewrite <- fmap_take, take_take. f_equal. f_equal. lia. }
  rewrite Hkeys. destruct (Nat.ltb_spec (page_size lim) (length R)) as [Hmore|Hlast]; [|by eexists; split; [done|lia]].
  pose proof (page_size_pos lim) as Hpos.
  destruct (lookup_lt_is_Some_2 R (page_size lim - 1)) as [[k v] Hk]; [lia|].
  assert (Hlk : last (take (page_size lim) R).*1 = Some k).
  { rewrite last_lookup, length_fmap, length_take, list_lookup_fmap.
    replace (pred (Nat.min (page_size lim) (length R))) with (page_size lim - 1)%nat by lia.
    rewrite lookup_take_lt by lia. by rewrite Hk. }
  rewrite Hlk. cbn [from_option id].
  destruct (to_vec_total {| cur_version := 1; cur_space_id := idx_space_id def; cur_index_name := index_name def;
    cur_schema_name := schema_name def; cur_fields := fields def; cur_prefix := prefix; last_key := k |}) as [next Hn]; [done|].
  exists next. rewrite Hn. split; [done|]. intros _.
  replace (j + page_size lim)%nat with (S (j + (page_size lim - 1))) by lia.
  apply (cursor_at_next _ k v); [|done]. unfold R in Hk. by rewrite lookup_drop in Hk.
Qed.

(** A client that follows the cursors until there are no more pages. *)
Fixpoint all_pages (fuel lim : nat) (cursor : bytes) : IndexManager * MemoryKVStore ->
    Result IndexError (option (list (list bytes))) * (IndexManager * MemoryKVStore) :=
  match fuel with
  | O => st_ret None
  | S fuel' =>
      r <-! lookup_page_keys part def vs lim cursor edge ;;
      let '(keys, next, has_more) := r in
      if has_more then
        rest <-! all_pages fuel' lim next ;;
        st_ret ((fun pages => keys :: pages) <$> rest)
      else st_ret (Some [keys])
  end.

Lemma all_pages_from fuel j lim cursor :
  cursor_at j cursor -> Z.of_nat (page_size lim) + 1 < two64 -> (length (drop j lookup_rows) < fuel)%nat ->
  exists pages, all_pages fuel lim cursor (m, s) = (Ok (Some pages), (m, s)) /\
    concat pages = (drop j lookup_rows).*1 /\ Forall (fun p => length p <= page_size lim)%nat pages.
Proof.
  revert j cursor. induction fuel as [|fuel IH]; intros j cursor Hc Hlim Hfuel; [lia|].
  destruct (page_run j lim cursor Hc Hlim) as (next & Hrun & Hnext). cbn [all_pages]. unfold st_bind at 1. rewrite Hrun.
  assert (Hlen : (length (take (page_size lim) (drop j lookup_rows)).*1 <= page_size lim)%nat)
    by (rewrite length_fmap, length_take; lia).
  destruct (Nat.ltb_spec (page_size lim) (length (drop j lookup_rows))) as [Hmore|Hlast].
  - pose proof (page_size_pos lim) as Hpos.
    destruct (IH (j + page_size lim)%nat next) as (pages & Hp & Hcat & Hall); [by apply Hnext|done| |].
    { rewrite <- drop_drop, length_drop. lia. }
    exists ((take (page_size lim) (drop j lookup_rows)).*1 :: pages). unfold st_bind. rewrite Hp. split; [done|].
    split; [|by constructor]. cbn [concat]. rewrite Hcat, <- drop_drop, <- fmap_app. by rewrite take_drop.
  - eexists. split; [done|]. split; [|by constructor]. cbn [concat]. rewrite app_nil_r. by rewrite take_ge.
Qed.

(** C28: following the cursors from the first page reaches the last page after
    finitely many steps, and the pages, each no longer than the page size, are
    together exactly the keys of the matching index entries in key order: none is
    skipped and none is repeated. *)
Theorem pages_complete lim :
  Z.of_nat (page_size lim) + 1 < two64 ->
  exists pages, all_pages (S (length (data s))) lim [] (m, s) = (Ok (Some pages), (m, s)) /\
    concat pages = lookup_rows.*1 /\ Forall (fun p => length p <= page_size lim)%nat pages /\
    om_wf lookup_rows /\
    forall k, k ∈ concat pages <-> starts_with prefix k = true /\ om_get k (data s) <> None.
Proof.
  intros Hlim. destruct (all_pages_from (S (length (data s))) 0 lim [] cursor_at_first Hlim) as (pages & Hp & Hcat & Hall).
  { rewrite drop_0. unfold lookup_rows. pose proof (List.filter_length_le (fun kv : kv_pair => starts_with prefix kv.1) (data s)). lia. }
  exists pages. split; [done|]. rewrite drop_0 in Hcat. split; [done|]. split; [done|]. split; [apply lookup_rows_wf|].
  intros k. rewrite Hcat, list_elem_of_fmap. unfold lookup_rows. split.
  - intros ([k' v] & -> & Hin). rewrite list_elem_of_In, filter_In, <- list_elem_of_In in Hin. destruct Hin as [Hin Hs].
    split; [done|]. apply om_get_elem in Hin; [|apply Hwf]. cbn [fst]. by rewrite Hin.
  - intros [Hs Hg]. destruct (om_get k (data s)) as [v|] eqn:E; [|done]. exists (k, v). split; [done|].
    rewrite list_elem_of_In, filter_In, <- list_elem_of_In. split; [|done]. apply om_get_elem; [apply Hwf|done].
Qed.
End pages.

(** ** A concrete index *)

Definition age_index : IndexDef :=
  {| idx_id := 7; idx_space_id := 1; index_name := bs "by_age"; index_type := IndexTag; schema_id := 2;
     schema_name := bs "person"; fields := [bs "age"]; field_indices := [0%nat] |}.

(** Vertices 10 and 11 of age 30 and vertex 12 of age 41. *)
Definition age_store : MemoryKVStore :=
  (Memory.batch_put [(KeyUtils.tag_index_key 1 7 [IVInt 30] 10, []); (KeyUtils.tag_index_key 1 7 [IVInt 30] 11, []);
                     (KeyUtils.tag_index_key 1 7 [IVInt 41] 12, [])] Memory.new).2.

Lemma age_store_wf : mem_wf age_store /\ index_wf IndexTag 1 7 1 age_store.
Proof.
  assert (Hwf : mem_wf age_store).
  { repeat split; auto with kv. unfold age_store, Memory.batch_put. cbn [snd data with_data]. apply om_insert_all_wf. constructor. }
  split; [done|]. intros k v Hg _. apply om_get_elem in Hg; [|apply Hwf].
  assert (Hd : data age_store = [(entry_key IndexTag 1 7 [IVInt 30] (i64_to_be 10), []);
    (entry_key IndexTag 1 7 [IVInt 30] (i64_to_be 11), []); (entry_key IndexTag 1 7 [IVInt 41] (i64_to_be 12), [])])
    by by vm_compute.
  rewrite Hd in Hg.
  repeat (apply elem_of_cons in Hg as [Hg|Hg];
    [apply (f_equal fst) in Hg; cbn [fst] in Hg; eexists _, _; split; [exact Hg|];
     split; [done|]; split; [repeat constructor; by vm_compute|apply length_be_bytes]|]).
  by apply elem_of_nil in Hg.
Qed.

Lemma has_age_entry : has_entry IndexTag 1 7 [IVInt 30] (i64_to_be 10) age_store.
Proof. unfold has_entry. by vm_compute. Qed.

#[local] Existing Instance ref_json.
#[local] Existing Instance ref_json_laws.

Lemma index_lookup_exact_witness :
  exists ts, lookup_tag 1 age_index [IVInt 30] 0 (manager_new, age_store) = (Ok (vid_of <$> ts), (manager_new, age_store)) /\
    i64_to_be 10 ∈ ts.
Proof.
  destruct (index_lookup_exact IndexTag 1 age_index [IVInt 30] 0 manager_new age_store (proj1 age_store_wf)
    (proj2 age_store_wf) ltac:(repeat constructor; by vm_compute) ltac:(simpl; lia)) as (ts & Hh & H & _).
  exists ts. split; [exact (H eq_refl)|]. apply Hh. split; [apply length_be_bytes|]. exists [IVInt 30].
  split; [done|]. split; [repeat constructor; by vm_compute|]. split; [exact has_age_entry|]. by repeat constructor.
Defined.

Lemma range_lookup_exact_witness :
  exists ts, lookup_tag_range 1 age_index (IVInt 18) GreaterThan 0 (manager_new, age_store) =
      (Ok (vid_of <$> ts), (manager_new, age_store)) /\ i64_to_be 10 ∈ ts.
Proof.
  destruct (range_lookup_exact IndexTag 1 age_index (IVInt 18) GreaterThan 0 manager_new age_store (proj1 age_store_wf)
    (proj2 age_store_wf) eq_refl ltac:(by vm_compute)) as (ts & Hh & H & _).
  exists ts. split; [exact (H eq_refl)|]. apply Hh. split; [apply length_be_bytes|]. exists [IVInt 30].
  split; [done|]. split; [repeat constructor; by vm_compute|]. split; [exact has_age_entry|]. by exists (IVInt 30).
Defined.

Lemma pages_complete_witness :
  exists pages, all_pages false 1 age_index [IVInt 30] (S (length (data age_store))) 1 [] (manager_new, age_store) =
      (Ok (Some pages), (manager_new, age_store)) /\ Forall (fun p => length p <= 1)%nat pages.
Proof.
  destruct (pages_complete (Htotal := ref_json_total _ _) (ref_read_empty _) false 1 age_index [IVInt 30] manager_new
    age_store (proj1 age_store_wf) (proj2 age_store_wf) ltac:(discriminate) ltac:(simpl; lia) eq_refl
    ltac:(by vm_compute) 1 ltac:(by vm_compute)) as (pages & Hp & _ & Hl & _).
  exists pages. split; [exact Hp|exact Hl].
Defined.
