(* ===== verification/IndexDefs.v ===== *)
(** * Persistence of index definitions

    The definitions an [IndexManager] holds in memory are those persisted in the
    store, so that a manager created later over the same store - after a restart
    or for the next query - has the same indexes. *)

From Stdlib Require Import ZArith Lia Strings.Byte Strings.String.
From stdpp Require Import base tactics sorting gmap list.
From S2P Require Import Prelude Codecs OrdMap History KVStore KVStoreFacts Text StorageKey IndexManager.

Definition def_key (d : IndexDef) : Z * Z := (idx_space_id d, idx_id d).
Definition def_name (d : IndexDef) : Z * bytes := (idx_space_id d, index_name d).

(** Identifiers below the largest [u32]. *)
Definition def_ok (d : IndexDef) : Prop := u32_ok (idx_space_id d) /\ 0 <= idx_id d < two32 - 1.

Section insert_all.
Context {K V D : Type} `{Countable K} (key : D -> K) (val : D -> V).

Definition insert_all (m : gmap K V) (ds : list D) : gmap K V := foldl (fun m d => <[key d := val d]> m) m ds.

Lemma insert_all_lookup m ds k v :
  NoDup (key <$> ds) ->
  insert_all m ds !! k = Some v <->
  (exists d, d ∈ ds /\ key d = k /\ val d = v) \/ ((forall d, d ∈ ds -> key d <> k) /\ m !! k = Some v).
Proof.
  unfold insert_all. revert m. induction ds as [|d ds IH]; intros m Hnd; cbn [foldl].
  { split; [right; split; [by intros d ?%elem_of_nil|done]|]. by intros [(d & ?%elem_of_nil & _)|[_ ?]]. }
  apply NoDup_cons in Hnd as [Hd Hnd]. rewrite IH by done. setoid_rewrite elem_of_cons. split.
  - intros [(d' & Hin & Hk)|[Hne Hm]]; [left; exists d'; auto|]. destruct (decide (key d = k)) as [<-|Hdk].
    + rewrite lookup_insert_eq in Hm. left. exists d. split; [by left|]. by injection Hm.
    + rewrite lookup_insert_ne in Hm by done. right. split; [|done]. by intros d' [->|?]; auto.
  - intros [(d' & [->|Hin] & Hk & Hv)|[Hne Hm]].
    + right. split; [|by rewrite <- Hk, Hv, lookup_insert_eq]. intros d'' Hin E. apply Hd. rewrite Hk, <- E.
      by apply list_elem_of_fmap_2.
    + left. exists d'. auto.
    + right. split; [auto|]. rewrite lookup_insert_ne; [done|]. apply Hne. by left.
Qed.
End insert_all.

Section defs.
Context `{SerdeJson IndexDef, !SerdeJsonLaws IndexDef, !SerdeJsonTotal IndexDef def_ok} `{SerdeJson LookupCursor}.

(** The definition is in the store under its own key. *)
Definition stored_def (s : MemoryKVStore) (d : IndexDef) : Prop :=
  def_ok d /\ exists b, om_get (index_def_key (idx_space_id d) (idx_id d)) (data s) = Some b /\ json_from_slice b = Ok d.

(** Every row under the prefix is such a definition, and no two of a space share a name. *)
Definition defs_ok (s : MemoryKVStore) : Prop :=
  (forall k v, om_get k (data s) = Some v -> starts_with INDEX_DEF_PREFIX k = true ->
     exists d, json_from_slice v = Ok d /\ def_ok d /\ k = index_def_key (idx_space_id d) (idx_id d)) /\
  (forall d1 d2, stored_def s d1 -> stored_def s d2 -> def_name d1 = def_name d2 -> d1 = d2).

(** The manager's maps are the definitions of the store. *)
Record coherent (m : IndexManager) (s : MemoryKVStore) : Prop := {
  coh_loaded : loaded m = true;
  coh_defs : forall k d, indexes m !! k = Some d <-> stored_def s d /\ def_key d = k;
  coh_names : forall k id, index_names m !! k = Some id <-> exists d, stored_def s d /\ def_name d = k /\ idx_id d = id;
  coh_next : forall d, stored_def s d -> idx_id d < next_index_id m;
  coh_pos : 1 <= next_index_id m
}.

Lemma index_def_key_inj a b c d :
  u32_ok a -> u32_ok b -> u32_ok c -> u32_ok d -> index_def_key a b = index_def_key c d -> a = c /\ b = d.
Proof.
  intros Ha Hb Hc Hd E. unfold index_def_key in E. apply app_inv_head in E.
  assert (Hj : join_colon [dec a; dec b] = join_colon [dec c; dec d]) by exact E.
  apply join_colon_inj in Hj; try done; try (repeat constructor; apply dec_colon_free).
  injection Hj as H1 H2. unfold u32_ok, two32 in *.
  split; [apply dec_inj in H1|apply dec_inj in H2]; try done; unfold i64_ok, two63; lia.
Qed.

Lemma def_ok_u32 d : def_ok d -> u32_ok (idx_space_id d) /\ u32_ok (idx_id d).
Proof. intros [Hs Hi]. split; [done|]. unfold u32_ok. lia. Qed.

Lemma stored_def_key s d1 d2 : stored_def s d1 -> stored_def s d2 -> def_key d1 = def_key d2 -> d1 = d2.
Proof.
  intros [_ (b1 & H1 & J1)] [_ (b2 & H2 & J2)] E. injection E as E1 E2. rewrite E1, E2 in H1. congruence.
Qed.

(** Loading collects the definitions of the rows. *)
Lemma load_rows_defs rows ds ixs names mx n :
  Forall2 (fun kv d => json_from_slice (snd kv) = Ok d) rows ds ->
  foldl load_row (ixs, names, mx, n) rows =
  (insert_all def_key id ixs ds, insert_all def_name idx_id names ds,
   foldl (fun m d => Z.max m (idx_id d)) mx ds, (n + length ds)%nat).
Proof.
  unfold insert_all. intros Hf. revert ixs names mx n. induction Hf as [|[k v] d rows ds Hd _ IH]; intros ixs names mx n.
  { simpl. by rewrite Nat.add_0_r. }
  cbn [snd] in Hd. cbn [foldl load_row snd]. rewrite Hd. rewrite IH. cbn [length]. by rewrite Nat.add_succ_r.
Qed.

Lemma foldl_max ds mx : mx <= foldl (fun m d => Z.max m (idx_id d)) mx ds /\
  (forall d, d ∈ ds -> idx_id d <= foldl (fun m d => Z.max m (idx_id d)) mx ds) /\
  (Forall def_ok ds -> mx < two32 - 1 -> foldl (fun m d => Z.max m (idx_id d)) mx ds < two32 - 1).
Proof.
  revert mx. induction ds as [|d ds IH]; intros mx; cbn [foldl].
  { split; [lia|]. split; [by intros d ?%elem_of_nil|done]. }
  destruct (IH (Z.max mx (idx_id d))) as (H1 & H2 & H3). split; [lia|]. split.
  - intros d' [->|Hin]%elem_of_cons; [lia|by apply H2].
  - intros [[_ Hd] Hds]%Forall_cons Hmx. apply H3; [done|lia].
Qed.

(** The stored definitions as a list, in key order. *)
Lemma stored_defs_list s :
  mem_wf s -> defs_ok s ->
  exists rows ds, Memory.scan_prefix INDEX_DEF_PREFIX s = (Ok rows, s) /\
    Forall2 (fun kv d => json_from_slice (snd kv) = Ok d) rows ds /\
    (forall d, d ∈ ds <-> stored_def s d) /\ NoDup (def_key <$> ds) /\ NoDup (def_name <$> ds).
Proof.
  intros [Hwf Hh] [Hrows Hnames]. exists (List.filter (fun kv => starts_with INDEX_DEF_PREFIX kv.1) (data s)).
  set (rows := List.filter _ _). assert (Hwr : om_wf rows) by by apply om_filter_wf.
  assert (Hin : forall k v, (k, v) ∈ rows <-> om_get k (data s) = Some v /\ starts_with INDEX_DEF_PREFIX k = true).
  { intros k v. unfold rows. by rewrite list_elem_of_In, filter_In, <- list_elem_of_In, om_get_elem. }
  assert (Hds : exists ds, Forall2 (fun kv d => json_from_slice (snd kv) = Ok d /\ def_ok d /\
    fst kv = index_def_key (idx_space_id d) (idx_id d)) rows ds).
  { assert (Hr : forall kv, kv ∈ rows -> exists d, json_from_slice (snd kv) = Ok d /\ def_ok d /\
      fst kv = index_def_key (idx_space_id d) (idx_id d)).
    { intros [k v] [Hg Hp]%Hin. by apply Hrows. }
    clear -Hr. induction rows as [|kv rows IH]; [by exists []|].
    destruct IH as [ds Hds]; [intros; apply Hr; by right|]. destruct (Hr kv) as [d Hd]; [left|].
    exists (d :: ds). by constructor. }
  destruct Hds as [ds Hds]. exists ds.
  assert (Hmem : forall d, d ∈ ds <-> stored_def s d).
  { intros d. split.
    - intros Hd. apply list_elem_of_lookup_1 in Hd as [i Hi].
      destruct (Forall2_lookup_r _ _ _ _ _ Hds Hi) as ([k v] & Hk & Hj & Hok & Ek). cbn [fst snd] in *. subst k.
      split; [done|]. exists v. split; [|done]. by apply list_elem_of_lookup_2, Hin in Hk as [? _].
    - intros [Hok (b & Hg & Hj)].
      assert (Hk : (index_def_key (idx_space_id d) (idx_id d), b) ∈ rows).
      { apply Hin. split; [done|]. unfold index_def_key. apply starts_with_app. }
      apply list_elem_of_lookup_1 in Hk as [i Hi].
      destruct (Forall2_lookup_l _ _ _ _ _ Hds Hi) as (d' & Hd' & Hj' & _). cbn [snd] in Hj'.
      rewrite Hj in Hj'. injection Hj' as <-. by eapply list_elem_of_lookup_2. }
  assert (Hnd : NoDup (def_key <$> ds)).
  { clear -Hds Hwr. induction Hds as [|[k v] d rows ds (_ & Hok & Ek) Hds IH]; [constructor|].
    cbn [fmap list_fmap]. constructor; [|by apply IH; apply om_wf_tail in Hwr].
    intros (d' & Ed & Hd')%list_elem_of_fmap. apply list_elem_of_lookup_1 in Hd' as [i Hi].
    destruct (Forall2_lookup_r _ _ _ _ _ Hds Hi) as ([k' v'] & Hk' & _ & Hok' & Ek'). cbn [fst] in *.
    apply list_elem_of_lookup_2 in Hk'. pose proof (om_wf_head _ _ _ _ _ Hwr Hk') as Hlt.
    injection Ed as E1 E2. rewrite Ek, Ek', E1, E2, cmp_refl in Hlt. done. }
  split; [unfold Memory.scan_prefix; by rewrite prefix_walk|]. split; [by eapply Forall2_impl; [exact Hds|intros ?? (?&_)]|].
  split; [done|]. split; [done|].
  apply NoDup_fmap_2_strong; [|by eapply NoDup_fmap_1]. intros x y Hx Hy E. apply Hnames; [by apply Hmem..|done].
Qed.

(** A fresh manager loads exactly the definitions of the store. *)
Lemma load_coherent s :
  mem_wf s -> defs_ok s -> exists m, ensure_loaded (manager_new, s) = (Ok tt, (m, s)) /\ coherent m s.
Proof.
  intros Hwf Hok. destruct (stored_defs_list s Hwf Hok) as (rows & ds & Hscan & Hf & Hmem & Hnk & Hnn).
  pose proof (load_rows_defs rows ds ∅ ∅ 0 0 Hf) as Hload. destruct (foldl_max ds 0) as (_ & Hmax & Hmx).
  assert (Hds : Forall def_ok ds) by (apply Forall_forall; intros d Hd; by apply Hmem in Hd as [? _]).
  specialize (Hmx Hds ltac:(by vm_compute)). destruct (foldl_max ds 0) as (Hge & _ & _).
  set (mx := foldl (fun m d => Z.max m (idx_id d)) 0 ds) in *.
  eexists. split.
  - unfold ensure_loaded, st_bind, get_manager. cbn [loaded manager_new]. unfold index_store. cbn [kv_scan_prefix memory_required].
    rewrite Hscan. cbn [indexes index_names manager_new]. rewrite Hload. reflexivity.
  - split; cbn [loaded indexes index_names next_index_id manager_new].
    + done.
    + intros k d. rewrite insert_all_lookup by done. rewrite lookup_empty. unfold id. rewrite <- Hmem. split.
      * intros [(d' & Hd & Hk & <-)|[_ ?]]; [by split|done].
      * intros [Hd Hk]. left. by exists d.
    + intros k i. rewrite insert_all_lookup by done. rewrite lookup_empty. setoid_rewrite <- Hmem. split.
      * intros [Hd|[_ ?]]; done.
      * intros Hd. by left.
    + intros d Hd. apply Hmem in Hd. specialize (Hmax d Hd).
      assert (Hn : (0 <? 0 + length ds)%nat = true) by (apply Nat.ltb_lt; destruct ds; [by apply elem_of_nil in Hd|simpl; lia]).
      rewrite Hn. unfold as_u32. rewrite Z.mod_small by (unfold two32 in *; lia). lia.
    + destruct (0 <? 0 + length ds)%nat; lia.
Qed.

Lemma coherent_ext m1 m2 s : coherent m1 s -> coherent m2 s -> indexes m1 = indexes m2 /\ index_names m1 = index_names m2.
Proof.
  intros [_ D1 N1 _ _] [_ D2 N2 _ _]. split; apply map_eq; intros k; apply option_eq; intros x.
  - by rewrite D1, D2.
  - by rewrite N1, N2.
Qed.

(** Storing a definition under a fresh identifier and name. *)
Lemma store_def s d b :
  mem_wf s -> defs_ok s -> def_ok d -> json_to_vec d = Ok b ->
  (forall d', stored_def s d' -> def_key d' <> def_key d /\ def_name d' <> def_name d) ->
  let s' := with_data s (om_insert (index_def_key (idx_space_id d) (idx_id d)) b (data s)) in
  mem_wf s' /\ defs_ok s' /\ forall d', stored_def s' d' <-> d' = d \/ stored_def s d'.
Proof.
  intros [Hwf Hh] [Hrows Hnames] Hok Hb Hfresh s'. pose proof (from_slice_to_vec d b Hb) as Hj.
  pose proof (fun k => om_get_insert_decide (index_def_key (idx_space_id d) (idx_id d)) b (data s) k Hwf) as Hget.
  assert (Hst : forall d', stored_def s' d' <-> d' = d \/ stored_def s d').
  { intros d'. split.
    - intros [Hok' (b' & Hg & Hj')]. unfold s' in Hg. cbn [data with_data] in Hg. rewrite Hget in Hg.
      case_bool_decide as E.
      + left. congruence.
      + right. split; [done|]. by exists b'.
    - intros [->|[Hok' (b' & Hg & Hj')]].
      + split; [done|]. exists b. unfold s'. cbn [data with_data]. by rewrite Hget, bool_decide_eq_true_2.
      + split; [done|]. exists b'. unfold s'. cbn [data with_data]. rewrite Hget, bool_decide_eq_false_2; [done|].
        intros E. apply index_def_key_inj in E as [E1 E2]; try (by apply def_ok_u32).
        destruct (Hfresh d') as [Hf _]; [split; [done|by exists b']|]. apply Hf. unfold def_key. congruence. }
  split; [split; [by apply om_insert_wf|done]|]. split; [|done]. split.
  - intros k v. unfold s'. cbn [data with_data]. rewrite Hget. case_bool_decide as E; [|by apply Hrows].
    intros [= <-] _. by exists d.
  - intros d1 d2 H1 H2 E. apply Hst in H1, H2. destruct H1 as [->|H1], H2 as [->|H2]; [done| | |by apply Hnames].
    + by destruct (Hfresh d2 H2) as [_ []].
    + by destruct (Hfresh d1 H1) as [_ []].
Qed.

Lemma create_coherent ty sp name sid sname fs fis m s :
  mem_wf s -> defs_ok s -> coherent m s -> u32_ok sp -> next_index_id m < two32 - 1 -> index_names m !! (sp, name) = None ->
  exists m' s', create_index ty sp name sid sname fs fis (m, s) = (Ok (next_index_id m), (m', s')) /\
    mem_wf s' /\ defs_ok s' /\ coherent m' s' /\
    exists d, index_name d = name /\ idx_id d = next_index_id m /\ index_type d = ty /\ fields d = fs /\
      indexes m' = <[(sp, next_index_id m) := d]> (indexes m) /\
      index_names m' = <[(sp, name) := next_index_id m]> (index_names m).
Proof.
  intros Hwf Hok [Hl Hd Hn Hnext Hpos] Hsp Hid Hfree.
  set (d := {| idx_id := next_index_id m; idx_space_id := sp; index_name := name; index_type := ty;
               schema_id := sid; schema_name := sname; fields := fs; field_indices := fis |}).
  assert (Hdok : def_ok d) by (split; [done|simpl; lia]). destruct (to_vec_total d Hdok) as [b Hb].
  destruct (store_def s d b Hwf Hok Hdok Hb) as (Hwf' & Hok' & Hst).
  { intros d' Hd'. split.
    - intros E. injection E as _ E. specialize (Hnext d' Hd'). simpl in E. lia.
    - intros E. enough (index_names m !! (sp, name) = Some (idx_id d')) by congruence. apply Hn. by exists d'. }
  set (s' := with_data s (om_insert (index_def_key (idx_space_id d) (idx_id d)) b (data s))) in *.
  exists (mkManager (<[(sp, next_index_id m) := d]> (indexes m)) (<[(sp, name) := next_index_id m]> (index_names m))
    (next_index_id m + 1) true), s'.
  split; [|split; [done|split; [done|split; [|by exists d]]]].
  - unfold create_index, ensure_loaded, check_name_free, register_index, persist_def, st_bind, get_manager, set_manager.
    rewrite Hl. unfold st_ret. rewrite Hfree. cbn [indexes index_names next_index_id loaded]. fold d. rewrite Hb.
    unfold index_store. cbn [kv_put memory_required]. unfold Memory.put.
    rewrite Hl. unfold as_u32. rewrite Z.mod_small by (unfold two32 in *; lia). reflexivity.
  - split; cbn [loaded indexes index_names next_index_id].
    + done.
    + intros k d'. rewrite Hst. destruct (decide ((sp, next_index_id m) = k)) as [<-|Hk].
      * rewrite lookup_insert_eq. split.
        -- intros [= <-]. split; [by left|done].
        -- intros [[->|Hd'] E]; [done|]. exfalso. specialize (Hnext d' Hd'). injection E as _ E. lia.
      * rewrite lookup_insert_ne, Hd by done. split; [intros [? ?]; split; [by right|done]|].
        intros [[->|?] E]; [by destruct Hk|done].
    + intros k i. setoid_rewrite Hst. destruct (decide ((sp, name) = k)) as [<-|Hk].
      * rewrite lookup_insert_eq. split; [intros [= <-]; exists d; by split; [left|]|].
        intros (d' & [->|Hd'] & E & <-); [done|]. exfalso.
        assert (Hc : index_names m !! (sp, name) = Some (idx_id d')) by (apply Hn; by exists d'). congruence.
      * rewrite lookup_insert_ne, Hn by done. split.
        -- intros (d' & Hd' & E). exists d'. by split; [right|].
        -- intros (d' & [->|Hd'] & E & Hi); [by destruct Hk|]. by exists d'.
    + intros d' [->|Hd']%Hst; [simpl; lia|]. specialize (Hnext d' Hd'). lia.
    + lia.
Qed.

(** Removing a definition's row. *)
Lemma remove_def s d :
  mem_wf s -> defs_ok s -> stored_def s d ->
  let s' := with_data s (om_remove (index_def_key (idx_space_id d) (idx_id d)) (data s)) in
  mem_wf s' /\ defs_ok s' /\ forall d', stored_def s' d' <-> stored_def s d' /\ d' <> d.
Proof.
  intros [Hwf Hh] [Hrows Hnames] Hd s'.
  assert (Hget : forall k, om_get k (om_remove (index_def_key (idx_space_id d) (idx_id d)) (data s)) =
    if bool_decide (k = index_def_key (idx_space_id d) (idx_id d)) then None else om_get k (data s)).
  { intros k. rewrite om_get_remove by done. destruct (cmp k _) eqn:E.
    - apply cmp_eq_iff in E. by rewrite bool_decide_eq_true_2.
    - apply cmp_lt_neq in E. by rewrite bool_decide_eq_false_2.
    - apply cmp_gt_iff, cmp_lt_neq in E. by rewrite bool_decide_eq_false_2. }
  assert (Hst : forall d', stored_def s' d' <-> stored_def s d' /\ d' <> d).
  { intros d'. split.
    - intros [Hok' (b' & Hg & Hj')]. unfold s' in Hg. cbn [data with_data] in Hg. rewrite Hget in Hg.
      case_bool_decide as E; [done|]. split; [split; [done|by exists b']|]. by intros ->.
    - intros [[Hok' (b' & Hg & Hj')] Hne]. split; [done|]. exists b'. unfold s'. cbn [data with_data].
      rewrite Hget, bool_decide_eq_false_2; [done|]. intros E. apply Hne, (stored_def_key s); [split; [done|by exists b']|done|].
      apply index_def_key_inj in E as [E1 E2]; try (by apply def_ok_u32); try (apply def_ok_u32, Hd).
      unfold def_key. congruence. }
  split; [split; [by apply om_remove_wf|done]|]. split; [|done]. split.
  - intros k v. unfold s'. cbn [data with_data]. rewrite Hget. case_bool_decide; [done|]. by apply Hrows.
  - intros d1 d2 [H1 _]%Hst [H2 _]%Hst. by apply Hnames.
Qed.

Lemma get_index_coherent sp name m s :
  coherent m s ->
  exists r, get_index sp name (m, s) = (Ok r, (m, s)) /\
    match r with
    | Some d => stored_def s d /\ def_name d = (sp, name)
    | None => index_names m !! (sp, name) = None
    end.
Proof.
  intros [Hl Hd Hn _ _]. unfold get_index, ensure_loaded_or_log, ensure_loaded, st_bind, get_manager. rewrite Hl.
  unfold st_ret. eexists. split; [reflexivity|].
  destruct (index_names m !! (sp, name)) as [i|] eqn:E; cbn [mbind option_bind]; [|done].
  apply Hn in E as (d & Hs & Hname & <-). injection Hname as E1 E2.
  assert (Hi : indexes m !! (sp, idx_id d) = Some d) by (apply Hd; unfold def_key; by rewrite E1).
  rewrite Hi. split; [done|]. unfold def_name. by rewrite E1, E2.
Qed.

Lemma drop_coherent sp name d m s :
  mem_wf s -> defs_ok s -> coherent m s -> stored_def s d -> def_name d = (sp, name) ->
  exists m' s', drop_index sp name (m, s) = (Ok tt, (m', s')) /\ mem_wf s' /\ defs_ok s' /\ coherent m' s' /\
    (indexes m' = delete (sp, idx_id d) (indexes m) /\ index_names m' = delete (sp, name) (index_names m)) /\
    s' = with_data s (om_remove (index_def_key sp (idx_id d)) (data s)).
Proof.
  intros Hwf Hok Hcoh Hs Hname. destruct (get_index_coherent sp name m s Hcoh) as (r & Hget & Hr).
  pose proof Hcoh as [Hl Hd Hn Hnext Hpos].
  assert (r = Some d) as ->.
  { destruct r as [d'|]; [|exfalso; by rewrite (proj2 (Hn (sp, name) (idx_id d)) (ex_intro _ d (conj Hs (conj Hname eq_refl)))) in Hr].
    destruct Hr as [Hs' Hn']. f_equal. apply Hok; [done..|congruence]. }
  destruct (remove_def s d Hwf Hok Hs) as (Hwf' & Hok' & Hst). injection Hname as E1 E2.
  set (s' := with_data s (om_remove (index_def_key (idx_space_id d) (idx_id d)) (data s))) in *.
  exists (mkManager (delete (sp, idx_id d) (indexes m)) (delete (sp, name) (index_names m)) (next_index_id m) true), s'.
  split; [|split; [done|split; [done|split; [|split; [done|by unfold s'; rewrite E1]]]]].
  - unfold drop_index, st_bind at 1. rewrite Hget. unfold delete_persisted_def, forget, st_bind, get_manager, set_manager, index_store.
    cbn [kv_delete memory_required]. unfold Memory.delete. rewrite Hl. unfold s'. by rewrite E1.
  - split; cbn [loaded indexes index_names next_index_id].
    + done.
    + intros k d'. rewrite Hst, lookup_delete_Some, Hd. split.
      * intros [Hk [Hd' <-]]. split; [split; [done|]|done]. intros ->. apply Hk. unfold def_key. by rewrite E1.
      * intros [[Hd' Hne] <-]. split; [|done]. intros E. apply Hne, (stored_def_key s); [done..|]. rewrite <- E. unfold def_key. by rewrite E1.
    + intros k i. setoid_rewrite Hst. rewrite lookup_delete_Some, Hn. split.
      * intros [Hk (d' & Hd' & Hnm & Hi)]. exists d'. split; [split; [done|]|done]. intros ->. apply Hk.
        rewrite <- Hnm. unfold def_name. by rewrite E1, E2.
      * intros (d' & [Hd' Hne] & <- & Hi). split; [|by exists d']. intros E. apply Hne. apply Hok; [done..|].
        rewrite <- E. unfold def_name. by rewrite E1, E2.
    + intros d' [Hd' _]%Hst. by apply Hnext.
    + done.
Qed.

(** C30: the in-memory definitions of an index manager and those persisted in the
    store stay the same set. Creating an index under a free name adds one with a
    fresh identifier, a name in use is refused without any change, dropping one
    removes exactly it, an unknown name is an error; and at every point a manager
    created afresh over the store loads exactly the same indexes and names. *)
Theorem index_definitions_persist ty sp name sid sname fs fis m s :
  mem_wf s -> defs_ok s -> coherent m s -> u32_ok sp -> next_index_id m < two32 - 1 ->
  (exists m', ensure_loaded (manager_new, s) = (Ok tt, (m', s)) /\
     indexes m' = indexes m /\ index_names m' = index_names m) /\
  match index_names m !! (sp, name) with
  | Some id =>
      create_index ty sp name sid sname fs fis (m, s) = (Err (IndexAlreadyExists name), (m, s)) /\
      exists m' s', drop_index sp name (m, s) = (Ok tt, (m', s')) /\ mem_wf s' /\ defs_ok s' /\ coherent m' s' /\
        indexes m' = delete (sp, id) (indexes m) /\ index_names m' = delete (sp, name) (index_names m)
  | None =>
      drop_index sp name (m, s) = (Err (IndexNotFound name), (m, s)) /\
      exists m' s', create_index ty sp name sid sname fs fis (m, s) = (Ok (next_index_id m), (m', s')) /\
        mem_wf s' /\ defs_ok s' /\ coherent m' s' /\
        exists d, index_name d = name /\ idx_id d = next_index_id m /\ index_type d = ty /\ fields d = fs /\
          indexes m' = <[(sp, next_index_id m) := d]> (indexes m) /\
          index_names m' = <[(sp, name) := next_index_id m]> (index_names m)
  end.
Proof.
  intros Hwf Hok Hcoh Hsp Hid. split.
  { destruct (load_coherent s Hwf Hok) as (m' & Hl & Hc). exists m'. split; [done|]. by eapply coherent_ext. }
  destruct (index_names m !! (sp, name)) as [i|] eqn:E.
  - split.
    + unfold create_index, ensure_loaded, check_name_free, st_bind, get_manager. rewrite (coh_loaded _ _ Hcoh).
      unfold st_ret. by rewrite E.
    + apply (coh_names _ _ Hcoh) in E as (d & Hs & Hn & <-).
      destruct (drop_coherent sp name d m s Hwf Hok Hcoh Hs Hn) as (m' & s' & ? & ? & ? & ? & [? ?] & _). by exists m', s'.
  - split; [|by apply create_coherent]. destruct (get_index_coherent sp name m s Hcoh) as (r & Hget & Hr).
    unfold drop_index, st_bind at 1. rewrite Hget. destruct r as [d|]; [|done]. destruct Hr as [Hs Hn].
    assert (Hc : index_names m !! (sp, name) = Some (idx_id d)) by (apply (coh_names _ _ Hcoh); by exists d). congruence.
Qed.
End defs.

Definition empty_manager : IndexManager := mkManager ∅ ∅ 1 true.

#[local] Existing Instance ref_json.

Lemma empty_coherent : mem_wf Memory.new /\ defs_ok Memory.new /\ coherent empty_manager Memory.new.
Proof.
  assert (Hno : forall d, ~ stored_def Memory.new d) by (intros d [_ (b & Hg & _)]; done).
  split; [repeat split; auto with kv|]. split; [split; [done|by intros ?? ?%Hno]|].
  split; cbn [loaded indexes index_names next_index_id empty_manager].
  - done.
  - intros k d. rewrite lookup_empty. split; [done|]. by intros [?%Hno _].
  - intros k i. rewrite lookup_empty. split; [done|]. by intros (d & ?%Hno & _).
  - by intros d ?%Hno.
  - done.
Qed.

Lemma index_definitions_persist_witness :
  exists m' s', create_tag_index 1 (bs "by_age") 2 (bs "person") [bs "age"] [0%nat] (empty_manager, Memory.new) =
    (Ok 1, (m', s')) /\ coherent m' s'.
Proof.
  destruct empty_coherent as (H1 & H2 & H3).
  destruct (@index_definitions_persist (ref_json IndexDef) (ref_json_laws IndexDef) (ref_json_total IndexDef def_ok)
    IndexTag 1 (bs "by_age") 2 (bs "person") [bs "age"] [0%nat] empty_manager Memory.new H1 H2 H3
    ltac:(by vm_compute) ltac:(by vm_compute)) as [_ (_ & m' & s' & H & _ & _ & Hc & _)].
  exists m', s'. split; [exact H|exact Hc].
Defined.
