(* ===== verification/Hash.v ===== *)
(** * Hashing and partition routing

    [byoridb-common/src/hash/murmur.rs], the hash functions every service routes
    with, and [byoridb-common/src/partition.rs], the strategies that map a vertex id
    to a partition. *)

From Stdlib Require Import ZArith Lia Strings.Byte Strings.String.
From stdpp Require Import base tactics list.
From S2P Require Import Prelude Text.

Definition u32_add (a b : Z) : Z := as_u32 (a + b).

Definition shift33 (h : Z) : Z := Z.lxor h (Z.shiftr h 33).
Definition MUL1 : Z := 0xff51afd7ed558ccd.
Definition MUL2 : Z := 0xc4ceb9fe1a85ec53.

Definition hash_vid (vid : Z) : Z :=
  let h := as_u64 vid in
  let h := shift33 h in
  let h := u64_mul h MUL1 in
  let h := shift33 h in
  let h := u64_mul h MUL2 in
  shift33 h.

(** A chunk of at most eight bytes, padded with zeros, as a little-endian integer. *)
Definition chunk_word (chunk : bytes) : Z := of_le (chunk ++ replicate (8 - length chunk) x00).

Definition hash_chunk (h : Z) (chunk : bytes) : Z :=
  let h := Z.lxor h (chunk_word chunk) in
  let h := shift33 h in
  let h := u64_mul h MUL1 in
  let h := shift33 h in
  u64_mul h MUL2.

Definition hash_bytes (data : bytes) : Z := shift33 (fold_left hash_chunk (chunks 8 data) 0).

Definition compute_partition (vid partition_num : Z) : Z :=
  if partition_num =? 0 then 1 else u32_add (as_u32 (hash_vid vid mod partition_num)) 1.

Inductive PartitionStrategy :=
| PHash
| PRange (boundaries : list Z)
| PModulo.

Module Strategy.

Definition fmt (s : PartitionStrategy) : bytes :=
  match s with
  | PHash => bs "HASH"
  | PRange boundaries =>
      bs "RANGE(" ++
      concat (imap (fun i b => (if (0 <? i)%nat then bs ", " else []) ++ dec b) boundaries) ++ bs ")"
  | PModulo => bs "MODULO"
  end.

Fixpoint range_scan (i : Z) (vid : Z) (boundaries : list Z) : Z :=
  match boundaries with
  | boundary :: rest => if vid <? boundary then u32_add (as_u32 i) 1 else range_scan (i + 1) vid rest
  | [] => u32_add (as_u32 i) 1
  end.

Definition compute_partition (s : PartitionStrategy) (vid partition_num : Z) : Z :=
  if partition_num =? 0 then 1 else
  match s with
  | PHash => compute_partition vid partition_num
  | PRange boundaries => range_scan 0 vid boundaries
  | PModulo =>
      let vid_abs := if vid <? 0 then as_u64 (as_i64 (- vid)) else as_u64 vid in
      u32_add (as_u32 (vid_abs mod partition_num)) 1
  end.

Fixpoint check_increasing (boundaries : list Z) : Result bytes unit :=
  match boundaries with
  | a :: (b :: _) as rest =>
      if b <=? a then
        Err (bs "Range boundaries must be strictly increasing: " ++ dec b ++ bs " is not > " ++ dec a)
      else check_increasing rest
  | _ => Ok tt
  end.

Definition validate (s : PartitionStrategy) (partition_num : Z) : Result bytes unit :=
  if partition_num =? 0 then Err (bs "partition_num must be greater than 0") else
  match s with
  | PRange boundaries =>
      let expected := sat_sub partition_num 1 in
      if negb (Z.of_nat (length boundaries) =? expected) then
        Err (bs "Range strategy requires " ++ dec expected ++ bs " boundaries for " ++ dec partition_num ++
             bs " partitions, but got " ++ dec (Z.of_nat (length boundaries)))
      else check_increasing boundaries
  | PHash | PModulo => Ok tt
  end.

Definition is_hash (s : PartitionStrategy) : bool := match s with PHash => true | _ => false end.
Definition is_range (s : PartitionStrategy) : bool := match s with PRange _ => true | _ => false end.
Definition is_modulo (s : PartitionStrategy) : bool := match s with PModulo => true | _ => false end.

End Strategy.

(** ** The finaliser is a permutation *)

Lemma lxor_u64_ok a b : u64_ok a -> u64_ok b -> u64_ok (Z.lxor a b).
Proof.
  intros Ha Hb. replace (Z.lxor a b) with (as_u64 (Z.lxor a b)); [apply as_u64_ok|].
  unfold as_u64, u64_ok, two64 in *. apply Z.bits_inj'. intros i Hi. destruct (Z.lt_ge_cases i 64).
  - by rewrite Z.mod_pow2_bits_low.
  - by rewrite Z.mod_pow2_bits_high, Z.lxor_spec, !(testbit_high _ 64) by lia.
Qed.

Lemma shiftr_u64_ok a n : 0 <= n -> u64_ok a -> u64_ok (Z.shiftr a n).
Proof.
  intros Hn [H0 H1]. unfold u64_ok. rewrite Z.shiftr_div_pow2 by done.
  assert (0 < 2 ^ n) by (apply Z.pow_pos_nonneg; lia).
  split; [apply Z.div_pos; lia|]. apply Z.le_lt_trans with a; [|lia]. apply Z.div_le_upper_bound; nia.
Qed.

Lemma shift33_ok h : u64_ok h -> u64_ok (shift33 h).
Proof. intros H. by apply lxor_u64_ok, shiftr_u64_ok. Qed.

Lemma shift33_involutive h : u64_ok h -> shift33 (shift33 h) = h.
Proof.
  intros [H0 H1]. unfold shift33. rewrite Z.shiftr_lxor, Z.shiftr_shiftr by lia.
  rewrite (Z.shiftr_div_pow2 h (33 + 33)), (Z.div_small h) by (unfold two64 in *; lia).
  by rewrite Z.lxor_0_r, Z.lxor_assoc, Z.lxor_nilpotent, Z.lxor_0_r.
Qed.

Lemma u64_mul_ok a b : u64_ok (u64_mul a b).
Proof. apply as_u64_ok. Qed.

(** Multiplication by an odd constant is undone by its inverse modulo 2^64. *)
Lemma u64_mul_inverse a m m' : u64_ok a -> as_u64 (m * m') = 1 -> u64_mul (u64_mul a m) m' = a.
Proof.
  intros Ha Hm. unfold u64_mul, as_u64 in *. rewrite Z.mul_mod_idemp_l by done.
  rewrite <- Z.mul_assoc, <- Z.mul_mod_idemp_r, Hm, Z.mul_1_r by done. by apply Z.mod_small.
Qed.

Definition unhash_vid (h : Z) : Z :=
  as_i64 (shift33 (u64_mul (shift33 (u64_mul (shift33 h) 0x9cb4b2f8129337db)) 0x4f74430c22a54005)).

Lemma unhash_hash_vid vid : i64_ok vid -> unhash_vid (hash_vid vid) = vid.
Proof.
  intros Hv. unfold unhash_vid, hash_vid. pose proof (as_u64_ok vid) as Hu.
  rewrite shift33_involutive by apply u64_mul_ok.
  rewrite (u64_mul_inverse _ MUL2) by (apply shift33_ok, u64_mul_ok || reflexivity).
  rewrite shift33_involutive by apply u64_mul_ok.
  rewrite (u64_mul_inverse _ MUL1) by (by apply shift33_ok || reflexivity).
  rewrite shift33_involutive by done. by apply as_i64_as_u64.
Qed.

Lemma hash_vid_ok vid : u64_ok (hash_vid vid).
Proof. apply shift33_ok, u64_mul_ok. Qed.

Lemma hash_vid_hit h : u64_ok h -> exists vid, i64_ok vid /\ hash_vid vid = h.
Proof.
  intros Hh. exists (unhash_vid h). split; [apply as_i64_ok|]. unfold unhash_vid, hash_vid.
  rewrite as_u64_as_i64 by apply shift33_ok, u64_mul_ok.
  rewrite shift33_involutive by apply u64_mul_ok.
  rewrite (u64_mul_inverse _ 0x4f74430c22a54005) by (apply shift33_ok, u64_mul_ok || reflexivity).
  rewrite shift33_involutive by apply u64_mul_ok.
  rewrite (u64_mul_inverse _ 0x9cb4b2f8129337db) by (by apply shift33_ok || reflexivity).
  by apply shift33_involutive.
Qed.

(** ** Partitions *)

Lemma mod_partition h n : 0 <= h -> 0 < n -> u32_ok n -> u32_add (as_u32 (h mod n)) 1 = h mod n + 1.
Proof.
  intros Hh Hn [_ Hn']. unfold u32_add, as_u32, two32 in *. pose proof (Z.mod_pos_bound h n Hn).
  rewrite (Z.mod_small (h mod n)), Z.mod_small by lia. done.
Qed.

(** The boundaries below and above the partition chosen. *)
Lemma range_scan_spec i vid bs :
  0 <= i -> i + Z.of_nat (length bs) < two32 - 1 ->
  exists k, (k <= length bs)%nat /\ Strategy.range_scan i vid bs = i + Z.of_nat k + 1 /\
    (forall j b, bs !! j = Some b -> (j < k)%nat -> b <= vid) /\
    (forall b, bs !! k = Some b -> vid < b).
Proof.
  assert (Hw : forall i, 0 <= i < two32 - 1 -> u32_add (as_u32 i) 1 = i + 1).
  { intros j Hj. unfold u32_add, as_u32, two32 in *. rewrite (Z.mod_small j), Z.mod_small by lia. done. }
  revert i. induction bs as [|b bs IH]; intros i Hi Hl; cbn [Strategy.range_scan length] in *.
  - exists O. rewrite Hw by lia. repeat split; [lia|lia|done|done].
  - destruct (Z.ltb_spec vid b) as [Hb|Hb].
    + exists O. rewrite Hw by lia. repeat split; [lia|lia|lia|]. by intros ? [= <-].
    + destruct (IH (i + 1)) as (k & Hk & -> & Hlo & Hhi); [lia|lia|].
      exists (S k). repeat split; [lia|lia| |done]. intros [|j] b' Hj Hjk; [by injection Hj as <-|].
      apply (Hlo j); [done|lia].
Qed.

Lemma check_increasing_step a b l :
  Strategy.check_increasing (a :: b :: l) = Ok tt -> a < b /\ Strategy.check_increasing (b :: l) = Ok tt.
Proof.
  change (Strategy.check_increasing (a :: b :: l)) with
    (if b <=? a then
       Err (bs "Range boundaries must be strictly increasing: " ++ dec b ++ bs " is not > " ++ dec a)
     else Strategy.check_increasing (b :: l)).
  destruct (Z.leb_spec b a); [done|]. done.
Qed.

Lemma check_increasing_lt l i j a b :
  Strategy.check_increasing l = Ok tt -> l !! i = Some a -> l !! j = Some b -> (i < j)%nat -> a < b.
Proof.
  revert i j a b. induction l as [|x l IH]; intros i j a b Hc Hi Hj Hij; [done|].
  destruct l as [|y l]; [destruct i, j; simplify_eq/=; lia|].
  apply check_increasing_step in Hc as [Hxy Hc]. destruct j as [|j]; [lia|].
  destruct i as [|i]; simpl in Hi, Hj; [|apply (IH i j); [done..|lia]].
  injection Hi as <-. destruct j as [|j]; [by injection Hj as <-|].
  apply Z.lt_trans with y; [done|]. apply (IH 0%nat (S j)); [done..|lia].
Qed.

(** The routing hash of vertex ids is a permutation of the 64-bit words: no two
    vertex ids share a hash, and every hash is that of a vertex id. *)
Theorem hash_vid_bijective h :
  u64_ok h -> exists vid, i64_ok vid /\ hash_vid vid = h /\ forall vid', i64_ok vid' -> hash_vid vid' = h -> vid' = vid.
Proof.
  intros (vid & Hv & Hh)%hash_vid_hit. exists vid. split; [done|]. split; [done|]. intros vid' Hv' Hh'.
  by rewrite <- (unhash_hash_vid vid' Hv'), Hh', <- Hh, unhash_hash_vid.
Qed.

Lemma hash_vid_bijective_witness : exists vid, i64_ok vid /\ hash_vid vid = 0.
Proof. destruct (hash_vid_bijective 0) as (vid & Hv & Hh & _); [by vm_compute|by exists vid]. Defined.

(** A strategy that validates for a number of partitions maps every vertex id to
    one of them: hashing to the hash modulo their number, ranges to the range the
    id lies in, and modulo to its absolute value modulo their number. *)
Theorem partition_in_range s vid n :
  i64_ok vid -> u32_ok n -> Strategy.validate s n = Ok tt ->
  1 <= Strategy.compute_partition s vid n <= n /\
  match s with
  | PHash => Strategy.compute_partition s vid n = hash_vid vid mod n + 1
  | PRange boundaries => forall j b, boundaries !! j = Some b ->
      b <= vid <-> Z.of_nat j + 1 < Strategy.compute_partition s vid n
  | PModulo => Strategy.compute_partition s vid n = Z.abs vid mod n + 1
  end.
Proof.
  intros Hv Hn. unfold Strategy.validate. destruct (Z.eqb_spec n 0) as [|Hn0]; [done|].
  assert (Hp : 0 < n) by (destruct Hn; lia). unfold Strategy.compute_partition.
  rewrite (proj2 (Z.eqb_neq n 0) Hn0). destruct s as [|bs|]; intros Hval.
  - unfold compute_partition. rewrite (proj2 (Z.eqb_neq n 0) Hn0).
    rewrite mod_partition by (try done; apply hash_vid_ok). pose proof (Z.mod_pos_bound (hash_vid vid) n Hp). lia.
  - cbv zeta in Hval. destruct (Z.eqb_spec (Z.of_nat (length bs)) (sat_sub n 1)) as [Hlen|]; [|done]. simpl in Hval.
    unfold sat_sub in Hlen. destruct (range_scan_spec 0 vid bs) as (k & Hk & -> & Hlo & Hhi); [done|destruct Hn; lia|].
    split; [lia|]. intros j b Hj. split; intros Hb.
    + destruct (decide (j < k)%nat); [lia|]. exfalso. destruct (bs !! k) as [bk|] eqn:Ek.
      * specialize (Hhi _ eq_refl). destruct (decide (j = k)) as [->|]; [simplify_eq; lia|].
        assert (bk < b) by (apply (check_increasing_lt bs k j); [done..|lia]). lia.
      * apply lookup_ge_None in Ek. apply lookup_lt_Some in Hj. lia.
    + apply (Hlo j); [done|lia].
  - assert (Habs : (if vid <? 0 then as_u64 (as_i64 (- vid)) else as_u64 vid) = Z.abs vid).
    { unfold i64_ok, two63 in Hv. destruct (Z.ltb_spec vid 0).
      - rewrite as_u64_as_i64; [lia|]. unfold u64_ok, two64. lia.
      - rewrite as_u64_id; [lia|]. unfold u64_ok, two64. lia. }
    rewrite Habs, mod_partition by (done || lia). pose proof (Z.mod_pos_bound (Z.abs vid) n Hp). lia.
Qed.

Lemma partition_in_range_witness :
  1 <= Strategy.compute_partition (PRange [100; 200; 300]) 150 4 <= 4 /\
  1 <= Strategy.compute_partition PModulo I64_MIN 7 <= 7.
Proof.
  split.
  - refine (proj1 (partition_in_range (PRange [100; 200; 300]) 150 4 _ _ _)); by vm_compute.
  - refine (proj1 (partition_in_range PModulo I64_MIN 7 _ _ _)); by vm_compute.
Defined.
