(* ===== verification/Ring.v ===== *)
(** * The consistent hash ring

    [byoridb-common/src/hash/consistent_ring.rs]: which storage nodes host which
    partition of a space, and which data moves when a node joins or leaves. *)

From Stdlib Require Import ZArith Lia Strings.Byte Strings.String.
From stdpp Require Import base tactics gmap sorting list list_numbers.
From S2P Require Import Prelude OrdMap Text Hash.

Record RingConfig := { virtual_nodes : Z }.

Definition RingConfig_default : RingConfig := {| virtual_nodes := 150 |}.

Record RingNode := mkNode { host : bytes; port : Z }.

#[global] Instance RingNode_eq_dec : EqDecision RingNode.
Proof. solve_decision. Defined.

Definition node_id (n : RingNode) : bytes := host n ++ bs ":" ++ dec (port n).

Record PartitionAssignment := mkAssignment {
  pa_part_id : Z;
  primary : RingNode;
  pa_replicas : list RingNode
}.

Definition all_hosts (a : PartitionAssignment) : list (bytes * Z) :=
  (host (primary a), port (primary a)) :: ((fun n => (host n, port n)) <$> pa_replicas a).

Record MigrationTask := mkTask {
  mt_part_id : Z;
  mt_from : RingNode;
  mt_to : RingNode;
  is_primary : bool
}.

(** The ring maps a position to the node and the number of the virtual node. *)
Record ConsistentHashRing := mkRing {
  ring_config : RingConfig;
  ring : list (Z * (RingNode * Z));
  ring_nodes : list RingNode;
  partition_num : Z;
  replica_factor : Z;
  assignments_cache : option (list PartitionAssignment)
}.

(** Iteration over a [HashSet] collected from a list, in the order the set has. *)
Class HashSetOrder := hash_set_iter : list RingNode -> list RingNode.
Class HashSetLaws `{HashSetOrder} := {
  hash_set_elem l n : n ∈ hash_set_iter l <-> n ∈ l;
  hash_set_nodup l : NoDup (hash_set_iter l)
}.

Module Ring.

Definition new (partition_num replica_factor : Z) (config : RingConfig) : ConsistentHashRing :=
  mkRing config [] [] partition_num replica_factor None.

(** The position of virtual node [vn]. *)
Definition position (node : RingNode) (vn : Z) : Z := hash_bytes (node_id node ++ bs "#" ++ dec vn).

Definition virtuals (r : ConsistentHashRing) : list Z := seqZ 0 (virtual_nodes (ring_config r)).

Definition add_node (node : RingNode) (r : ConsistentHashRing) : ConsistentHashRing :=
  if decide (node ∈ ring_nodes r) then r else
  mkRing (ring_config r)
    (fold_left (fun m vn => om_insert (position node vn) (node, vn) m) (virtuals r) (ring r))
    (ring_nodes r ++ [node]) (partition_num r) (replica_factor r) None.

Definition from_hosts (partition_num replica_factor : Z) (hosts : list (bytes * Z)) (config : RingConfig) :
    ConsistentHashRing :=
  fold_left (fun r '(h, p) => add_node (mkNode h p) r) hosts (new partition_num replica_factor config).

Definition remove_node (node : RingNode) (r : ConsistentHashRing) : ConsistentHashRing :=
  if decide (node ∈ ring_nodes r) then
    mkRing (ring_config r)
      (fold_left (fun m vn => om_remove (position node vn) m) (virtuals r) (ring r))
      (List.filter (fun n => bool_decide (n <> node)) (ring_nodes r)) (partition_num r) (replica_factor r) None
  else r.

Definition get_node (r : ConsistentHashRing) (hash : Z) : option RingNode :=
  match om_range_from hash (ring r) with
  | (_, (node, _)) :: _ => Some node
  | [] => match ring r with (_, (node, _)) :: _ => Some node | [] => None end
  end.

(** The loop of [get_nodes]: nodes not seen yet, until [count] of them are found. *)
Fixpoint walk (count : nat) (seen : gset bytes) (result : list RingNode) (iter : list (Z * (RingNode * Z))) :
    list RingNode :=
  match iter with
  | [] => result
  | (_, (node, _)) :: rest =>
      if decide (node_id node ∈ seen) then walk count seen result rest else
      let result := result ++ [node] in
      if (count <=? length result)%nat then result else walk count ({[node_id node]} ∪ seen) result rest
  end.

Definition get_nodes (r : ConsistentHashRing) (hash count : Z) : list RingNode :=
  match ring r with
  | [] => []
  | _ :: _ =>
      let count := Nat.min (Z.to_nat count) (length (ring_nodes r)) in
      walk count ∅ [] (om_range_from hash (ring r) ++ ring r)
  end.

Definition get_part_id (r : ConsistentHashRing) (vid : Z) : Z := compute_partition vid (partition_num r).

(** The assignments computed when the cache is empty. *)
Definition assignment_of (r : ConsistentHashRing) (part_id : Z) : option PartitionAssignment :=
  match get_nodes r (hash_bytes (le_bytes 4 part_id)) (replica_factor r) with
  | primary :: replicas => Some (mkAssignment part_id primary replicas)
  | [] => None
  end.

Definition compute_assignments (r : ConsistentHashRing) : list PartitionAssignment :=
  match ring_nodes r with
  | [] => (fun part_id => mkAssignment part_id (mkNode (bs "localhost") 9779) []) <$> seqZ 1 (partition_num r)
  | _ :: _ => filter_map (assignment_of r) (seqZ 1 (partition_num r))
  end.

Definition ensure_assignments (r : ConsistentHashRing) : ConsistentHashRing :=
  match assignments_cache r with
  | Some _ => r
  | None => mkRing (ring_config r) (ring r) (ring_nodes r) (partition_num r) (replica_factor r)
              (Some (compute_assignments r))
  end.

(** [part_id as usize - 1] of part 0 wraps around, past every assignment. *)
Definition get_partition_assignment (part_id : Z) (r : ConsistentHashRing) :
    option PartitionAssignment * ConsistentHashRing :=
  let r := ensure_assignments r in
  (a ← assignments_cache r; if part_id =? 0 then None else a !! Z.to_nat (part_id - 1), r).

Definition get_all_assignments (r : ConsistentHashRing) : list PartitionAssignment * ConsistentHashRing :=
  let r := ensure_assignments r in (default [] (assignments_cache r), r).

Definition get_allocations (r : ConsistentHashRing) : gmap Z (list (bytes * Z)) * ConsistentHashRing :=
  let '(a, r) := get_all_assignments r in (list_to_map (rev ((fun a => (pa_part_id a, all_hosts a)) <$> a)), r).

Section migrations.
Context `{HashSetOrder}.

(** The tasks of one partition. *)
Definition partition_tasks (old new : PartitionAssignment) : list MigrationTask :=
  (if decide (primary old = primary new) then []
   else [mkTask (pa_part_id old) (primary old) (primary new) true]) ++
  let old_replicas := hash_set_iter (pa_replicas old) in
  let new_replicas := hash_set_iter (pa_replicas new) in
  filter_map (fun removed =>
    if decide (removed ∈ new_replicas) then None else
    new_node ← List.find (fun n => negb (bool_decide (n ∈ old_replicas))) new_replicas;
    Some (mkTask (pa_part_id old) removed new_node false)) old_replicas.

Definition compute_migrations (old_ring new_ring : ConsistentHashRing) :
    list MigrationTask * (ConsistentHashRing * ConsistentHashRing) :=
  let '(old_assignments, old_ring) := get_all_assignments old_ring in
  let '(new_assignments, new_ring) := get_all_assignments new_ring in
  (concat (zip_with partition_tasks old_assignments new_assignments), (old_ring, new_ring)).

End migrations.

Definition node_count (r : ConsistentHashRing) : nat := length (ring_nodes r).
Definition is_empty (r : ConsistentHashRing) : bool := match ring_nodes r with [] => true | _ => false end.

End Ring.
