(* ===== verification/RingFacts.v ===== *)
(** * What the consistent hash ring guarantees

    Replicas of a partition are distinct nodes, and a node that joins or leaves
    moves only its own share of the partitions. *)

From Stdlib Require Import ZArith Lia Strings.Byte Strings.String.
From stdpp Require Import base tactics gmap sorting list list_numbers.
From S2P Require Import Prelude OrdMap Text Hash Ring.

(** ** Node identifiers *)

Definition node_ok (n : RingNode) : Prop := u32_ok (port n).

Lemma colon_suffix_inj a b x y : colon_free x -> colon_free y -> a ++ bs ":" ++ x = b ++ bs ":" ++ y -> a = b /\ x = y.
Proof.
  change (bs ":") with [COLON]. intros Hx Hy E. apply app_eq_inv in E as [(k & -> & E)|(k & -> & E)].
  - destruct k as [|c k]; [rewrite app_nil_r; by simplify_eq/=|]. exfalso. injection E as _ E. apply Hy. rewrite E. set_solver.
  - destruct k as [|c k]; [rewrite app_nil_r; by simplify_eq/=|]. exfalso. injection E as _ E. apply Hx. rewrite E. set_solver.
Qed.

Lemma node_id_inj n n' : node_ok n -> node_ok n' -> node_id n = node_id n' -> n = n'.
Proof.
  intros Hn Hn' E. unfold node_id in E. apply colon_suffix_inj in E as [Eh Ep]; [|apply dec_colon_free..].
  apply dec_inj in Ep; [destruct n, n'; simpl in *; congruence|unfold node_ok, u32_ok, i64_ok, two32, two63 in *; lia..].
Qed.

(** ** The nodes met on a walk *)

Definition not_node (n : RingNode) (n' : RingNode) : bool := bool_decide (n' <> n).

(** The first occurrence of each node. *)
Fixpoint distinct (l : list RingNode) : list RingNode :=
  match l with
  | [] => []
  | n :: l => n :: List.filter (not_node n) (distinct l)
  end.

Definition entry_node (e : Z * (RingNode * Z)) : RingNode := e.2.1.

Lemma distinct_elem l n : n ∈ distinct l <-> n ∈ l.
Proof.
  induction l as [|m l IH]; [done|]. simpl. rewrite !elem_of_cons, filter_elem, IH. unfold not_node.
  rewrite bool_decide_eq_true. destruct (decide (n = m)); naive_solver.
Qed.

Lemma distinct_nodup l : NoDup (distinct l).
Proof.
  induction l as [|m l IH]; [constructor|]. simpl. constructor.
  - rewrite filter_elem. unfold not_node. rewrite bool_decide_eq_true. naive_solver.
  - by apply NoDup_ListNoDup, List.NoDup_filter, NoDup_ListNoDup.
Qed.

Lemma distinct_filter n l : distinct (List.filter (not_node n) l) = List.filter (not_node n) (distinct l).
Proof.
  induction l as [|m l IH]; [done|]. simpl. destruct (not_node n m) eqn:E; simpl; rewrite E || idtac.
  - rewrite IH, !filter_filter. f_equal. apply filter_cong. intros x _. apply andb_comm.
  - rewrite IH, filter_filter. apply filter_cong. intros x _.
    apply bool_decide_eq_false, dec_stable in E as ->. by rewrite andb_diag.
Qed.

Lemma walk_spec count seen result iter :
  Forall node_ok (entry_node <$> iter) ->
  (length result < Nat.max 1 count)%nat ->
  Ring.walk count seen result iter =
  result ++ take (Nat.max 1 count - length result)
    (List.filter (fun n => bool_decide (node_id n ∉ seen)) (distinct (entry_node <$> iter))).
Proof.
  intros Hok. revert seen result. induction iter as [|[k [n vn]] iter IH]; intros seen result Hlen.
  { simpl. by rewrite take_nil, app_nil_r. }
  apply Forall_cons in Hok as [Hn Hok]. specialize (IH Hok). cbn [Ring.walk fmap list_fmap distinct].
  change (entry_node (k, (n, vn))) with n. cbn [List.filter]. destruct (decide (node_id n ∈ seen)) as [Hs|Hs].
  - rewrite bool_decide_eq_false_2 by tauto. rewrite IH by done. f_equal. f_equal. rewrite filter_filter.
    apply filter_cong. intros x Hx. unfold not_node. destruct (decide (node_id x ∈ seen)) as [Hx'|Hx'].
    + rewrite (bool_decide_eq_false_2 (node_id x ∉ seen)) by tauto. by rewrite andb_false_r.
    + rewrite (bool_decide_eq_true_2 (node_id x ∉ seen)) by done.
      rewrite bool_decide_eq_true_2; [done|]. by intros ->.
  - rewrite bool_decide_eq_true_2 by done. rewrite length_app. cbn [length].
    destruct (Nat.leb_spec count (length result + 1)) as [Hc|Hc].
    + replace (Nat.max 1 count - length result)%nat with 1%nat by lia. done.
    + rewrite IH by (rewrite length_app; simpl; lia). rewrite <- (assoc_L (++)), length_app. cbn [length app]. f_equal.
      replace (Nat.max 1 count - length result)%nat with (S (Nat.max 1 count - (length result + 1))) by lia.
      cbn [take]. f_equal. f_equal. rewrite filter_filter. apply filter_cong. intros x Hx.
      assert (Hxok : node_ok x) by (rewrite Forall_forall in Hok; by apply Hok, distinct_elem).
      unfold not_node. rewrite <- bool_decide_and. apply bool_decide_ext. split.
      * intros Hx'. split; [|set_solver]. intros ->. set_solver.
      * intros [Hne Hx']. apply not_elem_of_union. split; [|done]. rewrite elem_of_singleton. intros E.
        by apply Hne, node_id_inj.
Qed.

(** ** Positions *)

(** Each node owns all its positions, the ring holds nothing else, and the cached
    assignments are those of the ring. *)
Record ring_wf (r : ConsistentHashRing) : Prop := {
  ring_sorted : om_wf (ring r);
  ring_nodup : NoDup (ring_nodes r);
  ring_ports : Forall node_ok (ring_nodes r);
  ring_entry k n vn : (k, (n, vn)) ∈ ring r -> n ∈ ring_nodes r /\ exists v, v ∈ Ring.virtuals r /\ k = Ring.position n v;
  ring_owned n v : n ∈ ring_nodes r -> v ∈ Ring.virtuals r -> exists v', om_get (Ring.position n v) (ring r) = Some (n, v');
  ring_virtual : 0 < virtual_nodes (ring_config r);
  ring_cache a : assignments_cache r = Some a -> a = Ring.compute_assignments r
}.

(** No position of the node is taken. *)
Definition fresh_node (n : RingNode) (r : ConsistentHashRing) : Prop :=
  node_ok n /\ forall v, v ∈ Ring.virtuals r -> om_get (Ring.position n v) (ring r) = None.

Definition insert_positions (n : RingNode) (vs : list Z) (m : list (Z * (RingNode * Z))) :=
  fold_left (fun m vn => om_insert (Ring.position n vn) (n, vn) m) vs m.
Definition remove_positions (n : RingNode) (vs : list Z) (m : list (Z * (RingNode * Z))) :=
  fold_left (fun m vn => om_remove (Ring.position n vn) m) vs m.

Lemma insert_positions_wf n vs m : om_wf m -> om_wf (insert_positions n vs m).
Proof. revert m. induction vs; intros m Hm; [done|]. simpl. by apply IHvs, om_insert_wf. Qed.

Lemma remove_positions_wf n vs m : om_wf m -> om_wf (remove_positions n vs m).
Proof. revert m. induction vs; intros m Hm; [done|]. simpl. by apply IHvs, om_remove_wf. Qed.

Lemma insert_positions_get n vs m k :
  om_wf m ->
  (exists v, v ∈ vs /\ k = Ring.position n v /\ exists v', om_get k (insert_positions n vs m) = Some (n, v')) \/
  (forall v, v ∈ vs -> k <> Ring.position n v) /\ om_get k (insert_positions n vs m) = om_get k m.
Proof.
  revert m. induction vs as [|v vs IH]; intros m Hm; [right; by split; [intros ? ?%elem_of_nil|]|]. simpl.
  destruct (IH (om_insert (Ring.position n v) (n, v) m)) as [(v1 & Hv & -> & Hg)|[Hno ->]]; [by apply om_insert_wf|..].
  - left. exists v1. split; [by right|done].
  - rewrite om_get_insert_decide by done. case_bool_decide as Hk; [subst k|].
    + left. exists v. split; [by left|]. split; [done|]. by eexists.
    + right. split; [|done]. by intros v1 [->|Hv1]%elem_of_cons; [|apply Hno].
Qed.

Lemma remove_positions_get n vs m k :
  om_wf m ->
  (exists v, v ∈ vs /\ k = Ring.position n v) /\ om_get k (remove_positions n vs m) = None \/
  (forall v, v ∈ vs -> k <> Ring.position n v) /\ om_get k (remove_positions n vs m) = om_get k m.
Proof.
  revert m. induction vs as [|v vs IH]; intros m Hm; [right; by split; [intros ? ?%elem_of_nil|]|]. simpl.
  destruct (IH (om_remove (Ring.position n v) m)) as [[(v1 & Hv & ->) Hg]|[Hno ->]]; [by apply om_remove_wf|..].
  - left. split; [|done]. exists v1. split; [by right|done].
  - rewrite om_get_remove_decide by done. case_bool_decide as Hk; [subst k|].
    + left. split; [|done]. exists v. split; [by left|done].
    + right. split; [|done]. by intros v1 [->|Hv1]%elem_of_cons; [|apply Hno].
Qed.

Lemma om_ext_elem (m1 m2 : list (Z * (RingNode * Z))) :
  om_wf m1 -> om_wf m2 -> (forall kv, kv ∈ m1 <-> kv ∈ m2) -> m1 = m2.
Proof. intros H1 H2 H. apply om_ext; [done..|]. intros k. apply option_eq. intros v. by rewrite !om_get_elem. Qed.

Lemma virtuals_zero r : ring_wf r -> 0 ∈ Ring.virtuals r.
Proof. intros Hr. apply elem_of_seqZ. pose proof (ring_virtual r Hr). lia. Qed.

Lemma fresh_not_in n r : ring_wf r -> fresh_node n r -> n ∉ ring_nodes r.
Proof.
  intros Hr [_ Hf] Hin. pose proof (virtuals_zero r Hr) as H0.
  destruct (ring_owned r Hr n 0 Hin H0) as [v' Hv']. by rewrite (Hf 0 H0) in Hv'.
Qed.

Lemma add_node_fresh n r :
  ring_wf r -> fresh_node n r ->
  Ring.add_node n r = mkRing (ring_config r) (insert_positions n (Ring.virtuals r) (ring r)) (ring_nodes r ++ [n])
    (partition_num r) (replica_factor r) None.
Proof. intros Hr Hf. unfold Ring.add_node. by rewrite decide_False by (by apply fresh_not_in). Qed.

Lemma add_node_wf n r : ring_wf r -> fresh_node n r -> ring_wf (Ring.add_node n r).
Proof.
  intros Hr Hf. pose proof (fresh_not_in n r Hr Hf) as Hn. rewrite add_node_fresh by done. destruct Hf as [Hok Hf].
  set (r' := mkRing _ _ _ _ _ _). assert (Hvs : Ring.virtuals r' = Ring.virtuals r) by done.
  assert (Hs : om_wf (ring r')) by apply insert_positions_wf, Hr.
  constructor; rewrite ?Hvs; cbn [ring ring_nodes ring_config assignments_cache r']; [done| | | | |apply Hr|done].
  - apply NoDup_app. split; [apply Hr|]. split; [set_solver|apply NoDup_singleton].
  - apply Forall_app. split; [apply Hr|by apply Forall_singleton].
  - intros k n' vn He. apply om_get_elem in He; [|done].
    destruct (insert_positions_get n (Ring.virtuals r) (ring r) k (ring_sorted r Hr)) as [(v & Hv & -> & v' & Hg)|[_ Hg]];
      rewrite Hg in He.
    + injection He as <- <-. split; [set_solver|]. by exists v.
    + apply om_get_elem, (ring_entry r Hr) in He as [Hin Hp]; [|apply Hr]. split; [set_solver|done].
  - intros n' v Hin Hv.
    destruct (insert_positions_get n (Ring.virtuals r) (ring r) (Ring.position n' v) (ring_sorted r Hr))
      as [(v1 & Hv1 & E & Hg)|[Hno ->]].
    + apply elem_of_app in Hin as [Hin| ->%list_elem_of_singleton]; [|done]. exfalso.
      destruct (ring_owned r Hr n' v Hin Hv) as [v2 Hv2]. rewrite E in Hv2. by rewrite Hf in Hv2.
    + apply elem_of_app in Hin as [Hin| ->%list_elem_of_singleton]; [by apply Hr|]. by destruct (Hno v Hv).
Qed.

Lemma filter_nodes_neq n (l : list RingNode) : NoDup l -> NoDup (List.filter (fun n' => bool_decide (n' <> n)) l).
Proof. intros H. by apply NoDup_ListNoDup, List.NoDup_filter, NoDup_ListNoDup. Qed.

Lemma remove_node_wf n r : ring_wf r -> ring_wf (Ring.remove_node n r).
Proof.
  intros Hr. unfold Ring.remove_node. destruct (decide (n ∈ ring_nodes r)) as [Hn|]; [|done].
  change (fold_left _ _ _) with (remove_positions n (Ring.virtuals r) (ring r)).
  set (r' := mkRing _ _ _ _ _ _). assert (Hvs : Ring.virtuals r' = Ring.virtuals r) by done.
  assert (Hs : om_wf (ring r')) by apply remove_positions_wf, Hr.
  assert (Hnodes : forall x, x ∈ ring_nodes r' <-> x ∈ ring_nodes r /\ x <> n).
  { intros x. cbn [ring_nodes r']. by rewrite filter_elem, bool_decide_eq_true. }
  constructor; rewrite ?Hvs; [done| | | | |apply Hr|done].
  - apply filter_nodes_neq, Hr.
  - apply Forall_forall. intros x [Hx _]%Hnodes. pose proof (ring_ports r Hr) as Hp. rewrite Forall_forall in Hp. by apply Hp.
  - intros k n' vn He. apply om_get_elem in He; [|done]. cbn [ring r'] in He.
    destruct (remove_positions_get n (Ring.virtuals r) (ring r) k (ring_sorted r Hr)) as [[_ Hg]|[Hno Hg]];
      rewrite Hg in He; [done|].
    apply om_get_elem, (ring_entry r Hr) in He as [Hin (v & Hv & ->)]; [|apply Hr].
    split; [|by exists v]. apply Hnodes. split; [done|]. intros ->. by apply (Hno v Hv).
  - intros n' v [Hin Hne]%Hnodes Hv. cbn [ring r']. destruct (ring_owned r Hr n' v Hin Hv) as [v' Hv'].
    destruct (remove_positions_get n (Ring.virtuals r) (ring r) (Ring.position n' v) (ring_sorted r Hr))
      as [[(v1 & Hv1 & E) _]|[_ ->]]; [|by exists v'].
    destruct (ring_owned r Hr n v1 Hn Hv1) as [v2 Hv2]. rewrite E in Hv'. congruence.
Qed.

Lemma remove_add_node n r :
  ring_wf r -> fresh_node n r -> assignments_cache r = None -> Ring.remove_node n (Ring.add_node n r) = r.
Proof.
  intros Hr Hf Hc. pose proof (fresh_not_in n r Hr Hf) as Hn. pose proof (ring_sorted r Hr) as Hs.
  rewrite add_node_fresh by done. unfold Ring.remove_node. cbn [ring_nodes ring ring_config partition_num replica_factor].
  rewrite decide_True by set_solver. change (Ring.virtuals (mkRing _ _ _ _ _ _)) with (Ring.virtuals r).
  change (fold_left _ _ _) with (remove_positions n (Ring.virtuals r) (insert_positions n (Ring.virtuals r) (ring r))).
  rewrite List.filter_app. cbn [List.filter]. rewrite bool_decide_eq_false_2, app_nil_r by naive_solver.
  rewrite filter_all by (intros x Hx; apply bool_decide_eq_true; set_solver).
  replace (remove_positions _ _ _) with (ring r); [by destruct r; simpl in Hc; subst|].
  apply om_ext; [done|by apply remove_positions_wf, insert_positions_wf|]. intros k.
  destruct (remove_positions_get n (Ring.virtuals r) (insert_positions n (Ring.virtuals r) (ring r)) k)
    as [[(v & Hv & ->) ->]|[Hno ->]]; [by apply insert_positions_wf|by apply Hf|].
  destruct (insert_positions_get n (Ring.virtuals r) (ring r) k Hs) as [(v & Hv & -> & _)|[_ ->]]; [|done].
  by destruct (Hno v Hv).
Qed.

(** ** Lookups *)

(** The nodes met walking clockwise from a position, in order. *)
Definition clockwise (r : ConsistentHashRing) (h : Z) : list RingNode :=
  distinct (entry_node <$> (om_range_from h (ring r) ++ ring r)).

Lemma clockwise_elem r h n : ring_wf r -> n ∈ clockwise r h <-> n ∈ ring_nodes r.
Proof.
  intros Hr. unfold clockwise. rewrite distinct_elem, list_elem_of_fmap. split.
  - intros ([k [n' vn]] & -> & He). apply (ring_entry r Hr k n' vn).
    by apply elem_of_app in He as [[? _]%om_range_from_elem|?].
  - intros Hn. pose proof (virtuals_zero r Hr) as H0. destruct (ring_owned r Hr n 0 Hn H0) as [v' Hv'].
    exists (Ring.position n 0, (n, v')). split; [done|]. apply elem_of_app. right. apply om_get_elem; [apply Hr|done].
Qed.

Lemma clockwise_length r h : ring_wf r -> length (clockwise r h) = length (ring_nodes r).
Proof.
  intros Hr. apply Permutation_length, NoDup_Permutation; [apply distinct_nodup|apply Hr|].
  intros n. by apply clockwise_elem.
Qed.

Definition replica_count (r : ConsistentHashRing) (count : Z) : nat :=
  Nat.max 1 (Nat.min (Z.to_nat count) (length (ring_nodes r))).

Lemma get_nodes_spec r h count :
  ring_wf r -> Ring.get_nodes r h count = take (replica_count r count) (clockwise r h).
Proof.
  intros Hr. unfold Ring.get_nodes, clockwise. destruct (ring r) as [|e m] eqn:E; [by destruct (replica_count r count)|]. rewrite <- E.
  rewrite walk_spec.
  - simpl. rewrite Nat.sub_0_r. f_equal. apply filter_all. intros n _. by apply bool_decide_eq_true, not_elem_of_empty.
  - apply Forall_forall. intros n Hn. pose proof (ring_ports r Hr) as Hp. rewrite Forall_forall in Hp. apply Hp.
    apply (clockwise_elem r h n Hr). by apply distinct_elem.
  - simpl. lia.
Qed.

Definition other_node (n : RingNode) (e : Z * (RingNode * Z)) : bool := not_node n (entry_node e).

Lemma filter_fmap_node n l : List.filter (not_node n) (entry_node <$> l) = entry_node <$> List.filter (other_node n) l.
Proof.
  induction l as [|e l IH]; [done|]. rewrite fmap_cons. cbn [List.filter]. unfold other_node at 1.
  by destruct (not_node n (entry_node e)); rewrite ?fmap_cons, IH.
Qed.

(** Without the entries of the node that joined, the ring is the one before. *)
Lemma ring_without n r : ring_wf r -> fresh_node n r -> List.filter (other_node n) (ring (Ring.add_node n r)) = ring r.
Proof.
  intros Hr Hf. pose proof (fresh_not_in n r Hr Hf) as Hn. pose proof (ring_sorted r Hr) as Hs.
  rewrite add_node_fresh by done. cbn [ring]. pose proof (insert_positions_wf n (Ring.virtuals r) _ Hs) as Hs'.
  apply om_ext_elem; [by apply om_filter_wf|done|]. intros [k [n' vn]].
  rewrite filter_elem. unfold other_node, not_node, entry_node. cbn [fst snd]. rewrite bool_decide_eq_true.
  rewrite <- (om_get_elem k (n', vn) (insert_positions _ _ _)), <- (om_get_elem k (n', vn) (ring r)) by done.
  destruct (insert_positions_get n (Ring.virtuals r) (ring r) k Hs) as [(v & Hv & -> & v' & ->)|[_ ->]].
  - rewrite (proj2 Hf v Hv). naive_solver.
  - split; [naive_solver|]. intros He. split; [done|]. intros ->. apply om_get_elem, (ring_entry r Hr) in He as [He _]; [|done].
    by apply Hn.
Qed.

Lemma clockwise_without n r h :
  ring_wf r -> fresh_node n r -> List.filter (not_node n) (clockwise (Ring.add_node n r) h) = clockwise r h.
Proof.
  intros Hr Hf. unfold clockwise. rewrite <- distinct_filter, filter_fmap_node, List.filter_app.
  pose proof (ring_without n r Hr Hf) as Hw. rewrite Hw. do 3 f_equal. rewrite <- Hw. unfold om_range_from.
  rewrite !filter_filter. apply filter_cong. intros x _. apply andb_comm.
Qed.

Lemma take_filter_prefix {A} (f : A -> bool) m m' (l : list A) :
  (length (List.filter f (take m' l)) <= m)%nat -> List.filter f (take m' l) `prefix_of` take m (List.filter f l).
Proof.
  intros Hlen. rewrite <- (take_drop m' l) at 2. rewrite List.filter_app, take_app_ge by done.
  by apply prefix_app_r.
Qed.

(** The hosts of a partition after a node joined are, but for that node, the first
    of those it had before. *)
Lemma get_nodes_add n r h count :
  ring_wf r -> ring_nodes r <> [] -> fresh_node n r ->
  List.filter (not_node n) (Ring.get_nodes (Ring.add_node n r) h count) `prefix_of` Ring.get_nodes r h count.
Proof.
  intros Hr Hne Hf. pose proof (add_node_wf n r Hr Hf) as Hr'. rewrite !get_nodes_spec by done.
  rewrite <- (clockwise_without n r h Hr Hf). apply take_filter_prefix.
  assert (H1 : (length (List.filter (not_node n) (take (replica_count (Ring.add_node n r) count) (clockwise (Ring.add_node n r) h)))
    <= length (List.filter (not_node n) (clockwise (Ring.add_node n r) h)))%nat).
  { rewrite <- (take_drop (replica_count (Ring.add_node n r) count) (clockwise (Ring.add_node n r) h)) at 2.
    rewrite List.filter_app, length_app. lia. }
  rewrite clockwise_without, clockwise_length in H1 by done.
  pose proof (List.filter_length_le (not_node n) (take (replica_count (Ring.add_node n r) count) (clockwise (Ring.add_node n r) h))) as H2.
  rewrite length_take in H2. unfold replica_count in *. rewrite add_node_fresh in * by done.
  cbn [ring_nodes] in *. rewrite length_app in *. cbn [length] in *. destruct (ring_nodes r); [done|]. simpl in *. lia.
Qed.

(** ** Assignments *)

Definition assigned (a : PartitionAssignment) : list RingNode := primary a :: pa_replicas a.

Lemma assignment_of_spec r p :
  ring_wf r -> ring_nodes r <> [] -> exists a, Ring.assignment_of r p = Some a /\ pa_part_id a = p /\
    assigned a = Ring.get_nodes r (hash_bytes (le_bytes 4 p)) (replica_factor r).
Proof.
  intros Hr Hne. unfold Ring.assignment_of. rewrite get_nodes_spec by done.
  pose proof (clockwise_length r (hash_bytes (le_bytes 4 p)) Hr) as Hl. unfold replica_count.
  destruct (clockwise r _) as [|n l]; [by destruct (ring_nodes r)|].
  replace (Nat.max 1 _) with (S (Nat.max 1 (Nat.min (Z.to_nat (replica_factor r)) (length (ring_nodes r))) - 1)) by lia.
  cbn [take]. by eexists.
Qed.

Lemma all_assignments r : ring_wf r -> (Ring.get_all_assignments r).1 = Ring.compute_assignments r.
Proof.
  intros Hr. unfold Ring.get_all_assignments, Ring.ensure_assignments.
  destruct (assignments_cache r) as [a|] eqn:E; cbn [fst]; [|done]. rewrite E. by apply (ring_cache r Hr).
Qed.

Lemma assignments_forall2 r r' (P : PartitionAssignment -> PartitionAssignment -> Prop) :
  ring_nodes r <> [] -> ring_nodes r' <> [] -> partition_num r' = partition_num r ->
  (forall p, exists a a', Ring.assignment_of r p = Some a /\ Ring.assignment_of r' p = Some a' /\ P a a') ->
  Forall2 P (Ring.compute_assignments r) (Ring.compute_assignments r').
Proof.
  intros Hne Hne' Hp H. unfold Ring.compute_assignments. rewrite Hp.
  destruct (ring_nodes r), (ring_nodes r'); [done..|].
  induction (seqZ 1 (partition_num r)) as [|p ps IH]; [constructor|].
  cbn [filter_map]. destruct (H p) as (a & a' & -> & -> & HP). by constructor.
Qed.

Lemma assignment_ids r :
  ring_wf r -> ring_nodes r <> [] -> pa_part_id <$> (Ring.get_all_assignments r).1 = seqZ 1 (partition_num r).
Proof.
  intros Hr Hne. rewrite all_assignments by done. unfold Ring.compute_assignments.
  destruct (ring_nodes r) as [|n0 ns] eqn:E; [done|]. rewrite <- E in *.
  induction (seqZ 1 (partition_num r)) as [|p l IH]; [done|]. cbn [filter_map].
  destruct (assignment_of_spec r p Hr Hne) as (a & -> & <- & _). cbn [fmap list_fmap]. by f_equal.
Qed.

(** With at least one node registered, every partition from 1 to their number is
    assigned, in order, to as many nodes as the replication factor asks for, but at
    least one and at most all; the nodes of a partition are distinct and registered. *)
Theorem ring_assignment_spread r :
  ring_wf r -> ring_nodes r <> [] ->
  let assignments := (Ring.get_all_assignments r).1 in
  pa_part_id <$> assignments = seqZ 1 (partition_num r) /\
  forall a, a ∈ assignments ->
    NoDup (assigned a) /\ (forall n, n ∈ assigned a -> n ∈ ring_nodes r) /\
    length (assigned a) = Nat.max 1 (Nat.min (Z.to_nat (replica_factor r)) (length (ring_nodes r))).
Proof.
  intros Hr Hne. cbv zeta. split; [by apply assignment_ids|]. rewrite all_assignments by done.
  unfold Ring.compute_assignments. destruct (ring_nodes r) as [|n0 ns] eqn:E; [done|]. rewrite <- E in *.
  intros a (p & _ & Ha)%elem_of_filter_map. destruct (assignment_of_spec r p Hr Hne) as (a' & Ha' & _ & Hn).
  assert (a' = a) as -> by congruence. rewrite Hn, get_nodes_spec by done. split; [|split].
  + apply (sublist_NoDup _ (clockwise r (hash_bytes (le_bytes 4 p)))); [apply distinct_nodup|apply sublist_take].
  + intros n Hin. apply (clockwise_elem r (hash_bytes (le_bytes 4 p)) n Hr).
    by apply elem_of_take in Hin as (i & ? & _); eapply list_elem_of_lookup_2.
  + rewrite length_take, clockwise_length by done. unfold replica_count. rewrite E. simpl. lia.
Qed.

(** C27: when a node joins, each partition keeps its nodes: the nodes assigned to it
    afterwards, but for the new one, are the first of those assigned before, in the
    same order, so data moves only to the new node; and when the node leaves again,
    all assignments are those from before it joined. *)
Theorem ring_minimal_movement n r :
  ring_wf r -> ring_nodes r <> [] -> fresh_node n r ->
  let r' := Ring.add_node n r in
  ring_wf r' /\
  Forall2 (fun a a' => pa_part_id a = pa_part_id a' /\ List.filter (not_node n) (assigned a') `prefix_of` assigned a)
    (Ring.get_all_assignments r).1 (Ring.get_all_assignments r').1 /\
  ring_wf (Ring.remove_node n r') /\
  (Ring.get_all_assignments (Ring.remove_node n r')).1 = (Ring.get_all_assignments r).1.
Proof.
  intros Hr Hne Hf. cbv zeta. pose proof (add_node_wf n r Hr Hf) as Hr'. pose proof (remove_node_wf n _ Hr') as Hr''.
  rewrite !all_assignments by done. split; [done|]. split; [|split; [done|]].
  - assert (Hne' : ring_nodes (Ring.add_node n r) <> []) by (rewrite add_node_fresh by done; by destruct (ring_nodes r)).
    apply assignments_forall2; [done..|by rewrite add_node_fresh|]. intros p.
    destruct (assignment_of_spec r p Hr Hne) as (a & Ha & Hp & Hn).
    destruct (assignment_of_spec _ p Hr' Hne') as (a' & Ha' & Hp' & Hn'). exists a, a'. do 2 (split; [done|]).
    split; [congruence|]. rewrite Hn, Hn'. replace (replica_factor (Ring.add_node n r)) with (replica_factor r)
      by (by rewrite add_node_fresh). by apply get_nodes_add.
  - set (r0 := mkRing (ring_config r) (ring r) (ring_nodes r) (partition_num r) (replica_factor r) None).
    assert (Hr0 : ring_wf r0) by (constructor; try apply Hr; done).
    assert (Hadd : Ring.add_node n r = Ring.add_node n r0) by by rewrite !add_node_fresh.
    by rewrite Hadd, remove_add_node.
Qed.

(** ** Migration tasks *)

Section migrations.
Context `{HashSetLaws}.

(** The one node the replica tasks of a partition can go to. *)
Definition replica_target (a a' : PartitionAssignment) : option RingNode :=
  List.find (fun n => negb (bool_decide (n ∈ hash_set_iter (pa_replicas a)))) (hash_set_iter (pa_replicas a')).

Lemma partition_tasks_replica a a' t :
  t ∈ Ring.partition_tasks a a' -> is_primary t = false ->
  replica_target a a' = Some (mt_to t) /\ mt_from t ∈ pa_replicas a /\ mt_from t ∉ pa_replicas a'.
Proof.
  unfold Ring.partition_tasks. intros [Ht|Ht]%elem_of_app Hp.
  - destruct (decide (primary a = primary a')); [by apply elem_of_nil in Ht|].
    apply list_elem_of_singleton in Ht. by subst.
  - apply elem_of_filter_map in Ht as (n & Hn & Ht). destruct (decide _) as [|Hn']; [done|].
    rewrite hash_set_elem in Hn, Hn'. fold (replica_target a a') in Ht.
    destruct (replica_target a a') as [x|]; [|done]. by injection Ht as <-.
Qed.

Lemma partition_tasks_part a a' t : t ∈ Ring.partition_tasks a a' -> mt_part_id t = pa_part_id a.
Proof.
  unfold Ring.partition_tasks. intros [Ht|Ht]%elem_of_app.
  - destruct (decide (primary a = primary a')); [by apply elem_of_nil in Ht|].
    apply list_elem_of_singleton in Ht. by subst.
  - apply elem_of_filter_map in Ht as (n & Hn & Ht). destruct (decide _) as [|Hn']; [done|].
    destruct (List.find _ _) as [x|]; [|done]. by injection Ht as <-.
Qed.

Lemma migrations_elem old new t :
  t ∈ (Ring.compute_migrations old new).1 <-> exists i a a',
    (Ring.get_all_assignments old).1 !! i = Some a /\ (Ring.get_all_assignments new).1 !! i = Some a' /\
    t ∈ Ring.partition_tasks a a'.
Proof.
  unfold Ring.compute_migrations. destruct (Ring.get_all_assignments old) as [l o], (Ring.get_all_assignments new) as [l' o'].
  cbn [fst]. rewrite list_elem_of_In, in_concat. split.
  - intros (ts & (i & Hi)%list_elem_of_In%list_elem_of_lookup_1 & Ht%list_elem_of_In).
    rewrite lookup_zip_with in Hi. destruct (l !! i) as [a|] eqn:Ea, (l' !! i) as [a'|] eqn:Ea'; try done.
    simpl in Hi. injection Hi as <-. by exists i, a, a'.
  - intros (i & a & a' & Ea & Ea' & Ht). exists (Ring.partition_tasks a a'). rewrite <- !list_elem_of_In. split; [|done].
    apply list_elem_of_lookup_2 with i. by rewrite lookup_zip_with, Ea, Ea'.
Qed.

(** All the tasks that move replicas of a partition have the same destination, and
    there are none unless a node stops being a replica: of two nodes that become
    replicas of a partition one is given no data, and so is a replica that is added. *)
Theorem migration_misses_replicas old new i a a' :
  ring_wf old -> ring_nodes old <> [] ->
  (Ring.get_all_assignments old).1 !! i = Some a -> (Ring.get_all_assignments new).1 !! i = Some a' ->
  exists destination, forall t,
    t ∈ (Ring.compute_migrations old new).1 -> mt_part_id t = pa_part_id a -> is_primary t = false ->
    mt_to t = destination /\ mt_from t ∈ pa_replicas a /\ mt_from t ∉ pa_replicas a'.
Proof.
  intros Hr Hne Ha Ha'. exists (default (primary a) (replica_target a a')).
  intros t (j & b & b' & Hb & Hb' & Ht)%migrations_elem Hp Hrep.
  assert (i = j) as <-.
  { apply (NoDup_lookup (seqZ 1 (partition_num old)) i j (pa_part_id a)); [apply NoDup_seqZ|..];
      rewrite <- (assignment_ids old Hr Hne), list_lookup_fmap.
    - by rewrite Ha.
    - rewrite Hb. simpl. by rewrite <- (partition_tasks_part b b' t Ht), Hp. }
  assert (b = a) as -> by congruence. assert (b' = a') as -> by congruence.
  destruct (partition_tasks_replica a a' t Ht Hrep) as (-> & ? & ?). done.
Qed.
End migrations.

(** A ring of two hosts, three positions each, and a third host. *)
Definition two_hosts : ConsistentHashRing :=
  Ring.from_hosts 4 2 [(bs "host1", 9779); (bs "host2", 9779)] {| virtual_nodes := 3 |}.
Definition third_host : RingNode := mkNode (bs "host3") 9779.

Lemma ring_new_wf n f c : 0 < virtual_nodes c -> ring_wf (Ring.new n f c).
Proof. intros Hc. constructor; try done; try constructor; try set_solver. Qed.

Lemma fresh_by_check n r :
  node_ok n -> forallb (fun v => match om_get (Ring.position n v) (ring r) with None => true | _ => false end) (Ring.virtuals r) = true ->
  fresh_node n r.
Proof.
  intros Hok Hf. split; [done|]. rewrite forallb_forall in Hf. intros v Hv%list_elem_of_In%Hf. by destruct (om_get _ _).
Qed.

Lemma two_hosts_wf : ring_wf two_hosts.
Proof. do 2 (apply add_node_wf; [|by apply fresh_by_check; vm_compute]). by apply ring_new_wf. Qed.

Lemma ring_assignment_spread_witness :
  pa_part_id <$> (Ring.get_all_assignments two_hosts).1 = [1; 2; 3; 4].
Proof. refine (proj1 (ring_assignment_spread two_hosts _ _)); [apply two_hosts_wf|by vm_compute]. Defined.

Lemma ring_minimal_movement_witness :
  (Ring.get_all_assignments (Ring.remove_node third_host (Ring.add_node third_host two_hosts))).1 =
  (Ring.get_all_assignments two_hosts).1.
Proof.
  destruct (ring_minimal_movement third_host two_hosts two_hosts_wf) as (_ & _ & _ & H);
    [by vm_compute|by apply fresh_by_check; vm_compute|exact H].
Defined.

(** A second host joins a single one, with two replicas asked for: it becomes a
    replica of every partition, and no data is sent to it. *)
Definition one_host : ConsistentHashRing := Ring.from_hosts 2 2 [(bs "host1", 9779)] {| virtual_nodes := 3 |}.

#[local] Instance list_order : HashSetOrder := fun l => remove_dups l.
#[local] Instance list_order_laws : HashSetLaws.
Proof. split; [apply elem_of_remove_dups|apply NoDup_remove_dups]. Qed.

Lemma migration_misses_replicas_witness :
  let new := Ring.add_node (mkNode (bs "host2") 9779) one_host in
  exists a, (Ring.get_all_assignments new).1 !! 0%nat = Some a /\ pa_replicas a <> [] /\
  forall t, t ∈ (Ring.compute_migrations one_host new).1 -> mt_part_id t = 1 -> is_primary t = true.
Proof.
  intros new.
  assert (Hwf : ring_wf one_host).
  { apply add_node_wf; [by apply ring_new_wf|by apply fresh_by_check; vm_compute]. }
  destruct (migration_misses_replicas one_host new 0 (mkAssignment 1 (mkNode (bs "host1") 9779) [])
    (default (mkAssignment 0 third_host []) ((Ring.get_all_assignments new).1 !! 0%nat)) Hwf) as [d Hd];
    [by vm_compute..|].
  eexists. split; [by vm_compute|]. split; [done|]. intros t Ht Hp. destruct (is_primary t) eqn:E; [done|].
  destruct (Hd t Ht Hp E) as (_ & Hin & _). by apply elem_of_nil in Hin.
Defined.
