(* ===== verification/Exec.v ===== *)
(** * Executor errors and store programs

    The error types of [byoridb-executor/src/error.rs] and
    [byoridb-storage/src/error.rs], and executor code that calls the store: a
    program is a sequence of store calls, each atomic, so that the same definition
    is run alone or interleaved with others. *)

From Stdlib Require Import ZArith Lia Strings.Byte Strings.String.
From stdpp Require Import base tactics list.
From S2P Require Import Prelude OrdMap History KVStore Text.

Inductive StorageError :=
| StKeyNotFound
| StSpaceNotFound (space : Z)
| StPartitionNotFound (space part : Z)
| StKVStore (e : KVStoreError)
| StCodec (msg : string)
| StInvalidSchema (msg : bytes)
| StIndex (msg : bytes)
| StTransaction (msg : bytes)
| StInternal (msg : bytes)
| StEncodingError (msg : bytes)
| StDecodingError (msg : bytes)
| StStoreError (msg : bytes).

(** Errors of the parser, of I/O and of [serde_json] appear by their text. *)
Inductive ExecutionError :=
| ExParse (msg : string)
| ExStorage (e : StorageError)
| SpaceNotFound (name : bytes)
| TagNotFound (name : bytes)
| EdgeNotFound (name : bytes)
| ExIndexNotFound (name : bytes)
| VertexNotFound (name : bytes)
| TypeMismatch (msg : bytes)
| ConstraintViolation (msg : bytes)
| InvalidOperation (msg : bytes)
| ResourceExhausted (msg : bytes)
| ExIo (msg : string)
| ExSerialization (msg : string).

(** [From<KVStoreError>]. *)
Definition from_kv_error (e : KVStoreError) : ExecutionError := ExStorage (StKVStore e).

(** A program that calls the store. [Spin] stands for a loop that did not end. *)
Inductive Prog (A : Type) :=
| Ret (a : A)
| Throw (e : ExecutionError)
| CallGet (key : bytes) (k : option bytes -> Prog A)
| CallScanLimited (prefix : bytes) (limit : option nat) (k : list kv_pair -> Prog A)
| CallPutIfAbsent (key value : bytes) (k : option bytes -> Prog A)
| Spin.
Arguments Ret {A} _.
Arguments Throw {A} _.
Arguments CallGet {A} _ _.
Arguments CallScanLimited {A} _ _ _.
Arguments CallPutIfAbsent {A} _ _ _.
Arguments Spin {A}.

Fixpoint p_bind {A B} (p : Prog A) (f : A -> Prog B) : Prog B :=
  match p with
  | Ret a => f a
  | Throw e => Throw e
  | CallGet key k => CallGet key (fun r => p_bind (k r) f)
  | CallScanLimited prefix limit k => CallScanLimited prefix limit (fun r => p_bind (k r) f)
  | CallPutIfAbsent key value k => CallPutIfAbsent key value (fun r => p_bind (k r) f)
  | Spin => Spin
  end.

Notation "x <-~ p ;; k" := (p_bind p (fun x => k))
  (at level 100, p at next level, right associativity) : byori_scope.

Definition p_get (key : bytes) : Prog (option bytes) := CallGet key Ret.
Definition p_scan_prefix_limited (prefix : bytes) (limit : option nat) : Prog (list kv_pair) :=
  CallScanLimited prefix limit Ret.
Definition p_put_if_absent (key value : bytes) : Prog (option bytes) := CallPutIfAbsent key value Ret.

(** [loop] with at most [n] rounds: a round goes on with a new state or breaks. *)
Fixpoint p_loop {X A} (n : positive) (body : X -> Prog (X + A)) (x : X) : Prog (X + A) :=
  match n with
  | xH => body x
  | xO n =>
      r <-~ p_loop n body x ;;
      match r with inl x' => p_loop n body x' | inr a => Ret (inr a) end
  | xI n =>
      r <-~ body x ;;
      match r with
      | inr a => Ret (inr a)
      | inl x' =>
          r <-~ p_loop n body x' ;;
          match r with inl x'' => p_loop n body x'' | inr a => Ret (inr a) end
      end
  end.

Definition p_loop_bounded {X A} (n : positive) (body : X -> Prog (X + A)) (x : X) : Prog A :=
  r <-~ p_loop n body x ;;
  match r with inr a => Ret a | inl _ => Spin end.

Section run.
Context {S : Type} `{KVStoreRequired S} `{KVStoreProvided S}.

(** Run alone on a store; [None] if it does not end. *)
Fixpoint p_run {A} (p : Prog A) (s : S) : option (Result ExecutionError A) * S :=
  match p with
  | Ret a => (Some (Ok a), s)
  | Throw e => (Some (Err e), s)
  | CallGet key k =>
      match kv_get key s with
      | (Ok r, s') => p_run (k r) s'
      | (Err e, s') => (Some (Err (from_kv_error e)), s')
      end
  | CallScanLimited prefix limit k =>
      match kv_scan_prefix_limited prefix limit s with
      | (Ok r, s') => p_run (k r) s'
      | (Err e, s') => (Some (Err (from_kv_error e)), s')
      end
  | CallPutIfAbsent key value k =>
      match kv_put_if_absent key value s with
      | (Ok r, s') => p_run (k r) s'
      | (Err e, s') => (Some (Err (from_kv_error e)), s')
      end
  | Spin => (None, s)
  end.
End run.

(** ** [serde_json::Value]

    A number is an integer of [u64] or of [i64], or a float, given by its bits. *)

#[warnings="-register-all"] Inductive JsonValue :=
| JNull
| JBool (b : bool)
| JInt (z : Z)
| JFloat (bits : Z)
| JString (s : bytes)
| JArray (l : list JsonValue)
| JObject (fields : list (bytes * JsonValue)).

Fixpoint assoc_lookup {A} (key : bytes) (l : list (bytes * A)) : option A :=
  match l with
  | [] => None
  | (k, v) :: l => if decide (k = key) then Some v else assoc_lookup key l
  end.

Definition json_get (key : bytes) (v : JsonValue) : option JsonValue :=
  match v with JObject fields => assoc_lookup key fields | _ => None end.
Definition json_as_u64 (v : JsonValue) : option Z :=
  match v with JInt z => if bool_decide (u64_ok z) then Some z else None | _ => None end.
Definition json_as_i64 (v : JsonValue) : option Z :=
  match v with JInt z => if bool_decide (i64_ok z) then Some z else None | _ => None end.
Definition json_as_array (v : JsonValue) : option (list JsonValue) := match v with JArray l => Some l | _ => None end.
Definition json_as_object (v : JsonValue) : option (list (bytes * JsonValue)) :=
  match v with JObject l => Some l | _ => None end.
Definition json_as_str (v : JsonValue) : option bytes := match v with JString s => Some s | _ => None end.

(** ** Programs *)

Lemma p_run_bind {S} `{KVStoreRequired S} `{KVStoreProvided S} {A B} (p : Prog A) (f : A -> Prog B) (s : S) :
  p_run (p_bind p f) s =
    match p_run p s with
    | (Some (Ok a), s') => p_run (f a) s'
    | (Some (Err e), s') => (Some (Err e), s')
    | (None, s') => (None, s')
    end.
Proof.
  revert s. induction p as [a|e|key k IH|pre lim k IH|key v k IH|]; intros s; try done; simpl.
  - by destruct (kv_get key s) as [[r|e] s'].
  - by destruct (kv_scan_prefix_limited pre lim s) as [[r|e] s'].
  - by destruct (kv_put_if_absent key v s) as [[r|e] s'].
Qed.
