(* ===== verification/Evaluator.v ===== *)
(** * Expressions

    [byoridb-parser/src/ast.rs] (expressions) and
    [byoridb-executor/src/evaluator.rs]: the value of an expression in a context of
    properties, with the operators, the functions and the condition of a WHERE or
    WHEN clause. An outcome [None] is a panic. *)

From Stdlib Require Import ZArith Lia Strings.Byte Strings.String Floats.SpecFloat.
From stdpp Require Import base tactics list gmap.
From S2P Require Import Prelude Text Value Exec.

(** ** Syntax *)

Inductive Literal :=
| LBool (b : bool)
| LInt (i : Z)
| LFloat (bits : Z)
| LString (s : bytes)
| LNull.

Inductive BinaryOperator :=
| OpAdd | OpSub | OpMul | OpDiv | OpMod | OpEq | OpNeq | OpLt | OpLte | OpGt | OpGte | OpAnd | OpOr | OpRegex | OpContains
| OpNotContains | OpIn | OpNotIn | OpStartsWith | OpEndsWith.

Inductive UnaryOperator := OpNeg | OpNot.

(** The entries of a map are listed in the order in which the hash map yields them;
    their keys are distinct. *)
#[warnings="-register-all"] Inductive Expression :=
| Lit (l : Literal)
| Identifier (name : bytes)
| BinaryOp (op : BinaryOperator) (left right : Expression)
| UnaryOp (op : UnaryOperator) (operand : Expression)
| FunctionCall (name : bytes) (args : list Expression)
| EList (items : list Expression)
| EMap (entries : list (bytes * Expression))
| PropRef (object prop : bytes)
| DstVertexProp (tag prop : bytes).

(** ** What the evaluator takes from the platform

    The debug text of values and expressions and the display of JSON for messages; case mapping of
    text that is not ASCII; regular expressions ([None] for an invalid pattern); the
    order in which a hash map yields its values; and the bits of a NaN that an
    operation on floats yields, which the language leaves open. *)

Class MessageText := {
  json_display : JsonValue -> bytes;
  value_debug : Value -> bytes;
  expression_debug : Expression -> bytes
}.

Class EvalPlatform := {
  unicode_lower : bytes -> bytes;
  unicode_upper : bytes -> bytes;
  regex_is_match : bytes -> bytes -> option bool;
  map_values : gmap bytes (gmap bytes Value) -> list (gmap bytes Value);
  map_values_perm m : map_values m ≡ₚ (map_to_list m).*2;
  nan_bits : Z -> Z -> Z;
  nan_bits_nan a b : f64_value (nan_bits a b) = S754_nan
}.

Definition is_ascii (s : bytes) : bool := forallb (fun b => b2z b <? 128) s.

(** [str::to_lowercase], [str::to_uppercase]. *)
Definition shift_case (first last : Z) (offset : Z) (b : byte) : byte :=
  if (first <=? b2z b) && (b2z b <=? last) then z2b (b2z b + offset) else b.
Definition to_lowercase `{EvalPlatform} (s : bytes) : bytes :=
  if is_ascii s then shift_case 65 90 32 <$> s else unicode_lower s.
Definition to_uppercase `{EvalPlatform} (s : bytes) : bytes :=
  if is_ascii s then shift_case 97 122 (-32) <$> s else unicode_upper s.

(** [str::contains], [str::ends_with]. *)
Fixpoint contains (sub s : bytes) : bool :=
  starts_with sub s || match s with [] => false | _ :: s => contains sub s end.
Definition ends_with (suffix s : bytes) : bool := starts_with (rev suffix) (rev s).

(** ** Floats

    Arithmetic of [f64] on bits, rounded to nearest, ties to even. *)

Definition sign_bit (s : bool) : Z := if s then two63 else 0.

(** The bits of a float; [nan] are those of a NaN. *)
Definition f64_bits (nan : Z) (f : spec_float) : Z :=
  match f with
  | S754_nan => nan
  | S754_infinity s => sign_bit s + Z.shiftl 0x7ff 52
  | S754_zero s => sign_bit s
  | S754_finite s m e =>
      sign_bit s + if Z.pos m <? 2 ^ 52 then Z.pos m else Z.shiftl (e + 1075) 52 + (Z.pos m - 2 ^ 52)
  end.

Section floats.
Context `{EvalPlatform}.

Definition f64_op (op : spec_float -> spec_float -> spec_float) (a b : Z) : Z :=
  f64_bits (nan_bits a b) (op (f64_value a) (f64_value b)).
Definition f64_add : Z -> Z -> Z := f64_op (SFadd 53 1024).
Definition f64_sub : Z -> Z -> Z := f64_op (SFsub 53 1024).
Definition f64_mul : Z -> Z -> Z := f64_op (SFmul 53 1024).
Definition f64_div : Z -> Z -> Z := f64_op (SFdiv 53 1024).
End floats.

(** Negation and [abs] change the sign bit only. *)
Definition f64_neg (bits : Z) : Z := Z.lxor bits two63.
Definition f64_abs (bits : Z) : Z := Z.ldiff bits two63.

(** [f64::EPSILON], [2^-52]; [(l - r).abs() < f64::EPSILON]. *)
Definition EPSILON : Z := 0x3cb0000000000000.
Definition f64_near (l r : Z) : bool :=
  SFltb (SFabs (SFsub 53 1024 (f64_value l) (f64_value r))) (f64_value EPSILON).

(** [l.partial_cmp(r).unwrap_or(Ordering::Equal)]. *)
Definition f64_cmp (l r : Z) : comparison := default Eq (SFcompare (f64_value l) (f64_value r)).

(** [f.round_to_int() as i64] for a rounding given as a division: the cast saturates and
    turns a NaN into 0. *)
Definition sat_i64 (z : Z) : Z := Z.max I64_MIN (Z.min I64_MAX z).
Definition f64_to_i64 (divide : Z -> Z -> Z) (bits : Z) : Z :=
  match f64_value bits with
  | S754_nan | S754_zero _ => 0
  | S754_infinity s => if s then I64_MIN else I64_MAX
  | S754_finite s m e =>
      let z := if s then Z.neg m else Z.pos m in
      sat_i64 (if 0 <=? e then Z.shiftl z e else divide z (2 ^ (- e)))
  end.
Definition div_ceil (a b : Z) : Z := - (- a / b).
Definition div_round (a b : Z) : Z := Z.sgn a * ((2 * Z.abs a + b) / (2 * b)).

(** ** Contexts *)

Record EvalContext := mkEvalContext {
  current : gmap bytes Value;
  source : gmap bytes Value;
  destination : gmap bytes Value;
  variables : gmap bytes (gmap bytes Value)
}.

Definition empty_context : EvalContext := mkEvalContext ∅ ∅ ∅ ∅.
Definition with_current (ctx : EvalContext) (props : gmap bytes Value) : EvalContext :=
  mkEvalContext props (source ctx) (destination ctx) (variables ctx).
Definition with_source (ctx : EvalContext) (props : gmap bytes Value) : EvalContext :=
  mkEvalContext (current ctx) props (destination ctx) (variables ctx).
Definition with_destination (ctx : EvalContext) (props : gmap bytes Value) : EvalContext :=
  mkEvalContext (current ctx) (source ctx) props (variables ctx).
Definition with_variable (ctx : EvalContext) (name : bytes) (props : gmap bytes Value) : EvalContext :=
  mkEvalContext (current ctx) (source ctx) (destination ctx) (<[name := props]> (variables ctx)).

Definition DOT : byte := "."%byte.

(** [or_else] on options. *)
Definition or_else {A} (o : option A) (o' : option A) : option A := match o with Some a => Some a | None => o' end.

Definition qualified_or_bare (props : gmap bytes Value) (tag prop : bytes) : option Value :=
  or_else (props !! (tag ++ bs "." ++ prop)) (props !! prop).

Section evaluator.
Context `{EvalPlatform} `{MessageText}.

Definition get_property (ctx : EvalContext) (path : bytes) : option Value :=
  match split_on DOT path with
  | [side; tag; prop] =>
      if bool_decide (side = bs "$$") then qualified_or_bare (destination ctx) tag prop
      else if bool_decide (side = bs "$^") then qualified_or_bare (source ctx) tag prop
      else None
  | [tag; prop] =>
      match variables ctx !! tag with
      | Some var_props => var_props !! prop
      | None => qualified_or_bare (current ctx) tag prop
      end
  | [name] =>
      or_else (current ctx !! name) (head (omap (fun var_props => var_props !! name) (map_values (variables ctx))))
  | _ => None
  end.

(** ** Operators *)

(** What an evaluation yields; [None] is a panic. *)
Definition Outcome (A : Type) : Type := option (Result ExecutionError A).
Definition ok {A} (a : A) : Outcome A := Some (Ok a).
Definition mismatch {A} (msg : bytes) : Outcome A := Some (Err (TypeMismatch msg)).
Definition invalid {A} (msg : bytes) : Outcome A := Some (Err (InvalidOperation msg)).
Definition null : Value := VNull NullNull.

Definition eval_literal (lit : Literal) : Value :=
  match lit with
  | LBool b => VBool b
  | LInt i => VInt i
  | LFloat f => VFloat f
  | LString s => VString s
  | LNull => null
  end.

Definition eval_add (left right : Value) : Outcome Value :=
  match left, right with
  | VInt l, VInt r => ok (VInt (as_i64 (l + r)))
  | VFloat l, VFloat r => ok (VFloat (f64_add l r))
  | VInt l, VFloat r => ok (VFloat (f64_add (f64_of_int l) r))
  | VFloat l, VInt r => ok (VFloat (f64_add l (f64_of_int r)))
  | VString l, VString r => ok (VString (l ++ r))
  | VNull _, _ | _, VNull _ => ok null
  | l, r => mismatch (bs "Cannot add " ++ value_debug l ++ bs " and " ++ value_debug r)
  end.

Definition eval_sub (left right : Value) : Outcome Value :=
  match left, right with
  | VInt l, VInt r => ok (VInt (as_i64 (l - r)))
  | VFloat l, VFloat r => ok (VFloat (f64_sub l r))
  | VInt l, VFloat r => ok (VFloat (f64_sub (f64_of_int l) r))
  | VFloat l, VInt r => ok (VFloat (f64_sub l (f64_of_int r)))
  | VNull _, _ | _, VNull _ => ok null
  | l, r => mismatch (bs "Cannot subtract " ++ value_debug r ++ bs " from " ++ value_debug l)
  end.

Definition eval_mul (left right : Value) : Outcome Value :=
  match left, right with
  | VInt l, VInt r => ok (VInt (as_i64 (l * r)))
  | VFloat l, VFloat r => ok (VFloat (f64_mul l r))
  | VInt l, VFloat r => ok (VFloat (f64_mul (f64_of_int l) r))
  | VFloat l, VInt r => ok (VFloat (f64_mul l (f64_of_int r)))
  | VNull _, _ | _, VNull _ => ok null
  | l, r => mismatch (bs "Cannot multiply " ++ value_debug l ++ bs " and " ++ value_debug r)
  end.

(** A divisor that is zero, of either sign for a float. *)
Definition zero_int (v : Value) : bool := match v with VInt i => i =? 0 | _ => false end.
Definition zero_float (v : Value) : bool :=
  match v with VFloat f => match f64_value f with S754_zero _ => true | _ => false end | _ => false end.

(** Integer division truncates; the quotient of [i64::MIN] by [-1] panics, and so does
    its remainder. *)
Definition overflows (l r : Z) : bool := (l =? I64_MIN) && (r =? -1).
Definition i64_div (l r : Z) : Outcome Value := if overflows l r then None else ok (VInt (Z.quot l r)).
Definition i64_rem (l r : Z) : Outcome Value := if overflows l r then None else ok (VInt (Z.rem l r)).

Definition eval_div (left right : Value) : Outcome Value :=
  if zero_int right || zero_float right then invalid (bs "Division by zero") else
  match left, right with
  | VInt l, VInt r => i64_div l r
  | VFloat l, VFloat r => ok (VFloat (f64_div l r))
  | VInt l, VFloat r => ok (VFloat (f64_div (f64_of_int l) r))
  | VFloat l, VInt r => ok (VFloat (f64_div l (f64_of_int r)))
  | VNull _, _ | _, VNull _ => ok null
  | l, r => mismatch (bs "Cannot divide " ++ value_debug l ++ bs " by " ++ value_debug r)
  end.

Definition eval_mod (left right : Value) : Outcome Value :=
  if zero_int right then invalid (bs "Modulo by zero") else
  match left, right with
  | VInt l, VInt r => i64_rem l r
  | VNull _, _ | _, VNull _ => ok null
  | l, r => mismatch (bs "Cannot modulo " ++ value_debug l ++ bs " by " ++ value_debug r)
  end.

Fixpoint values_equal (left right : Value) : bool :=
  match left, right with
  | VNull _, VNull _ => true
  | VNull _, _ | _, VNull _ => false
  | VInt l, VInt r => l =? r
  | VFloat l, VFloat r => f64_near l r
  | VInt l, VFloat r => f64_near (f64_of_int l) r
  | VFloat l, VInt r => f64_near l (f64_of_int r)
  | VString l, VString r => bool_decide (l = r)
  | VBool l, VBool r => Bool.eqb l r
  | VList l, VList r => slice_eq values_equal l r
  | _, _ => false
  end.

(** [left IN right]: a match wins over an unknown, an unknown over no match. *)
Fixpoint eval_in_items (left : Value) (items : list Value) (saw_null : bool) : Value :=
  match items with
  | [] => if saw_null then null else VBool false
  | item :: items =>
      if values_equal left item then VBool true else eval_in_items left items (saw_null || is_null item)
  end.
Definition eval_in (left right : Value) : Value :=
  if is_null left then null else
  match right with
  | VList items => eval_in_items left items false
  | _ => VBool false
  end.

Definition eval_compare (left right : Value) (holds : comparison -> bool) : Outcome Value :=
  match left, right with
  | VNull _, _ | _, VNull _ => ok null
  | VInt l, VInt r => ok (VBool (holds (cmp l r)))
  | VFloat l, VFloat r => ok (VBool (holds (f64_cmp l r)))
  | VInt l, VFloat r => ok (VBool (holds (f64_cmp (f64_of_int l) r)))
  | VFloat l, VInt r => ok (VBool (holds (f64_cmp l (f64_of_int r))))
  | VString l, VString r => ok (VBool (holds (cmp l r)))
  | _, _ => mismatch (bs "Cannot compare " ++ value_debug left ++ bs " and " ++ value_debug right)
  end.

Definition eval_and (left right : Value) : Outcome Value :=
  match left, right with
  | VBool false, _ | _, VBool false => ok (VBool false)
  | VBool true, VBool true => ok (VBool true)
  | VNull _, VBool true | VBool true, VNull _ => ok null
  | VNull _, VNull _ => ok null
  | l, r => mismatch (bs "AND requires boolean operands, got " ++ value_debug l ++ bs " and " ++ value_debug r)
  end.

Definition eval_or (left right : Value) : Outcome Value :=
  match left, right with
  | VBool true, _ | _, VBool true => ok (VBool true)
  | VBool false, VBool false => ok (VBool false)
  | VNull _, VBool false | VBool false, VNull _ => ok null
  | VNull _, VNull _ => ok null
  | l, r => mismatch (bs "OR requires boolean operands, got " ++ value_debug l ++ bs " and " ++ value_debug r)
  end.

(** An operator on strings: unknown on a NULL, [otherwise] on other operands. *)
Definition string_op (test : bytes -> bytes -> bool) (otherwise : bool) (left right : Value) : Outcome Value :=
  match left, right with
  | VString s, VString t => ok (VBool (test s t))
  | VNull _, _ | _, VNull _ => ok null
  | _, _ => ok (VBool otherwise)
  end.

Definition eval_binary_op (op : BinaryOperator) (left right : Value) : Outcome Value :=
  match op with
  | OpAdd => eval_add left right
  | OpSub => eval_sub left right
  | OpMul => eval_mul left right
  | OpDiv => eval_div left right
  | OpMod => eval_mod left right
  | OpEq => ok (VBool (values_equal left right))
  | OpNeq => ok (VBool (negb (values_equal left right)))
  | OpLt => eval_compare left right (fun ord => match ord with Lt => true | _ => false end)
  | OpLte => eval_compare left right (fun ord => match ord with Gt => false | _ => true end)
  | OpGt => eval_compare left right (fun ord => match ord with Gt => true | _ => false end)
  | OpGte => eval_compare left right (fun ord => match ord with Lt => false | _ => true end)
  | OpAnd => eval_and left right
  | OpOr => eval_or left right
  | OpContains => string_op (fun s sub => contains sub s) false left right
  | OpNotContains => string_op (fun s sub => negb (contains sub s)) true left right
  | OpIn => ok (eval_in left right)
  | OpNotIn => ok (match eval_in left right with VBool found => VBool (negb found) | other => other end)
  | OpStartsWith => string_op (fun s pre => starts_with pre s) false left right
  | OpEndsWith => string_op (fun s suf => ends_with suf s) false left right
  | OpRegex => string_op (fun s pat => default false (regex_is_match pat s)) false left right
  end.

Definition eval_unary_op (op : UnaryOperator) (operand : Value) : Outcome Value :=
  match op with
  | OpNot =>
      match operand with
      | VBool b => ok (VBool (negb b))
      | VNull _ => ok null
      | _ => mismatch (bs "NOT operator requires boolean, got " ++ value_debug operand)
      end
  | OpNeg =>
      match operand with
      | VInt i => ok (VInt (as_i64 (- i)))
      | VFloat f => ok (VFloat (f64_neg f))
      | VNull _ => ok null
      | _ => mismatch (bs "Negation requires number, got " ++ value_debug operand)
      end
  end.

(** ** Functions *)

Definition lower_fn (args : list Value) : Outcome Value :=
  match args with
  | VString s :: _ => ok (VString (to_lowercase s))
  | VNull _ :: _ => ok null
  | _ => invalid (bs "LOWER requires string argument")
  end.
Definition upper_fn (args : list Value) : Outcome Value :=
  match args with
  | VString s :: _ => ok (VString (to_uppercase s))
  | VNull _ :: _ => ok null
  | _ => invalid (bs "UPPER requires string argument")
  end.
Definition length_fn (args : list Value) : Outcome Value :=
  match args with
  | VString s :: _ => ok (VInt (as_i64 (Z.of_nat (length s))))
  | VList l :: _ => ok (VInt (as_i64 (Z.of_nat (length l))))
  | VNull _ :: _ => ok null
  | _ => invalid (bs "LENGTH requires string or list")
  end.

(** A test of two strings; a NULL on either side makes it unknown. *)
Definition two_strings (name : bytes) (test : bytes -> bytes -> bool) (args : list Value) : Outcome Value :=
  match args with
  | VString s :: VString t :: _ => ok (VBool (test s t))
  | VNull _ :: _ | _ :: VNull _ :: _ => ok null
  | _ => invalid (name ++ bs " requires two string arguments")
  end.

Definition abs_fn (args : list Value) : Outcome Value :=
  match args with
  | VInt i :: _ => ok (VInt (as_i64 (Z.abs i)))
  | VFloat f :: _ => ok (VFloat (f64_abs f))
  | VNull _ :: _ => ok null
  | _ => invalid (bs "ABS requires numeric argument")
  end.
(** FLOOR, CEIL and ROUND. *)
Definition rounding_fn (name : bytes) (divide : Z -> Z -> Z) (args : list Value) : Outcome Value :=
  match args with
  | VFloat f :: _ => ok (VInt (f64_to_i64 divide f))
  | VInt i :: _ => ok (VInt i)
  | VNull _ :: _ => ok null
  | _ => invalid (name ++ bs " requires numeric argument")
  end.
(** IS_NULL and IS_NOT_NULL. *)
Definition null_test_fn (name : bytes) (on_null : bool) (args : list Value) : Outcome Value :=
  match args with
  | VNull _ :: _ => ok (VBool on_null)
  | _ :: _ => ok (VBool (negb on_null))
  | [] => invalid (name ++ bs " requires one argument")
  end.
Fixpoint coalesce_fn (args : list Value) : Value :=
  match args with
  | [] => null
  | arg :: args => if is_null arg then coalesce_fn args else arg
  end.

(** [name] is one of the spellings [l] of a function. *)
Definition named (name : bytes) (l : list string) : bool := existsb (fun s => bool_decide (name = bs s)) l.

Definition apply_scalar_function (name : bytes) (args : list Value) : Outcome Value :=
  let fn := to_uppercase name in
  if named fn ["LOWER"; "TOLOWER"]%string then lower_fn args
  else if named fn ["UPPER"; "TOUPPER"]%string then upper_fn args
  else if named fn ["LENGTH"; "SIZE"]%string then length_fn args
  else if named fn ["CONTAINS"]%string then two_strings (bs "CONTAINS") (fun s sub => contains sub s) args
  else if named fn ["STARTS_WITH"; "STARTSWITH"]%string then
    two_strings (bs "STARTS_WITH") (fun s prefix => starts_with prefix s) args
  else if named fn ["ENDS_WITH"; "ENDSWITH"]%string then
    two_strings (bs "ENDS_WITH") (fun s suffix => ends_with suffix s) args
  else if named fn ["ABS"]%string then abs_fn args
  else if named fn ["FLOOR"]%string then rounding_fn (bs "FLOOR") Z.div args
  else if named fn ["CEIL"]%string then rounding_fn (bs "CEIL") div_ceil args
  else if named fn ["ROUND"]%string then rounding_fn (bs "ROUND") div_round args
  else if named fn ["IS_NULL"; "ISNULL"]%string then null_test_fn (bs "IS_NULL") true args
  else if named fn ["IS_NOT_NULL"; "ISNOTNULL"]%string then null_test_fn (bs "IS_NOT_NULL") false args
  else if named fn ["COALESCE"]%string then ok (coalesce_fn args)
  else invalid (bs "Unknown function: " ++ name).

Definition is_string (target : bytes) (v : Value) : bool :=
  match v with VString s => bool_decide (s = target) | _ => false end.

Definition is_a (args : list Value) (ctx : EvalContext) : Outcome Value :=
  match args with
  | VString target :: _ =>
      ok (VBool (match get_property ctx (bs "__isa__") with
                 | Some (VList l) => existsb (is_string target) l
                 | _ => false
                 end))
  | VNull _ :: _ => ok null
  | _ => invalid (bs "is_a requires a class-name string argument")
  end.

Definition eval_function (name : bytes) (args : list Value) (ctx : EvalContext) : Outcome Value :=
  if named (to_uppercase name) ["IS_A"; "ISA"]%string then is_a args ctx else apply_scalar_function name args.

(** ** Evaluation *)

Definition o_bind {A B} (o : Outcome A) (f : A -> Outcome B) : Outcome B :=
  match o with
  | None => None
  | Some (Err e) => Some (Err e)
  | Some (Ok a) => f a
  end.

(** [iter().map(..).collect::<Result<Vec<_>>>()]. *)
Fixpoint collect_outcomes {A} (l : list (Outcome A)) : Outcome (list A) :=
  match l with
  | [] => ok []
  | o :: l => o_bind o (fun a => o_bind (collect_outcomes l) (fun l => ok (a :: l)))
  end.

Fixpoint evaluate_with_context (expr : Expression) (ctx : EvalContext) : Outcome Value :=
  match expr with
  | Lit lit => ok (eval_literal lit)
  | Identifier name =>
      match get_property ctx name with
      | Some v => ok v
      | None => mismatch (bs "Unknown identifier: " ++ name)
      end
  | BinaryOp op lhs rhs =>
      o_bind (evaluate_with_context lhs ctx) (fun l =>
      o_bind (evaluate_with_context rhs ctx) (fun r =>
      eval_binary_op op l r))
  | UnaryOp op operand => o_bind (evaluate_with_context operand ctx) (eval_unary_op op)
  | FunctionCall name args =>
      o_bind (collect_outcomes ((fun e => evaluate_with_context e ctx) <$> args)) (fun args =>
      eval_function name args ctx)
  | EList items =>
      o_bind (collect_outcomes ((fun e => evaluate_with_context e ctx) <$> items)) (fun values =>
      ok (VList values))
  | EMap entries =>
      o_bind (collect_outcomes ((fun kv => o_bind (evaluate_with_context kv.2 ctx) (fun v => ok (kv.1, v))) <$> entries))
        (fun data => ok (VMap (collect_map data)))
  | PropRef object prop =>
      match or_else (get_property ctx (object ++ bs "." ++ prop)) (get_property ctx prop) with
      | Some v => ok v
      | None => mismatch (bs "Unknown property reference: " ++ object ++ bs "." ++ prop)
      end
  | DstVertexProp tag prop =>
      invalid (bs "$$." ++ tag ++ bs "." ++ prop ++ bs " requires async context; use GO YIELD")
  end.

Definition evaluate (expr : Expression) : Outcome Value := evaluate_with_context expr empty_context.

Definition evaluate_condition (expr : Expression) (ctx : EvalContext) : Outcome bool :=
  o_bind (evaluate_with_context expr ctx) (fun result =>
  match result with
  | VBool b => ok b
  | VNull _ => ok false
  | _ => mismatch (bs "WHERE clause must evaluate to boolean, got " ++ value_debug result)
  end).

(** ** Constants

    [ExecutionPlanBuilder::expr_to_value] ([plan.rs]): the value of a literal, of a
    negated literal or of a list of them, without evaluation. *)

Fixpoint collect_results {E A} (l : list (Result E A)) : Result E (list A) :=
  match l with
  | [] => Ok []
  | r :: l => let? a := r in let? l := collect_results l in Ok (a :: l)
  end.

Fixpoint expr_to_value (expr : Expression) : Result ExecutionError Value :=
  match expr with
  | Lit lit =>
      Ok match lit with
         | LString s => VString s
         | LInt i => VInt i
         | LFloat f => VFloat f
         | LBool b => VBool b
         | LNull => null
         end
  | Identifier s => Ok (VString s)
  | EList items => let? values := collect_results (expr_to_value <$> items) in Ok (VList values)
  | UnaryOp OpNeg operand =>
      let? v := expr_to_value operand in
      match v with
      | VInt i => Ok (VInt (as_i64 (- i)))
      | VFloat f => Ok (VFloat (f64_neg f))
      | other => Err (InvalidOperation (bs "Unary minus requires a number, got " ++ value_debug other))
      end
  | _ => Err (InvalidOperation (bs "Expression not supported: " ++ expression_debug expr))
  end.
End evaluator.
