(* ===== verification/EvaluatorFacts.v ===== *)
(** * Facts about the evaluator

    A type system for expressions and its soundness; the logic of AND, OR, NOT and
    IN; what a condition that is decided with some properties unknown says of their
    values. *)

From Stdlib Require Import ZArith Lia Strings.Byte Strings.String Floats.SpecFloat.
From stdpp Require Import base tactics list gmap.
From S2P Require Import Prelude Text Value Exec Evaluator.

(** ** Induction on expressions *)

Section expression_ind.
Context (P : Expression -> Prop).
Context (HLit : forall l, P (Lit l)) (HId : forall name, P (Identifier name)).
Context (HBin : forall op l r, P l -> P r -> P (BinaryOp op l r)) (HUn : forall op e, P e -> P (UnaryOp op e)).
Context (HFn : forall name args, Forall P args -> P (FunctionCall name args)).
Context (HList : forall items, Forall P items -> P (EList items)).
Context (HMap : forall entries, Forall (fun kv => P kv.2) entries -> P (EMap entries)).
Context (HProp : forall object prop, P (PropRef object prop)) (HDst : forall tag prop, P (DstVertexProp tag prop)).

Fixpoint expression_ind' (e : Expression) : P e :=
  match e with
  | Lit l => HLit l
  | Identifier name => HId name
  | BinaryOp op l r => HBin op l r (expression_ind' l) (expression_ind' r)
  | UnaryOp op e => HUn op e (expression_ind' e)
  | FunctionCall name args =>
      HFn name args ((fix go l : Forall P l :=
        match l with [] => List.Forall_nil P | e :: l => List.Forall_cons P e l (expression_ind' e) (go l) end) args)
  | EList items =>
      HList items ((fix go l : Forall P l :=
        match l with [] => List.Forall_nil P | e :: l => List.Forall_cons P e l (expression_ind' e) (go l) end) items)
  | EMap entries =>
      HMap entries ((fix go l : Forall (fun kv => P kv.2) l :=
        match l with
        | [] => List.Forall_nil _
        | kv :: l => List.Forall_cons _ kv l (expression_ind' kv.2) (go l)
        end) entries)
  | PropRef object prop => HProp object prop
  | DstVertexProp tag prop => HDst tag prop
  end.
End expression_ind.

(** ** Types *)

Inductive Ty := TyNull | TyBool | TyInt | TyFloat | TyString | TyList | TyMap.
#[export] Instance ty_eq_dec : EqDecision Ty.
Proof. solve_decision. Defined.

(** NULL belongs to every type; an integer is in the range of [i64]. *)
Definition has_type (v : Value) (t : Ty) : Prop :=
  match v, t with
  | VNull _, _ => True
  | VBool _, TyBool | VFloat _, TyFloat | VString _, TyString | VList _, TyList | VMap _, TyMap => True
  | VInt i, TyInt => i64_ok i
  | _, _ => False
  end.

Definition arith_type (t1 t2 : Ty) : option Ty :=
  match t1, t2 with
  | TyNull, _ | _, TyNull => Some TyNull
  | TyInt, TyInt => Some TyInt
  | TyInt, TyFloat | TyFloat, TyInt | TyFloat, TyFloat => Some TyFloat
  | _, _ => None
  end.
Definition logic_type (t : Ty) : bool := bool_decide (t = TyBool) || bool_decide (t = TyNull).
Definition string_type (t : Ty) : bool := bool_decide (t = TyString) || bool_decide (t = TyNull).
Definition number_type (t : Ty) : bool :=
  bool_decide (t = TyInt) || bool_decide (t = TyFloat) || bool_decide (t = TyNull).

Definition binary_type (op : BinaryOperator) (t1 t2 : Ty) : option Ty :=
  match op with
  | OpAdd => match t1, t2 with TyString, TyString => Some TyString | _, _ => arith_type t1 t2 end
  | OpSub | OpMul | OpDiv => arith_type t1 t2
  | OpMod => match t1, t2 with TyNull, _ | _, TyNull => Some TyNull | TyInt, TyInt => Some TyInt | _, _ => None end
  | OpLt | OpLte | OpGt | OpGte =>
      if (number_type t1 && number_type t2) || (string_type t1 && string_type t2) ||
         bool_decide (t1 = TyNull) || bool_decide (t2 = TyNull) then Some TyBool else None
  | OpAnd | OpOr => if logic_type t1 && logic_type t2 then Some TyBool else None
  | _ => Some TyBool
  end.

Definition unary_type (op : UnaryOperator) (t : Ty) : option Ty :=
  match op with
  | OpNot => if logic_type t then Some TyBool else None
  | OpNeg => if number_type t then Some t else None
  end.

(** The common type of the arguments of COALESCE. *)
Fixpoint join_types (ts : list Ty) : option Ty :=
  match ts with
  | [] => Some TyNull
  | t :: ts =>
      match join_types ts with
      | Some t' =>
          if bool_decide (t = TyNull) then Some t'
          else if bool_decide (t' = TyNull) || bool_decide (t' = t) then Some t else None
      | None => None
      end
  end.

Section types.
Context `{EvalPlatform}.

Definition function_type (name : bytes) (ts : list Ty) : option Ty :=
  let fn := to_uppercase name in
  let first (ok : Ty -> bool) (result : Ty -> Ty) :=
    match ts with t :: _ => if ok t then Some (result t) else None | [] => None end in
  let strings :=
    match ts with t1 :: t2 :: _ => if string_type t1 && string_type t2 then Some TyBool else None | _ => None end in
  if named fn ["IS_A"; "ISA"]%string then first string_type (fun _ => TyBool)
  else if named fn ["LOWER"; "TOLOWER"]%string then first string_type (fun _ => TyString)
  else if named fn ["UPPER"; "TOUPPER"]%string then first string_type (fun _ => TyString)
  else if named fn ["LENGTH"; "SIZE"]%string then first (fun t => string_type t || bool_decide (t = TyList)) (fun _ => TyInt)
  else if named fn ["CONTAINS"]%string then strings
  else if named fn ["STARTS_WITH"; "STARTSWITH"]%string then strings
  else if named fn ["ENDS_WITH"; "ENDSWITH"]%string then strings
  else if named fn ["ABS"]%string then first number_type id
  else if named fn ["FLOOR"]%string then first number_type (fun _ => TyInt)
  else if named fn ["CEIL"]%string then first number_type (fun _ => TyInt)
  else if named fn ["ROUND"]%string then first number_type (fun _ => TyInt)
  else if named fn ["IS_NULL"; "ISNULL"]%string then first (fun _ => true) (fun _ => TyBool)
  else if named fn ["IS_NOT_NULL"; "ISNOTNULL"]%string then first (fun _ => true) (fun _ => TyBool)
  else if named fn ["COALESCE"]%string then join_types ts
  else None.

(** All results of a list of options. *)
Fixpoint all_some {A} (l : list (option A)) : option (list A) :=
  match l with
  | [] => Some []
  | o :: l => match o, all_some l with Some a, Some l => Some (a :: l) | _, _ => None end
  end.

(** The type of an expression when the properties have the types [Γ]. *)
Fixpoint expr_type (Γ : bytes -> option Ty) (e : Expression) : option Ty :=
  match e with
  | Lit (LBool _) => Some TyBool
  | Lit (LInt i) => if (I64_MIN <=? i) && (i <=? I64_MAX) then Some TyInt else None
  | Lit (LFloat _) => Some TyFloat
  | Lit (LString _) => Some TyString
  | Lit LNull => Some TyNull
  | Identifier name => Γ name
  | BinaryOp op l r =>
      match expr_type Γ l, expr_type Γ r with Some t1, Some t2 => binary_type op t1 t2 | _, _ => None end
  | UnaryOp op e => match expr_type Γ e with Some t => unary_type op t | None => None end
  | FunctionCall name args =>
      match all_some (expr_type Γ <$> args) with Some ts => function_type name ts | None => None end
  | EList items => match all_some (expr_type Γ <$> items) with Some _ => Some TyList | None => None end
  | EMap entries => match all_some ((fun kv => expr_type Γ kv.2) <$> entries) with Some _ => Some TyMap | None => None end
  | PropRef object prop => Γ (object ++ bs "." ++ prop)
  | DstVertexProp _ _ => None
  end.

(** The properties of a context are there with their types. *)
Definition context_typed (Γ : bytes -> option Ty) (ctx : EvalContext) : Prop :=
  forall path t, Γ path = Some t -> exists v, get_property ctx path = Some v /\ has_type v t.
End types.

(** No division and no remainder occurs. *)
Fixpoint division_free (e : Expression) : bool :=
  match e with
  | BinaryOp op l r => negb (match op with OpDiv | OpMod => true | _ => false end) && division_free l && division_free r
  | UnaryOp _ e => division_free e
  | FunctionCall _ args => forallb division_free args
  | EList items => forallb division_free items
  | EMap entries => forallb (fun kv => division_free kv.2) entries
  | _ => true
  end.

Definition division_error (e : ExecutionError) : Prop :=
  e = InvalidOperation (bs "Division by zero") \/ e = InvalidOperation (bs "Modulo by zero").

(** A value satisfies [P]; anything else needs a division. *)
Definition outcome_ok {A} (P : A -> Prop) (divides : bool) (o : Outcome A) : Prop :=
  match o with
  | Some (Ok a) => P a
  | Some (Err e) => divides = true /\ division_error e
  | None => divides = true
  end.

Lemma outcome_bind {A B} (P : A -> Prop) (Q : B -> Prop) d d' (o : Outcome A) (f : A -> Outcome B) :
  outcome_ok P d o -> (d = true -> d' = true) -> (forall a, P a -> outcome_ok Q d' (f a)) -> outcome_ok Q d' (o_bind o f).
Proof. intros Ho Hd Hf. destruct o as [[a|e]|]; simpl in *; [by apply Hf| |]; naive_solver. Qed.

Lemma outcome_ok_weaken {A} (P Q : A -> Prop) (d d' : bool) (o : Outcome A) :
  outcome_ok P d o -> (d = true -> d' = true) -> (forall a, P a -> Q a) -> outcome_ok Q d' o.
Proof. intros Ho Hd Hf. destruct o as [[a|e]|]; simpl in *; naive_solver. Qed.

(** ** Arithmetic stays in range *)

Lemma sat_i64_ok z : i64_ok (sat_i64 z).
Proof. unfold sat_i64. unfold_int. lia. Qed.

Lemma f64_to_i64_ok divide bits : i64_ok (f64_to_i64 divide bits).
Proof.
  unfold f64_to_i64. destruct (f64_value bits); try apply sat_i64_ok; try (unfold_int; lia).
  destruct s; unfold_int; lia.
Qed.

Lemma quot_ok l r : i64_ok l -> i64_ok r -> r <> 0 -> overflows l r = false -> i64_ok (Z.quot l r).
Proof.
  unfold overflows. rewrite andb_false_iff, !Z.eqb_neq. unfold_int. intros Hl Hr Hz Ho.
  assert (Z.abs (Z.quot l r) <= Z.abs l).
  { rewrite <- Z.quot_abs by done. rewrite Z.quot_div_nonneg by lia. apply Z.div_le_upper_bound; nia. }
  destruct (decide (Z.abs (Z.quot l r) = 2 ^ 63)) as [E|]; [|lia].
  assert (l = - 2 ^ 63) as -> by lia. destruct (decide (r = -1)) as [->|Hr1]; [lia|].
  destruct (decide (r = 1)) as [->|Hr2]; [rewrite Z.quot_1_r; lia|].
  rewrite <- Z.quot_abs, Z.quot_div_nonneg in E by lia.
  assert (Z.abs (- 2 ^ 63) / Z.abs r < 2 ^ 63); [|lia]. apply Z.div_lt_upper_bound; lia.
Qed.

Lemma rem_ok l r : i64_ok l -> i64_ok r -> r <> 0 -> i64_ok (Z.rem l r).
Proof.
  unfold_int. intros Hl Hr Hz. pose proof (Z.rem_bound_abs l r Hz). lia.
Qed.

(** ** Soundness of the types *)

(** The values of a type: NULL or one form. *)
Ltac typed_cases v Hv := destruct v; try (exfalso; exact Hv).

Section soundness.
Context `{EvalPlatform} `{MessageText}.

Definition typed_outcome (t : Ty) (divides : bool) (o : Outcome Value) : Prop :=
  outcome_ok (fun v => has_type v t) divides o.

Definition divides_op (op : BinaryOperator) : bool := match op with OpDiv | OpMod => true | _ => false end.


#[local] Opaque bs f64_add f64_sub f64_mul f64_div f64_of_int f64_value as_i64 f64_near f64_cmp.

Lemma arith_sound (op : BinaryOperator) v1 v2 t1 t2 t :
  match op with OpAdd | OpSub | OpMul => True | _ => False end ->
  has_type v1 t1 -> has_type v2 t2 -> arith_type t1 t2 = Some t ->
  typed_outcome t (divides_op op) (eval_binary_op op v1 v2).
Proof.
  intros Hop H1 H2 Ht. destruct t1; try discriminate Ht; typed_cases v1 H1;
    (destruct t2; try discriminate Ht; typed_cases v2 H2); injection Ht as <-; 
    (destruct op; try (exfalso; exact Hop)); cbn; first [exact I|apply as_i64_ok].
Qed.

Lemma add_sound v1 v2 t1 t2 t :
  has_type v1 t1 -> has_type v2 t2 -> binary_type OpAdd t1 t2 = Some t -> typed_outcome t false (eval_add v1 v2).
Proof.
  intros H1 H2 Ht. destruct (decide (t1 = TyString /\ t2 = TyString)) as [[-> ->]|Hn].
  - injection Ht as <-. typed_cases v1 H1; typed_cases v2 H2; exact I.
  - apply (arith_sound OpAdd v1 v2 t1 t2 t I H1 H2). destruct t1, t2; try exact Ht; naive_solver.
Qed.

Lemma i64_div_ok l r : i64_ok l -> i64_ok r -> r <> 0 -> typed_outcome TyInt true (i64_div l r).
Proof. intros Hl Hr Hz. unfold i64_div. destruct (overflows l r) eqn:Ho; [done|]. by apply quot_ok. Qed.
Lemma i64_rem_ok l r : i64_ok l -> i64_ok r -> r <> 0 -> typed_outcome TyInt true (i64_rem l r).
Proof. intros Hl Hr Hz. unfold i64_rem. destruct (overflows l r) eqn:Ho; [done|]. by apply rem_ok. Qed.

Lemma div_sound v1 v2 t1 t2 t :
  has_type v1 t1 -> has_type v2 t2 -> arith_type t1 t2 = Some t -> typed_outcome t true (eval_div v1 v2).
Proof.
  intros H1 H2 Ht. unfold eval_div. destruct (zero_int v2 || zero_float v2) eqn:Hz; [by split; [|left]|].
  apply orb_false_iff in Hz as [Hz _]. destruct t1; try discriminate Ht; typed_cases v1 H1;
    (destruct t2; try discriminate Ht; typed_cases v2 H2); injection Ht as <-; first [exact I|idtac].
  apply i64_div_ok; try done. by apply Z.eqb_neq.
Qed.

Lemma mod_sound v1 v2 t1 t2 t :
  has_type v1 t1 -> has_type v2 t2 -> binary_type OpMod t1 t2 = Some t -> typed_outcome t true (eval_mod v1 v2).
Proof.
  intros H1 H2 Ht. unfold eval_mod. destruct (zero_int v2) eqn:Hz; [by split; [|right]|].
  destruct t1; try discriminate Ht; typed_cases v1 H1;
    (destruct t2; try discriminate Ht; typed_cases v2 H2); injection Ht as <-; first [exact I|idtac].
  apply i64_rem_ok; try done. by apply Z.eqb_neq.
Qed.

Lemma compare_sound v1 v2 t1 t2 t holds :
  has_type v1 t1 -> has_type v2 t2 -> binary_type OpLt t1 t2 = Some t ->
  typed_outcome t false (eval_compare v1 v2 holds).
Proof.
  intros H1 H2 Ht. destruct t1; typed_cases v1 H1; (destruct t2; try discriminate Ht; typed_cases v2 H2);
    injection Ht as <-; exact I.
Qed.

Lemma and_sound v1 v2 t1 t2 t :
  has_type v1 t1 -> has_type v2 t2 -> binary_type OpAnd t1 t2 = Some t -> typed_outcome t false (eval_and v1 v2).
Proof.
  intros H1 H2 Ht. destruct t1; try discriminate Ht; typed_cases v1 H1;
    (destruct t2; try discriminate Ht; typed_cases v2 H2); injection Ht as <-;
    repeat match goal with b : bool |- _ => destruct b end; exact I.
Qed.

Lemma or_sound v1 v2 t1 t2 t :
  has_type v1 t1 -> has_type v2 t2 -> binary_type OpOr t1 t2 = Some t -> typed_outcome t false (eval_or v1 v2).
Proof.
  intros H1 H2 Ht. destruct t1; try discriminate Ht; typed_cases v1 H1;
    (destruct t2; try discriminate Ht; typed_cases v2 H2); injection Ht as <-;
    repeat match goal with b : bool |- _ => destruct b end; exact I.
Qed.

(** A test yields a truth value or NULL, whatever its operands. *)
Lemma string_op_type test otherwise v1 v2 : typed_outcome TyBool false (string_op test otherwise v1 v2).
Proof. destruct v1; try exact I; destruct v2; exact I. Qed.

Lemma eval_in_items_type left items saw_null : has_type (eval_in_items left items saw_null) TyBool.
Proof.
  revert saw_null. induction items as [|i items IH]; intros saw_null; simpl; [by destruct saw_null|].
  destruct (values_equal left i); [done|apply IH].
Qed.
Lemma eval_in_type left right : has_type (eval_in left right) TyBool.
Proof. unfold eval_in. destruct (is_null left); [done|]. destruct right; try done. apply eval_in_items_type. Qed.

Lemma binary_sound op v1 v2 t1 t2 t :
  has_type v1 t1 -> has_type v2 t2 -> binary_type op t1 t2 = Some t ->
  typed_outcome t (divides_op op) (eval_binary_op op v1 v2).
Proof.
  intros H1 H2 Ht. destruct op; cbn [eval_binary_op divides_op];
    try (eapply compare_sound; [exact H1|exact H2|exact Ht]);
    try (injection Ht as <-; apply string_op_type); try (injection Ht as <-; exact I).
  - by apply (add_sound v1 v2 t1 t2).
  - by apply (arith_sound OpSub v1 v2 t1 t2).
  - by apply (arith_sound OpMul v1 v2 t1 t2).
  - by apply (div_sound v1 v2 t1 t2).
  - by apply (mod_sound v1 v2 t1 t2).
  - by apply (and_sound v1 v2 t1 t2).
  - by apply (or_sound v1 v2 t1 t2).
  - injection Ht as <-. apply eval_in_type.
  - injection Ht as <-. pose proof (eval_in_type v1 v2) as Hin. by destruct (eval_in v1 v2).
Qed.

Lemma unary_sound op v t0 t :
  has_type v t0 -> unary_type op t0 = Some t -> typed_outcome t false (eval_unary_op op v).
Proof.
  intros Hv Ht. destruct op; destruct t0; try discriminate Ht; typed_cases v Hv; injection Ht as <-;
    first [exact I|apply as_i64_ok].
Qed.

Lemma has_type_weaken v t : has_type v TyNull -> has_type v t.
Proof. by destruct v. Qed.

Lemma coalesce_sound vs ts t : Forall2 has_type vs ts -> join_types ts = Some t -> has_type (coalesce_fn vs) t.
Proof.
  intros Hvs. revert t. induction Hvs as [|v t0 vs ts Hv Hvs IH]; intros t Ht; [done|]. simpl in *.
  destruct (join_types ts) as [t'|]; [|done]. specialize (IH t' eq_refl).
  destruct (decide (t0 = TyNull)) as [->|Hn]; [injection Ht as <-; by destruct v|].
  rewrite bool_decide_eq_false_2 in Ht by done. destruct (bool_decide (t' = TyNull) || bool_decide (t' = t0)) eqn:E; [|done].
  injection Ht as <-. destruct (is_null v) eqn:Hnull; [|done].
  apply orb_true_iff in E as [E|E]; apply bool_decide_eq_true in E as ->; [by apply has_type_weaken|done].
Qed.

(** The first argument decides the result. *)
Lemma first_typed (ok : Ty -> bool) (result : Ty -> Ty) (fn : list Value -> Outcome Value) vs ts t :
  (forall v t0 rest, has_type v t0 -> ok t0 = true -> typed_outcome (result t0) false (fn (v :: rest))) ->
  Forall2 has_type vs ts ->
  match ts with t0 :: _ => if ok t0 then Some (result t0) else None | [] => None end = Some t ->
  typed_outcome t false (fn vs).
Proof. intros Hfn [|v t0 vs' ts' Hv _] Ht; [done|]. destruct (ok t0) eqn:Hok; [|done]. injection Ht as <-. by apply Hfn. Qed.

Lemma two_strings_sound name test vs ts t :
  Forall2 has_type vs ts ->
  match ts with t1 :: t2 :: _ => if string_type t1 && string_type t2 then Some TyBool else None | _ => None end = Some t ->
  typed_outcome t false (two_strings name test vs).
Proof.
  intros [|v1 t1 ? ? H1 [|v2 t2 ? ? H2 _]] Ht; [done|done|].
  destruct t1; try discriminate Ht; typed_cases v1 H1;
    (destruct t2; try discriminate Ht; typed_cases v2 H2); injection Ht as <-; exact I.
Qed.

Lemma function_sound name vs ts t ctx :
  Forall2 has_type vs ts -> function_type name ts = Some t -> typed_outcome t false (eval_function name vs ctx).
Proof.
  intros Hvs. unfold function_type, eval_function, apply_scalar_function. cbv zeta.
  destruct (named _ ["IS_A"; "ISA"]%string).
  { apply (first_typed _ _ (fun vs => is_a vs ctx) _ _ _); [|done].
    intros v t0 rest Hv Hok. destruct t0; try discriminate Hok; typed_cases v Hv; exact I. }
  repeat match goal with |- (if named ?n ?l then _ else _) = _ -> _ => destruct (named n l) end; try done;
    try (by apply two_strings_sound);
    try (eapply first_typed; [|exact Hvs]; intros v t0 rest Hv Hok;
         destruct t0; try discriminate Hok; typed_cases v Hv;
         first [exact I|apply as_i64_ok|apply f64_to_i64_ok|exact Hv]);
    try (destruct Hvs as [|v ? ? ? ? ?]; intros [= <-]; destruct v; exact I).
  intros Ht. by apply (coalesce_sound vs ts).
Qed.

(** Results of a list of evaluations. *)
Lemma collect_sound {A B} (P : A -> B -> Prop) (f : Expression -> Outcome A) (g : Expression -> option B) (d : Expression -> bool) es ts :
  Forall (fun e => forall t, g e = Some t -> outcome_ok (fun v => P v t) (negb (d e)) (f e)) es ->
  all_some (g <$> es) = Some ts ->
  outcome_ok (fun vs => Forall2 P vs ts) (negb (forallb d es)) (collect_outcomes (f <$> es)).
Proof.
  intros Hes. revert ts. induction Hes as [|e es He Hes IH]; intros ts Hts; simpl in *; [injection Hts as <-; constructor|].
  destruct (g e) as [t|]; [|done]. destruct (all_some _) as [ts'|]; [|done]. injection Hts as <-.
  specialize (He t eq_refl). specialize (IH ts' eq_refl). rewrite negb_andb.
  eapply outcome_bind; [exact He|by intros ->|]. intros v Hv.
  eapply outcome_bind; [exact IH|intros ->; apply orb_true_r|]. intros vs Hvs. by constructor.
Qed.

Lemma collect_entries_sound (f : Expression -> Outcome Value) (g : Expression -> option Ty) (d : Expression -> bool)
    (entries : list (bytes * Expression)) ts :
  Forall (fun kv => forall t, g kv.2 = Some t -> outcome_ok (fun v => has_type v t) (negb (d kv.2)) (f kv.2)) entries ->
  all_some ((fun kv => g kv.2) <$> entries) = Some ts ->
  outcome_ok (fun _ => True) (negb (forallb (fun kv => d kv.2) entries))
    (collect_outcomes ((fun kv => o_bind (f kv.2) (fun v => ok (kv.1, v))) <$> entries)).
Proof.
  intros Hes. revert ts. induction Hes as [|[k e] es He Hes IH]; intros ts Hts; simpl in *; [done|].
  destruct (g e) as [t|]; [|done]. destruct (all_some _) as [ts'|]; [|done].
  specialize (He t eq_refl). specialize (IH ts' eq_refl). rewrite negb_andb.
  eapply (outcome_bind (fun _ => True)); [|intros E; exact E|].
  - eapply outcome_bind; [exact He|by intros ->|done].
  - intros v _. eapply outcome_bind; [exact IH|intros ->; apply orb_true_r|done].
Qed.

(** An expression of type [t] has a value of that type; without one there is a
    division in it. *)
Lemma evaluate_typed Γ ctx e t :
  context_typed Γ ctx -> expr_type Γ e = Some t ->
  typed_outcome t (negb (division_free e)) (evaluate_with_context e ctx).
Proof.
  intros Hctx. revert t.
  induction e as [l|name|op l r IHl IHr|op e IHe|name args IHargs|items IHitems|entries IHentries|object prop|tag prop]
    using expression_ind'; intros t Ht; cbn [evaluate_with_context expr_type division_free] in *.
  - destruct l; simpl in Ht; simplify_eq; try done. case_match eqn:E; simplify_eq. simpl.
    apply andb_true_iff in E as [E1%Z.leb_le E2%Z.leb_le]. revert E1 E2. unfold I64_MIN, I64_MAX, i64_ok. lia.
  - destruct (Hctx _ _ Ht) as (v & -> & Hv). done.
  - destruct (expr_type Γ l) as [t1|]; [|done]. destruct (expr_type Γ r) as [t2|]; [|done].
    rewrite !negb_andb, negb_involutive. eapply outcome_bind; [by apply IHl|by intros ->; rewrite orb_true_r|].
    intros v1 H1. eapply outcome_bind; [by apply IHr|intros ->; apply orb_true_r|]. intros v2 H2.
    eapply outcome_ok_weaken; [exact (binary_sound op v1 v2 t1 t2 t H1 H2 Ht)|by intros Hd; fold (divides_op op); rewrite Hd|done].
  - destruct (expr_type Γ e) as [t0|]; [|done]. eapply outcome_bind; [by apply IHe|done|].
    intros v Hv. eapply outcome_ok_weaken; [exact (unary_sound op v t0 t Hv Ht)|done|done].
  - destruct (all_some _) as [ts|] eqn:Ets; [|done].
    eapply outcome_bind; [by apply (collect_sound has_type _ (expr_type Γ))|done|].
    intros vs Hvs. eapply outcome_ok_weaken; [exact (function_sound name vs ts t ctx Hvs Ht)|done|done].
  - destruct (all_some _) as [ts|] eqn:Ets; [|done]. injection Ht as <-.
    eapply outcome_bind; [by apply (collect_sound has_type _ (expr_type Γ))|done|done].
  - destruct (all_some _) as [ts|] eqn:Ets; [|done]. injection Ht as <-.
    eapply outcome_bind; [exact (collect_entries_sound (fun e => evaluate_with_context e ctx) _ division_free entries ts IHentries Ets)|done|done].
  - destruct (Hctx _ _ Ht) as (v & -> & Hv). done.
  - done.
Qed.
End soundness.

(** ** Three-valued logic

    A truth value is a boolean or unknown, [None]; the connectives are those of
    Kleene's strong logic. *)

Definition k_not (p : option bool) : option bool := negb <$> p.
Definition k_and (p q : option bool) : option bool :=
  match p, q with
  | Some false, _ | _, Some false => Some false
  | Some true, Some true => Some true
  | _, _ => None
  end.
Definition k_or (p q : option bool) : option bool := k_not (k_and (k_not p) (k_not q)).

Definition truth (v : Value) : option (option bool) :=
  match v with VBool b => Some (Some b) | VNull _ => Some None | _ => None end.

(** Equality of two values, unknown if one of them is. *)
Definition k_eq (v w : Value) : option bool := if is_null v || is_null w then None else Some (values_equal v w).

Inductive Formula :=
| FAtom (e : Expression)
| FNot (f : Formula)
| FAnd (f g : Formula)
| FOr (f g : Formula)
| FIn (e items : Expression)
| FNotIn (e items : Expression).

Fixpoint formula_expr (f : Formula) : Expression :=
  match f with
  | FAtom e => e
  | FNot f => UnaryOp OpNot (formula_expr f)
  | FAnd f g => BinaryOp OpAnd (formula_expr f) (formula_expr g)
  | FOr f g => BinaryOp OpOr (formula_expr f) (formula_expr g)
  | FIn e items => BinaryOp OpIn e items
  | FNotIn e items => BinaryOp OpNotIn e items
  end.

(** [e IN items]: some item equals [e]; unknown if [e] is NULL. *)
Definition k_in (v : Value) (items : list Value) : option bool :=
  if is_null v then None else foldr (fun item p => k_or (k_eq v item) p) (Some false) items.

Definition list_items (v : Value) : list Value := match v with VList items => items | _ => [] end.

(** The truth value of a formula whose expressions have the values [val]. *)
Fixpoint kleene (val : Expression -> Value) (f : Formula) : option bool :=
  match f with
  | FAtom e => default None (truth (val e))
  | FNot f => k_not (kleene val f)
  | FAnd f g => k_and (kleene val f) (kleene val g)
  | FOr f g => k_or (kleene val f) (kleene val g)
  | FIn e items => k_in (val e) (list_items (val items))
  | FNotIn e items => k_not (k_in (val e) (list_items (val items)))
  end.

Section logic.
Context `{EvalPlatform} `{MessageText}.

(** [val] gives the values of the expressions in a formula, its atoms are truth values
    and [IN] is applied to lists. *)
Fixpoint formula_ready (val : Expression -> Value) (ctx : EvalContext) (f : Formula) : Prop :=
  match f with
  | FAtom e => evaluate_with_context e ctx = ok (val e) /\ is_Some (truth (val e))
  | FNot f => formula_ready val ctx f
  | FAnd f g | FOr f g => formula_ready val ctx f /\ formula_ready val ctx g
  | FIn e items | FNotIn e items =>
      evaluate_with_context e ctx = ok (val e) /\ evaluate_with_context items ctx = ok (val items) /\
      exists l, val items = VList l
  end.

Lemma k_or_comm p q : k_or p q = k_or q p.
Proof. by destruct p as [[]|], q as [[]|]. Qed.
Lemma k_or_assoc p q r : k_or p (k_or q r) = k_or (k_or p q) r.
Proof. by destruct p as [[]|], q as [[]|], r as [[]|]. Qed.

Lemma eval_in_items_kleene v items (saw_null : bool) :
  is_null v = false ->
  truth (eval_in_items v items saw_null) =
  Some (k_or (if saw_null then None else Some false) (foldr (fun item p => k_or (k_eq v item) p) (Some false) items)).
Proof.
  intros Hv. revert saw_null. induction items as [|item items IH]; intros saw_null; simpl; [by destruct saw_null|].
  assert (is_null item = true -> values_equal v item = false) by (by destruct item, v).
  unfold k_eq at 1. rewrite Hv. cbn [orb]. destruct (values_equal v item) eqn:E.
  - destruct (is_null item); [naive_solver|]. destruct saw_null; by destruct (foldr _ _ _) as [[]|].
  - rewrite IH, k_or_assoc. destruct saw_null; destruct (is_null item); cbn [orb]; try done.
Qed.

Lemma eval_in_kleene v items : truth (eval_in v (VList items)) = Some (k_in v items).
Proof.
  unfold eval_in, k_in. destruct (is_null v) eqn:Hv; [done|]. rewrite eval_in_items_kleene by done.
  by destruct (foldr _ _ _) as [[]|].
Qed.

Lemma truth_inv v p : truth v = Some p -> (exists n, v = VNull n /\ p = None) \/ (exists b, v = VBool b /\ p = Some b).
Proof. destruct v; simpl; intros; simplify_eq; eauto. Qed.

(** The evaluator computes the formula's truth value. *)
Lemma evaluate_kleene val ctx f :
  formula_ready val ctx f ->
  exists v, evaluate_with_context (formula_expr f) ctx = ok v /\ truth v = Some (kleene val f).
Proof.
  induction f as [e|f IH|f IHf g IHg|f IHf g IHg|e items|e items];
    cbn [formula_expr kleene formula_ready evaluate_with_context]; intros Hr.
  - destruct Hr as [He [p Hp]]. exists (val e). by rewrite Hp.
  - destruct (IH Hr) as (v & -> & Hv). simpl.
    destruct (truth_inv _ _ Hv) as [(n & -> & ->)|(b & -> & ->)]; by eexists.
  - destruct Hr as [Hf Hg]. destruct (IHf Hf) as (v & -> & Hv), (IHg Hg) as (w & -> & Hw). simpl.
    destruct (truth_inv _ _ Hv) as [(n & -> & ->)|(b & -> & ->)], (truth_inv _ _ Hw) as [(m & -> & ->)|(c & -> & ->)];
      repeat match goal with b : bool |- _ => destruct b end; by eexists.
  - destruct Hr as [Hf Hg]. destruct (IHf Hf) as (v & -> & Hv), (IHg Hg) as (w & -> & Hw). simpl.
    destruct (truth_inv _ _ Hv) as [(n & -> & ->)|(b & -> & ->)], (truth_inv _ _ Hw) as [(m & -> & ->)|(c & -> & ->)];
      repeat match goal with b : bool |- _ => destruct b end; by eexists.
  - destruct Hr as (-> & -> & l & ->). cbn [o_bind ok list_items]. eexists. split; [done|]. apply eval_in_kleene.
  - destruct Hr as (-> & -> & l & ->). cbn [o_bind ok list_items]. eexists. split; [done|].
    pose proof (eval_in_kleene (val e) l) as Hin.
    destruct (truth_inv _ _ Hin) as [(n & -> & ->)|(b & -> & ->)]; done.
Qed.
End logic.

(** ** Unknown values

    [vle v w]: [w] is [v] with some NULLs, also inside lists, replaced by values. *)

Fixpoint vle (v w : Value) : Prop :=
  match v, w with
  | VNull _, _ => True
  | VList l, VList l' =>
      (fix go l l' := match l, l' with
                      | [], [] => True
                      | x :: l, y :: l' => vle x y /\ go l l'
                      | _, _ => False
                      end) l l'
  | _, _ => v = w
  end.

Lemma vle_list l l' : vle (VList l) (VList l') <-> Forall2 vle l l'.
Proof.
  revert l'. induction l as [|x l IH]; intros [|y l']; simpl.
  - split; constructor.
  - split; [done|inversion 1].
  - split; [done|inversion 1].
  - rewrite Forall2_cons. specialize (IH l'). simpl in IH. by rewrite IH.
Qed.

(** Two equal values, or two lists. *)
Definition same_shape (v w : Value) : Prop := v = w \/ (exists l l', v = VList l /\ w = VList l' /\ length l = length l').

Lemma vle_cases v w : vle v w -> is_null v = true \/ same_shape v w.
Proof.
  unfold same_shape. destruct v; try (by left); try (by right; left). destruct w; try (by right; left).
  rewrite vle_list. intros Hl. right. right. exists values, values0. split_and!; [done|done|]. by apply Forall2_length in Hl.
Qed.

Lemma is_null_inv v : is_null v = true -> exists n, v = VNull n.
Proof. destruct v; try done. eauto. Qed.

Lemma vle_null v w : is_null v = true -> vle v w.
Proof. by destruct v. Qed.

Lemma vle_refl v : vle v v.
Proof.
  revert v. fix IH 1. intros v. destruct v; try exact I; try reflexivity. apply vle_list. clear -IH.
  induction values as [|x l IHl]; constructor; [apply IH|exact IHl].
Qed.

(** An operator that yields NULL for a NULL operand and does not look into lists is
    monotone. *)
Lemma strict_mono (f : Value -> Value -> Outcome Value) v1 v2 w1 w2 r r' :
  (forall n x, f (VNull n) x = ok null) -> (forall n x, f x (VNull n) = ok null) ->
  (forall v1 v2 w1 w2 r r', same_shape v1 w1 -> same_shape v2 w2 -> f v1 v2 = ok r -> f w1 w2 = ok r' -> r = r') ->
  vle v1 w1 -> vle v2 w2 -> f v1 v2 = ok r -> f w1 w2 = ok r' -> vle r r'.
Proof.
  intros Hl Hr Hshape H1 H2 E1 E2.
  destruct (vle_cases _ _ H1) as [[n ->]%is_null_inv|S1]; [rewrite Hl in E1; by injection E1 as <-|].
  destruct (vle_cases _ _ H2) as [[n ->]%is_null_inv|S2]; [rewrite Hr in E1; by injection E1 as <-|].
  rewrite (Hshape _ _ _ _ _ _ S1 S2 E1 E2). apply vle_refl.
Qed.

Section unknown.
Context `{EvalPlatform} `{MessageText}.

(** Cases of operands of the same shape. *)
Ltac shape_cases H :=
  destruct H as [->|(? & ? & -> & -> & ?)].

Lemma binary_mono op v1 v2 w1 w2 r r' :
  match op with OpEq | OpNeq | OpIn | OpNotIn | OpDiv | OpMod | OpAnd | OpOr => False | _ => True end ->
  vle v1 w1 -> vle v2 w2 -> eval_binary_op op v1 v2 = ok r -> eval_binary_op op w1 w2 = ok r' -> vle r r'.
Proof.
  intros Hop. apply strict_mono; destruct op; try (exfalso; exact Hop); cbn [eval_binary_op];
    try (intros n []; reflexivity); try (intros n x; reflexivity).
  all: clear; intros v1 v2 w1 w2 r r' S1 S2; shape_cases S1; shape_cases S2; try congruence.
  all: first [destruct w1|destruct w2|idtac]; cbn -[bs]; unfold ok, mismatch; congruence.
Qed.

Lemma and_mono v1 v2 w1 w2 t1 t2 r r' :
  has_type v1 t1 -> has_type w1 t1 -> has_type v2 t2 -> has_type w2 t2 -> logic_type t1 && logic_type t2 = true ->
  vle v1 w1 -> vle v2 w2 -> eval_and v1 v2 = ok r -> eval_and w1 w2 = ok r' -> vle r r'.
Proof.
  intros H1 H1' H2 H2' Ht L1 L2. destruct t1; try discriminate Ht; typed_cases v1 H1; typed_cases w1 H1';
    (destruct t2; try discriminate Ht; typed_cases v2 H2; typed_cases w2 H2'); cbn in L1, L2; simplify_eq;
    repeat match goal with b : bool |- _ => destruct b end; cbn; unfold ok; intros; simplify_eq; exact I || reflexivity.
Qed.
Lemma or_mono v1 v2 w1 w2 t1 t2 r r' :
  has_type v1 t1 -> has_type w1 t1 -> has_type v2 t2 -> has_type w2 t2 -> logic_type t1 && logic_type t2 = true ->
  vle v1 w1 -> vle v2 w2 -> eval_or v1 v2 = ok r -> eval_or w1 w2 = ok r' -> vle r r'.
Proof.
  intros H1 H1' H2 H2' Ht L1 L2. destruct t1; try discriminate Ht; typed_cases v1 H1; typed_cases w1 H1';
    (destruct t2; try discriminate Ht; typed_cases v2 H2; typed_cases w2 H2'); cbn in L1, L2; simplify_eq;
    repeat match goal with b : bool |- _ => destruct b end; cbn; unfold ok; intros; simplify_eq; exact I || reflexivity.
Qed.

(** [q] is [p], or [p] is unknown. *)
Definition k_le (p q : option bool) : Prop := p = None \/ p = q.

Lemma k_or_mono p q p' q' : k_le p p' -> k_le q q' -> k_le (k_or p q) (k_or p' q').
Proof. unfold k_le. intros [->| ->] [->| ->]; destruct p' as [[]|], q' as [[]|]; vm_compute; eauto. Qed.

Lemma truth_mono v w p q : truth v = Some p -> truth w = Some q -> k_le p q -> vle v w.
Proof.
  intros Hv Hw Hle. destruct (truth_inv _ _ Hv) as [(n & -> & ->)|(b & -> & ->)]; [exact I|].
  destruct (truth_inv _ _ Hw) as [(m & -> & ->)|(c & -> & ->)]; destruct Hle; by simplify_eq.
Qed.

Definition scalar_type (t : Ty) : bool := match t with TyList | TyMap => false | _ => true end.

Lemma k_eq_mono v t i i' : has_type v t -> scalar_type t = true -> vle i i' -> k_le (k_eq v i) (k_eq v i').
Proof.
  intros Hv Ht Hi. unfold k_le, k_eq. destruct (vle_cases _ _ Hi) as [->|[->|(l & l' & -> & -> & _)]].
  - left. by rewrite orb_true_r.
  - by right.
  - right. destruct t; try discriminate Ht; typed_cases v Hv; reflexivity.
Qed.

Lemma in_mono v w t items items' :
  has_type v t -> scalar_type t = true -> vle v w -> Forall2 vle items items' ->
  k_le (k_in v items) (k_in w items').
Proof.
  intros Hv Ht Hvw Hitems. unfold k_in. destruct (vle_cases _ _ Hvw) as [->|[->|(l & l' & -> & -> & _)]].
  - by left.
  - destruct (is_null w); [by left|]. induction Hitems; [by right|]. apply k_or_mono; [by eapply k_eq_mono|done].
  - by destruct t.
Qed.

Lemma k_not_mono p q : k_le p q -> k_le (k_not p) (k_not q).
Proof. intros [->| ->]; [by left|by right]. Qed.

Lemma unary_mono op v w r r' : vle v w -> eval_unary_op op v = ok r -> eval_unary_op op w = ok r' -> vle r r'.
Proof.
  intros Hvw. destruct (vle_cases _ _ Hvw) as [[n ->]%is_null_inv|[->|(l & l' & -> & -> & _)]].
  - destruct op; cbn; unfold ok; intros [= <-] _; exact I.
  - intros -> [= ->]. apply vle_refl.
  - by destruct op.
Qed.

(** The functions that say nothing of an unknown argument. *)
Definition strict_function (name : bytes) : bool :=
  let fn := to_uppercase name in
  negb (named fn ["IS_A"; "ISA"]%string) && negb (named fn ["IS_NULL"; "ISNULL"]%string) &&
  negb (named fn ["IS_NOT_NULL"; "ISNOTNULL"]%string) && negb (named fn ["COALESCE"]%string).

Lemma first_mono (fn : list Value -> Outcome Value) vs ws r r' :
  (forall n rest, fn (VNull n :: rest) = ok null) -> (forall r, fn [] = ok r -> False) ->
  (forall v rest rest', fn (v :: rest) = fn (v :: rest')) ->
  (forall l l' rest rest', length l = length l' -> fn (VList l :: rest) = fn (VList l' :: rest')) ->
  Forall2 vle vs ws -> fn vs = ok r -> fn ws = ok r' -> vle r r'.
Proof.
  intros Hnull Hempty Hfirst Hlist [|v w vs' ws' Hvw _] E E'; [by apply Hempty in E|].
  destruct (vle_cases _ _ Hvw) as [[n ->]%is_null_inv|[->|(l & l' & -> & -> & Hlen)]].
  - rewrite Hnull in E. by injection E as <-.
  - rewrite (Hfirst w vs' ws'), E' in E. injection E as <-. apply vle_refl.
  - rewrite (Hlist l l' vs' ws' Hlen), E' in E. injection E as <-. apply vle_refl.
Qed.

Lemma two_strings_mono name test vs ws r r' :
  Forall2 vle vs ws -> two_strings name test vs = ok r -> two_strings name test ws = ok r' -> vle r r'.
Proof.
  intros [|v1 w1 ? ? H1 [|v2 w2 vs' ws' H2 _]]; [done| |].
  - destruct v1; try done. intros [= <-]. done.
  - assert (forall v1 v2 rest, two_strings name test (v1 :: v2 :: rest) = two_strings name test [v1; v2]) as Hrest by (by intros []).
    rewrite (Hrest v1), (Hrest w1). apply (strict_mono (fun v1 v2 => two_strings name test [v1; v2])); [done|by intros n []| |done|done].
    clear. intros v1 v2 w1 w2 r r' S1 S2. shape_cases S1; shape_cases S2; try congruence;
      first [destruct w1|destruct w2|idtac]; cbn -[bs]; unfold ok, invalid; congruence.
Qed.

Lemma function_mono name vs ws ctx ctx' r r' :
  strict_function name = true -> Forall2 vle vs ws ->
  eval_function name vs ctx = ok r -> eval_function name ws ctx' = ok r' -> vle r r'.
Proof.
  intros Hs Hvs. unfold strict_function, eval_function, apply_scalar_function in *. cbv zeta in *.
  apply andb_true_iff in Hs as [[[Ha%negb_true_iff Hb%negb_true_iff]%andb_true_iff Hc%negb_true_iff]%andb_true_iff Hd%negb_true_iff].
  rewrite Ha, Hb, Hc, Hd.
  repeat match goal with |- (if named ?n ?l then _ else _) = _ -> _ => destruct (named n l) end; try done;
    try (by apply two_strings_mono);
    (apply first_mono; [done|done|by intros []| |done]; intros l l' rest rest' Hl; cbn -[bs]; by rewrite ?Hl).
Qed.

Definition strict_op (op : BinaryOperator) : bool :=
  match op with OpEq | OpNeq | OpIn | OpNotIn | OpDiv | OpMod => false | _ => true end.

(** Expressions without division whose value is unknown where an unknown operand could
    change it: no [==] and [!=], no tests for NULL, no COALESCE and IS_A, no maps; [IN]
    is applied to a scalar and a list of expressions. *)
Fixpoint strict_expr (Γ : bytes -> option Ty) (e : Expression) : bool :=
  match e with
  | Lit _ | Identifier _ | PropRef _ _ => true
  | BinaryOp op l r =>
      strict_expr Γ l && strict_expr Γ r &&
      match op with
      | OpIn | OpNotIn =>
          match r, expr_type Γ l with EList _, Some t => scalar_type t | _, _ => false end
      | _ => strict_op op
      end
  | UnaryOp _ e => strict_expr Γ e
  | FunctionCall name args => strict_function name && forallb (strict_expr Γ) args
  | EList items => forallb (strict_expr Γ) items
  | EMap _ | DstVertexProp _ _ => false
  end.

(** [ctx'] is [ctx] with some unknown properties known. *)
Definition context_le (ctx ctx' : EvalContext) : Prop :=
  forall path v, get_property ctx path = Some v -> exists w, get_property ctx' path = Some w /\ vle v w.

Lemma strict_division_free Γ e : strict_expr Γ e = true -> division_free e = true.
Proof.
  assert (forall l, Forall (fun e => strict_expr Γ e = true -> division_free e = true) l ->
    forallb (strict_expr Γ) l = true -> forallb division_free l = true) as Hl.
  { induction 1; simpl; [done|]. rewrite !andb_true_iff. naive_solver. }
  induction e using expression_ind'; simpl; rewrite ?andb_true_iff; try (by auto).
  - intros [[Hs1 Hs2] Hop]. split_and!; [by destruct op|auto|auto].
  - intros [_ Hs]. by apply Hl.
Qed.

Lemma o_bind_ok {A B} (o : Outcome A) (f : A -> Outcome B) b :
  o_bind o f = ok b -> exists a, o = ok a /\ f a = ok b.
Proof. destruct o as [[a|]|]; try done. eauto. Qed.

Lemma collect_ok {A B} (f : B -> Outcome A) l vs : collect_outcomes (f <$> l) = ok vs -> Forall2 (fun x v => f x = ok v) l vs.
Proof.
  revert vs. induction l as [|x l IH]; intros vs; [by intros [= <-]|]. cbn [fmap list_fmap collect_outcomes].
  intros (v & Hv & (vs' & Hvs & [= <-])%o_bind_ok)%o_bind_ok. constructor; [done|by apply IH].
Qed.

Lemma evaluated_type Γ ctx e t v :
  context_typed Γ ctx -> expr_type Γ e = Some t -> evaluate_with_context e ctx = ok v -> has_type v t.
Proof. intros Hctx Ht Hv. pose proof (evaluate_typed Γ ctx e t Hctx Ht) as He. unfold typed_outcome in He. by rewrite Hv in He. Qed.

Lemma all_some_Forall {A B} (g : A -> option B) l ts : all_some (g <$> l) = Some ts -> Forall (fun x => is_Some (g x)) l.
Proof.
  revert ts. induction l as [|x l IH]; intros ts; cbn [fmap list_fmap all_some]; [constructor|].
  destruct (g x) eqn:E; [|done]. destruct (all_some _); [|done]. intros _. constructor; [by rewrite E|by eapply IH].
Qed.

Lemma in_op_mono (op : BinaryOperator) v w t items items' r r' :
  match op with OpIn | OpNotIn => True | _ => False end ->
  has_type v t -> scalar_type t = true -> vle v w -> Forall2 vle items items' ->
  eval_binary_op op v (VList items) = ok r -> eval_binary_op op w (VList items') = ok r' -> vle r r'.
Proof.
  intros Hop Hv Ht Hvw Hitems. pose proof (in_mono v w t items items' Hv Ht Hvw Hitems) as Hle.
  pose proof (eval_in_kleene v items) as E. pose proof (eval_in_kleene w items') as E'.
  destruct op; try (exfalso; exact Hop); cbn [eval_binary_op]; intros [= <-] [= <-].
  - by eapply truth_mono.
  - apply (truth_mono _ _ (k_not (k_in v items)) (k_not (k_in w items'))); [..|by apply k_not_mono];
      [destruct (truth_inv _ _ E) as [(? & -> & ->)|(? & -> & ->)]|destruct (truth_inv _ _ E') as [(? & -> & ->)|(? & -> & ->)]]; done.
Qed.

Section contexts.
Context (Γ : bytes -> option Ty) (ctx ctx' : EvalContext).
Context (Hctx : context_typed Γ ctx) (Hctx' : context_typed Γ ctx') (Hle : context_le ctx ctx').

(** The value of [e] with more properties known, against its value before. *)
Definition improves (e : Expression) : Prop :=
  forall t v w, expr_type Γ e = Some t -> strict_expr Γ e = true ->
    evaluate_with_context e ctx = ok v -> evaluate_with_context e ctx' = ok w -> vle v w.

Lemma property_mono path t v w :
  Γ path = Some t -> get_property ctx path = Some v -> get_property ctx' path = Some w -> vle v w.
Proof. intros Ht Hv Hw. destruct (Hle _ _ Hv) as (w' & Hw' & Hvw). by rewrite Hw in Hw'; injection Hw' as <-. Qed.

Lemma list_mono es ts vs ws :
  Forall improves es -> all_some (expr_type Γ <$> es) = Some ts -> forallb (strict_expr Γ) es = true ->
  collect_outcomes ((fun e => evaluate_with_context e ctx) <$> es) = ok vs ->
  collect_outcomes ((fun e => evaluate_with_context e ctx') <$> es) = ok ws -> Forall2 vle vs ws.
Proof.
  intros Hes Hts Hs Hvs%collect_ok Hws%collect_ok. apply all_some_Forall in Hts.
  revert vs ws Hvs Hws Hts Hs. induction Hes as [|e es He _ IH]; intros vs ws Hvs Hws Hts Hs.
  - inversion Hvs; inversion Hws; constructor.
  - inversion Hvs as [|? v ? vs' Hv Hvs']; inversion Hws as [|? w ? ws' Hw Hws']; subst.
    apply Forall_cons in Hts as [[t Ht] Hts]. simpl in Hs. apply andb_true_iff in Hs as [Hse Hs].
    constructor; [by eapply He|by apply IH].
Qed.

Lemma evaluate_mono e : improves e.
Proof.
  unfold improves.
  induction e as [l|name|op l r IHl IHr|op e IHe|name args IHargs|items IHitems|entries IHentries|object prop|tag prop]
    using expression_ind'; intros t v w Ht Hs Hv Hw; cbn [expr_type strict_expr evaluate_with_context] in *; try done.
  - rewrite Hv in Hw. injection Hw as <-. apply vle_refl.
  - destruct (get_property ctx name) eqn:E; [|done]. destruct (get_property ctx' name) eqn:E'; [|done].
    injection Hv as <-. injection Hw as <-. by eapply property_mono.
  - destruct (expr_type Γ l) as [t1|] eqn:T1; [|done]. destruct (expr_type Γ r) as [t2|] eqn:T2; [|done].
    apply andb_true_iff in Hs as [[Hs1 Hs2]%andb_true_iff Hop].
    apply o_bind_ok in Hv as (v1 & Hv1 & (v2 & Hv2 & Hv)%o_bind_ok). apply o_bind_ok in Hw as (w1 & Hw1 & (w2 & Hw2 & Hw)%o_bind_ok).
    specialize (IHl _ _ _ eq_refl Hs1 Hv1 Hw1).
    pose proof (evaluated_type _ _ _ _ _ Hctx T1 Hv1) as Y1. pose proof (evaluated_type _ _ _ _ _ Hctx' T1 Hw1) as Z1.
    pose proof (evaluated_type _ _ _ _ _ Hctx T2 Hv2) as Y2. pose proof (evaluated_type _ _ _ _ _ Hctx' T2 Hw2) as Z2.
    specialize (IHr _ _ _ eq_refl Hs2 Hv2 Hw2).
    pose proof (binary_mono op v1 v2 w1 w2 v w) as Hstrict.
    destruct op; try discriminate Hop; try exact (Hstrict I IHl IHr Hv Hw).
    + simpl in Ht. destruct (logic_type t1 && logic_type t2) eqn:Hlog; [|done]. by apply (and_mono v1 v2 w1 w2 t1 t2).
    + simpl in Ht. destruct (logic_type t1 && logic_type t2) eqn:Hlog; [|done]. by apply (or_mono v1 v2 w1 w2 t1 t2).
    + destruct r; try discriminate Hop. cbn in Hv2, Hw2. apply o_bind_ok in Hv2 as (vs & Hvs & [= <-]).
      apply o_bind_ok in Hw2 as (ws & Hws & [= <-]). apply vle_list in IHr. by apply (in_op_mono OpIn v1 w1 t1 vs ws v w I).
    + destruct r; try discriminate Hop. cbn in Hv2, Hw2. apply o_bind_ok in Hv2 as (vs & Hvs & [= <-]).
      apply o_bind_ok in Hw2 as (ws & Hws & [= <-]). apply vle_list in IHr. by apply (in_op_mono OpNotIn v1 w1 t1 vs ws v w I).
  - destruct (expr_type Γ e) as [t0|] eqn:T0; [|done].
    apply o_bind_ok in Hv as (v0 & Hv0 & Hv). apply o_bind_ok in Hw as (w0 & Hw0 & Hw).
    apply (unary_mono op v0 w0 v w); [by eapply IHe|done|done].
  - destruct (all_some _) as [ts|] eqn:Ets; [|done]. apply andb_true_iff in Hs as [Hfn Hs].
    apply o_bind_ok in Hv as (vs & Hvs & Hv). apply o_bind_ok in Hw as (ws & Hws & Hw).
    apply (function_mono name vs ws ctx ctx' v w Hfn); [by eapply list_mono|done|done].
  - destruct (all_some _) as [ts|] eqn:Ets; [|done].
    apply o_bind_ok in Hv as (vs & Hvs & [= <-]). apply o_bind_ok in Hw as (ws & Hws & [= <-]).
    apply vle_list. by eapply list_mono.
  - destruct (Hctx _ _ Ht) as (x & Hx & _). destruct (Hctx' _ _ Ht) as (y & Hy & _). rewrite Hx in Hv. rewrite Hy in Hw.
    injection Hv as <-. injection Hw as <-. by eapply property_mono.
Qed.
End contexts.
End unknown.

(** ** Properties *)

Section properties.
Context `{EvalPlatform} `{MessageText}.

(** C32: a well-typed expression has a value of its type, with integers in range, and
    a well-typed condition is true or false; the only other outcomes are the errors
    of a division by zero and the panic of a quotient, and none of them without a
    division. *)
Theorem evaluate_type_sound Γ ctx e t :
  context_typed Γ ctx -> expr_type Γ e = Some t ->
  outcome_ok (fun v => has_type v t) (negb (division_free e)) (evaluate_with_context e ctx) /\
  (logic_type t = true -> outcome_ok (fun _ => True) (negb (division_free e)) (evaluate_condition e ctx)).
Proof.
  intros Hctx Ht. pose proof (evaluate_typed Γ ctx e t Hctx Ht) as He. split; [exact He|]. intros Hlog.
  eapply outcome_bind; [exact He|done|]. intros v Hv. destruct t; try discriminate Hlog; by destruct v.
Qed.

(** AND, OR and NOT of truth values, and IN and NOT IN of a list, compute Kleene's
    three-valued logic, whatever the expressions that have these values, and such a
    condition holds if and only if its truth value is true. *)
Theorem condition_kleene val ctx f :
  formula_ready val ctx f ->
  evaluate_condition (formula_expr f) ctx = ok (bool_decide (kleene val f = Some true)).
Proof.
  intros Hr. destruct (evaluate_kleene val ctx f Hr) as (v & Hv & Htruth). unfold evaluate_condition. rewrite Hv.
  destruct (truth_inv _ _ Htruth) as [(n & -> & ->)|([] & -> & ->)]; done.
Qed.

(** A condition that is decided while some properties are NULL is decided the same
    way whatever values take their place: the evaluator treats NULL as unknown. This
    holds of the well-typed expressions of [strict_expr], which have none of these:
    [==] and [!=], [IN] and [NOT IN] of a list or map or of anything but a list of
    expressions, division and remainder, the functions IS_A, IS_NULL, IS_NOT_NULL and
    COALESCE, maps, and properties of a destination vertex. *)
Theorem condition_stable Γ ctx ctx' e :
  context_typed Γ ctx -> context_typed Γ ctx' -> context_le ctx ctx' ->
  expr_type Γ e = Some TyBool -> strict_expr Γ e = true ->
  exists v w, evaluate_with_context e ctx = ok v /\ evaluate_with_context e ctx' = ok w /\
    (is_null v = true \/ v = w) /\
    (evaluate_condition e ctx = ok true -> evaluate_condition e ctx' = ok true).
Proof.
  intros Hctx Hctx' Hle Ht Hs. pose proof (strict_division_free _ _ Hs) as Hd.
  pose proof (evaluate_typed Γ ctx e _ Hctx Ht) as Hv. pose proof (evaluate_typed Γ ctx' e _ Hctx' Ht) as Hw.
  pose proof (evaluate_mono Γ ctx ctx' Hctx Hctx' Hle e TyBool) as Hmono. unfold typed_outcome in *. rewrite Hd in *.
  unfold evaluate_condition. destruct (evaluate_with_context e ctx) as [[v|]|]; simpl in Hv; [|by destruct Hv|done].
  destruct (evaluate_with_context e ctx') as [[w|]|]; simpl in Hw; [|by destruct Hw|done].
  specialize (Hmono v w Ht Hs eq_refl eq_refl). exists v, w. do 2 (split; [done|]).
  destruct v; try (by destruct Hv); (split; [naive_solver|]); simpl in *; [done|]. by rewrite <- Hmono.
Qed.

(** Literals, negated numbers and lists of them. *)
Fixpoint number (e : Expression) : bool :=
  match e with
  | Lit (LInt _) | Lit (LFloat _) => true
  | UnaryOp OpNeg e => number e
  | _ => false
  end.
Fixpoint constant (e : Expression) : bool :=
  match e with
  | Lit _ => true
  | UnaryOp OpNeg e => number e
  | EList items => forallb constant items
  | _ => false
  end.

Lemma number_value e ctx :
  number e = true ->
  exists v, expr_to_value e = Ok v /\ evaluate_with_context e ctx = ok v /\ match v with VInt _ | VFloat _ => True | _ => False end.
Proof.
  induction e as [l|name|op l r _ _|op e IHe|name args _|items _|entries _|object prop|tag prop] using expression_ind';
    intros Hn; try discriminate Hn; cbn [evaluate_with_context expr_to_value].
  - destruct l; try discriminate Hn; by eexists.
  - destruct op; [|discriminate Hn]. destruct (IHe Hn) as (v & -> & -> & Hv). destruct v; try (by destruct Hv); by eexists.
Qed.

Lemma constants_value items ctx :
  Forall (fun e => constant e = true -> exists v, expr_to_value e = Ok v /\ evaluate_with_context e ctx = ok v) items ->
  forallb constant items = true ->
  exists vs, collect_results (expr_to_value <$> items) = Ok vs /\
    collect_outcomes ((fun e => evaluate_with_context e ctx) <$> items) = ok vs.
Proof.
  induction 1 as [|e items He _ IH]; [by exists []|]. cbn [fmap list_fmap collect_results collect_outcomes forallb].
  intros [(v & -> & ->)%He (vs & Hvs & Hws)%IH]%andb_true_iff. exists (v :: vs). cbn [fmap] in *. by rewrite Hvs, Hws.
Qed.

(** A constant in a statement, such as a property value of an INSERT, is given the
    value the evaluator computes for it, in every context; neither fails. *)
Theorem expr_to_value_evaluates e ctx :
  constant e = true -> exists v, expr_to_value e = Ok v /\ evaluate_with_context e ctx = ok v.
Proof.
  induction e as [l|name|op l r _ _|op e _|name args _|items IHitems|entries _|object prop|tag prop] using expression_ind';
    intros Hc; try discriminate Hc.
  - by destruct l; eexists.
  - destruct op; [|discriminate Hc]. destruct (number_value (UnaryOp OpNeg e) ctx Hc) as (v & Hv & Hw & _). eauto.
  - destruct (constants_value items ctx IHitems Hc) as (vs & Hvs & Hws). exists (VList vs).
    cbn [expr_to_value evaluate_with_context]. by rewrite Hvs, Hws.
Qed.
End properties.

(** ** Departures *)

Section departures.
Context `{EvalPlatform} `{MessageText}.

Definition int (i : Z) : Expression := Lit (LInt i).
Definition infinity : Expression := Lit (LFloat 0x7ff0000000000000).
Definition nan : Expression := Lit (LFloat 0x7ff8000000000000).

(** Where the evaluator departs from what its operators mean: the quotient of the
    least integer by [-1] panics; infinity is not equal to itself although it is
    neither less nor greater; NaN is at most and at least every number, so that
    comparison is not transitive; and [5 NOT IN NULL] is true. *)
Theorem evaluator_departures :
  evaluate (BinaryOp OpDiv (BinaryOp OpSub (UnaryOp OpNeg (int I64_MAX)) (int 1)) (UnaryOp OpNeg (int 1))) = None /\
  evaluate (BinaryOp OpEq infinity infinity) = ok (VBool false) /\
  evaluate (BinaryOp OpLt infinity infinity) = ok (VBool false) /\
  evaluate (BinaryOp OpGt infinity infinity) = ok (VBool false) /\
  evaluate (BinaryOp OpLte (int 1) nan) = ok (VBool true) /\
  evaluate (BinaryOp OpLte nan (int 0)) = ok (VBool true) /\
  evaluate (BinaryOp OpLte (int 1) (int 0)) = ok (VBool false) /\
  evaluate (BinaryOp OpNotIn (int 5) (Lit LNull)) = ok (VBool true).
Proof. repeat split; vm_compute; reflexivity. Qed.
End departures.

(** ** Witnesses *)

Module EvalDemo.
#[export, refine] Instance demo_platform : EvalPlatform := {|
  unicode_lower := id;
  unicode_upper := id;
  regex_is_match _ _ := None;
  map_values m := (map_to_list m).*2;
  nan_bits _ _ := 0x7ff8000000000000
|}.
Proof. all: done. Defined.
#[export] Instance demo_text : MessageText := {| json_display _ := []; value_debug _ := []; expression_debug _ := [] |}.

(** [person.age + 1 > 18 OR score > 50] *)
Definition older : Expression :=
  BinaryOp OpGt (BinaryOp OpAdd (Identifier (bs "person.age")) (int 1)) (int 18).
Definition condition : Expression := BinaryOp OpOr older (BinaryOp OpGt (Identifier (bs "score")) (int 50)).
Definition types (path : bytes) : option Ty :=
  if bool_decide (path = bs "person.age") then Some TyInt
  else if bool_decide (path = bs "score") then Some TyInt else None.
Definition context (score : Value) : EvalContext :=
  with_current empty_context {[bs "person.age" := VInt 20; bs "score" := score]}.

Lemma get_age score : get_property (context score) (bs "person.age") = Some (VInt 20).
Proof. reflexivity. Qed.
Lemma get_score score : get_property (context score) (bs "score") = Some score.
Proof. reflexivity. Qed.

Lemma context_types score : has_type score TyInt -> context_typed types (context score).
Proof.
  intros Hs path t. unfold types. case_bool_decide as E1; [|case_bool_decide as E2; [|done]]; intros [= <-]; subst path.
  - exists (VInt 20). by rewrite get_age.
  - exists score. by rewrite get_score.
Qed.

(** Known where the score is NULL, or unknown there. *)
Lemma lookup_score k v :
  (current (context null) !! k = None /\ current (context v) !! k = None) \/
  (exists w, current (context null) !! k = Some w /\ current (context v) !! k = Some w) \/
  (current (context null) !! k = Some null /\ current (context v) !! k = Some v).
Proof.
  unfold context, with_current. cbn [current]. destruct (decide (k = bs "person.age")) as [->|H1].
  { right. left. exists (VInt 20). by rewrite !lookup_insert_eq. }
  destruct (decide (k = bs "score")) as [->|H2].
  - right. right. split; reflexivity.
  - left. split; (rewrite lookup_insert_ne by done); by apply lookup_singleton_ne.
Qed.

Lemma context_null_le v : context_le (context null) (context v).
Proof.
  intros path w. unfold get_property.
  change (variables (context null)) with (∅ : gmap bytes (gmap bytes Value)).
  change (variables (context v)) with (∅ : gmap bytes (gmap bytes Value)).
  change (destination (context null)) with (∅ : gmap bytes Value). change (source (context null)) with (∅ : gmap bytes Value).
  destruct (split_on DOT path) as [|a [|b [|c [|d l]]]]; try done.
  - change (map_values ∅) with (@nil (gmap bytes Value)).
    destruct (lookup_score a v) as [[-> ->]|[(x & -> & ->)|[-> ->]]];
      cbn; intros E; try discriminate E; injection E as <-; eauto using vle_refl, vle_null.
  - rewrite lookup_empty. unfold qualified_or_bare.
    destruct (lookup_score (a ++ bs "." ++ b) v) as [[-> ->]|[(x & -> & ->)|[-> ->]]];
      (destruct (lookup_score b v) as [[-> ->]|[(y & -> & ->)|[-> ->]]]);
      intros E; try discriminate E; injection E as <-; eauto using vle_refl, vle_null.
  - repeat case_bool_decide; unfold qualified_or_bare; rewrite ?lookup_empty; done.
Qed.

Lemma evaluate_type_sound_witness :
  outcome_ok (fun v => has_type v TyBool) (negb (division_free condition)) (evaluate_with_context condition (context null)) /\
  (logic_type TyBool = true ->
   outcome_ok (fun _ => True) (negb (division_free condition)) (evaluate_condition condition (context null))).
Proof. apply (evaluate_type_sound types); [by apply context_types|reflexivity]. Defined.

Lemma condition_stable_witness :
  exists v w, evaluate_with_context condition (context null) = ok v /\ evaluate_with_context condition (context (VInt 10)) = ok w /\
    (is_null v = true \/ v = w) /\
    (evaluate_condition condition (context null) = ok true -> evaluate_condition condition (context (VInt 10)) = ok true).
Proof.
  apply (condition_stable types); [by apply context_types|apply context_types; by vm_compute|apply context_null_le|reflexivity|reflexivity].
Defined.

(** [person.age + 1 > 18 AND 2 NOT IN [1, NULL]] *)
Definition formula : Formula := FAnd (FAtom older) (FNotIn (int 2) (EList [int 1; Lit LNull])).
Definition value_in (ctx : EvalContext) (e : Expression) : Value :=
  match evaluate_with_context e ctx with Some (Ok v) => v | _ => VEmpty end.

Lemma condition_kleene_witness :
  evaluate_condition (formula_expr formula) (context null) =
  ok (bool_decide (kleene (value_in (context null)) formula = Some true)).
Proof. apply (condition_kleene (value_in (context null))). repeat split; vm_compute; eauto. Defined.

Lemma expr_to_value_evaluates_witness :
  exists v, expr_to_value (EList [UnaryOp OpNeg (int 1); Lit LNull]) = Ok v /\
    evaluate_with_context (EList [UnaryOp OpNeg (int 1); Lit LNull]) (context null) = ok v.
Proof. apply (expr_to_value_evaluates _ (context null)). reflexivity. Defined.
End EvalDemo.
