(* ===== verification/VertexCodec.v ===== *)
(** * Vertex and edge records

    [byoridb-codec/src/vertex.rs]: records in Protocol Buffers format behind a magic
    byte, and the older JSON format. The messages are those of
    [byoridb-codec/proto/data.proto]; their wire format is that of the crate prost,
    given by an encoder and a decoder for each message. *)

From Stdlib Require Import ZArith Lia Strings.Byte Strings.String.
From stdpp Require Import base tactics list gmap.
From S2P Require Import Prelude Text Value Exec.

Inductive CodecError :=
| UnknownField (field : bytes)
| CTypeMismatch (expected found : bytes)
| OutOfRange
| NotNullable (field : bytes)
| FieldUnset (field : bytes)
| IncorrectValue (msg : bytes)
| CSerialization (msg : bytes)
| InvalidSchemaVersion (version : Z)
| InvalidEncodingVersion (version : Z).

(** Its display. *)
Definition codec_display (e : CodecError) : bytes :=
  match e with
  | UnknownField field => bs "Unknown field: " ++ field
  | CTypeMismatch expected found => bs "Type mismatch: expected " ++ expected ++ bs ", found " ++ found
  | OutOfRange => bs "Out of range"
  | NotNullable field => bs "Field not nullable: " ++ field
  | FieldUnset field => bs "Field unset: " ++ field
  | IncorrectValue msg => bs "Incorrect value: " ++ msg
  | CSerialization msg => bs "Serialization error: " ++ msg
  | InvalidSchemaVersion version => bs "Invalid schema version: " ++ dec version
  | InvalidEncodingVersion version => bs "Invalid encoding version: " ++ dec version
  end.

(** [From<byoridb_common::Error>]. *)
Definition from_common_error (e : CommonError) : CodecError :=
  match e with
  | BadType expected found => CSerialization (bs "Bad type: expected " ++ expected ++ bs ", found " ++ found)
  end.

(** ** Records *)

Record TagData := mkTag { tag_name : bytes; tag_properties : gmap bytes Value }.
Record VertexData := mkVertex { vid : Z; tags : list TagData }.
Record EdgeData := mkEdge {
  src_vid : Z; dst_vid : Z; edge_type : bytes; ranking : Z; edge_properties : gmap bytes Value
}.

(** ** Messages *)

#[warnings="-register-all"] Inductive PbValue :=
| PbUnset
| PbBool (b : bool)
| PbInt (i : Z)
| PbFloat (bits : Z)
| PbString (s : bytes)
| PbBytes (b : bytes)
| PbDate (year month day : Z)
| PbDateTime (year month day hour minute second microsecond : Z)
| PbGeography (wkt : bytes)
| PbNull (n : Z)
| PbList (values : list PbValue)
| PbMap (values : gmap bytes PbValue).

Record PbTag := mkPbTag { pb_name : bytes; pb_tag_properties : gmap bytes PbValue }.
Record PbVertex := mkPbVertex { pb_vid : Z; pb_tags : list PbTag }.
Record PbEdge := mkPbEdge {
  pb_src_vid : Z; pb_dst_vid : Z; pb_edge_type : bytes; pb_ranking : Z; pb_properties : gmap bytes PbValue
}.

(** [prost::Message]: the buffer of an encoding is a growing vector, so it never fails. *)
Class ProstMessage (M : Type) := {
  prost_encode : M -> bytes;
  prost_decode : bytes -> Result string M
}.

(** The messages nested below a value: an element of a list, an entry of a map and
    its value are messages of their own. *)
Fixpoint pb_depth (v : PbValue) : nat :=
  match v with
  | PbDate _ _ _ | PbDateTime _ _ _ _ _ _ _ | PbGeography _ => 1
  | PbList l => S (foldr (fun v n => Nat.max (S (pb_depth v)) n) O l)
  | PbMap m => S (map_fold (fun _ v n => Nat.max (S (S (pb_depth v))) n) O m)
  | _ => 0
  end.
Definition pb_props_depth (m : gmap bytes PbValue) : nat :=
  map_fold (fun _ v n => Nat.max (S (S (pb_depth v))) n) O m.

(** The messages nested below a record. *)
Class PbDepth (M : Type) := msg_depth : M -> nat.
#[global] Instance pb_vertex_depth : PbDepth PbVertex :=
  fun v => foldr (fun t n => Nat.max (S (pb_props_depth (pb_tag_properties t))) n) O (pb_tags v).
#[global] Instance pb_edge_depth : PbDepth PbEdge := fun e => pb_props_depth (pb_properties e).

(** The recursion limit of prost's decoder. *)
Definition RECURSION_LIMIT : nat := 100.

(** Messages within the recursion limit are read back as written; deeper ones are
    written as well, and reading them is an error. *)
Class ProstLaws (M : Type) `{ProstMessage M} `{PbDepth M} := {
  prost_roundtrip m : (msg_depth m <= RECURSION_LIMIT)%nat -> prost_decode (prost_encode m) = Ok m;
  prost_too_deep m : (RECURSION_LIMIT < msg_depth m)%nat -> exists e, prost_decode (prost_encode m) = Err e
}.

Definition PROTO_MAGIC : byte := xca.

(** Any text of a [string] error as bytes. *)
Definition error_text (e : string) : bytes := bs e.

Definition as_u16 (z : Z) : Z := z mod 65536.
Definition as_u8 (z : Z) : Z := z mod 256.

Section codec.
Context `{DebugText} `{ProstMessage PbVertex} `{ProstMessage PbEdge} `{SerdeJson JsonValue}.

Fixpoint value_to_proto (v : Value) : PbValue :=
  match v with
  | VNull _ => PbNull 0
  | VBool b => PbBool b
  | VInt i => PbInt i
  | VFloat f => PbFloat f
  | VString s => PbString s
  | VDate d => PbDate (d_year d) (d_month d) (d_day d)
  | VDateTime dt => PbDateTime (dt_year dt) (dt_month dt) (dt_day dt) (dt_hour dt) (dt_minute dt) (dt_second dt)
      (dt_microsecond dt)
  | VGeography g => PbGeography g
  | VList items => PbList (value_to_proto <$> items)
  | VMap data => PbMap (value_to_proto <$> data)
  | VVertex _ _ | VEdge _ _ _ _ _ _ | VPath _ => PbString (value_to_string v)
  | VEmpty => PbNull 0
  | VTime t => PbString (time_to_string t)
  | VSet _ => PbString (value_to_string v)
  | VDataSet _ _ => PbString (value_to_string v)
  | VDuration d => PbString d
  end.

Definition tag_to_proto (tag : TagData) : PbTag :=
  mkPbTag (tag_name tag) (value_to_proto <$> tag_properties tag).
Definition vertex_to_proto (v : VertexData) : PbVertex := mkPbVertex (vid v) (tag_to_proto <$> tags v).
Definition edge_to_proto (e : EdgeData) : PbEdge :=
  mkPbEdge (src_vid e) (dst_vid e) (edge_type e) (ranking e)
    (value_to_proto <$> edge_properties e).

Fixpoint proto_to_value (v : PbValue) : Value :=
  match v with
  | PbNull _ => VNull NullNull
  | PbBool b => VBool b
  | PbInt i => VInt i
  | PbFloat f => VFloat f
  | PbString s => VString s
  | PbDate y m d => VDate (mkDate (as_u16 y) (as_u8 m) (as_u8 d))
  | PbDateTime y m d hh mm ss us =>
      VDateTime (mkDateTime (as_u16 y) (as_u8 m) (as_u8 d) (as_u8 hh) (as_u8 mm) (as_u8 ss) us)
  | PbGeography wkt => VGeography wkt
  | PbList values => VList (proto_to_value <$> values)
  | PbMap values => VMap (proto_to_value <$> values)
  | PbBytes b => VString (utf8_lossy b)
  | PbUnset => VNull NullNull
  end.

Definition proto_to_tag (t : PbTag) : TagData :=
  mkTag (pb_name t) (proto_to_value <$> pb_tag_properties t).

Definition decode_vertex_proto (b : bytes) : Result CodecError VertexData :=
  match prost_decode b with
  | Ok v => Ok (mkVertex (pb_vid v) (proto_to_tag <$> pb_tags v))
  | Err e => Err (IncorrectValue (bs "Proto decode failed: " ++ error_text e))
  end.

Definition decode_edge_proto (b : bytes) : Result CodecError EdgeData :=
  match prost_decode b with
  | Ok e => Ok (mkEdge (pb_src_vid e) (pb_dst_vid e) (pb_edge_type e) (pb_ranking e)
              (proto_to_value <$> pb_properties e))
  | Err e => Err (IncorrectValue (bs "Proto decode failed: " ++ error_text e))
  end.

(** *** The JSON format *)

Fixpoint json_to_value (j : JsonValue) : Value :=
  match j with
  | JNull => VNull NullNull
  | JBool b => VBool b
  | JInt z => if bool_decide (i64_ok z) then VInt z else VFloat (f64_of_int z)
  | JFloat f => VFloat f
  | JString s => VString s
  | JArray l => VList (json_to_value <$> l)
  | JObject l => VMap (collect_map ((fun kv => (kv.1, json_to_value kv.2)) <$> l))
  end.

Definition json_props (j : option JsonValue) : gmap bytes Value :=
  match j ≫= json_as_object with
  | Some o => collect_map ((fun kv => (kv.1, json_to_value kv.2)) <$> o)
  | None => ∅
  end.

Definition json_parse (data : bytes) : Result CodecError JsonValue :=
  match json_from_slice data with
  | Ok j => Ok j
  | Err e => Err (IncorrectValue (bs "JSON decode failed: " ++ error_text e))
  end.

Definition json_tag (j : JsonValue) : option TagData :=
  n ← json_get (bs "name") j; name ← json_as_str n;
  Some (mkTag name (json_props (json_get (bs "props") j))).

(** [a.get(k).or_else(|| a.get(k'))]. *)
Definition json_get_or (k k' : bytes) (j : JsonValue) : option JsonValue :=
  match json_get k j with Some v => Some v | None => json_get k' j end.

Definition json_i64 (j : option JsonValue) : Z := default 0 (j ≫= json_as_i64).

Definition decode_vertex_json (data : bytes) : Result CodecError VertexData :=
  match json_parse data with
  | Err e => Err e
  | Ok json =>
      Ok (mkVertex (json_i64 (json_get (bs "vid") json))
            match json_get (bs "tags") json ≫= json_as_array with
            | Some arr => filter_map json_tag arr
            | None => []
            end)
  end.

Definition decode_edge_json (data : bytes) : Result CodecError EdgeData :=
  match json_parse data with
  | Err e => Err e
  | Ok json =>
      Ok (mkEdge (json_i64 (json_get (bs "src") json)) (json_i64 (json_get (bs "dst") json))
            (default [] (json_get_or (bs "edge_type") (bs "type") json ≫= json_as_str))
            (json_i64 (json_get_or (bs "ranking") (bs "rank") json))
            (json_props (json_get_or (bs "props") (bs "properties") json)))
  end.

(** *** Encoding and decoding *)

Definition encode_vertex (v : VertexData) : Result CodecError bytes :=
  Ok (PROTO_MAGIC :: prost_encode (vertex_to_proto v)).
Definition encode_edge (e : EdgeData) : Result CodecError bytes :=
  Ok (PROTO_MAGIC :: prost_encode (edge_to_proto e)).

Definition decode_vertex (data : bytes) : Result CodecError VertexData :=
  match data with
  | [] => Err (IncorrectValue (bs "Empty data"))
  | b :: rest => if bool_decide (b = PROTO_MAGIC) then decode_vertex_proto rest else decode_vertex_json data
  end.
Definition decode_edge (data : bytes) : Result CodecError EdgeData :=
  match data with
  | [] => Err (IncorrectValue (bs "Empty data"))
  | b :: rest => if bool_decide (b = PROTO_MAGIC) then decode_edge_proto rest else decode_edge_json data
  end.

Definition is_proto_format (data : bytes) : bool :=
  match data with [] => false | b :: _ => bool_decide (b = PROTO_MAGIC) end.

(** *** Reading one vertex id of an edge *)

(** [i] counts the bytes read, at most ten; a shifted-out bit is lost. *)
Fixpoint read_varint_from (buf : bytes) (i : nat) (result : Z) : option (Z * nat) :=
  match buf with
  | [] => None
  | b :: buf =>
      if (10 <=? i)%nat then None else
      let result := Z.lor result (as_u64 (Z.shiftl (Z.land (b2z b) 0x7f) (7 * Z.of_nat i))) in
      if Z.land (b2z b) 0x80 =? 0 then Some (result, S i) else read_varint_from buf (S i) result
  end.
Definition read_varint (buf : bytes) : option (Z * nat) := read_varint_from buf 0 0.

(** The loop of [decode_edge_vid_proto]; [None] when [fuel] rounds are not enough.
    The position is a [usize] and wraps. *)
Fixpoint scan_vid (fuel : nat) (data : bytes) (pos target_field : Z) : option (Result CodecError Z) :=
  if Z.of_nat (length data) <=? pos then Some (Ok 0) else
  match fuel with
  | O => None
  | S fuel =>
      match read_varint (drop (Z.to_nat pos) data) with
      | None => Some (Err (IncorrectValue (bs "Truncated tag")))
      | Some (tag, n) =>
          let pos := u64_add pos (Z.of_nat n) in
          let rest := drop (Z.to_nat pos) data in
          let field_num := Z.shiftr tag 3 in
          let wire_type := Z.land tag 0x7 in
          if (field_num =? target_field) && (wire_type =? 0) then
            match read_varint rest with
            | Some (val, _) => Some (Ok (as_i64 val))
            | None => Some (Err (IncorrectValue (bs "Truncated vid field")))
            end
          else if wire_type =? 0 then
            match read_varint rest with
            | Some (_, n) => scan_vid fuel data (u64_add pos (Z.of_nat n)) target_field
            | None => Some (Err (IncorrectValue (bs "Truncated varint")))
            end
          else if wire_type =? 1 then scan_vid fuel data (u64_add pos 8) target_field
          else if wire_type =? 2 then
            match read_varint rest with
            | Some (len, n) => scan_vid fuel data (u64_add pos (u64_add (Z.of_nat n) len)) target_field
            | None => Some (Err (IncorrectValue (bs "Truncated length prefix")))
            end
          else if wire_type =? 5 then scan_vid fuel data (u64_add pos 4) target_field
          else Some (Err (IncorrectValue (bs "Unsupported wire type " ++ dec wire_type)))
      end
  end.

Definition decode_edge_vid_proto (fuel : nat) (data : bytes) (target_field : Z) : option (Result CodecError Z) :=
  scan_vid fuel data 0 target_field.

(** The vertex id in field [target_field] of a record, or under [name] in JSON. *)
Definition decode_edge_vid (fuel : nat) (data : bytes) (target_field : Z) (name : bytes) :
    option (Result CodecError Z) :=
  match data with
  | [] => Some (Err (IncorrectValue (bs "Empty data")))
  | b :: rest =>
      if bool_decide (b = PROTO_MAGIC) then decode_edge_vid_proto fuel rest target_field
      else Some (match json_parse data with
                 | Err e => Err e
                 | Ok json => Ok (json_i64 (json_get name json))
                 end)
  end.
Definition decode_edge_dst (fuel : nat) (data : bytes) := decode_edge_vid fuel data 2 (bs "dst").
Definition decode_edge_src (fuel : nat) (data : bytes) := decode_edge_vid fuel data 1 (bs "src").

(** *** Records as JSON *)

(** [json!] of a float: those that are not finite become null. *)
Definition json_float (bits : Z) : JsonValue :=
  if Z.land (Z.shiftr bits 52) 0x7ff =? 0x7ff then JNull else JFloat bits.

Fixpoint value_to_json (v : Value) : JsonValue :=
  match v with
  | VNull _ => JNull
  | VBool b => JBool b
  | VInt i => JInt i
  | VFloat f => json_float f
  | VString s => JString s
  | VDate d => JString (dec (d_year d) ++ bs "-" ++ padded 2 (d_month d) ++ bs "-" ++ padded 2 (d_day d))
  | VDateTime dt =>
      JString (dec (dt_year dt) ++ bs "-" ++ padded 2 (dt_month dt) ++ bs "-" ++ padded 2 (dt_day dt) ++ bs "T" ++
        padded 2 (dt_hour dt) ++ bs ":" ++ padded 2 (dt_minute dt) ++ bs ":" ++ padded 2 (dt_second dt) ++ bs "." ++
        padded 6 (dt_microsecond dt))
  | VGeography g => JString g
  | VList items => JArray (value_to_json <$> items)
  | VMap data => JObject (map_fold (fun k v l => (k, value_to_json v) :: l) [] data)
  | VVertex _ _ | VEdge _ _ _ _ _ _ | VPath _ => JString (value_to_string v)
  | VEmpty => JNull
  | VTime t => JString (time_to_string t)
  | VSet _ => JString (value_to_string v)
  | VDataSet _ _ => JString (value_to_string v)
  | VDuration d => JString d
  end.

Definition props_to_json (props : gmap bytes Value) : JsonValue :=
  JObject (map_fold (fun k v l => (k, value_to_json v) :: l) [] props).

Definition vertex_to_json (v : VertexData) : JsonValue :=
  JObject [(bs "vid", JInt (vid v));
           (bs "tags", JArray ((fun tag => JObject [(bs "name", JString (tag_name tag));
                                                     (bs "props", props_to_json (tag_properties tag))]) <$> tags v))].
Definition edge_to_json (e : EdgeData) : JsonValue :=
  JObject [(bs "src", JInt (src_vid e)); (bs "dst", JInt (dst_vid e)); (bs "edge_type", JString (edge_type e));
           (bs "ranking", JInt (ranking e)); (bs "props", props_to_json (edge_properties e))].

(** *** Migration of JSON records ([migration.rs]) *)

Definition needs_migration (data : bytes) : bool := negb (is_proto_format data).

Definition migrate_vertex (data : bytes) : Result CodecError bytes :=
  if is_proto_format data then Ok data else
  match decode_vertex data with Ok v => encode_vertex v | Err e => Err e end.
Definition migrate_edge (data : bytes) : Result CodecError bytes :=
  if is_proto_format data then Ok data else
  match decode_edge data with Ok e => encode_edge e | Err e => Err e end.

(** Sizes before and after, and the bytes saved. *)
Definition savings (data : bytes) (migrated : Result CodecError bytes) : Result CodecError (Z * Z * Z) :=
  let n := Z.of_nat (length data) in
  if is_proto_format data then Ok (n, n, 0) else
  match migrated with
  | Ok d => Ok (n, Z.of_nat (length d), n - Z.of_nat (length d))
  | Err e => Err e
  end.
Definition estimate_vertex_savings (data : bytes) := savings data (migrate_vertex data).
Definition estimate_edge_savings (data : bytes) := savings data (migrate_edge data).

(** The tool's own readers of the JSON format. *)
Definition tool_parse (json_bytes : bytes) : Result CodecError JsonValue :=
  match json_from_slice json_bytes with
  | Ok j => Ok j
  | Err e => Err (IncorrectValue (bs "JSON parse failed: " ++ error_text e))
  end.

Definition json_to_vertex (json_bytes : bytes) : Result CodecError VertexData :=
  match tool_parse json_bytes with
  | Err e => Err e
  | Ok json =>
      Ok (mkVertex (json_i64 (json_get (bs "vid") json))
            match json_get (bs "tags") json ≫= json_as_array with
            | Some arr => filter_map json_tag arr
            | None => []
            end)
  end.

(** The type may be a number. *)
Definition json_to_edge (json_bytes : bytes) : Result CodecError EdgeData :=
  match tool_parse json_bytes with
  | Err e => Err e
  | Ok json =>
      let field := json_get_or (bs "edge_type") (bs "type") json in
      let edge_type :=
        default [] (field ≫= fun v =>
          match json_as_str v with
          | Some s => Some s
          | None => (fun _ => []) <$> json_as_i64 v
          end) in
      let edge_type :=
        if bool_decide (edge_type = []) then default [] (dec <$> (field ≫= json_as_i64)) else edge_type in
      Ok (mkEdge (json_i64 (json_get (bs "src") json)) (json_i64 (json_get (bs "dst") json)) edge_type
            (json_i64 (json_get_or (bs "ranking") (bs "rank") json))
            (json_props (json_get_or (bs "props") (bs "properties") json)))
  end.
End codec.
