(* ===== verification/VertexCodecFacts.v ===== *)
(** * Records are read back as written *)

From Stdlib Require Import ZArith Lia Strings.Byte Strings.String.
From stdpp Require Import base tactics list gmap fin_maps countable.
From S2P Require Import Prelude Codecs Text Value Exec VertexCodec.

(** ** Induction over values *)

Fixpoint value_size (v : Value) : nat :=
  match v with
  | VList l => S (foldr (fun v n => value_size v + n)%nat O l)
  | VMap m => S (map_fold (fun _ v n => value_size v + n)%nat O m)
  | _ => 1%nat
  end.

Lemma value_nested_ind (P : Value -> Prop) :
  (forall v, match v with VList _ | VMap _ => False | _ => True end -> P v) ->
  (forall l, Forall P l -> P (VList l)) -> (forall m, map_Forall (fun _ => P) m -> P (VMap m)) ->
  forall v, P v.
Proof.
  intros Hleaf Hlist Hmap v. remember (value_size v) as n eqn:Hn. revert v Hn.
  induction (lt_wf n) as [n _ IH]. intros v ->. destruct v as [| | | | | | | | | | | |l|m| | | |]; try by apply Hleaf.
  - apply Hlist. simpl in IH. induction l as [|v l IHl]; constructor.
    + eapply IH; [|done]. simpl. lia.
    + apply IHl. intros n' Hlt. apply IH. simpl. lia.
  - apply Hmap. simpl in IH. revert m IH.
    apply (map_fold_weak_ind (fun r m => (forall n', (n' < S r)%nat -> forall v, n' = value_size v -> P v) ->
      map_Forall (fun _ => P) m)).
    + intros _. apply map_Forall_empty.
    + intros k v m r Hk IHm IHv. apply map_Forall_insert; [done|]. split; [eapply IHv; [|done]; lia|].
      apply IHm. intros n' Hlt. apply IHv. lia.
Qed.

(** A conjunction over the entries of a map. *)
Lemma map_fold_conj (P : Value -> Prop) (m : gmap bytes Value) :
  map_fold (fun _ v acc => P v /\ acc) True m <-> map_Forall (fun _ => P) m.
Proof.
  apply (map_fold_weak_ind (fun r m => r <-> map_Forall (fun _ => P) m)).
  - split; [intros _; apply map_Forall_empty|done].
  - intros k v m' r Hk ->. by rewrite map_Forall_insert.
Qed.

(** ** What becomes of a value in a record *)

Definition u16_ok (z : Z) : Prop := 0 <= z < 65536.
Definition u8_ok (z : Z) : Prop := 0 <= z < 256.

Definition date_ok (d : Date) : Prop := u16_ok (d_year d) /\ u8_ok (d_month d) /\ u8_ok (d_day d).
Definition datetime_ok (d : DateTime) : Prop :=
  u16_ok (dt_year d) /\ u8_ok (dt_month d) /\ u8_ok (dt_day d) /\ u8_ok (dt_hour d) /\ u8_ok (dt_minute d) /\
  u8_ok (dt_second d).

(** The kinds of value a record keeps as they are. *)
Fixpoint plain (v : Value) : Prop :=
  match v with
  | VNull n => n = NullNull
  | VBool _ | VInt _ | VFloat _ | VString _ | VGeography _ => True
  | VDate d => date_ok d
  | VDateTime d => datetime_ok d
  | VList l => foldr (fun v acc => plain v /\ acc) True l
  | VMap m => map_fold (fun _ v acc => plain v /\ acc) True m
  | _ => False
  end.

(** The fields of dates are of their types. *)
Fixpoint value_typed (v : Value) : Prop :=
  match v with
  | VDate d => date_ok d
  | VDateTime d => datetime_ok d
  | VList l => foldr (fun v acc => value_typed v /\ acc) True l
  | VMap m => map_fold (fun _ v acc => value_typed v /\ acc) True m
  | _ => True
  end.

Section facts.
Context `{DebugText} `{ProstMessage PbVertex, !ProstLaws PbVertex} `{ProstMessage PbEdge, !ProstLaws PbEdge}
  `{SerdeJson JsonValue}.

(** A value as it is read back: there is one null; times, durations, vertices, edges,
    paths, sets and tables become text; an empty value becomes null; the fields of a
    date are cut to their widths, which changes none that is in range. *)
Fixpoint stored (v : Value) : Value :=
  match v with
  | VNull _ | VEmpty => VNull NullNull
  | VDate d => VDate (mkDate (as_u16 (d_year d)) (as_u8 (d_month d)) (as_u8 (d_day d)))
  | VDateTime d => VDateTime (mkDateTime (as_u16 (dt_year d)) (as_u8 (dt_month d)) (as_u8 (dt_day d)) (as_u8 (dt_hour d))
      (as_u8 (dt_minute d)) (as_u8 (dt_second d)) (dt_microsecond d))
  | VTime t => VString (time_to_string t)
  | VDuration d => VString d
  | VVertex _ _ | VEdge _ _ _ _ _ _ | VPath _ | VSet _ | VDataSet _ _ => VString (value_to_string v)
  | VList l => VList (stored <$> l)
  | VMap m => VMap (stored <$> m)
  | VBool _ | VInt _ | VFloat _ | VString _ | VGeography _ => v
  end.

Lemma codec_stored v : proto_to_value (value_to_proto v) = stored v.
Proof.
  induction v as [v Hv|l IH|m IH] using value_nested_ind.
  - by destruct v.
  - simpl. f_equal. rewrite <- list_fmap_compose. apply list_fmap_ext. intros i v Hi.
    by apply (Forall_lookup_1 _ _ _ _ IH Hi).
  - simpl. f_equal. rewrite <- map_fmap_compose. apply map_fmap_ext. intros k v Hk. by apply (IH k).
Qed.

Lemma as_u16_id z : u16_ok z -> as_u16 z = z.
Proof. apply Z.mod_small. Qed.
Lemma as_u8_id z : u8_ok z -> as_u8 z = z.
Proof. apply Z.mod_small. Qed.

Lemma plain_stored v : plain v -> stored v = v.
Proof.
  induction v as [v Hv|l IH|m IH] using value_nested_ind.
  - destruct v as [|n| | | | |[y m d]| |[y m d hh mm ss us]| | | | | | | | |]; simpl; try done.
    + by intros ->.
    + intros (? & ? & ?). simpl in *. by rewrite as_u16_id, !as_u8_id.
    + intros (? & ? & ? & ? & ? & ?). simpl in *. by rewrite as_u16_id, !as_u8_id.
  - simpl. intros Hl. f_equal. induction IH as [|v l Hv IH IHl]; simpl in *; [done|].
    destruct Hl. f_equal; auto.
  - simpl. rewrite map_fold_conj. intros Hm. f_equal.
    rewrite <- (map_fmap_id m) at 2. apply map_fmap_ext. intros k v Hk. by apply (IH k), (Hm k).
Qed.

Lemma stored_is_plain v : value_typed v -> plain (stored v).
Proof.
  induction v as [v Hv|l IH|m IH] using value_nested_ind.
  - destruct v as [|n| | | | |[y m d]| |[y m d hh mm ss us]| | | | | | | | |]; simpl; try done;
      intros Ht; repeat split; simpl; apply Z.mod_pos_bound; lia.
  - simpl. induction IH as [|v l Hv IH IHl]; simpl in *; [done|]. intros [? ?]. auto.
  - simpl. rewrite !map_fold_conj. intros Hm k v. rewrite !lookup_fmap.
    destruct (m !! k) as [v'|] eqn:E; simpl; [|done]. intros [= <-]. by apply (IH k), (Hm k).
Qed.

Definition stored_props (m : gmap bytes Value) : gmap bytes Value := stored <$> m.
Definition stored_vertex (v : VertexData) : VertexData :=
  mkVertex (vid v) ((fun t => mkTag (tag_name t) (stored_props (tag_properties t))) <$> tags v).
Definition stored_edge (e : EdgeData) : EdgeData :=
  mkEdge (src_vid e) (dst_vid e) (edge_type e) (ranking e) (stored_props (edge_properties e)).

Lemma stored_props_plain m : map_Forall (fun _ => plain) m -> stored_props m = m.
Proof.
  intros Hm. unfold stored_props. rewrite <- (map_fmap_id m) at 2. apply map_fmap_ext.
  intros k v Hk. by apply plain_stored, (Hm k).
Qed.

Lemma props_roundtrip m : proto_to_value <$> (value_to_proto <$> m) = stored_props m.
Proof. unfold stored_props. rewrite <- map_fmap_compose. apply map_fmap_ext. intros k v _. apply codec_stored. Qed.

(** ** Nesting *)

(** The messages nested below the one of a value: a list and an element of it count
    one each, a map, an entry and its value too. *)
Fixpoint value_depth (v : Value) : nat :=
  match v with
  | VDate _ | VDateTime _ | VGeography _ => 1
  | VList l => S (foldr (fun v n => Nat.max (S (value_depth v)) n) O l)
  | VMap m => S (map_fold (fun _ v n => Nat.max (S (S (value_depth v))) n) O m)
  | _ => 0
  end.

Lemma depth_map_le (f : Value -> nat) (c n : nat) (m : gmap bytes Value) :
  (map_fold (fun _ v n => Nat.max (S (S (f v))) n) c m <= n)%nat <-> (c <= n)%nat /\ map_Forall (fun _ v => (S (S (f v)) <= n)%nat) m.
Proof.
  apply (map_fold_weak_ind (fun r m => (r <= n)%nat <-> (c <= n)%nat /\ map_Forall (fun _ v => (S (S (f v)) <= n)%nat) m)).
  - split; [intros ?; split; [done|apply map_Forall_empty]|by intros []].
  - intros k v m' r Hk IH. rewrite map_Forall_insert, Nat.max_lub_iff, IH by done. tauto.
Qed.

Lemma depth_map_fmap (m : gmap bytes Value) :
  map_Forall (fun _ v => pb_depth (value_to_proto v) = value_depth v) m ->
  map_fold (fun _ v n => Nat.max (S (S (pb_depth v))) n) O (value_to_proto <$> m) =
  map_fold (fun _ v n => Nat.max (S (S (value_depth v))) n) O m.
Proof.
  intros Hm. rewrite map_fold_fmap. revert Hm.
  apply (map_first_key_ind (fun m => map_Forall (fun _ v => pb_depth (value_to_proto v) = value_depth v) m ->
    map_fold (fun _ v n => Nat.max (S (S (pb_depth (value_to_proto v)))) n) O m =
    map_fold (fun _ v n => Nat.max (S (S (value_depth v))) n) O m)); [done|].
  intros k v m' Hk Hf IH Hm. apply map_Forall_insert in Hm as [Hv Hm]; [|done].
  rewrite !map_fold_insert_first_key by done. by rewrite Hv, IH.
Qed.

Lemma proto_depth v : pb_depth (value_to_proto v) = value_depth v.
Proof.
  induction v as [v Hv|l IH|m IH] using value_nested_ind.
  - by destruct v.
  - cbn [value_to_proto pb_depth value_depth]. f_equal.
    induction IH as [|v l Hv _ IHl]; [done|]. cbn [fmap list_fmap foldr]. rewrite Hv. f_equal. exact IHl.
  - simpl. f_equal. by apply depth_map_fmap.
Qed.

Definition props_depth (m : gmap bytes Value) : nat := map_fold (fun _ v n => Nat.max (S (S (value_depth v))) n) O m.
Definition edge_depth (e : EdgeData) : nat := props_depth (edge_properties e).
Definition vertex_depth (v : VertexData) : nat :=
  foldr (fun t n => Nat.max (S (props_depth (tag_properties t))) n) O (tags v).

Lemma props_depth_le m n :
  (props_depth m <= n)%nat <-> map_Forall (fun _ v => (S (S (value_depth v)) <= n)%nat) m.
Proof. unfold props_depth. rewrite depth_map_le. split; [by intros []|]. intros Hm. split; [lia|done]. Qed.

Lemma proto_props_depth m : pb_props_depth (value_to_proto <$> m) = props_depth m.
Proof. apply depth_map_fmap. intros k v _. apply proto_depth. Qed.

Lemma proto_edge_depth e : msg_depth (edge_to_proto e) = edge_depth e.
Proof. apply proto_props_depth. Qed.
Lemma proto_vertex_depth v : msg_depth (vertex_to_proto v) = vertex_depth v.
Proof.
  unfold msg_depth, pb_vertex_depth, vertex_depth, vertex_to_proto. cbn [pb_tags].
  induction (tags v) as [|t l IH]; [done|]. cbn [fmap list_fmap foldr tag_to_proto pb_tag_properties].
  rewrite proto_props_depth. f_equal. exact IH.
Qed.

Lemma vertex_roundtrip v :
  (vertex_depth v <= RECURSION_LIMIT)%nat -> decode_vertex (PROTO_MAGIC :: prost_encode (vertex_to_proto v)) = Ok (stored_vertex v).
Proof.
  intros Hd. unfold decode_vertex, decode_vertex_proto.
  rewrite bool_decide_eq_true_2, prost_roundtrip by (done || by rewrite proto_vertex_depth).
  unfold stored_vertex. do 2 f_equal. simpl. rewrite <- list_fmap_compose. apply list_fmap_ext. intros i t _.
  unfold compose, proto_to_tag. simpl. by rewrite props_roundtrip.
Qed.

Lemma edge_roundtrip e :
  (edge_depth e <= RECURSION_LIMIT)%nat -> decode_edge (PROTO_MAGIC :: prost_encode (edge_to_proto e)) = Ok (stored_edge e).
Proof.
  intros Hd. unfold decode_edge, decode_edge_proto.
  rewrite bool_decide_eq_true_2, prost_roundtrip by (done || by rewrite proto_edge_depth).
  unfold stored_edge. simpl. by rewrite props_roundtrip.
Qed.

(** An edge that records keep as it is. *)
Definition kept_edge (e : EdgeData) : Prop := stored_edge e = e /\ (edge_depth e <= RECURSION_LIMIT)%nat.
(** A property value that edge records keep: of a kind they can hold, and not nested
    too deep, which leaves 49 lists or 32 maps within each other. *)
Definition edge_value (v : Value) : Prop := plain v /\ (S (S (value_depth v)) <= RECURSION_LIMIT)%nat.

Lemma text_edge_value b : edge_value (VString b).
Proof. split; [done|]. cbn [value_depth]. unfold RECURSION_LIMIT. lia. Qed.

Lemma edge_values_plain (m : gmap bytes Value) : map_Forall (fun _ => edge_value) m -> map_Forall (fun _ => plain) m.
Proof. intros Hm k v Hk. by apply (Hm k). Qed.
Lemma edge_values_depth (m : gmap bytes Value) : map_Forall (fun _ => edge_value) m -> (props_depth m <= RECURSION_LIMIT)%nat.
Proof. intros Hm. apply props_depth_le. intros k v Hk. by apply (Hm k). Qed.

Lemma kept_edge_values (src dst : Z) (t : bytes) (r : Z) (m : gmap bytes Value) : map_Forall (fun _ => edge_value) m -> kept_edge (mkEdge src dst t r m).
Proof.
  intros Hm. split; [|by apply edge_values_depth]. unfold stored_edge. cbn [src_vid dst_vid edge_type ranking edge_properties].
  by rewrite stored_props_plain by by apply edge_values_plain.
Qed.

(** A tag that records keep as it is. *)
Definition kept_tag (t : TagData) : Prop :=
  stored_props (tag_properties t) = tag_properties t /\ (S (props_depth (tag_properties t)) <= RECURSION_LIMIT)%nat.
(** A property value that vertex records keep. *)
Definition vertex_value (v : Value) : Prop := plain v /\ (S (S (S (value_depth v))) <= RECURSION_LIMIT)%nat.

Lemma text_vertex_value b : vertex_value (VString b).
Proof. split; [done|]. cbn [value_depth]. unfold RECURSION_LIMIT. lia. Qed.

Lemma empty_kept_tag (name : bytes) : kept_tag (mkTag name ∅).
Proof.
  split; [unfold stored_props; cbn [tag_properties]; by rewrite fmap_empty|]. apply le_n_S. cbn [tag_properties].
  apply (props_depth_le ∅ 99), map_Forall_empty.
Qed.

(** Replacing properties of a kept tag by values that records keep. *)
Lemma union_kept_tag (name : bytes) (new old : gmap bytes Value) :
  map_Forall (fun _ => vertex_value) new -> kept_tag (mkTag name old) -> kept_tag (mkTag name (new ∪ old)).
Proof.
  unfold kept_tag. cbn [tag_properties]. intros Hn [Hs Hd]. split.
  - unfold stored_props in *. rewrite map_fmap_union, Hs. f_equal. apply stored_props_plain. intros k v Hk. by apply (Hn k).
  - apply le_n_S, props_depth_le. apply le_S_n in Hd. rewrite props_depth_le in Hd.
    intros k v [Hk|[_ Hk]]%lookup_union_Some_raw; [apply le_S_n, (Hn k v Hk)|exact (Hd k v Hk)].
Qed.

Lemma values_kept_tag t : map_Forall (fun _ => vertex_value) (tag_properties t) -> kept_tag t.
Proof.
  destruct t as [name m]. cbn [tag_properties]. intros Hm. rewrite <- (map_union_empty m).
  apply union_kept_tag; [done|apply empty_kept_tag].
Qed.

Lemma kept_tags_vertex v l :
  Forall kept_tag l -> stored_vertex (mkVertex v l) = mkVertex v l /\ (vertex_depth (mkVertex v l) <= RECURSION_LIMIT)%nat.
Proof.
  unfold stored_vertex, vertex_depth. cbn [vid tags]. induction 1 as [|t l [Hs Hd] _ [IHs IHd]]; [split; [done|apply Nat.le_0_l]|].
  injection IHs as IHs. cbn [fmap list_fmap foldr]. split; [|by apply Nat.max_lub]. do 2 f_equal; [rewrite Hs; by destruct t|exact IHs].
Qed.

(** C23: writing a vertex or edge record never fails and its format is recognised.
    A record whose properties nest at most as deep as prost's recursion limit allows
    is read back with its id, type and rank unchanged and each property value as
    [stored] says: a value of a kind that records can hold as it is, any other as its
    text or as null. A record that nests deeper cannot be read back. What was read
    back once stays the same from then on. *)
Theorem record_roundtrip :
  (forall v, exists b, encode_vertex v = Ok b /\ is_proto_format b = true /\
     if (vertex_depth v <=? RECURSION_LIMIT)%nat then decode_vertex b = Ok (stored_vertex v)
     else exists e, decode_vertex b = Err e) /\
  (forall e, exists b, encode_edge e = Ok b /\ is_proto_format b = true /\
     if (edge_depth e <=? RECURSION_LIMIT)%nat then decode_edge b = Ok (stored_edge e)
     else exists err, decode_edge b = Err err) /\
  (forall v, plain v -> stored v = v) /\ (forall v, value_typed v -> stored (stored v) = stored v).
Proof.
  split_and!.
  - intros v. eexists. split; [done|]. split; [done|]. destruct (Nat.leb_spec (vertex_depth v) RECURSION_LIMIT) as [Hd|Hd].
    + by apply vertex_roundtrip.
    + rewrite <- proto_vertex_depth in Hd. apply prost_too_deep in Hd as [e He]. unfold decode_vertex, decode_vertex_proto.
      rewrite bool_decide_eq_true_2, He by done. by eexists.
  - intros e. eexists. split; [done|]. split; [done|]. destruct (Nat.leb_spec (edge_depth e) RECURSION_LIMIT) as [Hd|Hd].
    + by apply edge_roundtrip.
    + rewrite <- proto_edge_depth in Hd. apply prost_too_deep in Hd as [err He]. unfold decode_edge, decode_edge_proto.
      rewrite bool_decide_eq_true_2, He by done. by eexists.
  - apply plain_stored.
  - intros v Hv. by apply plain_stored, stored_is_plain.
Qed.

(** ** Migration *)

Lemma collect_map_forall (P : Value -> Prop) (l : list (bytes * Value)) :
  Forall (fun kv => P kv.2) l -> map_Forall (fun _ => P) (collect_map l).
Proof.
  intros Hl. unfold collect_map. assert (He : map_Forall (fun _ => P) (∅ : gmap bytes Value)) by apply map_Forall_empty.
  revert He. generalize (∅ : gmap bytes Value). induction Hl as [|[k v] l Hv _ IH]; intros m Hm; simpl; [done|].
  apply IH. by apply map_Forall_insert_2.
Qed.

(** What is read from JSON is of the kinds a record can hold. *)
Fixpoint json_plain (j : JsonValue) : plain (json_to_value j).
Proof.
  destruct j as [| |z| | |l|l]; simpl; try done.
  - by case_bool_decide.
  - induction l as [|j l IH]; simpl; [done|]. split; [apply json_plain|apply IH].
  - rewrite map_fold_conj. apply collect_map_forall.
    induction l as [|[k j] l IH]; simpl; constructor; [apply json_plain|apply IH].
Qed.

Lemma json_props_plain j : map_Forall (fun _ => plain) (json_props j).
Proof.
  unfold json_props. destruct (j ≫= json_as_object) as [o|]; [|apply map_Forall_empty].
  apply collect_map_forall. induction o as [|[k v] o IH]; simpl; constructor; [apply json_plain|done].
Qed.

Lemma stored_edge_json data e : decode_edge_json data = Ok e -> stored_edge e = e.
Proof.
  unfold decode_edge_json. destruct (json_parse data) as [j|]; [|done]. intros [= <-]. unfold stored_edge. simpl.
  by rewrite stored_props_plain by apply json_props_plain.
Qed.

Lemma stored_vertex_json data v : decode_vertex_json data = Ok v -> stored_vertex v = v.
Proof.
  unfold decode_vertex_json. destruct (json_parse data) as [j|]; [|done]. intros [= <-]. unfold stored_vertex. simpl.
  f_equal. destruct (json_get (bs "tags") j ≫= json_as_array) as [arr|]; [|done].
  induction arr as [|a arr IH]; simpl; [done|]. destruct (json_tag a) as [t|] eqn:E; [|done]. simpl. f_equal; [|done].
  unfold json_tag in E. apply bind_Some in E as (x' & _ & E). apply bind_Some in E as (n & _ & [= <-]).
  simpl. by rewrite stored_props_plain by apply json_props_plain.
Qed.

(** Migrating a record to the new format does not change what it says: if it can be
    read and nests no deeper than prost's recursion limit, the migrated record is in the
    new format and reads the same; if it cannot be read, migration fails with the same
    error. Migrating twice changes nothing. *)
Theorem migration_preserves data :
  match decode_edge data with
  | Ok e => (edge_depth e <= RECURSION_LIMIT)%nat -> exists data', migrate_edge data = Ok data' /\
      needs_migration data' = false /\ decode_edge data' = Ok e /\ migrate_edge data' = Ok data'
  | Err e => needs_migration data = true -> migrate_edge data = Err e
  end /\
  match decode_vertex data with
  | Ok v => (vertex_depth v <= RECURSION_LIMIT)%nat -> exists data', migrate_vertex data = Ok data' /\
      needs_migration data' = false /\ decode_vertex data' = Ok v /\ migrate_vertex data' = Ok data'
  | Err e => needs_migration data = true -> migrate_vertex data = Err e
  end.
Proof.
  unfold migrate_edge, migrate_vertex, needs_migration.
  destruct (is_proto_format data) eqn:Hp.
  - split.
    + destruct (decode_edge data) eqn:E; [|done]. intros _. exists data. rewrite Hp. done.
    + destruct (decode_vertex data) eqn:E; [|done]. intros _. exists data. rewrite Hp. done.
  - assert (Hj : data = [] \/ (decode_edge data = decode_edge_json data /\ decode_vertex data = decode_vertex_json data)).
    { destruct data as [|b data]; [by left|right]. simpl in Hp. unfold decode_edge, decode_vertex. by rewrite Hp. }
    split.
    + destruct (decode_edge data) as [e|] eqn:E; [|done]. destruct Hj as [->|[He _]]; [done|]. intros Hd.
      symmetry in He. apply stored_edge_json in He as E'. eexists. split; [done|]. split; [done|].
      split; [by rewrite edge_roundtrip, E'|done].
    + destruct (decode_vertex data) as [v|] eqn:E; [|done]. destruct Hj as [->|[_ Hv]]; [done|]. intros Hd.
      symmetry in Hv. apply stored_vertex_json in Hv as E'. eexists. split; [done|]. split; [done|].
      split; [by rewrite vertex_roundtrip, E'|done].
Qed.

(** The migration tool's own reader of JSON edges agrees with the decoder that
    [migrate_edge] uses, except on a numeric edge type. There the tool reads the
    number and the migrated record has the empty type. *)
Theorem tool_edge_reader data json :
  json_from_slice data = Ok json -> is_proto_format data = false -> data <> [] ->
  exists e e', decode_edge data = Ok e /\ json_to_edge data = Ok e' /\
    e' = mkEdge (src_vid e) (dst_vid e) (edge_type e') (ranking e) (edge_properties e) /\
    match json_get_or (bs "edge_type") (bs "type") json ≫= json_as_i64 with
    | Some n => edge_type e = [] /\ edge_type e' = dec n
    | None => edge_type e' = edge_type e
    end.
Proof.
  intros Hj Hp Hne. assert (decode_edge data = decode_edge_json data) as ->.
  { unfold decode_edge. destruct data as [|b data]; [done|]. cbn [is_proto_format] in Hp. by rewrite Hp. }
  unfold json_to_edge, decode_edge_json, tool_parse, json_parse. rewrite Hj.
  do 2 eexists. split_and!; [done|done|done|]. cbn [edge_type].
  destruct (json_get_or _ _ json) as [[| |z| |s| |]|]; cbn [mbind option_bind json_as_i64 json_as_str]; try done.
  - case_bool_decide; done.
  - simpl. by case_bool_decide.
Qed.
End facts.

(** ** A reference message format *)

Module RefProst.
Abbreviation tree := (gen_tree (Z + bytes)).
Abbreviation num z := (GenLeaf (inl z) : tree).
Abbreviation txt b := (GenLeaf (inr b) : tree).

Fixpoint to_tree (v : PbValue) : tree :=
  match v with
  | PbUnset => GenNode 0 []
  | PbBool b => GenNode 1 [num (if b then 1 else 0)]
  | PbInt i => GenNode 2 [num i]
  | PbFloat f => GenNode 3 [num f]
  | PbString s => GenNode 4 [txt s]
  | PbBytes b => GenNode 5 [txt b]
  | PbDate y m d => GenNode 6 [num y; num m; num d]
  | PbDateTime y m d hh mm ss us => GenNode 7 [num y; num m; num d; num hh; num mm; num ss; num us]
  | PbGeography w => GenNode 8 [txt w]
  | PbNull n => GenNode 9 [num n]
  | PbList l => GenNode 10 (to_tree <$> l)
  | PbMap m => GenNode 11 (map_fold (fun k v acc => GenNode 0 [txt k; to_tree v] :: acc) [] m)
  end.

Fixpoint of_tree (t : tree) : PbValue :=
  match t with
  | GenNode 1 [GenLeaf (inl b)] => PbBool (b =? 1)
  | GenNode 2 [GenLeaf (inl i)] => PbInt i
  | GenNode 3 [GenLeaf (inl f)] => PbFloat f
  | GenNode 4 [GenLeaf (inr s)] => PbString s
  | GenNode 5 [GenLeaf (inr b)] => PbBytes b
  | GenNode 6 [GenLeaf (inl y); GenLeaf (inl m); GenLeaf (inl d)] => PbDate y m d
  | GenNode 7 [GenLeaf (inl y); GenLeaf (inl m); GenLeaf (inl d); GenLeaf (inl hh); GenLeaf (inl mm);
               GenLeaf (inl ss); GenLeaf (inl us)] => PbDateTime y m d hh mm ss us
  | GenNode 8 [GenLeaf (inr w)] => PbGeography w
  | GenNode 9 [GenLeaf (inl n)] => PbNull n
  | GenNode 10 l => PbList (of_tree <$> l)
  | GenNode 11 l => PbMap (foldr (fun t m => match t with
                                            | GenNode _ [GenLeaf (inr k); t] => <[k := of_tree t]> m
                                            | _ => m
                                            end) ∅ l)
  | _ => PbUnset
  end.

Fixpoint pb_size (v : PbValue) : nat :=
  match v with
  | PbList l => S (foldr (fun v n => pb_size v + n)%nat O l)
  | PbMap m => S (map_fold (fun _ v n => pb_size v + n)%nat O m)
  | _ => 1%nat
  end.

Lemma pb_size_lookup (m : gmap bytes PbValue) k v :
  m !! k = Some v -> (pb_size v <= map_fold (fun _ v n => pb_size v + n)%nat O m)%nat.
Proof.
  revert k v. apply (map_fold_weak_ind (fun r m => forall k v, m !! k = Some v -> (pb_size v <= r)%nat)).
  - intros k v. by rewrite lookup_empty.
  - intros k v m' r Hk IH k' v'. rewrite lookup_insert. case_decide; [intros [= ->]; lia|].
    intros Hv. apply IH in Hv. lia.
Qed.

Lemma of_to_tree_map (m : gmap bytes PbValue) :
  foldr (fun t m => match t with
                    | GenNode _ [GenLeaf (inr k); t] => <[k := of_tree t]> m
                    | _ => m
                    end) ∅ (map_fold (fun k v acc => GenNode 0 [txt k; to_tree v] :: acc) [] m) =
  (fun v => of_tree (to_tree v)) <$> m.
Proof.
  apply (map_fold_weak_ind (fun r m => foldr (fun t m => match t with
                    | GenNode _ [GenLeaf (inr k); t] => <[k := of_tree t]> m
                    | _ => m
                    end) ∅ r = (fun v => of_tree (to_tree v)) <$> m)); [done|].
  intros k v m' r Hk IH. simpl. by rewrite IH, fmap_insert.
Qed.

Lemma of_to_tree v : of_tree (to_tree v) = v.
Proof.
  remember (pb_size v) as n eqn:Hn. revert v Hn.
  induction (lt_wf n) as [n _ IH]. intros v ->.
  destruct v as [|[]| | | | | | | | |l|m]; try done; simpl in *; f_equal.
  - induction l as [|v l IHl]; simpl; [done|]. f_equal; [eapply IH; [|done]; simpl; lia|].
    apply IHl. intros n' Hlt. apply IH. simpl. lia.
  - rewrite of_to_tree_map. rewrite <- (map_fmap_id m) at 2. apply map_fmap_ext. intros k v Hk.
    eapply IH; [|done]. apply Nat.lt_succ_r. exact (pb_size_lookup m k v Hk).
Qed.

Definition props_tree (m : gmap bytes PbValue) : tree := to_tree (PbMap m).
Definition tree_props (t : tree) : gmap bytes PbValue := match of_tree t with PbMap m => m | _ => ∅ end.

Definition vertex_tree (v : PbVertex) : tree :=
  GenNode 0 (num (pb_vid v) :: ((fun t => GenNode 1 [txt (pb_name t); props_tree (pb_tag_properties t)]) <$> pb_tags v)).
Definition tree_vertex (t : tree) : option PbVertex :=
  match t with
  | GenNode _ (GenLeaf (inl i) :: l) =>
      Some (mkPbVertex i (filter_map (fun t => match t with
                                             | GenNode _ [GenLeaf (inr n); p] => Some (mkPbTag n (tree_props p))
                                             | _ => None
                                             end) l))
  | _ => None
  end.
Definition edge_tree (e : PbEdge) : tree :=
  GenNode 0 [num (pb_src_vid e); num (pb_dst_vid e); txt (pb_edge_type e); num (pb_ranking e); props_tree (pb_properties e)].
Definition tree_edge (t : tree) : option PbEdge :=
  match t with
  | GenNode _ [GenLeaf (inl s); GenLeaf (inl d); GenLeaf (inr n); GenLeaf (inl r); p] =>
      Some (mkPbEdge s d n r (tree_props p))
  | _ => None
  end.

Lemma tree_props_tree m : tree_props (props_tree m) = m.
Proof. unfold tree_props, props_tree. by rewrite of_to_tree. Qed.

(** The reader refuses messages beyond the recursion limit. *)
Definition via {M} `{PbDepth M} (write : M -> tree) (read : tree -> option M) : ProstMessage M := {|
  prost_encode m := ref_write tree (write m);
  prost_decode b := match ref_read tree b with
                    | Ok t => match read t with
                              | Some m => if (msg_depth m <=? RECURSION_LIMIT)%nat then Ok m else Err "recursion limit reached"%string
                              | None => Err "message"%string
                              end
                    | Err e => Err e
                    end
|}.

#[global] Instance ref_vertex : ProstMessage PbVertex := via vertex_tree tree_vertex.
#[global] Instance ref_edge : ProstMessage PbEdge := via edge_tree tree_edge.

Lemma via_laws {M} `{PbDepth M} (write : M -> tree) (read : tree -> option M) :
  (forall m, read (write m) = Some m) -> @ProstLaws M (via write read) _.
Proof.
  intros Hr. split; intros m Hd; unfold prost_decode, prost_encode; cbn [via]; rewrite ref_read_write, Hr.
  - by rewrite (proj2 (Nat.leb_le _ _)).
  - rewrite (proj2 (Nat.leb_gt _ _)) by done. by eexists.
Qed.

Lemma tree_vertex_tree v : tree_vertex (vertex_tree v) = Some v.
Proof.
  destruct v as [i l]. cbn [vertex_tree tree_vertex pb_vid pb_tags]. do 2 f_equal.
  induction l as [|[n p] l IH]; [done|]. cbn -[tree_props props_tree]. rewrite tree_props_tree. f_equal. exact IH.
Qed.
Lemma tree_edge_tree e : tree_edge (edge_tree e) = Some e.
Proof. destruct e. cbn -[tree_props props_tree]. by rewrite tree_props_tree. Qed.

#[global] Instance ref_vertex_laws : ProstLaws PbVertex := via_laws _ _ tree_vertex_tree.
#[global] Instance ref_edge_laws : ProstLaws PbEdge := via_laws _ _ tree_edge_tree.
End RefProst.

#[local] Instance no_text : DebugText := {|
  float_display _ := []; debug_props _ := []; debug_vertices _ := []; debug_strings _ := []; debug_set _ := []
|}.

(** A reader of one JSON text. *)
#[local] Instance one_json : SerdeJson JsonValue := {|
  json_to_vec _ := Err "unsupported"%string;
  json_from_slice b :=
    if bool_decide (b = bs "{edge}") then
      Ok (JObject [(bs "src", JInt 1); (bs "dst", JInt 2); (bs "type", JString (bs "knows"));
                   (bs "props", JObject [(bs "since", JInt 1999)])])
    else Err "syntax"%string
|}.

Definition known_edge : EdgeData := mkEdge 1 2 (bs "knows") 0 {[bs "since" := VInt 1999]}.

(** A list nested [n] times. *)
Fixpoint nested (n : nat) : Value := match n with O => VInt 7 | S n => VList [nested n] end.

(** An edge with an integer and a duration is read back, the duration as its text; an
    edge whose property nests 50 lists is not. *)
Definition lasting_edge : EdgeData :=
  mkEdge 1 2 (bs "knows") 0 {[bs "since" := VInt 1999; bs "for" := VDuration (bs "P2Y")]}.
Definition deep_edge : EdgeData := mkEdge 1 2 (bs "knows") 0 {[bs "n" := nested 50]}.

Lemma record_roundtrip_witness :
  (exists b, encode_edge lasting_edge = Ok b /\
     decode_edge b = Ok (mkEdge 1 2 (bs "knows") 0 {[bs "since" := VInt 1999; bs "for" := VString (bs "P2Y")]})) /\
  exists b err, encode_edge deep_edge = Ok b /\ decode_edge b = Err err.
Proof.
  destruct record_roundtrip as (_ & He & _ & _). split.
  - destruct (He lasting_edge) as (b & Hb & _ & Hd). exists b. split; [exact Hb|].
    assert (E : (edge_depth lasting_edge <=? RECURSION_LIMIT)%nat = true) by (vm_compute; reflexivity).
    rewrite E in Hd. rewrite Hd. vm_compute. reflexivity.
  - destruct (He deep_edge) as (b & Hb & _ & Hd).
    assert (E : (edge_depth deep_edge <=? RECURSION_LIMIT)%nat = false) by (vm_compute; reflexivity).
    rewrite E in Hd. destruct Hd as [err Hd]. exists b, err. split; [exact Hb|exact Hd].
Defined.

Lemma migration_preserves_witness :
  decode_edge (bs "{edge}") = Ok known_edge /\
  exists data', migrate_edge (bs "{edge}") = Ok data' /\ decode_edge data' = Ok known_edge.
Proof.
  assert (E : decode_edge (bs "{edge}") = Ok known_edge) by (vm_compute; reflexivity).
  split; [exact E|]. destruct (migration_preserves (bs "{edge}")) as [Hm _]. rewrite E in Hm.
  destruct (Hm ltac:(vm_compute; lia)) as (data' & H1 & _ & H2 & _). exists data'. split; [exact H1|exact H2].
Defined.
