(* ===== verification/WireFacts.v ===== *)
(** * Reading one field of an encoded edge

    [decode_edge_vid_proto] of [byoridb-codec/src/vertex.rs] against the Protocol
    Buffers wire format: a message is a sequence of fields, each a number with a
    wire type and a payload. *)

From Stdlib Require Import ZArith Lia Strings.Byte Strings.String.
From stdpp Require Import base tactics list.
From S2P Require Import Prelude Text Value Exec VertexCodec.

(** ** The wire format *)

Fixpoint write_varint (n : nat) (z : Z) : bytes :=
  match n with
  | O => []
  | S n => if z <? 128 then [z2b z] else z2b (z mod 128 + 128) :: write_varint n (z / 128)
  end.
Definition varint (z : Z) : bytes := write_varint 10 z.

Inductive WireField :=
| WVarint (num val : Z)
| WFixed64 (num : Z) (payload : bytes)
| WLen (num : Z) (payload : bytes)
| WFixed32 (num : Z) (payload : bytes).

Definition write_field (f : WireField) : bytes :=
  match f with
  | WVarint num val => varint (num * 8) ++ varint val
  | WFixed64 num payload => varint (num * 8 + 1) ++ payload
  | WLen num payload => varint (num * 8 + 2) ++ varint (Z.of_nat (length payload)) ++ payload
  | WFixed32 num payload => varint (num * 8 + 5) ++ payload
  end.

Definition field_num (f : WireField) : Z :=
  match f with WVarint n _ | WFixed64 n _ | WLen n _ | WFixed32 n _ => n end.

(** Field numbers are at most 2^29 - 1. *)
Definition field_ok (f : WireField) : Prop :=
  0 < field_num f < 2 ^ 29 /\
  match f with
  | WVarint _ val => u64_ok val
  | WFixed64 _ payload => length payload = 8%nat
  | WLen _ payload => u64_ok (Z.of_nat (length payload))
  | WFixed32 _ payload => length payload = 4%nat
  end.

Fixpoint first_varint (target : Z) (fields : list WireField) : Z :=
  match fields with
  | [] => 0
  | WVarint num val :: fields => if num =? target then as_i64 val else first_varint target fields
  | _ :: fields => first_varint target fields
  end.

(** ** Varints *)

Lemma lor_high a z s : 0 <= s -> 0 <= a < 2 ^ s -> Z.lor a (Z.shiftl z s) = a + z * 2 ^ s.
Proof.
  intros Hs Ha. rewrite Z.shiftl_mul_pow2 by done. rewrite <- Z.add_nocarry_lor, Z.add_comm; [lia|].
  apply Z.bits_inj'. intros i Hi. rewrite Z.land_spec, Z.bits_0, <- Z.shiftl_mul_pow2 by done.
  destruct (Z.lt_ge_cases i s).
  - rewrite (Z.shiftl_spec_low z s i) by lia. apply andb_false_r.
  - assert (Z.testbit a i = false) as ->; [|done].
    destruct (Z.eq_dec a 0) as [->|]; [apply Z.bits_0|]. apply Z.bits_above_log2; [lia|].
    apply Z.log2_lt_pow2; [lia|]. eapply Z.lt_le_trans; [apply Ha|]. apply Z.pow_le_mono_r; lia.
Qed.

Lemma varint_byte b :
  Z.land (b2z b) 0x7f = b2z b mod 128 /\ (Z.land (b2z b) 0x80 =? 0) = (b2z b <? 128).
Proof. by destruct b. Qed.

Lemma read_write_varint n i z acc rest :
  (n + i = 10)%nat -> 0 <= z < 2 ^ (64 - 7 * Z.of_nat i) -> 0 <= acc < 2 ^ (7 * Z.of_nat i) ->
  read_varint_from (write_varint n z ++ rest) i acc =
    Some (acc + z * 2 ^ (7 * Z.of_nat i), (i + length (write_varint n z))%nat).
Proof.
  revert i z acc. induction n as [|n IH]; intros i z acc Hn Hz Ha.
  { exfalso. replace (64 - 7 * Z.of_nat i) with (-6) in Hz by lia. simpl in Hz. lia. }
  set (s := 7 * Z.of_nat i) in *. assert (Hs : 0 < 2 ^ s) by (apply Z.pow_pos_nonneg; lia).
  assert (Hb : 2 ^ (64 - s) * 2 ^ s = two64) by (unfold two64; rewrite <- Z.pow_add_r by lia; f_equal; lia).
  assert (Hbits : forall m, 0 <= m <= z -> Z.lor acc (as_u64 (Z.shiftl m s)) = acc + m * 2 ^ s).
  { intros m Hm. rewrite as_u64_id; [apply lor_high; lia|].
    rewrite Z.shiftl_mul_pow2 by lia. unfold u64_ok. nia. }
  cbn [write_varint]. destruct (Z.ltb_spec z 128) as [Hlt|Hge]; cbn [app read_varint_from length];
    rewrite (proj2 (Nat.leb_gt 10 i)) by lia.
  - destruct (varint_byte (z2b z)) as [-> ->]. rewrite b2z_z2b_small, Z.mod_small by lia.
    rewrite (proj2 (Z.ltb_lt z 128)), Hbits by lia. do 2 f_equal. lia.
  - pose proof (Z.mod_pos_bound z 128 ltac:(lia)) as Hm.
    destruct (varint_byte (z2b (z mod 128 + 128))) as [-> ->]. rewrite b2z_z2b_small by lia.
    rewrite (proj2 (Z.ltb_ge (z mod 128 + 128) 128)) by lia.
    replace ((z mod 128 + 128) mod 128) with (z mod 128)
      by (rewrite <- Z.add_mod_idemp_r, Z.mod_same, Z.add_0_r, Z.mod_mod; lia).
    rewrite Hbits by (split; [lia|apply Z.mod_le; lia]).
    assert (Hs7 : 2 ^ (7 * Z.of_nat (S i)) = 128 * 2 ^ s)
      by (replace (7 * Z.of_nat (S i)) with (7 + s) by lia; rewrite Z.pow_add_r by lia; done).
    rewrite IH.
    + rewrite Hs7. do 2 f_equal; [|lia]. pose proof (Z.div_mod z 128 ltac:(lia)). nia.
    + lia.
    + split; [apply Z.div_pos; lia|]. apply Z.div_lt_upper_bound; [lia|].
      replace (64 - 7 * Z.of_nat (S i)) with ((64 - s) - 7) by lia.
      destruct (Z.lt_ge_cases (64 - s) 7).
      * exfalso. pose proof (Z.pow_le_mono_r 2 (64 - s) 6 ltac:(lia) ltac:(lia)). lia.
      * replace 128 with (2 ^ 7) by done. rewrite <- Z.pow_add_r by lia. replace (7 + (64 - s - 7)) with (64 - s) by lia. lia.
    + rewrite Hs7. nia.
Qed.

Lemma read_varint_app z rest : u64_ok z -> read_varint (varint z ++ rest) = Some (z, length (varint z)).
Proof.
  intros Hz. unfold read_varint, varint. rewrite (read_write_varint 10 0 z 0 rest); [|done|done|simpl; lia].
  simpl Z.of_nat. rewrite Z.mul_0_r, Z.pow_0_r, Z.mul_1_r. done.
Qed.

Lemma varint_length z : (0 < length (varint z))%nat.
Proof. unfold varint. cbn [write_varint]. destruct (z <? 128); simpl; lia. Qed.

Lemma tag_parts num wt : 0 < num < 2 ^ 29 -> 0 <= wt < 8 ->
  u64_ok (num * 8 + wt) /\ Z.shiftr (num * 8 + wt) 3 = num /\ Z.land (num * 8 + wt) 7 = wt.
Proof.
  intros Hn Hw. split; [unfold u64_ok, two64; lia|]. rewrite Z.shiftr_div_pow2 by done. change (2 ^ 3) with 8. split.
  - rewrite Z.div_add_l, Z.div_small by lia. lia.
  - change 7 with (Z.ones 3). rewrite Z.land_ones by done. change (2 ^ 3) with 8.
    rewrite Z.add_comm, Z.mod_add, Z.mod_small by lia. done.
Qed.

(** ** The scan *)

(** A read at the end of [pre] sees what follows it. *)
Lemma drop_at (pre rest : bytes) pos : pos = Z.of_nat (length pre) -> drop (Z.to_nat pos) (pre ++ rest) = rest.
Proof. intros ->. rewrite Nat2Z.id. by rewrite drop_app_length. Qed.

Abbreviation size l := (Z.of_nat (length l)).

(** One round, at a tag. *)
Lemma scan_vid_tag num wt rest fuel pre target :
  0 < num < 2 ^ 29 -> 0 <= wt < 8 -> size (pre ++ varint (num * 8 + wt) ++ rest) < two64 ->
  let data := pre ++ varint (num * 8 + wt) ++ rest in
  let pos := size (pre ++ varint (num * 8 + wt)) in
  scan_vid (S fuel) data (size pre) target =
    if (num =? target) && (wt =? 0) then
      match read_varint rest with
      | Some (val, _) => Some (Ok (as_i64 val))
      | None => Some (Err (IncorrectValue (bs "Truncated vid field")))
      end
    else if wt =? 0 then
      match read_varint rest with
      | Some (_, n) => scan_vid fuel data (u64_add pos (Z.of_nat n)) target
      | None => Some (Err (IncorrectValue (bs "Truncated varint")))
      end
    else if wt =? 1 then scan_vid fuel data (u64_add pos 8) target
    else if wt =? 2 then
      match read_varint rest with
      | Some (len, n) => scan_vid fuel data (u64_add pos (u64_add (Z.of_nat n) len)) target
      | None => Some (Err (IncorrectValue (bs "Truncated length prefix")))
      end
    else if wt =? 5 then scan_vid fuel data (u64_add pos 4) target
    else Some (Err (IncorrectValue (bs "Unsupported wire type " ++ dec wt))).
Proof.
  intros Hnum Hwt Hlen. destruct (tag_parts num wt Hnum Hwt) as (Hok & Hshift & Hland).
  pose proof (varint_length (num * 8 + wt)) as Hpos. cbv zeta. rewrite !length_app in Hlen.
  cbn [scan_vid]. rewrite (proj2 (Z.leb_gt _ _)) by (rewrite !length_app; lia).
  rewrite drop_at by done. rewrite read_varint_app by done.
  assert (Ha : u64_add (size pre) (size (varint (num * 8 + wt))) = size (pre ++ varint (num * 8 + wt)))
    by (rewrite length_app, u64_add_id by (unfold u64_ok; lia); lia).
  rewrite Ha, Hshift, Hland. rewrite (app_assoc pre). by rewrite drop_at.
Qed.

Lemma scan_vid_fields target fields fuel pre :
  Forall field_ok fields -> (length fields <= fuel)%nat -> size (pre ++ concat (write_field <$> fields)) < two64 ->
  scan_vid fuel (pre ++ concat (write_field <$> fields)) (size pre) target = Some (Ok (first_varint target fields)).
Proof.
  intros Hok. revert fuel pre. induction Hok as [|f fields [Hnum Hf] _ IH]; intros fuel pre Hfuel Hlen.
  { simpl. rewrite app_nil_r. destruct fuel; simpl; by rewrite Z.leb_refl. }
  rewrite fmap_cons in Hlen |- *. cbn [concat length] in *. destruct fuel as [|fuel]; [lia|].
  assert (Hnext : forall pos, pos = size (pre ++ write_field f) ->
    scan_vid fuel (pre ++ write_field f ++ concat (write_field <$> fields)) pos target =
    Some (Ok (first_varint target fields))).
  { intros pos ->. rewrite app_assoc in Hlen |- *. apply IH; [lia|done]. }
  assert (Hadd : forall a b, 0 <= a -> 0 <= b -> a + b < two64 -> u64_add a b = a + b)
    by (intros; apply u64_add_id; unfold u64_ok; lia).
  destruct f as [num val|num payload|num payload|num payload]; cbn [write_field field_num first_varint] in *;
    rewrite ?length_app in Hlen; rewrite <- ?app_assoc.
  - replace (num * 8) with (num * 8 + 0) in * by lia.
    rewrite scan_vid_tag by (lia || (rewrite ?length_app; lia)). rewrite read_varint_app by done.
    destruct (Z.eqb_spec num target); [done|]. simpl andb. cbv iota.
    rewrite <- Hnext with (pos := size (pre ++ varint (num * 8 + 0) ++ varint val)) by done.
    rewrite <- app_assoc. f_equal. rewrite Hadd; rewrite ?length_app; lia.
  - rewrite scan_vid_tag by (lia || (rewrite ?length_app; lia)). rewrite andb_false_r. cbn [Z.eqb].
    rewrite <- Hnext with (pos := size (pre ++ varint (num * 8 + 1) ++ payload)) by done.
    rewrite <- app_assoc. f_equal. rewrite Hadd; rewrite ?length_app; lia.
  - rewrite scan_vid_tag by (lia || (rewrite ?length_app; lia)). rewrite andb_false_r. cbn [Z.eqb].
    rewrite read_varint_app by done.
    rewrite <- Hnext with (pos := size (pre ++ varint (num * 8 + 2) ++ varint (size payload) ++ payload)) by done.
    rewrite <- !app_assoc. f_equal.
    rewrite (Hadd (size (varint (size payload)))), Hadd; rewrite ?length_app; lia.
  - rewrite scan_vid_tag by (lia || (rewrite ?length_app; lia)). rewrite andb_false_r. cbn [Z.eqb].
    rewrite <- Hnext with (pos := size (pre ++ varint (num * 8 + 5) ++ payload)) by done.
    rewrite <- app_assoc. f_equal. rewrite Hadd; rewrite ?length_app; lia.
Qed.

(** The quick reader of one vertex id of an encoded edge returns, for every
    sequence of well-formed fields, the first varint in the field it looks for, as
    a signed integer, and 0 if there is none; a round per field is enough. *)
Theorem edge_vid_scan_exact target fields fuel :
  Forall field_ok fields -> (length fields <= fuel)%nat -> size (concat (write_field <$> fields)) < two64 ->
  decode_edge_vid_proto fuel (concat (write_field <$> fields)) target = Some (Ok (first_varint target fields)).
Proof. intros Hok Hfuel Hlen. by apply (scan_vid_fields target fields fuel []). Qed.

Definition edge_fields : list WireField := [WVarint 1 7; WLen 3 (bs "knows"); WFixed64 9 (replicate 8 x00); WVarint 2 (two64 - 5)].

Lemma edge_vid_scan_exact_witness :
  decode_edge_vid_proto 4 (concat (write_field <$> edge_fields)) 2 = Some (Ok (-5)).
Proof.
  change (-5) with (first_varint 2 edge_fields). apply edge_vid_scan_exact; [|simpl; lia|vm_compute; reflexivity].
  repeat (apply Forall_cons_2; [repeat split; by vm_compute|]). apply Forall_nil_2.
Defined.

(** Corrupt data can make the reader loop forever: a length that takes the
    position, which is a 64-bit integer, back to where it was. *)
Theorem edge_vid_scan_diverges fuel :
  decode_edge_vid_proto fuel (varint 26 ++ varint (two64 - 11)) 2 = None.
Proof.
  unfold decode_edge_vid_proto. induction fuel as [|fuel IH]; [by vm_compute|].
  cbn [scan_vid]. rewrite (proj2 (Z.leb_gt _ _)) by by vm_compute.
  change (read_varint (drop (Z.to_nat 0) (varint 26 ++ varint (two64 - 11)))) with (Some (26, 1%nat)).
  cbv beta iota zeta. change (u64_add 0 (Z.of_nat 1)) with 1.
  change (read_varint (drop (Z.to_nat 1) (varint 26 ++ varint (two64 - 11)))) with (Some (two64 - 11, 10%nat)).
  change (Z.shiftr 26 3) with 3. change (Z.land 26 7) with 2. cbn [Z.eqb andb Pos.eqb].
  change (u64_add 1 (u64_add (Z.of_nat 10) (two64 - 11))) with 0. exact IH.
Qed.
