(* ===== verification/Vid.v ===== *)
(** * String vertex ids

    [byoridb-executor/src/vid.rs]: a space with FIXED_STRING vertex ids maps each
    string to a negative 64-bit surrogate, in both directions, in the store. Each
    store call is one atomic step of a program, so that calls of different
    statements can be interleaved. *)

From Stdlib Require Import ZArith Lia Strings.Byte Strings.String.
From stdpp Require Import base tactics list.
From S2P Require Import Prelude OrdMap History KVStore Text SchemaKey Hash Exec.

(** [plan::Vid]. *)
Inductive Vid :=
| VidInt (value : Z)
| VidString (value : bytes).

(** The two kinds of [Value] a displayed vertex id can be. *)
Inductive VidValue :=
| ValueInt (value : Z)
| ValueString (value : bytes).

Inductive SpaceVidType :=
| Int64
| FixedString (max_len : Z).

Definition vid_display (v : Vid) : bytes :=
  match v with VidInt value => dec value | VidString value => value end.

(** [str::parse::<usize>]. *)
Definition parse_usize (l : bytes) : option Z :=
  if starts_with (bs "-") l then None else
  z ← parse_int l; if bool_decide (u64_ok z) then Some z else None.

Definition to_upper (b : byte) : byte := if in_range 97 122 b then z2b (b2z b - 32) else b.
Definition to_ascii_uppercase (s : bytes) : bytes := to_upper <$> s.
Definition eq_ignore_ascii_case (a b : bytes) : bool :=
  bool_decide (to_ascii_uppercase a = to_ascii_uppercase b).
Definition strip_prefix (p s : bytes) : option bytes :=
  if starts_with p s then Some (drop (length p) s) else None.
Definition strip_suffix (p s : bytes) : option bytes :=
  if starts_with (reverse p) (reverse s) then Some (take (length s - length p) s) else None.

Definition fixed_string_vid_type (space : bytes) (length : Z) (distributed : bool) :
    Result ExecutionError SpaceVidType :=
  if distributed then
    Err (InvalidOperation (bs "space '" ++ space ++ bs "' uses FIXED_STRING VIDs, which are unsupported in distributed execution until mapping ownership and replication are implemented; use INT64"))
  else Ok (FixedString length).

Definition p_result {A} (r : Result ExecutionError A) : Prog A :=
  match r with Ok a => Ret a | Err e => Throw e end.

Definition space_vid_type `{SerdeJson JsonValue} (distributed : bool) (space : bytes) : Prog SpaceVidType :=
  found <-~ p_get (SchemaKey.space space) ;;
  match found with
  | None => Ret Int64
  | Some bytes =>
      match json_from_slice bytes with
      | Err e => Throw (ExSerialization e)
      | Ok value =>
          let raw := default (bs "INT64") (v ← json_get (bs "vid_type") value; json_as_str v) in
          if eq_ignore_ascii_case raw (bs "INT64") then Ret Int64 else
          let upper := to_ascii_uppercase raw in
          match (s ← strip_prefix (bs "FIXED_STRING(") upper; s ← strip_suffix (bs ")") s; parse_usize s) with
          | Some length => p_result (fixed_string_vid_type space length distributed)
          | None => Throw (InvalidOperation
              (bs "space '" ++ space ++ bs "' has unsupported vid_type '" ++ raw ++ bs "'"))
          end
      end
  end.

Definition hex_digit (n : Z) : byte := if n <? 10 then z2b (48 + n) else z2b (97 + (n - 10)).

Definition encode_component (value : bytes) : bytes :=
  concat ((fun b => [hex_digit (Z.shiftr (b2z b) 4); hex_digit (Z.land (b2z b) 0x0f)]) <$> value).

Definition forward_key (space value : bytes) : bytes := space ++ bs ":vid-map:" ++ encode_component value.
Definition reverse_key (space : bytes) (internal : Z) : bytes := space ++ bs ":vid-rev:" ++ dec internal.

Definition decode_internal (b : bytes) : option Z :=
  if (length b =? 8)%nat then Some (i64_of_be b) else None.

Definition initial_candidate (value : bytes) : Z := as_i64 (Z.lor (hash_bytes value) (Z.shiftl 1 63)).

Definition next_candidate (candidate : Z) : Z := if candidate =? -1 then I64_MIN else candidate + 1.

Definition is_empty {A} (l : list A) : bool := match l with [] => true | _ => false end.

Definition internal_vid_is_occupied (space : bytes) (internal : Z) : Prog bool :=
  v <-~ p_get (SchemaKey.vertex space internal) ;;
  if bool_decide (is_Some v) then Ret true else
  out <-~ p_scan_prefix_limited (SchemaKey.edge_data_src_prefix space internal) (Some 1%nat) ;;
  if negb (is_empty out) then Ret true else
  in_ <-~ p_scan_prefix_limited (SchemaKey.in_edge_data_dst_prefix space internal) (Some 1%nat) ;;
  Ret (negb (is_empty in_)).

Definition err_int64 (space : bytes) : ExecutionError :=
  InvalidOperation (bs "space '" ++ space ++ bs "' uses INT64 VIDs; a string VID is not allowed").
Definition err_too_long (space : bytes) (actual_len max_len : Z) : ExecutionError :=
  InvalidOperation (bs "VID is " ++ dec actual_len ++ bs " bytes but space '" ++ space ++
    bs "' uses FIXED_STRING(" ++ dec max_len ++ bs ")").
Definition err_read_only (space : bytes) (vid : Vid) : ExecutionError :=
  InvalidOperation (bs "space '" ++ space ++ bs "' uses FIXED_STRING VIDs; integer VID " ++ vid_display vid ++
    bs " is read/delete-only legacy data and cannot be written").
Definition err_negative (space : bytes) (value : Z) : ExecutionError :=
  InvalidOperation (bs "space '" ++ space ++ bs "' uses FIXED_STRING VIDs; raw negative internal VID " ++ dec value ++
    bs " is not allowed").
Definition err_positive_mapping (space : bytes) (value : Z) : ExecutionError :=
  InvalidOperation (bs "corrupt positive string VID mapping for internal VID " ++ dec value ++ bs " in space '" ++
    space ++ bs "'").
Definition err_exhausted (space : bytes) : ExecutionError :=
  InvalidOperation (bs "negative string VID namespace is exhausted in space '" ++ space ++ bs "'").
Definition err_conflict (space : bytes) : ExecutionError :=
  InvalidOperation (bs "conflicting string VID mapping in space '" ++ space ++ bs "'").
Definition err_corrupt (space : bytes) : ExecutionError :=
  InvalidOperation (bs "corrupt string VID mapping in space '" ++ space ++ bs "'").
Definition err_outside (space : bytes) : ExecutionError :=
  InvalidOperation (bs "string VID mapping in space '" ++ space ++
    bs "' points outside the negative surrogate namespace").
Definition err_missing_reverse (space : bytes) (internal : Z) : ExecutionError :=
  InvalidOperation (bs "missing reverse string VID mapping for internal VID " ++ dec internal ++ bs " in space '" ++
    space ++ bs "'").
Definition err_conflicting_reverse (space : bytes) (internal : Z) : ExecutionError :=
  InvalidOperation (bs "conflicting reverse string VID mapping for internal VID " ++ dec internal ++
    bs " in space '" ++ space ++ bs "'").

Definition validate_write_vid (space : bytes) (vid_type : SpaceVidType) (vid : Vid) : Result ExecutionError unit :=
  match vid_type, vid with
  | Int64, VidInt _ => Ok tt
  | Int64, VidString _ => Err (err_int64 space)
  | FixedString max_len, VidString value =>
      let actual_len := Z.of_nat (length value) in
      if max_len <? actual_len then Err (err_too_long space actual_len max_len) else Ok tt
  | FixedString _, VidInt _ => Err (err_read_only space vid)
  end.

(** Publish the forward entry of a string that owns the reverse entry of a candidate. *)
Definition publish (space fwd : bytes) (candidate : Z) : Prog (Z + option Z) :=
  existing <-~ p_put_if_absent fwd (i64_to_be candidate) ;;
  match existing with
  | Some existing =>
      if bool_decide (decode_internal existing = Some candidate) then Ret (inr (Some candidate))
      else Throw (err_conflict space)
  | None => Ret (inr (Some candidate))
  end.

(** Go on with the next candidate, unless all have been tried. *)
Definition advance (space : bytes) (first_candidate candidate : Z) : Prog (Z + option Z) :=
  let candidate := next_candidate candidate in
  if candidate =? first_candidate then Throw (err_exhausted space) else Ret (inl candidate).

(** One round of the loop of [resolve_vid]. *)
Definition probe (space value fwd : bytes) (first_candidate candidate : Z) : Prog (Z + option Z) :=
  let rev := reverse_key space candidate in
  existing_reverse <-~ p_get rev ;;
  match existing_reverse with
  | Some existing =>
      if bool_decide (existing = value) then publish space fwd candidate
      else advance space first_candidate candidate
  | None =>
      occupied <-~ internal_vid_is_occupied space candidate ;;
      if (occupied : bool) then advance space first_candidate candidate else
      reverse_owner <-~ p_put_if_absent rev value ;;
      match reverse_owner with
      | Some existing =>
          if bool_decide (existing = value) then publish space fwd candidate
          else advance space first_candidate candidate
      | None => publish space fwd candidate
      end
  end.

(** The loop tries each negative integer once at most, so 2^63 rounds are enough. *)
Definition PROBES : positive := 9223372036854775808%positive.

Definition resolve_known (space value : bytes) (b : bytes) : Prog (option Z) :=
  match decode_internal b with
  | None => Throw (err_corrupt space)
  | Some internal =>
      if 0 <=? internal then Throw (err_outside space) else
      reverse <-~ p_get (reverse_key space internal) ;;
      match reverse with
      | None => Throw (err_missing_reverse space internal)
      | Some reverse =>
          if bool_decide (reverse = value) then Ret (Some internal)
          else Throw (err_conflicting_reverse space internal)
      end
  end.

Definition resolve_vid (space : bytes) (vid_type : SpaceVidType) (vid : Vid) (create_mapping : bool) :
    Prog (option Z) :=
  match vid_type, vid with
  | Int64, VidInt value => Ret (Some value)
  | Int64, VidString _ => Throw (err_int64 space)
  | FixedString _, VidInt value =>
      if create_mapping then Throw (err_read_only space vid)
      else if value <? 0 then Throw (err_negative space value) else
      mapped <-~ p_get (reverse_key space value) ;;
      if bool_decide (is_Some mapped) then Throw (err_positive_mapping space value) else
      occupied <-~ internal_vid_is_occupied space value ;;
      Ret (if (occupied : bool) then Some value else None)
  | FixedString max_len, VidString value =>
      let actual_len := Z.of_nat (length value) in
      if max_len <? actual_len then Throw (err_too_long space actual_len max_len) else
      let fwd := forward_key space value in
      found <-~ p_get fwd ;;
      match found with
      | Some b => resolve_known space value b
      | None =>
          if negb create_mapping then Ret None else
          let first_candidate := initial_candidate value in
          p_loop_bounded PROBES (probe space value fwd first_candidate) first_candidate
      end
  end.

Definition display_vid (space : bytes) (vid_type : SpaceVidType) (internal : Z) : Prog VidValue :=
  match vid_type with
  | Int64 => Ret (ValueInt internal)
  | FixedString _ =>
      if 0 <=? internal then
        mapped <-~ p_get (reverse_key space internal) ;;
        if bool_decide (is_Some mapped) then Throw (err_positive_mapping space internal) else
        occupied <-~ internal_vid_is_occupied space internal ;;
        if negb occupied then
          Throw (InvalidOperation (bs "unmapped non-negative VID " ++ dec internal ++
            bs " is not live in FIXED_STRING space '" ++ space ++ bs "'"))
        else Ret (ValueInt internal)
      else
        value <-~ p_get (reverse_key space internal) ;;
        match value with
        | None => Throw (err_missing_reverse space internal)
        | Some value =>
            if utf8_valid value then Ret (ValueString value)
            else Throw (InvalidOperation (bs "invalid UTF-8 reverse string VID mapping in space '" ++ space ++ bs "'"))
        end
  end.
