(* ===== verification/VidFacts.v ===== *)
(** * Safety of the string vertex id mapping

    The mapping of [Vid] under any interleaving of concurrent calls, and what a
    single call does. *)

From Stdlib Require Import ZArith Lia Strings.Byte Strings.String.
From stdpp Require Import base tactics relations list.
From S2P Require Import Prelude OrdMap History KVStore KVStoreFacts Text SchemaKey Hash Exec Vid.

(** ** Keys *)

Lemma hex_digit_inj x y : 0 <= x < 16 -> 0 <= y < 16 -> hex_digit x = hex_digit y -> x = y.
Proof.
  intros Hx Hy E. apply (f_equal b2z) in E. unfold hex_digit in E.
  destruct (Z.ltb_spec x 10), (Z.ltb_spec y 10); rewrite !b2z_z2b_small in E by lia; lia.
Qed.

Lemma nibbles b : 0 <= Z.shiftr (b2z b) 4 < 16 /\ 0 <= Z.land (b2z b) 0x0f < 16 /\
  b2z b = Z.shiftr (b2z b) 4 * 16 + Z.land (b2z b) 0x0f.
Proof.
  pose proof (b2z_bound b) as Hb. change 0x0f with (Z.ones 4). rewrite Z.land_ones, Z.shiftr_div_pow2 by lia.
  change (2 ^ 4) with 16. pose proof (Z.div_mod (b2z b) 16). pose proof (Z.mod_pos_bound (b2z b) 16).
  assert (0 <= b2z b / 16 < 16) by (split; [apply Z.div_pos; lia|apply Z.div_lt_upper_bound; lia]). lia.
Qed.

Lemma encode_component_inj v w : encode_component v = encode_component w -> v = w.
Proof.
  unfold encode_component. revert w. induction v as [|b v IH]; intros [|c w] E; [done..|].
  simpl in E. injection E as E1 E2 E3. destruct (nibbles b) as (H1 & H2 & H3), (nibbles c) as (H4 & H5 & H6).
  apply hex_digit_inj in E1, E2; [|lia..]. f_equal; [apply b2z_inj; lia|by apply IH].
Qed.

Section facts.
Context (sp : bytes).

Definition vid_key (k : bytes) : Prop := starts_with (sp ++ bs ":vid-") k = true.

Lemma forward_vid_key v : vid_key (forward_key sp v).
Proof.
  unfold vid_key, forward_key. change (bs ":vid-map:") with (bs ":vid-" ++ bs "map:").
  rewrite <- (assoc_L (++)), (assoc_L (++) sp). apply starts_with_app.
Qed.

Lemma reverse_vid_key c : vid_key (reverse_key sp c).
Proof.
  unfold vid_key, reverse_key. change (bs ":vid-rev:") with (bs ":vid-" ++ bs "rev:").
  rewrite <- (assoc_L (++)), (assoc_L (++) sp). apply starts_with_app.
Qed.

Lemma forward_key_inj v w : forward_key sp v = forward_key sp w -> v = w.
Proof. intros E. by apply app_inv_head, app_inv_head, encode_component_inj in E. Qed.

Lemma reverse_key_inj c d : i64_ok c -> i64_ok d -> reverse_key sp c = reverse_key sp d -> c = d.
Proof. intros Hc Hd E. apply app_inv_head, app_inv_head in E. by apply dec_inj. Qed.

Lemma forward_not_reverse v c : forward_key sp v <> reverse_key sp c.
Proof. intros E. apply app_inv_head in E. discriminate E. Qed.

(** ** Candidates *)

Definition negative (c : Z) : Prop := - two63 <= c < 0.

Lemma negative_i64 c : negative c -> i64_ok c.
Proof. unfold negative, i64_ok, two63. lia. Qed.

Lemma decode_encode c : negative c -> decode_internal (i64_to_be c) = Some c.
Proof.
  intros Hc. unfold decode_internal. assert (Hl : length (i64_to_be c) = 8%nat) by apply length_be_bytes.
  rewrite Hl. cbn [Nat.eqb]. by rewrite i64_be_roundtrip by by apply negative_i64.
Qed.

Lemma hash_bytes_ok data : u64_ok (hash_bytes data).
Proof.
  unfold hash_bytes. apply shift33_ok. destruct (chunks 8 data) as [|c cs] using rev_ind; [by vm_compute|].
  rewrite fold_left_app. apply u64_mul_ok.
Qed.

Lemma initial_negative v : negative (initial_candidate v).
Proof.
  unfold initial_candidate. set (h := hash_bytes v). pose proof (hash_bytes_ok v : u64_ok h) as Hh.
  change (Z.shiftl 1 63) with (2 ^ 63). set (z := Z.lor h (2 ^ 63)).
  assert (Hz : u64_ok z).
  { replace z with (as_u64 z); [apply as_u64_ok|]. unfold as_u64, u64_ok, two64 in *. apply Z.bits_inj'. intros i Hi.
    destruct (Z.lt_ge_cases i 64); [by rewrite Z.mod_pow2_bits_low|]. rewrite Z.mod_pow2_bits_high by lia.
    unfold z. rewrite Z.lor_spec, (testbit_high h 64), (testbit_high (2 ^ 63) 64) by lia. done. }
  assert (Hb : Z.testbit z 63 = true) by (unfold z; rewrite Z.lor_spec; apply orb_true_r).
  assert (Hge : two63 <= z).
  { destruct (Z.le_gt_cases two63 z) as [|Hlt]; [done|]. rewrite (testbit_high z 63) in Hb; [done|lia| |lia].
    destruct Hz. unfold two63 in Hlt. lia. }
  unfold negative, as_i64. cbv zeta. destruct Hz as [_ Hz]. rewrite Z.mod_small by (unfold two64, two63 in *; lia).
  destruct (Z.ltb_spec z two63); unfold two64, two63 in *; lia.
Qed.

Lemma next_negative c : negative c -> negative (next_candidate c).
Proof. unfold negative, next_candidate, I64_MIN. destruct (Z.eqb_spec c (-1)); unfold two63; lia. Qed.

(** ** The mapping in the store *)

Definition row (k : bytes) (s : MemoryKVStore) : option bytes := om_get k (data s).

(** Every forward entry is a surrogate whose reverse entry is the string. *)
Definition vids_ok (s : MemoryKVStore) : Prop :=
  mem_wf s /\ forall value b, row (forward_key sp value) s = Some b ->
    exists c, negative c /\ b = i64_to_be c /\ row (reverse_key sp c) s = Some value.

(** Entries of the mapping are never changed or removed. *)
Definition kept (s s' : MemoryKVStore) : Prop :=
  forall k v, vid_key k -> row k s = Some v -> row k s' = Some v.

Definition mapped (value : bytes) (c : Z) (s : MemoryKVStore) : Prop :=
  negative c /\ row (forward_key sp value) s = Some (i64_to_be c) /\ row (reverse_key sp c) s = Some value.

#[local] Instance kept_preorder : PreOrder kept.
Proof. split; [by intros ??|]. intros s1 s2 s3 H1 H2 k v Hk Hv. by apply H2, H1. Qed.

Lemma mapped_kept value c s s' : kept s s' -> mapped value c s -> mapped value c s'.
Proof.
  intros Hk (Hc & Hf & Hr). split; [done|]. split; apply Hk; auto using forward_vid_key, reverse_vid_key.
Qed.

Lemma insert_wf k v s : mem_wf s -> mem_wf (with_data s (om_insert k v (data s))).
Proof. intros [Hd Hh]. split; [by apply om_insert_wf|done]. Qed.

Lemma row_insert k v s k' : mem_wf s -> row k' (with_data s (om_insert k v (data s))) = if bool_decide (k' = k) then Some v else row k' s.
Proof. intros [Hd _]. unfold row. cbn [data with_data]. by rewrite om_get_insert_decide. Qed.

Lemma insert_kept k v s : mem_wf s -> row k s = None -> kept s (with_data s (om_insert k v (data s))).
Proof. intros Hwf Hn k' v' _ Hv. rewrite row_insert by done. case_bool_decide; [congruence|done]. Qed.

Lemma insert_reverse_ok c value s :
  vids_ok s -> row (reverse_key sp c) s = None ->
  vids_ok (with_data s (om_insert (reverse_key sp c) value (data s))).
Proof.
  intros [Hwf Hf] Hn. split; [by apply insert_wf|]. intros v b. rewrite row_insert by done.
  rewrite bool_decide_eq_false_2 by apply forward_not_reverse. intros (c' & Hc & -> & Hr)%Hf.
  exists c'. do 2 (split; [done|]). apply insert_kept; [done..|apply reverse_vid_key|done].
Qed.

Lemma insert_forward_ok c value s :
  vids_ok s -> negative c -> row (reverse_key sp c) s = Some value -> row (forward_key sp value) s = None ->
  vids_ok (with_data s (om_insert (forward_key sp value) (i64_to_be c) (data s))).
Proof.
  intros [Hwf Hf] Hc Hr Hn. split; [by apply insert_wf|]. intros v b. rewrite row_insert by done.
  case_bool_decide as E.
  - apply forward_key_inj in E as ->. intros Hb. injection Hb as <-. exists c. do 2 (split; [done|]).
    apply insert_kept; [done..|apply reverse_vid_key|done].
  - intros (c' & Hc' & -> & Hr')%Hf. exists c'. do 2 (split; [done|]).
    apply insert_kept; [done..|apply reverse_vid_key|done].
Qed.

(** ** Rely and guarantee

    [rg s p Q]: from any store in which the entries of [s] are kept, each call of
    [p] keeps the mapping coherent, whatever other calls do in between, and [p] ends
    with a result [Q] holds of. *)
Fixpoint rg {A} (s : MemoryKVStore) (p : Prog A) (Q : MemoryKVStore -> Result ExecutionError A -> Prop) : Prop :=
  match p with
  | Ret a => Q s (Ok a)
  | Throw e => Q s (Err e)
  | CallGet key k => forall s', kept s s' -> vids_ok s' -> rg s' (k (row key s')) Q
  | CallScanLimited _ _ k => forall s' r, kept s s' -> vids_ok s' -> rg s' (k r) Q
  | CallPutIfAbsent key value k => forall s', kept s s' -> vids_ok s' ->
      match row key s' with
      | Some existing => rg s' (k (Some existing)) Q
      | None => let s'' := with_data s' (om_insert key value (data s')) in vids_ok s'' /\ rg s'' (k None) Q
      end
  | Spin => False
  end.

Lemma rg_kept {A} s s' (p : Prog A) Q :
  (forall s1 s2 r, kept s1 s2 -> Q s1 r -> Q s2 r) -> kept s s' -> rg s p Q -> rg s' p Q.
Proof.
  intros HQ Hk. destruct p; simpl; [by apply HQ..| | | |done]; intros H s1; intros; apply H; auto; by transitivity s'.
Qed.

Lemma rg_conseq {A} s (p : Prog A) (Q Q' : MemoryKVStore -> Result ExecutionError A -> Prop) :
  (forall s' r, kept s s' -> Q s' r -> Q' s' r) -> rg s p Q -> rg s p Q'.
Proof.
  revert s. induction p as [a|e|key k IH|pre lim k IH|key v k IH|]; intros s HQ; simpl; [by apply HQ..| | | |done].
  - intros H s' Hk Hok. apply IH; [|by apply H]. intros s1 r H1. apply HQ. by transitivity s'.
  - intros H s' r Hk Hok. apply IH; [|by apply H]. intros s1 r1 H1. apply HQ. by transitivity s'.
  - intros H s' Hk Hok. specialize (H s' Hk Hok). destruct (row key s') as [b|] eqn:E.
    + apply IH; [|done]. intros s1 r1 H1. apply HQ. by transitivity s'.
    + destruct H as [H1 H2]. split; [done|]. apply IH; [|done]. intros s1 r1 H3. apply HQ.
      transitivity s'; [done|]. etransitivity; [|done]. apply insert_kept; [apply Hok|done].
Qed.

Lemma rg_bind {A B} s (p : Prog A) (f : A -> Prog B) Q :
  rg s p (fun s' r => match r with Ok a => rg s' (f a) Q | Err e => Q s' (Err e) end) -> rg s (p_bind p f) Q.
Proof.
  revert s. induction p as [a|e|key k IH|pre lim k IH|key v k IH|]; intros s; simpl; [done..| | | |done].
  - intros H s' Hk Hok. by apply IH, H.
  - intros H s' r Hk Hok. by apply IH, H.
  - intros H s' Hk Hok. specialize (H s' Hk Hok). destruct (row key s'); [by apply IH|].
    destruct H as [H1 H2]. split; [done|by apply IH].
Qed.

(** The result of a number of rounds of a loop. *)
Definition rounds {X A} (Inv : Z -> X -> Prop) (Q : MemoryKVStore -> Result ExecutionError A -> Prop) (i : Z)
    (s : MemoryKVStore) (r : Result ExecutionError (X + A)) : Prop :=
  match r with
  | Ok (inl x) => Inv i x
  | Ok (inr a) => Q s (Ok a)
  | Err e => Q s (Err e)
  end.

Lemma rg_loop {X A} (Inv : Z -> X -> Prop) (Q : MemoryKVStore -> Result ExecutionError A -> Prop) body n :
  (forall s i x, Inv i x -> rg s (body x) (rounds Inv Q (i + 1))) ->
  forall s i x, Inv i x -> rg s (p_loop n body x) (rounds Inv Q (i + Zpos n)).
Proof.
  intros Hb. induction n as [n IH|n IH|]; intros s i x Hx; cbn [p_loop]; [| |by apply Hb].
  - apply rg_bind. eapply rg_conseq; [|by apply Hb]. intros s' [[x'|a]|e] _ Hr; [|done..].
    apply rg_bind. eapply rg_conseq; [|by apply IH]. intros s'' [[x''|a]|e] _ Hr'; [|done..].
    replace (i + Z.pos n~1) with (i + 1 + Z.pos n + Z.pos n) by lia. by apply IH.
  - apply rg_bind. eapply rg_conseq; [|by apply IH]. intros s' [[x'|a]|e] _ Hr; [|done..].
    replace (i + Z.pos n~0) with (i + Z.pos n + Z.pos n) by lia. by apply IH.
Qed.

(** What the caller is told. *)
Definition answer (value : bytes) (s : MemoryKVStore) (r : Result ExecutionError (option Z)) : Prop :=
  match r with Ok (Some c) => mapped value c s | _ => True end.

Lemma answer_kept value s s' r : kept s s' -> answer value s r -> answer value s' r.
Proof. destruct r as [[c|]|e]; [|done..]. apply mapped_kept. Qed.

(** The candidate after [i] rounds. *)
Definition tried (first : Z) (i c : Z) : Prop := negative c /\ 0 <= i < two63 /\ (c - first) mod two63 = i.

Lemma next_distance first i c :
  tried first i c -> (next_candidate c - first) mod two63 = (i + 1) mod two63.
Proof.
  intros (_ & _ & <-). rewrite Zplus_mod_idemp_l. unfold next_candidate, I64_MIN. destruct (Z.eqb_spec c (-1)) as [->|].
  - replace (-1 - first + 1) with (- two63 - first + 1 * two63) by lia. by rewrite Z.mod_add.
  - f_equal. lia.
Qed.

Lemma distance_inj first c d : negative c -> negative d -> (c - first) mod two63 = (d - first) mod two63 -> c = d.
Proof.
  unfold negative. intros Hc Hd E. assert (E' : (c - d) mod two63 = 0).
  { replace (c - d) with ((c - first) - (d - first)) by lia. by rewrite Zminus_mod, E, Z.sub_diag. }
  apply Z.mod_divide in E' as [q Hq]; [|done]. assert (q = 0) by (unfold two63 in *; nia). lia.
Qed.

Lemma next_tried first i c :
  negative first -> tried first i c -> next_candidate c <> first <-> i + 1 < two63.
Proof.
  intros Hf Ht. pose proof (next_distance first i c Ht) as Hd. destruct Ht as (Hc & Hi & _). split; intros H.
  - destruct (Z.eq_dec (i + 1) two63) as [E|]; [|lia]. destruct H. rewrite E, Z.mod_same in Hd by done.
    apply (distance_inj first); [by apply next_negative|done|]. by rewrite Hd, Z.sub_diag.
  - intros E. rewrite E, Z.sub_diag, (Z.mod_small (i + 1)) in Hd by lia. change (0 mod two63) with 0 in Hd. lia.
Qed.

Lemma tried_next first i c :
  negative first -> tried first i c -> i + 1 < two63 -> tried first (i + 1) (next_candidate c).
Proof.
  intros Hf Ht Hi. split; [apply next_negative, Ht|]. split; [destruct Ht; lia|].
  rewrite (next_distance first i) by done. apply Z.mod_small. destruct Ht; lia.
Qed.

Lemma tried_full first c : ~ tried first two63 c.
Proof. intros (_ & Hi & _). lia. Qed.

Section resolve.
Context (value : bytes).
Let fwd := forward_key sp value.
Let first := initial_candidate value.

Lemma publish_rg s c :
  negative c -> row (reverse_key sp c) s = Some value ->
  forall i, rg s (publish sp fwd c) (rounds (tried first) (answer value) i).
Proof.
  intros Hc Hr i s' Hk Hok. assert (Hr' : row (reverse_key sp c) s' = Some value) by (apply Hk; [apply reverse_vid_key|done]).
  cbn [p_bind]. destruct (row fwd s') as [b|] eqn:E.
  - case_bool_decide as Hd; [|done]. destruct (proj2 Hok value b E) as (c' & Hc' & -> & Hr'').
    rewrite decode_encode in Hd by done. injection Hd as ->. split; [done|]. by split.
  - split; [by apply insert_forward_ok|]. split; [done|]. rewrite !row_insert by apply Hok. unfold fwd in *.
    rewrite bool_decide_eq_true_2 by done. rewrite bool_decide_eq_false_2; [done|]. intros E'. by destruct (forward_not_reverse value c).
Qed.

Lemma advance_rg s i c :
  tried first i c -> rg s (advance sp first c) (rounds (tried first) (answer value) (i + 1)).
Proof.
  intros Hc. unfold advance. destruct (Z.eqb_spec (next_candidate c) first) as [|Hne]; [done|].
  apply (next_tried first i) in Hne; [|apply initial_negative|done]. apply tried_next; [apply initial_negative|done|done].
Qed.

Lemma probe_rg s i c :
  tried first i c -> rg s (probe sp value fwd first c) (rounds (tried first) (answer value) (i + 1)).
Proof.
  intros Ht. pose proof (proj1 Ht) as Hc. intros s1 Hk1 Hok1. cbn [p_bind].
  destruct (row (reverse_key sp c) s1) as [b|] eqn:E1.
  - case_bool_decide as Hb; [subst b; by apply publish_rg|by apply advance_rg].
  - apply rg_bind. intros s2 Hk2 Hok2. cbn [p_bind].
    assert (Hfree : forall s, rg s
      (reverse_owner <-~ p_put_if_absent (reverse_key sp c) value ;;
       match reverse_owner with
       | Some existing => if bool_decide (existing = value) then publish sp fwd c else advance sp first c
       | None => publish sp fwd c
       end) (rounds (tried first) (answer value) (i + 1))).
    { intros s3 s4 Hk4 Hok4. cbn [p_bind]. destruct (row (reverse_key sp c) s4) as [b|] eqn:E4.
      - case_bool_decide as Hb; [subst b; by apply publish_rg|by apply advance_rg].
      - split; [by apply insert_reverse_ok|]. apply publish_rg; [done|]. rewrite row_insert by apply Hok4.
        by rewrite bool_decide_eq_true_2. }
    assert (Hocc : forall s, rg s (advance sp first c) (rounds (tried first) (answer value) (i + 1))) by (intros; by apply advance_rg).
    case_bool_decide; [apply Hocc|]. intros s3 out Hk3 Hok3. cbn [p_bind]. destruct out; cbn [is_empty negb]; [|apply Hocc].
    intros s4 in_ Hk4 Hok4. cbn [p_bind]. destruct in_; cbn [is_empty negb]; [apply Hfree|apply Hocc].
Qed.

Lemma resolve_rg n create s : rg s (resolve_vid sp (FixedString n) (VidString value) create) (answer value).
Proof.
  unfold resolve_vid. cbv zeta. destruct (n <? Z.of_nat (length value)); [done|]. intros s1 Hk1 Hok1. cbn [p_bind].
  fold fwd first. destruct (row fwd s1) as [b|] eqn:E.
  - destruct (proj2 Hok1 value b E) as (c & Hc & -> & Hr). unfold resolve_known. rewrite decode_encode by done.
    destruct (Z.leb_spec 0 c); [done|]. intros s2 Hk2 Hok2. cbn [p_bind].
    rewrite (Hk2 _ _ (reverse_vid_key c) Hr). rewrite bool_decide_eq_true_2 by done.
    apply (mapped_kept value c s1); [done|]. by split.
  - destruct create; [|done]. cbn [negb]. unfold p_loop_bounded. apply rg_bind. eapply rg_conseq.
    2: { apply (rg_loop (tried first) (answer value) (probe sp value fwd first) PROBES) with (i := 0).
         - intros s2 i c Ht. by apply probe_rg.
         - split; [apply initial_negative|]. rewrite Z.sub_diag. by split. }
    intros s2 [[c|a]|e] _ Hr; [|done..]. by destruct (tried_full first c).
Qed.
End resolve.

(** ** Concurrent calls *)

(** The next call of a program, on a store whose methods succeed. *)
Definition p_step {A} (p : Prog A) (s : MemoryKVStore) : option (Prog A * MemoryKVStore) :=
  match p with
  | Ret _ | Throw _ | Spin => None
  | CallGet key k => match Memory.get key s with (Ok r, s') => Some (k r, s') | _ => None end
  | CallScanLimited prefix limit k =>
      match kv_scan_prefix_limited prefix limit s with (Ok r, s') => Some (k r, s') | _ => None end
  | CallPutIfAbsent key v k => match Memory.put_if_absent key v s with (Ok r, s') => Some (k r, s') | _ => None end
  end.

(** The calls of [resolve_vid] in progress, each with the string it resolves. *)
Definition calls : Type := list (bytes * Prog (option Z)).

(** A statement starts a call; a call in progress takes its next step, or that step
    fails with a storage error, before or after its effect; any other write of the
    system leaves the mapping alone. *)
Inductive vid_step : MemoryKVStore * calls -> MemoryKVStore * calls -> Prop :=
| vid_start n value create s ts :
    vid_step (s, ts) (s, ts ++ [(value, resolve_vid sp (FixedString n) (VidString value) create)])
| vid_call i value p p' s s' ts :
    ts !! i = Some (value, p) -> p_step p s = Some (p', s') -> vid_step (s, ts) (s', <[i := (value, p')]> ts)
| vid_fail i value p p' e s s' s'' ts :
    ts !! i = Some (value, p) -> p_step p s = Some (p', s') -> s'' = s \/ s'' = s' ->
    vid_step (s, ts) (s'', <[i := (value, Throw (from_kv_error e))]> ts)
| vid_other s s' ts :
    mem_wf s' -> (forall k, vid_key k -> row k s' = row k s) -> vid_step (s, ts) (s', ts).

Definition vid_inv (st : MemoryKVStore * calls) : Prop :=
  vids_ok st.1 /\ Forall (fun t => rg st.1 t.2 (answer t.1)) st.2.

Lemma p_step_rg {A} (p p' : Prog A) s s' Q :
  vids_ok s -> rg s p Q -> p_step p s = Some (p', s') -> vids_ok s' /\ kept s s' /\ rg s' p' Q.
Proof.
  intros Hok Hrg. destruct p as [a|e|key k|pre lim k|key v k|]; simpl; try done.
  - intros [= <- <-]. split; [done|]. split; [done|]. by apply Hrg.
  - intros [= <- <-]. split; [done|]. split; [done|]. by apply Hrg.
  - unfold Memory.put_if_absent. specialize (Hrg s ltac:(done) Hok). fold (row key s). destruct (row key s) as [b|] eqn:E.
    + intros [= <- <-]. done.
    + intros [= <- <-]. destruct Hrg as [H1 H2]. split; [done|]. split; [|done]. apply insert_kept; [apply Hok|done].
Qed.

Lemma calls_kept s s' (ts : calls) :
  kept s s' -> Forall (fun t => rg s t.2 (answer t.1)) ts -> Forall (fun t => rg s' t.2 (answer t.1)) ts.
Proof. intros Hk H. eapply Forall_impl; [exact H|]. intros [v p]. apply rg_kept; [apply answer_kept|done]. Qed.

Lemma vid_step_inv st st' : vid_step st st' -> vid_inv st -> vid_inv st'.
Proof.
  intros Hst [Hok Hts]. destruct Hst as [n v cr s ts|i v p p' s s' ts Hi Hp|i v p p' e s s' s'' ts Hi Hp Hs|s s' ts Hwf Hrow];
    cbn [fst snd] in *.
  - split; [done|]. apply Forall_app. split; [done|]. apply Forall_singleton. apply resolve_rg.
  - pose proof (Forall_lookup_1 _ _ _ _ Hts Hi) as Hr. destruct (p_step_rg p p' s s' _ Hok Hr Hp) as (H1 & H2 & H3).
    split; [done|]. apply Forall_insert; [by apply (calls_kept s)|done].
  - pose proof (Forall_lookup_1 _ _ _ _ Hts Hi) as Hr. destruct (p_step_rg p p' s s' _ Hok Hr Hp) as (H1 & H2 & H3).
    destruct Hs; subst s''; (split; [done|]); apply Forall_insert; [done|done|by apply (calls_kept s)|done].
  - assert (Hk : kept s s') by (intros k b Hk Hb; by rewrite Hrow).
    split; [|by apply (calls_kept s)]. split; [done|]. intros value b.
    rewrite Hrow by apply forward_vid_key. intros (c & Hc & -> & Hr)%(proj2 Hok). exists c.
    by rewrite Hrow by apply reverse_vid_key.
Qed.

Lemma vid_run_inv s : vids_ok s -> forall st, rtc vid_step (s, []) st -> vid_inv st.
Proof.
  intros Hok st Hrun. assert (H0 : vid_inv (s, [])) by (split; [done|constructor]).
  revert H0. induction Hrun as [|x y z Hxy _ IH]; [done|]. intros H. by apply IH, (vid_step_inv x).
Qed.

(** ** Single calls *)

Lemma run_get {A} key (k : option bytes -> Prog A) s : p_run (CallGet key k) s = p_run (k (row key s)) s.
Proof. done. Qed.

Lemma run_put_if_absent {A} key v (k : option bytes -> Prog A) s :
  p_run (CallPutIfAbsent key v k) s =
    match row key s with
    | Some b => p_run (k (Some b)) s
    | None => p_run (k None) (with_data s (om_insert key v (data s)))
    end.
Proof. simpl. unfold Memory.put_if_absent. fold (row key s). by destruct (row key s). Qed.

Lemma resolve_mapped value c create n s :
  mapped value c s -> Z.of_nat (length value) <= n ->
  p_run (resolve_vid sp (FixedString n) (VidString value) create) s = (Some (Ok (Some c)), s).
Proof.
  intros (Hc & Hf & Hr) Hn. unfold resolve_vid. cbv zeta. destruct (Z.ltb_spec n (Z.of_nat (length value))); [lia|].
  unfold p_get. cbn [p_bind]. rewrite run_get, Hf. unfold resolve_known. rewrite decode_encode by done.
  destruct (Z.leb_spec 0 c); [unfold negative in Hc; lia|]. unfold p_get. cbn [p_bind]. rewrite run_get, Hr.
  by rewrite bool_decide_eq_true_2.
Qed.

Lemma display_mapped value c n s :
  mapped value c s -> utf8_valid value = true ->
  p_run (display_vid sp (FixedString n) c) s = (Some (Ok (ValueString value)), s).
Proof.
  intros (Hc & _ & Hr) Hu. unfold display_vid. destruct (Z.leb_spec 0 c); [unfold negative in Hc; lia|].
  unfold p_get. cbn [p_bind]. by rewrite run_get, Hr, Hu.
Qed.

Lemma mapped_inj v w c d s : mapped v c s -> mapped w d s -> v = w <-> c = d.
Proof.
  intros (Hc & Hfv & Hrv) (Hd & Hfw & Hrw). split; intros ->; [|congruence].
  assert (E : i64_to_be c = i64_to_be d) by congruence.
  assert (E' : Some c = Some d) by by rewrite <- (decode_encode c Hc), E, decode_encode. congruence.
Qed.

(** *** Probing *)

Definition under (prefix : bytes) (s : MemoryKVStore) : bool :=
  existsb (fun kv => starts_with prefix kv.1) (data s).

(** The candidate is used as a vertex, or as an end of an edge. *)
Definition occupied (c : Z) (s : MemoryKVStore) : bool :=
  bool_decide (is_Some (row (SchemaKey.vertex sp c) s)) || under (SchemaKey.edge_data_src_prefix sp c) s ||
  under (SchemaKey.in_edge_data_dst_prefix sp c) s.

Lemma scan_one prefix s :
  mem_wf s -> exists l, kv_scan_prefix_limited prefix (Some 1%nat) s = (Ok l, s) /\ negb (is_empty l) = under prefix s.
Proof.
  intros [Hd _]. eexists. split; [reflexivity|]. rewrite filter_all by done. rewrite prefix_walk by done.
  unfold under. induction (data s) as [|kv m IH]; [done|]. simpl. destruct (starts_with prefix kv.1); [done|].
  apply om_wf_tail in Hd. by apply IH.
Qed.

Lemma run_occupied c s : mem_wf s -> p_run (internal_vid_is_occupied sp c) s = (Some (Ok (occupied c s)), s).
Proof.
  intros Hwf. unfold internal_vid_is_occupied, p_get, occupied. cbn [p_bind]. rewrite run_get.
  case_bool_decide; [done|]. destruct (scan_one (SchemaKey.edge_data_src_prefix sp c) s Hwf) as (l & Hl & <-).
  unfold p_scan_prefix_limited. cbn [p_bind p_run]. rewrite Hl. destruct (is_empty l); [|done]. cbn [negb orb].
  destruct (scan_one (SchemaKey.in_edge_data_dst_prefix sp c) s Hwf) as (l' & Hl' & <-). cbn [p_run]. by rewrite Hl'.
Qed.

Definition available (value : bytes) (c : Z) (s : MemoryKVStore) : bool :=
  match row (reverse_key sp c) s with Some b => bool_decide (b = value) | None => negb (occupied c s) end.

(** The store after the string has claimed the candidate. *)
Definition claim (value : bytes) (c : Z) (s : MemoryKVStore) : MemoryKVStore :=
  let s1 := match row (reverse_key sp c) s with
            | Some _ => s
            | None => with_data s (om_insert (reverse_key sp c) value (data s))
            end in
  with_data s1 (om_insert (forward_key sp value) (i64_to_be c) (data s1)).

Lemma run_publish value c s :
  row (forward_key sp value) s = None ->
  p_run (publish sp (forward_key sp value) c) s =
    (Some (Ok (inr (Some c))), with_data s (om_insert (forward_key sp value) (i64_to_be c) (data s))).
Proof. intros Hf. unfold publish, p_put_if_absent. cbn [p_bind]. by rewrite run_put_if_absent, Hf. Qed.

Lemma run_probe value c s :
  mem_wf s -> row (forward_key sp value) s = None ->
  p_run (probe sp value (forward_key sp value) (initial_candidate value) c) s =
    if available value c s then (Some (Ok (inr (Some c))), claim value c s)
    else p_run (advance sp (initial_candidate value) c) s.
Proof.
  intros Hwf Hf. unfold probe, p_get, claim. cbn [p_bind]. rewrite run_get. unfold available at 1.
  destruct (row (reverse_key sp c) s) as [b|] eqn:E.
  - case_bool_decide; [by apply run_publish|done].
  - rewrite p_run_bind, run_occupied by done. destruct (occupied c s); [done|]. cbn [negb].
    unfold p_put_if_absent. cbn [p_bind]. rewrite run_put_if_absent, E. apply run_publish.
    rewrite row_insert by done. rewrite bool_decide_eq_false_2 by apply forward_not_reverse. done.
Qed.

(** [n] rounds of a loop run alone. *)
Fixpoint run_rounds {X A} (n : nat) (body : X -> Prog (X + A)) (x : X) (s : MemoryKVStore) :
    option (Result ExecutionError (X + A)) * MemoryKVStore :=
  match n with
  | O => (Some (Ok (inl x)), s)
  | S n =>
      match p_run (body x) s with
      | (Some (Ok (inl x')), s') => run_rounds n body x' s'
      | r => r
      end
  end.

Lemma run_rounds_add {X A} n m (body : X -> Prog (X + A)) x s :
  run_rounds (n + m) body x s =
    match run_rounds n body x s with
    | (Some (Ok (inl x')), s') => run_rounds m body x' s'
    | r => r
    end.
Proof.
  revert x s. induction n as [|n IH]; intros x s; [done|]. cbn [Nat.add run_rounds].
  destruct (p_run (body x) s) as [[[[x'|a]|e]|] s']; done.
Qed.

Lemma run_loop {X A} n (body : X -> Prog (X + A)) x s :
  p_run (p_loop n body x) s = run_rounds (Pos.to_nat n) body x s.
Proof.
  revert x s. induction n as [n IH|n IH|]; intros x s; cbn [p_loop].
  - replace (Pos.to_nat n~1) with (1 + (Pos.to_nat n + Pos.to_nat n))%nat by lia.
    rewrite p_run_bind, run_rounds_add. cbn [run_rounds]. destruct (p_run (body x) s) as [[[[x'|a]|e]|] s']; try done.
    rewrite p_run_bind, IH, run_rounds_add. destruct (run_rounds _ _ x' s') as [[[[x''|a]|e]|] s'']; done.
  - replace (Pos.to_nat n~0) with (Pos.to_nat n + Pos.to_nat n)%nat by lia.
    rewrite p_run_bind, IH, run_rounds_add. destruct (run_rounds _ _ x s) as [[[[x''|a]|e]|] s'']; done.
  - change (Pos.to_nat 1) with 1%nat. cbn [run_rounds]. by destruct (p_run (body x) s) as [[[[x'|a]|e]|] s'].
Qed.

Lemma bounded_search (P : Z -> bool) lo n :
  (exists c, lo <= c < lo + Z.of_nat n /\ P c = true) \/ forall c, lo <= c < lo + Z.of_nat n -> P c = false.
Proof.
  induction n as [|n [(c & Hc & Hp)|IH]]; [right; intros; lia|left; exists c; split; [lia|done]|].
  destruct (P (lo + Z.of_nat n)) eqn:E; [left; exists (lo + Z.of_nat n); split; [lia|done]|].
  right. intros c Hc. destruct (Z.eq_dec c (lo + Z.of_nat n)) as [->|]; [done|]. apply IH. lia.
Qed.

Lemma candidate_search value s :
  (exists c, negative c /\ available value c s = true) \/ forall c, negative c -> available value c s = false.
Proof.
  pose proof (bounded_search (fun c => available value c s) (- two63) (Z.to_nat two63)) as H.
  rewrite Z2Nat.id, Z.add_opp_diag_l in H by done. exact H.
Qed.

Section probing.
Context (value : bytes) (s : MemoryKVStore).
Let first := initial_candidate value.
Let body := probe sp value (forward_key sp value) first.
Hypothesis Hwf : mem_wf s.
Hypothesis Hnew : row (forward_key sp value) s = None.

Lemma run_round c m :
  run_rounds (S m) body c s =
    if available value c s then (Some (Ok (inr (Some c))), claim value c s)
    else if next_candidate c =? first then (Some (Err (err_exhausted sp)), s)
    else run_rounds m body (next_candidate c) s.
Proof.
  cbn [run_rounds]. unfold body. rewrite run_probe by done. destruct (available value c s); [done|].
  unfold advance. cbv zeta. fold first. by destruct (next_candidate c =? first).
Qed.

(** The first available candidate is claimed. *)
Lemma rounds_hit target : forall j i c m,
  tried first i c -> tried first (i + Z.of_nat j) target -> available value target s = true -> (j < m)%nat ->
  exists c', negative c' /\ available value c' s = true /\ run_rounds m body c s = (Some (Ok (inr (Some c'))), claim value c' s).
Proof.
  induction j as [|j IH]; intros i c m Hc Ht Ha Hm; destruct m as [|m]; try lia; rewrite run_round.
  - assert (c = target) as <-.
    { destruct Hc as (? & ? & E), Ht as (? & ? & E'). apply (distance_inj first); [done..|]. rewrite E, E'. lia. }
    rewrite Ha. exists c. split; [apply Hc|done].
  - destruct (available value c s) eqn:Ec; [exists c; split; [apply Hc|done]|].
    assert (Hi : i + 1 < two63) by (destruct Ht as (_ & Hi & _); lia).
    pose proof (proj2 (next_tried first i c (initial_negative value) Hc) Hi) as Hne.
    rewrite (proj2 (Z.eqb_neq _ _) Hne). apply (IH (i + 1)); [by apply tried_next; [apply initial_negative|..]| |done|lia].
    by replace (i + 1 + Z.of_nat j) with (i + Z.of_nat (S j)) by lia.
Qed.

(** With none available the search ends with an error. *)
Lemma rounds_miss : (forall c, negative c -> available value c s = false) -> forall j i c m,
  tried first i c -> i + Z.of_nat j + 1 = two63 -> (j < m)%nat ->
  run_rounds m body c s = (Some (Err (err_exhausted sp)), s).
Proof.
  intros Hno. induction j as [|j IH]; intros i c m Hc Hj Hm; destruct m as [|m]; try lia; rewrite run_round;
    rewrite Hno by apply Hc; destruct (Z.eqb_spec (next_candidate c) first) as [E|E]; try done.
  - apply (next_tried first i c (initial_negative value) Hc) in E. lia.
  - apply (IH (i + 1)); [|lia|lia]. apply tried_next; [apply initial_negative|done|lia].
Qed.

Lemma first_tried : tried first 0 first.
Proof. split; [apply initial_negative|]. rewrite Z.sub_diag. by split. Qed.

Lemma run_probes :
  (exists c, negative c /\ available value c s = true /\
    p_run (p_loop_bounded PROBES body first) s = (Some (Ok (Some c)), claim value c s)) \/
  ((forall c, negative c -> available value c s = false) /\
    p_run (p_loop_bounded PROBES body first) s = (Some (Err (err_exhausted sp)), s)).
Proof.
  assert (Hn : Z.of_nat (Pos.to_nat PROBES) = two63) by (rewrite positive_nat_Z; reflexivity).
  unfold p_loop_bounded. rewrite p_run_bind, run_loop. revert Hn. generalize (Pos.to_nat PROBES). intros n Hn.
  destruct (candidate_search value s) as [(t & Ht & Ha)|Hno].
  - left. destruct (rounds_hit t (Z.to_nat ((t - first) mod two63)) 0 first n) as (c & Hc & Hav & ->);
      [apply first_tried| |done| |by exists c].
    + pose proof (Z.mod_pos_bound (t - first) two63 ltac:(done)). rewrite Z2Nat.id by lia. split; [done|]. split; [lia|lia].
    + pose proof (Z.mod_pos_bound (t - first) two63 ltac:(done)). lia.
  - right. split; [done|]. rewrite (rounds_miss Hno (Z.to_nat (two63 - 1)) 0 first n); [done|apply first_tried| |].
    + rewrite Z2Nat.id by done. done.
    + apply Nat2Z.inj_lt. rewrite Z2Nat.id by done. lia.
Qed.
End probing.

(** C12: whatever statements run concurrently, and whichever of their store calls
    fail, two calls that resolved strings got the same surrogate exactly when the
    strings are equal; every surrogate is negative, is displayed as its string and is
    what a later read resolves the string to; and no call probes for ever. *)
Theorem vid_mapping_safe s0 s ts :
  vids_ok s0 -> rtc vid_step (s0, []) (s, ts) ->
  (forall i v, ts !! i <> Some (v, Spin)) /\
  forall i j v w c d, ts !! i = Some (v, Ret (Some c)) -> ts !! j = Some (w, Ret (Some d)) ->
    (v = w <-> c = d) /\ c < 0 /\
    (utf8_valid v = true -> forall n, p_run (display_vid sp (FixedString n) c) s = (Some (Ok (ValueString v)), s)) /\
    (forall n, Z.of_nat (length v) <= n ->
       p_run (resolve_vid sp (FixedString n) (VidString v) false) s = (Some (Ok (Some c)), s)).
Proof.
  intros Hok Hrun. destruct (vid_run_inv s0 Hok _ Hrun) as [_ Hts]. cbn [fst snd] in Hts. split.
  - intros i v Hi. by apply (Forall_lookup_1 _ _ _ _ Hts Hi).
  - intros i j v w c d Hi Hj. pose proof (Forall_lookup_1 _ _ _ _ Hts Hi : mapped v c s) as Hv.
    pose proof (Forall_lookup_1 _ _ _ _ Hts Hj : mapped w d s) as Hw.
    split; [by apply (mapped_inj v w c d s)|]. split; [apply Hv|].
    split; intros; [by apply display_mapped|by apply resolve_mapped].
Qed.

Lemma claim_ok value c s :
  vids_ok s -> negative c -> available value c s = true -> row (forward_key sp value) s = None ->
  vids_ok (claim value c s) /\ mapped value c (claim value c s) /\ kept s (claim value c s) /\
  forall k, k <> forward_key sp value -> k <> reverse_key sp c -> row k (claim value c s) = row k s.
Proof.
  intros Hok Hc Ha Hf. unfold claim, available in *. cbv zeta.
  set (s1 := match row (reverse_key sp c) s with Some _ => s | None => with_data s (om_insert (reverse_key sp c) value (data s)) end).
  assert (H1 : vids_ok s1 /\ kept s s1 /\ row (reverse_key sp c) s1 = Some value /\
    row (forward_key sp value) s1 = None /\ forall k, k <> reverse_key sp c -> row k s1 = row k s).
  { unfold s1. destruct (row (reverse_key sp c) s) as [b|] eqn:E.
    - apply bool_decide_eq_true in Ha as ->. done.
    - split; [by apply insert_reverse_ok|]. split; [apply insert_kept; [apply Hok|done]|]. rewrite !row_insert by apply Hok.
      split; [by rewrite bool_decide_eq_true_2|]. split; [by rewrite bool_decide_eq_false_2 by apply forward_not_reverse|].
      intros k Hk. rewrite row_insert by apply Hok. by rewrite bool_decide_eq_false_2. }
  destruct H1 as (Hok1 & Hk1 & Hr1 & Hf1 & Hrest). split; [by apply insert_forward_ok|].
  assert (Hk2 : kept s1 (with_data s1 (om_insert (forward_key sp value) (i64_to_be c) (data s1)))).
  { apply insert_kept; [apply Hok1|done]. }
  split; [|split; [by transitivity s1|]].
  - split; [done|]. split; [|by apply Hk2; [apply reverse_vid_key|]]. rewrite row_insert by apply Hok1.
    by rewrite bool_decide_eq_true_2.
  - intros k Hkf Hkr. rewrite row_insert by apply Hok1. rewrite bool_decide_eq_false_2 by done. by apply Hrest.
Qed.

(** Resolving a string for a write returns its surrogate if it has one, without
    any change; otherwise it claims one that no other string owns and no vertex or
    edge uses, records both directions and changes nothing else; only if all negative
    integers are taken it fails, without any change. A read of a string without a
    surrogate finds none and creates none. *)
Theorem resolve_vid_creates value n s :
  vids_ok s -> Z.of_nat (length value) <= n ->
  match row (forward_key sp value) s with
  | Some _ => exists c, mapped value c s /\
      p_run (resolve_vid sp (FixedString n) (VidString value) true) s = (Some (Ok (Some c)), s)
  | None =>
      p_run (resolve_vid sp (FixedString n) (VidString value) false) s = (Some (Ok None), s) /\
      ((exists c s', p_run (resolve_vid sp (FixedString n) (VidString value) true) s = (Some (Ok (Some c)), s') /\
          available value c s = true /\ vids_ok s' /\ mapped value c s' /\ kept s s' /\
          forall k, k <> forward_key sp value -> k <> reverse_key sp c -> row k s' = row k s) \/
       (forall c, negative c -> available value c s = false) /\
       p_run (resolve_vid sp (FixedString n) (VidString value) true) s = (Some (Err (err_exhausted sp)), s))
  end.
Proof.
  intros Hok Hn. destruct (row (forward_key sp value) s) as [b|] eqn:E.
  - destruct (proj2 Hok value b E) as (c & Hc & -> & Hr). exists c. assert (Hm : mapped value c s) by done.
    split; [done|]. by apply resolve_mapped.
  - assert (Hres : forall create, p_run (resolve_vid sp (FixedString n) (VidString value) create) s =
      if negb create then (Some (Ok None), s) else
      p_run (p_loop_bounded PROBES (probe sp value (forward_key sp value) (initial_candidate value)) (initial_candidate value)) s).
    { intros create. unfold resolve_vid. cbv zeta. destruct (Z.ltb_spec n (Z.of_nat (length value))); [lia|].
      unfold p_get. cbn [p_bind]. rewrite run_get, E. destruct create; cbn [negb]; reflexivity. }
    split; [apply Hres|]. rewrite (Hres true). cbn [negb].
    destruct (run_probes value s (proj1 Hok) E) as [(c & Hc & Ha & ->)|[Hno ->]]; [left|by right].
    exists c, (claim value c s). split; [done|]. split; [done|]. by apply claim_ok.
Qed.

End facts.

(** The empty store has no mapping. *)
Lemma new_vids_ok sp : vids_ok sp Memory.new.
Proof. split; [repeat split; auto with kv|]. by intros value b. Qed.

Lemma resolve_vid_creates_witness :
  exists c s', p_run (resolve_vid (bs "accounts") (FixedString 8) (VidString (bs "a")) true) Memory.new = (Some (Ok (Some c)), s') /\
    mapped (bs "accounts") (bs "a") c s'.
Proof.
  destruct (resolve_vid_creates (bs "accounts") (bs "a") 8 Memory.new (new_vids_ok _)) as [_ [(c & s' & Hrun & _ & _ & Hm & _)|[Hno _]]];
    [by vm_compute|by exists c, s'|].
  exfalso. specialize (Hno (-1) ltac:(by vm_compute)). by vm_compute in Hno.
Defined.

(** ** Schedules *)

(** A schedule of concurrent statements; an action that is not possible does nothing. *)
Inductive action :=
| Start (n : Z) (value : bytes) (create : bool)
| Step (i : nat)
| Insert (key value : bytes).

Section schedules.
Context (sp : bytes).

Definition perform (a : action) (st : MemoryKVStore * calls) : MemoryKVStore * calls :=
  let '(s, ts) := st in
  match a with
  | Start n value create => (s, ts ++ [(value, resolve_vid sp (FixedString n) (VidString value) create)])
  | Step i =>
      match ts !! i with
      | Some (value, p) => match p_step p s with Some (p', s') => (s', <[i := (value, p')]> ts) | None => st end
      | None => st
      end
  | Insert key value =>
      if starts_with (sp ++ bs ":vid-") key then st else (with_data s (om_insert key value (data s)), ts)
  end.

Lemma p_step_wf {A} (p p' : Prog A) s s' : mem_wf s -> p_step p s = Some (p', s') -> mem_wf s'.
Proof.
  intros Hwf. destruct p as [a|e|key k|pre lim k|key v k|]; simpl; try done; [by intros [= _ <-]..|].
  unfold Memory.put_if_absent. destruct (om_get key (data s)); intros [= _ <-]; [done|by apply insert_wf].
Qed.

Lemma perform_step a st : mem_wf st.1 -> mem_wf (perform a st).1 /\ rtc (vid_step sp) st (perform a st).
Proof.
  destruct st as [s ts]. cbn [fst]. intros Hwf. destruct a as [n v cr|i|k v]; cbn [perform].
  - split; [done|]. apply rtc_once. constructor.
  - destruct (ts !! i) as [[v p]|] eqn:Ei; [|done]. destruct (p_step p s) as [[p' s']|] eqn:Ep; [|done].
    split; [by apply (p_step_wf p p' s)|]. apply rtc_once. by eapply vid_call.
  - destruct (starts_with _ k) eqn:Ek; [done|]. split; [by apply insert_wf|]. apply rtc_once. constructor; [by apply insert_wf|].
    intros k' Hk'. rewrite row_insert by done. rewrite bool_decide_eq_false_2; [done|]. intros ->. unfold vid_key in Hk'. congruence.
Qed.

Lemma schedule_run acts st :
  mem_wf st.1 -> rtc (vid_step sp) st (fold_left (fun st a => perform a st) acts st).
Proof.
  revert st. induction acts as [|a acts IH]; intros st Hwf; [done|]. cbn [fold_left].
  destruct (perform_step a st Hwf) as [Hwf' Hrun]. etransitivity; [exact Hrun|]. by apply IH.
Qed.
End schedules.

(** Two statements insert the vertex ["a"]. The second has seen that the first
    candidate has no owner when the first claims it and writes the vertex. *)
Definition insert_twice : list action :=
  [Start 8 (bs "a") true; Start 8 (bs "a") true; Step 1; Step 1] ++ replicate 7 (Step 0) ++
  [Insert (SchemaKey.vertex (bs "accounts") (initial_candidate (bs "a"))) (bs "v")] ++ replicate 7 (Step 1).

(** Two statements that insert the same new vertex can run so that one of them
    fails with a conflict: it takes the vertex the other has just written for a
    foreign use of the candidate, and leaves a second surrogate that is never used. *)
Theorem vid_concurrent_insert_conflict :
  exists s ts c, rtc (vid_step (bs "accounts")) (Memory.new, []) (s, ts) /\
    ts !! 0%nat = Some (bs "a", Ret (Some c)) /\
    ts !! 1%nat = Some (bs "a", Throw (err_conflict (bs "accounts"))) /\
    row (reverse_key (bs "accounts") (next_candidate c)) s = Some (bs "a").
Proof.
  pose proof (schedule_run (bs "accounts") insert_twice (Memory.new, []) ltac:(apply (new_vids_ok []))) as H.
  destruct (fold_left _ _ _) as [s ts] eqn:E. exists s, ts, (initial_candidate (bs "a")). split; [exact H|].
  assert (Es : s = (fold_left (fun st a => perform (bs "accounts") a st) insert_twice (Memory.new, [])).1) by by rewrite E.
  assert (Et : ts = (fold_left (fun st a => perform (bs "accounts") a st) insert_twice (Memory.new, [])).2) by by rewrite E.
  rewrite Es, Et. clear. split; [|split]; vm_compute; reflexivity.
Qed.

Lemma vid_mapping_safe_witness :
  exists s ts c, rtc (vid_step (bs "accounts")) (Memory.new, []) (s, ts) /\ ts !! 0%nat = Some (bs "a", Ret (Some c)) /\ c < 0.
Proof.
  pose proof (schedule_run (bs "accounts") insert_twice (Memory.new, []) ltac:(apply (new_vids_ok []))) as H.
  eexists _, _, (initial_candidate (bs "a")). split; [exact (eq_rect _ _ H _ (surjective_pairing _))|].
  assert (H0 : (fold_left (fun st a => perform (bs "accounts") a st) insert_twice (Memory.new, [])).2 !! 0%nat =
    Some (bs "a", Ret (Some (initial_candidate (bs "a"))))) by (vm_compute; reflexivity).
  split; [exact H0|].
  destruct (vid_mapping_safe (bs "accounts") Memory.new _ _ (new_vids_ok _)
    (eq_rect _ (fun st => rtc _ _ st) H _ (surjective_pairing _))) as [_ Hs].
  by destruct (Hs _ _ _ _ _ _ H0 H0) as (_ & Hc & _).
Defined.
