(* ===== verification/SpaceDdl.v ===== *)
(** * Spaces and their schemas

    The statements of [byoridb-executor/src/executor/ddl.rs] that create, select and
    drop spaces, tags and edge types on the local store, with the index manager. *)

From Stdlib Require Import ZArith Lia Strings.Byte Strings.String.
From stdpp Require Import base tactics gmap list.
From S2P Require Import Prelude OrdMap History KVStore Text SchemaKey StorageKey IndexManager Hash Exec Vid.

(** [ast::SemanticFlags]. *)
Record SemanticFlags := {
  transitive : bool;
  symmetric : bool;
  inverse_of : option bytes;
  subproperty_of : option bytes;
  domain : option bytes;
  range : option bytes;
  property_chain : option (list bytes);
  equivalent_property : option bytes
}.

(** ** JSON of derived [Serialize] instances *)

Definition json_option {A} (f : A -> JsonValue) (o : option A) : JsonValue :=
  match o with Some a => f a | None => JNull end.

Definition json_semantics (x : SemanticFlags) : JsonValue :=
  JObject [(bs "transitive", JBool (transitive x)); (bs "symmetric", JBool (symmetric x));
           (bs "inverse_of", json_option JString (inverse_of x));
           (bs "subproperty_of", json_option JString (subproperty_of x));
           (bs "domain", json_option JString (domain x)); (bs "range", json_option JString (range x));
           (bs "property_chain", json_option (fun l => JArray (JString <$> l)) (property_chain x));
           (bs "equivalent_property", json_option JString (equivalent_property x))].

Definition json_strategy (p : PartitionStrategy) : JsonValue :=
  match p with
  | PHash => JString (bs "Hash")
  | PRange b => JObject [(bs "Range", JObject [(bs "boundaries", JArray (JInt <$> b))])]
  | PModulo => JString (bs "Modulo")
  end.

(** [str::parse::<u32>]. *)
Definition parse_u32 (l : bytes) : option Z :=
  z ← parse_usize l; if bool_decide (u32_ok z) then Some z else None.

Section ddl.
Context {S : Type} `{KVStoreRequired S} `{KVStoreProvided S}.
Context `{SerdeJson IndexDef} `{SerdeJson JsonValue}.

(** A statement runs on the index manager and the store they share. *)
Abbreviation EX A := (IndexManager * S -> Result ExecutionError A * (IndexManager * S)).

Definition ex_store {A} (c : KVOp S A) : EX A :=
  fun '(m, s) => match c s with
                 | (Ok a, s') => (Ok a, (m, s'))
                 | (Err e, s') => (Err (from_kv_error e), (m, s'))
                 end.

Definition ex_json (v : JsonValue) : EX bytes :=
  match json_to_vec v with Ok b => st_ret b | Err e => st_fail (ExSerialization e) end.

(** A call of the index manager whose result is a plain value, or is not looked at. *)
Definition ex_index {A} (c : IndexManager * S -> Result IndexError A * (IndexManager * S)) : EX (option A) :=
  fun st => match c st with (Ok a, st') => (Ok (Some a), st') | (Err _, st') => (Ok None, st') end.

Definition require_space (selected : option bytes) : EX bytes :=
  match selected with Some space => st_ret space | None => st_fail (InvalidOperation (bs "No space selected")) end.

Definition execute_use (space : bytes) : EX unit :=
  found <-! ex_store (kv_get (SchemaKey.space space)) ;;
  match found with Some _ => st_ret tt | None => st_fail (SpaceNotFound space) end.

Definition allocate_space_id : EX Z :=
  let key := SchemaKey.next_space_id_key in
  found <-! ex_store (kv_get key) ;;
  let id := match found with
            | Some b => default 1 (if utf8_valid b then parse_u32 b else None)
            | None => 1
            end in
  ex_store (kv_put key (dec (u32_add id 1))) ;;!
  st_ret id.

Definition handle_create_space (name : bytes) (if_not_exists : bool) (partition_num replica_factor : Z)
    (vid_type : bytes) (partition_strategy : PartitionStrategy) : EX unit :=
  let space_key := SchemaKey.space name in
  found <-! ex_store (kv_get space_key) ;;
  match found with
  | Some _ =>
      if if_not_exists then st_ret tt
      else st_fail (InvalidOperation (bs "Space " ++ name ++ bs " already exists"))
  | None =>
      id <-! allocate_space_id ;;
      b <-! ex_json (JObject [(bs "id", JInt id); (bs "name", JString name);
                              (bs "partition_num", JInt partition_num);
                              (bs "replica_factor", JInt replica_factor);
                              (bs "vid_type", JString vid_type);
                              (bs "partition_strategy", json_strategy partition_strategy)]) ;;
      ex_store (kv_put space_key b)
  end.

(** The property definitions are the JSON value their [Serialize] instance gives. *)
Definition handle_create_tag (selected : option bytes) (name : bytes) (if_not_exists : bool) (props : JsonValue) :
    EX unit :=
  space <-! require_space selected ;;
  let tag_key := SchemaKey.tag space name in
  found <-! ex_store (kv_get tag_key) ;;
  match found with
  | Some _ =>
      if if_not_exists then st_ret tt
      else st_fail (InvalidOperation (bs "Tag " ++ name ++ bs " already exists"))
  | None =>
      b <-! ex_json (JObject [(bs "name", JString name); (bs "properties", props)]) ;;
      ex_store (kv_put tag_key b)
  end.

Definition inference_dirty_key (space : bytes) : bytes := space ++ bs ":inference:dirty".

(** An edge type a clause refers to is another one, and exists. *)
Definition check_edge_target (space name : bytes) (clause : bytes * option bytes) : EX unit :=
  let '(clause, target) := clause in
  match target with
  | None => st_ret tt
  | Some target =>
      if bool_decide (target = name) then
        st_fail (InvalidOperation (bs "Edge " ++ name ++ bs " cannot be " ++ clause ++ bs " itself"))
      else
      found <-! ex_store (kv_get (SchemaKey.edge space target)) ;;
      match found with
      | Some _ => st_ret tt
      | None => st_fail (InvalidOperation (clause ++ bs " target edge type '" ++ target ++ bs "' does not exist"))
      end
  end.

Definition check_chain_target (space target : bytes) : EX unit :=
  found <-! ex_store (kv_get (SchemaKey.edge space target)) ;;
  match found with
  | Some _ => st_ret tt
  | None => st_fail (InvalidOperation (bs "CHAIN target edge type '" ++ target ++ bs "' does not exist"))
  end.

Definition check_chain (space : bytes) (chain : option (list bytes)) : EX unit :=
  match chain with
  | None => st_ret tt
  | Some chain =>
      if negb (length chain =? 2)%nat then
        st_fail (InvalidOperation (bs "CHAIN must have exactly 2 edge types (got " ++
          dec (Z.of_nat (length chain)) ++ bs "); longer chains are not yet supported"))
      else st_for_each (check_chain_target space) chain
  end.

(** A class a clause refers to exists, as a class or as a tag. *)
Definition check_class_target (space : bytes) (clause : bytes * option bytes) : EX unit :=
  let '(clause, target) := clause in
  match target with
  | None => st_ret tt
  | Some target =>
      is_class <-! ex_store (kv_get (SchemaKey.class space target)) ;;
      is_tag <-! ex_store (kv_get (SchemaKey.tag space target)) ;;
      match is_class, is_tag with
      | None, None =>
          st_fail (InvalidOperation (clause ++ bs " target class '" ++ target ++ bs "' does not exist"))
      | _, _ => st_ret tt
      end
  end.

Definition handle_create_edge (selected : option bytes) (name : bytes) (if_not_exists : bool) (props : JsonValue)
    (semantics : SemanticFlags) : EX unit :=
  space <-! require_space selected ;;
  let edge_key := SchemaKey.edge space name in
  found <-! ex_store (kv_get edge_key) ;;
  match found with
  | Some _ =>
      if if_not_exists then st_ret tt
      else st_fail (InvalidOperation (bs "Edge " ++ name ++ bs " already exists"))
  | None =>
      st_for_each (check_edge_target space name)
        [(bs "INVERSE OF", inverse_of semantics); (bs "SUBPROPERTY OF", subproperty_of semantics);
         (bs "EQUIVALENT TO", equivalent_property semantics)] ;;!
      check_chain space (property_chain semantics) ;;!
      st_for_each (check_class_target space) [(bs "DOMAIN", domain semantics); (bs "RANGE", range semantics)] ;;!
      b <-! ex_json (JObject [(bs "name", JString name); (bs "properties", props);
                              (bs "semantics", json_semantics semantics)]) ;;
      ex_store (kv_batch_apply [(edge_key, b); (inference_dirty_key space, bs "1")] [] [])
  end.

Definition delete_by_prefix (prefix : bytes) : EX nat := ex_store (kv_delete_prefix_chunked prefix (Z.to_nat 10000)).

(** The entries and the definition of one index. *)
Definition drop_space_index (sid : Z) (def : IndexDef) : EX unit :=
  delete_by_prefix (index_prefix (index_type def) 1 (idx_id def)) ;;!
  ex_index (drop_index sid (index_name def)) ;;!
  st_ret tt.

Definition drop_space_indexes (has_index_manager : bool) (space_id : option Z) : EX unit :=
  match has_index_manager, space_id with
  | true, Some sid =>
      tags <-! ex_index (list_tag_indexes sid) ;;
      edges <-! ex_index (list_edge_indexes sid) ;;
      st_for_each (drop_space_index sid) (default [] tags ++ default [] edges)
  | _, _ => st_ret tt
  end.

Definition space_id_of (meta : bytes) : option Z :=
  match json_from_slice meta with
  | Ok v => i ← json_get (bs "id") v; as_u32 <$> json_as_u64 i
  | Err _ => None
  end.

Definition drop_space (has_index_manager : bool) (name : bytes) (if_exists : bool) : EX unit :=
  let space_key := bs "space:" ++ name in
  found <-! ex_store (kv_get space_key) ;;
  match found with
  | None => if if_exists then st_ret tt else st_fail (SpaceNotFound name)
  | Some meta =>
      drop_space_indexes has_index_manager (space_id_of meta) ;;!
      delete_by_prefix (name ++ bs ":") ;;!
      delete_by_prefix (bs "space:" ++ name ++ bs ":") ;;!
      ex_store (kv_delete space_key)
  end.

Definition drop_tag (selected : option bytes) (name : bytes) (if_exists : bool) : EX unit :=
  space <-! require_space selected ;;
  let tag_key := SchemaKey.tag space name in
  found <-! ex_store (kv_get tag_key) ;;
  match found with
  | None => if if_exists then st_ret tt else st_fail (TagNotFound name)
  | Some _ =>
      class <-! ex_store (kv_get (SchemaKey.class space name)) ;;
      match class with
      | Some _ => st_fail (InvalidOperation (name ++ bs " is a class; use DROP CLASS"))
      | None => ex_store (kv_delete tag_key)
      end
  end.

Definition SAMEAS_EDGE : bytes := bs "sameAs".

Definition drop_edge (selected : option bytes) (name : bytes) (if_exists : bool) : EX unit :=
  if bool_decide (name = SAMEAS_EDGE) then
    st_fail (InvalidOperation (bs "the reserved sameAs edge type cannot be dropped — owl:sameAs merges are irreversible (insertion-only)"))
  else
  space <-! require_space selected ;;
  let edge_key := SchemaKey.edge space name in
  found <-! ex_store (kv_get edge_key) ;;
  match found with
  | None => if if_exists then st_ret tt else st_fail (EdgeNotFound name)
  | Some _ => ex_store (kv_batch_apply [(inference_dirty_key space, bs "1")] [edge_key] [])
  end.

End ddl.
