(* ===== verification/DdlFacts.v ===== *)
(** * Dropping a space

    DROP SPACE removes the rows, the indexes and the metadata of the space and
    nothing of another space. *)

From Stdlib Require Import ZArith Lia Strings.Byte Strings.String.
From stdpp Require Import base tactics gmap list.
From S2P Require Import Prelude Codecs OrdMap History KVStore KVStoreFacts KVStoreBatch Text SchemaKey StorageKey IndexManager.
From S2P Require Import IndexDefs Hash Exec Vid SpaceDdl.

Section facts.
Context `{SerdeJson IndexDef, !SerdeJsonLaws IndexDef, !SerdeJsonTotal IndexDef def_ok}.
Context `{SerdeJson JsonValue}.

Abbreviation rowof k s := (om_get k (data s)).

(** ** Indexes *)

(** The definitions depend only on the rows under their prefix. *)
Definition same_defs (s s' : MemoryKVStore) : Prop :=
  forall k, starts_with INDEX_DEF_PREFIX k = true -> rowof k s' = rowof k s.

Lemma index_def_key_prefix a b : starts_with INDEX_DEF_PREFIX (index_def_key a b) = true.
Proof. apply starts_with_app. Qed.

Lemma same_defs_stored s s' d : same_defs s s' -> stored_def s' d <-> stored_def s d.
Proof. intros Hs. unfold stored_def. by rewrite Hs by apply index_def_key_prefix. Qed.

Lemma same_defs_ok s s' : same_defs s s' -> defs_ok s -> defs_ok s'.
Proof.
  intros Hs [Hr Hn]. split.
  - intros k v Hk Hp. rewrite Hs in Hk by done. by apply (Hr k v).
  - intros d1 d2 H1 H2. by apply Hn; [apply (same_defs_stored s s')|apply (same_defs_stored s s')].
Qed.

Lemma same_defs_coherent m s s' : same_defs s s' -> coherent m s -> coherent m s'.
Proof.
  intros Hs [H1 H2 H3 H4 H5]. split; [done|..|done].
  - intros k d. by rewrite (same_defs_stored s).
  - intros k i. rewrite H3. by setoid_rewrite (same_defs_stored s s').
  - intros d Hd. by apply H4, (same_defs_stored s s').
Qed.

Definition entry_of (d : IndexDef) (k : bytes) : bool := starts_with (index_prefix (index_type d) 1 (idx_id d)) k.

(** Entry keys start with a zero byte. *)
Lemma entry_first d k : entry_of d k = true -> head k = Some x00.
Proof.
  unfold entry_of. rewrite starts_with_iff. intros [l ->].
  unfold index_prefix, KeyUtils.tag_index_prefix, KeyUtils.edge_index_prefix. by destruct (index_type d).
Qed.

Lemma delete_prefix_run prefix (m : IndexManager) s :
  mem_wf s -> exists n s', delete_by_prefix prefix (m, s) = (Ok n, (m, s')) /\ mem_wf s' /\ history s' = history s /\
    forall k, rowof k s' = if starts_with prefix k then None else rowof k s.
Proof.
  intros Hwf. unfold delete_by_prefix, ex_store. cbn [kv_delete_prefix_chunked memory_provided].
  rewrite delete_prefix_rows by done. eexists _, _. split; [reflexivity|]. split; [by apply delete_prefix_wf|].
  split; [done|]. intros k. by apply delete_prefix_get.
Qed.

(** One index is dropped: its entries and its definition go. *)
Lemma drop_space_index_run sid d m s :
  mem_wf s -> defs_ok s -> coherent m s -> stored_def s d -> idx_space_id d = sid ->
  exists m' s', drop_space_index sid d (m, s) = (Ok tt, (m', s')) /\ mem_wf s' /\ defs_ok s' /\ coherent m' s' /\
    history s' = history s /\ (forall d', stored_def s' d' <-> stored_def s d' /\ d' <> d) /\
    forall k, rowof k s' = if entry_of d k || bool_decide (k = index_def_key sid (idx_id d)) then None else rowof k s.
Proof.
  intros Hwf Hok Hcoh Hd Hsid.
  destruct (delete_prefix_run (index_prefix (index_type d) 1 (idx_id d)) m s Hwf) as (n & s1 & Hdel & Hwf1 & Hh1 & Hrow1).
  assert (Hsame : same_defs s s1).
  { intros k Hk. rewrite Hrow1. destruct (starts_with (index_prefix _ _ _) k) eqn:E; [|done].
    apply (entry_first d) in E. apply starts_with_iff in Hk as [l ->]. discriminate E. }
  pose proof (same_defs_ok _ _ Hsame Hok) as Hok1. pose proof (same_defs_coherent m _ _ Hsame Hcoh) as Hcoh1.
  assert (Hd1 : stored_def s1 d) by by apply (same_defs_stored s s1).
  assert (Hdn : def_name d = (sid, index_name d)) by (unfold def_name; by rewrite Hsid).
  destruct (drop_coherent sid (index_name d) d m s1 Hwf1 Hok1 Hcoh1 Hd1 Hdn) as (m' & s2 & Hdrop & Hwf2 & Hok2 & Hcoh2 & [Hix _] & Es2).
  exists m', s2. unfold drop_space_index, st_bind at 1. rewrite Hdel. unfold st_bind, ex_index. rewrite Hdrop.
  split; [done|]. do 3 (split; [done|]). split; [by rewrite Es2|]. split.
  - intros d'. pose proof (coh_defs _ _ Hcoh2 (def_key d') d') as H2. pose proof (coh_defs _ _ Hcoh1 (def_key d') d') as H1'.
    rewrite Hix, lookup_delete_Some in H2. rewrite <- (same_defs_stored s s1) by done. split.
    + intros Hs. destruct (proj2 H2 (conj Hs eq_refl)) as [Hne Hlk]. apply H1' in Hlk as [? _]. split; [done|].
      intros ->. apply Hne. unfold def_key. by rewrite Hsid.
    + intros [Hs Hne]. apply H2. split; [|by apply H1']. intros E. apply Hne, (stored_def_key s1); [done..|].
      rewrite <- E. unfold def_key. by rewrite Hsid.
  - intros k. rewrite Es2. cbn [data with_data]. rewrite om_get_remove_decide by apply Hwf1. rewrite Hrow1. unfold entry_of.
    case_bool_decide; [by rewrite orb_true_r|by rewrite orb_false_r].
Qed.

Definition index_row (sid : Z) (k : bytes) (d : IndexDef) : bool :=
  entry_of d k || bool_decide (k = index_def_key sid (idx_id d)).

Lemma drop_indexes_run sid ds m s :
  mem_wf s -> defs_ok s -> coherent m s -> NoDup ds -> (forall d, d ∈ ds -> stored_def s d /\ idx_space_id d = sid) ->
  exists m' s', st_for_each (drop_space_index sid) ds (m, s) = (Ok tt, (m', s')) /\ mem_wf s' /\ defs_ok s' /\ coherent m' s' /\
    history s' = history s /\ (forall d', stored_def s' d' <-> stored_def s d' /\ d' ∉ ds) /\
    forall k, rowof k s' = if existsb (index_row sid k) ds then None else rowof k s.
Proof.
  revert m s. induction ds as [|d ds IH]; intros m s Hwf Hok Hcoh Hnd Hds.
  { exists m, s. split; [done|]. do 4 (split; [done|]). split; [|done]. intros d'. rewrite elem_of_nil. tauto. }
  apply NoDup_cons in Hnd as [Hd Hnd]. destruct (Hds d ltac:(by left)) as [Hsd Hsid].
  destruct (drop_space_index_run sid d m s Hwf Hok Hcoh Hsd Hsid) as (m1 & s1 & Hrun & Hwf1 & Hok1 & Hcoh1 & Hh1 & Hst1 & Hrow1).
  destruct (IH m1 s1 Hwf1 Hok1 Hcoh1 Hnd) as (m2 & s2 & Hrun2 & Hwf2 & Hok2 & Hcoh2 & Hh2 & Hst2 & Hrow2).
  { intros d' Hd'. destruct (Hds d' ltac:(by right)) as [Hs' ?]. split; [|done]. apply Hst1. split; [done|]. by intros ->. }
  exists m2, s2. cbn [st_for_each]. unfold st_bind. rewrite Hrun, Hrun2. split; [done|]. do 3 (split; [done|]). split; [congruence|]. split.
  - intros d'. rewrite Hst2, Hst1, elem_of_cons. tauto.
  - intros k. rewrite Hrow2, Hrow1. cbn [existsb]. unfold index_row at 2. destruct (existsb _ ds); [by rewrite orb_true_r|].
    by rewrite orb_false_r.
Qed.

Lemma values_nodup {K} `{Countable K} {V} (f : V -> K) (m : gmap K V) :
  (forall k v, m !! k = Some v -> f v = k) -> NoDup (map_to_list m).*2.
Proof.
  intros Hf. apply (NoDup_fmap_1 f). replace (f <$> (map_to_list m).*2) with ((map_to_list m).*1); [apply NoDup_fst_map_to_list|].
  rewrite <- list_fmap_compose. apply list_fmap_ext. intros i [k v] Hi. simpl. symmetry. apply Hf, elem_of_map_to_list.
  by eapply list_elem_of_lookup_2.
Qed.

Lemma definitions_elem f m s d : coherent m s -> d ∈ definitions f m <-> stored_def s d /\ f d = true.
Proof.
  intros Hcoh. unfold definitions. rewrite filter_elem, list_elem_of_fmap. split.
  - intros [([k d'] & -> & Hk%elem_of_map_to_list) Hf]. apply (coh_defs _ _ Hcoh) in Hk as [? _]. done.
  - intros [Hd Hf]. split; [|done]. exists (def_key d, d). split; [done|]. apply elem_of_map_to_list, (coh_defs _ _ Hcoh). done.
Qed.

Lemma definitions_nodup f m s : coherent m s -> NoDup (definitions f m).
Proof.
  intros Hcoh. unfold definitions. apply NoDup_ListNoDup, List.NoDup_filter, NoDup_ListNoDup.
  apply (values_nodup def_key). intros k d Hk. by apply (coh_defs _ _ Hcoh) in Hk as [_ ?].
Qed.

Lemma drop_space_indexes_run sid m s :
  mem_wf s -> defs_ok s -> coherent m s ->
  exists m' s' ds, drop_space_indexes true (Some sid) (m, s) = (Ok tt, (m', s')) /\ mem_wf s' /\ defs_ok s' /\ coherent m' s' /\
    history s' = history s /\ (forall d, d ∈ ds <-> stored_def s d /\ idx_space_id d = sid) /\
    (forall d, stored_def s' d <-> stored_def s d /\ idx_space_id d <> sid) /\
    forall k, rowof k s' = if existsb (index_row sid k) ds then None else rowof k s.
Proof.
  intros Hwf Hok Hcoh.
  set (ft := fun d => (idx_space_id d =? sid) && bool_decide (index_type d = IndexTag)).
  set (fe := fun d => (idx_space_id d =? sid) && bool_decide (index_type d = IndexEdge)).
  set (ds := definitions ft m ++ definitions fe m).
  assert (Hds : forall d, d ∈ ds <-> stored_def s d /\ idx_space_id d = sid).
  { intros d. unfold ds. rewrite elem_of_app, !(definitions_elem _ m s) by done. unfold ft, fe.
    rewrite !andb_true_iff, !bool_decide_eq_true, Z.eqb_eq. destruct (index_type d); intuition discriminate. }
  assert (Hnd : NoDup ds).
  { apply NoDup_app. split; [by apply (definitions_nodup _ _ s)|]. split; [|by apply (definitions_nodup _ _ s)].
    intros d. rewrite !(definitions_elem _ m s) by done. unfold ft, fe. rewrite !andb_true_iff, !bool_decide_eq_true.
    intros (_ & _ & H1) (_ & _ & H2). congruence. }
  destruct (drop_indexes_run sid ds m s Hwf Hok Hcoh Hnd ltac:(intros d; apply Hds)) as (m' & s' & Hrun & ? & ? & ? & ? & Hst & Hrow).
  exists m', s', ds. split; [|do 4 (split; [done|]); split; [done|split; [|done]]].
  - unfold drop_space_indexes, st_bind, ex_index, list_tag_indexes, list_edge_indexes, ensure_loaded_or_log, ensure_loaded,
      get_manager, st_bind, st_ret. rewrite (coh_loaded _ _ Hcoh). cbv beta iota. rewrite (coh_loaded _ _ Hcoh). exact Hrun.
  - intros d. rewrite Hst, Hds. destruct (Z.eq_dec (idx_space_id d) sid); tauto.
Qed.

(** ** Rows *)

(** The row belongs to the space. *)
Definition of_space (name : bytes) (r : Row) : bool :=
  match r with
  | Space n => bool_decide (n = name)
  | Schema _ sp _ | Data sp _ => bool_decide (sp = name)
  | NextSpaceId => false
  end.

Lemma identifier_head s : identifier s = true -> exists b l, s = b :: l /\ b <> x00.
Proof.
  destruct s as [|b l]; [done|]. intros Hi. exists b, l. split; [done|]. intros ->. discriminate Hi.
Qed.

Lemma row_not_entry r d : row_ok r -> entry_of d (row_key r) = false.
Proof.
  intros Hr. destruct (entry_of d (row_key r)) eqn:E; [|done]. apply entry_first in E. exfalso.
  destruct r as [n|k sp n|sp r|]; [discriminate E|by destruct k| |discriminate E].
  destruct Hr as [Hsp _]. apply identifier_head in Hsp as (b & l & -> & Hb). destruct r; simpl in E; congruence.
Qed.

Lemma row_not_def r a b : row_ok r -> row_key r <> index_def_key a b.
Proof.
  intros Hr E. rewrite row_key_segments in E.
  change (index_def_key a b) with (join_colon [bs "__meta"; bs "index_def"; dec a; dec b]) in E.
  apply join_colon_inj in E; [|apply segments_nonempty|done|by apply segments_colon_free|].
  - destruct r as [n|[] sp n|sp []|]; discriminate E.
  - segment_ok.
Qed.

Lemma row_is_space name r : identifier name = true -> row_ok r -> unreserved_row r -> row_key r = SchemaKey.space name <-> r = Space name.
Proof.
  intros Hn Hr Hu. split; [|by intros ->]. intros E. change (SchemaKey.space name) with (row_key (Space name)) in E.
  rewrite !row_key_segments in E. apply join_colon_inj in E;
    [|apply segments_nonempty|done|by apply segments_colon_free|by apply segments_colon_free].
  destruct r as [n|[] sp n|sp []|]; try discriminate E; simpl in *; congruence.
Qed.

Lemma meta_prefix_key name k :
  identifier name = true -> name <> bs "__meta" -> starts_with INDEX_DEF_PREFIX k = true ->
  starts_with (name ++ bs ":") k = false /\ starts_with (bs "space:" ++ name ++ bs ":") k = false /\ k <> SchemaKey.space name.
Proof.
  intros Hn Hne Hk. apply starts_with_iff in Hk as [l ->].
  split; [|split; [reflexivity|discriminate]]. destruct (starts_with _ _) eqn:E; [|done]. exfalso. apply Hne.
  apply starts_with_iff in E as [l' E].
  apply (f_equal split_colon) in E. rewrite <- (assoc_L (++)) in E. change (bs ":" ++ l') with (COLON :: l') in E.
  rewrite (split_colon_app name l') in E by by apply identifier_colon_free. by injection E.
Qed.

(** The rows DROP SPACE removes, whatever the name. *)
Definition dropped (name : bytes) (sid : Z) (ds : list IndexDef) (k : bytes) : bool :=
  bool_decide (k = SchemaKey.space name) || starts_with (bs "space:" ++ name ++ bs ":") k ||
  starts_with (name ++ bs ":") k || existsb (index_row sid k) ds.

Lemma drop_space_run name ie sid meta m s :
  mem_wf s -> defs_ok s -> coherent m s -> rowof (SchemaKey.space name) s = Some meta -> space_id_of meta = Some sid ->
  exists m' s1 s' ds, drop_space true name ie (m, s) = (Ok tt, (m', s')) /\ mem_wf s' /\ coherent m' s1 /\ history s' = history s /\
    (forall d, d ∈ ds <-> stored_def s d /\ idx_space_id d = sid) /\
    (forall d, stored_def s1 d <-> stored_def s d /\ idx_space_id d <> sid) /\
    (forall k, rowof k s1 = if existsb (index_row sid k) ds then None else rowof k s) /\
    forall k, rowof k s' = if dropped name sid ds k then None else rowof k s.
Proof.
  intros Hwf Hok Hcoh Hsp Hsid.
  destruct (drop_space_indexes_run sid m s Hwf Hok Hcoh) as (m1 & s1 & ds & Hrun1 & Hwf1 & Hok1 & Hcoh1 & Hh1 & Hds & Hst1 & Hrow1).
  destruct (delete_prefix_run (name ++ bs ":") m1 s1 Hwf1) as (n2 & s2 & Hrun2 & Hwf2 & Hh2 & Hrow2).
  destruct (delete_prefix_run (bs "space:" ++ name ++ bs ":") m1 s2 Hwf2) as (n3 & s3 & Hrun3 & Hwf3 & Hh3 & Hrow3).
  set (s4 := with_data s3 (om_remove (SchemaKey.space name) (data s3))).
  exists m1, s1, s4, ds. split; [|split; [|split; [done|split; [simpl; congruence|do 3 (split; [done|])]]]].
  - unfold drop_space, st_bind at 1, ex_store at 1. cbn [kv_get memory_required]. unfold Memory.get.
    change (bs "space:" ++ name) with (SchemaKey.space name). rewrite Hsp, Hsid. unfold st_bind. rewrite Hrun1.
    rewrite Hrun2, Hrun3. reflexivity.
  - split; [apply om_remove_wf, Hwf3|apply Hwf3].
  - intros k. unfold s4, dropped. cbn [data with_data]. rewrite om_get_remove_decide, Hrow3, Hrow2, Hrow1 by apply Hwf3.
    case_bool_decide; [done|]. cbn [orb].
    by destruct (starts_with (bs "space:" ++ name ++ bs ":") k), (starts_with (name ++ bs ":") k), (existsb (index_row sid k) ds).
Qed.

Lemma dropped_row name sid ds r :
  identifier name = true -> name <> RESERVED -> name <> bs "__meta" -> row_ok r -> unreserved_row r ->
  dropped name sid ds (row_key r) = of_space name r.
Proof.
  intros Hn Hres Hmeta Hr Hu. unfold dropped.
  assert (Hidx : existsb (index_row sid (row_key r)) ds = false).
  { apply not_true_iff_false. intros (d & _ & Hd)%existsb_exists. unfold index_row in Hd.
    rewrite row_not_entry in Hd by done. apply bool_decide_eq_true in Hd. by apply row_not_def in Hd. }
  rewrite Hidx, orb_false_r. destruct (of_space name r) eqn:Eo.
  + destruct r as [n|k sp n|sp r|]; try done; apply bool_decide_eq_true in Eo as ->.
    * by rewrite bool_decide_eq_true_2.
    * pose proof (proj2 (prefix_covers (PSchemaOf name) (Schema k name n) Hn Hr I Hu) eq_refl) as E. cbn [prefix_key] in E.
      by rewrite E, orb_true_r.
    * pose proof (proj2 (prefix_covers (PDataOf name) (Data name r) Hn Hr (conj Hres Hmeta) Hu) eq_refl) as E.
      cbn [prefix_key] in E. by rewrite E, !orb_true_r.
  + rewrite bool_decide_eq_false_2 by (intros ->%row_is_space; [|done..]; cbn [of_space] in Eo; by rewrite bool_decide_eq_true_2 in Eo).
    destruct (starts_with (bs "space:" ++ name ++ bs ":") (row_key r)) eqn:E1.
    { apply (prefix_covers (PSchemaOf name) r Hn Hr I Hu) in E1. destruct r; simpl in *; try done. by rewrite bool_decide_eq_true_2 in Eo. }
    destruct (starts_with (name ++ bs ":") (row_key r)) eqn:E2; [|done].
    apply (prefix_covers (PDataOf name) r Hn Hr (conj Hres Hmeta) Hu) in E2. destruct r; simpl in *; try done.
    by rewrite bool_decide_eq_true_2 in Eo.
Qed.

(** ** Other keys of a space *)

Lemma prefix_same_space a b l :
  identifier a = true -> identifier b = true -> starts_with (a ++ bs ":") (b ++ bs ":" ++ l) = bool_decide (b = a).
Proof.
  intros Ha Hb. case_bool_decide as E; [subst; rewrite (assoc_L (++)); apply starts_with_app|].
  apply not_true_iff_false. intros [l' El]%starts_with_iff. apply E. rewrite <- (assoc_L (++)) in El.
  apply (f_equal split_colon) in El. change (bs ":" ++ l) with (COLON :: l) in El. change (bs ":" ++ l') with (COLON :: l') in El.
  rewrite !split_colon_app in El by by apply identifier_colon_free. by injection El.
Qed.

(** A key under the prefix of a space, whatever follows, is no row of an index and no
    schema object; so are the keys of its schema. *)
Lemma space_prefix_dropped name sid ds sp l :
  identifier name = true -> identifier sp = true -> name <> RESERVED -> sp <> RESERVED -> sp <> bs "__meta" ->
  dropped name sid ds (sp ++ bs ":" ++ l) = bool_decide (sp = name).
Proof.
  intros Hn Hsp Hres Hr Hm. unfold dropped. rewrite prefix_same_space by done.
  assert (Hno : starts_with (RESERVED ++ bs ":") (sp ++ bs ":" ++ l) = false).
  { rewrite prefix_same_space by done. by apply bool_decide_eq_false_2. }
  rewrite bool_decide_eq_false_2.
  2: { intros E. rewrite E in Hno. change (SchemaKey.space name) with ((RESERVED ++ bs ":") ++ name) in Hno.
       by rewrite starts_with_app in Hno. }
  destruct (starts_with (bs "space:" ++ name ++ bs ":") (sp ++ bs ":" ++ l)) eqn:E1.
  { exfalso. apply starts_with_iff in E1 as [l' El]. rewrite El in Hno.
    change (bs "space:") with (RESERVED ++ bs ":") in Hno. by rewrite <- (assoc_L (++)), starts_with_app in Hno. }
  assert (Hidx : existsb (index_row sid (sp ++ bs ":" ++ l)) ds = false).
  { apply not_true_iff_false. intros (d & _ & Hd)%existsb_exists. unfold index_row in Hd.
    apply orb_true_iff in Hd as [Hd%entry_first|Hd%bool_decide_eq_true].
    - apply identifier_head in Hsp as (b & r & -> & Hb). simpl in Hd. congruence.
    - apply Hm. apply (f_equal split_colon) in Hd. change (bs ":" ++ l) with (COLON :: l) in Hd.
      rewrite split_colon_app in Hd by by apply identifier_colon_free. by injection Hd. }
  by rewrite Hidx, orb_false_r.
Qed.

(** No two definitions share an identifier; a new one gets an identifier above all. *)
Definition ids_distinct (s : MemoryKVStore) : Prop :=
  forall d1 d2, stored_def s d1 -> stored_def s d2 -> idx_id d1 = idx_id d2 -> d1 = d2.

Lemma create_ids_distinct ty sp name sid sname fs fis m s m' s' :
  mem_wf s -> defs_ok s -> coherent m s -> u32_ok sp -> next_index_id m < two32 - 1 -> index_names m !! (sp, name) = None ->
  create_index ty sp name sid sname fs fis (m, s) = (Ok (next_index_id m), (m', s')) -> ids_distinct s -> ids_distinct s'.
Proof.
  intros Hwf Hok Hcoh Hsp Hid Hfree Hc Hids.
  destruct (create_coherent ty sp name sid sname fs fis m s Hwf Hok Hcoh Hsp Hid Hfree)
    as (m1 & s1 & Hc1 & _ & _ & Hcoh1 & d & _ & Hdi & _ & _ & Hix & _).
  rewrite Hc in Hc1. injection Hc1 as <- <-.
  assert (Hold : forall d', stored_def s' d' -> d' = d \/ (stored_def s d' /\ idx_id d' < next_index_id m)).
  { intros d' Hd'. assert (Hl : indexes m' !! def_key d' = Some d') by by apply (coh_defs _ _ Hcoh1).
    rewrite Hix in Hl. apply lookup_insert_Some in Hl as [[_ ->]|[_ Hl]]; [by left|right].
    apply (coh_defs _ _ Hcoh) in Hl as [Hs _]. split; [done|]. by apply (coh_next _ _ Hcoh). }
  intros d1 d2 [->|[H1 L1]]%Hold [->|[H2 L2]]%Hold E; [done|lia|lia|by apply Hids].
Qed.

(** Entries of two indexes with different identifiers are different. *)
Lemma entry_of_id d d' k : def_ok d -> def_ok d' -> entry_of d k = true -> entry_of d' k = true -> idx_id d = idx_id d'.
Proof.
  intros [_ Hd]%def_ok_u32 [_ Hd']%def_ok_u32. unfold entry_of. rewrite !starts_with_iff. intros [l ->] [l' E].
  unfold index_prefix, KeyUtils.tag_index_prefix, KeyUtils.edge_index_prefix in E.
  assert (Hb : be_bytes 4 (idx_id d) = be_bytes 4 (idx_id d')).
  { destruct (index_type d), (index_type d'); rewrite <- !(assoc_L (++)) in E; apply app_inv_head in E;
      (apply app_inj_1 in E as [_ E]; [|done]); (apply app_inj_1 in E as [E _]; [done|by rewrite !length_be_bytes]). }
  rewrite <- (of_be_be_bytes_small 4 (idx_id d)), <- (of_be_be_bytes_small 4 (idx_id d')) by done. by rewrite Hb.
Qed.

(** An entry goes exactly if it belongs to an index of the space. *)
Lemma entry_dropped name sid ds d k :
  identifier name = true -> entry_of d k = true -> dropped name sid ds k = existsb (fun d' => entry_of d' k) ds.
Proof.
  intros Hn Hk. apply entry_first in Hk as Hh. apply identifier_head in Hn as (b & l & -> & Hb). unfold dropped.
  destruct k as [|c k]; [done|]. injection Hh as ->.
  rewrite bool_decide_eq_false_2 by discriminate.
  assert (Hno : forall c p, c <> x00 -> starts_with (c :: p) (x00 :: k) = false).
  { intros c p Hc. apply not_true_iff_false. intros [l' E]%starts_with_iff. simpl in E. congruence. }
  assert (E1 : starts_with ((b :: l) ++ bs ":") (x00 :: k) = false) by by apply Hno.
  assert (E2 : starts_with (bs "space:" ++ (b :: l) ++ bs ":") (x00 :: k) = false) by by apply Hno.
  rewrite E1, E2.
  cbn [orb]. apply Bool.eq_iff_eq_true. rewrite !existsb_exists. unfold index_row.
  split; intros (d' & Hin & Hd'); exists d'; (split; [done|]); [|by rewrite Hd'].
  apply orb_true_iff in Hd' as [?|Hd'%bool_decide_eq_true]; [done|discriminate Hd'].
Qed.

(** C16: DROP SPACE of a space that does not exist changes nothing and fails, or
    succeeds under IF EXISTS. For an existing space, whose metadata has an identifier,
    it succeeds and removes the space, every row whose key starts with its name (data,
    string ids, marks), its schema objects, its index definitions and their entries.
    Every such row of another space stays as it is, the entries of its indexes
    included, and so do the counter of space identifiers and the version history. It holds
    for names as the lexer accepts them, other than [space] and [__meta], and when no
    two index definitions share an identifier, which creating an index preserves. *)
Theorem drop_space_exact name ie m s :
  mem_wf s -> defs_ok s -> coherent m s -> ids_distinct s ->
  identifier name = true -> name <> RESERVED -> name <> bs "__meta" ->
  match rowof (SchemaKey.space name) s with
  | None => drop_space true name ie (m, s) = (if ie then Ok tt else Err (SpaceNotFound name), (m, s))
  | Some meta => forall sid, space_id_of meta = Some sid ->
      exists m' s', drop_space true name ie (m, s) = (Ok tt, (m', s')) /\ mem_wf s' /\ coherent m' s' /\ history s' = history s /\
        (forall r, row_ok r -> unreserved_row r -> rowof (row_key r) s' = if of_space name r then None else rowof (row_key r) s) /\
        (forall sp l, identifier sp = true -> sp <> RESERVED -> sp <> bs "__meta" ->
           rowof (sp ++ bs ":" ++ l) s' = if bool_decide (sp = name) then None else rowof (sp ++ bs ":" ++ l) s) /\
        (forall d, stored_def s' d <-> stored_def s d /\ idx_space_id d <> sid) /\
        (forall d k, stored_def s d -> entry_of d k = true -> rowof k s' = if idx_space_id d =? sid then None else rowof k s)
  end.
Proof.
  intros Hwf Hok Hcoh Hids Hn Hres Hmeta. destruct (rowof (SchemaKey.space name) s) as [meta|] eqn:Hsp.
  2: { unfold drop_space, st_bind, ex_store. cbn [kv_get memory_required]. unfold Memory.get.
       change (bs "space:" ++ name) with (SchemaKey.space name). rewrite Hsp. by destruct ie. }
  intros sid Hsid. destruct (drop_space_run name ie sid meta m s Hwf Hok Hcoh Hsp Hsid)
    as (m1 & s1 & s4 & ds & Hrun & Hwf4 & Hcoh1 & Hh & Hds & Hst1 & Hrow1 & Hrow4).
  assert (Hsame : same_defs s1 s4).
  { intros k Hk. destruct (meta_prefix_key name k Hn Hmeta Hk) as (E1 & E2 & E3). unfold dropped in Hrow4.
    rewrite Hrow4, E1, E2, Hrow1. by rewrite bool_decide_eq_false_2. }
  exists m1, s4. split; [done|]. split; [done|]. split; [by apply (same_defs_coherent m1 s1)|]. split; [done|].
  split; [intros r Hr Hu; by rewrite Hrow4, dropped_row|].
  split; [intros sp l Hi Hr Hm; by rewrite Hrow4, space_prefix_dropped|]. split.
  - intros d. rewrite (same_defs_stored s1 s4) by done. apply Hst1.
  - intros d k Hd Hk. rewrite Hrow4, (entry_dropped _ _ _ d) by done.
    destruct (Z.eqb_spec (idx_space_id d) sid) as [E|E].
    + rewrite (proj2 (existsb_exists _ ds)); [done|]. exists d. by rewrite <- list_elem_of_In, Hds.
    + destruct (existsb _ ds) eqn:Ee; [|done]. apply existsb_exists in Ee as (d' & Hin%list_elem_of_In%Hds & Hd').
      destruct Hin as [Hs' <-]. destruct E. f_equal. apply Hids; [done..|].
      by eapply entry_of_id; [apply Hd|apply Hs'|..].
Qed.

(** C38: dropping a space called [space], a name the parser accepts, removes the
    metadata and the schema objects of every space. *)
Theorem drop_space_named_space ie sid meta m s :
  mem_wf s -> defs_ok s -> coherent m s -> rowof (SchemaKey.space RESERVED) s = Some meta -> space_id_of meta = Some sid ->
  exists m' s', drop_space true RESERVED ie (m, s) = (Ok tt, (m', s')) /\
    (forall n, rowof (SchemaKey.space n) s' = None) /\ (forall k sp n, rowof (schema_key k sp n) s' = None).
Proof.
  intros Hwf Hok Hcoh Hsp Hsid.
  destruct (drop_space_run RESERVED ie sid meta m s Hwf Hok Hcoh Hsp Hsid) as (m' & s1 & s' & ds & Hrun & _ & _ & _ & _ & _ & _ & Hrow).
  exists m', s'. split; [done|].
  assert (Hpre : forall l, rowof (bs "space:" ++ l) s' = None).
  { intros l. rewrite Hrow. unfold dropped. change (RESERVED ++ bs ":") with (bs "space:"). rewrite starts_with_app.
    by rewrite orb_true_r. }
  split; [intros n; apply Hpre|]. intros [] sp n; apply Hpre.
Qed.
End facts.

(** Space metadata reduced to the identifier. *)
#[local] Instance id_json : SerdeJson JsonValue := {|
  json_to_vec v := Ok (default [] (i ← json_get (bs "id") v; dec <$> json_as_u64 i));
  json_from_slice b :=
    match parse_usize b with Some z => Ok (JObject [(bs "id", JInt z)]) | None => Err "syntax"%string end
|}.
#[local] Existing Instance ref_json.

Definition with_space (name : bytes) : MemoryKVStore := (Memory.put (SchemaKey.space name) (bs "7") Memory.new).2.

Lemma with_space_ok name :
  mem_wf (with_space name) /\ defs_ok (with_space name) /\ coherent empty_manager (with_space name).
Proof.
  destruct empty_coherent as (H1 & H2 & H3).
  assert (Hs : same_defs Memory.new (with_space name)).
  { intros k Hk. apply starts_with_iff in Hk as [l ->]. reflexivity. }
  split; [split; [apply om_insert_wf, om_wf_nil|apply H1]|]. split; [by apply (same_defs_ok Memory.new)|].
  by apply (same_defs_coherent _ Memory.new).
Qed.

(** Two spaces [g] and [h], each with a tag, a vertex, a string id, an index on the
    tag and an entry of it. *)
Definition space_rows (sp : bytes) (sid index : Z) : list kv_pair :=
  [(SchemaKey.space sp, dec sid); (SchemaKey.tag sp (bs "t"), bs "{}"); (SchemaKey.vertex sp 1, bs "v");
   (forward_key sp (bs "alice"), dec (-1)); (reverse_key sp (-1), bs "alice");
   (KeyUtils.tag_index_key 1 index [] 1, [])].
Definition two_spaces : MemoryKVStore :=
  with_data Memory.new (om_insert_all (space_rows (bs "g") 7 1 ++ space_rows (bs "h") 8 2) []).

Lemma two_spaces_ok :
  mem_wf two_spaces /\ defs_ok two_spaces /\ coherent empty_manager two_spaces /\ ids_distinct two_spaces.
Proof.
  destruct empty_coherent as (H1 & H2 & H3).
  assert (Hs : same_defs Memory.new two_spaces).
  { intros k Hk. unfold two_spaces. destruct (om_get k (data (with_data Memory.new _))) eqn:E; [|done].
    apply om_get_elem in E; [|apply om_insert_all_wf, om_wf_nil].
    assert (Hall : forallb (fun kv => negb (starts_with INDEX_DEF_PREFIX kv.1)) (data two_spaces) = true) by (vm_compute; reflexivity).
    rewrite forallb_forall in Hall. apply list_elem_of_In, Hall in E. cbn [fst] in E. by rewrite Hk in E. }
  split_and!; [split; [apply om_insert_all_wf, om_wf_nil|apply H1]|by apply (same_defs_ok Memory.new)|
    by apply (same_defs_coherent _ Memory.new)|].
  intros d1 d2 Hd1. apply (same_defs_stored Memory.new) in Hd1; [|done]. by destruct Hd1 as [_ (b & Hg & _)].
Qed.

Definition with_index (sid : Z) (name : bytes) (st : IndexManager * MemoryKVStore) : IndexManager * MemoryKVStore :=
  (@create_tag_index _ _ (ref_json IndexDef) sid name 1 (bs "t") [] [] st).2.
Definition indexed_spaces : IndexManager * MemoryKVStore :=
  with_index 8 (bs "hi") (with_index 7 (bs "gi") (empty_manager, two_spaces)).

Definition indexes_ok_in (st : IndexManager * MemoryKVStore) : Prop :=
  mem_wf st.2 /\ defs_ok st.2 /\ coherent st.1 st.2 /\ ids_distinct st.2.

Lemma with_index_ok sid name st :
  indexes_ok_in st -> u32_ok sid -> next_index_id st.1 < two32 - 1 -> index_names st.1 !! (sid, name) = None ->
  indexes_ok_in (with_index sid name st).
Proof.
  destruct st as [m s]. intros (H1 & H2 & H3 & H4) Hs Hn Hf. cbn [fst snd] in *.
  destruct (@create_coherent (ref_json IndexDef) (ref_json_laws IndexDef) (ref_json_total IndexDef def_ok)
    IndexTag sid name 1 (bs "t") [] [] m s H1 H2 H3 Hs Hn Hf) as (m' & s' & Hc & H1' & H2' & H3' & _).
  unfold with_index, create_tag_index, indexes_ok_in. rewrite Hc. cbn [fst snd]. split_and!; [done..|].
  exact (@create_ids_distinct (ref_json IndexDef) (ref_json_laws IndexDef) (ref_json_total IndexDef def_ok)
    IndexTag sid name 1 (bs "t") [] [] m s m' s' H1 H2 H3 Hs Hn Hf Hc H4).
Qed.

Lemma indexed_spaces_ok : indexes_ok_in indexed_spaces.
Proof.
  apply with_index_ok; [apply with_index_ok; [apply two_spaces_ok|..]|..]; by vm_compute.
Qed.

(** Dropping [g] removes its rows and its index entry and keeps those of [h]. *)
Lemma drop_space_exact_witness :
  exists m' s', drop_space true (bs "g") false indexed_spaces = (Ok tt, (m', s')) /\
    om_get (SchemaKey.vertex (bs "g") 1) (data s') = None /\
    om_get (forward_key (bs "g") (bs "alice")) (data s') = None /\
    om_get (KeyUtils.tag_index_key 1 1 [] 1) (data s') = None /\
    om_get (SchemaKey.vertex (bs "h") 1) (data s') = Some (bs "v") /\
    om_get (forward_key (bs "h") (bs "alice")) (data s') = Some (dec (-1)) /\
    om_get (KeyUtils.tag_index_key 1 2 [] 1) (data s') = Some [].
Proof.
  destruct indexed_spaces_ok as (H1 & H2 & H3 & H4).
  pose proof (@drop_space_exact (ref_json IndexDef) id_json (bs "g") false indexed_spaces.1 indexed_spaces.2 H1 H2 H3 H4
    ltac:(by vm_compute) ltac:(by vm_compute) ltac:(by vm_compute)) as H.
  assert (Hsp : om_get (SchemaKey.space (bs "g")) (data indexed_spaces.2) = Some (bs "7")) by (vm_compute; reflexivity).
  rewrite Hsp in H. destruct (H 7 ltac:(by vm_compute)) as (m' & s' & Hrun & _ & _ & _ & _ & Hrows & _ & Hent).
  assert (Hd : forall sid id name, indexes indexed_spaces.1 !! (sid, id) = Some
     {| idx_id := id; idx_space_id := sid; index_name := name; index_type := IndexTag; schema_id := 1;
        schema_name := bs "t"; fields := []; field_indices := [] |} -> forall k,
     starts_with (KeyUtils.tag_index_prefix 1 id) k = true ->
     om_get k (data s') = if sid =? 7 then None else om_get k (data indexed_spaces.2)).
  { intros sid id name Hix k Hk. apply (coh_defs _ _ H3) in Hix as [Hix _]. exact (Hent _ k Hix Hk). }
  exists m', s'. split; [exact Hrun|].
  split; [exact (Hrows (bs "g") (bs "vertex:1") ltac:(by vm_compute) ltac:(by vm_compute) ltac:(by vm_compute))|].
  split; [exact (Hrows (bs "g") (bs "vid-map:" ++ encode_component (bs "alice")) ltac:(by vm_compute) ltac:(by vm_compute) ltac:(by vm_compute))|].
  split; [rewrite (Hd 7 1 (bs "gi") ltac:(vm_compute; reflexivity)); vm_compute; reflexivity|].
  split; [etransitivity; [exact (Hrows (bs "h") (bs "vertex:1") ltac:(by vm_compute) ltac:(by vm_compute) ltac:(by vm_compute))|vm_compute; reflexivity]|].
  split; [etransitivity; [exact (Hrows (bs "h") (bs "vid-map:" ++ encode_component (bs "alice")) ltac:(by vm_compute) ltac:(by vm_compute) ltac:(by vm_compute))|vm_compute; reflexivity]|].
  rewrite (Hd 8 2 (bs "hi") ltac:(vm_compute; reflexivity)); vm_compute; reflexivity.
Defined.

Lemma drop_space_named_space_witness :
  exists m' s', drop_space true (bs "space") false (empty_manager, with_space (bs "space")) = (Ok tt, (m', s')) /\
    om_get (SchemaKey.space (bs "other")) (data s') = None.
Proof.
  destruct (with_space_ok (bs "space")) as (H1 & H2 & H3).
  destruct (@drop_space_named_space (ref_json IndexDef) id_json false 7 (bs "7") empty_manager _ H1 H2 H3)
    as (m' & s' & Hrun & Hrows & _); [by vm_compute..|].
  exists m', s'. split; [exact Hrun|apply Hrows].
Defined.
