(* ===== verification/DmlStaging.v ===== *)
(** * Statement-local staging of writes

    [byoridb-executor/src/executor/dml_atomic.rs]: [MutationStore], a store that
    keeps a statement's writes aside and shows them over the store below it, and
    [execute_dml_atomically], which runs a statement over it and commits all of its
    writes in one batch. *)

From Stdlib Require Import ZArith Lia Strings.Byte Strings.String.
From stdpp Require Import base tactics list.
From S2P Require Import Prelude OrdMap History KVStore KVDyn Exec.

(** Staged values: [None] is a deletion. *)
Record Changes := mkChanges {
  ch_values : list (bytes * option bytes);
  ch_versions : list VersionRow;
  ch_bytes : Z
}.

Definition no_changes : Changes := mkChanges [] [] 0.

Record MutationStore (S : Type) := mkMutation {
  base : S;
  changes : Changes;
  max_bytes : Z
}.
Arguments mkMutation {S} _ _ _.
Arguments base {S} _.
Arguments changes {S} _.
Arguments max_bytes {S} _.

Definition with_base {S} (o : MutationStore S) (b : S) : MutationStore S := mkMutation b (changes o) (max_bytes o).
Definition with_changes {S} (o : MutationStore S) (c : Changes) : MutationStore S := mkMutation (base o) c (max_bytes o).

(** [usize] arithmetic that saturates. *)
Definition USIZE_MAX : Z := two64 - 1.
Definition saturating_add (a b : Z) : Z := Z.min (a + b) USIZE_MAX.
Definition saturating_sub (a b : Z) : Z := Z.max (a - b) 0.
Definition saturating_mul (a b : Z) : Z := Z.min (a * b) USIZE_MAX.

Definition len (l : bytes) : Z := Z.of_nat (length l).
Definition value_len (v : option bytes) : Z := match v with Some v => len v | None => 0 end.

(** The size a staged value is counted with: [key.len() + value.len() + 64]. *)
Definition entry_size (key : bytes) (value : option bytes) : Z :=
  u64_add (u64_add (len key) (value_len value)) 64.

Definition err_staging : KVStoreError :=
  Io "DML staging exceeds max_memory_mb; no statement writes were committed".
Definition err_counter : KVStoreError :=
  Io "Invalid degree counter: expected exactly 8 bytes; no statement writes committed".
Definition err_counter_range : KVStoreError :=
  Io "Degree counter overflow or underflow; no statement writes committed".

(** [sort_by_key] with key [Reverse((valid_from, tx))]: a stable sort. *)
Fixpoint insert_newest (r : VersionRecord) (l : list VersionRecord) : list VersionRecord :=
  match l with
  | [] => [r]
  | r' :: l' => if version_ge r r' then r :: l else r' :: insert_newest r l'
  end.
Definition sort_newest (l : list VersionRecord) : list VersionRecord := foldr insert_newest [] l.

(** The elements of a [BTreeSet] built from a list. *)
Definition sorted_set (l : list bytes) : list bytes :=
  (om_insert_all ((fun k => (k, tt)) <$> l) []).*1.

(** Staged values over the rows of a scan. *)
Definition overlay (rows : list kv_pair) (change : bytes * option bytes) : list kv_pair :=
  match change with
  | (k, Some v) => om_insert k v rows
  | (k, None) => om_remove k rows
  end.

Module Mutation.
Section store.
Context {S : Type} `{DynKVStore S}.
Abbreviation Staged := (MutationStore S).

Definition new (b : S) (max_memory_mb : Z) : Staged :=
  mkMutation b no_changes (saturating_mul max_memory_mb (1024 * 1024)).

(** A call of the store below. *)
Definition on_base {A} (c : kv_call A) : KVOp Staged A :=
  fun o => let '(r, b) := dyn_call c (base o) in (r, with_base o b).

Definition check_size (n : Z) : KVOp Staged unit :=
  fun o => if negb (max_bytes o =? 0) && (max_bytes o <? n) then (Err err_staging, o) else (Ok tt, o).

Definition set (key : bytes) (v : option bytes) : KVOp Staged unit :=
  fun o =>
    let old := match om_get key (ch_values (changes o)) with Some v => entry_size key v | None => 0 end in
    let new := entry_size key v in
    let total := saturating_add (saturating_sub (ch_bytes (changes o)) old) new in
    (check_size total ;;?
     fun o => (Ok tt, with_changes o (mkChanges (om_insert key v (ch_values (changes o)))
                                        (ch_versions (changes o)) total))) o.

Definition commit : KVOp Staged unit :=
  fun o =>
    let c := changes o in
    let o := with_changes o no_changes in
    let puts := filter_map (fun kv => match kv.2 with Some v => Some (kv.1, v) | None => None end) (ch_values c) in
    let deletes := filter_map (fun kv => match kv.2 with Some _ => None | None => Some kv.1 end) (ch_values c) in
    match puts, deletes, ch_versions c with
    | [], [], [] => (Ok tt, o)
    | _, _, _ => on_base (call_batch_apply puts deletes (ch_versions c)) o
    end.

Definition get (key : bytes) : KVOp Staged (option bytes) :=
  fun o =>
    match om_get key (ch_values (changes o)) with
    | Some v => (Ok v, o)
    | None => on_base (call_get key) o
    end.

Definition put (key v : bytes) : KVOp Staged unit := set key (Some v).

Definition put_if_absent (key v : bytes) : KVOp Staged (option bytes) :=
  existing <-? get key ;;
  match existing with
  | Some existing => kv_ret (Some existing)
  | None => put key v ;;? kv_ret None
  end.

Definition delete (key : bytes) : KVOp Staged unit := set key None.

Definition batch_put (pairs : list kv_pair) : KVOp Staged unit :=
  kv_for_each (fun kv => set kv.1 (Some kv.2)) pairs.

Definition batch_delete (keys : list bytes) : KVOp Staged unit := kv_for_each (fun k => set k None) keys.

Definition batch_put_version (versions : list VersionRow) : KVOp Staged unit :=
  fun o =>
    let total := fold_left (fun size '(key, _, _, _, v) =>
      saturating_add size (u64_add (u64_add (len key) (len v)) 64)) versions (ch_bytes (changes o)) in
    (check_size total ;;?
     fun o => (Ok tt, with_changes o (mkChanges (ch_values (changes o))
                                        (ch_versions (changes o) ++ versions) total))) o.

Definition put_version (key : bytes) (from to tx : Z) (v : bytes) : KVOp Staged unit :=
  batch_put_version [(key, from, to, tx, v)].

Definition scan_history (key : bytes) : KVOp Staged (list VersionRecord) :=
  rows <-? on_base (call_scan_history key) ;;
  fun o =>
    let staged := row_record <$>
      List.filter (fun r => bool_decide (row_entity r = key)) (ch_versions (changes o)) in
    (Ok (sort_newest (rows ++ staged)), o).

Definition scan_history_entity_keys (prefix : bytes) : KVOp Staged (list bytes) :=
  keys <-? on_base (call_entity_keys prefix) ;;
  fun o =>
    let staged := row_entity <$>
      List.filter (fun r => starts_with prefix (row_entity r)) (ch_versions (changes o)) in
    (Ok (sorted_set (keys ++ staged)), o).

Definition scan_prefix (prefix : bytes) : KVOp Staged (list kv_pair) :=
  rows <-? on_base (call_scan_prefix prefix) ;;
  fun o =>
    (Ok (fold_left overlay (List.filter (fun c => starts_with prefix c.1) (ch_values (changes o)))
           (om_insert_all rows [])), o).

Fixpoint batch_get (keys : list bytes) : KVOp Staged (list (option bytes)) :=
  match keys with
  | [] => kv_ret []
  | k :: keys =>
      v <-? get k ;;
      rows <-? batch_get keys ;;
      kv_ret (v :: rows)
  end.

(** [checked_add] on [i64]. *)
Definition checked_add (a b : Z) : option Z := if bool_decide (i64_ok (a + b)) then Some (a + b) else None.

Definition add_counter (kd : bytes * Z) : KVOp Staged unit :=
  let '(key, delta) := kd in
  cell <-? get key ;;
  match match cell with
        | Some b => if (length b =? 8)%nat then Some (i64_of_le b) else None
        | None => Some 0
        end with
  | None => fun o => (Err err_counter, o)
  | Some current =>
      match checked_add current delta with
      | None => fun o => (Err err_counter_range, o)
      | Some updated => if updated <=? 0 then delete key else put key (i64_to_le updated)
      end
  end.

Definition add_counters (deltas : list (bytes * Z)) : KVOp Staged unit := kv_for_each add_counter deltas.

Definition batch_apply (puts : list kv_pair) (deletes : list bytes) (versions : list VersionRow) :
    KVOp Staged unit :=
  batch_put puts ;;? batch_delete deletes ;;? batch_put_version versions.

#[global] Instance mutation_required : KVStoreRequired Staged := {|
  kv_get := get;
  kv_put := put;
  kv_put_if_absent := put_if_absent;
  kv_delete := delete;
  kv_batch_put := batch_put;
  kv_batch_delete := batch_delete;
  kv_put_version := put_version;
  kv_scan_history := scan_history;
  kv_scan_history_entity_keys := scan_history_entity_keys;
  kv_batch_put_version := batch_put_version;
  kv_scan_prefix := scan_prefix;
  kv_batch_get := batch_get
|}.

(** [MutationStore] inherits the methods it does not override. *)
Definition staged_run {A} (c : kv_call A) : KVOp Staged A :=
  match c with
  | call_get k => get k
  | call_put k v => put k v
  | call_put_if_absent k v => put_if_absent k v
  | call_delete k => delete k
  | call_batch_put pairs => batch_put pairs
  | call_batch_delete keys => batch_delete keys
  | call_checkpoint => kv_ret tt
  | call_count_prefix p => default_count_prefix p
  | call_count_prefixes ps => default_count_prefixes ps
  | call_add_counters deltas => add_counters deltas
  | call_batch_get keys => batch_get keys
  | call_scan_prefix p => scan_prefix p
  | call_scan_range start stop limit => default_scan_range start stop limit
  | call_scan_with_filter p f limit => default_scan_with_filter p f limit
  | call_visit _ p f visitor limit x => default_scan_with_filter_visit p f visitor limit x
  | call_put_version e vf vt t v => put_version e vf vt t v
  | call_scan_history e => scan_history e
  | call_batch_put_version versions => batch_put_version versions
  | call_entity_keys p => scan_history_entity_keys p
  | call_batch_apply puts deletes versions => batch_apply puts deletes versions
  | call_get_as_of e valid_at tx_at => default_get_as_of e valid_at tx_at
  end.

#[global] Instance mutation_dyn : DynKVStore Staged := @staged_run.
End store.
End Mutation.

(** ** Statements *)

(** A statement as the store calls it makes; it stops at the first that fails. *)
Inductive Statement (A : Type) : Type :=
| Finish (r : Result ExecutionError A)
| Call (B : Type) (c : kv_call B) (k : B -> Statement A).
Arguments Finish {A} _.
Arguments Call {A} B _ _.

Fixpoint run_statement {S A} `{DynKVStore S} (p : Statement A) (s : S) : Result ExecutionError A * S :=
  match p with
  | Finish r => (r, s)
  | Call B c k =>
      match dyn_call c s with
      | (Ok b, s') => run_statement (k b) s'
      | (Err e, s') => (Err (from_kv_error e), s')
      end
  end.

(** [scope] is the space the statement is about, if there is one; [statement] the
    executor of a DML plan for a space, [None] for another plan. *)
Definition execute_dml_atomically {S A} `{DynKVStore S} (scope : option bytes) (max_memory_mb : Z)
    (statement : bytes -> option (Statement A)) (s : S) : Result ExecutionError A * S :=
  match scope with
  | None => (Err (InvalidOperation (bs "No space selected")), s)
  | Some space =>
      let staged := Mutation.new s max_memory_mb in
      match statement space with
      | None => (Err (InvalidOperation (bs "Expected DML statement")), s)
      | Some p =>
          match run_statement p staged with
          | (Err e, staged) => (Err e, base staged)
          | (Ok result, staged) =>
              match Mutation.commit staged with
              | (Ok _, staged) => (Ok result, base staged)
              | (Err e, staged) => (Err (from_kv_error e), base staged)
              end
          end
      end
  end.
