(* ===== verification/DmlStagingFacts.v ===== *)
(** * A DML statement is atomic

    The staged store shows what the store below would hold after the commit, and
    a statement run over it takes effect as a whole or not at all, on the in-memory
    store and on redb. *)

From Stdlib Require Import ZArith Lia Strings.Byte Strings.String.
From stdpp Require Import base tactics list sorting.
From S2P Require Import Prelude OrdMap History KVStore KVStoreFacts KVStoreBatch KVDyn KVRedb KVRedbFacts Exec DmlStaging.

(** What the staged store needs of the store below: the five methods it calls
    behave as those of the in-memory store. *)
Class StagedBase (S : Type) `{DynKVStore S} := {
  base_view : S -> MemoryKVStore;
  base_get k : store_refines base_view (dyn_call (call_get k)) (Memory.get k);
  base_scan_prefix p : store_refines base_view (dyn_call (call_scan_prefix p)) (Memory.scan_prefix p);
  base_scan_history e : store_refines base_view (dyn_call (call_scan_history e)) (Memory.scan_history e);
  base_entity_keys p :
    store_refines base_view (dyn_call (call_entity_keys p)) (Memory.scan_history_entity_keys p);
  base_batch_apply puts deletes versions :
    store_refines base_view (dyn_call (call_batch_apply puts deletes versions))
      (Memory.batch_apply puts deletes versions)
}.

#[global] Program Instance memory_base : StagedBase MemoryKVStore := {| base_view s := s |}.
Solve Obligations with (intros; intros s0 [r0|e0] s1 E0; [exact E0|discriminate E0]).

#[global] Instance redb_dyn {Database WriteTxn ReadTxn} {ops : RedbOps Database WriteTxn ReadTxn} :
  DynKVStore (RedbKVStore Database) := @redb_run Database WriteTxn ReadTxn ops.

#[global] Instance redb_base {Database WriteTxn ReadTxn} {ops : RedbOps Database WriteTxn ReadTxn}
    {laws : RedbLaws Database WriteTxn ReadTxn} : StagedBase (RedbKVStore Database) := {|
  base_view := view;
  base_get := read_get_refines;
  base_scan_prefix := scan_prefix_refines;
  base_scan_history := scan_history_refines;
  base_entity_keys := entity_keys_refines;
  base_batch_apply := batch_apply_refines
|}.

(** ** Staged values over a table *)

Lemma overlay_wf rows c : om_wf rows -> om_wf (overlay rows c).
Proof. destruct c as [k [v|]]; simpl; auto with kv. Qed.

Lemma overlay_all_wf vs rows : om_wf rows -> om_wf (fold_left overlay vs rows).
Proof. revert rows. induction vs; intros rows Hwf; simpl; auto using overlay_wf. Qed.

Lemma overlay_get (vs : list (bytes * option bytes)) rows k :
  om_wf vs -> om_wf rows ->
  om_get k (fold_left overlay vs rows) =
    match om_get k vs with Some v => v | None => om_get k rows end.
Proof.
  revert rows. induction vs as [|[k0 v0] vs IH]; intros rows Hvs Hrows; [done|]. cbn [fold_left om_get].
  rewrite IH; [|by eapply om_wf_tail|by apply overlay_wf].
  assert (Hnone : cmp k k0 <> Gt -> om_get k vs = None).
  { intros Hc. apply om_get_below. intros k' v' Hin. pose proof (om_wf_head _ _ _ _ _ Hvs Hin) as Hlt.
    destruct (cmp k k0) eqn:E; [apply cmp_eq_iff in E; by subst| |done]. by eapply cmp_lt_trans. }
  destruct (cmp k k0) eqn:E.
  - rewrite Hnone by done. apply cmp_eq_iff in E. subst k0.
    destruct v0 as [v0|]; simpl; [rewrite om_get_insert by done|rewrite om_get_remove by done]; by rewrite cmp_refl.
  - rewrite Hnone by done.
    destruct v0 as [v0|]; simpl; [rewrite om_get_insert by done|rewrite om_get_remove by done]; by rewrite E.
  - destruct (om_get k vs); [done|].
    destruct v0 as [v0|]; simpl; [rewrite om_get_insert by done|rewrite om_get_remove by done]; by rewrite E.
Qed.

Lemma overlay_insert (vs : list (bytes * option bytes)) rows k v :
  om_wf vs -> om_wf rows ->
  fold_left overlay (om_insert k v vs) rows = overlay (fold_left overlay vs rows) (k, v).
Proof.
  intros Hvs Hrows. pose proof (overlay_all_wf vs rows Hrows) as Hall.
  apply om_ext; [by apply overlay_all_wf|by apply overlay_wf|]. intros k'.
  rewrite overlay_get; [|by apply om_insert_wf|done]. rewrite om_get_insert by done.
  destruct v as [v|]; cbn [overlay]; [rewrite om_get_insert by done|rewrite om_get_remove by done];
    rewrite overlay_get by done; by destruct (cmp k' k).
Qed.

(** ** The staged store shows the store after the commit *)

Section staging.
Context {S : Type} `{StagedBase S}.
Abbreviation Staged := (MutationStore S).

(** What the tables below would hold after the commit. *)
Definition staged_view (o : Staged) : MemoryKVStore :=
  {| data := fold_left overlay (ch_values (changes o)) (data (base_view (base o)));
     history := om_insert_all (version_entry <$> ch_versions (changes o)) (history (base_view (base o))) |}.

Definition tables_wf (s : MemoryKVStore) : Prop := om_wf (data s) /\ om_wf (history s).

Definition staged_wf (o : Staged) : Prop := om_wf (ch_values (changes o)) /\ tables_wf (base_view (base o)).

(** A call that succeeds acts as the in-memory call on the tables after the commit;
    the tables below stay as they are in any case. *)
Definition stages {A} (c : KVOp Staged A) (m : KVOp MemoryKVStore A) : Prop :=
  forall o r o', staged_wf o -> c o = (r, o') ->
  staged_wf o' /\ base_view (base o') = base_view (base o) /\
  match r with Ok a => m (staged_view o) = (Ok a, staged_view o') | Err _ => True end.

Lemma staged_view_wf o : staged_wf o -> tables_wf (staged_view o).
Proof. intros (Hv & Hd & Hh). split; [by apply overlay_all_wf|by apply om_insert_all_wf]. Qed.

Lemma stages_ret {A} (a : A) : stages (kv_ret a) (kv_ret a).
Proof. intros o r o' Ho [= <- <-]. done. Qed.

Lemma stages_bind {A B} c m (k : A -> KVOp Staged B) (k' : A -> KVOp MemoryKVStore B) :
  stages c m -> (forall a, stages (k a) (k' a)) -> stages (kv_bind c k) (kv_bind m k').
Proof.
  intros Hc Hk o r o' Ho. unfold kv_bind. destruct (c o) as [[a|e] o1] eqn:E.
  - destruct (Hc _ _ _ Ho E) as (Ho1 & Hb1 & ->). intros E2.
    destruct (Hk a _ _ _ Ho1 E2) as (Ho2 & Hb2 & Hm). by rewrite Hb2.
  - intros [= <- <-]. by destruct (Hc _ _ _ Ho E) as (? & ? & _).
Qed.

Lemma stages_ext {A} (c c' : KVOp Staged A) (m m' : KVOp MemoryKVStore A) :
  stages c m -> (forall o, c' o = c o) -> (forall s, tables_wf s -> m s = m' s) -> stages c' m'.
Proof.
  intros Hc Hcc Hmm o r o' Ho E. rewrite Hcc in E. rewrite <- Hmm by by apply staged_view_wf. by apply Hc.
Qed.

Lemma stages_for_each {A} (f : A -> KVOp Staged unit) (f' : A -> KVOp MemoryKVStore unit) l :
  (forall a, stages (f a) (f' a)) -> stages (kv_for_each f l) (kv_for_each f' l).
Proof. intros Hf. induction l as [|a l IH]; simpl; [apply stages_ret|]. by apply stages_bind. Qed.

(** A read of the store below. *)
Lemma on_base_read {A} (c : kv_call A) (m : MemoryKVStore -> A) o r o' :
  store_refines base_view (dyn_call c) (fun s => (Ok (m s), s)) ->
  staged_wf o -> Mutation.on_base c o = (r, o') ->
  staged_wf o' /\ base_view (base o') = base_view (base o) /\ changes o' = changes o /\
  staged_view o' = staged_view o /\
  match r with Ok a => a = m (base_view (base o)) | Err _ => True end.
Proof.
  intros Hc [Hv Ht]. unfold Mutation.on_base. destruct (dyn_call c (base o)) as [r1 b] eqn:E.
  apply Hc in E. intros [= <- <-].
  assert (Hb : base_view b = base_view (base o)) by (destruct r1; [by injection E|by destruct E]).
  unfold staged_wf, staged_view. cbn [with_base base changes]. rewrite Hb.
  split_and!; try done. destruct r1; [by injection E as ->|done].
Qed.

(** A read of the store below, whose rows are then combined with staged ones. *)
Lemma stages_read {A B} (c : kv_call A) (m : MemoryKVStore -> A) (f : A -> Changes -> B) (g : MemoryKVStore -> B) :
  store_refines base_view (dyn_call c) (fun s => (Ok (m s), s)) ->
  (forall o, staged_wf o -> f (m (base_view (base o))) (changes o) = g (staged_view o)) ->
  stages (a <-? Mutation.on_base c ;; fun o => (Ok (f a (changes o)), o)) (fun s => (Ok (g s), s)).
Proof.
  intros Hc Hf o r o' Ho. unfold kv_bind.
  destruct (Mutation.on_base c o) as [[a|e] o1] eqn:E;
    destruct (on_base_read c m _ _ _ Hc Ho E) as (Ho1 & Hb1 & Hch & Hview & Ha); intros [= <- <-]; [|done].
  split_and!; [done..|]. by rewrite Hview, Hch, Ha, Hf.
Qed.

(** *** Reads and writes of the current view *)

Lemma stages_check n : stages (Mutation.check_size n) (kv_ret tt).
Proof.
  intros o r o' Ho. unfold Mutation.check_size.
  destruct (negb (max_bytes o =? 0) && (max_bytes o <? n)); by intros [= <- <-].
Qed.

Lemma stages_set k v : stages (Mutation.set k v) (fun s => (Ok tt, with_data s (overlay (data s) (k, v)))).
Proof.
  intros o r o' (Hv & Hb). unfold Mutation.set, kv_bind, Mutation.check_size. pose proof Hb as [Hd _].
  match goal with |- context [if ?b then _ else _] => destruct b end; intros [= <- <-]; [done|].
  split; [split; [by apply om_insert_wf|done]|]. split; [done|].
  unfold staged_view, with_data. cbn [data history changes with_changes base ch_values ch_versions].
  by rewrite overlay_insert.
Qed.

Lemma stages_get k : stages (Mutation.get k) (Memory.get k).
Proof.
  intros o r o' Ho. pose proof Ho as (Hv & Hd & _). unfold Mutation.get.
  assert (Hg : om_get k (data (staged_view o)) =
      match om_get k (ch_values (changes o)) with Some v => v | None => om_get k (data (base_view (base o))) end)
    by by apply overlay_get.
  destruct (om_get k (ch_values (changes o))) as [v|] eqn:E.
  - intros [= <- <-]. unfold Memory.get. by rewrite Hg.
  - intros Hr. destruct (on_base_read (call_get k) (fun s => om_get k (data s)) _ _ _ (base_get k) Ho Hr)
      as (Ho1 & Hb1 & _ & Hview & Ha). split_and!; [done..|]. destruct r as [a|e]; [|done].
    unfold Memory.get. by rewrite Hview, Hg, Ha.
Qed.

Lemma prefix_overlay p (vs : list (bytes * option bytes)) rows :
  om_wf vs -> om_wf rows ->
  fold_left overlay (List.filter (fun c => starts_with p c.1) vs)
    (List.filter (fun kv => starts_with p kv.1) rows) =
  List.filter (fun kv => starts_with p kv.1) (fold_left overlay vs rows).
Proof.
  intros Hvs Hrows.
  assert (Hf : forall V (l : list (bytes * V)) k, om_wf l ->
    om_get k (List.filter (fun kv => starts_with p kv.1) l) = if starts_with p k then om_get k l else None).
  { intros V l k Hl. apply option_eq. intros v. rewrite om_get_elem by by apply om_filter_wf.
    rewrite list_elem_of_In, filter_In, <- list_elem_of_In, <- om_get_elem by done. simpl.
    destruct (starts_with p k); naive_solver. }
  assert (om_wf (fold_left overlay vs rows)) by by apply overlay_all_wf.
  apply om_ext; [by apply overlay_all_wf, om_filter_wf|by apply om_filter_wf|]. intros k.
  rewrite overlay_get, !Hf, overlay_get by auto using om_filter_wf. by destruct (starts_with p k).
Qed.

Lemma stages_scan_prefix p : stages (Mutation.scan_prefix p) (Memory.scan_prefix p).
Proof.
  apply (stages_read (call_scan_prefix p)
    (fun s => take_while (fun kv => starts_with p kv.1) (om_range_from p (data s)))
    (fun rows c => fold_left overlay (List.filter (fun c => starts_with p c.1) (ch_values c)) (om_insert_all rows []))
    (fun s => take_while (fun kv => starts_with p kv.1) (om_range_from p (data s)))); [apply base_scan_prefix|].
  intros o Ho. pose proof Ho as (Hv & Hd & _). pose proof (staged_view_wf o Ho) as [Hd' _].
  rewrite !prefix_walk by done. rewrite om_insert_all_self by by apply om_filter_wf. by apply prefix_overlay.
Qed.

Lemma stages_put_if_absent k v : stages (Mutation.put_if_absent k v) (Memory.put_if_absent k v).
Proof.
  eapply stages_ext; [|done|]; [apply (stages_bind _ (Memory.get k) _ (fun existing => match existing with
      | Some existing => kv_ret (Some existing) | None => Memory.put k v ;;? kv_ret None end)); [apply stages_get|]|].
  - intros [existing|]; [apply stages_ret|]. apply stages_bind; [apply stages_set|]. intros _. apply stages_ret.
  - intros s _. unfold kv_bind, Memory.get, Memory.put_if_absent. by destruct (om_get k (data s)).
Qed.

Lemma stages_batch_put pairs : stages (Mutation.batch_put pairs) (Memory.batch_put pairs).
Proof.
  unfold Mutation.batch_put. eapply stages_ext; [eapply stages_for_each; intros a; apply stages_set|done|].
  intros s _. revert s. induction pairs as [|[k v] pairs IH]; intros s; [by destruct s|].
  cbn [kv_for_each]. unfold kv_bind. rewrite IH. done.
Qed.

Lemma stages_batch_delete keys : stages (Mutation.batch_delete keys) (Memory.batch_delete keys).
Proof.
  unfold Mutation.batch_delete. eapply stages_ext; [eapply stages_for_each; intros a; apply stages_set|done|].
  intros s _. revert s. induction keys as [|k keys IH]; intros s; [by destruct s|].
  cbn [kv_for_each]. unfold kv_bind. rewrite IH. done.
Qed.

Lemma stages_batch_put_version rows : stages (Mutation.batch_put_version rows) (Memory.batch_put_version rows).
Proof.
  intros o r o' Ho. unfold Mutation.batch_put_version, kv_bind, Mutation.check_size.
  match goal with |- context [if ?b then _ else _] => destruct b end; intros [= <- <-]; [done|].
  split; [done|]. split; [done|]. unfold Memory.batch_put_version, staged_view, with_history, om_insert_all.
  cbn [data history changes with_changes base ch_values ch_versions].
  by rewrite fmap_app, fold_left_app.
Qed.

Lemma stages_batch_apply puts deletes rows :
  stages (Mutation.batch_apply puts deletes rows) (Memory.batch_apply puts deletes rows).
Proof.
  apply (stages_ext (Mutation.batch_apply puts deletes rows) _
    (Memory.batch_put puts ;;? Memory.batch_delete deletes ;;? Memory.batch_put_version rows)); [|done..].
  apply stages_bind; [apply stages_batch_put|intros _].
  apply stages_bind; [apply stages_batch_delete|intros _]. apply stages_batch_put_version.
Qed.

Lemma stages_batch_get keys : stages (Mutation.batch_get keys) (Memory.batch_get keys).
Proof.
  induction keys as [|k keys IH]; simpl.
  - eapply stages_ext; [apply stages_ret|done..].
  - apply (stages_ext (Mutation.batch_get (k :: keys)) _
      (v <-? Memory.get k ;; vs <-? Memory.batch_get keys ;; kv_ret (v :: vs)) _); [|done..].
    apply stages_bind; [apply stages_get|intros v]. apply stages_bind; [apply IH|intros; apply stages_ret].
Qed.

(** The strict counters agree with the trait's where they succeed. *)
Lemma stages_add_counter kd : stages (Mutation.add_counter kd) (default_add_counter kd).
Proof.
  destruct kd as [k delta]. apply stages_bind; [apply stages_get|]. intros cell.
  assert (Herr : forall e (m : KVOp MemoryKVStore unit), stages (fun o => (Err e, o)) m) by (by intros e m o r o' Ho [= <- <-]).
  assert (Hadd : forall current, stages
      (match Mutation.checked_add current delta with
       | Some updated => if updated <=? 0 then Mutation.delete k else Mutation.put k (i64_to_le updated)
       | None => fun o => (Err err_counter_range, o) end)
      (let new := as_i64 (current + delta) in if new <=? 0 then Memory.delete k else Memory.put k (i64_to_le new))).
  { intros current. unfold Mutation.checked_add. case_bool_decide as Hok; [|done].
    cbv zeta. rewrite as_i64_id by done. destruct (current + delta <=? 0); apply stages_set. }
  destruct cell as [b|]; [|apply (Hadd 0)]. cbn [counter_value].
  destruct (Nat.eqb_spec (length b) 8) as [Hl|Hl]; [|done].
  rewrite (proj2 (Nat.leb_le 8 (length b))), take_ge by lia. apply Hadd.
Qed.

(** *** Every method of the current view *)

Definition reads_history {A} (c : kv_call A) : bool :=
  match c with
  | call_scan_history _ | call_entity_keys _ | call_get_as_of _ _ _ => true
  | _ => false
  end.

Lemma staged_call {A} (c : kv_call A) : reads_history c = false -> stages (Mutation.staged_run c) (mem_run c).
Proof.
  assert (Hcount : forall p, stages (default_count_prefix p) (default_count_prefix p))
    by (intros p; apply stages_bind; [apply stages_scan_prefix|intros; apply stages_ret]).
  assert (Hfilter : forall p f limit, stages (default_scan_with_filter p f limit) (Memory.scan_with_filter p f limit))
    by (intros p f limit; apply (stages_ext (default_scan_with_filter p f limit) _ (default_scan_with_filter p f limit));
        [|done..]; apply stages_bind; [apply stages_scan_prefix|intros; apply stages_ret]).
  destruct c as [| | | | | | | |ps| | | |start stop limit| | X p f visitor limit x|e vf vt t v| | | | |];
    intros Hh; try discriminate Hh; simpl; try apply stages_set.
  - apply stages_get.
  - apply stages_put_if_absent.
  - apply stages_batch_put.
  - apply stages_batch_delete.
  - apply stages_ret.
  - apply Hcount.
  - clear Hh. induction ps as [|p ps IH]; simpl; [apply stages_ret|].
    apply stages_bind; [apply Hcount|intros n]. apply stages_bind; [apply IH|intros; apply stages_ret].
  - apply stages_for_each. intros a. apply stages_add_counter.
  - apply stages_batch_get.
  - apply stages_scan_prefix.
  - eapply (stages_ext _ _ (default_scan_range start stop limit)); [|done|].
    2:{ intros s [Hd _]. by rewrite scan_range_matches_default. }
    unfold default_scan_range. destruct (_ || _); [apply stages_ret|].
    apply stages_bind; [apply stages_scan_prefix|intros; apply stages_ret].
  - apply Hfilter.
  - eapply (stages_ext _ _ (default_scan_with_filter_visit p f visitor limit x)); [|done|].
    2:{ intros s _. by rewrite scan_with_filter_visit_matches_default. }
    apply stages_bind; [apply Hfilter|intros; apply stages_ret].
  - apply (stages_batch_put_version [(e, vf, vt, t, v)]).
  - apply stages_batch_put_version.
  - apply stages_batch_apply.
Qed.

(** *** Reads of the history *)

Lemma insert_newest_elem r l v : v ∈ insert_newest r l <-> v = r \/ v ∈ l.
Proof.
  induction l as [|r' l IH]; simpl; [by rewrite list_elem_of_singleton, elem_of_nil; intuition|].
  destruct (version_ge r r'); rewrite !elem_of_cons, ?IH; intuition.
Qed.

Lemma sort_newest_elem l v : v ∈ sort_newest l <-> v ∈ l.
Proof. induction l as [|r l IH]; simpl; [done|]. by rewrite insert_newest_elem, IH, elem_of_cons. Qed.

(** Records with different times are sorted newest first. *)
Lemma sort_newest_sorted l :
  NoDup ((fun r => (valid_from r, tx r)) <$> l) -> StronglySorted newer (sort_newest l).
Proof.
  induction l as [|r l IH]; intros Hnd; [constructor|]. rewrite fmap_cons in Hnd. apply NoDup_cons in Hnd as [Hr Hnd].
  cbn [sort_newest foldr]. change (foldr insert_newest [] l) with (sort_newest l).
  specialize (IH Hnd). assert (Hne : forall v, v ∈ sort_newest l -> (valid_from r, tx r) <> (valid_from v, tx v)).
  { intros v Hv E. rewrite sort_newest_elem in Hv. destruct Hr. rewrite E.
    by apply (list_elem_of_fmap_2 (fun r => (valid_from r, tx r)) l v). }
  clear Hr Hnd. induction IH as [|r' l' Hs IH' Hall]; simpl; [repeat constructor|].
  assert (Hr' : (valid_from r, tx r) <> (valid_from r', tx r')) by (apply Hne; left).
  assert (Hcase : if version_ge r r' then newer r r' else newer r' r).
  { unfold version_ge, newer. destruct (Z.ltb_spec (valid_from r') (valid_from r)); [by left|]. simpl.
    destruct (Z.eqb_spec (valid_from r') (valid_from r)) as [E|E]; simpl; [|left; lia].
    destruct (Z.leb_spec (tx r') (tx r)); right; split; try lia. destruct (Z.eq_dec (tx r') (tx r)); [|lia].
    destruct Hr'. congruence. }
  destruct (version_ge r r').
  - constructor; [by constructor|]. constructor; [done|]. eapply Forall_impl; [exact Hall|].
    intros v. unfold newer in *. lia.
  - constructor; [apply IH'; intros v Hv; apply Hne; by right|]. apply Forall_forall.
    intros v [->|Hv]%insert_newest_elem; [done|]. rewrite Forall_forall in Hall. by apply Hall.
Qed.

(** The staged versions are well-formed and none has the entity and times of
    another staged or stored one. *)
Definition fresh_versions (o : Staged) : Prop :=
  hist_wf (history (base_view (base o))) /\ Forall row_ok (ch_versions (changes o)) /\
  NoDup (version_entry <$> ch_versions (changes o)).*1 /\
  forall r, r ∈ ch_versions (changes o) -> om_get (version_entry r).1 (history (base_view (base o))) = None.

Lemma staged_hist_wf o : fresh_versions o -> hist_wf (history (staged_view o)).
Proof. intros (Hh & Hok & _). by apply hist_wf_insert_all. Qed.

Lemma staged_history_elem o kv :
  fresh_versions o ->
  kv ∈ history (staged_view o) <->
  kv ∈ version_entry <$> ch_versions (changes o) \/ kv ∈ history (base_view (base o)).
Proof.
  intros ([Hwf _] & _ & Hnd & Hf). apply om_insert_all_fresh; [done|done|].
  intros a (r & -> & Hr)%list_elem_of_fmap. by apply Hf.
Qed.

Abbreviation rows_of e l := (List.filter (fun r : VersionRow => bool_decide (row_entity r = e)) l).

Lemma entity_keys_of e l :
  (fun v => history_key e (valid_from v) (tx v)) <$> (row_record <$> rows_of e l) = (version_entry <$> rows_of e l).*1.
Proof.
  induction l as [|[[[[e' vf] vt] t] v] l IH]; [done|]. simpl.
  case_bool_decide as E; [|done]. subst. simpl. by f_equal.
Qed.

Lemma filter_sublist {A} (f : A -> bool) l : List.filter f l `sublist_of` l.
Proof. induction l as [|x l IH]; simpl; [done|]. destruct (f x); by constructor. Qed.

(** No two of the stored and staged versions of an entity have the same times. *)
Lemma staged_times_nodup o e :
  zero_free e -> fresh_versions o ->
  NoDup ((fun r => (valid_from r, tx r)) <$>
    (versions_of e (history (base_view (base o))) ++ (row_record <$> rows_of e (ch_versions (changes o))))).
Proof.
  intros He (Hh & Hok & Hnd & Hf). pose proof Hh as [Hwf _].
  rewrite fmap_app. apply NoDup_app. split_and!.
  - assert (Hs := versions_of_sorted e He _ Hh). clear -Hs.
    induction Hs as [|v l Hs IH Hv]; simpl; constructor; [|done].
    intros (v' & E & Hin)%list_elem_of_fmap. rewrite Forall_forall in Hv. specialize (Hv v' Hin).
    unfold newer in Hv. injection E. lia.
  - intros x (v & -> & Hv)%list_elem_of_fmap (v' & E & Hv')%list_elem_of_fmap.
    apply list_elem_of_fmap in Hv' as (r & -> & [Hr Hre]%list_elem_of_In%filter_In).
    apply list_elem_of_In in Hr. apply bool_decide_eq_true in Hre. apply (versions_of_elem e He) in Hv as [_ Hv]; [|done].
    specialize (Hf r Hr). destruct r as [[[[e' vf] vt] t] val]. simpl in *. subst e'. injection E as <- <-.
    apply om_get_elem in Hv; [|done]. congruence.
  - apply (NoDup_fmap_1 (fun p => history_key e p.1 p.2)). rewrite <- list_fmap_compose.
    change (_ ∘ _) with (fun v => history_key e (valid_from v) (tx v)). rewrite entity_keys_of.
    eapply sublist_NoDup; [exact Hnd|]. apply fmap_sublist, fmap_sublist, filter_sublist.
Qed.

Lemma staged_versions o e :
  zero_free e -> fresh_versions o ->
  sort_newest (versions_of e (history (base_view (base o))) ++
    (row_record <$> rows_of e (ch_versions (changes o)))) =
  versions_of e (history (staged_view o)).
Proof.
  intros He Ho. pose proof Ho as (Hh & Hok & Hnd & Hf). rewrite Forall_forall in Hok.
  set (staged := rows_of e (ch_versions (changes o))).
  assert (Hst : forall r, r ∈ staged <-> r ∈ ch_versions (changes o) /\ row_entity r = e).
  { intros r. unfold staged. rewrite list_elem_of_In, filter_In, bool_decide_eq_true, <- list_elem_of_In. done. }
  assert (Hrow : forall r, row_entity r = e ->
    r = (e, valid_from (row_record r), valid_to (row_record r), tx (row_record r), value (row_record r))).
  { intros [[[[e' vf] vt] t] v]. simpl. by intros ->. }
  apply newer_ext; [apply sort_newest_sorted|by apply versions_of_sorted, staged_hist_wf|].
  - by apply staged_times_nodup.
  - intros v. rewrite sort_newest_elem, elem_of_app, !versions_of_elem by (done || by apply staged_hist_wf).
    rewrite staged_history_elem by done. rewrite list_elem_of_fmap. split.
    + intros [[? ?]|(r & -> & [Hr Hre]%Hst)]; [by auto|]. rewrite <- Hrow by done.
      split; [by apply Hok|]. left. by apply list_elem_of_fmap_2.
    + intros [Hv [(r & E & Hr)%list_elem_of_fmap|Hin]]; [right|by left].
      apply version_entry_inj in E; [|done|by apply Hok]. exists r. rewrite Hst, <- E.
      split; [by destruct v|]. split; [by rewrite E|done].
Qed.

(** A [BTreeSet] of keys is determined by its elements. *)
Lemma sorted_set_spec l :
  StronglySorted (fun a b => bytes_cmp a b = Lt) (sorted_set l) /\ forall k, k ∈ sorted_set l <-> k ∈ l.
Proof.
  assert (Hwf : om_wf (om_insert_all ((fun k => (k, tt)) <$> l) [])) by apply om_insert_all_wf, om_wf_nil.
  split.
  - unfold sorted_set. induction Hwf as [|a m Hs IH Ha]; simpl; constructor; [done|].
    apply Forall_fmap. exact Ha.
  - intros k. unfold sorted_set. rewrite list_elem_of_fmap.
    assert (Hin : forall l m, om_wf m -> (k, tt) ∈ om_insert_all ((fun k => (k, tt)) <$> l) m <-> k ∈ l \/ (k, tt) ∈ m).
    { clear. induction l as [|x l IH]; intros m Hm; simpl; [rewrite elem_of_nil; intuition|].
      rewrite IH by by apply om_insert_wf. rewrite <- !om_get_elem, om_get_insert_decide, elem_of_cons
        by (done || by apply om_insert_wf).
      case_bool_decide; naive_solver. }
    specialize (Hin l [] om_wf_nil). rewrite elem_of_nil in Hin. split.
    + intros ([k' []] & -> & H1). by apply Hin in H1 as [?|?].
    + intros Hk. exists (k, tt). split; [done|]. apply Hin. by left.
Qed.

Lemma sorted_keys_ext (l1 l2 : list bytes) :
  StronglySorted (fun a b => bytes_cmp a b = Lt) l1 -> StronglySorted (fun a b => bytes_cmp a b = Lt) l2 ->
  (forall k, k ∈ l1 <-> k ∈ l2) -> l1 = l2.
Proof.
  intros H1 H2 Hm.
  assert (Hnd : forall l : list bytes, StronglySorted (fun a b => bytes_cmp a b = Lt) l -> NoDup l).
  { induction 1 as [|x l _ IH Hx]; constructor; [|done]. intros Hin. rewrite Forall_forall in Hx.
    pose proof (Hx x Hin) as E. by rewrite (proj2 (bytes_cmp_eq x x)) in E. }
  apply (StronglySorted_unique_strong (fun a b => bytes_cmp a b = Lt)); [|done|done|by apply NoDup_Permutation; auto].
  intros a b _ _ Hab Hba. pose proof (bytes_cmp_lt_trans a b a Hab Hba) as E.
  by rewrite (proj2 (bytes_cmp_eq a a)) in E.
Qed.

Lemma staged_has_version o e :
  fresh_versions o ->
  has_version (history (staged_view o)) e <->
  has_version (history (base_view (base o))) e \/ e ∈ row_entity <$> ch_versions (changes o).
Proof.
  intros Ho. pose proof Ho as (_ & Hok & _). rewrite Forall_forall in Hok. unfold has_version.
  setoid_rewrite (staged_history_elem o _ Ho). rewrite list_elem_of_fmap. split.
  - intros (vf & vt & t & val & Hr & [(r & E & Hin)%list_elem_of_fmap|Hin]); [right|left; eauto 8].
    apply version_entry_inj in E; [|done|by apply Hok]. exists r. rewrite <- E. split; [done|by rewrite E].
  - intros [(vf & vt & t & val & Hr & Hin)|([[[[e' vf] vt] t] val] & -> & Hin)]; [eauto 8|].
    exists vf, vt, t, val. split; [by apply (Hok _ Hin)|]. left. by apply list_elem_of_fmap_2.
Qed.

(** The history as a statement sees it is the one its commit leaves: the
    versions of an entity, the read of an entity at a point in time and the entities
    with history are those of the tables with the staged versions appended, if
    no staged version has the entity and the times of another one. *)
Theorem staged_history_reads {A} (c : kv_call A) o r o' :
  match c with
  | call_scan_history e => zero_free e
  | call_get_as_of e valid_at tx_at => zero_free e /\ i64_ok valid_at /\ i64_ok tx_at
  | call_entity_keys p => zero_free p
  | _ => False
  end ->
  staged_wf o -> fresh_versions o -> Mutation.staged_run c o = (Ok r, o') ->
  mem_run c (staged_view o) = (Ok r, staged_view o').
Proof.
  intros Hc Hwf Ho.
  assert (Hmem : mem_wf (staged_view o)) by (split; [by apply staged_view_wf|by apply staged_hist_wf]).
  assert (Hbase : mem_wf (base_view (base o))) by (split; [apply Hwf|apply Ho]).
  assert (Hscan : forall e r o', zero_free e -> Mutation.scan_history e o = (Ok r, o') ->
      r = versions_of e (history (staged_view o)) /\ staged_view o' = staged_view o).
  { clear -Hwf Ho Hbase. intros e r o' He. unfold Mutation.scan_history, kv_bind.
    destruct (Mutation.on_base _ o) as [[rows|err] o1] eqn:E; [|done].
    destruct (on_base_read (call_scan_history e)
      (fun s => history_rows (history_prefix e) (om_range_from (history_prefix e) (history s))) _ _ _
      (base_scan_history e) Hwf E) as (_ & _ & Hch & Hview & ->). intros [= <- <-]. split; [|done].
    pose proof (mem_scan_history_versions e _ Hbase) as Hs. injection Hs as Hs. rewrite Hs, Hch.
    by apply staged_versions. }
  destruct c as [| | | | | | | | | | | | | | | |e| |p| |e va ta]; try done; cbn [Mutation.staged_run mem_run].
  - intros [-> ->]%Hscan; [|done]. by rewrite mem_scan_history_versions.
  - unfold Mutation.scan_history_entity_keys, kv_bind.
    destruct (Mutation.on_base _ o) as [[keys|err] o1] eqn:E; [|done].
    destruct (on_base_read (call_entity_keys p)
      (fun s => entity_key_rows p (om_range_from p (history s)) []) _ _ _
      (base_entity_keys p) Hwf E) as (_ & _ & Hch & Hview & ->). intros [= <- <-]. rewrite Hview, Hch.
    destruct (scan_history_entity_keys_exact p _ Hmem Hc) as (ks & Hks & Hs & Hin).
    destruct (scan_history_entity_keys_exact p _ Hbase Hc) as (ks0 & Hks0 & Hs0 & Hin0).
    injection Hks0 as Hks0. rewrite Hks, Hks0. do 2 f_equal.
    destruct (sorted_set_spec (ks0 ++ (row_entity <$>
      List.filter (fun r => starts_with p (row_entity r)) (ch_versions (changes o))))) as [Hsorted Hset].
    apply sorted_keys_ext; [done|done|]. intros k.
    rewrite Hset, elem_of_app, Hin, Hin0, staged_has_version, !list_elem_of_fmap by done.
    setoid_rewrite filter_elem. naive_solver.
  - destruct Hc as (He & Hva & Hta). unfold default_get_as_of, kv_bind. cbn [kv_scan_history Mutation.mutation_required].
    destruct (Mutation.scan_history e o) as [[rows|err] o1] eqn:E; [|done].
    apply Hscan in E as [-> Hv]; [|done]. intros [= <- <-]. rewrite Hv, get_as_of_head by done.
    rewrite best_first; [done|]. by apply versions_of_sorted, staged_hist_wf.
Qed.

(** ** The commit *)

Definition staged_puts (vs : list (bytes * option bytes)) : list kv_pair :=
  filter_map (fun kv => match kv.2 with Some v => Some (kv.1, v) | None => None end) vs.
Definition staged_deletes (vs : list (bytes * option bytes)) : list bytes :=
  filter_map (fun kv => match kv.2 with Some _ => None | None => Some kv.1 end) vs.

(** All insertions and then all deletions do what the changes do in key order. *)
Lemma commit_overlay vs rows :
  om_wf vs -> om_wf rows ->
  om_remove_all (staged_deletes vs) (om_insert_all (staged_puts vs) rows) = fold_left overlay vs rows.
Proof.
  intros Hvs Hrows.
  assert (Hwf : om_wf (staged_puts vs)).
  { induction vs as [|[k [v|]] vs IH]; [constructor| |]; pose proof (om_wf_tail _ _ Hvs) as Htl; simpl; [|by apply IH].
    constructor; [by apply IH|]. apply Forall_forall. intros [k' v'] Hin. apply elem_of_filter_map in Hin as ([k1 o1] & Hin & E).
    pose proof (om_wf_head _ _ _ _ _ Hvs Hin). destruct o1; [|done]. by injection E as -> ->. }
  apply om_ext; [by apply om_remove_all_wf, om_insert_all_wf|by apply overlay_all_wf|]. intros k.
  rewrite om_get_remove_all, om_get_union, overlay_get by auto with kv.
  assert (Hd : k ∈ staged_deletes vs <-> om_get k vs = Some None).
  { rewrite om_get_elem by done. unfold staged_deletes. rewrite elem_of_filter_map. split.
    - intros ([k1 [o1|]] & Hin & E); [done|]. by injection E as ->.
    - intros Hin. by exists (k, None). }
  assert (Hp : forall v, om_get k (staged_puts vs) = Some v <-> om_get k vs = Some (Some v)).
  { intros v. rewrite !om_get_elem by done. unfold staged_puts. rewrite elem_of_filter_map. split.
    - intros ([k1 [o1|]] & Hin & E); [|done]. by injection E as -> ->.
    - intros Hin. by exists (k, Some v). }
  case_bool_decide as Hk; [by rewrite (proj1 Hd Hk)|].
  destruct (om_get k vs) as [[v|]|] eqn:E; [by rewrite (proj2 (Hp v))|by destruct Hk; apply Hd|].
  destruct (om_get k (staged_puts vs)) as [v|]; [|done]. discriminate (proj1 (Hp v) eq_refl).
Qed.

(** The commit puts the staged view in place, or fails. *)
Lemma commit_outcome o r o' :
  staged_wf o -> Mutation.commit o = (r, o') ->
  match r with
  | Ok _ => base_view (base o') = staged_view o
  | Err _ => base_view (base o') = base_view (base o) \/ base_view (base o') = staged_view o
  end.
Proof.
  intros (Hv & Hd & Hh) E.
  assert (Hm : forall s, Memory.batch_apply (staged_puts (ch_values (changes o)))
      (staged_deletes (ch_values (changes o))) (ch_versions (changes o)) s =
      (Ok tt, {| data := om_remove_all (staged_deletes (ch_values (changes o)))
                           (om_insert_all (staged_puts (ch_values (changes o))) (data s));
                 history := om_insert_all (version_entry <$> ch_versions (changes o)) (history s) |})) by done.
  assert (Happly : Mutation.on_base (call_batch_apply (staged_puts (ch_values (changes o)))
      (staged_deletes (ch_values (changes o))) (ch_versions (changes o))) (with_changes o no_changes) = (r, o') ->
      match r with
      | Ok _ => base_view (base o') = staged_view o
      | Err _ => base_view (base o') = base_view (base o) \/ base_view (base o') = staged_view o
      end).
  { unfold Mutation.on_base. cbn [base with_changes]. clear E.
    destruct (dyn_call _ (base o)) as [r1 b] eqn:E. apply base_batch_apply in E. rewrite Hm, commit_overlay in E by done.
    intros [= <- <-]. cbn [base with_base with_changes]. destruct r1; [by injection E|done]. }
  unfold Mutation.commit in E. fold (staged_puts (ch_values (changes o))) in E.
  fold (staged_deletes (ch_values (changes o))) in E. specialize (commit_overlay _ _ Hv Hd) as Hc.
  destruct (staged_puts (ch_values (changes o))), (staged_deletes (ch_values (changes o))),
    (ch_versions (changes o)) eqn:Ev; try by apply Happly.
  injection E as <- <-. cbn [base with_changes]. unfold staged_view. rewrite <- Hc, Ev. simpl.
  by destruct (base_view (base o)).
Qed.

(** ** Statements *)

(** The statement does not read the version history. *)
Fixpoint current_only {A} (p : Statement A) : Prop :=
  match p with
  | Finish _ => True
  | Call B c k => reads_history c = false /\ forall b, current_only (k b)
  end.

Lemma run_statement_staged {A} (p : Statement A) o r o' :
  current_only p -> staged_wf o -> run_statement p o = (r, o') ->
  staged_wf o' /\ base_view (base o') = base_view (base o) /\
  match r with Ok a => run_statement p (staged_view o) = (Ok a, staged_view o') | Err _ => True end.
Proof.
  revert o. induction p as [r0|B c k IH]; intros o Hp Ho.
  - intros [= <- <-]. split; [done|]. split; [done|]. by destruct r0.
  - destruct Hp as [Hc Hk]. cbn [run_statement]. destruct (dyn_call c o) as [[b|e] o1] eqn:E;
      apply (staged_call c Hc o _ o1 Ho) in E as (Ho1 & Hb1 & Hm); [|by intros [= <- <-]].
    intros Hr. destruct (IH b o1 (Hk b) Ho1 Hr) as (Ho' & Hb' & Hrun).
    split; [done|]. split; [by rewrite Hb'|]. unfold dyn_call, memory_dyn. by rewrite Hm.
Qed.

(** The outcome of a statement that is run over the staged store. *)
Lemma staged_outcome {A} space max_memory_mb (p : Statement A) (s s' : S) r :
  current_only p -> tables_wf (base_view s) ->
  execute_dml_atomically (Some space) max_memory_mb (fun _ => Some p) s = (r, s') ->
  match r with
  | Ok a => run_statement p (base_view s) = (Ok a, base_view s')
  | Err _ => base_view s' = base_view s \/ exists a, run_statement p (base_view s) = (Ok a, base_view s')
  end.
Proof.
  intros Hp Hwf. unfold execute_dml_atomically.
  assert (Ho : staged_wf (Mutation.new s max_memory_mb)) by (split; [apply om_wf_nil|done]).
  assert (Hv : staged_view (Mutation.new s max_memory_mb) = base_view s)
    by (unfold staged_view; simpl; by destruct (base_view s)).
  destruct (run_statement p (Mutation.new s max_memory_mb)) as [[a|e] o1] eqn:Er;
    apply run_statement_staged in Er as (Ho1 & Hb1 & Hrun); eauto; [|intros [= <- <-]; left; by rewrite Hb1].
  rewrite Hv in Hrun. destruct (Mutation.commit o1) as [[[]|e] o2] eqn:Ec;
    apply commit_outcome in Ec; try done; intros [= <- <-].
  - by rewrite Ec.
  - destruct Ec as [Ec|Ec]; [left; by rewrite Ec, Hb1|right]. exists a. by rewrite Ec.
Qed.

(** C4: a DML statement takes effect as a whole or not at all, on every store that
    behaves as the in-memory store in the methods used: if it succeeds, its result
    and the tables are those of running the statement directly on the tables; if it
    fails, in the statement or in the commit, the tables are unchanged, or the
    commit reported an error after it had applied all of the statement's writes. *)
Theorem dml_statement_atomic {A} scope max_memory_mb (statement : bytes -> option (Statement A)) (s s' : S) r :
  (forall space p, statement space = Some p -> current_only p) ->
  tables_wf (base_view s) ->
  execute_dml_atomically scope max_memory_mb statement s = (r, s') ->
  match r with
  | Ok a => exists space p, scope = Some space /\ statement space = Some p /\
      run_statement p (base_view s) = (Ok a, base_view s')
  | Err _ => base_view s' = base_view s \/
      exists space p a, scope = Some space /\ statement space = Some p /\
      run_statement p (base_view s) = (Ok a, base_view s')
  end.
Proof.
  intros Hp Hwf. destruct scope as [space|]; [|intros [= <- <-]; by left].
  destruct (statement space) as [p|] eqn:Es; [|unfold execute_dml_atomically; rewrite Es; intros [= <- <-]; by left].
  replace (execute_dml_atomically (Some space) max_memory_mb statement s)
    with (execute_dml_atomically (Some space) max_memory_mb (fun _ => Some p) s)
    by (unfold execute_dml_atomically; by rewrite Es).
  intros E. apply staged_outcome in E; [|by eapply Hp|done]. destruct r as [a|e]; [by eauto|].
  destruct E as [E|[a E]]; [by left|right]. by exists space, p, a.
Qed.

(** ** The memory bound *)

Definition row_size (r : VersionRow) : Z := entry_size (row_entity r) (Some r.2).

(** The counted size of everything staged. *)
Definition staged_size (c : Changes) : Z :=
  foldr (fun kv n => entry_size kv.1 kv.2 + n) 0 (ch_values c) +
  foldr (fun r n => row_size r + n) 0 (ch_versions c).

Definition accounted (max : Z) (o : Staged) : Prop :=
  max_bytes o = max /\ om_wf (ch_values (changes o)) /\
  ch_bytes (changes o) = staged_size (changes o) /\ ch_bytes (changes o) <= max.

Definition keeps {A} (I : Staged -> Prop) (c : KVOp Staged A) : Prop :=
  forall o r o', I o -> c o = (r, o') -> I o'.

Lemma keeps_bind {A B} I (c : KVOp Staged A) (k : A -> KVOp Staged B) :
  keeps I c -> (forall a, keeps I (k a)) -> keeps I (kv_bind c k).
Proof.
  intros Hc Hk o r o' Ho. unfold kv_bind. destruct (c o) as [[a|e] o1] eqn:E; [|intros [= <- <-]; by eauto].
  intros E2. eapply Hk; [|exact E2]. by eapply Hc.
Qed.

Lemma keeps_pure {A} I (f : Staged -> KVResult A) : keeps I (fun o => (f o, o)).
Proof. intros o r o' Ho [= <- <-]. done. Qed.

Lemma keeps_for_each {A} I (f : A -> KVOp Staged unit) l :
  (forall a, keeps I (f a)) -> keeps I (kv_for_each f l).
Proof. intros Hf. induction l as [|a l IH]; simpl; [apply keeps_pure|]. by apply keeps_bind. Qed.

Lemma keeps_on_base {A} max (c : kv_call A) : keeps (accounted max) (Mutation.on_base c).
Proof.
  intros o r o' Ho. unfold Mutation.on_base. destruct (dyn_call c (base o)). intros [= <- <-]. exact Ho.
Qed.

Lemma entry_size_nonneg k v : 0 <= entry_size k v.
Proof. unfold entry_size, u64_add, as_u64. apply Z.mod_pos_bound. unfold two64. lia. Qed.

Abbreviation values_size vs := (foldr (fun kv n => entry_size kv.1 kv.2 + n) 0 vs).
Abbreviation rows_size rows := (foldr (fun r n => row_size r + n) 0 rows).

Lemma values_size_insert k v (vs : list (bytes * option bytes)) :
  om_wf vs ->
  values_size (om_insert k v vs) =
  values_size vs - match om_get k vs with Some v => entry_size k v | None => 0 end + entry_size k v.
Proof.
  induction vs as [|[k0 v0] vs IH]; intros Hwf; [simpl; lia|]. cbn [om_insert om_get].
  destruct (cmp k k0) eqn:E; cbn [foldr fst snd]; [apply cmp_eq_iff in E; subst; lia|lia|].
  rewrite IH by by eapply om_wf_tail. lia.
Qed.

Lemma values_size_nonneg vs : 0 <= values_size vs.
Proof. induction vs as [|[k v] vs IH]; simpl; [lia|]. pose proof (entry_size_nonneg k v). lia. Qed.

Lemma values_size_get k v vs : om_get k vs = Some v -> entry_size k v <= values_size vs.
Proof.
  induction vs as [|[k0 v0] vs IH]; cbn [om_get]; [done|]. pose proof (values_size_nonneg vs).
  pose proof (entry_size_nonneg k0 v0). destruct (cmp k k0) eqn:E; cbn [foldr fst snd]; [|done|].
  - apply cmp_eq_iff in E. subst. intros [= ->]. lia.
  - intros Hv%IH. lia.
Qed.

Lemma rows_size_nonneg rows : 0 <= rows_size rows.
Proof.
  induction rows as [|r rows IH]; cbn [foldr]; [lia|].
  assert (0 <= row_size r) by apply entry_size_nonneg. lia.
Qed.

Lemma rows_size_app l1 l2 : rows_size (l1 ++ l2) = rows_size l1 + rows_size l2.
Proof. induction l1 as [|r l1 IH]; simpl; lia. Qed.

(** The running sum saturates only above the bound. *)
Lemma saturating_sum rows n max :
  max < USIZE_MAX -> 0 <= n ->
  fold_left (fun size '(key, _, _, _, v) =>
      saturating_add size (u64_add (u64_add (len key) (len v)) 64)) rows n <= max ->
  fold_left (fun size '(key, _, _, _, v) =>
      saturating_add size (u64_add (u64_add (len key) (len v)) 64)) rows n = n + rows_size rows.
Proof.
  intros Hmax. revert n. induction rows as [|[[[[e vf] vt] t] v] rows IH]; intros n Hn; simpl; [lia|].
  change (u64_add (u64_add (len e) (len v)) 64) with (row_size (e, vf, vt, t, v)).
  set (n' := saturating_add n (row_size (e, vf, vt, t, v))). intros Hle.
  assert (Hn' : 0 <= n') by (subst n'; pose proof (entry_size_nonneg e (Some v)); unfold saturating_add, row_size;
    simpl; unfold USIZE_MAX, two64; lia).
  rewrite IH in Hle |- * by done. pose proof (rows_size_nonneg rows). subst n'.
  unfold saturating_add in *. lia.
Qed.

Lemma accounted_set max k v :
  0 < max < USIZE_MAX -> keeps (accounted max) (Mutation.set k v).
Proof.
  intros Hmax o r o' (Hm & Hwf & Hb & Hle). unfold Mutation.set, kv_bind, Mutation.check_size. rewrite Hm.
  set (total := saturating_add _ _). rewrite (proj2 (Z.eqb_neq max 0)) by lia.
  destruct (Z.ltb_spec max total) as [Hgt|Htot]; simpl; intros [= <- <-]; [done|].
  split; [done|]. split; [by apply om_insert_wf|]. split; [|done].
  unfold staged_size in *. cbn [ch_bytes ch_values ch_versions changes with_changes].
  rewrite values_size_insert by done. pose proof (rows_size_nonneg (ch_versions (changes o))).
  pose proof (values_size_nonneg (ch_values (changes o))). subst total.
  unfold saturating_add, saturating_sub in *.
  destruct (om_get k (ch_values (changes o))) as [old|] eqn:E; [apply values_size_get in E|]; lia.
Qed.

Lemma accounted_versions max rows :
  0 < max < USIZE_MAX -> keeps (accounted max) (Mutation.batch_put_version rows).
Proof.
  intros Hmax o r o' (Hm & Hwf & Hb & Hle). unfold Mutation.batch_put_version, kv_bind, Mutation.check_size. rewrite Hm.
  set (total := fold_left _ _ _). rewrite (proj2 (Z.eqb_neq max 0)) by lia.
  destruct (Z.ltb_spec max total) as [Hgt|Htot]; simpl; intros [= <- <-]; [done|].
  split; [done|]. split; [done|]. split; [|done].
  unfold staged_size in *. cbn [ch_bytes ch_values ch_versions changes with_changes].
  pose proof (rows_size_nonneg (ch_versions (changes o))).
  pose proof (values_size_nonneg (ch_values (changes o))). subst total.
  rewrite (saturating_sum _ _ max), rows_size_app by lia. lia.
Qed.

Lemma accounted_call {A} max (c : kv_call A) :
  0 < max < USIZE_MAX -> keeps (accounted max) (Mutation.staged_run c).
Proof.
  intros Hmax. pose proof (fun k v => accounted_set max k v Hmax) as Hset.
  pose proof (fun rows => accounted_versions max rows Hmax) as Hver.
  assert (Hget : forall k, keeps (accounted max) (Mutation.get k)).
  { intros k o r o' Ho. unfold Mutation.get. destruct (om_get k _); [by intros [= <- <-]|by apply keeps_on_base]. }
  assert (Hscan : forall p, keeps (accounted max) (Mutation.scan_prefix p))
    by (intros p; apply keeps_bind; [apply keeps_on_base|intros rows; apply keeps_pure]).
  assert (Hhist : forall e, keeps (accounted max) (Mutation.scan_history e))
    by (intros p; apply keeps_bind; [apply keeps_on_base|intros rows; apply keeps_pure]).
  assert (Hret : forall B (b : B), keeps (accounted max) (kv_ret b)) by (intros; apply keeps_pure).
  assert (Hcount : forall p, keeps (accounted max) (default_count_prefix p)) by (intros p; apply keeps_bind; [apply Hscan|auto]).
  assert (Hfilter : forall p f l, keeps (accounted max) (default_scan_with_filter p f l))
    by (intros; apply keeps_bind; [apply Hscan|auto]).
  destruct c as [| |k v| | | | | |ps| |keys| |start stop limit| | | | | | | |]; simpl;
    try (done || apply Hset || apply Hver || apply Hhist || apply Hret).
  - apply keeps_bind; [done|]. intros [x|]; [apply Hret|]. apply keeps_bind; auto. apply Hset.
  - by apply keeps_for_each.
  - by apply keeps_for_each.
  - induction ps as [|p ps IH]; simpl; [done|]. apply keeps_bind; [done|intros n]. apply keeps_bind; auto.
  - apply keeps_for_each. intros [k d]. apply keeps_bind; [done|]. intros cell.
    destruct (match cell with Some _ => _ | None => _ end); [|apply keeps_pure].
    destruct (Mutation.checked_add _ _); [|apply keeps_pure]. destruct (_ <=? 0); apply Hset.
  - induction keys as [|k keys IH]; simpl; [done|]. apply keeps_bind; [done|intros x]. apply keeps_bind; auto.
  - unfold default_scan_range. destruct (_ || _); [done|]. apply keeps_bind; [apply Hscan|auto].
  - apply keeps_bind; auto.
  - apply keeps_bind; [apply keeps_on_base|]. intros; apply keeps_pure.
  - apply keeps_bind; [by apply keeps_for_each|intros _]. apply keeps_bind; [by apply keeps_for_each|done].
  - apply keeps_bind; [apply Hhist|auto].
Qed.

(** C34: a statement never stages more than the memory it is allowed: whatever it
    calls, and whether or not the calls succeed, the bytes counted are exactly the
    sizes of the staged values and versions, replaced values counted once, and they
    stay within [max_memory_mb]. *)
Theorem staging_within_memory {A} max_memory_mb (p : Statement A) (s : S) r o :
  0 < max_memory_mb -> max_memory_mb * (1024 * 1024) < USIZE_MAX ->
  run_statement p (Mutation.new s max_memory_mb) = (r, o) ->
  ch_bytes (changes o) = staged_size (changes o) /\ staged_size (changes o) <= max_memory_mb * (1024 * 1024).
Proof.
  intros Hpos Hmax. set (max := max_memory_mb * (1024 * 1024)) in *.
  assert (Ho : accounted max (Mutation.new s max_memory_mb)).
  { split; [unfold Mutation.new, saturating_mul; simpl; lia|]. split; [apply om_wf_nil|]. split; [done|]. simpl. lia. }
  revert Ho. generalize (Mutation.new s max_memory_mb) as o0. induction p as [r0|B c k IH]; intros o0 Ho.
  - intros [= <- <-]. destruct Ho as (_ & _ & Hb & Hle). by rewrite <- Hb.
  - cbn [run_statement]. destruct (dyn_call c o0) as [[b|e] o1] eqn:E;
      apply (accounted_call max c) in E; try lia; try done; [by apply IH|].
    intros [= <- <-]. destruct E as (_ & _ & Hb & Hle). by rewrite <- Hb.
Qed.
End staging.

(** ** Statements on concrete stores *)

(** Replace a row, and count the rows under its prefix before and after. *)
Definition replace_row (space : bytes) : option (Statement (nat * nat)) :=
  Some (Call _ (call_count_prefix (space ++ bs ":")) (fun before =>
        Call _ (call_put (space ++ bs ":new") (bs "2")) (fun _ =>
        Call _ (call_delete (space ++ bs ":old")) (fun _ =>
        Call _ (call_put_version (space ++ bs ":new") 5 VALID_OPEN 5 (bs "2")) (fun _ =>
        Call _ (call_count_prefix (space ++ bs ":")) (fun after =>
        Finish (Ok (before, after)))))))).

Lemma replace_row_current space p : replace_row space = Some p -> current_only p.
Proof. intros [= <-]. simpl. repeat split. Qed.

Definition one_row (plan : list bool) : RedbKVStore RefDb.Database :=
  (Redb.put (bs "sp:old") (bs "1") (RefDb.open_with false (false :: false :: plan))).2.

Lemma one_row_wf plan : tables_wf (base_view (one_row plan)).
Proof. destruct plan; (split; [repeat constructor|constructor]). Qed.

Lemma dml_statement_atomic_witness :
  let run plan := execute_dml_atomically (Some (bs "sp")) 1 replace_row (one_row plan) in
  (run []).1 = Ok (1, 1)%nat /\
  (exists space p, Some (bs "sp") = Some space /\ replace_row space = Some p /\
    run_statement p (base_view (one_row [])) = (Ok (1, 1)%nat, base_view (run []).2)) /\
  base_view (run [false; false; false; true]).2 = base_view (one_row []).
Proof.
  split; [vm_compute; reflexivity|]. split.
  - apply (dml_statement_atomic (Some (bs "sp")) 1 replace_row (one_row [])
      (execute_dml_atomically (Some (bs "sp")) 1 replace_row (one_row [])).2 (Ok (1, 1)%nat));
      [exact replace_row_current|apply one_row_wf|vm_compute; reflexivity].
  - vm_compute. reflexivity.
Defined.

Lemma staging_within_memory_witness :
  let o := (run_statement (S := MutationStore MemoryKVStore)
    (Call _ (call_put (bs "k") (bs "123")) (fun _ => Call _ (call_put (bs "k") (bs "1")) (fun _ => Finish (Ok tt))))
    (Mutation.new Memory.new 1)).2 in
  staged_size (changes o) = 66 /\
  ch_bytes (changes o) = staged_size (changes o) /\ staged_size (changes o) <= 1 * (1024 * 1024).
Proof.
  split; [vm_compute; reflexivity|].
  eapply (staging_within_memory (S := MemoryKVStore) 1
    (Call _ (call_put (bs "k") (bs "123")) (fun _ => Call _ (call_put (bs "k") (bs "1")) (fun _ => Finish (Ok tt))))
    Memory.new); [lia|vm_compute; reflexivity|reflexivity].
Defined.
