(* ===== verification/GraphAlgo.v ===== *)
(** * Path search

    [byoridb-executor/src/algo.rs] (edge records as FIND reads them) and
    [byoridb-executor/src/algo_paths.rs]: the shortest path and all shortest paths
    between two vertices by number of hops. The store is given by its streaming
    scan; FIND holds the read lock of the space, so it does not change. *)

From Stdlib Require Import ZArith Lia Strings.Byte Strings.String.
From stdpp Require Import base tactics list gmap.
From S2P Require Import Prelude Text KVStore SchemaKey Value Exec VertexCodec.

Record TraversalMetrics := mkMetrics {
  visited_vertices : Z;
  scanned_edges : Z;
  decoded_edges : Z;
  max_frontier_size : Z;
  cap_reached : bool
}.

Definition no_metrics : TraversalMetrics := mkMetrics 0 0 0 0 false.

Definition record_frontier (size : nat) (m : TraversalMetrics) : TraversalMetrics :=
  let size := Z.of_nat size in
  if max_frontier_size m <? size
  then mkMetrics (visited_vertices m) (scanned_edges m) (decoded_edges m) size (cap_reached m)
  else m.
Definition count_visited (m : TraversalMetrics) : TraversalMetrics :=
  mkMetrics (u64_add (visited_vertices m) 1) (scanned_edges m) (decoded_edges m) (max_frontier_size m) (cap_reached m).
Definition count_scanned (m : TraversalMetrics) : TraversalMetrics :=
  mkMetrics (visited_vertices m) (u64_add (scanned_edges m) 1) (decoded_edges m) (max_frontier_size m) (cap_reached m).
Definition count_decoded (m : TraversalMetrics) : TraversalMetrics :=
  mkMetrics (visited_vertices m) (scanned_edges m) (u64_add (decoded_edges m) 1) (max_frontier_size m) (cap_reached m).

(** ** Edge records *)

Definition edge_type_from_key (key : bytes) : option bytes :=
  if utf8_valid key then split_colon key !! 3%nat else None.

Definition invalid_edge : ExecutionError := InvalidOperation (bs "Invalid edge metadata").

Section algo.
Context `{DebugText} `{ProstMessage PbVertex} `{ProstMessage PbEdge} `{SerdeJson JsonValue}.

(** The checks on a JSON record that [decode_edge] does not make. *)
Definition json_edge_ok (json : JsonValue) : bool :=
  bool_decide (is_Some (json_get (bs "src") json ≫= json_as_i64)) &&
  bool_decide (is_Some (json_get (bs "dst") json ≫= json_as_i64)) &&
  match json_get_or (bs "ranking") (bs "rank") json with
  | Some v => bool_decide (is_Some (json_as_i64 v))
  | None => true
  end &&
  match json_get_or (bs "props") (bs "properties") json with
  | Some v => bool_decide (is_Some (json_as_object v))
  | None => true
  end.

(** The record agrees with the parts of its key. *)
Definition key_matches (key : bytes) (edge : EdgeData) : bool :=
  match split_colon key with
  | [_; kind; first; etype; second; rank] =>
      bool_decide (edge_type edge = etype) && negb (bool_decide (edge_type edge = [])) &&
      match parse_i64 first, parse_i64 second, parse_i64 rank with
      | Some first, Some second, Some rank =>
          (if bool_decide (kind = bs "edge") then (first =? src_vid edge) && (second =? dst_vid edge)
           else if bool_decide (kind = bs "in-edge") then (first =? dst_vid edge) && (second =? src_vid edge)
           else false) && (rank =? ranking edge)
      | _, _, _ => false
      end
  | _ => false
  end.

Definition decode_query_edge (key value : bytes) : Result ExecutionError EdgeData :=
  if negb (is_proto_format value) &&
     match json_from_slice value with Ok json => negb (json_edge_ok json) | Err _ => true end
  then Err invalid_edge else
  match decode_edge value with
  | Err _ => Err invalid_edge
  | Ok edge => if utf8_valid key && key_matches key edge then Ok edge else Err invalid_edge
  end.

(** ** Neighbours *)

(** [ctx.kvstore.scan_stream]. *)
Context (scan_stream : bytes -> KVResult (list (KVResult kv_pair))).
(** [ctx.config.max_traversal_nodes]. *)
Context (max_nodes : Z).

Definition type_selected (edge_types : list bytes) (key : bytes) : bool :=
  match edge_types with
  | [] => true
  | _ => match edge_type_from_key key with Some t => bool_decide (t ∈ edge_types) | None => false end
  end.

Record Neighbors := mkNeighbors { seen : gset Z; neighbors : list Z; nb_metrics : TraversalMetrics }.

(** The loop over the rows of one direction; [pick] is the far end of an edge. *)
Fixpoint collect_rows (edge_types : list bytes) (pick : EdgeData -> Z) (items : list (KVResult kv_pair))
    (st : Neighbors) : Result ExecutionError Neighbors :=
  match items with
  | [] => Ok st
  | Err e :: _ => Err (from_kv_error e)
  | Ok (key, value) :: items =>
      if negb (type_selected edge_types key) then collect_rows edge_types pick items st else
      let m := count_scanned (nb_metrics st) in
      match decode_query_edge key value with
      | Err e => Err e
      | Ok edge =>
          let m := count_decoded m in
          let v := pick edge in
          collect_rows edge_types pick items
            (if bool_decide (v ∈ seen st) then mkNeighbors (seen st) (neighbors st) m
             else mkNeighbors ({[v]} ∪ seen st) (neighbors st ++ [v]) m)
      end
  end.

Definition collect_stream (edge_types : list bytes) (pick : EdgeData -> Z) (prefix : bytes) (st : Neighbors) :
    Result ExecutionError Neighbors :=
  match scan_stream prefix with
  | Err e => Err (from_kv_error e)
  | Ok items => collect_rows edge_types pick items st
  end.

Definition collect_neighbor_vids (space : bytes) (vid : Z) (edge_types : list bytes) (bidirect : bool)
    (m : TraversalMetrics) : Result ExecutionError (list Z * TraversalMetrics) :=
  match collect_stream edge_types dst_vid (space ++ bs ":edge:" ++ dec vid ++ bs ":") (mkNeighbors ∅ [] m) with
  | Err e => Err e
  | Ok st =>
      match (if bidirect then collect_stream edge_types src_vid (SchemaKey.in_edge_data_dst_prefix space vid) st
             else Ok st) with
      | Err e => Err e
      | Ok st => Ok (neighbors st, nb_metrics st)
      end
  end.

Definition err_max_nodes : ExecutionError :=
  ResourceExhausted (bs "FIND traversal exceeded max_traversal_nodes").
Definition err_max_paths : ExecutionError :=
  ResourceExhausted (bs "FIND ALL SHORTEST PATHS exceeded max_find_paths").

(** The budget of expanded vertices is used up. *)
Definition over_budget (m : TraversalMetrics) : bool := (0 <? max_nodes) && (max_nodes <=? visited_vertices m).

(** ** One shortest path *)

(** The chain of parents, from the target back; it has at most [fuel] links. *)
Fixpoint parent_chain (fuel : nat) (parent : gmap Z Z) (start curr : Z) : list Z :=
  if curr =? start then [curr] else
  match fuel, parent !! curr with
  | S fuel, Some p => curr :: parent_chain fuel parent start p
  | _, _ => [curr]
  end.
Definition reconstruct_path (parent : gmap Z Z) (start target : Z) : list Z :=
  reverse (parent_chain (size parent) parent start target).

Record Search := mkSearch {
  visited : gset Z;
  parent : gmap Z Z;
  queue : list (Z * nat);
  bfs_metrics : TraversalMetrics
}.

(** The loop over the neighbours of [current]; a path ends the search. *)
Fixpoint visit_neighbors (start target current : Z) (step : nat) (vs : list Z) (st : Search) :
    Search + (list Z * TraversalMetrics) :=
  match vs with
  | [] => inl st
  | dst :: vs =>
      if bool_decide (dst ∈ visited st) then visit_neighbors start target current step vs st else
      let parent := <[dst := current]> (parent st) in
      if dst =? target then inr (reconstruct_path parent start target, bfs_metrics st) else
      let queue := queue st ++ [(dst, S step)] in
      visit_neighbors start target current step vs
        (mkSearch ({[dst]} ∪ visited st) parent queue (record_frontier (length queue) (bfs_metrics st)))
  end.

(** [None] when [fuel] rounds are not enough. *)
Fixpoint bfs (fuel : nat) (space : bytes) (edge_types : list bytes) (max_steps : nat) (bidirect : bool)
    (start target : Z) (st : Search) : option (Result ExecutionError (option (list Z) * TraversalMetrics)) :=
  match queue st, fuel with
  | [], _ => Some (Ok (None, bfs_metrics st))
  | _, O => None
  | (current, step) :: queue, S fuel =>
      let st := mkSearch (visited st) (parent st) queue (bfs_metrics st) in
      if (max_steps <=? step)%nat then bfs fuel space edge_types max_steps bidirect start target st else
      if over_budget (bfs_metrics st) then Some (Err err_max_nodes) else
      match collect_neighbor_vids space current edge_types bidirect (count_visited (bfs_metrics st)) with
      | Err e => Some (Err e)
      | Ok (vs, m) =>
          match visit_neighbors start target current step vs (mkSearch (visited st) (parent st) queue m) with
          | inr (path, m) => Some (Ok (Some path, m))
          | inl st => bfs fuel space edge_types max_steps bidirect start target st
          end
      end
  end.

Definition shortest_path (fuel : nat) (selected : option bytes) (start target : Z) (edge_types : list bytes)
    (max_steps : nat) (bidirect : bool) : option (Result ExecutionError (option (list Z) * TraversalMetrics)) :=
  if start =? target then Some (Ok (Some [start], no_metrics)) else
  bfs fuel (default (bs "default") selected) edge_types max_steps bidirect start target
    (mkSearch {[start]} ∅ [(start, O)] (record_frontier 1 no_metrics)).

(** ** All shortest paths *)

Record Levels := mkLevels {
  depth : gmap Z nat;
  parents : gmap Z (list Z);
  next_frontier : list Z;
  found : bool
}.

(** The neighbours of [u], a vertex at depth [current_depth]. *)
Fixpoint level_neighbors (target u : Z) (current_depth : nat) (vs : list Z) (st : Levels) : Levels :=
  match vs with
  | [] => st
  | v :: vs =>
      level_neighbors target u current_depth vs
        match depth st !! v with
        | None => mkLevels (<[v := S current_depth]> (depth st)) (<[v := [u]]> (parents st))
                    (next_frontier st ++ [v]) (if v =? target then true else found st)
        | Some dv =>
            if (dv =? S current_depth)%nat
            then mkLevels (depth st) (<[v := default [] (parents st !! v) ++ [u]]> (parents st)) (next_frontier st) (found st)
            else st
        end
  end.

Fixpoint expand_level (space : bytes) (edge_types : list bytes) (bidirect : bool) (target : Z) (current_depth : nat)
    (frontier : list Z) (st : Levels) (m : TraversalMetrics) : Result ExecutionError (Levels * TraversalMetrics) :=
  match frontier with
  | [] => Ok (st, m)
  | u :: frontier =>
      if over_budget m then Err err_max_nodes else
      match collect_neighbor_vids space u edge_types bidirect (count_visited m) with
      | Err e => Err e
      | Ok (vs, m) =>
          expand_level space edge_types bidirect target current_depth frontier
            (level_neighbors target u current_depth vs st) m
      end
  end.

(** [steps] levels are left. *)
Fixpoint levels (steps : nat) (space : bytes) (edge_types : list bytes) (bidirect : bool) (target : Z)
    (current_depth : nat) (frontier : list Z) (st : Levels) (m : TraversalMetrics) :
    Result ExecutionError (Levels * TraversalMetrics) :=
  match steps, frontier with
  | S steps, _ :: _ =>
      if found st then Ok (st, m) else
      let m := record_frontier (length frontier) m in
      match expand_level space edge_types bidirect target current_depth frontier
              (mkLevels (depth st) (parents st) [] (found st)) m with
      | Err e => Err e
      | Ok (st, m) => levels steps space edge_types bidirect target (S current_depth) (next_frontier st) st m
      end
  | _, _ => Ok (st, m)
  end.

(** The enumeration; a partial path is kept from the target back. The top of the
    stack is its head, so the last parent pushed is taken first. *)
Fixpoint enumerate (fuel : nat) (max_paths : nat) (start : Z) (parents : gmap Z (list Z)) (stack : list (list Z))
    (paths : list (list Z)) : option (Result ExecutionError (list (list Z))) :=
  match stack, fuel with
  | [], _ => Some (Ok paths)
  | _, O => None
  | partial :: stack, S fuel =>
      match last partial with
      | None => enumerate fuel max_paths start parents stack paths
      | Some head =>
          if head =? start then
            if (0 <? max_paths)%nat && (max_paths <=? length paths)%nat then Some (Err err_max_paths)
            else enumerate fuel max_paths start parents stack (paths ++ [reverse partial])
          else
            match parents !! head with
            | None => enumerate fuel max_paths start parents stack paths
            | Some preds =>
                enumerate fuel max_paths start parents
                  (foldl (fun stack p => (partial ++ [p]) :: stack) stack preds) paths
            end
      end
  end.

Definition all_shortest_paths (fuel : nat) (selected : option bytes) (start target : Z) (edge_types : list bytes)
    (max_steps : nat) (bidirect : bool) (max_paths : nat) :
    option (Result ExecutionError (list (list Z) * TraversalMetrics)) :=
  if start =? target then Some (Ok ([[start]], no_metrics)) else
  match levels max_steps (default (bs "default") selected) edge_types bidirect target O [start]
          (mkLevels {[start := O]} ∅ [start] false) no_metrics with
  | Err e => Some (Err e)
  | Ok (st, m) =>
      if negb (found st) then Some (Ok ([], m)) else
      match enumerate fuel max_paths start (parents st) [[target]] [] with
      | None => None
      | Some (Err e) => Some (Err e)
      | Some (Ok paths) => Some (Ok (paths, m))
      end
  end.
End algo.
