(* ===== verification/PathFacts.v ===== *)
(** * FIND SHORTEST PATH returns a shortest path *)

From Stdlib Require Import ZArith Lia Strings.Byte Strings.String.
From stdpp Require Import base tactics list gmap fin_sets sorting.
From S2P Require Import Prelude Text KVStore SchemaKey Value Exec VertexCodec GraphAlgo.

Section search.
Context `{DebugText} `{ProstMessage PbVertex} `{ProstMessage PbEdge} `{SerdeJson JsonValue}.
Context (scan_stream : bytes -> KVResult (list (KVResult kv_pair))) (max_nodes : Z).
Context (space : bytes) (edge_types : list bytes) (bidirect : bool).

(** ** The graph *)

(** A row of a scan that counts as an edge. *)
Definition edge_row (prefix : bytes) (e : EdgeData) : Prop :=
  exists items key value, scan_stream prefix = Ok items /\ Ok (key, value) ∈ items /\
    type_selected edge_types key = true /\ decode_query_edge key value = Ok e.

Definition forward_prefix (u : Z) : bytes := space ++ bs ":edge:" ++ dec u ++ bs ":".

Definition adjacent (u v : Z) : Prop :=
  (exists e, edge_row (forward_prefix u) e /\ dst_vid e = v) \/
  (bidirect = true /\ exists e, edge_row (SchemaKey.in_edge_data_dst_prefix space u) e /\ src_vid e = v).

(** A path is the list of vertices after the first. *)
Fixpoint path_from (u : Z) (p : list Z) : Prop :=
  match p with
  | [] => True
  | v :: p => adjacent u v /\ path_from v p
  end.
Definition path_end (u : Z) (p : list Z) : Z := default u (last p).

(** [p] is a path from [u] to [v], both included. *)
Definition is_path (u v : Z) (p : list Z) : Prop :=
  exists q, p = u :: q /\ path_from u q /\ path_end u q = v.

Lemma path_end_snoc u p v : path_end u (p ++ [v]) = v.
Proof. unfold path_end. by rewrite last_snoc. Qed.

Lemma path_end_cons u v p : path_end u (v :: p) = path_end v p.
Proof. unfold path_end. rewrite last_cons. by destruct (last p). Qed.

Lemma path_from_app u p q : path_from u (p ++ q) <-> path_from u p /\ path_from (path_end u p) q.
Proof.
  revert u. induction p as [|v p IH]; intros u; cbn [app path_from]; [unfold path_end; simpl; intuition|].
  rewrite IH, path_end_cons. intuition.
Qed.

(** ** Neighbours *)

Lemma collect_rows_spec pick items st st' :
  collect_rows edge_types pick items st = Ok st' ->
  NoDup (neighbors st) -> (forall v, v ∈ seen st <-> v ∈ neighbors st) ->
  NoDup (neighbors st') /\ (forall v, v ∈ seen st' <-> v ∈ neighbors st') /\
  forall v, v ∈ neighbors st' <-> v ∈ neighbors st \/
    exists key value e, Ok (key, value) ∈ items /\ type_selected edge_types key = true /\
      decode_query_edge key value = Ok e /\ pick e = v.
Proof.
  revert st. induction items as [|[[key value]|e] items IH]; intros st; cbn [collect_rows]; [| |done].
  { intros [= <-] Hnd Hs. split_and!; [done|done|]. intros v. split; [by left|].
    intros [?|(? & ? & ? & Hin & _)]; [done|]. by apply elem_of_nil in Hin. }
  destruct (type_selected edge_types key) eqn:Et; simpl.
  - destruct (decode_query_edge key value) as [e|] eqn:Ed; [|done]. intros Hc Hnd Hs.
    case_bool_decide as Hv; apply IH in Hc as (H1' & H2' & H3'); cbn [seen neighbors] in *; try done.
    + split_and!; [done|done|]. intros v. rewrite H3'. setoid_rewrite elem_of_cons.
      split; [intros [?|(k' & v' & e' & ? & ?)]; [by left|right; exists k', v', e'; auto]|].
      intros [?|(k' & v' & e' & [[= -> ->]|Hin] & ? & Ed' & Hv')]; [by left| |right; by exists k', v', e'].
      left. apply Hs. rewrite Ed in Ed'. injection Ed' as <-. by rewrite <- Hv'.
    + split_and!; [done|done|]. intros v. rewrite H3', elem_of_app, list_elem_of_singleton. setoid_rewrite elem_of_cons. split.
      * intros [[?| ->]|(k' & v' & e' & ? & ?)]; [by left|right; exists key, value, e; auto|right; exists k', v', e'; auto].
      * intros [?|(k' & v' & e' & [[= -> ->]|Hin] & ? & Ed' & Hv')]; [by left; left| |right; by exists k', v', e'].
        left; right. rewrite Ed in Ed'. injection Ed' as <-. done.
    + apply NoDup_app. split_and!; [done| |apply NoDup_singleton].
      intros x Hx ->%list_elem_of_singleton. by apply Hv, Hs.
    + intros v. rewrite elem_of_union, elem_of_singleton, elem_of_app, list_elem_of_singleton, Hs. intuition.
  - intros Hc Hnd Hs. apply IH in Hc as (H1' & H2' & H3'); [|done..]. split_and!; [done|done|].
    intros v. rewrite H3'. setoid_rewrite elem_of_cons.
    split; [intros [?|(k' & v' & e' & ? & ?)]; [by left|right; exists k', v', e'; auto]|].
    intros [?|(k' & v' & e' & [[= -> ->]|Hin] & Hsel & ?)]; [by left|congruence|right; by exists k', v', e'].
Qed.

Lemma collect_spec u m vs m' :
  collect_neighbor_vids scan_stream space u edge_types bidirect m = Ok (vs, m') ->
  NoDup vs /\ forall v, v ∈ vs <-> adjacent u v.
Proof.
  unfold collect_neighbor_vids, collect_stream, adjacent, edge_row, forward_prefix.
  destruct (scan_stream (space ++ bs ":edge:" ++ dec u ++ bs ":")) as [items|]; [|done].
  destruct (collect_rows edge_types dst_vid items _) as [st|] eqn:E1; [|done].
  apply collect_rows_spec in E1 as (Hnd1 & Hs1 & Hin1); [|constructor|set_solver].
  cbn [neighbors] in Hin1. setoid_rewrite elem_of_nil in Hin1.
  destruct bidirect.
  - destruct (scan_stream (SchemaKey.in_edge_data_dst_prefix space u)) as [items2|]; [|done].
    destruct (collect_rows edge_types src_vid items2 st) as [st2|] eqn:E2; [|done].
    apply collect_rows_spec in E2 as (Hnd2 & Hs2 & Hin2); [|done..]. intros [= <- <-].
    split; [done|]. intros v. rewrite Hin2, Hin1. naive_solver.
  - intros [= <- <-]. split; [done|]. intros v. rewrite Hin1. naive_solver.
Qed.

(** ** Errors *)

(** Fewer than [n] hops away from [start]. *)
Definition near (start : Z) (n : nat) (v : Z) : Prop := exists p, is_path start v p /\ (length p <= n)%nat.

(** More than [max_nodes] vertices have to be expanded. *)
Definition exhausted (start : Z) (n : nat) : Prop :=
  0 < max_nodes /\ exists Y : gset Z, max_nodes < Z.of_nat (size Y) /\ forall v, v ∈ Y -> near start n v.

(** The rows of [u] cannot be read: a scan fails, an item of it does, or a row of
    the selected types is no edge record. *)
Definition unreadable (u : Z) (e : ExecutionError) : Prop :=
  exists prefix, (prefix = forward_prefix u \/ (bidirect = true /\ prefix = SchemaKey.in_edge_data_dst_prefix space u)) /\
    match scan_stream prefix with
    | Err k => e = from_kv_error k
    | Ok items =>
        (exists k, Err k ∈ items /\ e = from_kv_error k) \/
        exists key value, Ok (key, value) ∈ items /\ type_selected edge_types key = true /\ decode_query_edge key value = Err e
    end.

Definition search_error (start : Z) (n : nat) (e : ExecutionError) : Prop :=
  (exhausted start n /\ e = err_max_nodes) \/ exists u, near start n u /\ unreadable u e.

Lemma collect_rows_error pick items st e :
  collect_rows edge_types pick items st = Err e ->
  (exists k, Err k ∈ items /\ e = from_kv_error k) \/
  exists key value, Ok (key, value) ∈ items /\ type_selected edge_types key = true /\ decode_query_edge key value = Err e.
Proof.
  revert st. induction items as [|[[key value]|k] items IH]; intros st; cbn [collect_rows]; [done| |].
  - destruct (type_selected edge_types key) eqn:Et; cbn [negb].
    + destruct (decode_query_edge key value) as [ed|e'] eqn:Ed; [|intros [= <-]; right; exists key, value; set_solver].
      intros [(k & ? & ?)|(k & v & ? & ?)]%IH; [left; exists k|right; exists k, v]; set_solver.
    + intros [(k & ? & ?)|(k & v & ? & ?)]%IH; [left; exists k|right; exists k, v]; set_solver.
  - intros [= <-]. left. exists k. set_solver.
Qed.

Lemma collect_stream_error pick prefix st e :
  collect_stream scan_stream edge_types pick prefix st = Err e ->
  match scan_stream prefix with
  | Err k => e = from_kv_error k
  | Ok items =>
      (exists k, Err k ∈ items /\ e = from_kv_error k) \/
      exists key value, Ok (key, value) ∈ items /\ type_selected edge_types key = true /\ decode_query_edge key value = Err e
  end.
Proof. unfold collect_stream. destruct (scan_stream prefix); [apply collect_rows_error|by intros [= <-]]. Qed.

Lemma collect_error u m e :
  collect_neighbor_vids scan_stream space u edge_types bidirect m = Err e -> unreadable u e.
Proof.
  unfold collect_neighbor_vids. destruct (collect_stream _ _ dst_vid _ _) as [st|e1] eqn:E1.
  2: { intros [= <-]. exists (forward_prefix u). split; [by left|]. by eapply collect_stream_error. }
  destruct bidirect eqn:Eb; [|done]. destruct (collect_stream _ _ src_vid _ _) as [st2|e2] eqn:E2; [done|].
  intros [= <-]. eexists. split; [by right|]. by eapply collect_stream_error.
Qed.

(** Reading the rows does not touch the count of expanded vertices. *)
Lemma collect_rows_visited pick items st st' :
  collect_rows edge_types pick items st = Ok st' ->
  visited_vertices (nb_metrics st') = visited_vertices (nb_metrics st).
Proof.
  revert st. induction items as [|[[key value]|k] items IH]; intros st; cbn [collect_rows]; [by intros [= <-]| |done].
  destruct (negb _); [apply IH|]. destruct (decode_query_edge key value); [|done].
  intros ->%IH. by case_bool_decide.
Qed.

Lemma collect_stream_visited pick prefix st st' :
  collect_stream scan_stream edge_types pick prefix st = Ok st' ->
  visited_vertices (nb_metrics st') = visited_vertices (nb_metrics st).
Proof. unfold collect_stream. destruct (scan_stream prefix); [apply collect_rows_visited|done]. Qed.

Lemma collect_visited u m vs m' :
  collect_neighbor_vids scan_stream space u edge_types bidirect m = Ok (vs, m') ->
  visited_vertices m' = visited_vertices m.
Proof.
  unfold collect_neighbor_vids. destruct (collect_stream _ _ dst_vid _ _) as [st|] eqn:E1; [|done].
  apply collect_stream_visited in E1. cbn [nb_metrics] in E1.
  destruct bidirect; [|by intros [= <- <-]].
  destruct (collect_stream _ _ src_vid _ _) as [st2|] eqn:E2; [|done].
  apply collect_stream_visited in E2. intros [= <- <-]. congruence.
Qed.

Lemma record_frontier_visited n m : visited_vertices (record_frontier n m) = visited_vertices m.
Proof. unfold record_frontier. by destruct (_ <? _). Qed.

(** [Y] holds the vertices that were expanded: the count is at most their number
    (less only when the 64-bit counter has wrapped). *)
Definition spent (start : Z) (n : nat) (Y : gset Z) (m : TraversalMetrics) : Prop :=
  0 <= visited_vertices m <= Z.of_nat (size Y) /\ forall v, v ∈ Y -> near start n v.

Lemma spent_more start n Y m m' u :
  spent start n Y m -> u ∉ Y -> near start n u -> visited_vertices m' = visited_vertices (count_visited m) ->
  spent start n ({[u]} ∪ Y) m'.
Proof.
  intros [Hc HY] Hu Hn Hm. split.
  - rewrite Hm. cbn [count_visited visited_vertices]. rewrite size_union, size_singleton by set_solver.
    unfold u64_add, as_u64. pose proof (Z.mod_pos_bound (visited_vertices m + 1) two64 ltac:(done)).
    pose proof (Z.mod_le (visited_vertices m + 1) two64 ltac:(lia) ltac:(done)). lia.
  - intros v [->%elem_of_singleton|?]%elem_of_union; auto.
Qed.

Lemma spent_same start n Y m m' : spent start n Y m -> visited_vertices m' = visited_vertices m -> spent start n Y m'.
Proof. unfold spent. by intros ? ->. Qed.

Lemma spent_over start n Y m u :
  spent start n Y m -> u ∉ Y -> near start n u -> over_budget max_nodes m = true -> exhausted start n.
Proof.
  intros [Hc HY] Hu Hn Hb. unfold over_budget in Hb. apply andb_prop in Hb as [Hb Hb']. split; [lia|].
  exists ({[u]} ∪ Y). rewrite size_union, size_singleton by set_solver. split; [lia|].
  intros v [->%elem_of_singleton|?]%elem_of_union; auto.
Qed.

(** ** The breadth-first search *)

Section bfs.
Context (start target : Z) (max_steps : nat) (X : gset Z).
Context (Hst : start <> target) (HX : start ∈ X) (Hclosed : forall u v, adjacent u v -> v ∈ X).

(** [dep] gives the level of each visited vertex; [busy] is the vertex being
    expanded, its level and the neighbours that are left. *)
Record bfs_inv (busy : option (Z * nat * list Z)) (dep : gmap Z nat) (st : Search) : Prop := {
  inv_start : dep !! start = Some O;
  inv_visited v : v ∈ visited st <-> is_Some (dep !! v);
  inv_target : target ∉ visited st;
  inv_X : visited st ⊆ X;
  inv_parent v d : dep !! v = Some d -> v = start \/
    exists p d', parent st !! v = Some p /\ dep !! p = Some d' /\ d = S d' /\ adjacent p v;
  inv_queue v d : (v, d) ∈ queue st -> dep !! v = Some d;
  inv_sorted : StronglySorted le (queue st).*2;
  inv_bound x d : dep !! x = Some d ->
    match busy with
    | None => forall b, b ∈ (queue st).*2 -> (d <= S b)%nat
    | Some (_, b, _) => (d <= S b)%nat
    end;
  inv_busy : match busy with
             | None => True
             | Some (u, d, vs) =>
                 dep !! u = Some d /\ (forall x, x ∈ (queue st).*2 -> (d <= x <= S d)%nat) /\
                 (forall v, v ∈ vs -> adjacent u v) /\
                 forall v, adjacent u v -> v ∈ vs \/ exists d', dep !! v = Some d' /\ (d' <= S d)%nat
             end;
  inv_done x d : dep !! x = Some d ->
    (x, d) ∈ queue st \/ match busy with Some (u, _, _) => x = u | None => False end \/ (max_steps <= d)%nat \/
    forall v, adjacent x v -> exists d', dep !! v = Some d' /\ (d' <= S d)%nat
}.

(** Every path within the bound ends at a visited vertex or passes the queue. *)
Lemma path_covered dep st q :
  bfs_inv None dep st -> path_from start q -> (length q <= max_steps)%nat ->
  (exists d, dep !! path_end start q = Some d /\ (d <= length q)%nat) \/
  exists x d, (x, d) ∈ queue st /\ (d < length q)%nat.
Proof.
  intros Hi. induction q as [|v q IH] using rev_ind; intros Hp Hl.
  { left. exists O. split; [apply Hi|simpl; lia]. }
  rewrite path_from_app in Hp. destruct Hp as [Hp [Hv _]]. rewrite length_app in *. simpl in *.
  destruct IH as [(d & Hd & Hle)|(x & d & Hx & Hlt)]; [done|lia| |right; exists x, d; split; [done|lia]].
  rewrite path_end_snoc. destruct (inv_done _ _ _ Hi _ _ Hd) as [Hq|[[]|[Hm|Hall]]].
  - right. exists (path_end start q), d. split; [done|lia].
  - lia.
  - left. destruct (Hall v Hv) as (d' & Hd' & Hle'). exists d'. split; [done|lia].
Qed.

(** *** Following the parents *)

Definition parents_ok (dep : gmap Z nat) (parent : gmap Z Z) : Prop :=
  dep !! start = Some O /\
  forall v d, dep !! v = Some d -> v = start \/
    exists p d', parent !! v = Some p /\ dep !! p = Some d' /\ d = S d' /\ adjacent p v.

Lemma parent_keys dep parent v d :
  parents_ok dep parent -> dep !! v = Some d ->
  exists l, length l = d /\ NoDup l /\ forall x, x ∈ l -> is_Some (parent !! x) /\ exists d', dep !! x = Some d' /\ (d' <= d)%nat.
Proof.
  intros [Hs Hp]. revert v. induction d as [|d IH]; intros v Hv.
  { exists []. split; [done|]. split; [constructor|]. intros x Hx. by apply elem_of_nil in Hx. }
  destruct (Hp v (S d) Hv) as [->|(p & d' & Hpar & Hd' & [= <-] & _)]; [congruence|].
  destruct (IH p Hd') as (l & Hl & Hnd & Hin). exists (v :: l). split; [simpl; lia|]. split.
  - constructor; [|done]. intros (_ & d'' & Hd'' & Hle)%Hin. rewrite Hv in Hd''. injection Hd'' as <-. lia.
  - intros x [->|Hx]%elem_of_cons; [split; [by exists p|by exists (S d)]|].
    destruct (Hin x Hx) as (? & d'' & ? & ?). split; [done|]. exists d''. split; [done|lia].
Qed.

Lemma parent_depth dep parent v d : parents_ok dep parent -> dep !! v = Some d -> (d <= size parent)%nat.
Proof.
  intros Hp Hv. destruct (parent_keys _ _ _ _ Hp Hv) as (l & <- & Hnd & Hin).
  rewrite <- size_dom. assert (Hsub : list_to_set l ⊆ dom parent).
  { intros x. rewrite elem_of_list_to_set. intros [Hx _]%Hin. by apply elem_of_dom. }
  apply subseteq_size in Hsub. by rewrite size_list_to_set in Hsub.
Qed.

Lemma chain_path dep parent fuel v d :
  parents_ok dep parent -> dep !! v = Some d -> (d <= fuel)%nat ->
  is_path start v (reverse (parent_chain fuel parent start v)) /\
  length (parent_chain fuel parent start v) = S d.
Proof.
  intros [Hs Hp]. revert v d. induction fuel as [|fuel IH]; intros v d Hv Hle; cbn [parent_chain].
  - assert (d = O) as -> by lia. destruct (Hp v O Hv) as [->|(? & ? & _ & _ & [=] & _)].
    rewrite Z.eqb_refl. split; [exists []; done|done].
  - destruct (Z.eqb_spec v start) as [->|Hne].
    { rewrite Hs in Hv. injection Hv as <-. split; [exists []; done|done]. }
    destruct (Hp v d Hv) as [?|(p & d' & -> & Hd' & -> & Hadj)]; [done|].
    destruct (IH p d' Hd' ltac:(lia)) as [(q & Hq & Hpath & Hend) Hlen].
    rewrite reverse_cons, Hq. split; [|simpl; lia]. exists (q ++ [v]). split; [done|].
    rewrite path_from_app, path_end_snoc, Hend. simpl. done.
Qed.

(** *** One vertex *)

Lemma found_path u d vs dep st :
  bfs_inv (Some (u, d, target :: vs)) dep st ->
  is_path start target (reconstruct_path (<[target := u]> (parent st)) start target) /\
  length (reconstruct_path (<[target := u]> (parent st)) start target) = S (S d).
Proof.
  intros Hi. destruct (inv_busy _ _ _ Hi) as (Hu & _ & Hvs & _).
  assert (Hnone : dep !! target = None).
  { apply eq_None_not_Some. intros Ht%(inv_visited _ _ _ Hi). by apply (inv_target _ _ _ Hi). }
  assert (Hok : parents_ok (<[target := S d]> dep) (<[target := u]> (parent st))).
  { split; [rewrite lookup_insert_ne by done; apply Hi|]. intros v d'. rewrite !lookup_insert.
    case_decide as Hv; [intros [= <-]; subst v|].
    - right. exists u, d. rewrite lookup_insert_ne by congruence. split_and!; [done|done|done|]. apply Hvs. left.
    - intros [->|(p & d'' & Hp & Hd & -> & Ha)]%(inv_parent _ _ _ Hi); [by left|right].
      exists p, d''. rewrite lookup_insert_ne by congruence. done. }
  unfold reconstruct_path. rewrite length_reverse. eapply chain_path; [exact Hok|by rewrite lookup_insert_eq|].
  eapply parent_depth; [exact Hok|by rewrite lookup_insert_eq].
Qed.

Lemma skip_neighbor u d v vs dep st :
  v ∈ visited st -> bfs_inv (Some (u, d, v :: vs)) dep st -> bfs_inv (Some (u, d, vs)) dep st.
Proof.
  intros Hv Hi. destruct Hi. split; try done. destruct inv_busy0 as (H1' & H2' & H3' & H4').
  split_and!; [done|done|intros x Hx; apply H3'; by right|].
  intros x [[->|?]%elem_of_cons|?]%H4'; [|by left|by right]. right.
  apply inv_visited0 in Hv as [d' Hd']. exists d'. split; [done|]. by eapply inv_bound0.
Qed.

Lemma push_neighbor u d v vs dep st m :
  v ∉ visited st -> v <> target -> bfs_inv (Some (u, d, v :: vs)) dep st ->
  bfs_inv (Some (u, d, vs)) (<[v := S d]> dep)
    (mkSearch ({[v]} ∪ visited st) (<[v := u]> (parent st)) (queue st ++ [(v, S d)]) m).
Proof.
  intros Hv Hvt Hi. pose proof Hi as []. destruct inv_busy0 as (Hu & Hq & Hvs & Hadj).
  assert (Hnone : dep !! v = None).
  { apply eq_None_not_Some. intros Ht. by apply Hv, inv_visited0. }
  assert (Hkeep : forall x dx, dep !! x = Some dx -> <[v := S d]> dep !! x = Some dx).
  { intros x dx Hx. rewrite lookup_insert_ne by congruence. done. }
  split; cbn [visited parent queue].
  - by apply Hkeep.
  - intros x. rewrite elem_of_union, elem_of_singleton, inv_visited0, lookup_insert. case_decide; naive_solver.
  - set_solver.
  - apply union_subseteq. split; [|done]. apply singleton_subseteq_l, (Hclosed u), Hvs. left.
  - intros x dx. rewrite !lookup_insert. case_decide as Hx; [intros [= <-]; subst x|].
    + right. exists u, d. split_and!; [done|by apply Hkeep|done|apply Hvs; left].
    + intros [->|(p & d' & Hp & Hd & -> & Ha)]%inv_parent0; [by left|right]. exists p, d'. auto.
  - intros x dx [Hx|[= -> ->]%list_elem_of_singleton]%elem_of_app; [auto|by rewrite lookup_insert_eq].
  - rewrite fmap_app. apply StronglySorted_app_2; [|done|repeat constructor].
    intros a b Ha Hb. simpl in Hb. apply list_elem_of_singleton in Hb as ->. by apply Hq.
  - intros x dx. rewrite lookup_insert. case_decide; [by intros [= <-]|apply inv_bound0].
  - split_and!; [by apply Hkeep| |intros x Hx; apply Hvs; by right|].
    + intros x. rewrite fmap_app, elem_of_app. simpl. rewrite list_elem_of_singleton. intros [Hx| ->]; [auto|lia].
    + intros x [[->|?]%elem_of_cons|(d' & Hd' & Hle)]%Hadj; [right|by left|right; eauto].
      exists (S d). by rewrite lookup_insert_eq.
  - intros x dx. rewrite lookup_insert. case_decide as Hx; [intros [= <-]; subst x|].
    + left. apply elem_of_app. right. by apply list_elem_of_singleton.
    + intros [?|[?|[?|Hall]]]%inv_done0; [left; apply elem_of_app; by left|by auto|by auto|].
      right; right; right. intros y (d' & ? & ?)%Hall. eauto.
Qed.

Lemma visit_neighbors_inv u d vs dep st :
  bfs_inv (Some (u, d, vs)) dep st ->
  match visit_neighbors start target u d vs st with
  | inl st' => (exists dep', bfs_inv (Some (u, d, [])) dep' st') /\
      (length (queue st') + size (visited st) = length (queue st) + size (visited st'))%nat
  | inr (path, _) => is_path start target path /\ length path = S (S d) /\ adjacent u target
  end.
Proof.
  revert dep st. induction vs as [|v vs IH]; intros dep st Hi; cbn [visit_neighbors]; [eauto|].
  case_bool_decide as Hv; [by eapply IH, skip_neighbor|].
  destruct (Z.eqb_spec v target) as [->|Hne].
  - destruct (found_path _ _ _ _ _ Hi). split_and!; [done|done|]. apply (inv_busy _ _ _ Hi). left.
  - specialize (IH _ _ (push_neighbor _ _ _ _ _ _ (record_frontier (length (queue st ++ [(v, S d)])) (bfs_metrics st))
      Hv Hne Hi)). destruct (visit_neighbors _ _ _ _ _ _) as [st'|[path m]]; [|done].
    destruct IH as [? Hsz]. split; [done|]. cbn [visited queue] in Hsz.
    rewrite length_app, size_union, size_singleton in Hsz by set_solver. simpl in Hsz. lia.
Qed.

(** *** The loop *)

Lemma bfs_pop u d q dep st :
  queue st = (u, d) :: q -> bfs_inv None dep st ->
  dep !! u = Some d /\ (forall x, x ∈ q.*2 -> (d <= x <= S d)%nat) /\ StronglySorted le q.*2.
Proof.
  intros Eq []. rewrite Eq in *.
  rewrite fmap_cons in inv_sorted0. apply StronglySorted_inv in inv_sorted0 as [Hs Hall].
  split; [apply inv_queue0; left|]. split; [|done]. intros x Hx. rewrite Forall_forall in Hall.
  split; [by apply Hall|]. apply list_elem_of_fmap in Hx as ([y dy] & -> & Hy).
  apply (inv_bound0 y); [apply inv_queue0; by right|]. left.
Qed.

Lemma bfs_begin u d q dep st vs m m' :
  queue st = (u, d) :: q -> bfs_inv None dep st ->
  collect_neighbor_vids scan_stream space u edge_types bidirect m = Ok (vs, m') ->
  bfs_inv (Some (u, d, vs)) dep (mkSearch (visited st) (parent st) q m').
Proof.
  intros Eq Hi Hc. destruct (bfs_pop _ _ _ _ _ Eq Hi) as (Hu & Hq & Hs). destruct (collect_spec _ _ _ _ Hc) as [_ Hvs].
  destruct Hi. rewrite Eq in *. split; cbn [visited parent queue]; try done.
  - intros v dv Hin. apply inv_queue0. by right.
  - intros x dx Hx. apply (inv_bound0 x dx Hx). left.
  - split_and!; [done|done|by intros v ?%Hvs|]. intros v Hv. left. by apply Hvs.
  - intros x dx Hx. destruct (inv_done0 x dx Hx) as [[[= -> ->]|?]%elem_of_cons|[[]|?]]; auto.
Qed.

Lemma bfs_skip u d q dep st :
  queue st = (u, d) :: q -> (max_steps <= d)%nat -> bfs_inv None dep st ->
  bfs_inv None dep (mkSearch (visited st) (parent st) q (bfs_metrics st)).
Proof.
  intros Eq Hd Hi. destruct (bfs_pop _ _ _ _ _ Eq Hi) as (Hu & Hq & Hs). destruct Hi. rewrite Eq in *.
  split; cbn [visited parent queue]; try done.
  - intros v dv Hin. apply inv_queue0. by right.
  - intros x dx Hx b Hb. apply (inv_bound0 x dx Hx). by right.
  - intros x dx Hx. destruct (inv_done0 x dx Hx) as [[[= -> ->]|?]%elem_of_cons|[[]|?]]; auto.
Qed.

Lemma bfs_finish u d dep st : bfs_inv (Some (u, d, [])) dep st -> bfs_inv None dep st.
Proof.
  intros []. destruct inv_busy0 as (Hu & Hq & _ & Hadj). split; try done.
  - intros x dx Hx b Hb. apply inv_bound0 in Hx. apply Hq in Hb. lia.
  - intros x dx Hx. destruct (inv_done0 x dx Hx) as [?|[->|[?|?]]]; auto.
    right; right; right. intros v [Hv|?]%Hadj; [by apply elem_of_nil in Hv|].
    assert (dx = d) as -> by congruence. done.
Qed.

(** A shortest path if there is one within the bound; an error only if more vertices
    than the budget allows are near enough to be expanded, or a row of one of them
    cannot be read. *)
Definition search_outcome (r : Result ExecutionError (option (list Z) * TraversalMetrics)) : Prop :=
  match r with
  | Ok (Some p, _) =>
      is_path start target p /\ (length p <= S max_steps)%nat /\
      forall q, is_path start target q -> (length p <= length q)%nat
  | Ok (None, _) => forall q, is_path start target q -> (S max_steps < length q)%nat
  | Err e => search_error start max_steps e
  end.

(** No path to the target is shorter than the front of the queue allows. *)
Lemma path_lower_bound dep st q :
  bfs_inv None dep st -> is_path start target q -> (length q <= S max_steps)%nat ->
  exists x d, (x, d) ∈ queue st /\ (S d < length q)%nat.
Proof.
  intros Hi (q' & -> & Hp & He) Hl. simpl in *.
  destruct (path_covered dep st q' Hi Hp ltac:(lia)) as [(d & Hd & _)|(x & d & ? & ?)]; [|exists x, d; split; [done|lia]].
  rewrite He in Hd. destruct (inv_target _ _ _ Hi). apply (inv_visited _ _ _ Hi). eauto.
Qed.

(** *** The budget *)

(** The vertices in the queue are visited, distinct and not expanded yet. *)
Definition queue_fresh (Y : gset Z) (st : Search) : Prop :=
  NoDup (queue st).*1 /\ Y ⊆ visited st /\ forall v, v ∈ (queue st).*1 -> v ∈ visited st /\ v ∉ Y.

Lemma queue_fresh_pop u d q Y st m :
  queue st = (u, d) :: q -> queue_fresh Y st ->
  u ∉ Y /\ queue_fresh Y (mkSearch (visited st) (parent st) q m) /\
  queue_fresh ({[u]} ∪ Y) (mkSearch (visited st) (parent st) q m).
Proof.
  intros Eq (Hnd & HY & Hq). rewrite Eq, fmap_cons in *. apply NoDup_cons in Hnd as [Hu Hnd]. cbn [fst] in *.
  destruct (Hq u) as [Hv Hn]; [left|]. unfold queue_fresh. cbn [queue visited]. set_solver.
Qed.

Lemma visit_neighbors_fresh u d vs Y st st' :
  queue_fresh Y st -> visit_neighbors start target u d vs st = inl st' ->
  queue_fresh Y st' /\ visited_vertices (bfs_metrics st') = visited_vertices (bfs_metrics st).
Proof.
  revert st. induction vs as [|v vs IH]; intros st Hf; cbn [visit_neighbors]; [by intros [= <-]|].
  case_bool_decide as Hv; [by apply IH|]. destruct (v =? target); [done|]. intros Hst'.
  apply IH in Hst' as [? ->]; [cbn [bfs_metrics]; by rewrite record_frontier_visited|].
  destruct Hf as (Hnd & HY & Hq). unfold queue_fresh. cbn [queue visited]. rewrite fmap_app. cbn [fmap list_fmap fst].
  split_and!; [|set_solver|set_solver]. apply NoDup_app. split_and!; [done| |apply NoDup_singleton]. set_solver.
Qed.

Lemma queued_near u d q dep st :
  queue st = (u, d) :: q -> (d < max_steps)%nat -> bfs_inv None dep st -> near start max_steps u.
Proof.
  intros Eq Hd Hi. destruct (bfs_pop _ _ _ _ _ Eq Hi) as (Hu & _ & _).
  assert (Hok : parents_ok dep (parent st)) by (split; apply Hi).
  destruct (chain_path dep (parent st) d u d Hok Hu ltac:(done)) as [Hp Hl].
  eexists. split; [exact Hp|]. rewrite length_reverse, Hl. lia.
Qed.

Lemma bfs_correct fuel Y dep st :
  bfs_inv None dep st -> queue_fresh Y st -> spent start max_steps Y (bfs_metrics st) ->
  (length (queue st) + size X <= fuel + size (visited st))%nat ->
  exists r, bfs scan_stream max_nodes fuel space edge_types max_steps bidirect start target st = Some r /\
    search_outcome r.
Proof.
  revert Y dep st. induction fuel as [|fuel IH]; intros Y dep st Hi Hfr Hsp Hfuel.
  all: pose proof (subseteq_size _ _ (inv_X _ _ _ Hi)) as Hsz; cbn [bfs].
  all: destruct (queue st) as [|[u d] q] eqn:Eq;
    [eexists; split; [done|]; intros q Hq; destruct (le_lt_dec (length q) (S max_steps)) as [Hl|]; [|done];
     destruct (path_lower_bound dep st q Hi Hq Hl) as (x & d & Hx & _); rewrite Eq in Hx; by apply elem_of_nil in Hx|].
  { simpl in Hfuel. lia. }
  cbn [queue] in *. cbn [length] in Hfuel. destruct (Nat.leb_spec max_steps d) as [Hd|Hd].
  { apply (IH Y dep); [by eapply bfs_skip|by eapply queue_fresh_pop|done|]. cbn [queue visited]. lia. }
  pose proof (queued_near _ _ _ _ _ Eq Hd Hi) as Hnear.
  cbn [bfs_metrics visited parent]. destruct (over_budget max_nodes (bfs_metrics st)) eqn:Eb.
  { eexists. split; [done|]. left. split; [|done].
    destruct (queue_fresh_pop _ _ _ _ _ no_metrics Eq Hfr) as [HuY _]. by eapply spent_over. }
  destruct (collect_neighbor_vids _ _ _ _ _ _) as [[vs m]|e] eqn:Ec.
  2: { eexists. split; [done|]. right. exists u. split; [done|]. by eapply collect_error. }
  destruct (queue_fresh_pop _ _ _ _ _ m Eq Hfr) as (HuY & _ & Hfr').
  pose proof (spent_more _ _ _ _ _ _ Hsp HuY Hnear (collect_visited _ _ _ _ Ec)) as Hsp'.
  pose proof (bfs_begin _ _ _ _ _ _ _ _ Eq Hi Ec) as Hb. pose proof (visit_neighbors_inv _ _ _ _ _ Hb) as Hv.
  destruct (visit_neighbors _ _ _ _ _ _) as [st'|[path m']] eqn:Ev.
  - destruct Hv as [[dep' Hv] Hlen]. cbn [queue visited] in Hlen.
    destruct (visit_neighbors_fresh _ _ _ _ _ _ Hfr' Ev) as [Hfr'' Em].
    eapply IH; [eapply bfs_finish, Hv|exact Hfr''|by eapply spent_same|]. lia.
  - destruct Hv as (Hpath & Hlen & _). eexists. split; [done|]. split; [done|]. split; [lia|]. intros p Hp.
    destruct (le_lt_dec (length p) (S max_steps)) as [Hl|]; [|lia].
    destruct (path_lower_bound dep st p Hi Hp Hl) as (x & dx & Hx & Hlt).
    assert (d <= dx)%nat; [|lia]. rewrite Eq in Hx. apply elem_of_cons in Hx as [[= -> ->]|Hx]; [done|].
    destruct (bfs_pop _ _ _ _ _ Eq Hi) as (_ & Hq & _). apply (Hq dx). by apply (list_elem_of_fmap_2 snd) in Hx.
Qed.

Lemma bfs_initial m : bfs_inv None {[start := O]} (mkSearch {[start]} ∅ [(start, O)] m).
Proof.
  split; cbn [visited parent queue].
  - by rewrite lookup_singleton_eq.
  - intros v. rewrite elem_of_singleton, lookup_singleton. case_decide; naive_solver.
  - set_solver.
  - set_solver.
  - intros v d. rewrite lookup_singleton. case_decide; [by left|done].
  - intros v d [= -> ->]%list_elem_of_singleton. by rewrite lookup_singleton_eq.
  - repeat constructor.
  - intros x d. rewrite lookup_singleton. case_decide; [|done]. intros [= <-] b _. lia.
  - done.
  - intros x d. rewrite lookup_singleton. case_decide; [|done]. intros [= <-]. subst. left. by left.
Qed.
End bfs.
End search.
