(* ===== verification/FindPath.v ===== *)
(** * FIND SHORTEST PATH on the in-memory store

    [GraphAlgo.shortest_path] over [MemoryKVStore]: the vertices a search can meet
    are the ends of the stored edge records, so the number of rounds is bounded by
    the size of the store, and every step of a path follows a stored edge. *)

From Stdlib Require Import ZArith Lia Strings.Byte Strings.String.
From stdpp Require Import base tactics list gmap fin_sets sorting.
From S2P Require Import Prelude OrdMap KVStore KVStoreFacts Text SchemaKey Value Exec VertexCodec VertexCodecFacts GraphAlgo PathFacts.

Lemma list_to_set_size (l : list Z) : (size (list_to_set l : gset Z) <= length l)%nat.
Proof.
  induction l as [|x l IH]; [done|]. cbn [list_to_set length]. rewrite size_union_alt, size_singleton.
  pose proof (subseteq_size ((list_to_set l : gset Z) ∖ {[x]}) (list_to_set l) ltac:(set_solver)). lia.
Qed.

Section memory.
Context `{DebugText} `{ProstMessage PbVertex} `{ProstMessage PbEdge} `{SerdeJson JsonValue}.

Definition memory_scan (s : MemoryKVStore) (prefix : bytes) : KVResult (list (KVResult kv_pair)) :=
  (Memory.scan_stream prefix s).1.

(** The ends of the edge records that can be read. *)
Definition row_ends (kv : kv_pair) : list Z :=
  match decode_query_edge kv.1 kv.2 with Ok e => [src_vid e; dst_vid e] | Err _ => [] end.
Definition edge_ends (s : MemoryKVStore) : list Z := data s ≫= row_ends.

Lemma edge_ends_length s : (length (edge_ends s) <= 2 * length (data s))%nat.
Proof.
  unfold edge_ends. induction (data s) as [|kv l IH]; [done|]. rewrite bind_cons, length_app. simpl length.
  assert (length (row_ends kv) <= 2)%nat by (unfold row_ends; case_match; simpl; lia). lia.
Qed.

Section store.
Context (s : MemoryKVStore) (space : bytes) (edge_types : list bytes) (bidirect : bool).
Context (Hwf : om_wf (data s)).

Lemma edge_row_stored prefix e :
  edge_row (memory_scan s) edge_types prefix e <->
  exists key value, om_get key (data s) = Some value /\ starts_with prefix key = true /\
    type_selected edge_types key = true /\ decode_query_edge key value = Ok e.
Proof.
  unfold edge_row, memory_scan, Memory.scan_stream. cbn [fst]. rewrite prefix_walk by done. split.
  - intros (items & key & value & [= <-] & Hin & Ht & Hd). exists key, value.
    apply list_elem_of_fmap in Hin as (kv & [= <-] & Hin). apply list_elem_of_In, filter_In in Hin as [Hin Hp].
    rewrite om_get_elem, list_elem_of_In by done. done.
  - intros (key & value & Hg & Hp & Ht & Hd). eexists _, key, value. split_and!; [done| |done|done].
    apply (list_elem_of_fmap_2 Ok), list_elem_of_In, filter_In. rewrite <- list_elem_of_In, <- om_get_elem by done. done.
Qed.

(** A readable record of the selected types under [{space}:{kind}:]. *)
Definition edge_record (kind : bytes) (e : EdgeData) : Prop :=
  exists key value, om_get key (data s) = Some value /\ starts_with (space ++ bs ":" ++ kind ++ bs ":") key = true /\
    type_selected edge_types key = true /\ decode_query_edge key value = Ok e.

(** What the key of a record under [{space}:{kind}:{u}:] says of the record. *)
Lemma key_first kind u key value e :
  colon_free space -> colon_free kind -> i64_ok u ->
  starts_with (space ++ bs ":" ++ kind ++ bs ":" ++ dec u ++ bs ":") key = true ->
  decode_query_edge key value = Ok e ->
  starts_with (space ++ bs ":" ++ kind ++ bs ":") key = true /\
  (kind = bs "edge" -> src_vid e = u) /\ (kind = bs "in-edge" -> dst_vid e = u).
Proof.
  intros Hs Hk Hu [l ->]%starts_with_iff Hd. split.
  { apply starts_with_iff. exists (dec u ++ bs ":" ++ l). by rewrite <- !app_assoc. }
  unfold decode_query_edge in Hd. destruct (_ && _); [done|]. destruct (decode_edge value) as [e'|]; [|done].
  destruct (utf8_valid _ && key_matches _ _) eqn:E; [|done]. injection Hd as ->.
  apply andb_prop in E as [_ E]. unfold key_matches in E. rewrite <- !app_assoc in E. cbn [bs app] in E.
  change (bs ":") with [COLON] in E. cbn [app] in E.
  rewrite split_colon_app, split_colon_app, split_colon_app in E by (done || apply dec_colon_free).
  destruct (split_colon l) as [|etype [|second [|rank [|? ?]]]]; try done. rewrite parse_i64_dec in E by done.
  apply andb_prop in E as [_ E]. destruct (parse_i64 second) as [z|]; [|done]. destruct (parse_i64 rank) as [r|]; [|done].
  apply andb_prop in E as [E _]. split; intros ->.
  - rewrite bool_decide_eq_true_2 in E by done. lia.
  - rewrite bool_decide_eq_false_2 in E by done. rewrite bool_decide_eq_true_2 in E by done. lia.
Qed.

Lemma adjacent_sound u v :
  colon_free space -> i64_ok u -> adjacent (memory_scan s) space edge_types bidirect u v ->
  (exists e, edge_record (bs "edge") e /\ src_vid e = u /\ dst_vid e = v) \/
  (bidirect = true /\ exists e, edge_record (bs "in-edge") e /\ dst_vid e = u /\ src_vid e = v).
Proof.
  intros Hs Hu [(e & Hr & <-)|(-> & e & Hr & <-)]; apply edge_row_stored in Hr as (key & value & Hg & Hp & Ht & Hd).
  - left. exists e. destruct (key_first (bs "edge") u key value e) as (? & ? & _); try done.
    { intros Hc. vm_compute in Hc. set_solver. }
    split_and!; [|auto|done]. by exists key, value.
  - right. split; [done|]. exists e. destruct (key_first (bs "in-edge") u key value e) as (? & _ & ?); try done.
    { intros Hc. vm_compute in Hc. set_solver. }
    split_and!; [|auto|done]. by exists key, value.
Qed.

(** A record under the key it is written at is a step of the search. *)
Lemma adjacent_complete e value :
  om_get (SchemaKey.edge_data space (src_vid e) (edge_type e) (dst_vid e) (ranking e)) (data s) = Some value ->
  type_selected edge_types (SchemaKey.edge_data space (src_vid e) (edge_type e) (dst_vid e) (ranking e)) = true ->
  decode_query_edge (SchemaKey.edge_data space (src_vid e) (edge_type e) (dst_vid e) (ranking e)) value = Ok e ->
  adjacent (memory_scan s) space edge_types bidirect (src_vid e) (dst_vid e).
Proof.
  intros Hg Ht Hd. left. exists e. split; [|done]. apply edge_row_stored. eexists _, value. split_and!; try done.
  apply starts_with_iff. unfold SchemaKey.edge_data, forward_prefix. eexists. rewrite <- !app_assoc. done.
Qed.

Definition met (start : Z) : gset Z := list_to_set (start :: edge_ends s).

Lemma met_closed start u v : adjacent (memory_scan s) space edge_types bidirect u v -> v ∈ met start.
Proof.
  assert (forall prefix e, edge_row (memory_scan s) edge_types prefix e -> src_vid e ∈ edge_ends s /\ dst_vid e ∈ edge_ends s)
    as Hend.
  { intros prefix e (key & value & Hg & _ & _ & Hd)%edge_row_stored. apply om_get_elem in Hg; [|done].
    unfold edge_ends. rewrite !list_elem_of_bind.
    split; exists (key, value); (split; [|done]); unfold row_ends; cbn [fst snd]; rewrite Hd; set_solver. }
  unfold met. rewrite elem_of_list_to_set, elem_of_cons.
  intros [(e & Hr & <-)|(_ & e & Hr & <-)]; right; apply Hend in Hr; apply Hr.
Qed.

Lemma met_size start : (size (met start) <= S (2 * length (data s)))%nat.
Proof. unfold met. etrans; [apply list_to_set_size|]. pose proof (edge_ends_length s). simpl. lia. Qed.
End store.

(** C10: on a well-formed in-memory store FIND SHORTEST PATH ends within a number of
    rounds linear in the size of the store. It returns a path of at most
    [max_steps] hops such that no path is shorter, or [None] when every path is
    longer. It fails only when the budget is positive and more than [max_nodes]
    vertices lie fewer than [max_steps] hops from the start, or when the rows of such
    a vertex cannot be read. Every hop follows a readable record stored in the space,
    and every record stored under its key is a hop. *)
Theorem find_shortest_path s selected edge_types bidirect max_steps max_nodes start target fuel :
  let space := default (bs "default") selected in
  om_wf (data s) -> (S (2 * length (data s)) <= fuel)%nat ->
  (exists r, shortest_path (memory_scan s) max_nodes fuel selected start target edge_types max_steps bidirect = Some r /\
    search_outcome (memory_scan s) max_nodes space edge_types bidirect start target max_steps r) /\
  (colon_free space -> forall u v, i64_ok u -> adjacent (memory_scan s) space edge_types bidirect u v ->
    (exists e, edge_record s space edge_types (bs "edge") e /\ src_vid e = u /\ dst_vid e = v) \/
    (bidirect = true /\ exists e, edge_record s space edge_types (bs "in-edge") e /\ dst_vid e = u /\ src_vid e = v)) /\
  (forall e value,
    let key := SchemaKey.edge_data space (src_vid e) (edge_type e) (dst_vid e) (ranking e) in
    om_get key (data s) = Some value -> type_selected edge_types key = true -> decode_query_edge key value = Ok e ->
    adjacent (memory_scan s) space edge_types bidirect (src_vid e) (dst_vid e)).
Proof.
  intros space Hwf Hfuel. split_and!; [|intros; by apply adjacent_sound|intros; by eapply adjacent_complete].
  unfold shortest_path. destruct (Z.eqb_spec start target) as [->|Hst].
  { eexists. split; [done|]. simpl. split_and!; [by exists []|lia|]. intros q (q' & -> & _). simpl. lia. }
  eapply (bfs_correct _ _ _ _ _ _ _ _ (met s start)) with (Y := ∅); [done|set_solver|..].
  - intros u v Huv. by eapply met_closed.
  - apply bfs_initial; [done|set_solver|]. intros u v Huv. by eapply met_closed.
  - unfold queue_fresh. cbn [queue visited fmap list_fmap fst]. split_and!; [apply NoDup_singleton|apply empty_subseteq|].
    intros v ->%list_elem_of_singleton. split; [by apply elem_of_singleton|apply not_elem_of_empty].
  - split; [done|]. intros v Hv. by apply elem_of_empty in Hv.
  - cbn [queue visited length]. pose proof (met_size s start). rewrite size_singleton. lia.
Qed.
End memory.

(** ** A concrete graph *)

Module Demo.
Export RefProst.
#[export] Instance no_text : DebugText := {|
  float_display _ := []; debug_props _ := []; debug_vertices _ := []; debug_strings _ := []; debug_set _ := []
|}.
#[export] Instance no_json : SerdeJson JsonValue := {|
  json_to_vec _ := Err "unsupported"%string; json_from_slice _ := Err "syntax"%string
|}.

Definition demo_row (in_edge : bool) (src dst : Z) : kv_pair :=
  let e := mkEdge src dst (bs "knows") 0 ∅ in
  (if in_edge then SchemaKey.in_edge_data (bs "default") dst (bs "knows") src 0
   else SchemaKey.edge_data (bs "default") src (bs "knows") dst 0,
   match encode_edge e with Ok b => b | Err _ => [] end).

(** 1 -> 2 -> 4, 1 -> 3 -> 4, 4 -> 5. *)
Definition demo_store : MemoryKVStore :=
  {| data := om_insert_all
    (p ← [(1, 2); (1, 3); (2, 4); (3, 4); (4, 5)]; [demo_row false p.1 p.2; demo_row true p.1 p.2]) []; history := [] |}.
End Demo.

Import Demo.

Lemma demo_wf : om_wf (data demo_store).
Proof. apply om_insert_all_wf. constructor. Qed.

(** With a budget of four vertices the path is found; with a budget of two the search
    fails, and three vertices are indeed near enough to be expanded. *)
Lemma find_shortest_path_witness :
  (exists m, shortest_path (memory_scan demo_store) 4 21 None 1 5 [] 10 false = Some (Ok (Some [1; 2; 4; 5], m)) /\
   forall q, is_path (memory_scan demo_store) (bs "default") [] false 1 5 q -> (4 <= length q)%nat) /\
  shortest_path (memory_scan demo_store) 2 21 None 1 5 [] 10 false = Some (Err err_max_nodes) /\
  search_error (memory_scan demo_store) 2 (bs "default") [] false 1 10 err_max_nodes.
Proof.
  destruct (find_shortest_path demo_store None [] false 10 4 1 5 21 demo_wf) as [(r & Hr & Ho) _].
  { vm_compute. lia. }
  destruct (find_shortest_path demo_store None [] false 10 2 1 5 21 demo_wf) as [(r2 & Hr2 & Ho2) _].
  { vm_compute. lia. }
  split; [|split].
  - eexists. split; [vm_compute; reflexivity|].
    assert (E : exists m, r = Ok (Some [1; 2; 4; 5], m)).
    { vm_compute in Hr. injection Hr as <-. eexists. reflexivity. }
    destruct E as [m ->]. intros q Hq. exact (proj2 (proj2 Ho) q Hq).
  - vm_compute. reflexivity.
  - assert (E : r2 = Err err_max_nodes) by (vm_compute in Hr2; injection Hr2 as <-; reflexivity).
    rewrite E in Ho2. exact Ho2.
Defined.
