(* ===== verification/AllPathFacts.v ===== *)
(** * FIND ALL SHORTEST PATHS returns exactly the shortest paths *)

From Stdlib Require Import ZArith Lia Strings.Byte Strings.String.
From stdpp Require Import base tactics list gmap.
From S2P Require Import Prelude KVStore SchemaKey Value Exec VertexCodec GraphAlgo PathFacts FindPath.

Section levels.
Context `{DebugText} `{ProstMessage PbVertex} `{ProstMessage PbEdge} `{SerdeJson JsonValue}.
Context (scan_stream : bytes -> KVResult (list (KVResult kv_pair))) (max_nodes : Z).
Context (space : bytes) (edge_types : list bytes) (bidirect : bool) (start target : Z).
Abbreviation adj := (adjacent scan_stream space edge_types bidirect).
Abbreviation walk := (path_from scan_stream space edge_types bidirect).

(** ** Distances *)

Definition reach (k : nat) (v : Z) : Prop := exists q, walk start q /\ length q = k /\ path_end start q = v.

Definition dist (k : nat) (v : Z) : Prop := reach k v /\ forall j, (j < k)%nat -> ~ reach j v.

Lemma reach_step k u v : reach k u -> adj u v -> reach (S k) v.
Proof.
  intros (q & Hq & Hl & He) Hv. exists (q ++ [v]). rewrite path_from_app, He, length_app, Hl, path_end_snoc.
  split_and!; [done|by split|simpl; lia|done].
Qed.

Lemma reach_pred k v : reach (S k) v -> exists u, reach k u /\ adj u v.
Proof.
  intros (q & Hq & Hl & He). destruct q as [|w q _] using rev_ind; [done|].
  rewrite length_app in Hl. rewrite path_end_snoc in He. apply path_from_app in Hq as [Hq [Hw _]]. subst w.
  exists (path_end start q). split; [|done]. exists q. split_and!; [done|simpl in Hl; lia|done].
Qed.

Lemma dist_start : dist 0 start.
Proof. split; [by exists []|lia]. Qed.

Lemma dist_unique j k v : dist j v -> dist k v -> j = k.
Proof.
  intros [Hj Hj'] [Hk Hk']. destruct (Nat.lt_trichotomy j k) as [Hlt|[?|Hlt]]; [|done|].
  - by destruct (Hk' j Hlt).
  - by destruct (Hj' k Hlt).
Qed.

Lemma dist_zero v : dist 0 v -> v = start.
Proof. intros [(q & _ & Hq & He) _]. destruct q; [|done]. by symmetry. Qed.

(** The vertex before the last of a shortest walk is one step nearer. *)
Lemma dist_pred k v : dist (S k) v -> exists u, dist k u /\ adj u v.
Proof.
  intros [Hr Hn]. destruct (reach_pred _ _ Hr) as (u & Hu & Hv). exists u. split; [|done]. split; [done|].
  intros j Hj Hju. apply (Hn (S j)); [lia|]. by eapply reach_step.
Qed.

(** With no distance up to [d] there is no walk of up to [d] steps. *)
Lemma dist_none d v : (forall k, (k <= d)%nat -> ~ dist k v) -> forall j, (j <= d)%nat -> ~ reach j v.
Proof.
  intros Hn j. induction j as [j IH] using lt_wf_ind. intros Hj Hr.
  apply (Hn j Hj). split; [done|]. intros i Hi. apply IH; lia.
Qed.

Lemma path_end_last u q : last (u :: q) = Some (path_end u q).
Proof. rewrite last_cons. unfold path_end. by destruct (last q). Qed.

Abbreviation path_to v p := (is_path scan_stream space edge_types bidirect start v p).

Lemma path_to_snoc v p l : path_to v ((l ++ [p]) ++ [v]) <-> path_to p (l ++ [p]) /\ adj p v.
Proof.
  split.
  - intros (q & E & Hq & He). destruct q as [|w q _] using rev_ind; [by destruct l as [|? [|]]|].
    rewrite app_comm_cons in E. apply app_inj_tail in E as [E ->].
    assert (path_end start q = p) as Hp.
    { apply (f_equal last) in E. rewrite last_snoc, path_end_last in E. congruence. }
    apply path_from_app in Hq as [Hq [Hv _]]. rewrite Hp in Hv. split; [|done]. by exists q.
  - intros [(q & E & Hq & He) Hv]. exists (q ++ [v]). rewrite E, path_from_app, path_end_snoc, He. done.
Qed.

Lemma path_to_reach v p : path_to v p -> exists k, length p = S k /\ reach k v.
Proof. intros (q & -> & Hq & He). exists (length q). split; [done|]. by exists q. Qed.

(** ** The levels *)

(** The state while level [d] is expanded; [proc] holds of the edges met. *)
Record level_inv (d : nat) (proc : Z -> Z -> Prop) (st : Levels) : Prop := {
  lv_depth v k : depth st !! v = Some k <->
    ((k <= d)%nat /\ dist k v) \/ (k = S d /\ dist (S d) v /\ exists u, proc u v);
  lv_next v : v ∈ next_frontier st <-> dist (S d) v /\ exists u, proc u v;
  lv_nodup : NoDup (next_frontier st);
  lv_old k v : (S k <= d)%nat -> dist (S k) v ->
    exists ps, parents st !! v = Some ps /\ NoDup ps /\ forall u, u ∈ ps <-> dist k u /\ adj u v;
  lv_new v : dist (S d) v -> (exists u, proc u v) ->
    exists ps, parents st !! v = Some ps /\ NoDup ps /\ forall u, u ∈ ps <-> proc u v;
  lv_found : found st = true <-> is_Some (depth st !! target)
}.

Lemma level_inv_iff d proc proc' st :
  (forall u v, proc u v <-> proc' u v) -> level_inv d proc st -> level_inv d proc' st.
Proof.
  intros Hp []. split; intros *; repeat setoid_rewrite <- Hp; auto.
Qed.

Section step.
Context (d : nat) (proc : Z -> Z -> Prop) (st : Levels) (u v : Z).
Context (Hu : dist d u) (Huv : adj u v) (Hnew : ~ proc u v) (Hi : level_inv d proc st).
Definition proc_more (u' v' : Z) : Prop := proc u' v' \/ (u' = u /\ v' = v).

Lemma more_other w : w <> v -> (exists x, proc_more x w) <-> exists x, proc x w.
Proof. intros Hw. unfold proc_more. split; intros [x Hx]; exists x; naive_solver. Qed.

Lemma first_met : depth st !! v = None -> dist (S d) v /\ forall x, ~ proc x v.
Proof.
  intros Ed. destruct Hi. assert (Hn : forall k, (k <= d)%nat -> ~ dist k v).
  { intros k Hk Hd. assert (depth st !! v = Some k) by (apply lv_depth0; auto). congruence. }
  assert (Hd : dist (S d) v).
  { split; [destruct Hu; by eapply reach_step|]. intros j Hj. apply (dist_none d); [done|lia]. }
  split; [done|]. intros x Hx. assert (depth st !! v = Some (S d)); [|congruence]. apply lv_depth0. eauto.
Qed.

Lemma step_new : depth st !! v = None ->
  level_inv d proc_more (mkLevels (<[v := S d]> (depth st)) (<[v := [u]]> (parents st))
    (next_frontier st ++ [v]) (if v =? target then true else found st)).
Proof.
  intros Ed. destruct (first_met Ed) as [Hd Hp]. destruct Hi. split; cbn [depth parents next_frontier found].
  - intros w k. destruct (decide (w = v)) as [->|Hw].
    + rewrite lookup_insert_eq. split; [intros [= <-]; right; split_and!; [done|done|exists u; by right]|].
      intros [[Hk Hd']|[-> _]]; [|done]. pose proof (dist_unique _ _ _ Hd Hd'). lia.
    + rewrite lookup_insert_ne, lv_depth0, more_other by done. done.
  - intros w. rewrite elem_of_app, list_elem_of_singleton. destruct (decide (w = v)) as [->|Hw].
    + split; [intros _; split; [done|exists u; by right]|]. by right.
    + rewrite more_other, lv_next0 by done. naive_solver.
  - apply NoDup_app. split_and!; [done| |apply NoDup_singleton].
    intros w [_ [x Hx]]%lv_next0 ->%list_elem_of_singleton. by apply Hp in Hx.
  - intros k w Hk Hw. rewrite lookup_insert_ne; [by apply lv_old0|].
    intros ->. pose proof (dist_unique _ _ _ Hd Hw). lia.
  - intros w Hw. destruct (decide (w = v)) as [->|Hne].
    + intros _. exists [u]. rewrite lookup_insert_eq. split_and!; [done|apply NoDup_singleton|].
      intros x. rewrite list_elem_of_singleton. unfold proc_more. specialize (Hp x). naive_solver.
    + rewrite lookup_insert_ne, more_other by done. intros He. destruct (lv_new0 w Hw He) as (ps & ? & ? & Hps).
      exists ps. split_and!; [done|done|]. intros x. rewrite Hps. unfold proc_more. naive_solver.
  - destruct (Z.eqb_spec v target) as [->|Hne]; [by rewrite lookup_insert_eq|]. by rewrite lookup_insert_ne.
Qed.

Lemma step_again : depth st !! v = Some (S d) ->
  level_inv d proc_more (mkLevels (depth st) (<[v := default [] (parents st !! v) ++ [u]]> (parents st))
    (next_frontier st) (found st)).
Proof.
  intros Ed. destruct Hi. assert (Hd : dist (S d) v /\ exists x, proc x v).
  { apply lv_depth0 in Ed as [[? _]|[_ ?]]; [lia|done]. }
  destruct Hd as [Hd Hx]. assert (Hm : forall w, (exists x, proc_more x w) <-> exists x, proc x w).
  { intros w. destruct (decide (w = v)) as [->|]; [|by apply more_other]. split; [done|].
    intros [x ?]; exists x; by left. }
  split; cbn [depth parents next_frontier found].
  - intros w k. by rewrite Hm, lv_depth0.
  - intros w. by rewrite Hm, lv_next0.
  - done.
  - intros k w Hk Hw. rewrite lookup_insert_ne; [by apply lv_old0|].
    intros ->. pose proof (dist_unique _ _ _ Hd Hw). lia.
  - intros w Hw. rewrite Hm. intros He. destruct (lv_new0 w Hw He) as (ps & Hg & Hnd & Hps).
    destruct (decide (w = v)) as [->|Hne].
    + rewrite lookup_insert_eq, Hg. eexists. split_and!; [done| |].
      * apply NoDup_app. split_and!; [done| |apply NoDup_singleton].
        intros x Hin ->%list_elem_of_singleton. by apply Hps in Hin.
      * intros x. rewrite elem_of_app, list_elem_of_singleton. cbn [default]. unfold default, id. rewrite Hps.
        unfold proc_more. naive_solver.
    + rewrite lookup_insert_ne by done. exists ps. split_and!; [done|done|].
      intros x. rewrite Hps. unfold proc_more. naive_solver.
  - done.
Qed.

Lemma step_nearer dv : depth st !! v = Some dv -> dv <> S d -> level_inv d proc_more st.
Proof.
  intros Ed Hne. destruct Hi. apply lv_depth0 in Ed as [[Hle Hd]|[? _]]; [|done].
  assert (Hm : forall w, dist (S d) w -> forall x, proc_more x w <-> proc x w).
  { intros w Hw x. unfold proc_more. split; [intros [?|[-> ->]]; [done|]|by left].
    pose proof (dist_unique _ _ _ Hd Hw). lia. }
  split.
  - intros w k. rewrite lv_depth0. apply or_iff_compat_l, and_iff_compat_l.
    split; (intros [Hw [x Hx]]; split; [done|exists x; by apply (Hm w Hw)]).
  - intros w. rewrite lv_next0. split; (intros [Hw [x Hx]]; split; [done|exists x; by apply (Hm w Hw)]).
  - done.
  - done.
  - intros w Hw [x Hx]. destruct (lv_new0 w Hw) as (ps & ? & ? & Hps); [exists x; by apply (Hm w Hw)|].
    exists ps. split_and!; [done|done|]. intros y. by rewrite Hps, Hm.
  - done.
Qed.

Lemma level_step : level_inv d proc_more (level_neighbors target u d [v] st).
Proof.
  cbn [level_neighbors]. destruct (depth st !! v) as [dv|] eqn:Ed; [|by apply step_new].
  destruct (Nat.eqb_spec dv (S d)) as [->|Hne]; [by apply step_again|by eapply step_nearer].
Qed.
End step.

Lemma level_neighbors_inv d proc st u vs :
  dist d u -> NoDup vs -> (forall v, v ∈ vs -> adj u v /\ ~ proc u v) -> level_inv d proc st ->
  level_inv d (fun u' v' => proc u' v' \/ (u' = u /\ v' ∈ vs)) (level_neighbors target u d vs st).
Proof.
  intros Hu Hnd. revert proc st. induction Hnd as [|v vs Hv Hnd IH]; intros proc st Hvs Hi.
  { eapply level_inv_iff; [|exact Hi]. intros u' v'. rewrite elem_of_nil. naive_solver. }
  destruct (Hvs v) as [Ha Hp]; [left|].
  change (level_neighbors target u d (v :: vs) st) with
    (level_neighbors target u d vs (level_neighbors target u d [v] st)).
  eapply level_inv_iff; [|apply (IH (proc_more proc u v)); [|by apply level_step]].
  - intros u' v'. unfold proc_more. rewrite elem_of_cons. naive_solver.
  - intros w Hw. destruct (Hvs w) as [? ?]; [by right|]. split; [done|]. intros [?|[_ ->]]; done.
Qed.

Lemma expand_level_inv d before frontier st m st' m' :
  NoDup (before ++ frontier) -> (forall u, u ∈ frontier -> dist d u) ->
  level_inv d (fun u v => u ∈ before /\ adj u v) st ->
  expand_level scan_stream max_nodes space edge_types bidirect target d frontier st m = Ok (st', m') ->
  level_inv d (fun u v => u ∈ before ++ frontier /\ adj u v) st'.
Proof.
  revert before st m. induction frontier as [|u frontier IH]; intros before st m Hnd Hd Hi; cbn [expand_level].
  { intros [= <- <-]. by rewrite app_nil_r. }
  destruct (over_budget max_nodes m); [done|].
  destruct (collect_neighbor_vids _ _ _ _ _ _) as [[vs m1]|] eqn:Ec; [|done].
  destruct (collect_spec _ _ _ _ _ _ _ _ Ec) as [Hvs Hin]. intros He.
  rewrite cons_middle, app_assoc in Hnd |- *. apply (IH (before ++ [u]) _ _ Hnd) in He; [done| |].
  { intros w Hw. apply Hd. by right. }
  assert (u ∉ before) as Hnot.
  { rewrite <- app_assoc in Hnd. apply NoDup_app in Hnd as (_ & Hnd & _). intros Hu. apply (Hnd u Hu). left. }
  eapply level_inv_iff; [|apply level_neighbors_inv; [apply Hd; left|exact Hvs| |exact Hi]].
  - intros u' v'. rewrite elem_of_app, list_elem_of_singleton. setoid_rewrite Hin. naive_solver.
  - intros v Hv. rewrite Hin in Hv. naive_solver.
Qed.

(** Between two levels. *)
Definition settled (d : nat) (frontier : list Z) (st : Levels) : Prop :=
  level_inv d (fun _ _ => False) (mkLevels (depth st) (parents st) [] (found st)) /\
  NoDup frontier /\ forall v, v ∈ frontier <-> dist d v.

Lemma settle d (frontier : list Z) st :
  (forall v, v ∈ frontier <-> dist d v) -> level_inv d (fun u v => u ∈ frontier /\ adj u v) st ->
  settled (S d) (next_frontier st) st.
Proof.
  intros Hf []. assert (Hall : forall v, dist (S d) v -> exists u, u ∈ frontier /\ adj u v).
  { intros v (u & Hu & Hv)%dist_pred. exists u. by rewrite Hf. }
  split_and!; [|done|intros v; rewrite lv_next0; naive_solver].
  split; cbn [depth parents next_frontier found].
  - intros v k. rewrite lv_depth0. split.
    + intros [[? ?]|(-> & ? & _)]; left; (split; [lia|done]).
    + intros [[? Hd]|(_ & _ & u & [])]. destruct (decide (k = S d)) as [->|]; [right|left; split; [lia|done]]. auto.
  - intros v. rewrite elem_of_nil. naive_solver.
  - constructor.
  - intros k v Hk Hv. destruct (decide (k = d)) as [->|]; [|apply lv_old0; [lia|done]].
    destruct (lv_new0 v Hv (Hall v Hv)) as (ps & ? & ? & Hps). exists ps. split_and!; [done|done|].
    intros u. by rewrite Hps, Hf.
  - intros v _ [u []].
  - done.
Qed.

Lemma levels_spec steps d frontier st m st' m' :
  settled d frontier st ->
  levels scan_stream max_nodes steps space edge_types bidirect target d frontier st m = Ok (st', m') ->
  exists d' frontier', settled d' frontier' st' /\ (d' <= d + steps)%nat /\
    (found st' = true \/ d' = (d + steps)%nat \/ frontier' = []).
Proof.
  revert d frontier st m. induction steps as [|steps IH]; intros d frontier st m Hs; cbn [levels].
  { intros [= <- <-]. exists d, frontier. split_and!; [done|lia|right; left; lia]. }
  destruct frontier as [|u frontier]; [intros [= <- <-]; exists d, []; split_and!; [done|lia|auto]|].
  destruct (found st) eqn:Ef; [intros [= <- <-]; exists d, (u :: frontier); split_and!; [done|lia|auto]|].
  destruct (expand_level _ _ _ _ _ _ _ _ _ _) as [[st1 m1]|] eqn:Ee; [|done]. intros Hl.
  destruct Hs as (Hi & Hnd & Hf). rewrite Ef in Hi.
  apply (expand_level_inv d []) in Ee; [|done|by intros w ?%Hf|].
  2: { eapply level_inv_iff; [|exact Hi]. intros u' v'. rewrite elem_of_nil. naive_solver. }
  apply IH in Hl as (d' & f' & Hs' & Hle & Hend); [|by eapply settle].
  exists d', f'. split_and!; [done|lia|]. destruct Hend as [?|[->|?]]; [auto| |auto]. right; left; lia.
Qed.

Lemma settled_initial : start <> target -> settled 0 [start] (mkLevels {[start := O]} ∅ [start] false).
Proof.
  intros Hst. split_and!; [|apply NoDup_singleton|].
  - split; cbn [depth parents next_frontier found].
    + intros v k. rewrite lookup_singleton. split.
      * case_decide as Hv; [|done]. intros [= <-]. subst v. left. split; [lia|apply dist_start].
      * intros [[Hk Hd]|(_ & _ & u & [])]. assert (k = O) as -> by lia. apply dist_zero in Hd as ->.
        by rewrite decide_True.
    + intros v. rewrite elem_of_nil. naive_solver.
    + constructor.
    + lia.
    + intros v _ [u []].
    + rewrite lookup_singleton, decide_False by done. split; [done|]. by intros [? ?].
  - intros v. rewrite list_elem_of_singleton. split; [intros ->; apply dist_start|apply dist_zero].
Qed.

(** *** The budget *)

Lemma dist_near n k v : (k < n)%nat -> dist k v -> near scan_stream space edge_types bidirect start n v.
Proof.
  intros Hk [(q & Hq & Hl & He) _]. exists (start :: q). split; [by exists q|]. simpl. lia.
Qed.

Abbreviation spends n Y m := (spent scan_stream space edge_types bidirect start n Y m).
Abbreviation fails_with n e := (search_error scan_stream max_nodes space edge_types bidirect start n e).

(** The vertices expanded so far are nearer than the frontier; those of the level
    that is being expanded are added one by one. *)
Lemma expand_level_budget n d frontier Y st m :
  (d < n)%nat -> NoDup frontier -> (forall u, u ∈ frontier -> dist d u /\ u ∉ Y) -> spends n Y m ->
  match expand_level scan_stream max_nodes space edge_types bidirect target d frontier st m with
  | Ok (_, m') => spends n (list_to_set frontier ∪ Y) m'
  | Err e => fails_with n e
  end.
Proof.
  intros Hd. revert Y st m. induction frontier as [|u frontier IH]; intros Y st m Hnd Hf Hs; cbn [expand_level].
  { cbn [list_to_set]. by rewrite union_empty_l_L. }
  apply NoDup_cons in Hnd as [Hu Hnd]. destruct (Hf u) as [Hdu HuY]; [left|].
  pose proof (dist_near n d u Hd Hdu) as Hn.
  destruct (over_budget max_nodes m) eqn:Eb; [left; split; [by eapply spent_over|done]|].
  destruct (collect_neighbor_vids _ _ _ _ _ _) as [[vs m1]|e] eqn:Ec.
  2: { right. exists u. split; [done|]. by eapply collect_error. }
  pose proof (spent_more _ _ _ _ _ _ _ _ _ _ Hs HuY Hn (collect_visited _ _ _ _ _ _ _ _ Ec)) as Hs'.
  specialize (IH ({[u]} ∪ Y) (level_neighbors target u d vs st) m1 Hnd).
  destruct (expand_level _ _ _ _ _ _ _ _ _ _) as [[st' m']|e]; [|apply IH; [|done]].
  - replace (list_to_set (u :: frontier) ∪ Y) with (list_to_set frontier ∪ ({[u]} ∪ Y) : gset Z) by set_solver.
    apply IH; [|done]. intros w Hw. split; [apply Hf; by right|]. apply not_elem_of_union. split; [set_solver|].
    apply Hf. by right.
  - intros w Hw. split; [apply Hf; by right|]. apply not_elem_of_union. split; [set_solver|]. apply Hf. by right.
Qed.

Lemma levels_error steps d frontier Y st m e :
  settled d frontier st -> (forall v, v ∈ Y -> exists k, (k < d)%nat /\ dist k v) -> spends (d + steps) Y m ->
  levels scan_stream max_nodes steps space edge_types bidirect target d frontier st m = Err e ->
  fails_with (d + steps) e.
Proof.
  revert d frontier Y st m. induction steps as [|steps IH]; intros d frontier Y st m Hs HY Hsp; cbn [levels]; [done|].
  destruct frontier as [|u frontier]; [done|]. destruct (found st) eqn:Ef; [done|].
  destruct (Hs) as (Hi & Hnd & Hf). rewrite Ef in Hi.
  set (m0 := record_frontier (length (u :: frontier)) m).
  pose proof (expand_level_budget (d + S steps) d (u :: frontier) Y
    (mkLevels (depth st) (parents st) [] false) m0 ltac:(lia) Hnd) as He.
  destruct (expand_level _ _ _ _ _ _ _ _ _ _) as [[st1 m1]|e'] eqn:Ee.
  - apply (expand_level_inv d []) in Ee; [|done|by intros w ?%Hf|].
    2: { eapply level_inv_iff; [|exact Hi]. intros u' v'. rewrite elem_of_nil. naive_solver. }
    rewrite <- Nat.add_succ_comm in He |- *. apply (IH _ _ (list_to_set (u :: frontier) ∪ Y)).
    + by eapply settle.
    + intros v [Hv%elem_of_list_to_set|(k & ? & ?)%HY]%elem_of_union; [exists d; rewrite <- Hf; split; [lia|done]|].
      exists k. split; [lia|done].
    + apply He; [|eapply spent_same; [rewrite Nat.add_succ_comm; exact Hsp|apply record_frontier_visited]].
      intros w Hw%Hf. split; [done|]. intros (k & Hk & Hd')%HY. pose proof (dist_unique _ _ _ Hw Hd'). lia.
  - intros [= <-]. apply He; [|eapply spent_same; [exact Hsp|apply record_frontier_visited]].
    intros w Hw%Hf. split; [done|]. intros (k & Hk & Hd')%HY. pose proof (dist_unique _ _ _ Hw Hd'). lia.
Qed.

(** Up to the level reached, a vertex that can be reached has a distance. *)
Lemma settled_dist d frontier st v j :
  settled d frontier st -> (j <= d)%nat -> reach j v -> exists k, (k <= j)%nat /\ dist k v.
Proof.
  intros [Hi _] Hj Hr. destruct (depth st !! v) as [k|] eqn:Ed.
  - pose proof Ed as Ed'. apply (lv_depth _ _ _ Hi) in Ed' as [[_ Hk]|(_ & _ & u & [])]. exists k. split; [|done].
    destruct (le_lt_dec k j); [done|]. by destruct (proj2 Hk j).
  - exfalso. refine (dist_none d v _ j Hj Hr). intros k Hk Hd.
    assert (depth st !! v = Some k); [|congruence]. apply (lv_depth _ _ _ Hi). auto.
Qed.

(** When the search stops without the target, no path is short enough. *)
Lemma levels_missed d frontier st q :
  settled d frontier st -> found st = false -> is_path scan_stream space edge_types bidirect start target q ->
  (S d < length q)%nat /\ frontier <> [].
Proof.
  intros Hs Hf (q' & -> & Hq & He). assert (reach (length q') target) as Hr by by exists q'.
  assert (Hno : forall k, (k <= d)%nat -> ~ dist k target).
  { intros k Hk Hd. destruct Hs as [Hi _]. enough (found st = true) by congruence.
    apply (lv_found _ _ _ Hi). exists k. apply (lv_depth _ _ _ Hi). auto. }
  split.
  - simpl. destruct (le_lt_dec (length q') d) as [Hle|?]; [|lia]. by destruct (dist_none d target Hno _ Hle).
  - intros ->. assert (Hlow : forall v k, reach k v -> exists j, (j < d)%nat /\ dist j v).
    { destruct (Hs) as (_ & _ & Hfr). intros v k. revert v. induction k as [|k IH]; intros v Hv.
      - destruct Hv as (l & _ & Hl & Hle). destruct l; [|done]. simpl in Hle. subst v. exists O.
        split; [|apply dist_start]. destruct d; [|lia]. pose proof dist_start as Hd. apply Hfr in Hd.
        by apply elem_of_nil in Hd.
      - destruct (reach_pred _ _ Hv) as (u & Hu & Huv). destruct (IH u Hu) as (j & Hj & [Hju _]).
        destruct (settled_dist d [] st v (S j) Hs Hj) as (i & Hi & Hd); [by eapply reach_step|].
        exists i. split; [|done]. destruct (decide (i = d)) as [->|]; [|lia]. apply Hfr in Hd. by apply elem_of_nil in Hd. }
    destruct (Hlow _ _ Hr) as (j & Hj & Hd). apply (Hno j); [lia|done].
Qed.

(** ** The enumeration *)

Section enumeration.
Context (max_paths D : nat) (parents : gmap Z (list Z)).
Context (Hparents : forall k v, (S k <= D)%nat -> dist (S k) v ->
  exists ps, parents !! v = Some ps /\ NoDup ps /\ forall u, u ∈ ps <-> dist k u /\ adj u v).

Abbreviation preds v := (reverse (default [] (parents !! v))).

(** The ways back from [v], a vertex at distance [k], and the number of partial
    paths that are taken from the stack to find them. *)
Fixpoint back (k : nat) (v : Z) : list (list Z) :=
  match k with
  | O => [[]]
  | S k => preds v ≫= fun p => cons p <$> back k p
  end.
Fixpoint nodes (k : nat) (v : Z) : nat :=
  match k with
  | O => 1
  | S k => S (sum_list (nodes k <$> preds v))
  end.

Definition too_many (paths : list (list Z)) : bool := (0 <? max_paths)%nat && (max_paths <? length paths)%nat.

Lemma too_many_app l1 l2 : too_many l1 = true -> too_many (l1 ++ l2) = true.
Proof. unfold too_many. rewrite length_app, !andb_true_iff, !Nat.ltb_lt. lia. Qed.

Lemma preds_spec k v : (S k <= D)%nat -> dist (S k) v ->
  exists ps, preds v = ps /\ parents !! v = Some (reverse ps) /\ NoDup ps /\ forall u, u ∈ ps <-> dist k u /\ adj u v.
Proof.
  intros Hk Hv. destruct (Hparents k v Hk Hv) as (ps & -> & Hnd & Hps). exists (reverse ps).
  rewrite reverse_involutive. split_and!; [done|done|by rewrite reverse_Permutation|].
  intros u. by rewrite elem_of_reverse.
Qed.

Lemma push_all partial ps stack :
  foldl (fun stack p => (partial ++ [p]) :: stack) stack (reverse ps) =
  ((fun p : Z => partial ++ [p]) <$> ps) ++ stack.
Proof.
  induction ps as [|p ps IH]; [done|]. rewrite reverse_cons, foldl_app, IH. done.
Qed.

(** Taking a partial path from the stack adds its completions. *)
Definition adds (k : nat) (head : Z) : Prop := forall partial stack paths fuel,
  last partial = Some head -> too_many paths = false ->
  let new := (fun r => reverse (partial ++ r)) <$> back k head in
  enumerate (nodes k head + fuel) max_paths start parents (partial :: stack) paths =
  if too_many (paths ++ new) then Some (Err err_max_paths)
  else enumerate fuel max_paths start parents stack (paths ++ new).

Lemma adds_all k partial ps stack paths fuel :
  (forall p, p ∈ ps -> adds k p) -> too_many paths = false ->
  let new := ps ≫= fun p => (fun r => reverse ((partial ++ [p]) ++ r)) <$> back k p in
  enumerate (sum_list (nodes k <$> ps) + fuel) max_paths start parents
    (((fun p => partial ++ [p]) <$> ps) ++ stack) paths =
  if too_many (paths ++ new) then Some (Err err_max_paths)
  else enumerate fuel max_paths start parents stack (paths ++ new).
Proof.
  revert paths. induction ps as [|p ps IH]; intros paths Hadd Hm new.
  { subst new. simpl. by rewrite app_nil_r, Hm. }
  rewrite !fmap_cons. cbn [sum_list app]. rewrite <- Nat.add_assoc, (Hadd p) by (left || apply last_snoc || done).
  subst new. rewrite bind_cons, app_assoc. destruct (too_many (paths ++ _)) eqn:E.
  - by rewrite too_many_app.
  - apply IH; [|done]. intros q Hq. apply Hadd. by right.
Qed.

Lemma complete_step k partial ps :
  ((fun r => reverse (partial ++ r)) <$> (ps ≫= fun p => cons p <$> back k p)) =
  ps ≫= fun p => (fun r => reverse ((partial ++ [p]) ++ r)) <$> back k p.
Proof.
  induction ps as [|p ps IH]; [done|]. rewrite !bind_cons, fmap_app, IH. f_equal.
  rewrite <- list_fmap_compose. apply list_fmap_ext. intros _ r _. simpl. by rewrite <- app_assoc.
Qed.

Lemma adds_dist k head : (k <= D)%nat -> dist k head -> adds k head.
Proof.
  revert head. induction k as [|k IH]; intros head Hk Hd partial stack paths fuel Hl Hm new.
  - apply dist_zero in Hd as ->. subst new. cbn [nodes back fmap list_fmap Nat.add enumerate]. rewrite app_nil_r, Hl.
    rewrite Z.eqb_refl. unfold too_many. rewrite length_app. cbn [length].
    replace (max_paths <? length paths + 1)%nat with (max_paths <=? length paths)%nat; [done|].
    apply Bool.eq_iff_eq_true. rewrite Nat.leb_le, Nat.ltb_lt. lia.
  - destruct (preds_spec k head Hk Hd) as (ps & Ep & Hp & _ & Hps).
    cbn [nodes Nat.add enumerate]. rewrite Hl, Ep.
    assert (head <> start) as Hne%Z.eqb_neq.
    { intros ->. pose proof (dist_unique _ _ _ Hd dist_start). done. }
    rewrite Hne, Hp, push_all. rewrite adds_all; [|intros p [Hdp _]%Hps; apply IH; [lia|done]|done].
    subst new. cbn [back]. by rewrite Ep, complete_step.
Qed.

(** The ways back are the shortest paths. *)
Lemma back_spec k v : (k <= D)%nat -> dist k v ->
  NoDup (back k v) /\ forall r, r ∈ back k v <-> path_to v (reverse (v :: r)) /\ length r = k.
Proof.
  revert v. induction k as [|k IH]; intros v Hk Hd.
  { apply dist_zero in Hd as ->. split; [apply NoDup_singleton|]. intros r. cbn [back].
    rewrite list_elem_of_singleton. split; [intros ->; split; [by exists []|done]|]. intros [_ ?]. by destruct r. }
  destruct (preds_spec k v Hk Hd) as (ps & Ep & _ & Hnd & Hps). cbn [back]. rewrite Ep. split.
  - apply NoDup_bind; [|intros p [Hp _]%Hps; apply (NoDup_fmap_2 _), IH; [lia|done]|done].
    intros p1 p2 r _ _ (? & -> & _)%list_elem_of_fmap (? & E & _)%list_elem_of_fmap. by injection E.
  - intros r. rewrite list_elem_of_bind. split.
    + intros (p & (r' & -> & Hr)%list_elem_of_fmap & Hp). rewrite Hps in Hp. destruct Hp as [Hp Ha].
      apply IH in Hr as [Hr Hl]; [|lia|done]. split; [|simpl; lia]. rewrite reverse_cons.
      rewrite reverse_cons in Hr |- *. by apply path_to_snoc.
    + intros [Hr Hl]. destruct r as [|p r]; [done|]. rewrite reverse_cons, (reverse_cons r p) in Hr.
      apply path_to_snoc in Hr as [Hr Ha]. exists p.
      destruct (path_to_reach _ _ Hr) as (j & Hj & Hreach). rewrite length_app, length_reverse in Hj. simpl in Hj, Hl.
      assert (dist k p).
      { assert (j = k) as -> by lia. split; [done|]. intros i Hi Hri. apply (proj2 Hd (S i)); [lia|]. by eapply reach_step. }
      split; [|by apply Hps]. apply (list_elem_of_fmap_2 (cons p)). apply IH; [lia|done|]. rewrite reverse_cons. split; [done|lia].
Qed.
End enumeration.

(** ** The statement *)

Context (max_steps max_paths : nat).

Definition shortest (p : list Z) : Prop :=
  path_to target p /\ (length p <= S max_steps)%nat /\ forall q, path_to target q -> (length p <= length q)%nat.

Definition all_outcome (r : Result ExecutionError (list (list Z) * TraversalMetrics)) : Prop :=
  match r with
  | Ok (paths, _) =>
      NoDup paths /\ (max_paths = O \/ (length paths <= max_paths)%nat) /\ forall p, p ∈ paths <-> shortest p
  | Err e =>
      fails_with max_steps e \/
      (e = err_max_paths /\ exists paths, NoDup paths /\ (0 < max_paths < length paths)%nat /\ forall p, p ∈ paths -> shortest p)
  end.

Lemma shortest_dist k p : (k <= max_steps)%nat -> dist k target -> shortest p <-> path_to target p /\ length p = S k.
Proof.
  intros Hk [(q & Hq & Hl & He) Hmin]. assert (Hge : forall q, path_to target q -> (S k <= length q)%nat).
  { intros q' (j & -> & Hj)%path_to_reach. destruct (le_lt_dec k j); [lia|]. by destruct (Hmin j). }
  unfold shortest. split.
  - intros (Hp & _ & Hs). split; [done|]. specialize (Hs (start :: q)). specialize (Hge p Hp).
    assert (S k = length (start :: q)) as -> by (simpl; lia). apply Nat.le_antisymm; [|simpl; lia].
    apply Hs. by exists q.
  - intros [Hp ->]. split_and!; [done|lia|done].
Qed.

(** Turning the ways back round gives the paths. *)
Lemma completed k (rs : list (list Z)) p :
  (forall r, r ∈ rs <-> path_to target (reverse (target :: r)) /\ length r = k) ->
  p ∈ (fun r => reverse ([target] ++ r)) <$> rs <-> path_to target p /\ length p = S k.
Proof.
  intros Hin. rewrite list_elem_of_fmap. split.
  { intros (r & -> & Hr). apply Hin in Hr as [Hr Hl]. rewrite length_reverse. simpl. by rewrite Hl. }
  intros [(q & -> & Hq & He) Hl]. destruct (reverse (start :: q)) as [|w r] eqn:Er.
  { by rewrite reverse_cons in Er; destruct (reverse q). }
  assert (start :: q = reverse r ++ [w]) as Eq by (by rewrite <- reverse_cons, <- Er, reverse_involutive).
  assert (w = target) as ->.
  { apply (f_equal last) in Eq. rewrite last_snoc, path_end_last, He in Eq. congruence. }
  exists r. rewrite <- (reverse_involutive (start :: q)), Er. split; [done|]. apply Hin.
  rewrite <- Er, reverse_involutive. split; [by exists q|].
  apply (f_equal length) in Er. rewrite length_reverse in Er. simpl in Er, Hl. lia.
Qed.

Lemma all_found st d frontier k m :
  settled d frontier st -> (d <= max_steps)%nat -> depth st !! target = Some k ->
  exists n, forall fuel, (n <= fuel)%nat -> exists r,
    match enumerate fuel max_paths start (parents st) [[target]] [] with
    | None => None
    | Some (Err e) => Some (Err e)
    | Some (Ok paths) => Some (Ok (paths, m))
    end = Some r /\ all_outcome r.
Proof.
  intros [Hi _] Hd Hk. apply (lv_depth _ _ _ Hi) in Hk as [[Hk Ht]|(_ & _ & u & [])].
  pose proof (lv_old _ _ _ Hi) as Hp. cbn [parents] in Hp.
  exists (nodes (parents st) k target). intros fuel Hf.
  destruct (back_spec d (parents st) Hp k target Hk Ht) as [Hnd Hin].
  set (new := (fun r => reverse ([target] ++ r)) <$> back (parents st) k target).
  assert (Hnd' : NoDup new).
  { apply NoDup_fmap_2; [|done]. intros r1 r2 E. apply (inj reverse) in E. by injection E. }
  assert (Hin' : forall p, p ∈ new <-> shortest p).
  { intros p. rewrite (shortest_dist k) by (done || lia). by apply completed. }
  replace fuel with (nodes (parents st) k target + (fuel - nodes (parents st) k target))%nat by lia.
  rewrite (adds_dist max_paths d (parents st) Hp k target Hk Ht) by (done || by destruct max_paths).
  change ([] ++ _) with new. destruct (too_many max_paths new) eqn:Em; unfold too_many in Em.
  - eexists. split; [done|]. right. split; [done|]. exists new. split; [done|].
    apply andb_prop in Em as [?%Nat.ltb_lt ?%Nat.ltb_lt]. split; [lia|by intros p ?%Hin'].
  - exists (Ok (new, m)). split; [by destruct (fuel - _)%nat|]. split_and!; [done| |done].
    apply andb_false_iff in Em as [E|E]; [left; apply Nat.ltb_ge in E; lia|right; by apply Nat.ltb_ge].
Qed.
End levels.

(** C13: given enough rounds for the enumeration, FIND ALL SHORTEST PATHS ends. When
    it succeeds it returns every shortest path of at most [max_steps] hops exactly
    once and nothing else. It fails only when the budget is positive and more than
    [max_nodes] vertices lie fewer than [max_steps] hops from the start, when the rows
    of such a vertex cannot be read, or when there are more than [max_paths] (a
    positive number) shortest paths. *)
Theorem find_all_shortest_paths `{DebugText} `{ProstMessage PbVertex} `{ProstMessage PbEdge} `{SerdeJson JsonValue}
    scan_stream max_nodes selected edge_types bidirect start target max_steps max_paths :
  exists n, forall fuel, (n <= fuel)%nat -> exists r,
    all_shortest_paths scan_stream max_nodes fuel selected start target edge_types max_steps bidirect max_paths = Some r /\
    all_outcome scan_stream max_nodes (default (bs "default") selected) edge_types bidirect start target
      max_steps max_paths r.
Proof.
  unfold all_shortest_paths. destruct (Z.eqb_spec start target) as [->|Hst].
  { exists O. intros fuel _. eexists. split; [done|]. split_and!; [apply NoDup_singleton|simpl; lia|].
    intros p. rewrite list_elem_of_singleton. rewrite (shortest_dist _ _ _ _ _ _ _ 0) by (lia || apply dist_start).
    split; [intros ->; split; [by exists []|done]|]. intros [(q & -> & _) Hl]. by destruct q. }
  destruct (levels _ _ _ _ _ _ _ _ _ _ _) as [[st m]|e] eqn:El.
  2: { exists O. intros fuel _. eexists. split; [done|]. left. eapply (levels_error _ _ _ _ _ _ _ _ 0 [start] ∅); [by apply settled_initial|set_solver| |exact El].
       split; [done|set_solver]. }
  apply (levels_spec _ _ _ _ _ start) in El as (d & frontier & Hs & Hd & Hend); [|by apply settled_initial].
  destruct (found st) eqn:Ef; cbn [negb].
  - pose proof (lv_found _ _ _ _ _ _ _ _ _ (proj1 Hs)) as Hf. cbn [found depth] in Hf.
    apply Hf in Ef as [k Hk]. by eapply all_found.
  - exists O. intros fuel _. eexists. split; [done|]. split_and!; [constructor|simpl; lia|].
    intros p. rewrite elem_of_nil. split; [done|]. intros (Hp & Hl & _).
    destruct (levels_missed _ _ _ _ _ _ _ _ _ _ Hs Ef Hp) as [Hlt Hne]. destruct Hend as [?|[->|?]]; [done| |done].
    simpl in Hlt. lia.
Qed.

Import Demo.

(** Both shortest paths with a budget of four vertices; with a budget of two the
    search fails, and the error has its cause. *)
Lemma find_all_shortest_paths_witness :
  (exists m, all_shortest_paths (memory_scan demo_store) 4 10 None 1 5 [] 10 false 0 =
     Some (Ok ([[1; 3; 4; 5]; [1; 2; 4; 5]], m))) /\
  (exists n, forall fuel, (n <= fuel)%nat -> exists r,
    all_shortest_paths (memory_scan demo_store) 4 fuel None 1 5 [] 10 false 0 = Some r /\
    all_outcome (memory_scan demo_store) 4 (bs "default") [] false 1 5 10 0 r) /\
  (forall fuel, all_shortest_paths (memory_scan demo_store) 2 fuel None 1 5 [] 10 false 0 = Some (Err err_max_nodes)) /\
  all_outcome (memory_scan demo_store) 2 (bs "default") [] false 1 5 10 0 (Err err_max_nodes).
Proof.
  split; [eexists; vm_compute; reflexivity|].
  split; [exact (find_all_shortest_paths (memory_scan demo_store) 4 None [] false 1 5 10 0)|].
  assert (E : forall fuel, all_shortest_paths (memory_scan demo_store) 2 fuel None 1 5 [] 10 false 0 = Some (Err err_max_nodes)).
  { intros fuel. vm_compute. reflexivity. }
  split; [exact E|].
  destruct (find_all_shortest_paths (memory_scan demo_store) 2 None [] false 1 5 10 0) as [n Hn].
  destruct (Hn n (le_n n)) as (r & Hr & Ho). rewrite E in Hr. injection Hr as <-. exact Ho.
Defined.
