(* ===== verification/Dml.v ===== *)
(** * Statements that change edges

    The parts of [byoridb-executor/src/executor/dml.rs] about edges, with what they
    call: [ontology.rs] (representatives of merged vertices), [sameas.rs] (merging),
    [inference.rs] (semantic metadata), [inference_recovery.rs] (the marker of an
    unfinished inference) and the index keys of [dml_atomic.rs]. A statement is a
    program of store calls ([DmlStaging.Statement]) that also draws transaction
    times. *)

From Stdlib Require Import ZArith Lia Strings.Byte Strings.String Floats.SpecFloat.
From stdpp Require Import base tactics list gmap.
From S2P Require Import Prelude OrdMap History KVStore KVDyn Temporal Text SchemaKey Value StorageKey IndexManager.
From S2P Require Import Exec Evaluator Vid SpaceDdl VertexCodec DmlStaging GraphAlgo.

(** ** Programs *)

Fixpoint s_bind {A B} (p : Statement A) (f : A -> Statement B) : Statement B :=
  match p with
  | Finish (Ok a) => f a
  | Finish (Err e) => Finish (Err e)
  | Call T c k => Call T c (fun r => s_bind (k r) f)
  end.

(** A statement draws transaction times from the clock. *)
Definition DML (A : Type) : Type := tx_clock -> Statement (A * tx_clock).

Definition d_ret {A} (a : A) : DML A := fun c => Finish (Ok (a, c)).
Definition d_fail {A} (e : ExecutionError) : DML A := fun _ => Finish (Err e).
Definition d_result {A} (r : Result ExecutionError A) : DML A :=
  match r with Ok a => d_ret a | Err e => d_fail e end.
Definition d_bind {A B} (p : DML A) (f : A -> DML B) : DML B :=
  fun c => s_bind (p c) (fun '(a, c) => f a c).
Definition d_call {A} (k : kv_call A) : DML A := fun c => Call A k (fun a => Finish (Ok (a, c))).

Notation "x <-- p ;; k" := (d_bind p (fun x => k))
  (at level 100, p at next level, right associativity) : byori_scope.
Notation "p ;;- k" := (d_bind p (fun _ => k)) (at level 100, right associativity) : byori_scope.

Fixpoint d_for_each {A} (f : A -> DML unit) (l : list A) : DML unit :=
  match l with
  | [] => d_ret tt
  | x :: l => f x ;;- d_for_each f l
  end.
Fixpoint d_fold {A X} (f : X -> A -> DML X) (x : X) (l : list A) : DML X :=
  match l with
  | [] => d_ret x
  | a :: l => x <-- f x a ;; d_fold f x l
  end.

(** Executor code written over single store calls; a loop of it that did not end
    does not occur, since each of its programs ends on every store. *)
Fixpoint s_prog {A} (p : Prog A) : Statement A :=
  match p with
  | Ret a => Finish (Ok a)
  | Throw e => Finish (Err e)
  | CallGet key k => Call _ (call_get key) (fun r => s_prog (k r))
  | CallScanLimited prefix limit k =>
      Call _ (call_scan_with_filter prefix (fun _ _ => true) limit) (fun r => s_prog (k r))
  | CallPutIfAbsent key value k => Call _ (call_put_if_absent key value) (fun r => s_prog (k r))
  | Spin => Finish (Err (InvalidOperation []))
  end.

(** A panic unwinds the statement before it is committed: for the store it is an
    error. *)
Definition PANIC : ExecutionError := InvalidOperation (bs "panic").
Definition d_outcome {A} (o : Outcome A) : DML A := d_result (default (Err PANIC) o).

Definition d_prog {A} (p : Prog A) : DML A := fun c => s_bind (s_prog p) (fun a => Finish (Ok (a, c))).

(** [ExecutionContext], as far as the statements read it. *)
Record Ctx := mkCtx {
  ctx_space : option bytes;
  ctx_space_id : option Z;
  is_distributed : bool;
  max_traversal_nodes : Z
}.

Record ExecutorResult := mkResult { columns : list bytes; result_rows : list (list Value); latency_ms : Z }.
Definition count_result (column : bytes) (n : Z) : ExecutorResult := mkResult [column] [[VInt n]] 0.

(** [serde_json::from_value]. *)
Class FromJson (A : Type) := from_json_value : JsonValue -> Result string A.

(** [plan::EdgeInsert], [plan::EdgeUpdateTarget], [plan::UpdatePlan] of an edge and
    [plan::DeleteEdgePlan]. *)
Record EdgeInsert := mkEdgeInsert {
  ei_src : Vid; ei_dst : Vid; ei_type : bytes; ei_ranking : Z; ei_props : gmap bytes Value
}.
Record EdgeUpdate := mkEdgeUpdate {
  eu_space : bytes; eu_src : Vid; eu_dst : Vid; eu_type : bytes; eu_ranking : Z;
  eu_updates : gmap bytes Value;
  eu_conditions : option Expression
}.
Record DeleteEdgePlan := mkDeleteEdge {
  de_space : bytes; de_type : bytes; de_refs : list (Vid * Vid * Z)
}.

Definition INFERRED_MARKER : bytes := bs "__inferred__".
Definition inferred (e : EdgeData) : bool := bool_decide (is_Some (edge_properties e !! INFERRED_MARKER)).

Section dml.
Context `{DebugText} `{ProstMessage PbVertex} `{ProstMessage PbEdge}.
Context `{SerdeJson JsonValue} `{SerdeJson IndexDef} `{FromJson SemanticFlags} `{MessageText} `{EvalPlatform}.
Context (wall : nat -> Z) (ctx : Ctx).

(** ** Shared helpers *)

Definition effective_space (space : bytes) : DML bytes :=
  match space with
  | [] => match ctx_space ctx with
          | Some s => d_ret s
          | None => d_fail (InvalidOperation (bs "No space selected"))
          end
  | _ => d_ret space
  end.

Definition draw_versions (entities : list kv_pair) : DML (list VersionRow) :=
  fun c => Finish (Ok (build_versions wall entities c)).
Definition draw_tombstones (keys : list bytes) : DML (list VersionRow) :=
  fun c => Finish (Ok (build_tombstones wall keys c)).

(** A codec error is kept by its text. *)
Definition codec_text (e : CodecError) : string := string_of_list_byte (codec_display e).
Definition encode_edge_io (e : EdgeData) : DML bytes :=
  match encode_edge e with Ok b => d_ret b | Err e => d_fail (ExIo (codec_text e)) end.
Definition encode_vertex_io (v : VertexData) : DML bytes :=
  match encode_vertex v with Ok b => d_ret b | Err e => d_fail (ExIo (codec_text e)) end.

(** [ontology::encode_repr], [decode_repr]. *)
Definition encode_repr (rep : Z) : bytes := i64_to_le rep.
Definition decode_repr (b : bytes) : option Z := if (length b =? 8)%nat then Some (i64_of_le b) else None.

Definition MAX_SAMEAS_DEPTH : nat := 64.

Fixpoint follow_sameas (n : nat) (space : bytes) (vid cur : Z) : DML Z :=
  match n with
  | O => d_fail (InvalidOperation (bs "sameAs chain for vertex " ++ dec vid ++ bs " exceeds depth " ++
           dec (Z.of_nat MAX_SAMEAS_DEPTH)))
  | S n =>
      cell <-- d_call (call_get (SchemaKey.sameas space cur)) ;;
      match cell with
      | None => d_ret cur
      | Some b =>
          match decode_repr b with
          | None => d_fail (InvalidOperation (bs "Corrupt sameAs pointer for vertex " ++ dec cur))
          | Some rep => if rep =? cur then d_ret cur else follow_sameas n space vid rep
          end
      end
  end.
Definition representative_of (space : bytes) (vid : Z) : DML Z := follow_sameas MAX_SAMEAS_DEPTH space vid vid.

(** ** Indexes *)

Definition value_to_index_value (v : Value) : IndexValue :=
  match v with
  | VString s => IVString s
  | VInt i => IVInt i
  | VFloat f => IVFloat f
  | VBool b => IVBool b
  | _ => IVNull
  end.

(** The indexed values of some properties; a missing one counts as null. *)
Definition index_values (index : IndexDef) (props : gmap bytes Value) : list IndexValue :=
  (fun field => value_to_index_value (default (VNull NullNull) (props !! field))) <$> fields index.

Definition err_index_def : ExecutionError := InvalidOperation (bs "Invalid persisted index definition").

(** One persisted definition of the scan. *)
Definition read_index_def (space_id : Z) (kind : IndexType) (prefix : bytes) (acc : list IndexDef) (kv : kv_pair) :
    Result ExecutionError (list IndexDef) :=
  match json_from_slice kv.2 with
  | Err e => Err (ExSerialization e)
  | Ok def =>
      if negb (idx_space_id def =? space_id) || negb (bool_decide (kv.1 = prefix ++ dec (idx_id def))) ||
         bool_decide (fields def = []) || bool_decide (schema_name def = [])
      then Err err_index_def
      else Ok (if bool_decide (index_type def = kind) then acc ++ [def] else acc)
  end.

Fixpoint read_index_defs (space_id : Z) (kind : IndexType) (prefix : bytes) (rows : list kv_pair) (acc : list IndexDef) :
    Result ExecutionError (list IndexDef) :=
  match rows with
  | [] => Ok acc
  | kv :: rows =>
      match read_index_def space_id kind prefix acc kv with
      | Ok acc => read_index_defs space_id kind prefix rows acc
      | Err e => Err e
      end
  end.

Definition mutation_space_id (space : bytes) : DML Z :=
  match ctx_space_id ctx with
  | Some id => d_ret id
  | None =>
      found <-- d_call (call_get (SchemaKey.space space)) ;;
      match found with
      | None => d_ret 1
      | Some b =>
          match json_from_slice (A := JsonValue) b with
          | Err e => d_fail (ExSerialization e)
          | Ok json =>
              match (v ← json_get (bs "id") json; z ← json_as_u64 v; if bool_decide (u32_ok z) then Some z else None) with
              | Some id => d_ret id
              | None => d_fail (InvalidOperation (bs "Invalid space id metadata"))
              end
          end
      end
  end.

Definition mutation_indexes (space : bytes) (kind : IndexType) : DML (list IndexDef) :=
  space_id <-- mutation_space_id space ;;
  let prefix := INDEX_DEF_PREFIX ++ dec space_id ++ bs ":" in
  rows <-- d_call (call_scan_prefix prefix) ;;
  d_result (read_index_defs space_id kind prefix rows []).

(** The key of an edge in an index. *)
Definition edge_entry (index : IndexDef) (e : EdgeData) : bytes :=
  KeyUtils.edge_index_key 1 (idx_id index) (index_values index (edge_properties e)) (src_vid e) (ranking e) (dst_vid e).
(** The indexes of an edge type. *)
Definition indexes_of (name : bytes) (indexes : list IndexDef) : list IndexDef :=
  List.filter (fun index => bool_decide (schema_name index = name)) indexes.

Definition edge_index_keys (space : bytes) (e : EdgeData) : DML (list bytes) :=
  indexes <-- mutation_indexes space IndexEdge ;;
  d_ret ((fun index => edge_entry index e) <$> indexes_of (edge_type e) indexes).

(** ** Schemas *)

(** [json[key]]. *)
Definition json_index (key : bytes) (v : JsonValue) : JsonValue := default JNull (json_get key v).

Definition value_assignable (v : Value) (type_name : option bytes) : bool :=
  match type_name with
  | None => true
  | Some t =>
      match v with
      | VNull _ => true
      | VBool _ => bool_decide (t = bs "Bool")
      | VInt _ => bool_decide (t ∈ [bs "Int8"; bs "Int16"; bs "Int32"; bs "Int64"; bs "Float"; bs "Double";
                                    bs "Timestamp"; bs "Date"; bs "Time"; bs "DateTime"])
      | VFloat _ => bool_decide (t ∈ [bs "Float"; bs "Double"])
      | VString _ => bool_decide (t ∈ [bs "String"; bs "Geography"; bs "Date"; bs "Time"; bs "DateTime"; bs "Timestamp"])
      | _ => true
      end
  end.

(** The check of the given properties against a schema; [what] is [Tag] or
    [Edge type] and [what'] is [tag] or [edge]. *)
Fixpoint check_props (what what' name : bytes) (declared : list JsonValue) (props : list (bytes * Value)) :
    Result ExecutionError unit :=
  match props with
  | [] => Ok tt
  | (field, v) :: props =>
      match List.find (fun p => bool_decide (json_as_str (json_index (bs "name") p) = Some field)) declared with
      | None => Err (InvalidOperation (what ++ bs " '" ++ name ++ bs "' has no field '" ++ field ++ bs "'"))
      | Some pdef =>
          if value_assignable v (json_as_str (json_index (bs "data_type") pdef))
          then check_props what what' name declared props
          else Err (TypeMismatch (bs "field '" ++ field ++ bs "' of " ++ what' ++ bs " '" ++ name ++ bs "' expects type " ++
                 json_display (json_index (bs "data_type") pdef) ++ bs ", got " ++ value_debug v))
      end
  end.

Definition check_schema (what what' corrupt name schema_bytes : bytes) (props : gmap bytes Value) :
    Result ExecutionError unit :=
  match json_from_slice schema_bytes with
  | Err e => Err (InvalidOperation (bs "Corrupt " ++ corrupt ++ bs " schema: " ++ error_text e))
  | Ok schema =>
      check_props what what' name (default [] (json_as_array (json_index (bs "properties") schema))) (map_to_list props)
  end.

Definition validate_tag_props (space tag_name : bytes) (props : gmap bytes Value) : DML unit :=
  found <-- d_call (call_get (SchemaKey.tag space tag_name)) ;;
  match found with
  | None => d_fail (TagNotFound tag_name)
  | Some b => d_result (check_schema (bs "Tag") (bs "tag") (bs "tag") tag_name b props)
  end.

Definition validate_edge_props (space edge_type : bytes) (props : gmap bytes Value) : DML unit :=
  if bool_decide (is_Some (props !! INFERRED_MARKER)) then
    d_fail (InvalidOperation (bs "__inferred__ is reserved for materialized inference"))
  else
    found <-- d_call (call_get (SchemaKey.edge space edge_type)) ;;
    match found with
    | None => d_fail (EdgeNotFound edge_type)
    | Some b => d_result (check_schema (bs "Edge type") (bs "edge") (bs "edge") edge_type b props)
    end.

(** ** Semantic metadata *)

(** [RelMeta] of [inference.rs]. *)
Record RelMeta := mkRelMeta {
  rm_transitive : gset bytes;
  rm_symmetric : gset bytes;
  rm_inverse : gmap bytes (list bytes);
  rm_superprops : gmap bytes (list bytes);
  rm_equivalent : gmap bytes (list bytes);
  rm_domain : gmap bytes bytes;
  rm_range : gmap bytes bytes;
  rm_chain_first : gmap bytes (list (bytes * bytes));
  rm_chain_second : gmap bytes (list (bytes * bytes))
}.
Definition no_meta : RelMeta := mkRelMeta ∅ ∅ ∅ ∅ ∅ ∅ ∅ ∅ ∅.

Definition meta_is_empty (m : RelMeta) : bool :=
  bool_decide (rm_transitive m = ∅) && bool_decide (rm_symmetric m = ∅) && bool_decide (rm_inverse m = ∅) &&
  bool_decide (rm_superprops m = ∅) && bool_decide (rm_equivalent m = ∅) && bool_decide (rm_domain m = ∅) &&
  bool_decide (rm_range m = ∅) && bool_decide (rm_chain_first m = ∅) && bool_decide (rm_chain_second m = ∅).

(** [map.entry(k).or_default().push(x)]. *)
Definition push_entry {A} (k : bytes) (x : A) (m : gmap bytes (list A)) : gmap bytes (list A) :=
  <[k := default [] (m !! k) ++ [x]]> m.
Definition push_if {A} (k : bytes) (x : option A) (m : gmap bytes (list A)) : gmap bytes (list A) :=
  match x with Some x => push_entry k x m | None => m end.
(** Both directions of a symmetric relation between types. *)
Definition push_both (k : bytes) (x : option bytes) (m : gmap bytes (list bytes)) : gmap bytes (list bytes) :=
  match x with Some q => push_entry q k (push_entry k q m) | None => m end.

Definition add_flags (name : bytes) (sem : SemanticFlags) (m : RelMeta) : RelMeta :=
  let '(first, second) :=
    match property_chain sem with
    | Some [p1; p2] => (push_entry p1 (name, p2) (rm_chain_first m), push_entry p2 (name, p1) (rm_chain_second m))
    | _ => (rm_chain_first m, rm_chain_second m)
    end in
  mkRelMeta
    (if transitive sem then {[name]} ∪ rm_transitive m else rm_transitive m)
    (if symmetric sem then {[name]} ∪ rm_symmetric m else rm_symmetric m)
    (push_both name (inverse_of sem) (rm_inverse m))
    (push_if name (subproperty_of sem) (rm_superprops m))
    (push_both name (equivalent_property sem) (rm_equivalent m))
    (match domain sem with Some c => <[name := c]> (rm_domain m) | None => rm_domain m end)
    (match range sem with Some c => <[name := c]> (rm_range m) | None => rm_range m end)
    first second.

(** [SemanticFlags::default]. *)
Definition no_flags : SemanticFlags := Build_SemanticFlags false false None None None None None None.

(** One edge schema of the scan. *)
Definition read_edge_schema (space : bytes) (m : RelMeta) (kv : kv_pair) : Result ExecutionError RelMeta :=
  match json_from_slice kv.2 with
  | Err e => Err (ExSerialization e)
  | Ok json =>
      match (n ← json_get (bs "name") json; json_as_str n) with
      | None | Some [] => Err (InvalidOperation (bs "Invalid inference edge schema name"))
      | Some name =>
          if negb (bool_decide (kv.1 = SchemaKey.edge space name)) then
            Err (InvalidOperation (bs "Inference schema key/name mismatch"))
          else
            match (match json_get (bs "semantics") json with Some v => from_json_value v | None => Ok no_flags end) with
            | Err e => Err (ExSerialization e)
            | Ok sem =>
                if match property_chain sem with Some chain => negb (length chain =? 2)%nat | None => false end
                then Err (InvalidOperation (bs "Invalid inference property chain"))
                else Ok (add_flags name sem m)
            end
      end
  end.
Fixpoint read_edge_schemas (space : bytes) (rows : list kv_pair) (m : RelMeta) : Result ExecutionError RelMeta :=
  match rows with
  | [] => Ok m
  | kv :: rows => match read_edge_schema space m kv with Ok m => read_edge_schemas space rows m | Err e => Err e end
  end.

Definition load_rel_meta (space : bytes) : DML RelMeta :=
  rows <-- d_call (call_scan_prefix (SchemaKey.edge_prefix space)) ;;
  d_result (read_edge_schemas space rows no_meta).

Definition fence_semantic_batch (space : bytes) (puts : list kv_pair) : DML (list kv_pair) :=
  m <-- load_rel_meta space ;;
  d_ret (if meta_is_empty m then puts else puts ++ [(inference_dirty_key space, bs "1")]).

(** ** Merging vertices ([sameas.rs]) *)

Definition edge_row_key (space : bytes) (e : EdgeData) : bytes :=
  SchemaKey.edge_data space (src_vid e) (edge_type e) (dst_vid e) (ranking e).
Definition in_edge_row_key (space : bytes) (e : EdgeData) : bytes :=
  SchemaKey.in_edge_data space (dst_vid e) (edge_type e) (src_vid e) (ranking e).

(** [deletes.retain(|key| !puts.contains(key))]. *)
Definition retain_deletes (puts : list kv_pair) (deletes : list bytes) : list bytes :=
  List.filter (fun key => negb (bool_decide (key ∈ puts.*1))) deletes.

(** *** Embeddings ([recommend.rs]) *)

(** The bits of the float nearest to [m * 2^e], ties to even, with [p] bits of
    precision, least exponent [emin] and greatest exponent [emax]; the sign bit is
    not part of it. *)
Definition float_bits (p emin emax m e : Z) : Z :=
  if m =? 0 then 0 else
  let low := Z.max (Z.log2 m + e - (p - 1)) emin in
  let shift := low - e in
  let q :=
    if shift <=? 0 then Z.shiftl m (- shift) else
    let q := Z.shiftr m shift in
    let r := m - Z.shiftl q shift in
    let half := Z.shiftl 1 (shift - 1) in
    if (half <? r) || ((half =? r) && Z.odd q) then q + 1 else q in
  let bits := if q <? Z.shiftl 1 (p - 1) then q else q + Z.shiftl (low - emin) (p - 1) in
  Z.min bits (Z.shiftl (emax - emin - p + 3) (p - 1)).

(** [f as f32] for a [f64] given by its bits, and [i as f32]. *)
Definition f32_of_f64 (bits : Z) : Z :=
  let sign := Z.shiftl (Z.shiftr bits 63) 31 in
  let ex := Z.land (Z.shiftr bits 52) 0x7ff in
  let frac := Z.land bits (2 ^ 52 - 1) in
  if ex =? 0x7ff then
    sign + (if frac =? 0 then Z.shiftl 255 23 else Z.lor (Z.lor (Z.shiftl 255 23) (Z.shiftl 1 22)) (Z.shiftr frac 29))
  else if ex =? 0 then sign + float_bits 24 (-149) 127 frac (-1074)
  else sign + float_bits 24 (-149) 127 (frac + 2 ^ 52) (ex - 1075).
Definition f32_of_int (z : Z) : Z :=
  if z <? 0 then Z.shiftl 1 31 + float_bits 24 (-149) 127 (- z) 0 else float_bits 24 (-149) 127 z 0.

Definition pack_number (v : Value) : option bytes :=
  match v with
  | VFloat f => Some (le_bytes 4 (f32_of_f64 f))
  | VInt i => Some (le_bytes 4 (f32_of_int i))
  | _ => None
  end.
Definition pack_embedding (v : Value) : option bytes :=
  match v with
  | VList [] => None
  | VList values => @concat byte <$> mapM pack_number values
  | _ => None
  end.

(** ** Vertices *)

(** [record_decode.rs]. *)
Definition invalid_vertex : ExecutionError := ExStorage (StDecodingError (bs "Invalid vertex metadata")).

Definition json_vertex_ok (expected_vid : Z) (json : JsonValue) : bool :=
  match json_get (bs "vid") json with Some vid => bool_decide (json_as_i64 vid = Some expected_vid) | None => true end &&
  match json_get (bs "tags") json ≫= json_as_array with
  | None => false
  | Some tags =>
      forallb (fun tag =>
        bool_decide (is_Some (json_get (bs "name") tag ≫= json_as_str)) &&
        match json_get (bs "props") tag with Some props => bool_decide (is_Some (json_as_object props)) | None => true end)
        tags
  end.

Definition decode_vertex_checked (expected_vid : Z) (b : bytes) : Result ExecutionError VertexData :=
  let proto := is_proto_format b in
  match (if proto then Ok tt
         else match json_from_slice b with
              | Err e => Err (ExSerialization e)
              | Ok json => if json_vertex_ok expected_vid json then Ok tt else Err invalid_vertex
              end) with
  | Err e => Err e
  | Ok _ =>
      match decode_vertex b with
      | Err e => Err (ExStorage (StCodec (codec_text e)))
      | Ok v => if proto && negb (vid v =? expected_vid) then Err invalid_vertex else Ok (mkVertex expected_vid (tags v))
      end
  end.

Definition vertex_entry (index : IndexDef) (vid : Z) (tag : TagData) : bytes :=
  KeyUtils.tag_index_key 1 (idx_id index) (index_values index (tag_properties tag)) vid.

Definition find_tag (name : bytes) (tags : list TagData) : option TagData :=
  List.find (fun tag => bool_decide (tag_name tag = name)) tags.

Definition vertex_index_keys (space : bytes) (v : VertexData) : DML (list bytes) :=
  indexes <-- mutation_indexes space IndexTag ;;
  d_ret (filter_map (fun index => vertex_entry index (vid v) <$> find_tag (schema_name index) (tags v)) indexes).

(** The dense vectors of a property list, by property. *)
Definition embeddings (props : gmap bytes Value) : list (bytes * bytes) :=
  filter_map (fun kv => (fun b => (kv.1, b)) <$> pack_embedding kv.2) (map_to_list props).

(** *** The merge *)

Definition err_orphan : ExecutionError := InvalidOperation (bs "sameAs found an orphan reverse edge").
Definition err_mismatch : ExecutionError := InvalidOperation (bs "sameAs forward/reverse edge mismatch").

(** [PartialEq for EdgeData]. *)
Definition edge_eq (e1 e2 : EdgeData) : bool :=
  (src_vid e1 =? src_vid e2) && (dst_vid e1 =? dst_vid e2) && bool_decide (edge_type e1 = edge_type e2) &&
  (ranking e1 =? ranking e2) && props_eq value_eq (edge_properties e1) (edge_properties e2).

Definition collect_edge (space : bytes) (edges : list (bytes * EdgeData)) (kv : kv_pair) : DML (list (bytes * EdgeData)) :=
  edge <-- d_result (decode_query_edge kv.1 kv.2) ;;
  let fwd := edge_row_key space edge in
  forward <-- d_call (call_get fwd) ;;
  match forward with
  | None => d_fail err_orphan
  | Some forward =>
      forward_edge <-- d_result (decode_query_edge fwd forward) ;;
      if negb (edge_eq forward_edge edge) then d_fail err_mismatch else d_ret (om_insert fwd edge edges)
  end.

Definition remove_edge (space : bytes) (ke : bytes * EdgeData) : DML unit :=
  let '(key, edge) := ke in
  keys <-- edge_index_keys space edge ;;
  versions <-- (if inferred edge then d_ret [] else draw_tombstones [key]) ;;
  d_call (call_batch_apply [] (keys ++ [key; in_edge_row_key space edge]) versions).

(** The edge that is written where an edge with the same identity may exist. *)
Definition combine_edges (existing incoming : EdgeData) : EdgeData :=
  if negb (inferred existing) || inferred incoming then
    if negb (inferred incoming)
    then mkEdge (src_vid existing) (dst_vid existing) (edge_type existing) (ranking existing)
           (edge_properties existing ∪ edge_properties incoming)
    else existing
  else incoming.

Definition write_merged_edge (space : bytes) (edge : EdgeData) : DML unit :=
  let key := edge_row_key space edge in
  found <-- d_call (call_get key) ;;
  r <-- match found with
        | None => d_ret (edge, [])
        | Some b =>
            existing <-- d_result (decode_query_edge key b) ;;
            deletes <-- edge_index_keys space existing ;;
            d_ret (combine_edges existing edge, deletes)
        end ;;
  let '(edge, deletes) := r in
  data <-- encode_edge_io edge ;;
  keys <-- edge_index_keys space edge ;;
  let puts := [(key, data); (in_edge_row_key space edge, data)] ++ ((fun k => (k, [])) <$> keys) in
  versions <-- (if inferred edge then d_ret [] else draw_versions [(key, data)]) ;;
  d_call (call_batch_apply puts (retain_deletes puts deletes) versions).

(** The loser's ends of an edge become the winner's. *)
Definition redirect (winner loser : Z) (e : EdgeData) : EdgeData :=
  mkEdge (if src_vid e =? loser then winner else src_vid e) (if dst_vid e =? loser then winner else dst_vid e)
    (edge_type e) (ranking e) (edge_properties e).

Definition move_vtype (space : bytes) (winner loser : Z) (kv : kv_pair) : DML unit :=
  match (class ← SchemaKey.vtype_class_from_key kv.1;
         if bool_decide (SchemaKey.vtype space loser class = kv.1) then Some class else None) with
  | None => d_fail (InvalidOperation (bs "Invalid inferred type key during sameAs"))
  | Some class => d_call (call_put (SchemaKey.vtype space winner class) []) ;;- d_call (call_delete kv.1)
  end.

Definition move_member (space : bytes) (winner loser : Z) (kv : kv_pair) : DML unit :=
  match (member ← SchemaKey.sameas_member_from_key kv.1;
         if bool_decide (SchemaKey.sameas_member space loser member = kv.1) then Some member else None) with
  | None => d_fail (InvalidOperation (bs "Invalid sameAs member key"))
  | Some member =>
      d_call (call_put (SchemaKey.sameas space member) (encode_repr winner)) ;;-
      d_call (call_put (SchemaKey.sameas_member space winner member) []) ;;-
      d_call (call_delete kv.1)
  end.

(** A tag of the loser joins the winner's tags. *)
Fixpoint merge_tag (tags : list TagData) (tag : TagData) : list TagData :=
  match tags with
  | [] => [tag]
  | t :: tags =>
      if bool_decide (tag_name t = tag_name tag)
      then mkTag (tag_name t) (tag_properties t ∪ tag_properties tag) :: tags
      else t :: merge_tag tags tag
  end.

Definition merge_vertex_blob (space : bytes) (winner loser : Z) : DML unit :=
  let loser_key := SchemaKey.vertex space loser in
  found <-- d_call (call_get loser_key) ;;
  match found with
  | None => d_ret tt
  | Some b =>
      loser_v <-- d_result (decode_vertex_checked loser b) ;;
      let winner_key := SchemaKey.vertex space winner in
      found <-- d_call (call_get winner_key) ;;
      winner_v <-- match found with
                   | Some b => d_result (decode_vertex_checked winner b)
                   | None => d_ret (mkVertex winner [])
                   end ;;
      loser_keys <-- vertex_index_keys space loser_v ;;
      winner_keys <-- vertex_index_keys space winner_v ;;
      let deletes :=
        loser_keys ++ winner_keys ++ [loser_key] ++
        (tags loser_v ≫= fun tag => SchemaKey.tagvid space (tag_name tag) loser ::
           ((fun pb => SchemaKey.vec_data space pb.1 loser) <$> embeddings (tag_properties tag))) in
      let winner_v := mkVertex winner (foldl merge_tag (tags winner_v) (tags loser_v)) in
      let dirty : gset bytes :=
        list_to_set ((tags loser_v ≫= fun tag => (embeddings (tag_properties tag)).*1) ++
                     (tags winner_v ≫= fun tag => (embeddings (tag_properties tag)).*1)) in
      data <-- encode_vertex_io winner_v ;;
      new_keys <-- vertex_index_keys space winner_v ;;
      let puts :=
        [(winner_key, data)] ++ ((fun k => (k, [])) <$> new_keys) ++
        (tags winner_v ≫= fun tag => (SchemaKey.tagvid space (tag_name tag) winner, []) ::
           ((fun pb => (SchemaKey.vec_data space pb.1 winner, pb.2)) <$> embeddings (tag_properties tag))) ++
        ((fun prop => (SchemaKey.vec_index_dirty space prop, [])) <$> elements dirty) in
      dead <-- draw_tombstones [loser_key] ;;
      live <-- draw_versions [(winner_key, data)] ;;
      d_call (call_batch_apply puts (retain_deletes puts deletes) (dead ++ live))
  end.

Definition collapse_node (space : bytes) (winner loser : Z) : DML unit :=
  out_rows <-- d_call (call_scan_prefix (SchemaKey.edge_data_src_prefix space loser)) ;;
  edges <-- d_fold (collect_edge space) [] out_rows ;;
  in_rows <-- d_call (call_scan_prefix (SchemaKey.in_edge_data_dst_prefix space loser)) ;;
  edges <-- d_fold (collect_edge space) edges in_rows ;;
  d_for_each (remove_edge space) edges ;;-
  d_for_each (fun ke => write_merged_edge space (redirect winner loser ke.2)) edges ;;-
  types <-- d_call (call_scan_prefix (SchemaKey.vtype_prefix space loser)) ;;
  d_for_each (move_vtype space winner loser) types ;;-
  merge_vertex_blob space winner loser ;;-
  members <-- d_call (call_scan_prefix (SchemaKey.sameas_members_prefix space loser)) ;;
  d_for_each (move_member space winner loser) members ;;-
  d_call (call_put (SchemaKey.sameas space loser) (encode_repr winner)) ;;-
  d_call (call_put (SchemaKey.sameas_member space winner loser) []).

(** [*counts.entry(key).or_default() += delta]. *)
Definition bump {K} `{Countable K} (key : K) (delta : Z) (counts : gmap K Z) : gmap K Z :=
  <[key := as_i64 (default 0 (counts !! key) + delta)]> counts.

Fixpoint count_edges (space : bytes) (rows : list kv_pair) (counts : gmap bytes Z) : Result ExecutionError (gmap bytes Z) :=
  match rows with
  | [] => Ok counts
  | (key, value) :: rows =>
      match decode_query_edge key value with
      | Err e => Err e
      | Ok edge =>
          count_edges space rows
            (if inferred edge then counts
             else bump (SchemaKey.outdeg_counter space (edge_type edge) (src_vid edge)) 1
                    (bump (SchemaKey.indeg_counter space (edge_type edge) (dst_vid edge)) 1 counts))
      end
  end.

Definition rebuild_asserted_degree_counters (space : bytes) : DML unit :=
  rows <-- d_call (call_scan_prefix (space ++ bs ":edge:")) ;;
  counts <-- d_result (count_edges space rows ∅) ;;
  ins <-- d_call (call_scan_prefix (space ++ bs ":indeg:")) ;;
  outs <-- d_call (call_scan_prefix (space ++ bs ":outdeg:")) ;;
  let deletes := List.filter (fun key => negb (bool_decide (is_Some (counts !! key)))) (ins ++ outs).*1 in
  d_call (call_batch_apply ((fun kc => (kc.1, SchemaKey.encode_count kc.2)) <$> map_to_list counts) deletes []).

Definition err_merge_cap (cap : Z) : ExecutionError :=
  ResourceExhausted (bs "sameAs merges exceed max_traversal_nodes (" ++ dec cap ++ bs "); no statement writes committed").

Definition merge_triple (space : bytes) (merged : Z) (t : Z * bytes * Z) : DML Z :=
  let '(a, p, b) := t in
  if negb (bool_decide (p = SAMEAS_EDGE)) || (a =? b) then d_ret merged else
  a <-- representative_of space a ;;
  b <-- representative_of space b ;;
  if a =? b then d_ret merged else
  let cap := max_traversal_nodes ctx in
  if negb (cap =? 0) && (cap <=? merged) then d_fail (err_merge_cap cap) else
  collapse_node space (Z.min a b) (Z.max a b) ;;-
  d_ret (merged + 1).

Definition merge_sameas_triples (space : bytes) (triples : list (Z * bytes * Z)) : DML unit :=
  merged <-- d_fold (merge_triple space) 0 triples ;;
  if 0 <? merged then rebuild_asserted_degree_counters space else d_ret tt.

(** ** INSERT EDGE *)

Record EdgeBatch := mkBatch {
  eb_puts : list kv_pair;
  eb_versions : list kv_pair;
  eb_deletes : list bytes;
  eb_final : list (Z * bytes * Z * Z * EdgeData);
  eb_triples : list (Z * bytes * Z);
  eb_deg_in : gmap (bytes * Z) Z;
  eb_deg_out : gmap (bytes * Z) Z;
  eb_seen : gset bytes;
  eb_inserted : Z
}.
Definition no_batch : EdgeBatch := mkBatch [] [] [] [] [] ∅ ∅ ∅ 0.

Definition created_vid (space : bytes) (vid_type : SpaceVidType) (which : bytes) (v : Vid) : DML Z :=
  r <-- d_prog (resolve_vid space vid_type v true) ;;
  match r with
  | Some z => d_ret z
  | None => d_fail (InvalidOperation (bs "failed to create " ++ which ++ bs "VID mapping in space '" ++ space ++ bs "'"))
  end.

(** Whether an edge counts as new, and the index entries of the one it replaces. *)
Definition replaced_edge (space key : bytes) (b : EdgeBatch) : DML (bool * list bytes) :=
  if bool_decide (key ∈ eb_seen b) then d_ret (false, []) else
  found <-- d_call (call_get key) ;;
  match found with
  | None => d_ret (true, [])
  | Some old =>
      old <-- d_result (decode_query_edge key old) ;;
      keys <-- edge_index_keys space old ;;
      d_ret (inferred old, keys)
  end.

Definition add_edge (space : bytes) (vid_type : SpaceVidType) (b : EdgeBatch) (edge : EdgeInsert) : DML EdgeBatch :=
  src <-- created_vid space vid_type (bs "source ") (ei_src edge) ;;
  dst <-- created_vid space vid_type (bs "destination ") (ei_dst edge) ;;
  src <-- representative_of space src ;;
  dst <-- representative_of space dst ;;
  let codec_edge := mkEdge src dst (ei_type edge) (ei_ranking edge) (ei_props edge) in
  let key := edge_row_key space codec_edge in
  data <-- encode_edge_io codec_edge ;;
  r <-- replaced_edge space key b ;;
  let '(is_new, old_keys) := r in
  d_ret (mkBatch
    (eb_puts b ++ [(key, data); (in_edge_row_key space codec_edge, data)])
    (eb_versions b ++ [(key, data)])
    (eb_deletes b ++ old_keys)
    (om_insert (src, ei_type edge, dst, ei_ranking edge) codec_edge (eb_final b))
    (eb_triples b ++ [(src, ei_type edge, dst)])
    (if is_new then bump (ei_type edge, dst) 1 (eb_deg_in b) else eb_deg_in b)
    (if is_new then bump (ei_type edge, src) 1 (eb_deg_out b) else eb_deg_out b)
    ({[key]} ∪ eb_seen b)
    (as_i64 (eb_inserted b + 1))).

Definition validate_insert (space : bytes) (vid_type : SpaceVidType) (edge : EdgeInsert) : DML unit :=
  validate_edge_props space (ei_type edge) (ei_props edge) ;;-
  d_result (validate_write_vid space vid_type (ei_src edge)) ;;-
  d_result (validate_write_vid space vid_type (ei_dst edge)).

(** The changes of the degree counters. *)
Definition counter_deltas (space : bytes) (deg_in deg_out : gmap (bytes * Z) Z) : list (bytes * Z) :=
  ((fun kd => (SchemaKey.indeg_counter space kd.1.1 kd.1.2, kd.2)) <$> map_to_list deg_in) ++
  ((fun kd => (SchemaKey.outdeg_counter space kd.1.1 kd.1.2, kd.2)) <$> map_to_list deg_out).
Definition apply_counters (deltas : list (bytes * Z)) : DML unit :=
  match deltas with [] => d_ret tt | _ => d_call (call_add_counters deltas) end.

Definition execute_insert_edges (plan_space : bytes) (edges : list EdgeInsert) : DML ExecutorResult :=
  space <-- effective_space plan_space ;;
  vid_type <-- d_prog (space_vid_type (is_distributed ctx) space) ;;
  edge_indexes <-- mutation_indexes space IndexEdge ;;
  d_for_each (validate_insert space vid_type) edges ;;-
  b <-- d_fold (add_edge space vid_type) no_batch edges ;;
  let entries := eb_final b ≫= fun ke =>
    (fun index => (edge_entry index ke.2, [])) <$> indexes_of (edge_type ke.2) edge_indexes in
  let batch := eb_puts b ++ entries in
  let deletes := retain_deletes batch (eb_deletes b) in
  batch <-- fence_semantic_batch space batch ;;
  versions <-- draw_versions (eb_versions b) ;;
  d_call (call_batch_apply batch deletes versions) ;;-
  apply_counters (counter_deltas space (eb_deg_in b) (eb_deg_out b)) ;;-
  merge_sameas_triples space (eb_triples b) ;;-
  d_ret (count_result (bs "Inserted") (eb_inserted b)).

(** ** UPDATE EDGE *)

(** The properties a condition sees, bare and qualified by the edge type. *)
Definition current_props (name : bytes) (props : gmap bytes Value) : gmap bytes Value :=
  foldl (fun m kv => <[kv.1 := kv.2]> (<[name ++ bs "." ++ kv.1 := kv.2]> m)) ∅ (map_to_list props).

Definition edge_context (name : bytes) (props : gmap bytes Value) : EvalContext :=
  with_current empty_context (current_props name props).

(** [PartialEq for IndexValue]; floats are compared as numbers. *)
Definition index_value_eq (v1 v2 : IndexValue) : bool :=
  match v1, v2 with
  | IVNull, IVNull => true
  | IVBool b1, IVBool b2 => Bool.eqb b1 b2
  | IVInt i1, IVInt i2 => i1 =? i2
  | IVFloat f1, IVFloat f2 => SFeqb (f64_value f1) (f64_value f2)
  | IVString s1, IVString s2 => bool_decide (s1 = s2)
  | _, _ => false
  end.

(** The entries of the indexes whose values an update changes, old and new. *)
Definition update_entries (u : EdgeUpdate) (old new : EdgeData) (indexes : list IndexDef) : list (bytes * bytes) :=
  filter_map (fun index =>
    if slice_eq index_value_eq (index_values index (edge_properties old)) (index_values index (edge_properties new))
    then None
    else Some (edge_entry index old, edge_entry index new)) (indexes_of (eu_type u) indexes).

Definition execute_update_edge (u : EdgeUpdate) : DML ExecutorResult :=
  let no_op := d_ret (count_result (bs "Updated") 0) in
  space <-- effective_space (eu_space u) ;;
  vid_type <-- d_prog (space_vid_type (is_distributed ctx) space) ;;
  d_result (validate_write_vid space vid_type (eu_src u)) ;;-
  d_result (validate_write_vid space vid_type (eu_dst u)) ;;-
  validate_edge_props space (eu_type u) (eu_updates u) ;;-
  src <-- d_prog (resolve_vid space vid_type (eu_src u) false) ;;
  dst <-- d_prog (resolve_vid space vid_type (eu_dst u) false) ;;
  match src, dst with
  | Some src, Some dst =>
      src <-- representative_of space src ;;
      dst <-- representative_of space dst ;;
      let key := SchemaKey.edge_data space src (eu_type u) dst (eu_ranking u) in
      found <-- d_call (call_get key) ;;
      match found with
      | None => no_op
      | Some existing =>
          old <-- d_result (decode_query_edge key existing) ;;
          pass <-- match eu_conditions u with
                   | None => d_ret true
                   | Some cond => d_outcome (evaluate_condition cond (edge_context (eu_type u) (edge_properties old)))
                   end ;;
          if negb pass then no_op else
          let new := mkEdge (src_vid old) (dst_vid old) (edge_type old) (ranking old)
                       (delete INFERRED_MARKER (eu_updates u ∪ edge_properties old)) in
          encoded <-- encode_edge_io new ;;
          indexes <-- mutation_indexes space IndexEdge ;;
          let moved := update_entries u (mkEdge src dst (eu_type u) (eu_ranking u) (edge_properties old))
                         (mkEdge src dst (eu_type u) (eu_ranking u) (edge_properties new)) indexes in
          let puts := [(key, encoded); (SchemaKey.in_edge_data space dst (eu_type u) src (eu_ranking u), encoded)] ++
                      ((fun m => (m.2, [])) <$> moved) in
          puts <-- fence_semantic_batch space puts ;;
          versions <-- draw_versions [(key, encoded)] ;;
          d_call (call_batch_apply puts moved.*1 versions) ;;-
          (if inferred old
           then d_call (call_add_counters [(SchemaKey.indeg_counter space (eu_type u) dst, 1);
                                           (SchemaKey.outdeg_counter space (eu_type u) src, 1)])
           else d_ret tt) ;;-
          d_ret (count_result (bs "Updated") 1)
      end
  | _, _ => no_op
  end.

(** ** DELETE EDGE *)

Definition err_sameas_delete : ExecutionError :=
  InvalidOperation (bs "deleting a sameAs edge is unsupported — owl:sameAs merges are irreversible (insertion-only)").
Definition err_inferred_delete : ExecutionError :=
  InvalidOperation (bs "Cannot delete an inferred-only edge; delete its supporting assertions instead").

Record EdgeDeletes := mkDeletes {
  ed_keys : list bytes;
  ed_tombstones : list bytes;
  ed_deg_in : gmap (bytes * Z) Z;
  ed_deg_out : gmap (bytes * Z) Z;
  ed_seen : gset bytes;
  ed_deleted : Z
}.

Definition delete_ref (space name : bytes) (vid_type : SpaceVidType) (indexes : list IndexDef) (d : EdgeDeletes)
    (ref : Vid * Vid * Z) : DML EdgeDeletes :=
  let '(external_src, external_dst, rank) := ref in
  src <-- d_prog (resolve_vid space vid_type external_src false) ;;
  match src with
  | None => d_ret d
  | Some src =>
      dst <-- d_prog (resolve_vid space vid_type external_dst false) ;;
      match dst with
      | None => d_ret d
      | Some dst =>
          src <-- representative_of space src ;;
          dst <-- representative_of space dst ;;
          let key := SchemaKey.edge_data space src name dst rank in
          existing <-- (if bool_decide (key ∈ ed_seen d) then d_ret None else d_call (call_get key)) ;;
          let d := mkDeletes (ed_keys d) (ed_tombstones d) (ed_deg_in d) (ed_deg_out d) ({[key]} ∪ ed_seen d) (ed_deleted d) in
          match existing with
          | None => d_ret d
          | Some blob =>
              edge <-- d_result (decode_query_edge key blob) ;;
              if inferred edge then d_fail err_inferred_delete else
              d_ret (mkDeletes
                (ed_keys d ++ [key; SchemaKey.in_edge_data space dst name src rank] ++
                 ((fun index => KeyUtils.edge_index_key 1 (idx_id index) (index_values index (edge_properties edge)) src rank dst)
                    <$> indexes))
                (ed_tombstones d ++ [key])
                (bump (name, dst) (-1) (ed_deg_in d))
                (bump (name, src) (-1) (ed_deg_out d))
                (ed_seen d)
                (as_i64 (ed_deleted d + 1)))
          end
      end
  end.

Definition execute_delete_edge (plan : DeleteEdgePlan) : DML ExecutorResult :=
  space <-- effective_space (de_space plan) ;;
  vid_type <-- d_prog (space_vid_type (is_distributed ctx) space) ;;
  if bool_decide (de_type plan = SAMEAS_EDGE) then d_fail err_sameas_delete else
  indexes <-- mutation_indexes space IndexEdge ;;
  let indexes := indexes_of (de_type plan) indexes in
  d <-- d_fold (delete_ref space (de_type plan) vid_type indexes) (mkDeletes [] [] ∅ ∅ ∅ 0) (de_refs plan) ;;
  puts <-- fence_semantic_batch space [] ;;
  versions <-- draw_tombstones (ed_tombstones d) ;;
  d_call (call_batch_apply puts (ed_keys d) versions) ;;-
  apply_counters (counter_deltas space (ed_deg_in d) (ed_deg_out d)) ;;-
  d_ret (count_result (bs "Deleted") (ed_deleted d)).
End dml.
