(* ===== verification/DmlRules.v ===== *)
(** * Reasoning about statements

    Postconditions of statement programs run on the in-memory store: a success
    satisfies [Q], a failure satisfies [E]. *)

From Stdlib Require Import ZArith Lia Strings.Byte Strings.String.
From stdpp Require Import base tactics list gmap.
From S2P Require Import Prelude OrdMap History KVStore KVStoreFacts KVStoreBatch KVDyn Temporal Text SchemaKey.
From S2P Require Import Exec Vid DmlStaging Dml.

Lemma run_s_bind {S A B} `{DynKVStore S} (p : Statement A) (f : A -> Statement B) (s : S) :
  run_statement (s_bind p f) s =
    match run_statement p s with
    | (Ok a, s') => run_statement (f a) s'
    | (Err e, s') => (Err e, s')
    end.
Proof.
  revert s. induction p as [[a|e]|T c k IH]; intros s; try done. cbn [s_bind run_statement].
  by destruct (dyn_call c s) as [[b|e] s'].
Qed.

(** The row of a key. *)
Definition look (s : MemoryKVStore) (k : bytes) : option bytes := om_get k (data s).

(** Counters of different keys are changed independently. *)
Lemma add_counters_distinct deltas s :
  om_wf (data s) -> NoDup deltas.*1 ->
  (forall k d, (k, d) ∈ deltas -> 0 <= counter_value (look s k) /\ i64_ok (counter_value (look s k) + d)) ->
  exists s', default_add_counters deltas s = (Ok tt, s') /\ om_wf (data s') /\
    (forall k d, (k, d) ∈ deltas -> counter_value (look s' k) = Z.max 0 (counter_value (look s k) + d)) /\
    (forall k, k ∉ deltas.*1 -> look s' k = look s k).
Proof.
  unfold default_add_counters, look. revert s. induction deltas as [|[k d] l IH]; intros s Hwf Hnd Hb.
  { exists s. split_and!; [done|done| |done]. intros k d []%not_elem_of_nil. }
  apply NoDup_cons in Hnd as [Hk Hnd]. destruct (Hb k d (list_elem_of_here _ _)) as [Hc Hok].
  destruct (add_counter_one k d s Hwf Hc Hok) as (s1 & E1 & Hwf1 & _ & Hk1 & Hne1).
  assert (Hl : forall k' d', (k', d') ∈ l -> k' <> k).
  { intros k' d' Hin ->. apply Hk. by apply (list_elem_of_fmap_2 fst) in Hin. }
  destruct (IH s1 Hwf1 Hnd) as (s2 & E2 & Hwf2 & Hk2 & Hne2).
  { intros k' d' Hin. rewrite Hne1 by eauto. apply Hb. by right. }
  exists s2. split; [cbn [kv_for_each]; unfold kv_bind; rewrite E1; exact E2|]. split; [done|]. split.
  - intros k' d' [[= -> ->]|Hin]%elem_of_cons; [by rewrite (Hne2 k Hk)|].
    rewrite <- (Hne1 k') by eauto. by apply Hk2.
  - intros k' [Hne Hnin]%not_elem_of_cons. rewrite Hne2 by done. by apply Hne1.
Qed.

(** The value a list of puts gives a key: a later put wins. *)
Definition put_value (puts : list kv_pair) (k : bytes) : option bytes :=
  snd <$> last (List.filter (fun kv => bool_decide (kv.1 = k)) puts).

Lemma put_value_app p1 p2 k :
  put_value (p1 ++ p2) k = match put_value p2 k with Some v => Some v | None => put_value p1 k end.
Proof.
  unfold put_value. rewrite List.filter_app, last_app. by destruct (last (List.filter _ p2)).
Qed.

Lemma put_value_cons k' v p k :
  put_value ((k', v) :: p) k =
    match put_value p k with Some v => Some v | None => if bool_decide (k' = k) then Some v else None end.
Proof. rewrite (put_value_app [(k', v)] p). destruct (put_value p k); [done|]. unfold put_value. simpl. by case_bool_decide. Qed.

Lemma put_value_is_Some puts k : is_Some (put_value puts k) <-> k ∈ puts.*1.
Proof.
  induction puts as [|[k' v] puts IH]; [split; [by intros []|by intros ?%not_elem_of_nil]|].
  rewrite put_value_cons, fmap_cons, elem_of_cons, <- IH. cbn [fst]. destruct (put_value puts k).
  - split; [by right|done].
  - case_bool_decide; split; [by left|done| |]; intros []; by eauto.
Qed.

Lemma put_value_none puts k : k ∉ puts.*1 -> put_value puts k = None.
Proof. rewrite <- put_value_is_Some. by destruct (put_value puts k); [intros []|]. Qed.

(** The rows after a batch: a deletion wins over a put. *)
Definition batch_look (puts : list kv_pair) (deletes : list bytes) (s : MemoryKVStore) (k : bytes) : option bytes :=
  if bool_decide (k ∈ deletes) then None
  else match put_value puts k with Some v => Some v | None => look s k end.

Lemma batch_look_other puts deletes s k : k ∉ deletes -> k ∉ puts.*1 -> batch_look puts deletes s k = look s k.
Proof. intros Hd Hp. unfold batch_look. by rewrite bool_decide_eq_false_2, put_value_none. Qed.

(** A map after some of its entries were replaced or removed. *)
Definition changed {K A} `{Countable K} (ch : gmap K (option A)) (M : gmap K A) : gmap K A :=
  merge (fun c g => match c with Some o => o | None => g end) ch M.

Lemma changed_lookup {K A} `{Countable K} (ch : gmap K (option A)) (M : gmap K A) i :
  changed ch M !! i = match ch !! i with Some o => o | None => M !! i end.
Proof. unfold changed. rewrite lookup_merge. by destruct (ch !! i), (M !! i). Qed.

(** A map after some entries were put into it, a later one winning. *)
Definition put_all {K A} `{Countable K} (l : list (K * A)) (M : gmap K A) : gmap K A := foldl (fun m kv => <[kv.1 := kv.2]> m) M l.

Section put_all.
Context {K A : Type} `{Countable K}.
Implicit Types (l : list (K * A)) (M : gmap K A).

Lemma put_all_snoc l k a M : put_all (l ++ [(k, a)]) M = <[k := a]> (put_all l M).
Proof. unfold put_all. by rewrite foldl_app. Qed.

Lemma put_all_changed l M : put_all l M = changed (Some <$> put_all l ∅) M.
Proof.
  induction l as [|[k a] l IH] using rev_ind; apply map_eq; intros i; rewrite changed_lookup, lookup_fmap.
  { unfold put_all. cbn [foldl]. by rewrite lookup_empty. }
  rewrite !put_all_snoc, IH. destruct (decide (k = i)) as [<-|Hne]; [by rewrite !lookup_insert_eq|].
  by rewrite !lookup_insert_ne, changed_lookup, lookup_fmap by done.
Qed.

Lemma put_all_elem l k a : put_all l ∅ !! k = Some a -> (k, a) ∈ l.
Proof.
  induction l as [|[k' a'] l IH] using rev_ind; [unfold put_all; cbn [foldl]; by rewrite lookup_empty|].
  rewrite put_all_snoc. destruct (decide (k' = k)) as [<-|Hne].
  - rewrite lookup_insert_eq. intros [= ->]. set_solver.
  - rewrite lookup_insert_ne by done. intros E%IH. set_solver.
Qed.

Lemma put_all_dom l : dom (put_all l ∅) = list_to_set l.*1.
Proof.
  induction l as [|[k a] l IH] using rev_ind; [unfold put_all; cbn [foldl]; by rewrite dom_empty_L|].
  rewrite put_all_snoc, dom_insert_L, IH, fmap_app, list_to_set_app_L. set_solver.
Qed.
End put_all.

Section rules.
Context (E : ExecutionError -> Prop).

Definition post {A} (p : DML A) (s : MemoryKVStore) (Q : A -> MemoryKVStore -> Prop) : Prop :=
  forall c, match run_statement (p c) s with
            | (Ok (a, _), s') => Q a s'
            | (Err e, _) => E e
            end.

Lemma post_ret {A} (a : A) s (Q : A -> MemoryKVStore -> Prop) : Q a s -> post (d_ret a) s Q.
Proof. by intros HQ c. Qed.

Lemma post_fail {A} e s (Q : A -> MemoryKVStore -> Prop) : E e -> post (d_fail e) s Q.
Proof. by intros He c. Qed.

Lemma post_result {A} (r : Result ExecutionError A) s (Q : A -> MemoryKVStore -> Prop) :
  match r with Ok a => Q a s | Err e => E e end -> post (d_result r) s Q.
Proof. by destruct r; intros HQ c. Qed.

Lemma post_bind {A B} (p : DML A) (f : A -> DML B) s Q :
  post p s (fun a s' => post (f a) s' Q) -> post (d_bind p f) s Q.
Proof.
  intros Hp c. unfold d_bind. rewrite run_s_bind. specialize (Hp c).
  destruct (run_statement (p c) s) as [[[a c']|e] s']; [apply Hp|done].
Qed.

Lemma post_conseq {A} (p : DML A) s (Q Q' : A -> MemoryKVStore -> Prop) :
  (forall a s', Q a s' -> Q' a s') -> post p s Q -> post p s Q'.
Proof.
  intros HQ Hp c. specialize (Hp c). destruct (run_statement (p c) s) as [[[a c']|e] s']; auto.
Qed.

(** ** Calls of the in-memory store *)

Lemma post_call {A} (k : kv_call A) s (Q : A -> MemoryKVStore -> Prop) a s' :
  mem_run k s = (Ok a, s') -> Q a s' -> post (d_call k) s Q.
Proof.
  intros Hk HQ c. unfold d_call. cbn [run_statement]. unfold dyn_call, memory_dyn. by rewrite Hk.
Qed.

Lemma post_get k s (Q : option bytes -> MemoryKVStore -> Prop) : Q (look s k) s -> post (d_call (call_get k)) s Q.
Proof. by apply post_call. Qed.

Lemma post_scan p s (Q : list kv_pair -> MemoryKVStore -> Prop) :
  om_wf (data s) -> Q (List.filter (fun kv => starts_with p kv.1) (data s)) s -> post (d_call (call_scan_prefix p)) s Q.
Proof.
  intros Hwf HQ. eapply post_call; [|exact HQ]. cbn [mem_run]. unfold Memory.scan_prefix. by rewrite prefix_walk.
Qed.

Lemma post_draw {A} (f : tx_clock -> A * tx_clock) s (Q : A -> MemoryKVStore -> Prop) :
  (forall a, Q a s) -> post (fun c => Finish (Ok (f c))) s Q.
Proof. intros HQ c. cbn [run_statement]. by destruct (f c). Qed.

Lemma post_put k v s (Q : unit -> MemoryKVStore -> Prop) :
  Q tt (with_data s (om_insert k v (data s))) -> post (d_call (call_put k v)) s Q.
Proof. by apply post_call. Qed.

Lemma post_delete k s (Q : unit -> MemoryKVStore -> Prop) :
  Q tt (with_data s (om_remove k (data s))) -> post (d_call (call_delete k)) s Q.
Proof. by apply post_call. Qed.

Lemma post_batch_apply puts deletes versions s (Q : unit -> MemoryKVStore -> Prop) :
  om_wf (data s) ->
  (forall s', om_wf (data s') -> (forall k, look s' k = batch_look puts deletes s k) -> Q tt s') ->
  post (d_call (call_batch_apply puts deletes versions)) s Q.
Proof.
  intros Hwf HQ. eapply post_call; [done|]. apply HQ.
  - simpl. by apply om_remove_all_wf, om_insert_all_wf.
  - intros k. unfold look, batch_look. simpl. rewrite om_get_remove_all by by apply om_insert_all_wf.
    case_bool_decide; [done|]. rewrite om_get_insert_all by done.
    unfold put_value. by destruct (last _).
Qed.

Lemma post_add_counters deltas s (Q : unit -> MemoryKVStore -> Prop) :
  om_wf (data s) -> NoDup deltas.*1 ->
  (forall k d, (k, d) ∈ deltas -> 0 <= counter_value (look s k) /\ i64_ok (counter_value (look s k) + d)) ->
  (forall s', om_wf (data s') ->
    (forall k d, (k, d) ∈ deltas -> counter_value (look s' k) = Z.max 0 (counter_value (look s k) + d)) ->
    (forall k, k ∉ deltas.*1 -> look s' k = look s k) -> Q tt s') ->
  post (d_call (call_add_counters deltas)) s Q.
Proof.
  intros Hwf Hnd Hb HQ. destruct (add_counters_distinct deltas s Hwf Hnd Hb) as (s' & Hrun & Hwf' & Hin & Hout).
  eapply post_call; [exact Hrun|]. by apply HQ.
Qed.

(** ** Loops *)

Lemma post_fold {A X} (f : X -> A -> DML X) (I : list A -> X -> MemoryKVStore -> Prop) l x s Q :
  I [] x s ->
  (forall seen a x s, I seen x s -> (exists rest, l = seen ++ a :: rest) -> post (f x a) s (fun x' s' => I (seen ++ [a]) x' s')) ->
  (forall x s, I l x s -> Q x s) -> post (d_fold f x l) s Q.
Proof.
  intros H0 Hstep HQ.
  assert (Hgen : forall rest seen x s, l = seen ++ rest -> I seen x s -> post (d_fold f x rest) s Q).
  { intros rest. induction rest as [|a rest IH]; intros seen x' s' El HI; cbn [d_fold].
    - apply post_ret, HQ. by rewrite El, app_nil_r.
    - apply post_bind. eapply post_conseq; [|apply Hstep; eauto]. intros x2 s2 H2.
      apply (IH (seen ++ [a])); [by rewrite <- app_assoc|done]. }
  by apply (Hgen l []).
Qed.

Lemma post_for_each {A} (f : A -> DML unit) (I : list A -> MemoryKVStore -> Prop) l s Q :
  I [] s ->
  (forall seen a s, I seen s -> (exists rest, l = seen ++ a :: rest) -> post (f a) s (fun _ s' => I (seen ++ [a]) s')) ->
  (forall s, I l s -> Q tt s) -> post (d_for_each f l) s Q.
Proof.
  intros H0 Hstep HQ.
  assert (Hgen : forall rest seen s, l = seen ++ rest -> I seen s -> post (d_for_each f rest) s Q).
  { intros rest. induction rest as [|a rest IH]; intros seen s' El HI; cbn [d_for_each].
    - apply post_ret, HQ. by rewrite El, app_nil_r.
    - apply post_bind. eapply post_conseq; [|apply Hstep; eauto]. intros [] s2 H2.
      apply (IH (seen ++ [a])); [by rewrite <- app_assoc|done]. }
  by apply (Hgen l []).
Qed.

(** A program that only reads: it is enough to look at its result. *)
Definition reads {A} (p : DML A) (s : MemoryKVStore) (Q : A -> Prop) : Prop := post p s (fun a s' => s' = s /\ Q a).

Lemma post_reads {A B} (p : DML A) (f : A -> DML B) s (Q : A -> Prop) R :
  reads p s Q -> (forall a, Q a -> post (f a) s R) -> post (d_bind p f) s R.
Proof. intros Hp Hf. apply post_bind. eapply post_conseq; [|exact Hp]. intros a s' [-> Ha]. by apply Hf. Qed.

(** ** Programs over single calls *)

(** [p] writes only keys that [K] holds of, and returns values that [R] holds of. *)
Fixpoint prog_safe {A} (K : bytes -> Prop) (R : A -> Prop) (p : Prog A) : Prop :=
  match p with
  | Ret a => R a
  | Throw _ | Spin => True
  | CallGet _ k => forall r, prog_safe K R (k r)
  | CallScanLimited _ _ k => forall r, prog_safe K R (k r)
  | CallPutIfAbsent key _ k => K key /\ forall r, prog_safe K R (k r)
  end.

Lemma prog_safe_bind {A B} K (R : A -> Prop) (R' : B -> Prop) (p : Prog A) (f : A -> Prog B) :
  prog_safe K R p -> (forall a, R a -> prog_safe K R' (f a)) -> prog_safe K R' (p_bind p f).
Proof.
  intros Hp Hf. induction p as [a|e|key k IH|pre lim k IH|key v k IH|]; simpl in *; try done; [by apply Hf|auto|auto|].
  destruct Hp. auto.
Qed.

Lemma prog_safe_loop {X A} K (I : X -> Prop) (R : A -> Prop) n (body : X -> Prog (X + A)) x :
  (forall x, I x -> prog_safe K (fun r => match r with inl x => I x | inr a => R a end) (body x)) ->
  I x -> prog_safe K (fun r => match r with inl x => I x | inr a => R a end) (p_loop n body x).
Proof.
  intros Hb. revert x. induction n as [n IH|n IH|]; intros x Hx; cbn [p_loop]; [| |by apply Hb].
  - eapply prog_safe_bind; [by apply Hb|]. intros [x'|a] Hr; [|done].
    eapply prog_safe_bind; [by apply IH|]. intros [x''|a] Hr'; [by apply IH|done].
  - eapply prog_safe_bind; [by apply IH|]. intros [x'|a] Hr; [by apply IH|done].
Qed.

(** The rows of [s] at keys outside [K] are those of [s']. *)
Definition frame (K : bytes -> Prop) (s s' : MemoryKVStore) : Prop :=
  om_wf (data s') /\ forall k, ~ K k -> look s' k = look s k.

Lemma frame_refl K s : om_wf (data s) -> frame K s s.
Proof. by split. Qed.

Lemma frame_trans K s1 s2 s3 : frame K s1 s2 -> frame K s2 s3 -> frame K s1 s3.
Proof. intros [_ H1] [Hwf H2]. split; [done|]. intros k Hk. by rewrite H2, H1. Qed.

Lemma put_if_absent_frame (K : bytes -> Prop) key v s :
  om_wf (data s) -> K key -> frame K s (Memory.put_if_absent key v s).2.
Proof.
  intros Hwf Hk. unfold Memory.put_if_absent. destruct (om_get key (data s)); [by apply frame_refl|].
  split; simpl; [by apply om_insert_wf|]. intros k Hn. unfold look. simpl. rewrite om_get_insert by done.
  destruct (cmp k key) eqn:Ec; try done. apply cmp_eq_iff in Ec as ->. done.
Qed.

Lemma post_prog {A} (p : Prog A) K R s (Q : A -> MemoryKVStore -> Prop) :
  (forall e, E e) -> om_wf (data s) -> prog_safe K R p ->
  (forall a s', frame K s s' -> R a -> Q a s') -> post (d_prog p) s Q.
Proof.
  intros HE Hwf Hp HQ c. unfold d_prog. rewrite run_s_bind.
  enough (match run_statement (s_prog p) s with (Ok a, s') => frame K s s' /\ R a | (Err _, _) => True end) as Hr.
  { destruct (run_statement (s_prog p) s) as [[a|e] s']; [|done]. simpl. destruct Hr. by apply HQ. }
  clear HQ. revert s Hwf. induction p as [a|e|key k IH|pre lim k IH|key v k IH|]; intros s Hwf; simpl in Hp |- *; try done.
  - by apply IH.
  - by apply IH.
  - destruct Hp as [Hk Hp]. pose proof (put_if_absent_frame K key v s Hwf Hk) as Hf.
    unfold dyn_call, memory_dyn. cbn [mem_run]. revert Hf. unfold Memory.put_if_absent.
    destruct (om_get key (data s)) as [old|]; intros Hf; cbn [snd] in Hf.
    + by apply IH.
    + specialize (IH None (Hp None) _ (proj1 Hf)).
      destruct (run_statement _ _) as [[a|e] s']; [|done]. destruct IH. split; [by eapply frame_trans|done].
Qed.

Lemma post_prog_ret {A} (a : A) s (Q : A -> MemoryKVStore -> Prop) : Q a s -> post (d_prog (Ret a)) s Q.
Proof. by intros HQ c. Qed.

Lemma post_prog_get {A} key (k : option bytes -> Prog A) s Q :
  post (d_prog (k (look s key))) s Q -> post (d_prog (CallGet key k)) s Q.
Proof. intros Hp c. apply (Hp c). Qed.
End rules.

Lemma post_errors (E E' : ExecutionError -> Prop) {A} (p : DML A) s Q : (forall e, E e -> E' e) -> post E p s Q -> post E' p s Q.
Proof. intros HE Hp c. specialize (Hp c). destruct (run_statement (p c) s) as [[[a c']|e] s']; auto. Qed.
