(* ===== verification/EdgeRep.v ===== *)
(** * The graph a store holds

    The edges of a space as an abstract finite map, and what it means that the rows
    of the store represent it: a forward and a reverse row for each edge, with the
    same record, and for each type and vertex the number of asserted edges that
    enter and leave it. *)

From Stdlib Require Import ZArith Lia Strings.Byte Strings.String.
From stdpp Require Import base tactics list gmap fin_sets.
From S2P Require Import Prelude OrdMap KVStore KVStoreBatch Text SchemaKey Value Exec VertexCodec VertexCodecFacts.
From S2P Require Import StorageKey IndexManager IndexFacts GraphAlgo Dml DmlRules.

(** ** Edges and their keys *)

(** Source, type, destination and rank. *)
Definition EdgeId : Type := Z * bytes * Z * Z.
Definition id_src (i : EdgeId) : Z := i.1.1.1.
Definition id_type (i : EdgeId) : bytes := i.1.1.2.
Definition id_dst (i : EdgeId) : Z := i.1.2.
Definition id_rank (i : EdgeId) : Z := i.2.

Definition edge_id (e : EdgeData) : EdgeId := (src_vid e, edge_type e, dst_vid e, ranking e).

Definition id_ok (i : EdgeId) : Prop :=
  identifier (id_type i) = true /\ i64_ok (id_src i) /\ i64_ok (id_dst i) /\ i64_ok (id_rank i).

Definition fwd (sp : bytes) (i : EdgeId) : bytes := SchemaKey.edge_data sp (id_src i) (id_type i) (id_dst i) (id_rank i).
Definition rev (sp : bytes) (i : EdgeId) : bytes := SchemaKey.in_edge_data sp (id_dst i) (id_type i) (id_src i) (id_rank i).

(** The keys of edges and counters. *)
Definition graph_kinds : list bytes := [bs ":edge:"; bs ":in-edge:"; bs ":indeg:"; bs ":outdeg:"].
Definition graph_key (sp k : bytes) : bool := existsb (fun kind => starts_with (sp ++ kind) k) graph_kinds.

Lemma graph_key_app sp x : graph_key sp (sp ++ x) = existsb (fun kind => starts_with kind x) graph_kinds.
Proof. unfold graph_key, graph_kinds. cbn [existsb]. by rewrite !starts_with_app_both. Qed.

Lemma data_key_inj sp r1 r2 :
  identifier sp = true -> data_row_ok r1 -> data_row_ok r2 -> data_key sp r1 = data_key sp r2 -> r1 = r2.
Proof.
  intros Hsp H1 H2 E. change (row_key (Data sp r1) = row_key (Data sp r2)) in E. rewrite !row_key_segments in E.
  apply join_colon_inj in E; try apply segments_nonempty; try by apply segments_colon_free.
  injection E. intros E'. by apply data_segments_inj.
Qed.

Lemma fwd_inj sp i j : identifier sp = true -> id_ok i -> id_ok j -> fwd sp i = fwd sp j -> i = j.
Proof.
  destruct i as [[[s t] d] r], j as [[[s' t'] d'] r']. intros Hsp Hi Hj E.
  assert (SchemaKey.EdgeData s t d r = SchemaKey.EdgeData s' t' d' r') as [= -> -> -> ->]; [|done].
  unfold id_ok in *. simpl in *. by apply (data_key_inj sp); simpl; [done|tauto|tauto|].
Qed.

Lemma rev_inj sp i j : identifier sp = true -> id_ok i -> id_ok j -> rev sp i = rev sp j -> i = j.
Proof.
  destruct i as [[[s t] d] r], j as [[[s' t'] d'] r']. intros Hsp Hi Hj E.
  assert (InEdge d t s r = InEdge d' t' s' r') as [= -> -> -> ->]; [|done].
  unfold id_ok in *. simpl in *. by apply (data_key_inj sp); simpl; [done|tauto|tauto|].
Qed.

Lemma indeg_inj sp t v t' v' : identifier sp = true -> identifier t = true -> i64_ok v -> identifier t' = true -> i64_ok v' ->
  SchemaKey.indeg_counter sp t v = SchemaKey.indeg_counter sp t' v' -> t = t' /\ v = v'.
Proof.
  intros Hsp ? ? ? ? E. assert (InDeg t v = InDeg t' v') as [= -> ->]; [|done]. by apply (data_key_inj sp).
Qed.

Lemma outdeg_inj sp t v t' v' : identifier sp = true -> identifier t = true -> i64_ok v -> identifier t' = true -> i64_ok v' ->
  SchemaKey.outdeg_counter sp t v = SchemaKey.outdeg_counter sp t' v' -> t = t' /\ v = v'.
Proof.
  intros Hsp ? ? ? ? E. assert (OutDeg t v = OutDeg t' v') as [= -> ->]; [|done]. by apply (data_key_inj sp).
Qed.

(** Keys of different kinds differ. *)
Ltac key_kinds := let E := fresh in intros E; repeat apply app_inv_head in E; discriminate E.

Lemma fwd_not_rev sp i j : fwd sp i <> rev sp j.
Proof. unfold fwd, rev, SchemaKey.edge_data, SchemaKey.in_edge_data. key_kinds. Qed.
Lemma fwd_not_in sp i t v : fwd sp i <> SchemaKey.indeg_counter sp t v.
Proof. unfold fwd, SchemaKey.edge_data, SchemaKey.indeg_counter. key_kinds. Qed.
Lemma fwd_not_out sp i t v : fwd sp i <> SchemaKey.outdeg_counter sp t v.
Proof. unfold fwd, SchemaKey.edge_data, SchemaKey.outdeg_counter. key_kinds. Qed.
Lemma rev_not_in sp i t v : rev sp i <> SchemaKey.indeg_counter sp t v.
Proof. unfold rev, SchemaKey.in_edge_data, SchemaKey.indeg_counter. key_kinds. Qed.
Lemma rev_not_out sp i t v : rev sp i <> SchemaKey.outdeg_counter sp t v.
Proof. unfold rev, SchemaKey.in_edge_data, SchemaKey.outdeg_counter. key_kinds. Qed.
Lemma in_not_out sp t v t' v' : SchemaKey.indeg_counter sp t v <> SchemaKey.outdeg_counter sp t' v'.
Proof. unfold SchemaKey.indeg_counter, SchemaKey.outdeg_counter. key_kinds. Qed.

Lemma graph_key_fwd sp i : graph_key sp (fwd sp i) = true.
Proof. unfold fwd, SchemaKey.edge_data. by rewrite graph_key_app. Qed.
Lemma graph_key_rev sp i : graph_key sp (rev sp i) = true.
Proof. unfold rev, SchemaKey.in_edge_data. by rewrite graph_key_app. Qed.
Lemma graph_key_in sp t v : graph_key sp (SchemaKey.indeg_counter sp t v) = true.
Proof. unfold SchemaKey.indeg_counter. by rewrite graph_key_app. Qed.
Lemma graph_key_out sp t v : graph_key sp (SchemaKey.outdeg_counter sp t v) = true.
Proof. unfold SchemaKey.outdeg_counter. by rewrite graph_key_app. Qed.

(** ** Degrees *)

Definition in_end (i : EdgeId) : bytes * Z := (id_type i, id_dst i).
Definition out_end (i : EdgeId) : bytes * Z := (id_type i, id_src i).

(** How many of the edges [N] end at [p]. *)
Definition degree (f : EdgeId -> bytes * Z) (N : gset EdgeId) (p : bytes * Z) : Z :=
  Z.of_nat (size (filter (fun i => f i = p) N)).

Lemma degree_empty f p : degree f ∅ p = 0.
Proof. unfold degree. replace (filter (fun i => f i = p) ∅) with (∅ : gset EdgeId) by set_solver. by rewrite size_empty. Qed.

Lemma degree_union f N1 N2 p : N1 ## N2 -> degree f (N1 ∪ N2) p = degree f N1 p + degree f N2 p.
Proof. intros Hd. unfold degree. 
  replace (filter (fun i => f i = p) (N1 ∪ N2)) with (filter (fun i => f i = p) N1 ∪ filter (fun i => f i = p) N2) by set_solver.
  rewrite size_union by set_solver. lia. Qed.

Lemma degree_singleton f i p : degree f {[i]} p = if bool_decide (f i = p) then 1 else 0.
Proof.
  unfold degree. case_bool_decide.
  - replace (filter (fun i => f i = p) {[i]}) with ({[i]} : gset EdgeId) by set_solver. by rewrite size_singleton.
  - replace (filter (fun i => f i = p) {[i]}) with (∅ : gset EdgeId) by set_solver. by rewrite size_empty.
Qed.

Lemma degree_difference f N D p : D ⊆ N -> degree f (N ∖ D) p = degree f N p - degree f D p.
Proof.
  intros Hs. assert (E : N = D ∪ (N ∖ D)) by by apply union_difference_L. rewrite E at 2.
  rewrite degree_union by set_solver. lia.
Qed.

Lemma degree_bounds f N p : 0 <= degree f N p <= Z.of_nat (size N).
Proof. unfold degree. pose proof (subseteq_size (filter (fun i => f i = p) N) N ltac:(set_solver)). lia. Qed.

(** The changes [m] of the counters are [sign] times the degrees of [N]. *)
Definition counts (sign : Z) (f : EdgeId -> bytes * Z) (N : gset EdgeId) (m : gmap (bytes * Z) Z) : Prop :=
  (forall p, default 0 (m !! p) = sign * degree f N p) /\ forall p, is_Some (m !! p) -> exists i, i ∈ N /\ f i = p.

Lemma counts_empty sign f : counts sign f ∅ ∅.
Proof.
  split; intros p; rewrite lookup_empty; [rewrite degree_empty; simpl; lia|by intros []].
Qed.

Lemma counts_bump sign f N m i :
  sign = 1 \/ sign = -1 -> counts sign f N m -> i ∉ N -> Z.of_nat (size N) + 1 < two63 ->
  counts sign f ({[i]} ∪ N) (bump (f i) sign m).
Proof.
  intros Hs [Hm Hk] Hi Hb. unfold bump. split; intros p.
  - rewrite degree_union, degree_singleton by set_solver. destruct (decide (f i = p)) as [<-|Hne].
    + rewrite lookup_insert_eq, bool_decide_eq_true_2 by done. cbn [default]. rewrite Hm.
      pose proof (degree_bounds f N (f i)). rewrite as_i64_id; unfold id; destruct Hs; subst; unfold i64_ok, two63 in *; lia.
    + rewrite lookup_insert_ne, bool_decide_eq_false_2 by done. rewrite Hm. lia.
  - intros Hp. destruct (decide (f i = p)) as [<-|Hne]; [exists i; set_solver|].
    rewrite lookup_insert_ne in Hp by done. destruct (Hk p Hp) as (j & ? & ?). exists j. set_solver.
Qed.

(** ** Entries of edge indexes *)

Definition indexes_ok (ix : list IndexDef) : Prop :=
  NoDup (idx_id <$> ix) /\ Forall (fun index => u32_ok (idx_id index)) ix.

(** The entries of an edge in the indexes of its type. *)
Definition edge_entries (ix : list IndexDef) (e : EdgeData) : list bytes :=
  (fun index => edge_entry index e) <$> indexes_of (edge_type e) ix.

(** [k] is laid out as an entry of one of the indexes. *)
Definition entry_form (ix : list IndexDef) (k : bytes) : Prop :=
  exists index, index ∈ ix /\ starts_with (KeyUtils.edge_index_prefix 1 (idx_id index)) k = true.

Lemma indexes_of_elem name ix index : index ∈ indexes_of name ix <-> index ∈ ix /\ schema_name index = name.
Proof. unfold indexes_of. rewrite !list_elem_of_In, filter_In, bool_decide_eq_true. done. Qed.

Lemma edge_entries_form ix e k : k ∈ edge_entries ix e -> entry_form ix k.
Proof.
  intros (index & -> & [Hin _]%indexes_of_elem)%list_elem_of_fmap. exists index. split; [done|].
  unfold edge_entry, KeyUtils.edge_index_key, KeyUtils.edge_index_prefix. apply starts_with_iff. eexists. done.
Qed.

(** Entries begin with the partition, a number; the other keys are text. *)
Lemma entry_form_byte ix k : entry_form ix k -> exists l, k = x00 :: l.
Proof.
  intros (index & _ & [l ->]%starts_with_iff). unfold KeyUtils.edge_index_prefix.
  eexists. rewrite <- !app_assoc. reflexivity.
Qed.

Lemma name_not_entry ix sp l : identifier sp = true -> ~ entry_form ix (sp ++ l).
Proof.
  intros Hsp [l' E]%entry_form_byte. pose proof (identifier_chars sp Hsp) as Hc.
  destruct sp as [|b sp]; [done|]. injection E as -> _. apply Forall_cons in Hc as [Hb _].
  by apply name_char_bounds in Hb as [[] _].
Qed.

Lemma length_i64_be z : length (i64_to_be z) = 8%nat.
Proof. apply length_be_bytes. Qed.

Lemma edge_trailer_inj s1 r1 d1 s2 r2 d2 :
  i64_ok s1 -> i64_ok r1 -> i64_ok d1 -> i64_ok s2 -> i64_ok r2 -> i64_ok d2 ->
  i64_to_be s1 ++ i64_to_be r1 ++ i64_to_be d1 = i64_to_be s2 ++ i64_to_be r2 ++ i64_to_be d2 ->
  s1 = s2 /\ r1 = r2 /\ d1 = d2.
Proof.
  intros ? ? ? ? ? ? E. apply app_inj_1 in E as [E1 E]; [|by rewrite !length_i64_be].
  apply app_inj_1 in E as [E2 E3]; [|by rewrite !length_i64_be].
  assert (Hinj : forall x y, i64_ok x -> i64_ok y -> i64_to_be x = i64_to_be y -> x = y).
  { intros x y Hx Hy Exy. by rewrite <- (i64_be_roundtrip x), Exy, i64_be_roundtrip. }
  auto.
Qed.

(** Indexes have different ids. *)
Lemma index_id_inj ix index1 index2 :
  indexes_ok ix -> index1 ∈ ix -> index2 ∈ ix -> be_bytes 4 (idx_id index1) = be_bytes 4 (idx_id index2) -> index1 = index2.
Proof.
  intros [Hnd Hok] Hi1 Hi2 E. rewrite Forall_forall in Hok. pose proof (Hok _ Hi1) as Hu1. pose proof (Hok _ Hi2) as Hu2.
  assert (Hid : idx_id index1 = idx_id index2).
  { rewrite <- (of_be_be_bytes_small 4 (idx_id index1)), <- (of_be_be_bytes_small 4 (idx_id index2)) by done. by rewrite E. }
  apply list_elem_of_lookup in Hi1 as [n1 H1], Hi2 as [n2 H2].
  assert (n1 = n2) as ->; [|congruence]. eapply NoDup_lookup; [exact Hnd|..]; rewrite list_lookup_fmap.
  - by rewrite H1.
  - by rewrite H2, Hid.
Qed.

(** An entry belongs to one edge and one index. *)
Lemma edge_entry_inj ix index1 index2 e1 e2 :
  indexes_ok ix -> id_ok (edge_id e1) -> id_ok (edge_id e2) ->
  index1 ∈ indexes_of (edge_type e1) ix -> index2 ∈ indexes_of (edge_type e2) ix ->
  edge_entry index1 e1 = edge_entry index2 e2 -> index1 = index2 /\ edge_id e1 = edge_id e2.
Proof.
  intros Hok (_ & Hs1 & Hd1 & Hr1) (_ & Hs2 & Hd2 & Hr2) [Hi1 Hn1]%indexes_of_elem [Hi2 Hn2]%indexes_of_elem E.
  unfold edge_entry, KeyUtils.edge_index_key in E.
  apply app_inj_1 in E as [Eh E]; [|by rewrite !length_app, !length_be_bytes].
  apply app_inv_head, app_inv_head in Eh. assert (index1 = index2) as <- by by eapply index_id_inj.
  split; [done|]. apply app_inj_2 in E as [_ E]; [|by rewrite !length_app, !length_i64_be].
  apply edge_trailer_inj in E as (Es & Er & Ed); [|done..]. unfold edge_id. congruence.
Qed.

(** ** Records of edges *)

Lemma fwd_segments sp i :
  fwd sp i = join_colon [sp; bs "edge"; dec (id_src i); id_type i; dec (id_dst i); dec (id_rank i)].
Proof. exact (row_key_segments (Data sp (SchemaKey.EdgeData (id_src i) (id_type i) (id_dst i) (id_rank i)))). Qed.

Lemma rev_segments sp i :
  rev sp i = join_colon [sp; bs "in-edge"; dec (id_dst i); id_type i; dec (id_src i); dec (id_rank i)].
Proof. exact (row_key_segments (Data sp (InEdge (id_dst i) (id_type i) (id_src i) (id_rank i)))). Qed.

Lemma row_key_parts sp kind a t b r :
  identifier sp = true -> colon_free kind -> utf8_valid kind = true -> identifier t = true ->
  let key := join_colon [sp; kind; dec a; t; dec b; dec r] in
  utf8_valid key = true /\ split_colon key = [sp; kind; dec a; t; dec b; dec r].
Proof.
  intros Hsp Hk Hu Ht key. split.
  - apply utf8_join_colon. rewrite !Forall_cons, Forall_nil. split_and!; first [done|by apply identifier_utf8|apply dec_ascii].
  - apply split_join; [done|].
    rewrite !Forall_cons, Forall_nil. split_and!; first [done|by apply identifier_colon_free|apply dec_colon_free].
Qed.

(** A record agrees with both its keys. *)
Lemma keys_match sp e :
  identifier sp = true -> id_ok (edge_id e) ->
  (utf8_valid (fwd sp (edge_id e)) = true /\ key_matches (fwd sp (edge_id e)) e = true) /\
  (utf8_valid (rev sp (edge_id e)) = true /\ key_matches (rev sp (edge_id e)) e = true).
Proof.
  intros Hsp (Ht & Hs & Hd & Hr). rewrite fwd_segments, rev_segments. cbn [id_src id_type id_dst id_rank edge_id fst snd] in *.
  assert (Hne : edge_type e <> []) by by intros E; rewrite E in Ht.
  split; (edestruct row_key_parts as [Hu Hp]; [exact Hsp| | |exact Ht|split; [exact Hu|]]; [by apply const_colon_free|done|]);
    unfold key_matches; rewrite Hp, !parse_i64_dec, bool_decide_eq_true_2, bool_decide_eq_false_2 by done; cbn [negb andb];
    [rewrite bool_decide_eq_true_2 by done|rewrite bool_decide_eq_false_2, bool_decide_eq_true_2 by done];
    by rewrite !Z.eqb_refl.
Qed.

Section records.
Context `{DebugText} `{ProstMessage PbEdge} `{!ProstLaws PbEdge} `{SerdeJson JsonValue}.

Definition edge_bytes (e : EdgeData) : bytes := PROTO_MAGIC :: prost_encode (edge_to_proto e).

Lemma encode_edge_bytes e : encode_edge e = Ok (edge_bytes e).
Proof. done. Qed.

Lemma decode_own_rows sp e :
  identifier sp = true -> id_ok (edge_id e) -> kept_edge e ->
  decode_query_edge (fwd sp (edge_id e)) (edge_bytes e) = Ok e /\
  decode_query_edge (rev sp (edge_id e)) (edge_bytes e) = Ok e.
Proof.
  intros Hsp Hok [Hst Hd]. destruct (keys_match sp e Hsp Hok) as [[Hu1 Hm1] [Hu2 Hm2]].
  unfold decode_query_edge, edge_bytes. rewrite edge_roundtrip, Hst by done. cbn [is_proto_format].
  rewrite Hu1, Hm1, Hu2, Hm2. done.
Qed.

Lemma inferred_stored e : inferred (stored_edge e) = inferred e.
Proof. unfold inferred, stored_edge, stored_props. simpl. rewrite lookup_fmap. apply bool_decide_ext. by rewrite fmap_is_Some. Qed.
End records.

(** ** Representation *)

Notation Graph := (gmap EdgeId EdgeData).

(** The edges that statements asserted; the others were derived. *)
Definition asserted (G : Graph) : gset EdgeId := dom (filter (fun ie => inferred ie.2 = false) G).

Lemma asserted_elem G i : i ∈ asserted G <-> exists e, G !! i = Some e /\ inferred e = false.
Proof.
  unfold asserted. rewrite elem_of_dom. split.
  - intros [e [He Hi]%map_lookup_filter_Some]. by exists e.
  - intros (e & He & Hi). exists e. by apply map_lookup_filter_Some.
Qed.

Lemma asserted_size G : (size (asserted G) <= size G)%nat.
Proof. unfold asserted. rewrite size_dom. apply map_subseteq_size, map_filter_subseteq. Qed.

Section rep.
Context `{DebugText} `{ProstMessage PbEdge} `{SerdeJson JsonValue}.
(** The space and its edge indexes. *)
Context (sp : bytes) (ix : list IndexDef).

(** The rows of [s] are the edges of [G]; an edge reads as it would be written. *)
Definition rows_rep (G : Graph) (s : MemoryKVStore) : Prop :=
  forall i, id_ok i ->
  match G !! i with
  | None => look s (fwd sp i) = None /\ look s (rev sp i) = None
  | Some e => edge_id e = i /\ kept_edge e /\ exists b, look s (fwd sp i) = Some b /\ look s (rev sp i) = Some b /\
      decode_query_edge (fwd sp i) b = Ok e /\ decode_query_edge (rev sp i) b = Ok e
  end.

(** The entries of the indexes are those of the asserted edges. *)
Definition index_rep (G : Graph) (s : MemoryKVStore) : Prop :=
  forall k, entry_form ix k ->
  is_Some (look s k) <-> exists i e, G !! i = Some e /\ inferred e = false /\ k ∈ edge_entries ix e.

(** The counters are the degrees in the asserted edges. *)
Definition counters_rep (G : Graph) (s : MemoryKVStore) : Prop :=
  forall t v, identifier t = true -> i64_ok v ->
  counter_value (look s (SchemaKey.indeg_counter sp t v)) = degree in_end (asserted G) (t, v) /\
  counter_value (look s (SchemaKey.outdeg_counter sp t v)) = degree out_end (asserted G) (t, v).

Record graph_rep (G : Graph) (s : MemoryKVStore) : Prop := {
  rep_wf : om_wf (data s);
  rep_ids : map_Forall (fun i _ => id_ok i) G;
  rep_rows : rows_rep G s;
  rep_index : index_rep G s;
  rep_counters : counters_rep G s
}.

Lemma rep_edge_id G s i e : graph_rep G s -> G !! i = Some e -> edge_id e = i /\ id_ok i.
Proof.
  intros Hr He. pose proof (rep_ids _ _ Hr i e He) as Hok. pose proof (rep_rows _ _ Hr i Hok) as Hi.
  rewrite He in Hi. by destruct Hi.
Qed.

(** A row outside the keys of the representation does not matter. *)
Lemma graph_rep_frame G s s' :
  graph_rep G s -> om_wf (data s') ->
  (forall k, graph_key sp k = true \/ entry_form ix k -> look s' k = look s k) -> graph_rep G s'.
Proof.
  intros [Hwf Hids Hrows Hix Hcnt] Hwf' Hk. split; [done|done|..].
  - intros i Hi. rewrite !Hk by (left; apply graph_key_fwd || apply graph_key_rev). by apply Hrows.
  - intros k Hf. rewrite Hk by by right. by apply Hix.
  - intros t v Ht Hv. rewrite !Hk by (left; apply graph_key_in || apply graph_key_out). by apply Hcnt.
Qed.
End rep.
