(* ===== verification/EdgeWrite.v ===== *)
(** * What a batch does to the represented graph

    The lemmas the statements on edges share: programs that only read, the batch
    that replaces or removes edges, and the changes of the degree counters. *)

From Stdlib Require Import ZArith Lia Strings.Byte Strings.String.
From stdpp Require Import base tactics list gmap fin_sets.
From S2P Require Import Prelude OrdMap KVStore KVStoreFacts KVStoreBatch KVDyn Text SchemaKey Value StorageKey IndexManager IndexFacts Temporal SpaceDdl.
From S2P Require Import Exec Evaluator Vid VertexCodec VertexCodecFacts DmlStaging GraphAlgo Dml DmlRules EdgeRep.

(** ** Programs that do not fail *)

(** [p] succeeds on [s]. *)
Notation succeeds := (post (fun _ => False)).

Lemma post_succeeds E {A} (p : DML A) s Q : succeeds p s Q -> post E p s Q.
Proof. intros Hp c. specialize (Hp c). by destruct (run_statement (p c) s) as [[[a c']|e] s']. Qed.

(** [p] returns [a] and leaves [s] alone. *)
Definition returns {A} (p : DML A) (s : MemoryKVStore) (a : A) : Prop := succeeds p s (fun a' s' => a' = a /\ s' = s).

Lemma post_returns E {A B} (p : DML A) (f : A -> DML B) s a Q :
  returns p s a -> post E (f a) s Q -> post E (d_bind p f) s Q.
Proof. intros Hp Hf. apply post_bind. eapply post_succeeds, post_conseq; [|exact Hp]. by intros ? ? [-> ->]. Qed.

Lemma returns_ret {A} (a : A) s : returns (d_ret a) s a.
Proof. by apply post_ret. Qed.

Lemma returns_bind {A B} (p : DML A) (f : A -> DML B) s a b : returns p s a -> returns (f a) s b -> returns (d_bind p f) s b.
Proof. intros Hp Hf. by apply (post_returns _ _ _ _ a). Qed.

(** A statement that succeeds returns, whatever the clock. *)
Lemma succeeds_run {A} (p : DML A) s Q c :
  succeeds p s Q -> exists a c' s', run_statement (p c) s = (Ok (a, c'), s') /\ Q a s'.
Proof.
  intros Hp. specialize (Hp c). destruct (run_statement (p c) s) as [[[a c']|e] s']; [|done]. by exists a, c', s'.
Qed.

(** ** The changes of a batch *)

Section batch.
Context `{DebugText} `{ProstMessage PbEdge} `{!ProstLaws PbEdge} `{SerdeJson JsonValue}.
Context (sp : bytes) (ix : list IndexDef) (Hsp : identifier sp = true) (Hix : indexes_ok ix).

(** The changed edges have sound ids and properties that records keep. *)
Definition changes_ok (ch : gmap EdgeId (option EdgeData)) : Prop :=
  forall i o, ch !! i = Some o -> id_ok i /\ forall e, o = Some e -> edge_id e = i /\ kept_edge e.

Definition counter_key (k : bytes) : Prop :=
  exists t v, k = SchemaKey.indeg_counter sp t v \/ k = SchemaKey.outdeg_counter sp t v.

Lemma entry_not_counter k : entry_form ix k -> ~ counter_key k.
Proof.
  intros Hf (t & v & [-> | ->]); by eapply name_not_entry.
Qed.

(** Some changed edge used to have the entry [k], and some changed edge has it now. *)
Definition dropped (ch : gmap EdgeId (option EdgeData)) (G : Graph) (k : bytes) : Prop :=
  exists i e, is_Some (ch !! i) /\ G !! i = Some e /\ k ∈ edge_entries ix e.
Definition added (ch : gmap EdgeId (option EdgeData)) (k : bytes) : Prop :=
  exists i e, ch !! i = Some (Some e) /\ inferred e = false /\ k ∈ edge_entries ix e.

Lemma entries_one_edge e1 e2 k :
  id_ok (edge_id e1) -> id_ok (edge_id e2) -> k ∈ edge_entries ix e1 -> k ∈ edge_entries ix e2 -> edge_id e1 = edge_id e2.
Proof.
  intros Hok1 Hok2 (index1 & -> & Hi1)%list_elem_of_fmap (index2 & E & Hi2)%list_elem_of_fmap.
  by eapply edge_entry_inj in E as [_ E].
Qed.

Lemma index_rep_changed ch G s s' :
  graph_rep sp ix G s -> changes_ok ch ->
  (forall k, entry_form ix k -> is_Some (look s' k) <-> added ch k \/ is_Some (look s k) /\ ~ dropped ch G k) ->
  index_rep ix (changed ch G) s'.
Proof.
  intros Hr Hch Hk k Hf. rewrite Hk by done. split.
  - intros [(i & e & He & Hi & Hin)|[Hs Hnd]].
    + exists i, e. by rewrite changed_lookup, He.
    + apply (rep_index _ _ _ _ Hr k Hf) in Hs as (i & e & He & Hi & Hin). exists i, e.
      rewrite changed_lookup. destruct (ch !! i) eqn:Ei; [|done]. destruct Hnd. exists i, e. by rewrite Ei.
  - intros (i & e & He & Hi & Hin). rewrite changed_lookup in He. destruct (ch !! i) as [o|] eqn:Ei.
    { left. subst o. by exists i, e. }
    right. split; [apply (rep_index _ _ _ _ Hr k Hf); by exists i, e|].
    intros (i' & e' & Hc & He' & Hin').
    destruct (rep_edge_id _ _ _ _ _ _ Hr He) as [Ee Hok]. destruct (rep_edge_id _ _ _ _ _ _ Hr He') as [Ee' Hok'].
    assert (i = i') as <-; [|rewrite Ei in Hc; by destruct Hc].
    rewrite <- Ee, <- Ee'. apply (entries_one_edge e e' k); by rewrite ?Ee, ?Ee'.
Qed.

(** The rows after a batch represent the changed graph. *)
Lemma graph_rep_changed ch G s s' :
  graph_rep sp ix G s -> changes_ok ch -> om_wf (data s') ->
  (forall i, id_ok i ->
    look s' (fwd sp i) = (match ch !! i with Some o => edge_bytes <$> o | None => look s (fwd sp i) end) /\
    look s' (rev sp i) = (match ch !! i with Some o => edge_bytes <$> o | None => look s (rev sp i) end)) ->
  (forall k, entry_form ix k -> is_Some (look s' k) <-> added ch k \/ is_Some (look s k) /\ ~ dropped ch G k) ->
  counters_rep sp (changed ch G) s' -> graph_rep sp ix (changed ch G) s'.
Proof.
  intros Hr Hch Hwf Hrows Hk Hc. split; [done| | |by eapply index_rep_changed|done].
  - intros i e He. rewrite changed_lookup in He. destruct (ch !! i) eqn:Ei; [by apply Hch in Ei as [Hi _]|].
    by eapply rep_edge_id.
  - intros i Hi. destruct (Hrows i Hi) as [Hf Hv]. rewrite Hf, Hv, changed_lookup.
    destruct (ch !! i) as [[e|]|] eqn:Ei; [|done|by apply (rep_rows _ _ _ _ Hr)].
    apply Hch in Ei as [_ He]. destruct (He e eq_refl) as [<- Hst]. split; [done|]. split; [done|]. exists (edge_bytes e).
    destruct (decode_own_rows sp e Hsp Hi Hst) as [Hd1 Hd2].
    split; [reflexivity|]. split; [reflexivity|]. split; [exact Hd1|exact Hd2].
Qed.
End batch.

(** ** Keys of a batch *)

Lemma retain_deletes_elem puts deletes k : k ∈ retain_deletes puts deletes <-> k ∈ deletes /\ k ∉ puts.*1.
Proof.
  unfold retain_deletes. rewrite (list_elem_of_In (List.filter _ _)), filter_In, <- list_elem_of_In.
  by rewrite negb_true_iff, bool_decide_eq_false.
Qed.

Lemma row_not_counter sp i : ~ counter_key sp (fwd sp i) /\ ~ counter_key sp (rev sp i).
Proof.
  split; intros (t & v & [E|E]);
    [by apply fwd_not_in in E|by apply fwd_not_out in E|by apply rev_not_in in E|by apply rev_not_out in E].
Qed.

(** ** The changes of the counters *)

Section counters.
Context (sp : bytes) (Hsp : identifier sp = true).

Lemma counter_deltas_elem di dout k d :
  (k, d) ∈ counter_deltas sp di dout <->
  (exists t v, di !! (t, v) = Some d /\ k = SchemaKey.indeg_counter sp t v) \/
  (exists t v, dout !! (t, v) = Some d /\ k = SchemaKey.outdeg_counter sp t v).
Proof.
  unfold counter_deltas. rewrite elem_of_app, !list_elem_of_fmap. split.
  - intros [([[t v] d'] & E & Hin%elem_of_map_to_list)|([[t v] d'] & E & Hin%elem_of_map_to_list)];
      cbn in E; injection E as -> ->; [left|right]; by exists t, v.
  - intros [(t & v & Hin & ->)|(t & v & Hin & ->)]; [left|right]; exists ((t, v), d); (split; [done|by apply elem_of_map_to_list]).
Qed.

(** The keys of a change of counters are those of edges with sound ids. *)
Lemma counts_key_ok sign f N m p :
  f = in_end \/ f = out_end -> counts sign f N m -> (forall i, i ∈ N -> id_ok i) -> is_Some (m !! p) ->
  identifier p.1 = true /\ i64_ok p.2.
Proof.
  intros Hf [_ Hk] HN Hp. destruct (Hk p Hp) as (i & Hi & <-). destruct (HN i Hi) as (? & ? & ? & ?).
  by destruct Hf as [-> | ->].
Qed.

Lemma NoDup_counter_keys (key : bytes -> Z -> bytes) (m : gmap (bytes * Z) Z) :
  (forall p q, is_Some (m !! p) -> is_Some (m !! q) -> key p.1 p.2 = key q.1 q.2 -> p = q) ->
  NoDup ((fun kd => (key kd.1.1 kd.1.2, kd.2)) <$> map_to_list m).*1.
Proof.
  intros Hinj. rewrite <- list_fmap_compose.
  replace ((fst ∘ (fun kd => (key kd.1.1 kd.1.2, kd.2))) <$> map_to_list m)
    with ((fun p => key p.1 p.2) <$> (map_to_list m).*1) by by rewrite <- list_fmap_compose.
  apply NoDup_fmap_2_strong; [|apply NoDup_fst_map_to_list].
  intros p q ([p' d] & -> & Hp%elem_of_map_to_list)%list_elem_of_fmap ([q' d'] & -> & Hq%elem_of_map_to_list)%list_elem_of_fmap.
  by apply Hinj; eexists.
Qed.

Lemma counter_deltas_NoDup sign N di dout :
  counts sign in_end N di -> counts sign out_end N dout -> (forall i, i ∈ N -> id_ok i) ->
  NoDup (counter_deltas sp di dout).*1.
Proof.
  intros Hin Hout HN. unfold counter_deltas. rewrite fmap_app. apply NoDup_app. split_and!.
  - apply (NoDup_counter_keys (SchemaKey.indeg_counter sp)). intros [t v] [t' v'] Hp Hq E.
    destruct (counts_key_ok sign in_end N di (t, v)) as [? ?]; auto. destruct (counts_key_ok sign in_end N di (t', v')) as [? ?]; auto.
    cbn [fst snd] in E. by apply indeg_inj in E as [-> ->].
  - intros k (kd & -> & (x & -> & _)%list_elem_of_fmap)%list_elem_of_fmap
      (kd' & E & (x' & -> & _)%list_elem_of_fmap)%list_elem_of_fmap. by eapply in_not_out.
  - apply (NoDup_counter_keys (SchemaKey.outdeg_counter sp)). intros [t v] [t' v'] Hp Hq E.
    destruct (counts_key_ok sign out_end N dout (t, v)) as [? ?]; auto. destruct (counts_key_ok sign out_end N dout (t', v')) as [? ?]; auto.
    cbn [fst snd] in E. by apply outdeg_inj in E as [-> ->].
Qed.

Lemma post_apply_deltas deltas s (Q : unit -> MemoryKVStore -> Prop) :
  om_wf (data s) -> NoDup deltas.*1 ->
  (forall k d, (k, d) ∈ deltas -> 0 <= counter_value (look s k) /\ i64_ok (counter_value (look s k) + d)) ->
  (forall s', om_wf (data s') ->
    (forall k d, (k, d) ∈ deltas -> counter_value (look s' k) = Z.max 0 (counter_value (look s k) + d)) ->
    (forall k, k ∉ deltas.*1 -> look s' k = look s k) -> Q tt s') ->
  succeeds (apply_counters deltas) s Q.
Proof.
  intros Hwf Hnd Hb HQ. destruct deltas as [|kd deltas]; [|by apply post_add_counters].
  apply post_ret, HQ; [done| |done]. intros k d []%not_elem_of_nil.
Qed.

(** The counters count the edges [A]. *)
Definition counters_of (A : gset EdgeId) (s : MemoryKVStore) : Prop :=
  forall t v, identifier t = true -> i64_ok v ->
  counter_value (look s (SchemaKey.indeg_counter sp t v)) = degree in_end A (t, v) /\
  counter_value (look s (SchemaKey.outdeg_counter sp t v)) = degree out_end A (t, v).

Lemma post_apply_counters sign N di dout A A' s (Q : unit -> MemoryKVStore -> Prop) :
  counts sign in_end N di -> counts sign out_end N dout -> (forall i, i ∈ N -> id_ok i) ->
  om_wf (data s) -> counters_of A s -> (forall f p, degree f A' p = degree f A p + sign * degree f N p) ->
  Z.of_nat (size A') < two63 ->
  (forall s', om_wf (data s') -> (forall k, ~ counter_key sp k -> look s' k = look s k) -> counters_of A' s' -> Q tt s') ->
  succeeds (apply_counters (counter_deltas sp di dout)) s Q.
Proof.
  intros Hin Hout HN Hwf HA HA' Hsz HQ.
  assert (Hd : forall f m p d, counts sign f N m -> m !! p = Some d -> degree f A p + d = degree f A' p).
  { intros f m p d [Hm _] E. specialize (Hm p). rewrite E in Hm. cbn in Hm. rewrite HA'. lia. }
  assert (Hb : forall f p, 0 <= degree f A p /\ i64_ok (degree f A' p)).
  { intros f p. pose proof (degree_bounds f A p). pose proof (degree_bounds f A' p). unfold_int. lia. }
  apply post_apply_deltas; [done|by eapply counter_deltas_NoDup| |].
  { intros k d [(t & v & E & ->)|(t & v & E & ->)]%counter_deltas_elem.
    - destruct (counts_key_ok sign in_end N di (t, v)) as [Ht Hv]; eauto. destruct (HA t v Ht Hv) as [-> _].
      by rewrite (Hd _ _ _ _ Hin E).
    - destruct (counts_key_ok sign out_end N dout (t, v)) as [Ht Hv]; eauto. destruct (HA t v Ht Hv) as [_ ->].
      by rewrite (Hd _ _ _ _ Hout E). }
  intros s' Hwf' Hk Hsame. apply HQ; [done| |].
  { intros k Hn. apply Hsame. intros ([k' d] & -> & Hkd)%list_elem_of_fmap. destruct Hn.
    apply counter_deltas_elem in Hkd as [(t & v & _ & ->)|(t & v & _ & ->)]; exists t, v; auto. }
  assert (Hnone : forall f m p, counts sign f N m -> m !! p = None -> degree f A' p = degree f A p).
  { intros f m p [Hm _] E. specialize (Hm p). rewrite E in Hm. cbn in Hm. rewrite HA'. lia. }
  intros t v Ht Hv. destruct (HA t v Ht Hv) as [Ei Eo]. split.
  - destruct (di !! (t, v)) as [d|] eqn:E.
    + rewrite (Hk _ d) by (apply counter_deltas_elem; left; by exists t, v). rewrite Ei, (Hd _ _ _ _ Hin E).
      pose proof (degree_bounds in_end A' (t, v)). lia.
    + rewrite Hsame, Ei, (Hnone _ _ _ Hin E); [done|]. intros ([k' d] & Ek & Hkd)%list_elem_of_fmap. cbn [fst] in Ek. subst k'.
      apply counter_deltas_elem in Hkd as [(t' & v' & E' & Ek)|(t' & v' & _ & Ek)]; [|by apply in_not_out in Ek].
      destruct (counts_key_ok sign in_end N di (t', v')) as [? ?]; eauto.
      apply indeg_inj in Ek as [-> ->]; [by rewrite E in E'|done..].
  - destruct (dout !! (t, v)) as [d|] eqn:E.
    + rewrite (Hk _ d) by (apply counter_deltas_elem; right; by exists t, v). rewrite Eo, (Hd _ _ _ _ Hout E).
      pose proof (degree_bounds out_end A' (t, v)). lia.
    + rewrite Hsame, Eo, (Hnone _ _ _ Hout E); [done|]. intros ([k' d] & Ek & Hkd)%list_elem_of_fmap. cbn [fst] in Ek. subst k'.
      apply counter_deltas_elem in Hkd as [(t' & v' & _ & Ek)|(t' & v' & E' & Ek)]; [by symmetry in Ek; apply in_not_out in Ek|].
      destruct (counts_key_ok sign out_end N dout (t', v')) as [? ?]; eauto.
      apply outdeg_inj in Ek as [-> ->]; [by rewrite E in E'|done..].
Qed.
End counters.

(** ** What the statements read *)

Section ready.
Context `{SerdeJson JsonValue} `{SerdeJson IndexDef} `{FromJson SemanticFlags} `{MessageText}.
Context (ctx : Ctx) (sp : bytes) (ix : list IndexDef).

(** The space has integer ids, the edge indexes [ix] and readable edge schemas. *)
Record space_ready (s : MemoryKVStore) : Prop := {
  ready_vids : returns (d_prog (space_vid_type (is_distributed ctx) sp)) s Int64;
  ready_indexes : returns (mutation_indexes ctx sp IndexEdge) s ix;
  ready_meta : exists m, returns (load_rel_meta sp) s m
}.

Lemma returns_edge_index_keys s e : space_ready s -> returns (edge_index_keys ctx sp e) s (edge_entries ix e).
Proof. intros Hr. eapply returns_bind; [by apply ready_indexes|]. apply returns_ret. Qed.

(** The marker of an unfinished inference is added or not. *)
Definition fence_extra (extra : list kv_pair) : Prop := extra = [] \/ extra = [(inference_dirty_key sp, bs "1")].

Lemma returns_fence_meta s puts m :
  returns (load_rel_meta sp) s m -> exists extra, fence_extra extra /\ returns (fence_semantic_batch sp puts) s (puts ++ extra).
Proof.
  intros Hm. unfold fence_semantic_batch, fence_extra.
  exists (if meta_is_empty m then [] else [(inference_dirty_key sp, bs "1")]). split; [destruct (meta_is_empty m); auto|].
  eapply returns_bind; [exact Hm|]. destruct (meta_is_empty m); rewrite ?app_nil_r; apply returns_ret.
Qed.

Lemma returns_fence s puts :
  space_ready s -> exists extra, fence_extra extra /\ returns (fence_semantic_batch sp puts) s (puts ++ extra).
Proof. intros Hr. destruct (ready_meta s Hr) as [m Hm]. by eapply returns_fence_meta. Qed.

Lemma dirty_key_other : graph_key sp (inference_dirty_key sp) = false.
Proof. unfold inference_dirty_key. by rewrite graph_key_app. Qed.

Lemma dirty_key_not_entry : identifier sp = true -> ~ entry_form ix (inference_dirty_key sp).
Proof. intros Hsp. by apply name_not_entry. Qed.

Lemma fence_extra_keys extra k : fence_extra extra -> k ∈ extra.*1 -> k = inference_dirty_key sp.
Proof. intros [-> | ->]; simpl; set_solver. Qed.

Lemma validated_not_inferred s t props :
  returns (validate_edge_props sp t props) s tt -> props !! INFERRED_MARKER = None.
Proof.
  intros Hv. unfold validate_edge_props in Hv. case_bool_decide as E.
  - specialize (Hv (Build_tx_clock 0 0)). done.
  - by apply eq_None_not_Some.
Qed.

Definition vid_num (v : Vid) : Z := match v with VidInt z => z | VidString _ => 0 end.
Definition vid_is_int (v : Vid) : bool := match v with VidInt _ => true | VidString _ => false end.

Lemma returns_created_vid s which v :
  vid_is_int v = true -> returns (created_vid sp Int64 which v) s (vid_num v).
Proof. destruct v as [z|]; [|done]. intros _ c. done. Qed.
Lemma returns_validate_vid s v : vid_is_int v = true -> returns (d_result (validate_write_vid sp Int64 v)) s tt.
Proof. destruct v as [z|]; [|done]. intros _ c. done. Qed.
Lemma returns_resolve_vid s v create :
  vid_is_int v = true -> returns (d_prog (resolve_vid sp Int64 v create)) s (Some (vid_num v)).
Proof. destruct v as [z|]; [|done]. intros _ c. done. Qed.
End ready.
