(* ===== verification/EdgeInsertion.v ===== *)
(** * INSERT EDGE

    On a space with integer ids, inserting edges of other types than [sameAs] takes
    the represented graph to the one with the edges, and keeps the reverse rows, the
    index entries and the degree counters in agreement with it. *)

From Stdlib Require Import ZArith Lia Strings.Byte Strings.String.
From stdpp Require Import base tactics list gmap fin_sets.
From S2P Require Import Prelude OrdMap KVStore KVStoreFacts KVStoreBatch KVDyn Text SchemaKey Value StorageKey IndexManager IndexFacts.
From S2P Require Import Exec Evaluator Vid SpaceDdl VertexCodec VertexCodecFacts DmlStaging GraphAlgo Dml DmlRules EdgeRep EdgeWrite.

(** ** Writing edges one after the other *)

Definition by_id (es : list EdgeData) : list (EdgeId * EdgeData) := (fun e => (edge_id e, e)) <$> es.
Definition written (es : list EdgeData) : Graph := put_all (by_id es) ∅.
Definition insert_all (es : list EdgeData) (G : Graph) : Graph := put_all (by_id es) G.

Lemma written_nil : written [] = ∅.
Proof. done. Qed.

Lemma written_snoc es e : written (es ++ [e]) = <[edge_id e := e]> (written es).
Proof. unfold written, by_id. rewrite fmap_app. apply put_all_snoc. Qed.

Lemma insert_all_changed es G : insert_all es G = changed (Some <$> written es) G.
Proof. apply put_all_changed. Qed.

Lemma written_elem es i e : written es !! i = Some e -> e ∈ es /\ edge_id e = i.
Proof. by intros (e' & [= -> ->] & Hin)%put_all_elem%list_elem_of_fmap. Qed.

Lemma written_dom es : dom (written es) = list_to_set (edge_id <$> es).
Proof. unfold written, by_id. by rewrite put_all_dom, <- list_fmap_compose. Qed.

Lemma written_size es : (size (dom (written es)) <= length es)%nat.
Proof.
  induction es as [|e es IH] using rev_ind; [by rewrite written_nil, dom_empty_L, size_empty|].
  rewrite written_snoc, dom_insert_L, length_app, size_union_alt, size_singleton. simpl.
  pose proof (subseteq_size (dom (written es) ∖ {[edge_id e]}) (dom (written es)) ltac:(set_solver)). lia.
Qed.

(** The rows of some edges. *)
Definition edge_puts `{DebugText} `{ProstMessage PbEdge} (sp : bytes) (e : EdgeData) : list kv_pair :=
  [(fwd sp (edge_id e), edge_bytes e); (rev sp (edge_id e), edge_bytes e)].

Lemma edge_puts_value `{DebugText} `{ProstMessage PbEdge} sp es i :
  identifier sp = true -> id_ok i -> Forall (fun e => id_ok (edge_id e)) es ->
  put_value (es ≫= edge_puts sp) (fwd sp i) = edge_bytes <$> written es !! i /\
  put_value (es ≫= edge_puts sp) (rev sp i) = edge_bytes <$> written es !! i.
Proof.
  intros Hsp Hi Hes. induction es as [|e es IH] using rev_ind; [by rewrite written_nil, lookup_empty|].
  apply Forall_app in Hes as [Hes [He _]%Forall_cons]. destruct (IH Hes) as [IH1 IH2].
  rewrite bind_app, written_snoc. cbn [mbind list_bind]. rewrite app_nil_r. unfold edge_puts at 2 4.
  rewrite !put_value_app, IH1, IH2, !put_value_cons. cbn [put_value List.filter last fmap option_fmap option_map].
  rewrite (bool_decide_eq_false_2 (rev sp _ = fwd sp _)), (bool_decide_eq_false_2 (fwd sp _ = rev sp _))
    by (intros E; first [by apply fwd_not_rev in E|by symmetry in E; apply fwd_not_rev in E]).
  destruct (decide (edge_id e = i)) as [<-|Hne].
  - rewrite lookup_insert_eq, !bool_decide_eq_true_2 by done. done.
  - rewrite lookup_insert_ne by done.
    rewrite !bool_decide_eq_false_2; [done| |]; intros E; [by apply rev_inj in E|by apply fwd_inj in E].
Qed.

(** ** The loop over the edges *)

Section insert.
Context `{DebugText} `{ProstMessage PbVertex} `{ProstMessage PbEdge} `{!ProstLaws PbEdge}.
Context `{SerdeJson JsonValue} `{SerdeJson IndexDef} `{FromJson SemanticFlags} `{MessageText}.
Context (wall : nat -> Z) (ctx : Ctx) (sp : bytes) (ix : list IndexDef) (G : Graph) (s : MemoryKVStore).
(** The representatives of merged vertices. *)
Context (rep : Z -> Z).
Context (Hsp : identifier sp = true) (Hix : indexes_ok ix) (Hrep : graph_rep sp ix G s) (Hready : space_ready ctx sp ix s).

(** The edge that a row of the statement asserts. *)
Definition target (edge : EdgeInsert) : EdgeData :=
  mkEdge (rep (vid_num (ei_src edge))) (rep (vid_num (ei_dst edge))) (ei_type edge) (ei_ranking edge) (ei_props edge).

(** A row that can be inserted: integer ids whose representatives can be read, an
    edge type that exists, properties that fit its schema. *)
Record edge_ready (edge : EdgeInsert) : Prop := {
  er_vids : vid_is_int (ei_src edge) = true /\ vid_is_int (ei_dst edge) = true;
  er_src : returns (representative_of sp (vid_num (ei_src edge))) s (rep (vid_num (ei_src edge)));
  er_dst : returns (representative_of sp (vid_num (ei_dst edge))) s (rep (vid_num (ei_dst edge)));
  er_schema : returns (validate_edge_props sp (ei_type edge) (ei_props edge)) s tt;
  er_id : id_ok (edge_id (target edge));
  er_props : map_Forall (fun _ => edge_value) (ei_props edge);
  er_type : ei_type edge <> SAMEAS_EDGE
}.

(** The ids that become asserted. *)
Definition fresh (es : list EdgeData) : gset EdgeId := dom (written es) ∖ asserted G.

Record batch_inv (es : list EdgeData) (b : EdgeBatch) : Prop := {
  bi_puts : eb_puts b = es ≫= edge_puts sp;
  bi_deletes : forall k, k ∈ eb_deletes b <-> exists i e, i ∈ dom (written es) /\ G !! i = Some e /\ k ∈ edge_entries ix e;
  bi_final_wf : om_wf (eb_final b);
  bi_final : forall i : EdgeId, om_get i (eb_final b) = written es !! i;
  bi_triples : eb_triples b = (fun e => (src_vid e, edge_type e, dst_vid e)) <$> es;
  bi_in : counts 1 in_end (fresh es) (eb_deg_in b);
  bi_out : counts 1 out_end (fresh es) (eb_deg_out b);
  bi_seen : forall i, id_ok i -> fwd sp i ∈ eb_seen b <-> i ∈ dom (written es);
  bi_inserted : eb_inserted b = Z.of_nat (length es)
}.

Lemma batch_inv_nil : batch_inv [] no_batch.
Proof.
  assert (Hf : fresh [] = ∅) by (unfold fresh; rewrite written_nil; set_solver).
  split; rewrite ?Hf; first [apply counts_empty|apply om_wf_nil|done|rewrite written_nil, dom_empty_L; set_solver].
Qed.

(** Whether an edge is new, and the entries of the edge it replaces. *)
Lemma returns_replaced es b i :
  batch_inv es b -> id_ok i ->
  exists new old, returns (replaced_edge ctx sp (fwd sp i) b) s (new, old) /\
    (new = true <-> ((i ∉ dom (written es)) /\ i ∉ asserted G)) /\
    (forall k, k ∈ old <-> ((i ∉ dom (written es)) /\ exists e, G !! i = Some e /\ k ∈ edge_entries ix e)).
Proof.
  intros Hb Hi. unfold replaced_edge. pose proof (bi_seen _ _ Hb i Hi) as Hseen. case_bool_decide as Es.
  { exists false, []. split; [apply returns_ret|]. apply Hseen in Es. split; [by split; [|intros [? _]]|].
    intros k. rewrite elem_of_nil. tauto. }
  assert (Hnd : i ∉ dom (written es)) by by rewrite <- Hseen.
  pose proof (rep_rows _ _ _ _ Hrep i Hi) as Hrow. destruct (G !! i) as [e|] eqn:Ei.
  - destruct Hrow as (_ & _ & row & Hl & _ & Hd & _). exists (inferred e), (edge_entries ix e). split.
    { unfold returns. apply post_bind, post_get. rewrite Hl, Hd. cbn [d_result].
      apply (returns_bind _ _ s e); [apply returns_ret|].
      apply (returns_bind _ _ s (edge_entries ix e)); [by apply returns_edge_index_keys|apply returns_ret]. }
    rewrite asserted_elem. split.
    + split; [intros Hinf; split; [done|]; intros (e' & Ee & Hn); congruence|].
      intros [_ Hn]. destruct (inferred e) eqn:Einf; [done|]. destruct Hn. by exists e.
    + intros k. split; [by eauto|]. by intros (_ & e' & [= <-] & Hk).
  - destruct Hrow as [Hl _]. exists true, []. split.
    { unfold returns. apply post_bind, post_get. rewrite Hl. apply returns_ret. }
    rewrite asserted_elem. split; [split; [|done]; intros _; split; [done|]; intros (e & He & _); congruence|].
    intros k. rewrite elem_of_nil. split; [done|]. by intros (_ & e & ? & _).
Qed.

Lemma fresh_snoc es e :
  fresh (es ++ [e]) =
    if bool_decide ((edge_id e ∉ dom (written es)) /\ edge_id e ∉ asserted G) then {[edge_id e]} ∪ fresh es else fresh es.
Proof.
  unfold fresh. rewrite written_snoc, dom_insert_L. case_bool_decide as Hn; [set_solver|].
  destruct (decide (edge_id e ∈ asserted G)); [set_solver|]. destruct (decide (edge_id e ∈ dom (written es))); set_solver.
Qed.

Lemma fresh_size es : (size (fresh es) <= length es)%nat.
Proof.
  pose proof (written_size es). pose proof (subseteq_size (fresh es) (dom (written es)) ltac:(unfold fresh; set_solver)). lia.
Qed.

(** The counts of the fresh edges, with one more edge. *)
Lemma counts_snoc f es e m (new : bool) :
  counts 1 f (fresh es) m -> Z.of_nat (length es) + 1 < two63 ->
  (new = true <-> ((edge_id e ∉ dom (written es)) /\ edge_id e ∉ asserted G)) ->
  counts 1 f (fresh (es ++ [e])) (if new then bump (f (edge_id e)) 1 m else m).
Proof.
  intros Hc Hb Hn. pose proof (fresh_size es). rewrite fresh_snoc. destruct new.
  - rewrite bool_decide_eq_true_2 by by apply Hn. apply counts_bump; [by left|done| |lia].
    unfold fresh. destruct (proj1 Hn eq_refl). set_solver.
  - rewrite bool_decide_eq_false_2; [done|]. intros Hx. by apply Hn in Hx.
Qed.

Lemma add_edge_inv es edge b :
  edge_ready edge -> Forall (fun e => id_ok (edge_id e)) es -> Z.of_nat (length es) + 1 < two63 -> batch_inv es b ->
  succeeds (add_edge ctx sp Int64 b edge) s (fun b' s' => s' = s /\ batch_inv (es ++ [target edge]) b').
Proof.
  intros [[Hv1 Hv2] Hsrc Hdst _ Hid _ _] Hes Hlen Hb. unfold add_edge.
  eapply post_returns; [by apply returns_created_vid|]. eapply post_returns; [by apply returns_created_vid|].
  eapply post_returns; [exact Hsrc|]. eapply post_returns; [exact Hdst|]. fold (target edge).
  eapply post_returns; [apply returns_ret|].
  destruct (returns_replaced es b _ Hb Hid) as (new & old & Hr & Hnew & Hold).
  eapply post_returns; [exact Hr|]. apply post_ret. split; [done|].
  change (ei_type edge, rep (vid_num (ei_dst edge))) with (in_end (edge_id (target edge))).
  change (ei_type edge, rep (vid_num (ei_src edge))) with (out_end (edge_id (target edge))).
  set (e := target edge) in *. split; cbn [eb_puts eb_deletes eb_final eb_triples eb_deg_in eb_deg_out eb_seen eb_inserted].
  - rewrite (bi_puts _ _ Hb), bind_app. cbn [mbind list_bind]. by rewrite app_nil_r.
  - intros k. rewrite elem_of_app, Hold, (bi_deletes _ _ Hb), written_snoc, dom_insert_L. split.
    + intros [(i & e' & Hi & He & Hk)|(_ & e' & He & Hk)]; [exists i, e'; set_solver|exists (edge_id e), e'; set_solver].
    + intros (i & e' & Hi & He & Hk). destruct (decide (i ∈ dom (written es))) as [Hd|Hd]; [left; by exists i, e'|].
      right. assert (i = edge_id e) as -> by set_solver. eauto.
  - by apply om_insert_wf, (bi_final_wf _ _ Hb).
  - intros i. rewrite om_get_insert, written_snoc by apply (bi_final_wf _ _ Hb).
    destruct (decide (edge_id e = i)) as [<-|Hne]; [by rewrite cmp_refl, lookup_insert_eq|].
    rewrite lookup_insert_ne, (bi_final _ _ Hb) by done. destruct (cmp i _) eqn:Ec; try done.
    by apply cmp_eq_iff in Ec.
  - by rewrite (bi_triples _ _ Hb), fmap_app.
  - apply counts_snoc; [apply Hb|done|done].
  - apply counts_snoc; [apply Hb|done|done].
  - intros i Hi. change (edge_row_key sp e) with (fwd sp (edge_id e)).
    rewrite elem_of_union, elem_of_singleton, (bi_seen _ _ Hb i Hi), written_snoc, dom_insert_L.
    rewrite elem_of_union, elem_of_singleton. split; (intros [E|?]; [left|by right]); [by apply fwd_inj in E|by subst].
  - rewrite (bi_inserted _ _ Hb), length_app. simpl. rewrite as_i64_id by (unfold_int; lia). lia.
Qed.

(** ** The batch *)

Section loop_done.
Context (es : list EdgeData) (b : EdgeBatch) (extra : list kv_pair).
Context (Hes : Forall (fun e => id_ok (edge_id e) /\ inferred e = false /\ kept_edge e) es).
Context (Hb : batch_inv es b) (Hextra : fence_extra sp extra).

Definition inserted_entries : list kv_pair :=
  eb_final b ≫= fun ke => (fun index => (edge_entry index ke.2, [])) <$> indexes_of (edge_type ke.2) ix.
Definition inserts : gmap EdgeId (option EdgeData) := Some <$> written es.

Lemma inserts_ok : changes_ok inserts.
Proof.
  intros i o Ho. unfold inserts in Ho. rewrite lookup_fmap in Ho. apply fmap_Some in Ho as (e & He & ->).
  apply written_elem in He as [Hin <-]. rewrite Forall_forall in Hes. destruct (Hes e Hin) as (Hid & _ & Hst).
  split; [done|]. by intros e' [= <-].
Qed.

Lemma inserted_entries_keys k : k ∈ inserted_entries.*1 <-> added ix inserts k.
Proof.
  rewrite list_elem_of_fmap. unfold added, inserted_entries. split.
  - intros (kv & -> & (ke & Hkv & Hke)%list_elem_of_bind). apply list_elem_of_fmap in Hkv as (index & -> & Hix').
    destruct ke as [i e]. apply om_get_elem in Hke; [|by apply (bi_final_wf _ _ Hb)]. rewrite (bi_final _ _ Hb) in Hke.
    exists i, e. unfold inserts. rewrite lookup_fmap, Hke. split; [done|]. apply written_elem in Hke as [Hin _].
    rewrite Forall_forall in Hes. destruct (Hes e Hin) as (_ & Hinf & _). split; [done|].
    apply list_elem_of_fmap. by exists index.
  - intros (i & e & He & _ & (index & -> & Hi)%list_elem_of_fmap). unfold inserts in He.
    rewrite lookup_fmap in He. apply fmap_Some in He as (e' & He & [= <-]).
    exists (edge_entry index e, []). split; [done|]. apply list_elem_of_bind. exists (i, e). split.
    + apply list_elem_of_fmap. by exists index.
    + apply om_get_elem; [apply (bi_final_wf _ _ Hb)|]. by rewrite (bi_final _ _ Hb).
Qed.

(** The keys of rows are not entries, and entries are not keys of rows. *)
Lemma row_puts_keys k : k ∈ (eb_puts b).*1 -> exists i, k = fwd sp i \/ k = rev sp i.
Proof.
  rewrite (bi_puts _ _ Hb). intros (kv & -> & (e & Hkv & _)%list_elem_of_bind)%list_elem_of_fmap.
  exists (edge_id e). unfold edge_puts in Hkv.
  apply elem_of_cons in Hkv as [->|[->|Hkv%not_elem_of_nil]%elem_of_cons]; [by left|by right|done].
Qed.
Lemma row_key_not_entry i : ~ entry_form ix (fwd sp i) /\ ~ entry_form ix (rev sp i).
Proof. split; by apply name_not_entry. Qed.

Lemma entry_keys_form k : k ∈ inserted_entries.*1 \/ k ∈ eb_deletes b -> entry_form ix k.
Proof.
  intros [(i & e & _ & _ & Hk)%inserted_entries_keys|(i & e & _ & _ & Hk)%(bi_deletes _ _ Hb)]; by eapply edge_entries_form.
Qed.

Definition insert_batch : list kv_pair := eb_puts b ++ inserted_entries.
Definition insert_deletes : list bytes := retain_deletes insert_batch (eb_deletes b).

Lemma insert_deletes_elem k : k ∈ insert_deletes <-> k ∈ eb_deletes b /\ k ∉ insert_batch.*1.
Proof. apply retain_deletes_elem. Qed.

(** A key of the graph that is not an entry is only written as a row. *)
Lemma batch_graph_key k :
  graph_key sp k = true -> ~ entry_form ix k ->
  batch_look (insert_batch ++ extra) insert_deletes s k =
    match put_value (es ≫= edge_puts sp) k with Some v => Some v | None => look s k end.
Proof.
  intros Hg Hn. unfold batch_look. rewrite bool_decide_eq_false_2
    by (rewrite insert_deletes_elem; intros [Hd _]; apply Hn, entry_keys_form; by right).
  unfold insert_batch. rewrite !put_value_app, (bi_puts _ _ Hb).
  rewrite (put_value_none extra), (put_value_none inserted_entries); [done| |].
  - intros Hin. apply Hn, entry_keys_form. by left.
  - intros Hin. apply (fence_extra_keys _ _ _ Hextra) in Hin as ->. by rewrite dirty_key_other in Hg.
Qed.

Lemma batch_rows i : id_ok i ->
  batch_look (insert_batch ++ extra) insert_deletes s (fwd sp i) =
    match inserts !! i with Some o => edge_bytes <$> o | None => look s (fwd sp i) end /\
  batch_look (insert_batch ++ extra) insert_deletes s (rev sp i) =
    match inserts !! i with Some o => edge_bytes <$> o | None => look s (rev sp i) end.
Proof.
  intros Hi. destruct (row_key_not_entry i) as [Hf Hr].
  rewrite !batch_graph_key by (done || apply graph_key_fwd || apply graph_key_rev).
  destruct (edge_puts_value sp es i Hsp Hi) as [-> ->]; [eapply Forall_impl; [exact Hes|]; by intros ? [? _]|].
  unfold inserts. rewrite lookup_fmap. by destruct (written es !! i).
Qed.

Lemma batch_entries k : entry_form ix k ->
  is_Some (batch_look (insert_batch ++ extra) insert_deletes s k) <->
  added ix inserts k \/ is_Some (look s k) /\ ~ dropped ix inserts G k.
Proof.
  intros Hf. rewrite <- inserted_entries_keys.
  assert (Hdrop : dropped ix inserts G k <-> k ∈ eb_deletes b).
  { rewrite (bi_deletes _ _ Hb). unfold dropped, inserts. split; intros (i & e & Hi & He & Hk); exists i, e.
    - rewrite lookup_fmap, fmap_is_Some, <- elem_of_dom in Hi. done.
    - rewrite lookup_fmap, fmap_is_Some, <- elem_of_dom. done. }
  assert (Hin : k ∈ insert_batch.*1 <-> k ∈ inserted_entries.*1).
  { unfold insert_batch. rewrite fmap_app, elem_of_app. split; [|by right]. intros [Hp|Hp]; [|done].
    apply row_puts_keys in Hp as [i [-> | ->]]; by apply row_key_not_entry in Hf. }
  assert (Hnx : put_value extra k = None).
  { apply put_value_none. intros Hx. apply (fence_extra_keys _ _ _ Hextra) in Hx as ->. by eapply dirty_key_not_entry. }
  unfold batch_look. rewrite put_value_app, Hnx. case_bool_decide as Hd.
  - apply insert_deletes_elem in Hd as [Hd Hnb]. rewrite Hin in Hnb. split; [by intros []|].
    intros [?|[_ Hnd]]; [done|]. by rewrite Hdrop in Hnd.
  - destruct (put_value insert_batch k) as [v|] eqn:Ev.
    + assert (k ∈ insert_batch.*1) as Hk by (apply put_value_is_Some; by rewrite Ev). rewrite Hin in Hk. by split; [left|].
    + assert (k ∉ insert_batch.*1) as Hk by (rewrite <- put_value_is_Some, Ev; by intros []).
      rewrite insert_deletes_elem, Hin in Hd. rewrite Hin in Hk. rewrite Hdrop. tauto.
Qed.

Lemma batch_counters k : counter_key sp k -> batch_look (insert_batch ++ extra) insert_deletes s k = look s k.
Proof.
  intros Hc. rewrite batch_graph_key.
  - rewrite put_value_none; [done|]. rewrite <- (bi_puts _ _ Hb). intros [i Hk]%row_puts_keys.
    destruct Hc as (t & v & Hc). destruct Hk as [-> | ->], Hc as [Hc|Hc];
      [by apply fwd_not_in in Hc|by apply fwd_not_out in Hc|by apply rev_not_in in Hc|by apply rev_not_out in Hc].
  - destruct Hc as (t & v & [-> | ->]); [apply graph_key_in|apply graph_key_out].
  - intros Hf. by apply (entry_not_counter sp ix Hsp k).
Qed.

Lemma asserted_inserted : asserted (changed inserts G) = asserted G ∪ fresh es.
Proof.
  apply set_eq. intros i. unfold fresh. rewrite elem_of_union, elem_of_difference, !asserted_elem, changed_lookup, elem_of_dom.
  unfold inserts. rewrite lookup_fmap. destruct (written es !! i) as [e|] eqn:Ei; cbn [fmap option_fmap option_map].
  - apply written_elem in Ei as [Hin _]. rewrite Forall_forall in Hes. destruct (Hes e Hin) as (_ & Hinf & _). split.
    + intros _. rewrite <- asserted_elem. destruct (decide (i ∈ asserted G)) as [Hd|Hd]; [by left|right]. eauto.
    + eauto.
  - split; [by left|]. intros [?|[[] _]]; done.
Qed.
End loop_done.

(** ** The statement *)

Lemma target_ok edge :
  edge_ready edge -> id_ok (edge_id (target edge)) /\ inferred (target edge) = false /\ kept_edge (target edge).
Proof.
  intros [_ _ _ Hs Hid Hp _]. split; [done|]. split.
  - unfold inferred. cbn [edge_properties target]. apply bool_decide_eq_false.
    rewrite (validated_not_inferred _ _ _ _ Hs). by intros [].
  - by apply kept_edge_values.
Qed.

Lemma returns_validate edges :
  Forall edge_ready edges -> returns (d_for_each (validate_insert sp Int64) edges) s tt.
Proof.
  induction 1 as [|edge edges He _ IH]; [apply returns_ret|]. destruct He as [[Hv1 Hv2] _ _ Hs _ _ _].
  cbn [d_for_each]. eapply returns_bind; [|exact IH]. unfold validate_insert.
  eapply returns_bind; [exact Hs|]. eapply returns_bind; [by apply returns_validate_vid|]. by apply returns_validate_vid.
Qed.

Lemma succeeds_add_edges edges :
  Forall edge_ready edges -> Z.of_nat (length edges) < two63 ->
  succeeds (d_fold (add_edge ctx sp Int64) no_batch edges) s (fun b s' => s' = s /\ batch_inv (target <$> edges) b).
Proof.
  intros He Hl. apply (post_fold _ _ (fun seen b s' => s' = s /\ batch_inv (target <$> seen) b)).
  - split; [done|]. apply batch_inv_nil.
  - intros seen edge b s' [-> Hb] [rest ->]. apply Forall_app in He as [Hes [He _]%Forall_cons].
    rewrite length_app in Hl. simpl in Hl. rewrite fmap_app. apply add_edge_inv; [done| |rewrite length_fmap; lia|done].
    apply Forall_fmap. eapply Forall_impl; [exact Hes|]. intros x Hx. by apply target_ok.
  - done.
Qed.

(** Without [sameAs] edges nothing is merged. *)
Lemma returns_no_merge triples s' :
  Forall (fun t => t.1.2 <> SAMEAS_EDGE) triples ->
  returns (merge_sameas_triples wall ctx sp triples) s' tt.
Proof.
  intros Ht. unfold merge_sameas_triples. apply (returns_bind _ _ s' 0); [|apply returns_ret].
  induction Ht as [|[[a p] b] triples Hp _ IH]; [apply returns_ret|]. cbn [d_fold].
  apply (returns_bind _ _ s' 0); [|exact IH]. unfold merge_triple. cbn in Hp. rewrite bool_decide_eq_false_2 by done. apply returns_ret.
Qed.

Lemma insert_edges_correct plan_space edges :
  returns (effective_space ctx plan_space) s sp -> Forall edge_ready edges ->
  Z.of_nat (size G) + Z.of_nat (length edges) < two63 ->
  succeeds (execute_insert_edges wall ctx plan_space edges) s (fun r s' =>
    r = count_result (bs "Inserted") (Z.of_nat (length edges)) /\ graph_rep sp ix (insert_all (target <$> edges) G) s').
Proof.
  intros Hspace He Hsize. set (es := target <$> edges).
  assert (Hes : Forall (fun e => id_ok (edge_id e) /\ inferred e = false /\ kept_edge e) es).
  { apply Forall_fmap. eapply Forall_impl; [exact He|]. apply target_ok. }
  unfold execute_insert_edges. eapply post_returns; [exact Hspace|]. eapply post_returns; [by apply (ready_vids _ _ _ _ Hready)|].
  eapply post_returns; [by apply (ready_indexes _ _ _ _ Hready)|]. eapply post_returns; [by apply returns_validate|].
  apply post_bind. eapply post_conseq; [|apply succeeds_add_edges; [done|lia]]. intros b s0 [-> Hb]. fold es in Hb.
  destruct (returns_fence ctx sp ix s (insert_batch b) Hready) as (extra & Hextra & Hfence).
  eapply post_returns; [exact Hfence|]. apply post_bind, post_draw. intros versions.
  apply post_bind, post_batch_apply; [by apply (rep_wf _ _ _ _ Hrep)|]. intros s1 Hwf1 Hlook.
  fold (insert_deletes b) in Hlook. apply post_bind.
  eapply (post_apply_counters sp Hsp 1 (fresh es) _ _ (asserted G) (asserted (changed (inserts es) G)));
    [apply Hb|apply Hb| |done| | | |].
  - intros i Hi. unfold fresh in Hi. rewrite written_dom in Hi.
    assert (Hi' : i ∈ edge_id <$> es) by set_solver. apply list_elem_of_fmap in Hi' as (e & -> & Hin).
    rewrite Forall_forall in Hes. by apply Hes.
  - intros t v Ht Hv. rewrite !Hlook, !(batch_counters es b extra Hes Hb Hextra) by (exists t, v; auto).
    by apply (rep_counters _ _ _ _ Hrep).
  - intros f p. rewrite (asserted_inserted es Hes), degree_union by (unfold fresh; set_solver). lia.
  - rewrite (asserted_inserted es Hes). pose proof (fresh_size es) as Hf. pose proof (asserted_size G).
    unfold es in Hf at 2. rewrite length_fmap in Hf. rewrite size_union_alt.
    pose proof (subseteq_size (fresh es ∖ asserted G) (fresh es) ltac:(set_solver)). lia.
  - intros s2 Hwf2 Hsame Hcnt. eapply post_returns.
    { apply returns_no_merge. rewrite (bi_triples _ _ Hb). unfold es. rewrite !Forall_fmap.
      eapply Forall_impl; [exact He|]. by intros edge []. }
    apply post_ret. split; [rewrite (bi_inserted _ _ Hb); unfold es; by rewrite length_fmap|].
    rewrite insert_all_changed. fold (inserts es). eapply (graph_rep_changed sp ix Hsp Hix); [exact Hrep|by apply inserts_ok|done| | |done].
    + intros i Hi. rewrite !Hsame, !Hlook; [by apply batch_rows| |];
        apply row_not_counter.
    + intros k Hk. rewrite Hsame, Hlook by by eapply entry_not_counter. by apply batch_entries.
Qed.
End insert.
