(* ===== verification/EdgeDeletion.v ===== *)
(** * DELETE EDGE

    On a space with integer ids, deleting edges takes the represented graph to the
    one without them, with their reverse rows and index entries removed and the
    degree counters lowered; the statement fails exactly if one of the edges was
    derived and not asserted. *)

From Stdlib Require Import ZArith Lia Strings.Byte Strings.String.
From stdpp Require Import base tactics list gmap fin_sets.
From S2P Require Import Prelude OrdMap KVStore KVStoreFacts KVStoreBatch KVDyn Text SchemaKey Value StorageKey IndexManager IndexFacts.
From S2P Require Import Exec Evaluator Vid SpaceDdl VertexCodec VertexCodecFacts DmlStaging GraphAlgo Dml DmlRules EdgeRep EdgeWrite.

(** The graph without some edges. *)
Definition remove_all (ids : gset EdgeId) (G : Graph) : Graph := filter (fun ie => ie.1 ∉ ids) G.

Lemma remove_all_lookup ids G i : remove_all ids G !! i = if decide (i ∈ ids) then None else G !! i.
Proof.
  unfold remove_all. rewrite map_lookup_filter. case_decide; destruct (G !! i); simpl; try done; by case_guard.
Qed.

Section delete.
Context `{DebugText} `{ProstMessage PbVertex} `{ProstMessage PbEdge} `{!ProstLaws PbEdge}.
Context `{SerdeJson JsonValue} `{SerdeJson IndexDef} `{FromJson SemanticFlags} `{MessageText}.
Context (wall : nat -> Z) (ctx : Ctx) (sp : bytes) (ix : list IndexDef) (G : Graph) (s : MemoryKVStore).
Context (rep : Z -> Z) (name : bytes).
Context (Hsp : identifier sp = true) (Hix : indexes_ok ix) (Hrep : graph_rep sp ix G s) (Hready : space_ready ctx sp ix s).

(** The edge that a reference of the statement names. *)
Definition ref_id (ref : Vid * Vid * Z) : EdgeId :=
  let '(src, dst, rank) := ref in (rep (vid_num src), name, rep (vid_num dst), rank).

Record ref_ready (ref : Vid * Vid * Z) : Prop := {
  rr_vids : vid_is_int ref.1.1 = true /\ vid_is_int ref.1.2 = true;
  rr_src : returns (representative_of sp (vid_num ref.1.1)) s (rep (vid_num ref.1.1));
  rr_dst : returns (representative_of sp (vid_num ref.1.2)) s (rep (vid_num ref.1.2));
  rr_id : id_ok (ref_id ref)
}.

(** Failures: one of the edges is derived. *)
Definition names_inferred (refs : list (Vid * Vid * Z)) (e : ExecutionError) : Prop :=
  e = err_inferred_delete /\ exists ref edge, ref ∈ refs /\ G !! ref_id ref = Some edge /\ inferred edge = true.

(** The edges found among the references. *)
Definition found (ids : list EdgeId) : gset EdgeId := list_to_set ids ∩ dom G.

Record delete_inv (ids : list EdgeId) (d : EdgeDeletes) : Prop := {
  di_keys : forall k, k ∈ ed_keys d <->
    exists i e, i ∈ found ids /\ G !! i = Some e /\ (k = fwd sp i \/ k = rev sp i \/ k ∈ edge_entries ix e);
  di_in : counts (-1) in_end (found ids) (ed_deg_in d);
  di_out : counts (-1) out_end (found ids) (ed_deg_out d);
  di_seen : forall i, id_ok i -> fwd sp i ∈ ed_seen d <-> i ∈ ids;
  di_deleted : ed_deleted d = Z.of_nat (size (found ids));
  di_asserted : found ids ⊆ asserted G
}.

Lemma delete_inv_nil : delete_inv [] (mkDeletes [] [] ∅ ∅ ∅ 0).
Proof.
  assert (Hf : found [] = ∅) by set_solver. split; rewrite ?Hf; try apply counts_empty; set_solver.
Qed.

(** A reference to an edge that is not there or was listed before changes nothing. *)
Lemma delete_inv_skip ids i d :
  delete_inv ids d -> id_ok i -> i ∈ ids \/ G !! i = None ->
  delete_inv (ids ++ [i]) (mkDeletes (ed_keys d) (ed_tombstones d) (ed_deg_in d) (ed_deg_out d)
    ({[fwd sp i]} ∪ ed_seen d) (ed_deleted d)).
Proof.
  intros [Hk Hi Ho Hs Hd Ha] Hok Hskip.
  assert (Hf : found (ids ++ [i]) = found ids).
  { unfold found. apply set_eq. intros j. rewrite list_to_set_app_L. destruct Hskip as [?|Hn]; [set_solver|].
    apply not_elem_of_dom in Hn. set_solver. }
  split; rewrite ?Hf; try done. intros j Hj. cbn [ed_seen]. rewrite elem_of_union, elem_of_singleton, elem_of_app, Hs by done.
  rewrite list_elem_of_singleton. split.
  - intros [E|?]; [right; by apply fwd_inj in E|by left].
  - intros [?|E]; [by right|left; by subst].
Qed.

Lemma delete_inv_found ids i e d :
  delete_inv ids d -> id_ok i -> i ∉ ids -> G !! i = Some e -> inferred e = false -> Z.of_nat (size G) < two63 ->
  delete_inv (ids ++ [i]) (mkDeletes (ed_keys d ++ [fwd sp i; rev sp i] ++ edge_entries ix e) (ed_tombstones d ++ [fwd sp i])
    (bump (in_end i) (-1) (ed_deg_in d)) (bump (out_end i) (-1) (ed_deg_out d))
    ({[fwd sp i]} ∪ ed_seen d) (as_i64 (ed_deleted d + 1))).
Proof.
  intros [Hk Hi Ho Hs Hd Ha] Hok Hn He Hinf Hsz.
  assert (Hdom : i ∈ dom G) by by apply elem_of_dom_2 in He.
  assert (Hf : found (ids ++ [i]) = {[i]} ∪ found ids).
  { unfold found. rewrite list_to_set_app_L. set_solver. }
  assert (Hni : i ∉ found ids) by (unfold found; set_solver).
  assert (Hsize : Z.of_nat (size (found ids)) + 1 < two63).
  { pose proof (subseteq_size ({[i]} ∪ found ids) (dom G) ltac:(unfold found; set_solver)) as Hsub.
    rewrite size_union, size_singleton, size_dom in Hsub by set_solver. lia. }
  split; rewrite ?Hf; cbn [ed_keys ed_deg_in ed_deg_out ed_seen ed_deleted].
  - intros k. rewrite elem_of_app, Hk, elem_of_app, !elem_of_cons, elem_of_nil. split.
    + intros [(j & e' & Hj & Hrest)|Hnew]; [exists j, e'; set_solver|]. exists i, e. split; [set_solver|]. tauto.
    + intros (j & e' & [->%elem_of_singleton|Hj]%elem_of_union & Hrest); [|left; by exists j, e'].
      right. destruct Hrest as [He' Hrest]. assert (e' = e) as -> by congruence. tauto.
  - by apply counts_bump; [right| | |].
  - by apply counts_bump; [right| | |].
  - intros j Hj. rewrite elem_of_union, elem_of_singleton, elem_of_app, Hs, list_elem_of_singleton by done. split.
    + intros [E|?]; [right; by apply fwd_inj in E|by left].
    + intros [?|E]; [by right|left; by subst].
  - rewrite Hd, size_union, size_singleton by set_solver. rewrite as_i64_id by (unfold_int; lia). lia.
  - assert (i ∈ asserted G) by (apply asserted_elem; by exists e). set_solver.
Qed.

Lemma delete_ref_inv refs ids ref d :
  ref_ready ref -> ref ∈ refs -> Z.of_nat (size G) < two63 -> delete_inv ids d ->
  post (names_inferred refs) (delete_ref sp name Int64 (indexes_of name ix) d ref) s
    (fun d' s' => s' = s /\ delete_inv (ids ++ [ref_id ref]) d').
Proof.
  intros [[Hv1 Hv2] Hsrc Hdst Hid] Hin Hsz Hd. destruct ref as [[vsrc vdst] rank]. cbn [fst snd] in *.
  unfold delete_ref. eapply post_returns; [by apply returns_resolve_vid|]. cbn iota.
  eapply post_returns; [by apply returns_resolve_vid|]. cbn iota.
  eapply post_returns; [exact Hsrc|]. eapply post_returns; [exact Hdst|].
  set (i := ref_id (vsrc, vdst, rank)) in *.
  change (SchemaKey.edge_data sp (rep (vid_num vsrc)) name (rep (vid_num vdst)) rank) with (fwd sp i).
  change (SchemaKey.in_edge_data sp (rep (vid_num vdst)) name (rep (vid_num vsrc)) rank) with (rev sp i).
  pose proof (di_seen _ _ Hd i Hid) as Hseen. case_bool_decide as Es.
  { eapply post_returns; [apply returns_ret|]. apply post_ret. split; [done|]. apply delete_inv_skip; tauto. }
  rewrite Hseen in Es. pose proof (rep_rows _ _ _ _ Hrep i Hid) as Hrow. apply post_bind, post_get.
  destruct (G !! i) as [e|] eqn:Ei.
  2:{ destruct Hrow as [-> _]. apply post_ret. split; [done|]. apply delete_inv_skip; auto. }
  destruct Hrow as (Hei & _ & b & Hl & _ & Hdec & _). rewrite Hl, Hdec. cbn [d_result].
  eapply post_returns; [apply returns_ret|]. destruct (inferred e) eqn:Einf.
  { apply post_fail. split; [done|]. by exists (vsrc, vdst, rank), e. }
  apply post_ret. split; [done|].
  assert (Hent : ((fun index => KeyUtils.edge_index_key 1 (idx_id index) (index_values index (edge_properties e))
    (rep (vid_num vsrc)) rank (rep (vid_num vdst))) <$> indexes_of name ix) = edge_entries ix e).
  { unfold edge_entries, edge_entry. injection Hei as -> -> -> ->. done. }
  rewrite Hent. by apply (delete_inv_found ids i e d).
Qed.

(** ** The batch *)

Definition removals (ids : list EdgeId) : gmap EdgeId (option EdgeData) := gset_to_gmap None (found ids).

Lemma removals_lookup ids i : removals ids !! i = if decide (i ∈ found ids) then Some None else None.
Proof. unfold removals. rewrite lookup_gset_to_gmap. by case_decide; simplify_option_eq. Qed.

Lemma removed_changed ids : changed (removals ids) G = remove_all (list_to_set ids) G.
Proof.
  apply map_eq. intros i. rewrite changed_lookup, remove_all_lookup, removals_lookup. unfold found.
  destruct (G !! i) as [e|] eqn:E.
  - assert (i ∈ dom G) by by apply elem_of_dom_2 in E. repeat case_decide; set_solver.
  - apply not_elem_of_dom in E. repeat case_decide; set_solver.
Qed.

Lemma asserted_removed ids : asserted (changed (removals ids) G) = asserted G ∖ found ids.
Proof.
  apply set_eq. intros i. rewrite elem_of_difference, !asserted_elem, changed_lookup, removals_lookup.
  case_decide; split; [by intros (? & ? & _)|tauto|tauto|tauto].
Qed.

Lemma removals_ok ids : Forall id_ok ids -> changes_ok (removals ids).
Proof.
  intros Hids i o Ho. rewrite removals_lookup in Ho. case_decide as Hi; [|done]. injection Ho as <-. split; [|done].
  rewrite Forall_forall in Hids. apply Hids. unfold found in Hi. set_solver.
Qed.

Section loop_done.
Context (ids : list EdgeId) (d : EdgeDeletes) (extra : list kv_pair).
Context (Hids : Forall id_ok ids) (Hd : delete_inv ids d) (Hextra : fence_extra sp extra).

Lemma removal_key_form k : k ∈ ed_keys d ->
  (exists i, i ∈ found ids /\ (k = fwd sp i \/ k = rev sp i)) \/ entry_form ix k.
Proof.
  intros (i & e & Hi & He & [->|[->|Hk]])%(di_keys _ _ Hd); [left|left|right; by eapply edge_entries_form]; exists i; auto.
Qed.

Lemma extra_not_graph k : graph_key sp k = true \/ entry_form ix k -> k ∉ extra.*1.
Proof.
  intros Hk Hin. apply (fence_extra_keys _ _ _ Hextra) in Hin as ->. destruct Hk as [Hk|Hk].
  - by rewrite dirty_key_other in Hk.
  - by eapply dirty_key_not_entry.
Qed.

Lemma removal_look k : graph_key sp k = true \/ entry_form ix k ->
  batch_look extra (ed_keys d) s k = if decide (k ∈ ed_keys d) then None else look s k.
Proof.
  intros Hk. unfold batch_look. rewrite put_value_none by by apply extra_not_graph.
  case_decide; [by rewrite bool_decide_eq_true_2|by rewrite bool_decide_eq_false_2].
Qed.

Lemma row_removed i : id_ok i -> (fwd sp i ∈ ed_keys d <-> i ∈ found ids) /\ (rev sp i ∈ ed_keys d <-> i ∈ found ids).
Proof.
  intros Hi.
  assert (Hfound : forall j, j ∈ found ids -> id_ok j).
  { intros j Hj. rewrite Forall_forall in Hids. apply Hids. unfold found in Hj. set_solver. }
  split; split.
  - intros [(j & Hj & [E|E])|Hf]%removal_key_form; [apply fwd_inj in E as ->; auto|by apply fwd_not_rev in E|by apply name_not_entry in Hf].
  - intros Hf. apply (di_keys _ _ Hd). assert (is_Some (G !! i)) as [e He] by (apply elem_of_dom; unfold found in Hf; set_solver).
    exists i, e. auto.
  - intros [(j & Hj & [E|E])|Hf]%removal_key_form; [by symmetry in E; apply fwd_not_rev in E|apply rev_inj in E as ->; auto|by apply name_not_entry in Hf].
  - intros Hf. apply (di_keys _ _ Hd). assert (is_Some (G !! i)) as [e He] by (apply elem_of_dom; unfold found in Hf; set_solver).
    exists i, e. auto.
Qed.

Lemma removal_rows i : id_ok i ->
  batch_look extra (ed_keys d) s (fwd sp i) =
    match removals ids !! i with Some o => edge_bytes <$> o | None => look s (fwd sp i) end /\
  batch_look extra (ed_keys d) s (rev sp i) =
    match removals ids !! i with Some o => edge_bytes <$> o | None => look s (rev sp i) end.
Proof.
  intros Hi. destruct (row_removed i Hi) as [Hf Hr].
  rewrite !removal_look by (left; apply graph_key_fwd || apply graph_key_rev). rewrite removals_lookup.
  destruct (decide (i ∈ found ids)); split; case_decide; tauto.
Qed.

Lemma removal_entries k : entry_form ix k ->
  is_Some (batch_look extra (ed_keys d) s k) <-> added ix (removals ids) k \/ is_Some (look s k) /\ ~ dropped ix (removals ids) G k.
Proof.
  intros Hf. rewrite removal_look by by right.
  assert (Hdrop : dropped ix (removals ids) G k <-> k ∈ ed_keys d).
  { rewrite (di_keys _ _ Hd). unfold dropped. split.
    - intros (i & e & Hi & He & Hk). exists i, e. rewrite removals_lookup in Hi. case_decide; [by auto|by destruct Hi].
    - intros (i & e & Hi & He & [->|[->|Hk]]); [by apply name_not_entry in Hf..|]. exists i, e.
      rewrite removals_lookup. by rewrite decide_True by done. }
  assert (Hna : ~ added ix (removals ids) k).
  { intros (i & e & Hi & _). rewrite removals_lookup in Hi. by case_decide. }
  rewrite Hdrop. case_decide; [split; [by intros []|tauto]|tauto].
Qed.

Lemma removal_counters k : counter_key sp k -> batch_look extra (ed_keys d) s k = look s k.
Proof.
  intros Hc. rewrite removal_look.
  - rewrite decide_False; [done|]. intros [(i & _ & [-> | ->])|Hf]%removal_key_form;
      [by apply row_not_counter in Hc..|by eapply entry_not_counter in Hf].
  - left. destruct Hc as (t & v & [-> | ->]); [apply graph_key_in|apply graph_key_out].
Qed.
End loop_done.

(** ** The statement *)

Lemma succeeds_delete_refs refs :
  Forall ref_ready refs -> Z.of_nat (size G) < two63 ->
  post (names_inferred refs)
    (d_fold (delete_ref sp name Int64 (indexes_of name ix)) (mkDeletes [] [] ∅ ∅ ∅ 0) refs) s
    (fun d s' => s' = s /\ delete_inv (ref_id <$> refs) d).
Proof.
  intros Hr Hsz. apply (post_fold _ _ (fun seen d s' => s' = s /\ delete_inv (ref_id <$> seen) d)).
  - split; [done|]. apply delete_inv_nil.
  - intros seen ref d s' [-> Hd] [rest ->]. apply Forall_app in Hr as [_ [Hr _]%Forall_cons].
    rewrite fmap_app. apply delete_ref_inv; [done|set_solver|done|done].
  - done.
Qed.

Lemma delete_edge_correct plan :
  de_type plan = name -> name <> SAMEAS_EDGE -> returns (effective_space ctx (de_space plan)) s sp ->
  Forall ref_ready (de_refs plan) -> Z.of_nat (size G) < two63 ->
  let ids := ref_id <$> de_refs plan in
  post (names_inferred (de_refs plan)) (execute_delete_edge wall ctx plan) s (fun r s' =>
    r = count_result (bs "Deleted") (Z.of_nat (size (found ids))) /\ found ids ⊆ asserted G /\
    graph_rep sp ix (remove_all (list_to_set ids) G) s').
Proof.
  intros Hname Hsame Hspace Hr Hsz ids.
  assert (Hids : Forall id_ok ids) by (apply Forall_fmap; eapply Forall_impl; [exact Hr|]; by intros ? []).
  unfold execute_delete_edge. eapply post_returns; [exact Hspace|]. eapply post_returns; [by apply (ready_vids _ _ _ _ Hready)|].
  rewrite Hname, bool_decide_eq_false_2 by done.
  eapply post_returns; [by apply (ready_indexes _ _ _ _ Hready)|]. cbn zeta.
  apply post_bind. eapply post_conseq; [|by apply succeeds_delete_refs]. intros d s0 [-> Hd]. fold ids in Hd.
  destruct (returns_fence ctx sp ix s [] Hready) as (extra & Hextra & Hfence).
  eapply post_returns; [exact Hfence|]. apply post_bind, post_draw. intros versions.
  apply post_bind, post_batch_apply; [by apply (rep_wf _ _ _ _ Hrep)|]. intros s1 Hwf1 Hlook. cbn [app] in Hlook.
  apply post_bind, post_succeeds.
  eapply (post_apply_counters sp Hsp (-1) (found ids) _ _ (asserted G) (asserted (changed (removals ids) G)));
    [apply Hd|apply Hd| |done| | | |].
  - intros i Hi. rewrite Forall_forall in Hids. apply Hids. unfold found in Hi. set_solver.
  - intros t v Ht Hv. rewrite !Hlook, !(removal_counters ids d extra Hd Hextra) by (exists t, v; auto).
    by apply (rep_counters _ _ _ _ Hrep).
  - intros f p. rewrite asserted_removed, degree_difference by apply Hd. lia.
  - rewrite asserted_removed. pose proof (asserted_size G).
    pose proof (subseteq_size (asserted G ∖ found ids) (asserted G) ltac:(set_solver)). lia.
  - intros s2 Hwf2 Hother Hcnt. apply post_ret. split; [by rewrite (di_deleted _ _ Hd)|]. split; [apply Hd|].
    rewrite <- removed_changed. eapply (graph_rep_changed sp ix Hsp Hix); [exact Hrep|by apply removals_ok|done| | |done].
    + intros i Hi. rewrite !Hother, !Hlook; [by apply removal_rows|apply row_not_counter..].
    + intros k Hk. rewrite Hother, Hlook by by eapply entry_not_counter. by apply removal_entries.
Qed.
End delete.
