(* ===== verification/EdgeUpdating.v ===== *)
(** * UPDATE EDGE

    On a space with integer ids, an update replaces the properties of one edge, or
    changes nothing if there is no such edge or the condition is false. The indexes
    stay exact if the edge was asserted and two values are equal for the update
    exactly if they are indexed alike. *)

From Stdlib Require Import ZArith Lia Strings.Byte Strings.String.
From stdpp Require Import base tactics list gmap fin_sets.
From S2P Require Import Prelude OrdMap KVStore KVStoreFacts KVStoreBatch KVDyn Text SchemaKey Value StorageKey IndexManager IndexFacts.
From S2P Require Import Exec Evaluator Vid SpaceDdl VertexCodec VertexCodecFacts DmlStaging GraphAlgo Dml DmlRules EdgeRep EdgeWrite.

Section update.
Context `{DebugText} `{ProstMessage PbVertex} `{ProstMessage PbEdge} `{!ProstLaws PbEdge}.
Context `{SerdeJson JsonValue} `{SerdeJson IndexDef} `{FromJson SemanticFlags} `{MessageText} `{EvalPlatform}.
Context (wall : nat -> Z) (ctx : Ctx) (sp : bytes) (ix : list IndexDef) (G : Graph) (s : MemoryKVStore).
Context (rep : Z -> Z) (u : EdgeUpdate).
(** The indexes that are to be exact: all or none. *)
Context (kept : list IndexDef) (Hkept : kept = ix \/ kept = []).
Context (Hsp : identifier sp = true) (Hix : indexes_ok kept) (Hrep : graph_rep sp kept G s).
Context (Hready : space_ready ctx sp ix s).

Definition update_id : EdgeId := (rep (vid_num (eu_src u)), eu_type u, rep (vid_num (eu_dst u)), eu_ranking u).

Record update_ready : Prop := {
  ur_vids : vid_is_int (eu_src u) = true /\ vid_is_int (eu_dst u) = true;
  ur_src : returns (representative_of sp (vid_num (eu_src u))) s (rep (vid_num (eu_src u)));
  ur_dst : returns (representative_of sp (vid_num (eu_dst u))) s (rep (vid_num (eu_dst u)));
  ur_schema : returns (validate_edge_props sp (eu_type u) (eu_updates u)) s tt;
  ur_id : id_ok update_id;
  ur_props : map_Forall (fun _ => edge_value) (eu_updates u)
}.

(** The updated edge; it counts as asserted from now on. *)
Definition updated (old : EdgeData) : EdgeData :=
  mkEdge (src_vid old) (dst_vid old) (edge_type old) (ranking old)
    (delete INFERRED_MARKER (eu_updates u ∪ edge_properties old)).

(** Whether the condition holds of the current properties. *)
Definition condition_value (old : EdgeData) : Result ExecutionError bool :=
  match eu_conditions u with
  | None => Ok true
  | Some cond => default (Err PANIC) (evaluate_condition cond (edge_context (eu_type u) (edge_properties old)))
  end.

(** Two values are equal for the update exactly if they are indexed alike. *)
Definition entries_agree (old : EdgeData) : Prop :=
  forall index, index ∈ indexes_of (eu_type u) kept ->
  slice_eq index_value_eq (index_values index (edge_properties old)) (index_values index (edge_properties (updated old))) = true <->
  edge_entry index old = edge_entry index (updated old).

(** The reads of the statement up to the row of the edge. *)
Ltac update_start Hspace Hs Hsrc Hdst :=
  unfold execute_update_edge; eapply post_returns; [exact Hspace|]; eapply post_returns; [by apply (ready_vids _ _ _ _ Hready)|];
  eapply post_returns; [by apply returns_validate_vid|]; eapply post_returns; [by apply returns_validate_vid|];
  eapply post_returns; [exact Hs|]; eapply post_returns; [by apply returns_resolve_vid|];
  eapply post_returns; [by apply returns_resolve_vid|];
  cbn iota;
  eapply post_returns; [exact Hsrc|]; eapply post_returns; [exact Hdst|];
  cbn zeta;
  change (SchemaKey.edge_data sp (rep (vid_num (eu_src u))) (eu_type u) (rep (vid_num (eu_dst u))) (eu_ranking u)) with (fwd sp update_id);
  change (SchemaKey.in_edge_data sp (rep (vid_num (eu_dst u))) (eu_type u) (rep (vid_num (eu_src u))) (eu_ranking u)) with (rev sp update_id).

(** Without such an edge, or if the condition is false, nothing happens. *)
Lemma update_edge_skipped :
  update_ready -> returns (effective_space ctx (eu_space u)) s sp ->
  match G !! update_id with
  | None => returns (execute_update_edge wall ctx u) s (count_result (bs "Updated") 0)
  | Some old =>
      match condition_value old with
      | Ok false => returns (execute_update_edge wall ctx u) s (count_result (bs "Updated") 0)
      | Ok true => True
      | Err e => post (fun e' => e' = e) (execute_update_edge wall ctx u) s (fun _ _ => False)
      end
  end.
Proof.
  intros [[Hv1 Hv2] Hsrc Hdst Hs Hid Hp] Hspace. pose proof (rep_rows _ _ _ _ Hrep _ Hid) as Hrow.
  destruct (G !! update_id) as [old|].
  - destruct Hrow as (Hei & _ & b & Hl & _ & Hdec & _). destruct (condition_value old) as [[]|e] eqn:Hcond; [done|..];
      unfold condition_value in Hcond; unfold returns; update_start Hspace Hs Hsrc Hdst; apply post_bind, post_get; rewrite Hl, Hdec; cbn [d_result];
      (eapply post_returns; [apply returns_ret|]); destruct (eu_conditions u) as [cond|]; try done; unfold d_outcome; rewrite Hcond.
    + eapply post_returns; [apply returns_ret|]. apply returns_ret.
    + apply post_bind. by apply post_fail.
  - destruct Hrow as [Hl _]. unfold returns. update_start Hspace Hs Hsrc Hdst. apply post_bind, post_get. rewrite Hl. apply returns_ret.
Qed.

Context (old : EdgeData) (Hold : G !! update_id = Some old) (Hu : update_ready).

Lemma old_id : edge_id old = update_id.
Proof. by eapply rep_edge_id. Qed.
Lemma updated_edge_id : edge_id (updated old) = update_id.
Proof. rewrite <- old_id. done. Qed.

Lemma updated_inferred : inferred (updated old) = false.
Proof. unfold inferred, updated. cbn [edge_properties]. rewrite lookup_delete_eq. apply bool_decide_eq_false. by intros []. Qed.

Lemma updated_kept : kept_edge (updated old).
Proof.
  pose proof (rep_rows _ _ _ _ Hrep _ (ur_id Hu)) as Hrow. rewrite Hold in Hrow. destruct Hrow as (_ & [Hst Hd] & _).
  assert (Hp : stored_props (edge_properties old) = edge_properties old) by exact (f_equal edge_properties Hst). split.
  - unfold stored_edge, updated. cbn [src_vid dst_vid edge_type ranking edge_properties]. f_equal.
    unfold stored_props in *. rewrite fmap_delete, map_fmap_union, Hp. do 2 f_equal.
    apply stored_props_plain, edge_values_plain, (ur_props Hu).
  - unfold edge_depth, updated in *. cbn [edge_properties] in *. rewrite props_depth_le in Hd |- *.
    intros k v [_ [Hk|[_ Hk]]%lookup_union_Some_raw]%lookup_delete_Some; [|by apply (Hd k)].
    by apply (ur_props Hu k).
Qed.

(** The change of the graph. *)
Definition change : gmap EdgeId (option EdgeData) := {[update_id := Some (updated old)]}.

Lemma change_ok : changes_ok change.
Proof.
  intros i o Ho. unfold change in Ho. apply lookup_singleton_Some in Ho as [<- <-]. split; [apply Hu|]. intros e [= <-].
  split; [apply updated_edge_id|apply updated_kept].
Qed.

Lemma change_graph : changed change G = <[update_id := updated old]> G.
Proof.
  apply map_eq. intros i. rewrite changed_lookup. unfold change.
  destruct (decide (update_id = i)) as [<-|Hne]; [by rewrite lookup_singleton_eq, lookup_insert_eq|].
  by rewrite lookup_singleton_ne, lookup_insert_ne.
Qed.

(** ** The batch *)

(** The indexes whose entries move. *)
Definition moves (index : IndexDef) : Prop :=
  index ∈ indexes_of (eu_type u) ix /\
  slice_eq index_value_eq (index_values index (edge_properties old)) (index_values index (edge_properties (updated old))) = false.

Lemma update_entries_elem a b :
  (a, b) ∈ update_entries u old (updated old) ix <->
  exists index, moves index /\ a = edge_entry index old /\ b = edge_entry index (updated old).
Proof.
  unfold update_entries, moves. rewrite elem_of_filter_map. split.
  - intros (index & Hin & E). exists index. destruct (slice_eq _ _ _); [done|]. by injection E as <- <-.
  - intros (index & [Hin E] & -> & ->). exists index. by rewrite E.
Qed.

Definition moved : list (bytes * bytes) := update_entries u old (updated old) ix.
Definition moved_puts : list kv_pair := (fun m => (m.2, [])) <$> moved.
Definition update_puts : list kv_pair :=
  [(fwd sp update_id, edge_bytes (updated old)); (rev sp update_id, edge_bytes (updated old))] ++ moved_puts.

Lemma moved_old k : k ∈ moved.*1 <-> exists index, moves index /\ k = edge_entry index old.
Proof.
  rewrite list_elem_of_fmap. split.
  - intros ([a b] & -> & (index & Hm & -> & _)%update_entries_elem). by exists index.
  - intros (index & Hm & ->). exists (edge_entry index old, edge_entry index (updated old)). split; [done|].
    apply update_entries_elem. by exists index.
Qed.
Lemma moved_new k : k ∈ moved_puts.*1 <-> exists index, moves index /\ k = edge_entry index (updated old).
Proof.
  unfold moved_puts. rewrite <- list_fmap_compose, list_elem_of_fmap. split.
  - intros ([a b] & -> & (index & Hm & _ & ->)%update_entries_elem). by exists index.
  - intros (index & Hm & ->). exists (edge_entry index old, edge_entry index (updated old)). split; [done|].
    apply update_entries_elem. by exists index.
Qed.

(** The entries of an edge of the updated type. *)
Lemma moves_form index k : moves index -> k = edge_entry index old \/ k = edge_entry index (updated old) -> entry_form ix k.
Proof.
  intros [Hin _] Hk. pose proof old_id as Eo. injection Eo as _ Et _ _.
  destruct Hk as [-> | ->]; (eapply edge_entries_form, list_elem_of_fmap; exists index; split; [done|]); cbn; by rewrite Et.
Qed.

Lemma update_puts_keys k :
  k ∈ update_puts.*1 <-> k = fwd sp update_id \/ k = rev sp update_id \/ k ∈ moved_puts.*1.
Proof.
  unfold update_puts. rewrite fmap_app, elem_of_app. cbn [fmap list_fmap fst]. rewrite !elem_of_cons, elem_of_nil.
  generalize (fwd sp update_id), (rev sp update_id). intros. tauto.
Qed.

Section batch.
Context (extra : list kv_pair) (Hextra : fence_extra sp extra).

(** The keys of rows and counters are written only as rows. *)
Lemma update_graph_key k :
  graph_key sp k = true -> ~ entry_form ix k ->
  batch_look (update_puts ++ extra) moved.*1 s k =
    match put_value [(fwd sp update_id, edge_bytes (updated old)); (rev sp update_id, edge_bytes (updated old))] k with
    | Some v => Some v | None => look s k end.
Proof.
  intros Hg Hn. unfold batch_look. rewrite bool_decide_eq_false_2.
  2:{ intros (index & Hm & ->)%moved_old. apply Hn. eapply moves_form; eauto. }
  unfold update_puts. rewrite !put_value_app, (put_value_none extra), (put_value_none moved_puts); [done| |].
  - intros (index & Hm & ->)%moved_new. apply Hn. eapply moves_form; eauto.
  - intros Hin. apply (fence_extra_keys _ _ _ Hextra) in Hin as ->. by rewrite dirty_key_other in Hg.
Qed.

Lemma update_rows i : id_ok i ->
  batch_look (update_puts ++ extra) moved.*1 s (fwd sp i) =
    match change !! i with Some o => edge_bytes <$> o | None => look s (fwd sp i) end /\
  batch_look (update_puts ++ extra) moved.*1 s (rev sp i) =
    match change !! i with Some o => edge_bytes <$> o | None => look s (rev sp i) end.
Proof.
  intros Hi. rewrite !update_graph_key by (apply graph_key_fwd || apply graph_key_rev || by apply name_not_entry).
  rewrite !put_value_cons. cbn [put_value List.filter last fmap option_fmap option_map].
  rewrite (bool_decide_eq_false_2 (rev sp _ = fwd sp _)), (bool_decide_eq_false_2 (fwd sp _ = rev sp _))
    by (intros E; first [by apply fwd_not_rev in E|by symmetry in E; apply fwd_not_rev in E]).
  unfold change. destruct (decide (update_id = i)) as [<-|Hne].
  - by rewrite lookup_singleton_eq, !bool_decide_eq_true_2 by done.
  - rewrite lookup_singleton_ne by done. pose proof (ur_id Hu).
    rewrite !bool_decide_eq_false_2; [done| |]; intros E; [by apply rev_inj in E|by apply fwd_inj in E].
Qed.

Lemma update_counters k : counter_key sp k -> batch_look (update_puts ++ extra) moved.*1 s k = look s k.
Proof.
  intros Hc. rewrite update_graph_key.
  - rewrite put_value_none; [done|]. cbn [fmap list_fmap fst]. intros [->|[->|[]%not_elem_of_nil]%elem_of_cons]%elem_of_cons;
      by apply row_not_counter in Hc.
  - destruct Hc as (t & v & [-> | ->]); [apply graph_key_in|apply graph_key_out].
  - destruct Hc as (t & v & [-> | ->]); by apply name_not_entry.
Qed.

(** ** The entries *)

Definition entry_ready : Prop := kept = ix -> inferred old = false /\ entries_agree old.

Lemma old_entries_elem k :
  (k ∈ edge_entries kept old <-> exists index, index ∈ indexes_of (eu_type u) kept /\ k = edge_entry index old) /\
  (k ∈ edge_entries kept (updated old) <-> exists index, index ∈ indexes_of (eu_type u) kept /\ k = edge_entry index (updated old)).
Proof.
  pose proof old_id as Eo. injection Eo as _ Et _ _. unfold edge_entries. cbn [updated edge_type]. rewrite Et, !list_elem_of_fmap.
  split; split; intros (index & ? & ?); by exists index.
Qed.

Lemma added_change k : added kept change k <-> k ∈ edge_entries kept (updated old).
Proof.
  unfold added, change. split.
  - intros (i & e & [<- [= <-]]%lookup_singleton_Some & _ & Hk). done.
  - intros Hk. exists update_id, (updated old). rewrite lookup_singleton_eq. split; [done|]. split; [apply updated_inferred|done].
Qed.

Lemma dropped_change k : dropped kept change G k <-> k ∈ edge_entries kept old.
Proof.
  unfold dropped, change. split.
  - intros (i & e & [o [<- _]%lookup_singleton_Some] & He & Hk). rewrite Hold in He. by injection He as ->.
  - intros Hk. exists update_id, old. rewrite lookup_singleton_eq. eauto.
Qed.

(** The entry of an index before the update is not that of another index after it. *)
Lemma entry_same_index l index1 index2 :
  indexes_ok l -> index1 ∈ indexes_of (eu_type u) l -> index2 ∈ indexes_of (eu_type u) l ->
  edge_entry index1 old = edge_entry index2 (updated old) -> index1 = index2.
Proof.
  intros Hl H1' H2' E. pose proof old_id as Eo. pose proof updated_edge_id as Eu. pose proof (ur_id Hu) as Hid.
  eapply edge_entry_inj in E as [E _]; [exact E|exact Hl|by rewrite Eo|by rewrite Eu| |];
    injection Eo as _ Et _ _; cbn; by rewrite Et.
Qed.
Lemma entry_same_old l index1 index2 :
  indexes_ok l -> index1 ∈ indexes_of (eu_type u) l -> index2 ∈ indexes_of (eu_type u) l ->
  edge_entry index1 old = edge_entry index2 old \/ edge_entry index1 (updated old) = edge_entry index2 (updated old) -> index1 = index2.
Proof.
  intros Hl H1' H2' E. pose proof old_id as Eo. pose proof updated_edge_id as Eu. pose proof (ur_id Hu) as Hid.
  pose proof Eo as Et. injection Et as _ Et _ _.
  destruct E as [E|E]; (eapply edge_entry_inj in E as [E _]; [exact E|exact Hl|..]); rewrite ?Eo, ?Eu; try done; cbn; by rewrite Et.
Qed.

(** What happens to the entries of an index of the edge's type. If the update finds
    the indexed values equal it leaves the index alone; otherwise it deletes the old
    entry, and the new one is there exactly if its key is another. *)
Definition entry_moved (s' : MemoryKVStore) (index : IndexDef) : Prop :=
  if slice_eq index_value_eq (index_values index (edge_properties old)) (index_values index (edge_properties (updated old)))
  then look s' (edge_entry index old) = look s (edge_entry index old) /\
       look s' (edge_entry index (updated old)) = look s (edge_entry index (updated old))
  else look s' (edge_entry index old) = None /\
       (is_Some (look s' (edge_entry index (updated old))) <-> edge_entry index old <> edge_entry index (updated old)).

Lemma entries_after s' :
  indexes_ok ix -> (forall k, entry_form ix k -> look s' k = batch_look (update_puts ++ extra) moved.*1 s k) ->
  forall index, index ∈ indexes_of (eu_type u) ix -> entry_moved s' index.
Proof.
  intros Hixo Hl index Hi. unfold entry_moved. pose proof old_id as Eo. injection Eo as _ Et _ _.
  assert (Hfo : entry_form ix (edge_entry index old))
    by (eapply edge_entries_form, list_elem_of_fmap; exists index; split; [done|]; by rewrite Et).
  assert (Hfn : entry_form ix (edge_entry index (updated old)))
    by (eapply edge_entries_form, list_elem_of_fmap; exists index; split; [done|]; cbn; by rewrite Et).
  assert (Hrow : forall k, entry_form ix k -> k ∉ moved_puts.*1 -> put_value (update_puts ++ extra) k = None).
  { intros k Hf Hn. apply put_value_none. rewrite fmap_app, elem_of_app, update_puts_keys.
    intros [[->|[->|?]]|Hx]; [by eapply name_not_entry in Hf..|done|].
    apply (fence_extra_keys _ _ _ Hextra) in Hx as ->. by eapply dirty_key_not_entry. }
  assert (Hmo : edge_entry index old ∈ moved.*1 <-> moves index).
  { rewrite moved_old. split; [|by exists index]. intros (index' & Hm & E).
    assert (index = index') as ->; [|done]. eapply entry_same_old; [done|done|apply Hm|by left]. }
  assert (Hmn : edge_entry index (updated old) ∈ moved_puts.*1 <-> moves index).
  { rewrite moved_new. split; [|by exists index]. intros (index' & Hm & E).
    assert (index = index') as ->; [|done]. eapply entry_same_old; [done|done|apply Hm|by right]. }
  assert (Hno : edge_entry index (updated old) ∈ moved.*1 -> moves index /\ edge_entry index old = edge_entry index (updated old)).
  { rewrite moved_old. intros (index' & Hm & E). assert (index' = index) as ->; [|done].
    eapply entry_same_index; [done|apply Hm|done|done]. }
  assert (Hon : edge_entry index old ∈ moved_puts.*1 -> moves index).
  { rewrite moved_new. intros (index' & Hm & E). assert (index = index') as ->; [|done].
    eapply entry_same_index; [done|done|apply Hm|done]. }
  unfold moves in *. rewrite !Hl by done. unfold batch_look. destruct (slice_eq _ _ _) eqn:Es.
  - rewrite !bool_decide_eq_false_2 by (intros Hx; first [apply Hmo in Hx|apply Hno in Hx as [Hx _]]; by destruct Hx).
    rewrite !Hrow; [done| | |done|]; [done| |]; intros Hx; first [apply Hmn in Hx|apply Hon in Hx]; by destruct Hx.
  - rewrite (bool_decide_eq_true_2 _ (proj2 Hmo (conj Hi eq_refl))). split; [done|].
    case_bool_decide as Hd; [destruct (Hno Hd); split; [by intros []|done]|]. split; [intros _ E; rewrite <- E in Hd; by apply Hd, Hmo|].
    intros _. destruct (put_value (update_puts ++ extra) (edge_entry index (updated old))) eqn:Ep; [done|].
    assert (Hin : edge_entry index (updated old) ∈ (update_puts ++ extra).*1).
    { rewrite fmap_app, elem_of_app, update_puts_keys. left. right. right. by apply Hmn. }
    apply put_value_is_Some in Hin. rewrite Ep in Hin. by destruct Hin.
Qed.

Lemma entries_exact k : entry_ready -> entry_form kept k ->
  is_Some (batch_look (update_puts ++ extra) moved.*1 s k) <->
  added kept change k \/ is_Some (look s k) /\ ~ dropped kept change G k.
Proof.
  intros Hready' Hf. destruct Hkept as [E|E]; [|rewrite E in Hf; by destruct Hf as (? & ?%not_elem_of_nil & _)].
  destruct (Hready' E) as [Hinf Hagree]. destruct (old_entries_elem k) as [Hoe Hne].
  assert (Hmv : forall index, index ∈ indexes_of (eu_type u) kept -> ~ moves index <-> edge_entry index old = edge_entry index (updated old)).
  { intros index Hi. rewrite <- (Hagree index Hi). unfold moves. rewrite <- E.
    destruct (slice_eq _ _ _); split; [done|by intros _ [_ ?]|intros Hn; by destruct Hn|done]. }
  assert (Hm : forall index, moves index -> index ∈ indexes_of (eu_type u) kept) by (intros index [Hi _]; by rewrite E).
  rewrite added_change, dropped_change, Hoe, Hne. unfold batch_look. case_bool_decide as Hd.
  - apply moved_old in Hd as (index & Hmi & ->). split; [by intros []|]. intros [(index' & Hi' & Ee)|[_ Hn]].
    + assert (index = index') as <- by (apply (entry_same_index kept); auto). by apply Hmv in Ee; auto.
    + destruct Hn. exists index. auto.
  - unfold update_puts. rewrite put_value_app, (put_value_none extra).
    2:{ intros Hin. apply (fence_extra_keys _ _ _ Hextra) in Hin as ->. by eapply dirty_key_not_entry. }
    rewrite put_value_app. destruct (put_value moved_puts k) as [v|] eqn:Ev.
    { assert (k ∈ moved_puts.*1) as (index & Hmi & ->)%moved_new by (apply put_value_is_Some; by rewrite Ev).
      split; [intros _; left; exists index; auto|done]. }
    assert (Hnn : k ∉ moved_puts.*1) by (rewrite <- put_value_is_Some, Ev; by intros []).
    rewrite put_value_none.
    2:{ cbn [fmap list_fmap fst]. intros [->|[->|[]%not_elem_of_nil]%elem_of_cons]%elem_of_cons; by apply name_not_entry in Hf. }
    rewrite moved_old in Hd. rewrite moved_new in Hnn.
    assert (Hstay : forall index, index ∈ indexes_of (eu_type u) kept ->
      k = edge_entry index old \/ k = edge_entry index (updated old) -> edge_entry index old = edge_entry index (updated old)).
    { intros index Hi Hk. apply Hmv; [done|]. intros Hmi. destruct Hk as [-> | ->]; [apply Hd|apply Hnn]; by exists index. }
    split.
    + intros Hs. destruct (decide (k ∈ edge_entries kept old)) as [Hk|Hk]; [|right; by rewrite <- Hoe].
      left. apply Hoe in Hk as (index & Hi & Hk). exists index. split; [done|]. rewrite Hk at 1. auto.
    + intros [(index & Hi & Hk)|[Hs _]]; [|done]. apply (rep_index _ _ _ _ Hrep k Hf). exists update_id, old.
      split; [done|]. split; [done|]. apply Hoe. exists index. split; [done|]. rewrite Hk at 1. symmetry. auto.
Qed.
End batch.

(** ** The statement *)

Lemma asserted_change : asserted (changed change G) = {[update_id]} ∪ asserted G.
Proof.
  apply set_eq. intros i. rewrite elem_of_union, elem_of_singleton, !asserted_elem, change_graph.
  destruct (decide (update_id = i)) as [<-|Hne].
  - rewrite lookup_insert_eq. split; [by left|]. intros _. exists (updated old). split; [done|]. apply updated_inferred.
  - rewrite lookup_insert_ne by done. split; [by right|]. by intros [->|?].
Qed.

Lemma counts_one f : counts 1 f {[update_id]} {[f update_id := 1]}.
Proof.
  replace ({[update_id]} : gset EdgeId) with ({[update_id]} ∪ ∅ : gset EdgeId) by set_solver.
  assert (E : bump (f update_id) 1 ∅ = {[f update_id := 1]}) by (unfold bump; by rewrite lookup_empty).
  rewrite <- E. apply (counts_bump 1 f ∅ ∅); [by left|apply counts_empty|set_solver|]. rewrite size_empty. by unfold two63.
Qed.

(** The counters after the batch [s1]. *)
Lemma succeeds_promote s1 (Q : unit -> MemoryKVStore -> Prop) :
  om_wf (data s1) -> counters_of sp (asserted G) s1 -> Z.of_nat (size G) < two63 ->
  (forall s', om_wf (data s') -> (forall k, ~ counter_key sp k -> look s' k = look s1 k) ->
    counters_of sp (asserted (changed change G)) s' -> Q tt s') ->
  succeeds (if inferred old
            then d_call (call_add_counters [(SchemaKey.indeg_counter sp (eu_type u) (rep (vid_num (eu_dst u))), 1);
                                            (SchemaKey.outdeg_counter sp (eu_type u) (rep (vid_num (eu_src u))), 1)])
            else d_ret tt) s1 Q.
Proof.
  intros Hwf Hc Hsz HQ. destruct (inferred old) eqn:Einf.
  - assert (Hn : update_id ∉ asserted G) by (rewrite asserted_elem; intros (e & He & Hi); congruence).
    assert (E : [(SchemaKey.indeg_counter sp (eu_type u) (rep (vid_num (eu_dst u))), 1);
                 (SchemaKey.outdeg_counter sp (eu_type u) (rep (vid_num (eu_src u))), 1)] =
      counter_deltas sp {[in_end update_id := 1]} {[out_end update_id := 1]})
      by (unfold counter_deltas; by rewrite !map_to_list_singleton).
    change (d_call (call_add_counters ?l)) with (apply_counters l). rewrite E.
    eapply (post_apply_counters sp Hsp 1 {[update_id]} _ _ (asserted G) (asserted (changed change G)));
      [apply counts_one|apply counts_one| |done|done| | |done].
    + intros i ->%elem_of_singleton. apply Hu.
    + intros f p. rewrite asserted_change, degree_union by set_solver. lia.
    + rewrite change_graph. pose proof (asserted_size (<[update_id := updated old]> G)) as Ha.
      rewrite map_size_insert_Some in Ha by by eexists. lia.
  - apply post_ret, HQ; [done|done|]. rewrite asserted_change.
    replace ({[update_id]} ∪ asserted G) with (asserted G); [done|].
    assert (update_id ∈ asserted G) by (apply asserted_elem; by exists old). set_solver.
Qed.

Lemma update_edge_found :
  returns (effective_space ctx (eu_space u)) s sp -> condition_value old = Ok true -> entry_ready ->
  Z.of_nat (size G) < two63 -> indexes_ok ix ->
  succeeds (execute_update_edge wall ctx u) s (fun r s' =>
    r = count_result (bs "Updated") 1 /\ graph_rep sp kept (<[update_id := updated old]> G) s' /\
    forall index, index ∈ indexes_of (eu_type u) ix -> entry_moved s' index).
Proof.
  intros Hspace Hcond Hentries Hsz Hixo. destruct Hu as [[Hv1 Hv2] Hsrc Hdst Hs Hid Hp] eqn:EHu. clear EHu.
  update_start Hspace Hs Hsrc Hdst.
  pose proof (rep_rows _ _ _ _ Hrep _ Hid) as Hrow. rewrite Hold in Hrow.
  destruct Hrow as (Hei & _ & b & Hl & _ & Hdec & _). apply post_bind, post_get. rewrite Hl, Hdec. cbn [d_result].
  eapply post_returns; [apply returns_ret|]. unfold condition_value in Hcond.
  apply (post_returns _ _ _ _ true); [destruct (eu_conditions u); [unfold d_outcome; rewrite Hcond|]; apply returns_ret|]. cbn [negb].
  fold (updated old). eapply post_returns; [apply returns_ret|]. eapply post_returns; [by apply (ready_indexes _ _ _ _ Hready)|].
  assert (Emv : update_entries u
    (mkEdge (rep (vid_num (eu_src u))) (rep (vid_num (eu_dst u))) (eu_type u) (eu_ranking u) (edge_properties old))
    (mkEdge (rep (vid_num (eu_src u))) (rep (vid_num (eu_dst u))) (eu_type u) (eu_ranking u) (edge_properties (updated old))) ix = moved).
  { unfold moved, updated. injection Hei as <- <- <- <-. by destruct old. }
  rewrite Emv. destruct (returns_fence ctx sp ix s update_puts Hready) as (extra' & Hextra' & Hfence).
  eapply post_returns; [exact Hfence|]. apply post_bind, post_draw. intros versions.
  apply post_bind, post_batch_apply; [by apply (rep_wf _ _ _ _ Hrep)|]. intros s1 Hwf1 Hlook. apply post_bind.
  apply succeeds_promote; [done| |done|].
  { intros t v Ht Hv. rewrite !Hlook, !update_counters by (done || exists t, v; auto). by apply (rep_counters _ _ _ _ Hrep). }
  intros s2 Hwf2 Hother Hcnt. apply post_ret. split; [done|]. split.
  2:{ apply (entries_after extra' Hextra'); [done|]. intros k Hk. by rewrite Hother, Hlook by by eapply entry_not_counter. }
  rewrite <- change_graph.
  eapply (graph_rep_changed sp kept Hsp Hix); [exact Hrep|apply change_ok|done| | |done].
  - intros i Hi. rewrite !Hother, !Hlook; [by apply update_rows|apply row_not_counter..].
  - intros k Hk. rewrite Hother, Hlook by by eapply entry_not_counter. by apply entries_exact.
Qed.
End update.

(** ** Values that are indexed as they are *)

(** Text is indexed up to 255 bytes; floats have two zeros. *)
Definition exact_value (v : IndexValue) : Prop :=
  match v with
  | IVInt i => i64_ok i
  | IVFloat _ => False
  | IVString x => (length x <= 255)%nat
  | _ => True
  end.

Lemma exact_index_ok v : exact_value v -> index_ok v.
Proof. by destruct v. Qed.

Lemma exact_value_eq v w : exact_value v -> exact_value w -> index_value_eq v w = true <-> index_eq v w.
Proof.
  unfold index_eq. destruct v as [|x|x|x|x], w as [|y|y|y|y]; try done; simpl; intros Hv Hw.
  - by destruct x, y.
  - by rewrite Z.eqb_eq, Z.compare_eq_iff.
  - rewrite bool_decide_eq_true, !Nat.min_l, !take_ge by lia. split.
    + intros ->. by rewrite Nat.compare_refl, (proj2 (bytes_cmp_eq _ _)).
    + destruct (_ ?= _)%nat; [apply bytes_cmp_eq|done|done].
Qed.

Lemma exact_slice_eq vs ws :
  Forall exact_value vs -> Forall exact_value ws -> length vs = length ws ->
  slice_eq index_value_eq vs ws = true <-> IndexValue.encode_all vs = IndexValue.encode_all ws.
Proof.
  unfold IndexValue.encode_all. intros Hvs. revert ws.
  induction Hvs as [|v vs Hv _ IH]; intros ws Hws Hl; destruct Hws as [|w ws Hw Hws]; try done.
  cbn [slice_eq fmap list_fmap concat]. rewrite andb_true_iff, exact_value_eq by done.
  rewrite (IH ws) by (done || simpl in Hl; lia). apply exact_index_ok in Hv, Hw. split.
  - intros [E ->]. apply encode_eq in E as ->; done.
  - intros E. by apply encode_prefix in E.
Qed.

Lemma entries_agree_exact u kept old :
  (forall index, index ∈ indexes_of (eu_type u) kept ->
    Forall exact_value (index_values index (edge_properties old)) /\
    Forall exact_value (index_values index (edge_properties (updated u old)))) ->
  entries_agree u kept old.
Proof.
  intros He index Hi. destruct (He index Hi) as [Ho Hn]. rewrite exact_slice_eq; [|done|done|unfold index_values; by rewrite !length_fmap].
  unfold edge_entry, KeyUtils.edge_index_key. cbn [updated src_vid ranking dst_vid]. split; [by intros ->|].
  intros E. apply app_inv_head in E. by apply app_inv_tail in E.
Qed.

(** ** Text that changes after byte 255 *)

(** The update replaces the text of an indexed field by one that has the same first 255
    bytes, and touches no other field of the index. *)
Definition changes_late (u : EdgeUpdate) (old : EdgeData) (index : IndexDef) : Prop :=
  exists f t1 t2, f ∈ fields index /\ edge_properties old !! f = Some (VString t1) /\ eu_updates u !! f = Some (VString t2) /\
    t1 <> t2 /\ take 255 t1 = take 255 t2 /\ forall g, g ∈ fields index -> g = f \/ eu_updates u !! g = None.

Lemma encode_truncated t1 t2 : take 255 t1 = take 255 t2 -> IndexValue.encode (IVString t1) = IndexValue.encode (IVString t2).
Proof.
  intros E. assert (El : Nat.min (length t1) 255 = Nat.min (length t2) 255).
  { apply (f_equal length) in E. rewrite !length_take in E. lia. }
  assert (Et : forall t : bytes, take (Nat.min (length t) 255) t = take 255 t).
  { intros t. destruct (le_lt_dec (length t) 255); [rewrite Nat.min_l, !take_ge by lia|rewrite Nat.min_r by lia]; done. }
  cbn [IndexValue.encode]. by rewrite !Et, El, E.
Qed.

Lemma slice_eq_lookup vs ws i v w :
  slice_eq index_value_eq vs ws = true -> vs !! i = Some v -> ws !! i = Some w -> index_value_eq v w = true.
Proof.
  revert ws i. induction vs as [|x vs IH]; intros [|y ws] [|i]; try done; cbn [slice_eq]; intros [Hx Hs]%andb_prop.
  - by intros [= <-] [= <-].
  - exact (IH ws i Hs).
Qed.

Lemma late_change_entry u old index :
  inferred old = false -> changes_late u old index ->
  slice_eq index_value_eq (index_values index (edge_properties old)) (index_values index (edge_properties (updated u old))) = false /\
  edge_entry index old = edge_entry index (updated u old).
Proof.
  intros Hinf (f & t1 & t2 & Hf & Ho & Hn & Hne & Htake & Hother).
  assert (Hm : edge_properties old !! INFERRED_MARKER = None).
  { apply eq_None_not_Some. unfold inferred in Hinf. by apply bool_decide_eq_false in Hinf. }
  assert (Hnew : edge_properties (updated u old) !! f = Some (VString t2)).
  { cbn [updated edge_properties]. rewrite lookup_delete_ne by (intros <-; congruence). by apply lookup_union_Some_l. }
  split.
  - apply not_true_iff_false. intros Hs. apply list_elem_of_lookup_1 in Hf as [i Hi].
    pose proof (slice_eq_lookup _ _ i (IVString t1) (IVString t2) Hs) as Hv. unfold index_values in Hv.
    rewrite !list_lookup_fmap, Hi in Hv. cbn [fmap option_fmap option_map] in Hv. rewrite Ho, Hnew in Hv.
    by specialize (Hv eq_refl eq_refl) as ?%bool_decide_eq_true.
  - unfold edge_entry, KeyUtils.edge_index_key. cbn [updated src_vid ranking dst_vid]. do 2 f_equal.
    unfold IndexValue.encode_all, index_values. f_equal. rewrite <- !list_fmap_compose. apply list_fmap_ext.
    intros i g Hg%list_elem_of_lookup_2. unfold compose. destruct (Hother g Hg) as [->|Hgn].
    + rewrite Hnew, Ho. by apply encode_truncated.
    + cbn [updated edge_properties]. do 2 f_equal. destruct (decide (g = INFERRED_MARKER)) as [->|Hgm].
      { by rewrite lookup_delete_eq, Hm. }
      rewrite lookup_delete_ne by done. rewrite lookup_union_r by done. done.
Qed.
