(* ===== verification/EdgeStatements.v ===== *)
(** * The statements on edges, executed

    What the statements on edges do when they run over the staged store
    ([Executor::execute_dml_atomically]) on any backend, and the theorems about
    them. *)

From Stdlib Require Import ZArith Lia Strings.Byte Strings.String.
From stdpp Require Import base tactics list gmap fin_sets.
From S2P Require Import Prelude OrdMap History KVStore KVStoreFacts KVStoreBatch KVDyn Temporal Text SchemaKey Value StorageKey IndexManager IndexFacts.
From S2P Require Import Exec Evaluator Vid SpaceDdl VertexCodec VertexCodecFacts DmlStaging DmlStagingFacts GraphAlgo Dml DmlRules EdgeRep EdgeWrite.
From S2P Require Import EdgeInsertion EdgeDeletion EdgeUpdating EvaluatorFacts.
Import EvalDemo.

(** ** Statements that do not read histories *)

Definition d_current {A} (p : DML A) : Prop := forall c, current_only (p c).

Lemma current_s_bind {A B} (p : Statement A) (f : A -> Statement B) :
  current_only p -> (forall a, current_only (f a)) -> current_only (s_bind p f).
Proof.
  intros Hp Hf. induction p as [[a|e]|T c k IH]; cbn [s_bind]; [by apply Hf|done|].
  destruct Hp as [Hc Hk]. split; [done|]. intros b. by apply IH.
Qed.

Lemma current_bind {A B} (p : DML A) (f : A -> DML B) : d_current p -> (forall a, d_current (f a)) -> d_current (d_bind p f).
Proof. intros Hp Hf c. apply current_s_bind; [apply Hp|]. intros [a c']. apply Hf. Qed.
Lemma current_ret {A} (a : A) : d_current (d_ret a).
Proof. by intros c. Qed.
Lemma current_fail {A} e : d_current (@d_fail A e).
Proof. by intros c. Qed.
Lemma current_result {A} (r : Result ExecutionError A) : d_current (d_result r).
Proof. by destruct r; intros c. Qed.
Lemma current_call {A} (k : kv_call A) : reads_history k = false -> d_current (d_call k).
Proof. by intros Hk c. Qed.
Lemma current_draw {A} (f : tx_clock -> A * tx_clock) : d_current (fun c => Finish (Ok (f c))).
Proof. by intros c. Qed.
Lemma current_for_each {A} (f : A -> DML unit) l : (forall a, d_current (f a)) -> d_current (d_for_each f l).
Proof. intros Hf. induction l as [|a l IH]; [apply current_ret|]. by apply current_bind. Qed.
Lemma current_fold {A X} (f : X -> A -> DML X) x l : (forall x a, d_current (f x a)) -> d_current (d_fold f x l).
Proof. intros Hf. revert x. induction l as [|a l IH]; intros x; [apply current_ret|]. by apply current_bind. Qed.
Lemma current_prog {A} (p : Prog A) : d_current (d_prog p).
Proof.
  intros c. apply current_s_bind; [|done].
  induction p as [a|e|key k IH|pre lim k IH|key v k IH|]; cbn [s_prog]; try done; by split.
Qed.

Create HintDb current.
#[export] Hint Resolve current_ret current_fail current_result current_draw current_prog : current.

(** Take a program apart. *)
Ltac current :=
  repeat first
    [ progress (eauto with current; fail)
    | apply current_bind; [|intros ?]
    | apply current_call; reflexivity
    | apply current_for_each; intros ?
    | apply current_fold; intros ? ?
    | progress case_match ];
  eauto with current.

Section current.
Context `{DebugText} `{ProstMessage PbVertex} `{ProstMessage PbEdge}.
Context `{SerdeJson JsonValue} `{SerdeJson IndexDef} `{FromJson SemanticFlags} `{MessageText} `{EvalPlatform}.
Context (wall : nat -> Z) (ctx : Ctx).

Lemma current_effective_space space : d_current (effective_space ctx space).
Proof. unfold effective_space. current. Qed.
Lemma current_follow n space vid cur : d_current (follow_sameas n space vid cur).
Proof. revert cur. induction n as [|n IH]; intros cur; cbn [follow_sameas]; current. Qed.
Lemma current_indexes space kind : d_current (mutation_indexes ctx space kind).
Proof. unfold mutation_indexes, mutation_space_id. current. Qed.

#[local] Hint Resolve current_effective_space current_follow current_indexes : current.

Lemma current_representative space vid : d_current (representative_of space vid).
Proof. unfold representative_of. current. Qed.
Lemma current_edge_keys space e : d_current (edge_index_keys ctx space e).
Proof. unfold edge_index_keys. current. Qed.
Lemma current_vertex_keys space v : d_current (vertex_index_keys ctx space v).
Proof. unfold vertex_index_keys. current. Qed.
Lemma current_encode_edge e : d_current (encode_edge_io e).
Proof. unfold encode_edge_io. current. Qed.
Lemma current_encode_vertex v : d_current (encode_vertex_io v).
Proof. unfold encode_vertex_io. current. Qed.
Lemma current_versions l : d_current (draw_versions wall l).
Proof. unfold draw_versions. current. Qed.
Lemma current_tombstones l : d_current (draw_tombstones wall l).
Proof. unfold draw_tombstones. current. Qed.
Lemma current_validate space t props : d_current (validate_edge_props space t props).
Proof. unfold validate_edge_props. current. Qed.
Lemma current_fence space puts : d_current (fence_semantic_batch space puts).
Proof. unfold fence_semantic_batch, load_rel_meta. current. Qed.
#[local] Hint Resolve current_representative current_edge_keys current_vertex_keys current_encode_edge current_encode_vertex : current.
#[local] Hint Resolve current_versions current_tombstones current_validate current_fence : current.

Lemma current_write_merged space e : d_current (write_merged_edge wall ctx space e).
Proof. unfold write_merged_edge. current. Qed.
Lemma current_merge_vertex space winner loser : d_current (merge_vertex_blob wall ctx space winner loser).
Proof. unfold merge_vertex_blob. current. Qed.
#[local] Hint Resolve current_write_merged current_merge_vertex : current.
Lemma current_collapse space winner loser : d_current (collapse_node wall ctx space winner loser).
Proof. unfold collapse_node, collect_edge, remove_edge, move_vtype, move_member. current. Qed.
#[local] Hint Resolve current_collapse : current.
Lemma current_merge space triples : d_current (merge_sameas_triples wall ctx space triples).
Proof. unfold merge_sameas_triples, merge_triple, rebuild_asserted_degree_counters. current. Qed.
#[local] Hint Resolve current_merge : current.

Lemma current_insert space edges : d_current (execute_insert_edges wall ctx space edges).
Proof. unfold execute_insert_edges, validate_insert, add_edge, created_vid, replaced_edge, apply_counters. current. Qed.
Lemma current_delete plan : d_current (execute_delete_edge wall ctx plan).
Proof. unfold execute_delete_edge, delete_ref, apply_counters. current. Qed.
Lemma current_update u : d_current (execute_update_edge wall ctx u).
Proof. unfold execute_update_edge. current. Qed.
End current.

(** ** Over the staged store *)

(** What holds after a statement holds of the tables after it was executed over the
    staged store, unless they are unchanged. *)
Lemma staged_post {S A} `{StagedBase S} E (p : DML A) Q space max_memory_mb clock (s s' : S) r :
  d_current p -> tables_wf (base_view s) -> post E p (base_view s) Q ->
  execute_dml_atomically (Some space) max_memory_mb (fun _ => Some (p clock)) s = (r, s') ->
  match r with
  | Ok a => Q a.1 (base_view s')
  | Err _ => base_view s' = base_view s \/ exists a, Q a (base_view s')
  end.
Proof.
  intros Hc Hwf Hp Hrun. apply staged_outcome in Hrun; [|apply Hc|done]. specialize (Hp clock).
  destruct r as [[a c']|e]; [by rewrite Hrun in Hp|]. destruct Hrun as [E'|[[a c'] E']]; [by left|right].
  rewrite E' in Hp. by exists a.
Qed.

(** ** The theorems *)

Section theorems.
Context `{DebugText} `{ProstMessage PbVertex} `{ProstMessage PbEdge} `{!ProstLaws PbEdge}.
Context `{SerdeJson JsonValue} `{SerdeJson IndexDef} `{FromJson SemanticFlags} `{MessageText} `{EvalPlatform}.
Context (wall : nat -> Z) (ctx : Ctx) (sp : bytes) (ix : list IndexDef) (rep : Z -> Z).
Context (Hsp : identifier sp = true) (Hix : indexes_ok ix).

(** C1: INSERT EDGE refines the insertion into a graph: on a space with integer ids
    whose rows, reverse rows, index entries and degree counters represent a graph, a
    statement whose rows fit their schemas, hold values that a record keeps as they are
    and are not of the reserved type [sameAs] succeeds, reports the number of rows, and
    leaves a store that represents the graph with the edges, a later row winning
    over an earlier one; the indexes hold exactly the entries of the asserted edges
    and every counter is the degree of its vertex. *)
Theorem insert_edges_refines G s plan_space edges clock :
  graph_rep sp ix G s -> space_ready ctx sp ix s -> returns (effective_space ctx plan_space) s sp ->
  Forall (edge_ready sp s rep) edges -> Z.of_nat (size G) + Z.of_nat (length edges) < two63 ->
  exists clock' s',
    run_statement (execute_insert_edges wall ctx plan_space edges clock) s =
      (Ok (count_result (bs "Inserted") (Z.of_nat (length edges)), clock'), s') /\
    graph_rep sp ix (insert_all (target rep <$> edges) G) s'.
Proof.
  intros Hrep Hready Hspace He Hsz.
  destruct (succeeds_run _ _ _ clock (insert_edges_correct wall ctx sp ix G s rep Hsp Hix Hrep Hready plan_space edges Hspace He Hsz))
    as (r & clock' & s' & Hrun & -> & Hr). eauto.
Qed.

(** C6: DELETE EDGE on a space with integer ids refines the removal from a graph. It
    fails, with the error for that, if the type is the reserved [sameAs]; otherwise it
    fails exactly if it names an edge that was derived and not asserted. When it
    succeeds it has removed exactly the edges that the references name, whichever
    aliases of merged vertices are used and however often an edge is named, with their
    reverse rows and index entries, lowered the degree counters accordingly, and
    reports how many edges there were. *)
Theorem delete_edge_refines G s plan clock :
  graph_rep sp ix G s -> space_ready ctx sp ix s -> returns (effective_space ctx (de_space plan)) s sp ->
  Forall (ref_ready sp s rep (de_type plan)) (de_refs plan) -> Z.of_nat (size G) < two63 ->
  let ids : gset EdgeId := list_to_set (ref_id rep (de_type plan) <$> de_refs plan) in
  match run_statement (execute_delete_edge wall ctx plan clock) s with
  | (Ok (r, _), s') => de_type plan <> SAMEAS_EDGE /\ ids ∩ dom G ⊆ asserted G /\
      r = count_result (bs "Deleted") (Z.of_nat (size (ids ∩ dom G))) /\ graph_rep sp ix (remove_all ids G) s'
  | (Err e, _) => if bool_decide (de_type plan = SAMEAS_EDGE) then e = err_sameas_delete
                  else e = err_inferred_delete /\ ~ ids ∩ dom G ⊆ asserted G
  end.
Proof.
  intros Hrep Hready Hspace Hr Hsz ids. case_bool_decide as Ht.
  { assert (Hf : post (fun e => e = err_sameas_delete) (execute_delete_edge wall ctx plan) s (fun _ _ => False)).
    { unfold execute_delete_edge. eapply post_returns; [exact Hspace|]. eapply post_returns; [by apply (ready_vids _ _ _ _ Hready)|].
      rewrite bool_decide_eq_true_2 by done. by apply post_fail. }
    specialize (Hf clock). by destruct (run_statement _ _) as [[[r c']|e] s']. }
  pose proof (delete_edge_correct wall ctx sp ix G s rep _ Hsp Hix Hrep Hready plan eq_refl Ht Hspace Hr Hsz clock) as Hd.
  destruct (run_statement _ _) as [[[r c']|e] s']; [destruct Hd as (? & ? & ?); done|].
  destruct Hd as [-> (ref & edge & Hin & He & Hinf)]. split; [done|]. intros Hsub.
  assert (Hi : ref_id rep (de_type plan) ref ∈ asserted G).
  { apply Hsub, elem_of_intersection. split; [|by apply elem_of_dom_2 in He].
    apply elem_of_list_to_set. by apply list_elem_of_fmap_2. }
  apply asserted_elem in Hi as (e & He' & Hn). congruence.
Qed.

(** C17: UPDATE EDGE refines the update of one edge: without such an edge, or if the
    condition is false, it reports 0 and changes nothing; if the condition cannot be
    evaluated it fails with that error; otherwise it reports 1 and the store
    represents the graph in which the edge has the new properties and counts as
    asserted, the counters of a derived edge's ends raised. What becomes of the entries
    of each index is said by [entry_moved]; as a consequence the indexes stay exact if
    the edge was asserted and the update tells two values apart exactly if the index
    does, and nothing is said of their exactness otherwise. *)
Theorem update_edge_refines G s u kept clock :
  kept = ix \/ kept = [] -> graph_rep sp kept G s -> space_ready ctx sp ix s -> returns (effective_space ctx (eu_space u)) s sp ->
  update_ready sp s rep u -> Z.of_nat (size G) < two63 ->
  (forall old, G !! update_id rep u = Some old -> kept = ix -> inferred old = false /\ entries_agree u kept old) ->
  let run := run_statement (execute_update_edge wall ctx u clock) s in
  match G !! update_id rep u with
  | None => exists clock', run = (Ok (count_result (bs "Updated") 0, clock'), s)
  | Some old =>
      match condition_value u old with
      | Err e => run.1 = Err e
      | Ok false => exists clock', run = (Ok (count_result (bs "Updated") 0, clock'), s)
      | Ok true => exists clock' s', run = (Ok (count_result (bs "Updated") 1, clock'), s') /\
          graph_rep sp kept (<[update_id rep u := updated u old]> G) s' /\
          forall index, index ∈ indexes_of (eu_type u) ix -> entry_moved s u old s' index
      end
  end.
Proof.
  intros Hkept Hrep Hready Hspace Hu Hsz Hold run.
  assert (Hok : indexes_ok kept) by (destruct Hkept as [->| ->]; [done|split; constructor]).
  pose proof (update_edge_skipped wall ctx sp ix G s rep u kept Hrep Hready Hu Hspace) as Hskip.
  assert (Hret : forall n, returns (execute_update_edge wall ctx u) s n -> exists clock', run = (Ok (n, clock'), s)).
  { intros n Hn. destruct (succeeds_run _ _ _ clock Hn) as (r & clock' & s' & Hrun & -> & ->). by exists clock'. }
  destruct (G !! update_id rep u) as [old|] eqn:E; [|by apply Hret]. destruct (condition_value u old) as [[]|e] eqn:Ec; [|by apply Hret|].
  - pose proof (update_edge_found wall ctx sp ix G s rep u kept Hkept Hsp Hok Hrep Hready old E Hu Hspace Ec (Hold old eq_refl) Hsz Hix) as Hf.
    destruct (succeeds_run _ _ _ clock Hf) as (r & clock' & s' & Hrun & -> & Hr & Hm). eauto.
  - specialize (Hskip clock). subst run. destruct (run_statement _ _) as [[[r c']|e'] s']; [done|]. by subst.
Qed.

(** C39: UPDATE EDGE loses an index entry whenever a text that is indexed changes only
    after its 255th byte. The update compares the indexed values as they are, an index
    keeps the first 255 bytes of a text; the old entry and the new one have the same
    key, which the batch writes and then deletes. So for every asserted edge, every
    index of its type and every such update whose condition holds, the index held the
    edge before, and afterwards the edge is there with its new properties, asserted,
    and no longer in the index. *)
Theorem update_edge_loses_entry G s u old index clock :
  graph_rep sp ix G s -> space_ready ctx sp ix s -> returns (effective_space ctx (eu_space u)) s sp ->
  update_ready sp s rep u -> Z.of_nat (size G) < two63 ->
  G !! update_id rep u = Some old -> inferred old = false -> condition_value u old = Ok true ->
  index ∈ indexes_of (eu_type u) ix -> changes_late u old index ->
  is_Some (look s (edge_entry index old)) /\
  exists clock' s', run_statement (execute_update_edge wall ctx u clock) s = (Ok (count_result (bs "Updated") 1, clock'), s') /\
    graph_rep sp [] (<[update_id rep u := updated u old]> G) s' /\ inferred (updated u old) = false /\
    edge_entry index (updated u old) ∈ edge_entries ix (updated u old) /\ look s' (edge_entry index (updated u old)) = None.
Proof.
  intros Hrep Hready Hspace Hu Hsz Hold Hinf Hcond Hi Hlate. destruct (late_change_entry u old index Hinf Hlate) as [Hs He].
  destruct (rep_edge_id _ _ _ _ _ _ Hrep Hold) as [Eo Hok]. pose proof Eo as Et. injection Et as _ Et _ _.
  assert (Hin : edge_entry index old ∈ edge_entries ix old).
  { apply list_elem_of_fmap. exists index. by rewrite Et. }
  split; [apply (rep_index _ _ _ _ Hrep); [by eapply edge_entries_form|eauto]|].
  assert (Hrep0 : graph_rep sp [] G s).
  { destruct Hrep as [Hwf Hids Hrows _ Hcnt]. split; [done..| |done]. intros k (x & []%not_elem_of_nil & _). }
  assert (Hok0 : indexes_ok []) by (split; constructor).
  assert (Hent : entry_ready ix u [] old).
  { intros <-. by apply not_elem_of_nil in Hi. }
  pose proof (update_edge_found wall ctx sp ix G s rep u [] (or_intror eq_refl) Hsp Hok0 Hrep0 Hready old Hold Hu Hspace Hcond Hent Hsz Hix) as Hf.
  destruct (succeeds_run _ _ _ clock Hf) as (r & clock' & s' & Hrun & -> & Hr & Hm). exists clock', s'. split; [done|].
  split; [done|]. split; [apply updated_inferred|]. split; [apply list_elem_of_fmap; exists index; split; [done|]; cbn; by rewrite Et|].
  specialize (Hm index Hi). unfold entry_moved in Hm. rewrite Hs in Hm. destruct Hm as [Hm _]. by rewrite <- He.
Qed.

(** C14: INSERT EDGE of such rows executed over the staged store, on any backend, takes
    the tables from those of a graph to those of the graph with the edges or leaves them unchanged: on
    success the new graph is represented, with its reverse rows, index entries and
    counters; after an error, in the statement or in the commit, the tables are the old
    ones, or those of the new graph if the commit had been applied. *)
Theorem insert_edges_atomic {S} `{StagedBase S} G (s s' : S) plan_space edges max_memory_mb clock r :
  tables_wf (base_view s) -> graph_rep sp ix G (base_view s) -> space_ready ctx sp ix (base_view s) ->
  returns (effective_space ctx plan_space) (base_view s) sp ->
  Forall (edge_ready sp (base_view s) rep) edges -> Z.of_nat (size G) + Z.of_nat (length edges) < two63 ->
  execute_dml_atomically (Some sp) max_memory_mb (fun _ => Some (execute_insert_edges wall ctx plan_space edges clock)) s = (r, s') ->
  let done := graph_rep sp ix (insert_all (target rep <$> edges) G) (base_view s') in
  match r with
  | Ok a => a.1 = count_result (bs "Inserted") (Z.of_nat (length edges)) /\ done
  | Err _ => base_view s' = base_view s \/ done
  end.
Proof.
  intros Hwf Hrep Hready Hspace He Hsz Hrun done.
  eapply staged_post in Hrun; [|apply current_insert|done|by apply (insert_edges_correct wall ctx sp ix G _ rep)].
  destruct r as [a|e]; [exact Hrun|]. destruct Hrun as [?|(a & _ & ?)]; [by left|by right].
Qed.
End theorems.

(** ** A space with one edge type and one index *)

Module EdgeDemo.
Export RefProst.

#[export] Instance demo_text : DebugText := {|
  float_display _ := []; debug_props _ := []; debug_vertices _ := []; debug_strings _ := []; debug_set _ := []
|}.
#[export] Instance demo_json : SerdeJson JsonValue := {|
  json_to_vec _ := Err "unsupported"%string;
  json_from_slice b :=
    if bool_decide (b = bs "{knows}") then
      Ok (JObject [(bs "name", JString (bs "knows"));
                   (bs "properties", JArray [JObject [(bs "name", JString (bs "note")); (bs "data_type", JString (bs "String"))]])])
    else Err "syntax"%string
|}.
Definition note_index : IndexDef := {|
  idx_id := 7; idx_space_id := 1; index_name := bs "by_note"; index_type := IndexEdge; schema_id := 1;
  schema_name := bs "knows"; fields := [bs "note"]; field_indices := [0%nat]
|}.
#[export] Instance demo_index_json : SerdeJson IndexDef := {|
  json_to_vec _ := Err "unsupported"%string;
  json_from_slice b := if bool_decide (b = bs "{by_note}") then Ok note_index else Err "syntax"%string
|}.
#[export] Instance demo_flags : FromJson SemanticFlags := fun _ => Err "unsupported"%string.

Definition demo_ctx : Ctx := mkCtx (Some (bs "g")) (Some 1) false 0.
Definition demo_wall (n : nat) : Z := Z.of_nat n.
Definition demo_clock : tx_clock := Build_tx_clock 0 0.

Definition empty_space : MemoryKVStore :=
  {| data := om_insert_all [(SchemaKey.edge (bs "g") (bs "knows"), bs "{knows}"); (index_def_key 1 7, bs "{by_note}")] []; history := [] |}.

Definition knows (src dst : Z) (note : bytes) : EdgeInsert :=
  mkEdgeInsert (VidInt src) (VidInt dst) (bs "knows") 0 {[bs "note" := VString note]}.
(** The edge from 1 to 2 is given twice. *)
Definition demo_edges : list EdgeInsert := [knows 1 2 (bs "old"); knows 2 3 (bs "x"); knows 1 2 (bs "new")].
Definition demo_graph : Graph := insert_all (target id <$> demo_edges) ∅.

Definition filled_space : MemoryKVStore :=
  (run_statement (execute_insert_edges demo_wall demo_ctx [] demo_edges demo_clock) empty_space).2.

Lemma empty_space_wf : om_wf (data empty_space).
Proof. apply om_insert_all_wf, om_wf_nil. Qed.

Lemma empty_space_other b l : b <> x73 -> b <> x5f -> look empty_space (b :: l) = None.
Proof.
  intros H1 H2. unfold look, empty_space. cbn [data]. rewrite om_get_insert_all by apply om_wf_nil.
  unfold SchemaKey.edge, index_def_key, INDEX_DEF_PREFIX. cbn [bs app List.filter fst].
  rewrite !bool_decide_eq_false_2; [done|..]; intros [= E]; congruence.
Qed.

Lemma empty_space_rep : graph_rep (bs "g") [note_index] ∅ empty_space.
Proof.
  split; [apply empty_space_wf|done|..].
  - intros i _. rewrite lookup_empty. unfold fwd, rev. split; by apply empty_space_other.
  - intros k [l ->]%entry_form_byte. rewrite empty_space_other by done. split; [by intros []|].
    intros (i & e & He & _). by rewrite lookup_empty in He.
  - intros t v _ _. assert (Ha : asserted ∅ = ∅) by (apply set_eq; intros i; rewrite asserted_elem, lookup_empty; set_solver).
    assert (Hg : forall l, look empty_space (bs "g" ++ l) = None) by (intros l; by apply empty_space_other).
    rewrite Ha, !degree_empty. unfold SchemaKey.indeg_counter, SchemaKey.outdeg_counter. by rewrite !Hg.
Qed.

Lemma demo_indexes_ok : indexes_ok [note_index].
Proof. split; [apply NoDup_singleton|]. repeat constructor; vm_compute; congruence. Qed.

(** Every read of the demonstration is evaluated. *)
Ltac evaluate := let c := fresh in intros c; vm_compute; auto.

Lemma empty_space_ready : space_ready demo_ctx (bs "g") [note_index] empty_space.
Proof. split; [evaluate|evaluate|]. exists no_meta. evaluate. Qed.

Ltac i64_bounds := unfold i64_ok, two63; lia.

Ltac edge_is_ready :=
  split; [split; reflexivity|evaluate|evaluate|evaluate|split; [reflexivity|split_and!; cbn; i64_bounds]
    |intros k v Hv; cbn [ei_props knows] in Hv; apply lookup_singleton_Some in Hv as [_ <-]; apply text_edge_value|discriminate].

Lemma demo_edges_ready : Forall (edge_ready (bs "g") empty_space id) demo_edges.
Proof. apply Forall_cons; split; [edge_is_ready|]. apply Forall_cons; split; [edge_is_ready|]. apply Forall_singleton. edge_is_ready. Qed.

Lemma filled_space_rep : graph_rep (bs "g") [note_index] demo_graph filled_space.
Proof.
  pose proof (insert_edges_correct demo_wall demo_ctx (bs "g") [note_index] ∅ empty_space id eq_refl demo_indexes_ok
    empty_space_rep empty_space_ready [] demo_edges ltac:(evaluate) demo_edges_ready ltac:(reflexivity) demo_clock) as Hrun.
  unfold filled_space. destruct (run_statement _ _) as [[[r c]|e] s']; [by destruct Hrun|done].
Qed.

Lemma filled_space_ready : space_ready demo_ctx (bs "g") [note_index] filled_space.
Proof. split; [evaluate|evaluate|]. exists no_meta. evaluate. Qed.

(** An edge that is named twice, and one that is not there. *)
Definition demo_delete : DeleteEdgePlan :=
  mkDeleteEdge [] (bs "knows") [(VidInt 1, VidInt 2, 0); (VidInt 1, VidInt 2, 0); (VidInt 5, VidInt 6, 0)].

Lemma demo_refs_ready : Forall (ref_ready (bs "g") filled_space id (bs "knows")) (de_refs demo_delete).
Proof.
  repeat (apply Forall_cons; split;
    [split; [split; reflexivity|evaluate|evaluate|split; [reflexivity|split_and!; cbn; i64_bounds]]|]). by apply Forall_nil.
Qed.

(** [UPDATE EDGE ... WHEN knows.note != NULL] *)
Definition demo_update (note : bytes) : EdgeUpdate :=
  mkEdgeUpdate [] (VidInt 1) (VidInt 2) (bs "knows") 0 {[bs "note" := VString note]}
    (Some (BinaryOp OpNeq (PropRef (bs "knows") (bs "note")) (Lit LNull))).

Lemma demo_update_ready note : update_ready (bs "g") filled_space id (demo_update note).
Proof.
  split; [split; reflexivity|evaluate|evaluate|evaluate|split; [reflexivity|split_and!; cbn; i64_bounds]|].
  intros k v Hv. cbn [eu_updates demo_update] in Hv. apply lookup_singleton_Some in Hv as [_ <-]. apply text_edge_value.
Qed.

Definition demo_old : EdgeData := target id (knows 1 2 (bs "new")).
Lemma demo_graph_old note : demo_graph !! update_id id (demo_update note) = Some demo_old.
Proof. exact (lookup_insert_eq _ (edge_id demo_old) demo_old). Qed.

Lemma demo_entries_agree : entries_agree (demo_update (bs "newer")) [note_index] demo_old.
Proof.
  apply entries_agree_exact. intros index Hi. apply indexes_of_elem in Hi as [->%list_elem_of_singleton _].
  assert (Hn : edge_properties (updated (demo_update (bs "newer")) demo_old) !! bs "note" = Some (VString (bs "newer")))
    by (vm_compute; reflexivity).
  split; apply Forall_singleton; [|rewrite Hn]; apply Nat.leb_le; vm_compute; reflexivity.
Qed.

(** A note of 256 bytes, and one that differs in the last byte. *)
Definition long_note (b : byte) : bytes := repeat x61 255 ++ [b].
Definition long_edges : list EdgeInsert := [knows 1 2 (long_note x61)].
Definition long_old : EdgeData := target id (knows 1 2 (long_note x61)).
Definition long_space : MemoryKVStore :=
  (run_statement (execute_insert_edges demo_wall demo_ctx [] long_edges demo_clock) empty_space).2.

Lemma long_space_rep : graph_rep (bs "g") [note_index] (insert_all [long_old] ∅) long_space.
Proof.
  assert (He : Forall (edge_ready (bs "g") empty_space id) long_edges) by (apply Forall_singleton; edge_is_ready).
  pose proof (insert_edges_correct demo_wall demo_ctx (bs "g") [note_index] ∅ empty_space id eq_refl demo_indexes_ok
    empty_space_rep empty_space_ready [] long_edges ltac:(evaluate) He ltac:(reflexivity) demo_clock) as Hrun.
  unfold long_space. destruct (run_statement _ _) as [[[r c]|e] s']; [by destruct Hrun|done].
Qed.
Lemma long_update_ready note : update_ready (bs "g") long_space id (demo_update note).
Proof.
  split; [split; reflexivity|evaluate|evaluate|evaluate|split; [reflexivity|split_and!; cbn; i64_bounds]|].
  intros k v Hv. cbn [eu_updates demo_update] in Hv. apply lookup_singleton_Some in Hv as [_ <-]. apply text_edge_value.
Qed.
End EdgeDemo.
Import EdgeDemo.

Lemma insert_edges_refines_witness :
  (exists clock' s',
    run_statement (execute_insert_edges demo_wall demo_ctx [] demo_edges demo_clock) empty_space =
      (Ok (count_result (bs "Inserted") 3, clock'), s') /\ graph_rep (bs "g") [note_index] demo_graph s') /\
  edge_properties <$> demo_graph !! ((1, bs "knows", 2, 0) : EdgeId) = Some {[bs "note" := VString (bs "new")]}.
Proof.
  split; [|exact (f_equal (fmap edge_properties) (lookup_insert_eq _ (edge_id (target id (knows 1 2 (bs "new")))) _))].
  apply (insert_edges_refines demo_wall demo_ctx (bs "g") [note_index] id eq_refl demo_indexes_ok ∅ empty_space [] demo_edges demo_clock);
    [apply empty_space_rep|apply empty_space_ready|evaluate|apply demo_edges_ready|vm_compute; reflexivity].
Defined.

Lemma delete_edge_refines_witness :
  exists clock' s', run_statement (execute_delete_edge demo_wall demo_ctx demo_delete demo_clock) filled_space =
      (Ok (count_result (bs "Deleted") 1, clock'), s') /\
    graph_rep (bs "g") [note_index] (remove_all {[(1, bs "knows", 2, 0); (5, bs "knows", 6, 0)]} demo_graph) s'.
Proof.
  pose proof (delete_edge_refines demo_wall demo_ctx (bs "g") [note_index] id eq_refl demo_indexes_ok demo_graph filled_space
    demo_delete demo_clock filled_space_rep filled_space_ready ltac:(evaluate) demo_refs_ready
    ltac:(reflexivity)) as Hd.
  assert (Hrun : exists clock', (run_statement (execute_delete_edge demo_wall demo_ctx demo_delete demo_clock) filled_space).1 =
    Ok (count_result (bs "Deleted") 1, clock')) by (eexists; vm_compute; reflexivity).
  destruct (run_statement _ _) as [r s']. destruct Hrun as [clock' E]. cbn [fst] in E. subst r.
  destruct Hd as (_ & _ & _ & Hr). exists clock', s'. split; [reflexivity|].
  replace ({[(1, bs "knows", 2, 0); (5, bs "knows", 6, 0)]} : gset EdgeId)
    with (list_to_set (ref_id id (de_type demo_delete) <$> de_refs demo_delete) : gset EdgeId); [exact Hr|].
  cbn [de_refs demo_delete fmap list_fmap list_to_set ref_id de_type vid_num]. unfold id. set_solver.
Defined.

Lemma update_edge_refines_witness :
  exists clock' s', run_statement (execute_update_edge demo_wall demo_ctx (demo_update (bs "newer")) demo_clock) filled_space =
      (Ok (count_result (bs "Updated") 1, clock'), s') /\
    graph_rep (bs "g") [note_index] (<[(1, bs "knows", 2, 0) := updated (demo_update (bs "newer")) demo_old]> demo_graph) s'.
Proof.
  pose proof (update_edge_refines demo_wall demo_ctx (bs "g") [note_index] id eq_refl demo_indexes_ok demo_graph filled_space
    (demo_update (bs "newer")) [note_index] demo_clock (or_introl eq_refl) filled_space_rep filled_space_ready ltac:(evaluate)
    (demo_update_ready _) ltac:(reflexivity)) as Hd. cbv zeta in Hd. rewrite demo_graph_old in Hd.
  assert (Ec : condition_value (demo_update (bs "newer")) demo_old = Ok true) by (vm_compute; reflexivity). rewrite Ec in Hd.
  destruct Hd as (clock' & s' & Hrun & Hr & _).
  { intros old [= <-] _. split; [reflexivity|]. exact demo_entries_agree. }
  exists clock', s'. split; [exact Hrun|exact Hr].
Defined.

Lemma insert_edges_atomic_witness :
  exists clock' s', execute_dml_atomically (Some (bs "g")) 1
      (fun _ => Some (execute_insert_edges demo_wall demo_ctx [] demo_edges demo_clock)) empty_space =
      (Ok (count_result (bs "Inserted") 3, clock'), s') /\ graph_rep (bs "g") [note_index] demo_graph s'.
Proof.
  destruct (execute_dml_atomically (Some (bs "g")) 1
      (fun _ => Some (execute_insert_edges demo_wall demo_ctx [] demo_edges demo_clock)) empty_space) as [r s'] eqn:Erun.
  pose proof (insert_edges_atomic demo_wall demo_ctx (bs "g") [note_index] id eq_refl demo_indexes_ok ∅ empty_space s' [] demo_edges
    1 demo_clock r (conj empty_space_wf om_wf_nil) empty_space_rep empty_space_ready ltac:(evaluate) demo_edges_ready
    ltac:(reflexivity) Erun) as Hd.
  assert (Hr : exists clock', r = Ok (count_result (bs "Inserted") 3, clock')).
  { apply (f_equal fst) in Erun. vm_compute in Erun. eexists. symmetry. exact Erun. }
  destruct Hr as [clock' ->]. exists clock', s'. split; [reflexivity|exact (proj2 Hd)].
Defined.

(** The last byte of a note of 256 bytes changes. *)
Lemma update_edge_loses_entry_witness :
  let u := demo_update (long_note x62) in
  is_Some (look long_space (edge_entry note_index long_old)) /\
  exists clock' s', run_statement (execute_update_edge demo_wall demo_ctx u demo_clock) long_space =
      (Ok (count_result (bs "Updated") 1, clock'), s') /\
    look s' (edge_entry note_index (updated u long_old)) = None.
Proof.
  intros u.
  destruct (update_edge_loses_entry demo_wall demo_ctx (bs "g") [note_index] id eq_refl demo_indexes_ok (insert_all [long_old] ∅)
    long_space u long_old note_index demo_clock) as (Hs & clock' & s' & Hrun & _ & _ & _ & Hn).
  - exact long_space_rep.
  - split; [evaluate|evaluate|exists no_meta; evaluate].
  - evaluate.
  - exact (long_update_ready (long_note x62)).
  - reflexivity.
  - exact (lookup_insert_eq _ (edge_id long_old) long_old).
  - vm_compute. reflexivity.
  - vm_compute. reflexivity.
  - left.
  - exists (bs "note"), (long_note x61), (long_note x62). split; [left|]. split; [vm_compute; reflexivity|].
    split; [vm_compute; reflexivity|]. split; [vm_compute; congruence|]. split; [vm_compute; reflexivity|].
    intros g Hg. left. by apply list_elem_of_singleton in Hg.
  - split; [exact Hs|]. exists clock', s'. split; [exact Hrun|exact Hn].
Defined.
