(* ===== verification/Classes.v ===== *)
(** * Classes and shapes

    The class hierarchy of a space ([byoridb-executor/src/executor/class_ddl.rs],
    [byoridb-executor/src/ontology.rs]) and the shapes that vertices are checked
    against ([executor/shape.rs]): the statements that create and drop them, the walk
    over superclasses and the check of a vertex that is written. *)

From Stdlib Require Import ZArith Lia Strings.Byte Strings.String.
From stdpp Require Import base tactics list gmap sorting.
From S2P Require Import Prelude OrdMap History KVStore KVDyn Temporal Text SchemaKey Value StorageKey IndexManager.
From S2P Require Import Exec Evaluator Vid SpaceDdl VertexCodec DmlStaging GraphAlgo Dml.

(** ** Data *)

(** [class_ddl::ClassDef], and the part of it that [ontology::ClassDef] reads. *)
Record ClassDef := mkClass {
  class_name : bytes;
  superclasses : list bytes;
  disjoint : list bytes;
  equivalent_classes : list bytes
}.
Record ClassLinks := mkLinks { link_superclasses : list bytes; link_equivalent : list bytes }.
Definition class_links (d : ClassDef) : ClassLinks := mkLinks (superclasses d) (equivalent_classes d).

Inductive DataType :=
| DBool | DInt8 | DInt16 | DInt32 | DInt64 | DFloat | DDouble | DString | DFixedString (n : Z) | DTimestamp | DDate | DTime
| DDateTime | DGeography.

Inductive ShapeConstraintKind :=
| Required
| OfType (dt : DataType)
| Predicate (e : Expression).
Record ShapeConstraint := mkConstraint { property : bytes; kind : ShapeConstraintKind }.

Record ShapeDef := mkShape { shape_name : bytes; target_class : bytes; constraints : list ShapeConstraint }.

(** The two views of a class record agree: [serde_json] skips fields that a type does
    not have. *)
Class ClassJson `{SerdeJson ClassDef} `{SerdeJson ClassLinks} :=
  class_links_read (d : ClassDef) (b : bytes) : json_to_vec d = Ok b -> json_from_slice b = Ok (class_links d).

(** The order of strings, and at most one element as a list. *)
Definition bytes_le (a b : bytes) : Prop := Is_true (kleb a b).
#[export] Instance bytes_le_dec : RelDecision bytes_le.
Proof. intros a b. unfold bytes_le. apply _. Defined.
Definition option_list {A} (o : option A) : list A := match o with Some a => [a] | None => [] end.

(** ** Ancestors *)

Definition MAX_CLASS_DEPTH : nat := 16.

Record Walk := mkWalk { ancestors : list bytes; seen : gset bytes; next : list bytes }.

Definition visit_parent (w : Walk) (parent : bytes) : Walk :=
  if bool_decide (parent ∈ seen w) then w
  else mkWalk (ancestors w ++ [parent]) ({[parent]} ∪ seen w) (next w ++ [parent]).

Section classes.
Context `{SerdeJson ClassDef} `{SerdeJson ClassLinks} `{SerdeJson ShapeDef} `{SerdeJson JsonValue} `{SerdeJson IndexDef}.
Context `{FromJson SemanticFlags} `{DebugText} `{ProstMessage PbVertex} `{MessageText} `{EvalPlatform}.
Context (ctx : Ctx).

Definition err_corrupt_class (name : bytes) (e : string) : ExecutionError :=
  InvalidOperation (bs "Corrupt class metadata for " ++ name ++ bs ": " ++ error_text e).

Definition visit_class (space : bytes) (w : Walk) (current : bytes) : DML Walk :=
  found <-- d_call (call_get (SchemaKey.class space current)) ;;
  match found with
  | None => d_ret w
  | Some b =>
      match json_from_slice b with
      | Err e => d_fail (err_corrupt_class current e)
      | Ok def => d_ret (foldl visit_parent w (link_superclasses def ++ link_equivalent def))
      end
  end.

Definition err_depth (name : bytes) : ExecutionError :=
  InvalidOperation (bs "class hierarchy of " ++ name ++ bs " exceeds the maximum depth of " ++ dec (Z.of_nat MAX_CLASS_DEPTH)).

(** [depth] more levels are walked from the frontier [next w]. *)
Fixpoint walk_levels (depth : nat) (space name : bytes) (w : Walk) : DML (list bytes) :=
  match next w with
  | [] => d_ret (ancestors w)
  | frontier =>
      match depth with
      | O => d_fail (err_depth name)
      | S depth =>
          w <-- d_fold (visit_class space) (mkWalk (ancestors w) (seen w) []) frontier ;;
          walk_levels depth space name w
      end
  end.
Definition class_ancestors_of (space name : bytes) : DML (list bytes) :=
  walk_levels MAX_CLASS_DEPTH space name (mkWalk [] {[name]} [name]).

(** ** Classes *)

Definition selected_space : DML bytes :=
  match ctx_space ctx with
  | Some space => d_ret space
  | None => d_fail (InvalidOperation (bs "No space selected"))
  end.

Definition load_class (space name : bytes) : DML (option ClassDef) :=
  found <-- d_call (call_get (SchemaKey.class space name)) ;;
  match found with
  | None => d_ret None
  | Some b =>
      match json_from_slice b with
      | Err e => d_fail (err_corrupt_class name e)
      | Ok def => d_ret (Some def)
      end
  end.

Definition read_class (kv : kv_pair) : Result ExecutionError ClassDef :=
  match json_from_slice kv.2 with
  | Ok def => Ok def
  | Err e => Err (InvalidOperation (bs "Corrupt class metadata at " ++ utf8_lossy kv.1 ++ bs ": " ++ error_text e))
  end.
Definition list_classes (space : bytes) : DML (list ClassDef) :=
  rows <-- d_call (call_scan_prefix (SchemaKey.class_prefix space)) ;;
  d_result (collect_results (read_class <$> rows)).

(** The first occurrences, in order. *)
Definition push_new (l : list bytes) (x : bytes) : list bytes := if bool_decide (x ∈ l) then l else l ++ [x].
Definition dedup (l : list bytes) : list bytes := foldl push_new [] l.

Definition exists_class (space name : bytes) : DML bool :=
  found <-- d_call (call_get (SchemaKey.class space name)) ;;
  d_ret (bool_decide (is_Some found)).

Definition check_parent (space name parent : bytes) : DML unit :=
  if bool_decide (parent = name) then
    d_fail (InvalidOperation (bs "Class " ++ name ++ bs " cannot be a subclass of itself"))
  else
  found <-- exists_class space parent ;;
  if negb found then
    d_fail (InvalidOperation (bs "Superclass " ++ parent ++ bs " does not exist as a class"))
  else
  above <-- class_ancestors_of space parent ;;
  if bool_decide (name ∈ above) then
    d_fail (InvalidOperation (bs "SUBCLASS OF " ++ parent ++ bs " would create a cycle through " ++ name))
  else d_ret tt.

(** A target of DISJOINT WITH or EQUIVALENT TO, [clause], among those kept so far. *)
Definition check_target (clause space name : bytes) (targets : list bytes) (target : bytes) : DML (list bytes) :=
  if bool_decide (target = name) then
    d_fail (InvalidOperation (bs "Class " ++ name ++ bs " cannot be " ++ clause ++ bs " itself"))
  else
  found <-- exists_class space target ;;
  if negb found then
    d_fail (InvalidOperation (clause ++ bs " " ++ target ++ bs " does not exist as a class"))
  else d_ret (push_new targets target).

Definition d_json {A} `{SerdeJson A} (a : A) : DML bytes :=
  match json_to_vec a with Ok b => d_ret b | Err e => d_fail (ExSerialization e) end.

(** The record of an equivalent class with the new class added. *)
Definition register_equivalent (space name : bytes) (batch : list kv_pair) (target : bytes) : DML (list kv_pair) :=
  found <-- load_class space target ;;
  match found with
  | None => d_ret batch
  | Some tdef =>
      if bool_decide (name ∈ equivalent_classes tdef) then d_ret batch
      else
        b <-- d_json (mkClass (class_name tdef) (superclasses tdef) (disjoint tdef) (equivalent_classes tdef ++ [name])) ;;
        d_ret (batch ++ [(SchemaKey.class space target, b)])
  end.

Definition handle_create_class (name : bytes) (if_not_exists : bool) (props : JsonValue)
    (supers disjoints equivalents : list bytes) : DML unit :=
  space <-- selected_space ;;
  let class_key := SchemaKey.class space name in
  found <-- d_call (call_get class_key) ;;
  match found with
  | Some _ =>
      if if_not_exists then d_ret tt
      else d_fail (InvalidOperation (bs "Class " ++ name ++ bs " already exists"))
  | None =>
      let tag_key := SchemaKey.tag space name in
      tag <-- d_call (call_get tag_key) ;;
      match tag with
      | Some _ =>
          d_fail (InvalidOperation (bs "Tag " ++ name ++ bs " already exists; classes and tags share one namespace"))
      | None =>
          let parents := dedup supers in
          d_for_each (check_parent space name) parents ;;-
          disjoint_classes <-- d_fold (check_target (bs "DISJOINT WITH") space name) [] disjoints ;;
          equivalent <-- d_fold (check_target (bs "EQUIVALENT TO") space name) [] equivalents ;;
          tag_data <-- d_json (JObject [(bs "name", JString name); (bs "properties", props)]) ;;
          class_def <-- d_json (mkClass name parents disjoint_classes equivalent) ;;
          batch <-- d_fold (register_equivalent space name) [(tag_key, tag_data); (class_key, class_def)] equivalent ;;
          d_call (call_batch_put batch)
      end
  end.

(** The references that keep a class from being dropped. *)
Definition class_reference (name : bytes) (d : ClassDef) : option bytes :=
  if negb (bool_decide (class_name d = name)) &&
     (bool_decide (name ∈ disjoint d) || bool_decide (name ∈ equivalent_classes d))
  then Some (bs "class " ++ class_name d) else None.

Definition edge_reference (space name : bytes) (kv : kv_pair) : Result ExecutionError (option bytes) :=
  match json_from_slice (A := JsonValue) kv.2 with
  | Err e => Err (ExSerialization e)
  | Ok schema =>
      match (v ← json_get (bs "name") schema; json_as_str v) with
      | None => Err (InvalidOperation (bs "Invalid edge schema name while checking class references"))
      | Some edge =>
          if negb (bool_decide (kv.1 = SchemaKey.edge space edge)) then
            Err (InvalidOperation (bs "Edge schema key/name mismatch while checking class references"))
          else
          match json_get (bs "semantics") schema with
          | None => Ok None
          | Some v =>
              match from_json_value v with
              | Err e => Err (ExSerialization e)
              | Ok semantics =>
                  Ok (if bool_decide (domain semantics = Some name) || bool_decide (range semantics = Some name)
                      then Some (bs "edge " ++ edge) else None)
              end
          end
      end
  end.

Definition shape_reference (space name : bytes) (kv : kv_pair) : Result ExecutionError (option bytes) :=
  match json_from_slice kv.2 with
  | Err e => Err (ExSerialization e)
  | Ok shape =>
      if negb (bool_decide (kv.1 = SchemaKey.shape space (shape_name shape))) then
        Err (InvalidOperation (bs "Shape schema key/name mismatch while checking class references"))
      else Ok (if bool_decide (target_class shape = name) then Some (bs "shape " ++ shape_name shape) else None)
  end.

Definition index_reference (name : bytes) (index : IndexDef) : option bytes :=
  if bool_decide (schema_name index = name) then Some (bs "index " ++ index_name index) else None.

Definition names (l : list (option bytes)) : list bytes := omap id l.

Definition handle_drop_class (name : bytes) (if_exists : bool) : DML unit :=
  space <-- selected_space ;;
  let class_key := SchemaKey.class space name in
  found <-- d_call (call_get class_key) ;;
  match found with
  | None =>
      if if_exists then d_ret tt
      else d_fail (InvalidOperation (bs "Class " ++ name ++ bs " not found"))
  | Some _ =>
      classes <-- list_classes space ;;
      let children := class_name <$> List.filter (fun d => bool_decide (name ∈ superclasses d)) classes in
      if negb (bool_decide (children = [])) then
        d_fail (InvalidOperation (bs "Class " ++ name ++ bs " has subclasses (" ++ join (bs ", ") children ++
          bs "); drop them first"))
      else
      classes <-- list_classes space ;;
      edge_rows <-- d_call (call_scan_prefix (bs "space:" ++ space ++ bs ":edge:")) ;;
      edges <-- d_result (collect_results (edge_reference space name <$> edge_rows)) ;;
      shape_rows <-- d_call (call_scan_prefix (SchemaKey.shape_prefix space)) ;;
      shapes <-- d_result (collect_results (shape_reference space name <$> shape_rows)) ;;
      indexes <-- mutation_indexes ctx space IndexTag ;;
      let references := names (class_reference name <$> classes) ++ names edges ++ names shapes ++
                        names (index_reference name <$> indexes) in
      if negb (bool_decide (references = [])) then
        d_fail (InvalidOperation (bs "Class " ++ name ++ bs " is referenced by " ++
          join (bs ", ") (merge_sort bytes_le references) ++
          bs "; remove those references before dropping it"))
      else d_call (call_batch_delete [class_key; SchemaKey.tag space name])
  end.

(** ** Shapes *)

Definition handle_create_shape (name : bytes) (if_not_exists : bool) (target : bytes) (cs : list ShapeConstraint) :
    DML unit :=
  space <-- selected_space ;;
  let shape_key := SchemaKey.shape space name in
  found <-- d_call (call_get shape_key) ;;
  match found with
  | Some _ =>
      if if_not_exists then d_ret tt
      else d_fail (InvalidOperation (bs "Shape " ++ name ++ bs " already exists"))
  | None =>
      is_class <-- d_call (call_get (SchemaKey.class space target)) ;;
      is_tag <-- d_call (call_get (SchemaKey.tag space target)) ;;
      match is_class, is_tag with
      | None, None =>
          d_fail (InvalidOperation (bs "Shape target " ++ target ++ bs " does not exist as a class or tag"))
      | _, _ =>
          if bool_decide (length cs = 0%nat) then
            d_fail (InvalidOperation (bs "Shape must declare at least one constraint"))
          else
            b <-- d_json (mkShape name target cs) ;;
            d_call (call_put shape_key b)
      end
  end.

Definition handle_drop_shape (name : bytes) (if_exists : bool) : DML unit :=
  space <-- selected_space ;;
  let shape_key := SchemaKey.shape space name in
  found <-- d_call (call_get shape_key) ;;
  match found with
  | None =>
      if if_exists then d_ret tt
      else d_fail (InvalidOperation (bs "Shape " ++ name ++ bs " not found"))
  | Some _ => d_call (call_delete shape_key)
  end.

Definition read_shape (kv : kv_pair) : Result ExecutionError ShapeDef :=
  match json_from_slice kv.2 with
  | Ok def => Ok def
  | Err e => Err (InvalidOperation (bs "Corrupt shape metadata at " ++ utf8_lossy kv.1 ++ bs ": " ++ error_text e))
  end.
Definition load_shapes (space : bytes) : DML (list ShapeDef) :=
  rows <-- d_call (call_scan_prefix (SchemaKey.shape_prefix space)) ;;
  d_result (collect_results (read_shape <$> rows)).

Definition value_matches_type (v : Value) (dt : DataType) : bool :=
  match v with
  | VNull _ | VEmpty => true
  | VBool _ => match dt with DBool => true | _ => false end
  | VInt _ => match dt with DInt8 | DInt16 | DInt32 | DInt64 | DTimestamp | DFloat | DDouble => true | _ => false end
  | VFloat _ => match dt with DFloat | DDouble => true | _ => false end
  | VString _ => match dt with DString | DFixedString _ => true | _ => false end
  | VDate _ => match dt with DDate => true | _ => false end
  | VTime _ => match dt with DTime => true | _ => false end
  | VDateTime _ => match dt with DDateTime | DTimestamp => true | _ => false end
  | VGeography _ => match dt with DGeography => true | _ => false end
  | _ => true
  end.

(** The derived [Debug] text of a data type. *)
Definition data_type_debug (dt : DataType) : bytes :=
  match dt with
  | DBool => bs "Bool" | DInt8 => bs "Int8" | DInt16 => bs "Int16" | DInt32 => bs "Int32" | DInt64 => bs "Int64"
  | DFloat => bs "Float" | DDouble => bs "Double" | DString => bs "String"
  | DFixedString n => bs "FixedString(" ++ dec n ++ bs ")"
  | DTimestamp => bs "Timestamp" | DDate => bs "Date" | DTime => bs "Time" | DDateTime => bs "DateTime"
  | DGeography => bs "Geography"
  end.

Definition is_absent (v : option Value) : bool :=
  match v with None | Some (VNull _) | Some VEmpty => true | _ => false end.

(** The violation of one constraint, if there is one; the outer [None] is a panic. *)
Definition constraint_violation (props : gmap bytes Value) (c : ShapeConstraint) : option (option (bytes * bytes)) :=
  match kind c with
  | Required =>
      Some (if is_absent (props !! property c) then Some (property c, bs "required property is missing") else None)
  | OfType dt =>
      Some (match props !! property c with
            | Some v =>
                if negb (is_absent (Some v)) && negb (value_matches_type v dt)
                then Some (property c, bs "expected type " ++ data_type_debug dt) else None
            | None => None
            end)
  | Predicate expr =>
      match evaluate_condition expr (with_current empty_context props) with
      | None => None
      | Some (Ok true) => Some None
      | Some _ => Some (Some (property c, bs "value predicate not satisfied"))
      end
  end.

(** All violations of a list of constraints; [None] is a panic. *)
Fixpoint violations (props : gmap bytes Value) (cs : list ShapeConstraint) : option (list (bytes * bytes)) :=
  match cs with
  | [] => Some []
  | c :: cs =>
      match constraint_violation props c with
      | None => None
      | Some v => match violations props cs with Some vs => Some (option_list v ++ vs) | None => None end
      end
  end.
Definition shape_violations (shape : ShapeDef) (props : gmap bytes Value) : option (list (bytes * bytes)) :=
  violations props (constraints shape).

(** Tags and their ancestors. *)
Definition add_classes (space : bytes) (set : gset bytes) (tag : bytes) : DML (gset bytes) :=
  above <-- class_ancestors_of space tag ;;
  d_ret (list_to_set above ∪ ({[tag]} ∪ set)).

Definition check_shape (props : gmap bytes Value) (class_set : gset bytes) (shape : ShapeDef) : DML unit :=
  if negb (bool_decide (target_class shape ∈ class_set)) then d_ret tt
  else
  match shape_violations shape props with
  | None => d_fail PANIC
  | Some [] => d_ret tt
  | Some ((prop, reason) :: _) =>
      d_fail (InvalidOperation (bs "shape " ++ shape_name shape ++ bs " violated on property " ++ prop ++ bs ": " ++ reason))
  end.

Definition validate_write_shapes (space : bytes) (tag_names : list bytes) (props : gmap bytes Value) : DML unit :=
  shapes <-- load_shapes space ;;
  if bool_decide (length shapes = 0%nat) then d_ret tt
  else
  class_set <-- d_fold (add_classes space) ∅ tag_names ;;
  d_for_each (check_shape props class_set) shapes.

(** ** The classes of a vertex *)

(** Declared tags, inferred types and the superclasses of both; [None] without the
    vertex. *)
Definition add_direct_class (space : bytes) (set : gset bytes) (class : bytes) : DML (gset bytes) :=
  if bool_decide (class ∈ set) then d_ret set
  else
  above <-- class_ancestors_of space class ;;
  d_ret (list_to_set above ∪ ({[class]} ∪ set)).

Definition vertex_class_set (space : bytes) (vid : Z) : DML (option (gset bytes)) :=
  found <-- d_call (call_get (SchemaKey.vertex space vid)) ;;
  match found with
  | None => d_ret None
  | Some blob =>
      v <-- d_result (decode_vertex_checked vid blob) ;;
      rows <-- d_call (call_scan_prefix (SchemaKey.vtype_prefix space vid)) ;;
      let direct := (tag_name <$> tags v) ++ omap (fun kv => SchemaKey.vtype_class_from_key kv.1) rows in
      set <-- d_fold (add_direct_class space) ∅ direct ;;
      d_ret (Some set)
  end.

(** ** CHECK SHAPE *)

(** The properties of a vertex, bare and qualified by their tag; a later tag wins. *)
Definition flatten_tag (m : gmap bytes Value) (tag : TagData) : gmap bytes Value :=
  foldl (fun m kv => <[kv.1 := kv.2]> (<[tag_name tag ++ bs "." ++ kv.1 := kv.2]> m)) m (map_to_list (tag_properties tag)).
Definition flatten_tags (l : list TagData) : gmap bytes Value := foldl flatten_tag ∅ l.

Definition flatten_vertex_props (b : bytes) : Result ExecutionError (gmap bytes Value) :=
  match decode_vertex b with
  | Ok v => Ok (flatten_tags (tags v))
  | Err e => Err (ExIo (codec_text e))
  end.

Definition vid_from_vertex_key (key : bytes) : option Z := if utf8_valid key then parse_i64 (rsplit_colon key) else None.

Definition vid_value (v : VidValue) : Value := match v with ValueInt i => VInt i | ValueString s => VString s end.

(** The rows of one violated shape. *)
Definition report_row (space : bytes) (vid_type : SpaceVidType) (vid : Z) (shape : ShapeDef)
    (rows : list (list Value)) (violation : bytes * bytes) : DML (list (list Value)) :=
  shown <-- d_prog (display_vid space vid_type vid) ;;
  d_ret (rows ++ [[vid_value shown; VString (shape_name shape); VString violation.1; VString violation.2]]).

Definition report_shape (space : bytes) (vid_type : SpaceVidType) (vid : Z) (props : gmap bytes Value)
    (rows : list (list Value)) (shape : ShapeDef) : DML (list (list Value)) :=
  match shape_violations shape props with
  | None => d_fail PANIC
  | Some vs => d_fold (report_row space vid_type vid shape) rows vs
  end.

Definition report_vertex (space : bytes) (vid_type : SpaceVidType) (shapes : list ShapeDef)
    (rows : list (list Value)) (kv : kv_pair) : DML (list (list Value)) :=
  match vid_from_vertex_key kv.1 with
  | None => d_ret rows
  | Some vid =>
      set <-- vertex_class_set space vid ;;
      match set with
      | None => d_ret rows
      | Some class_set =>
          let in_scope := List.filter (fun s => bool_decide (target_class s ∈ class_set)) shapes in
          match in_scope with
          | [] => d_ret rows
          | _ =>
              props <-- d_result (flatten_vertex_props kv.2) ;;
              d_fold (report_shape space vid_type vid props) rows in_scope
          end
      end
  end.

Definition execute_check_shape : DML ExecutorResult :=
  space <-- selected_space ;;
  let result rows := mkResult [bs "vid"; bs "shape"; bs "property"; bs "constraint"] rows 0 in
  shapes <-- load_shapes space ;;
  match shapes with
  | [] => d_ret (result [])
  | _ =>
      vid_type <-- d_prog (space_vid_type (is_distributed ctx) space) ;;
      vertices <-- d_call (call_scan_prefix (SchemaKey.vertex_prefix space)) ;;
      rows <-- d_fold (report_vertex space vid_type shapes) [] vertices ;;
      d_ret (result rows)
  end.

(** [ontology::members_of]. *)
Definition members_of (space : bytes) (rep : Z) : DML (list Z) :=
  rows <-- d_call (call_scan_prefix (SchemaKey.sameas_members_prefix space rep)) ;;
  d_ret (omap (fun kv => SchemaKey.sameas_member_from_key kv.1) rows).
End classes.
