(* ===== verification/ClassFacts.v ===== *)
(** * The class hierarchy

    The walk over the superclasses of a class returns exactly the classes above it, or
    fails if one of them is too far; statements on classes keep the hierarchy closed,
    symmetric in its equivalences and free of cycles, and change nothing when they
    fail. *)

From Stdlib Require Import ZArith Lia Strings.Byte Strings.String.
From stdpp Require Import base tactics list gmap relations sorting.
From S2P Require Import Prelude OrdMap History KVStore KVStoreFacts KVDyn Temporal Text SchemaKey Value IndexManager Codecs.
From S2P Require Import Exec Evaluator SpaceDdl DmlStaging Dml DmlRules EdgeWrite Classes.

Notation Hierarchy := (gmap bytes ClassDef).

(** ** Reachability *)

(** The classes directly above a class: superclasses and equivalent classes. *)
Definition above (C : Hierarchy) (c : bytes) : list bytes :=
  match C !! c with Some d => superclasses d ++ equivalent_classes d | None => [] end.
Definition link (C : Hierarchy) (c p : bytes) : Prop := p ∈ above C c.

(** ** The walk, level by level *)

Definition walk_ok (w : Walk) (name : bytes) : Prop :=
  name ∈ seen w /\ NoDup (ancestors w) /\ forall c, c ∈ ancestors w <-> c ∈ seen w /\ c <> name.

Lemma visit_parent_spec w name p :
  walk_ok w name ->
  walk_ok (visit_parent w p) name /\
  (forall c, c ∈ seen (visit_parent w p) <-> c ∈ seen w \/ c = p) /\
  (forall c, c ∈ next (visit_parent w p) <-> c ∈ next w \/ (c = p /\ c ∉ seen w)).
Proof.
  intros (Hn & Hnd & Ha). unfold visit_parent. case_bool_decide as Hp; cbn [ancestors seen next].
  - split; [done|]. split; intros c; set_solver.
  - split; [|split; intros c; set_solver]. unfold walk_ok; cbn [ancestors seen]. split; [set_solver|]. split.
    + apply NoDup_app. split; [done|]. split; [|apply NoDup_singleton]. intros c Hc. apply Ha in Hc. set_solver.
    + intros c. rewrite elem_of_app, Ha. set_solver.
Qed.

Lemma visit_parents_spec ps w name :
  walk_ok w name ->
  walk_ok (foldl visit_parent w ps) name /\
  (forall c, c ∈ seen (foldl visit_parent w ps) <-> c ∈ seen w \/ c ∈ ps) /\
  (forall c, c ∈ next (foldl visit_parent w ps) <-> c ∈ next w \/ (c ∈ ps /\ c ∉ seen w)).
Proof.
  revert w. induction ps as [|p ps IH]; intros w Hw; cbn [foldl].
  { split; [done|]. split; intros c; set_solver. }
  destruct (visit_parent_spec w name p Hw) as (Hw1 & Hs1 & Hn1).
  destruct (IH (visit_parent w p) Hw1) as (Hw2 & Hs2 & Hn2). split; [done|]. split; intros c.
  - rewrite Hs2, Hs1, elem_of_cons. tauto.
  - rewrite Hn2, Hs1, Hn1, elem_of_cons. destruct (decide (c = p)) as [->|]; tauto.
Qed.

(** A level of the walk in a hierarchy. *)
Definition level (C : Hierarchy) (w : Walk) : Walk :=
  foldl visit_parent (mkWalk (ancestors w) (seen w) []) (next w ≫= above C).

(** After [k] levels the walk has seen what is at most [k] links away, and its
    frontier is what is exactly [k] links away. *)
Definition walked (C : Hierarchy) (name : bytes) (k : nat) (w : Walk) : Prop :=
  walk_ok w name /\
  (forall c, c ∈ seen w <-> bsteps (link C) k name c) /\
  (forall c, c ∈ next w <-> bsteps (link C) k name c /\ forall m, (m < k)%nat -> ~ bsteps (link C) m name c).

Lemma walked_start C name : walked C name 0 (mkWalk [] {[name]} [name]).
Proof.
  assert (Hb : forall c, bsteps (link C) 0 name c <-> c = name).
  { intros c. split; [by inversion 1|intros ->; constructor]. }
  split; [|split]; cbn [ancestors seen next].
  - split; cbn [ancestors seen]; [set_solver|]. split; [constructor|set_solver].
  - intros c. rewrite Hb. set_solver.
  - intros c. rewrite Hb, list_elem_of_singleton. split; [intros ->; split; [done|lia]|tauto].
Qed.

Lemma bsteps_last {A} (R : relation A) n x z :
  bsteps R (S n) x z <-> bsteps R n x z \/ exists y, bsteps R n x y /\ R y z.
Proof.
  split.
  - intros (k & Hk & Hs)%bsteps_nsteps. destruct (decide (k = S n)) as [->|].
    + right. apply nsteps_inv_r in Hs as (y & Hy & HR). exists y. split; [|done]. apply bsteps_nsteps. eauto.
    + left. apply bsteps_nsteps. exists k. split; [lia|done].
  - intros [Hs|(y & Hy & HR)]; [by apply bsteps_S|by eapply bsteps_r].
Qed.

Lemma walked_step C name k w : walked C name k w -> walked C name (S k) (level C w).
Proof.
  intros (Hok & Hseen & Hnext). unfold level.
  destruct (visit_parents_spec (next w ≫= above C) (mkWalk (ancestors w) (seen w) []) name Hok) as (Hok' & Hs & Hn).
  cbn [seen next] in Hs, Hn.
  assert (Hstep : forall c, bsteps (link C) (S k) name c <-> c ∈ seen w \/ c ∈ next w ≫= above C).
  { intros c. rewrite list_elem_of_bind, bsteps_last, Hseen. split.
    - intros [Hc|(y & Hy & Hl)]; [by left|]. destruct (decide (c ∈ seen w)) as [Hc|Hc]; [left; by apply Hseen|].
      right. exists y. split; [done|]. apply Hnext. split; [done|]. intros m Hm Hb. apply Hc, Hseen.
      apply (bsteps_weaken (S m)); [lia|]. by eapply bsteps_r.
    - intros [Hc|(y & Hl & Hy)]; [by left|]. right. exists y. split; [by apply Hnext|done]. }
  split; [done|]. split; intros c.
  - by rewrite Hs, Hstep.
  - rewrite Hn, Hstep. split.
    + intros [?%not_elem_of_nil|[Hc Hc']]; [done|]. split; [by right|]. intros m Hm Hb. apply Hc', Hseen.
      eapply bsteps_weaken; [|done]. lia.
    + intros [Hc Hfar]. right. assert (c ∉ seen w) by (intros Hs'%Hseen; by apply (Hfar k); [lia|]). tauto.
Qed.

Definition walk_at (C : Hierarchy) (name : bytes) (k : nat) : Walk := Nat.iter k (level C) (mkWalk [] {[name]} [name]).

Lemma walk_at_walked C name k : walked C name k (walk_at C name k).
Proof. induction k as [|k IH]; [apply walked_start|by apply walked_step]. Qed.

#[export] Instance bsteps_link_dec C k name c : Decision (bsteps (link C) k name c).
Proof.
  destruct (decide (c ∈ seen (walk_at C name k))) as [Hc|Hc]; [left|right]; by rewrite <- (proj1 (proj2 (walk_at_walked C name k))).
Defined.

(** Everything above [name] is fewer than [k] links away. *)
Definition shallow (C : Hierarchy) (k : nat) (name : bytes) : Prop :=
  forall c, rtc (link C) name c -> bsteps (link C) (Nat.pred k) name c.

(** The frontier is empty exactly if nothing is [k] links away. *)
Lemma walk_at_end C name k : (0 < k)%nat -> next (walk_at C name k) = [] <-> shallow C k name.
Proof.
  destruct k as [|k]; [lia|]. intros _. destruct (walk_at_walked C name (S k)) as (_ & Hseen & Hnext). split.
  - intros Hnil. unfold shallow. apply (rtc_ind_r (fun c => bsteps (link C) k name c)); [constructor|].
    intros y z _ Hl Hy. destruct (decide (bsteps (link C) k name z)) as [|Hz]; [done|]. exfalso.
    assert (z ∈ next (walk_at C name (S k))) as Hin; [|rewrite Hnil in Hin; by apply not_elem_of_nil in Hin].
    apply Hnext. split; [by eapply bsteps_r|]. intros m Hm Hb. apply Hz. eapply bsteps_weaken; [|done]. lia.
  - intros Hs. destruct (next (walk_at C name (S k))) as [|c l] eqn:E; [done|]. exfalso.
    destruct (proj1 (Hnext c)) as [Hc Hfar]; [left|]. apply (Hfar k); [lia|]. apply (Hs c). by eapply rtc_bsteps_2.
Qed.

Lemma shallow_mono C k m name : (k <= m)%nat -> shallow C k name -> shallow C m name.
Proof. intros Hle Hs c Hc. eapply bsteps_weaken; [|by apply Hs]. lia. Qed.

(** ** Statements that write at their end only *)

Definition read_call {A} (k : kv_call A) : bool :=
  match k with call_get _ | call_scan_prefix _ | call_batch_get _ => true | _ => false end.
(** Writes that succeed on the in-memory store. *)
Definition write_call {A} (k : kv_call A) : bool :=
  match k with call_put _ _ | call_delete _ | call_batch_put _ | call_batch_delete _ => true | _ => false end.

Fixpoint s_reads {A} (p : Statement A) : Prop :=
  match p with Finish _ => True | Call _ c k => read_call c = true /\ forall b, s_reads (k b) end.
Fixpoint s_write_last {A} (p : Statement A) : Prop :=
  match p with
  | Finish _ => True
  | Call _ c k => (read_call c = true /\ forall b, s_write_last (k b)) \/
                  (write_call c = true /\ forall b, exists a, k b = Finish (Ok a))
  end.
Definition d_reads {A} (p : DML A) : Prop := forall c, s_reads (p c).
Definition d_write_last {A} (p : DML A) : Prop := forall c, s_write_last (p c).

Lemma read_call_state {A} (k : kv_call A) s : read_call k = true -> (mem_run k s).2 = s.
Proof. by destruct k. Qed.

Lemma write_call_ok {A} (k : kv_call A) s : write_call k = true -> exists a s', mem_run k s = (Ok a, s').
Proof. destruct k; try done; intros _; by do 2 eexists. Qed.

(** A statement that fails has changed nothing. *)
Lemma write_last_error {A} (p : Statement A) s e s' :
  s_write_last p -> run_statement p s = (Err e, s') -> s' = s.
Proof.
  revert s. induction p as [r|B c k IH]; intros s Hp; cbn [run_statement]; [by intros [= _ <-]|].
  unfold dyn_call, memory_dyn. destruct Hp as [[Hr Hk]|[Hw Hk]].
  - pose proof (read_call_state c s Hr) as Hs. destruct (mem_run c s) as [[b|e'] s1]; simpl in Hs; subst s1; [by apply IH|by intros [= _ <-]].
  - destruct (write_call_ok c s Hw) as (b & s1 & ->). destruct (Hk b) as [a ->]. done.
Qed.

Lemma s_reads_bind {A B} (p : Statement A) (f : A -> Statement B) :
  s_reads p -> (forall a, s_reads (f a)) -> s_reads (s_bind p f).
Proof. intros Hp Hf. induction p as [[a|e]|T c k IH]; simpl in *; [done|done|]. destruct Hp. auto. Qed.
Lemma s_last_bind {A B} (p : Statement A) (f : A -> Statement B) :
  s_reads p -> (forall a, s_write_last (f a)) -> s_write_last (s_bind p f).
Proof. intros Hp Hf. induction p as [[a|e]|T c k IH]; simpl in *; [done|done|]. destruct Hp. auto. Qed.

Lemma reads_bind {A B} (p : DML A) (f : A -> DML B) : d_reads p -> (forall a, d_reads (f a)) -> d_reads (d_bind p f).
Proof. intros Hp Hf c. apply s_reads_bind; [apply Hp|]. intros [a c']. apply Hf. Qed.
Lemma last_bind {A B} (p : DML A) (f : A -> DML B) : d_reads p -> (forall a, d_write_last (f a)) -> d_write_last (d_bind p f).
Proof. intros Hp Hf c. apply s_last_bind; [apply Hp|]. intros [a c']. apply Hf. Qed.
Lemma reads_ret {A} (a : A) : d_reads (d_ret a).
Proof. by intros c. Qed.
Lemma reads_fail {A} e : d_reads (@d_fail A e).
Proof. by intros c. Qed.
Lemma reads_result {A} (r : Result ExecutionError A) : d_reads (d_result r).
Proof. by destruct r. Qed.
Lemma reads_call {A} (k : kv_call A) : read_call k = true -> d_reads (d_call k).
Proof. by intros Hk c. Qed.
Lemma reads_for_each {A} (f : A -> DML unit) l : (forall a, d_reads (f a)) -> d_reads (d_for_each f l).
Proof. intros Hf. induction l; [apply reads_ret|by apply reads_bind]. Qed.
Lemma reads_fold {A X} (f : X -> A -> DML X) x l : (forall x a, d_reads (f x a)) -> d_reads (d_fold f x l).
Proof. intros Hf. revert x. induction l; intros x; [apply reads_ret|by apply reads_bind]. Qed.
Lemma last_ret {A} (a : A) : d_write_last (d_ret a).
Proof. by intros c. Qed.
Lemma last_fail {A} e : d_write_last (@d_fail A e).
Proof. by intros c. Qed.
Lemma last_call {A} (k : kv_call A) : write_call k = true -> d_write_last (d_call k).
Proof. intros Hk c. right. split; [done|]. intros b. by eexists. Qed.

Create HintDb reading.
#[export] Hint Resolve reads_ret reads_fail reads_result last_ret last_fail : reading.
Ltac reading :=
  repeat first
    [ progress (eauto with reading; fail)
    | apply reads_bind; [|intros ?]
    | apply last_bind; [|intros ?]
    | apply reads_call; reflexivity
    | apply last_call; reflexivity
    | apply reads_for_each; intros ?
    | apply reads_fold; intros ? ?
    | progress case_match ];
  eauto with reading.

(** ** Records *)

Section facts.
Context `{SerdeJson ClassDef, !SerdeJsonLaws ClassDef, !SerdeJsonTotal ClassDef (fun _ => True)}.
Context `{SerdeJson ClassLinks, !ClassJson} `{SerdeJson ShapeDef}.
Context `{SerdeJson JsonValue, !SerdeJsonTotal JsonValue (fun _ => True)} `{SerdeJson IndexDef} `{FromJson SemanticFlags}.
Context (ctx : Ctx) (sp : bytes).

(** The rows of a space hold the classes [C]. *)
Record class_rep (C : Hierarchy) (s : MemoryKVStore) : Prop := {
  cr_wf : om_wf (data s);
  cr_rows name : match C !! name with
                 | Some d => exists b, json_to_vec d = Ok b /\ look s (SchemaKey.class sp name) = Some b
                 | None => look s (SchemaKey.class sp name) = None
                 end
}.

Lemma returns_get s k : returns (d_call (call_get k)) s (look s k).
Proof. by apply post_get. Qed.

Lemma returns_visit C s w c : class_rep C s -> returns (visit_class sp w c) s (foldl visit_parent w (above C c)).
Proof.
  intros Hrep. pose proof (cr_rows _ _ Hrep c) as Hrow. eapply returns_bind; [apply returns_get|]. unfold above.
  destruct (C !! c) as [d|].
  - destruct Hrow as (b & Hb & ->). rewrite (class_links_read d b Hb). apply returns_ret.
  - rewrite Hrow. apply returns_ret.
Qed.

Lemma returns_fold {A X} (f : X -> A -> DML X) (g : X -> A -> X) l x s :
  (forall x a, returns (f x a) s (g x a)) -> returns (d_fold f x l) s (foldl g x l).
Proof.
  intros Hf. revert x. induction l as [|a l IH]; intros x; [apply returns_ret|]. eapply returns_bind; [apply Hf|apply IH].
Qed.

Lemma foldl_bind {A B X} (f : X -> B -> X) (g : A -> list B) l x :
  foldl (fun x a => foldl f x (g a)) x l = foldl f x (l ≫= g).
Proof. revert x. induction l as [|a l IH]; intros x; [done|]. cbn [foldl mbind list_bind]. by rewrite foldl_app, IH. Qed.

Lemma returns_level C s w : class_rep C s -> returns (d_fold (visit_class sp) (mkWalk (ancestors w) (seen w) []) (next w)) s (level C w).
Proof. intros Hrep. unfold level. rewrite <- foldl_bind. apply returns_fold. intros. by apply returns_visit. Qed.

(** The program fails with the error [e] and leaves [s] alone. *)
Definition fails {A} (p : DML A) (s : MemoryKVStore) (e : ExecutionError) : Prop :=
  post (fun e' => e' = e) p s (fun _ _ => False).

Lemma walk_levels_spec C s name depth k :
  class_rep C s -> (0 < k + depth)%nat ->
  if decide (next (walk_at C name (k + depth)) = [])
  then exists j, returns (walk_levels depth sp name (walk_at C name k)) s (ancestors (walk_at C name j)) /\
         next (walk_at C name j) = []
  else fails (walk_levels depth sp name (walk_at C name k)) s (err_depth name).
Proof.
  intros Hrep. revert k. induction depth as [|depth IH]; intros k Hpos.
  - rewrite Nat.add_0_r. case_decide as E; cbn [walk_levels].
    + exists k. rewrite E. split; [apply returns_ret|done].
    + destruct (next (walk_at C name k)); [done|]. by apply post_fail.
  - cbn [walk_levels]. destruct (next (walk_at C name k)) as [|c l] eqn:E.
    + case_decide as E'; [exists k; split; [apply returns_ret|done]|]. exfalso. apply E'.
      assert (k <> 0%nat) by (intros ->; discriminate E). apply walk_at_end; [lia|].
      apply (shallow_mono _ k); [lia|]. apply walk_at_end; [lia|done].
    + rewrite <- E. replace (k + S depth)%nat with (S k + depth)%nat by lia. specialize (IH (S k) ltac:(lia)).
      pose proof (returns_level C s (walk_at C name k) Hrep) as Hlevel. case_decide as E'.
      * destruct IH as (j & Hj & Hnil). exists j. split; [|done]. eapply returns_bind; [exact Hlevel|exact Hj].
      * eapply post_returns; [exact Hlevel|exact IH].
Qed.

(** The classes above [name], in the order of the walk. *)
Definition is_ancestors (C : Hierarchy) (name : bytes) (l : list bytes) : Prop :=
  NoDup l /\ forall c, c ∈ l <-> rtc (link C) name c /\ c <> name.

Lemma walk_end_ancestors C name j : next (walk_at C name j) = [] -> is_ancestors C name (ancestors (walk_at C name j)).
Proof.
  intros Hnil. destruct (walk_at_walked C name j) as ((_ & Hnd & Ha) & Hseen & _). split; [done|].
  intros c. rewrite Ha, Hseen. destruct j as [|j]; [discriminate Hnil|]. split; intros [Hc Hn]; (split; [|done]).
  - by eapply rtc_bsteps_2.
  - apply bsteps_S. by apply (proj1 (walk_at_end C name (S j) ltac:(lia))).
Qed.

Lemma class_ancestors_spec C s name :
  class_rep C s ->
  (shallow C MAX_CLASS_DEPTH name /\ exists l, returns (class_ancestors_of sp name) s l /\ is_ancestors C name l) \/
  (~ shallow C MAX_CLASS_DEPTH name /\ fails (class_ancestors_of sp name) s (err_depth name)).
Proof.
  intros Hrep. pose proof (walk_levels_spec C s name MAX_CLASS_DEPTH 0 Hrep ltac:(unfold MAX_CLASS_DEPTH; lia)) as Hw.
  cbn [Nat.add] in Hw. rewrite <- walk_at_end by (unfold MAX_CLASS_DEPTH; lia). case_decide as E; [left|by right].
  destruct Hw as (j & Hj & Hnil). split; [done|]. eexists. split; [exact Hj|by apply walk_end_ancestors].
Qed.

(** ** Decisions

    The program returns [a] if [P] holds and fails otherwise; it only reads. *)

Definition decides {A} (P : Prop) (p : DML A) (s : MemoryKVStore) (a : A) : Prop :=
  (P /\ returns p s a) \/ (~ P /\ exists e, fails p s e).

Lemma decides_returns {A} (p : DML A) s a : returns p s a -> decides True p s a.
Proof. by left. Qed.

Lemma decides_fail {A} (P : Prop) e s (a : A) : ~ P -> decides P (d_fail e) s a.
Proof. intros HP. right. split; [done|]. exists e. by apply post_fail. Qed.

Lemma decides_iff {A} (P P' : Prop) (p : DML A) s a : (P <-> P') -> decides P p s a -> decides P' p s a.
Proof. intros HP [[HA HB]|[HA HB]]; [left|right]; (split; [tauto|done]). Qed.

#[export] Instance decides_proper {A} : Proper (iff ==> eq ==> eq ==> eq ==> iff) (@decides A).
Proof. intros P P' HP p ? <- s ? <- a ? <-. split; apply decides_iff; by rewrite HP. Qed.

Lemma decides_bind {A B} (P P' : Prop) (p : DML A) (f : A -> DML B) s a b :
  decides P p s a -> (P -> decides P' (f a) s b) -> decides (P /\ P') (d_bind p f) s b.
Proof.
  intros [[HP Hp]|[HP [e He]]] Hf.
  - destruct (Hf HP) as [[HP' Hb]|[HP' [e He]]]; [left|right].
    + split; [done|]. by eapply returns_bind.
    + split; [tauto|]. exists e. by eapply post_returns.
  - right. split; [tauto|]. exists e. apply post_bind. eapply post_conseq; [|exact He]. done.
Qed.

Lemma decides_for_each {A} (P : A -> Prop) (f : A -> DML unit) l s :
  (forall a, decides (P a) (f a) s tt) -> decides (Forall P l) (d_for_each f l) s tt.
Proof.
  intros Hf. induction l as [|a l IH]; [left; split; [constructor|apply returns_ret]|].
  eapply decides_iff; [symmetry; apply Forall_cons|]. apply (decides_bind _ _ _ _ _ tt); [apply Hf|]. intros _. exact IH.
Qed.

Lemma decides_fold {A X} (P : A -> Prop) (f : X -> A -> DML X) (g : X -> A -> X) l x s :
  (forall x a, decides (P a) (f x a) s (g x a)) -> decides (Forall P l) (d_fold f x l) s (foldl g x l).
Proof.
  intros Hf. revert x. induction l as [|a l IH]; intros x; [left; split; [constructor|apply returns_ret]|].
  eapply decides_iff; [symmetry; apply Forall_cons|]. eapply decides_bind; [apply Hf|]. intros _. apply IH.
Qed.

(** ** Creating a class *)

Lemma look_class_Some C s name : class_rep C s -> is_Some (look s (SchemaKey.class sp name)) <-> is_Some (C !! name).
Proof.
  intros Hrep. pose proof (cr_rows _ _ Hrep name) as Hrow. destruct (C !! name).
  - destruct Hrow as (b & _ & ->). split; by eexists.
  - rewrite Hrow. by split.
Qed.

Definition parent_ok (C : Hierarchy) (name p : bytes) : Prop :=
  p <> name /\ is_Some (C !! p) /\ shallow C MAX_CLASS_DEPTH p /\ ~ rtc (link C) p name.

Lemma decides_exists C s p : class_rep C s -> returns (exists_class sp p) s (bool_decide (is_Some (C !! p))).
Proof.
  intros Hrep. eapply returns_bind; [apply returns_get|].
  rewrite (bool_decide_ext _ _ (look_class_Some C s p Hrep)). apply returns_ret.
Qed.

Lemma decides_parent C s name p : class_rep C s -> decides (parent_ok C name p) (check_parent sp name p) s tt.
Proof.
  intros Hrep. unfold check_parent, parent_ok. case_bool_decide as Hp; [apply decides_fail; tauto|].
  eapply (decides_iff (True /\ (is_Some (C !! p) /\ shallow C MAX_CLASS_DEPTH p /\ ~ rtc (link C) p name))); [tauto|].
  eapply decides_bind; [by apply decides_returns, decides_exists|]. intros _. case_bool_decide as Hs; cbn [negb]; [|apply decides_fail; tauto].
  destruct (class_ancestors_spec C s p Hrep) as [[Hsh (l & Hl & _ & Hin)]|[Hsh Hf]].
  - eapply (decides_iff (True /\ ~ rtc (link C) p name)); [tauto|].
    eapply decides_bind; [by apply decides_returns|]. intros _. case_bool_decide as Hn.
    + apply decides_fail. apply Hin in Hn as [Hr _]. tauto.
    + left. split; [|apply returns_ret]. intros Hr. apply Hn, Hin. auto.
  - right. split; [tauto|]. exists (err_depth p). apply post_bind. eapply post_conseq; [|exact Hf]. done.
Qed.

Definition target_ok (C : Hierarchy) (name t : bytes) : Prop := t <> name /\ is_Some (C !! t).

Lemma decides_target C s clause name ts t :
  class_rep C s -> decides (target_ok C name t) (check_target clause sp name ts t) s (push_new ts t).
Proof.
  intros Hrep. unfold check_target, target_ok. case_bool_decide as Hp; [apply decides_fail; tauto|].
  eapply (decides_iff (True /\ is_Some (C !! t))); [tauto|].
  eapply decides_bind; [by apply decides_returns, decides_exists|]. intros _. case_bool_decide as Hs; cbn [negb]; [|by apply decides_fail].
  left. split; [done|apply returns_ret].
Qed.

(** An equivalence is noted on both classes. *)
Definition add_equivalent (name : bytes) (d : ClassDef) : ClassDef :=
  if bool_decide (name ∈ equivalent_classes d) then d
  else mkClass (class_name d) (superclasses d) (disjoint d) (equivalent_classes d ++ [name]).
Definition created (C : Hierarchy) (name : bytes) (supers disjoints equivalents : list bytes) : Hierarchy :=
  <[name := mkClass name (dedup supers) (dedup disjoints) (dedup equivalents)]>
    (map_imap (fun n d => Some (if bool_decide (n ∈ equivalents) then add_equivalent name d else d)) C).

Lemma push_new_elem l x y : y ∈ push_new l x <-> y ∈ l \/ y = x.
Proof. unfold push_new. case_bool_decide; set_solver. Qed.
Lemma dedup_elem l x : x ∈ dedup l <-> x ∈ l.
Proof.
  assert (Hg : forall acc, x ∈ foldl push_new acc l <-> x ∈ acc \/ x ∈ l).
  { induction l as [|y l IH]; intros acc; cbn [foldl]; [set_solver|]. rewrite IH, push_new_elem. set_solver. }
  unfold dedup. rewrite Hg. set_solver.
Qed.
Lemma dedup_NoDup l : NoDup (dedup l).
Proof.
  assert (Hg : forall acc, NoDup acc -> NoDup (foldl push_new acc l)).
  { induction l as [|y l IH]; intros acc Hacc; cbn [foldl]; [done|]. apply IH. unfold push_new. case_bool_decide; [done|].
    apply NoDup_app. split; [done|]. split; [set_solver|apply NoDup_singleton]. }
  apply Hg. constructor.
Qed.

Definition encoded (d : ClassDef) : bytes := match json_to_vec d with Ok b => b | Err _ => [] end.
Lemma encoded_ok d : json_to_vec d = Ok (encoded d).
Proof. unfold encoded. destruct (to_vec_total d I) as [b ->]. done. Qed.

(** The row a target of an equivalence gets. *)
Definition registration (C : Hierarchy) (name t : bytes) : list kv_pair :=
  match C !! t with
  | Some d => if bool_decide (name ∈ equivalent_classes d) then []
              else [(SchemaKey.class sp t, encoded (add_equivalent name d))]
  | None => []
  end.

Lemma returns_register C s name batch t :
  class_rep C s -> returns (register_equivalent sp name batch t) s (batch ++ registration C name t).
Proof.
  intros Hrep. pose proof (cr_rows _ _ Hrep t) as Hrow. unfold register_equivalent, registration.
  eapply returns_bind; [eapply returns_bind; [apply returns_get|]|].
  - instantiate (1 := C !! t). destruct (C !! t) as [d|].
    + destruct Hrow as (b & Hb & ->). rewrite (from_slice_to_vec d b Hb). apply returns_ret.
    + rewrite Hrow. apply returns_ret.
  - destruct (C !! t) as [d|]; [|rewrite app_nil_r; apply returns_ret]. unfold add_equivalent.
    case_bool_decide; [rewrite app_nil_r; apply returns_ret|]. unfold d_json. rewrite encoded_ok.
    eapply returns_bind; [apply returns_ret|]. apply returns_ret.
Qed.

Lemma foldl_concat {A B} (f : A -> list B) l acc : foldl (fun acc a => acc ++ f a) acc l = acc ++ (l ≫= f).
Proof. revert acc. induction l as [|a l IH]; intros acc; simpl; [by rewrite app_nil_r|]. by rewrite IH, <- app_assoc. Qed.

Lemma put_value_elem puts k v : NoDup puts.*1 -> (k, v) ∈ puts -> put_value puts k = Some v.
Proof.
  intros Hnd Hin. induction puts as [|[k' v'] puts IH]; [by apply not_elem_of_nil in Hin|].
  rewrite fmap_cons in Hnd. apply NoDup_cons in Hnd as [Hk Hnd]. rewrite put_value_cons.
  apply elem_of_cons in Hin as [[= -> ->]|Hin].
  - rewrite put_value_none by done. by rewrite bool_decide_eq_true_2.
  - by rewrite IH.
Qed.

Lemma class_key_inj n m : SchemaKey.class sp n = SchemaKey.class sp m -> n = m.
Proof. unfold SchemaKey.class. intros E. do 3 apply (inj (app _)) in E. done. Qed.
Lemma tag_key_class n m : SchemaKey.tag sp n <> SchemaKey.class sp m.
Proof. unfold SchemaKey.class, SchemaKey.tag. intros E. do 2 apply (inj (app _)) in E. discriminate E. Qed.

(** The rows of the batch that creates a class. *)
Definition create_batch (C : Hierarchy) (name tag_data : bytes) (def : ClassDef) (equivalents : list bytes) : list kv_pair :=
  [(SchemaKey.tag sp name, tag_data); (SchemaKey.class sp name, encoded def)] ++ (equivalents ≫= registration C name).

Lemma registrations_value C name l n :
  NoDup l ->
  put_value (l ≫= registration C name) (SchemaKey.class sp n) =
    if bool_decide (n ∈ l)
    then match C !! n with
         | Some d => if bool_decide (name ∈ equivalent_classes d) then None else Some (encoded (add_equivalent name d))
         | None => None
         end
    else None.
Proof.
  induction l as [|t l IH]; intros Hnd; [done|]. apply NoDup_cons in Hnd as [Ht Hnd]. cbn [mbind list_bind].
  rewrite put_value_app, IH by done. destruct (decide (n = t)) as [->|Hn].
  - rewrite bool_decide_eq_false_2, bool_decide_eq_true_2 by set_solver. unfold registration.
    destruct (C !! t) as [d|]; [|done]. destruct (bool_decide (name ∈ equivalent_classes d)); [done|].
    rewrite put_value_cons, bool_decide_eq_true_2 by done. done.
  - rewrite (bool_decide_ext (n ∈ t :: l) (n ∈ l)) by set_solver.
    assert (put_value (registration C name t) (SchemaKey.class sp n) = None) as ->.
    { apply put_value_none. unfold registration. destruct (C !! t) as [d|]; [|apply not_elem_of_nil].
      destruct (bool_decide (name ∈ equivalent_classes d)); [apply not_elem_of_nil|]. by intros E%list_elem_of_singleton%class_key_inj. }
    by destruct (if bool_decide (n ∈ l) then _ else _).
Qed.

Lemma created_rows C s s' name tag_data supers disjoints equivalents :
  class_rep C s -> om_wf (data s') -> Forall (target_ok C name) equivalents ->
  (forall k, look s' k =
     match put_value (create_batch C name tag_data (mkClass name (dedup supers) (dedup disjoints) (dedup equivalents))
                        (dedup equivalents)) k with
     | Some v => Some v
     | None => look s k
     end) ->
  class_rep (created C name supers disjoints equivalents) s'.
Proof.
  intros Hrep Hwf Heq Hlook. split; [done|]. intros n. unfold created. rewrite Hlook. unfold create_batch.
  rewrite put_value_app, registrations_value by apply dedup_NoDup.
  rewrite (bool_decide_ext (n ∈ dedup equivalents) (n ∈ equivalents)) by apply dedup_elem.
  destruct (decide (n = name)) as [->|Hn].
  - rewrite lookup_insert_eq, bool_decide_eq_false_2.
    2:{ rewrite Forall_forall in Heq. intros Hin. by destruct (Heq _ Hin). }
    rewrite put_value_cons, put_value_cons, bool_decide_eq_true_2 by done. eexists. split; [apply encoded_ok|done].
  - rewrite lookup_insert_ne, map_lookup_imap by done. pose proof (cr_rows _ _ Hrep n) as Hrow.
    assert (put_value [(SchemaKey.tag sp name, tag_data);
      (SchemaKey.class sp name, encoded (mkClass name (dedup supers) (dedup disjoints) (dedup equivalents)))] (SchemaKey.class sp n) = None) as ->.
    { apply put_value_none. simpl. rewrite !not_elem_of_cons. split_and!; [|by intros ?%class_key_inj|apply not_elem_of_nil].
      intros E. by apply (tag_key_class name n). }
    destruct (C !! n) as [d|]; simpl.
    + destruct Hrow as (b & Hb & Hl). destruct (bool_decide (n ∈ equivalents)); [|by exists b].
      unfold add_equivalent. destruct (bool_decide (name ∈ equivalent_classes d)); [by exists b|].
      eexists. split; [apply encoded_ok|done].
    + by destruct (bool_decide (n ∈ equivalents)).
Qed.

Lemma post_batch_put E pairs s (Q : unit -> MemoryKVStore -> Prop) :
  om_wf (data s) ->
  (forall s', om_wf (data s') -> (forall k, look s' k = match put_value pairs k with Some v => Some v | None => look s k end) -> Q tt s') ->
  post E (d_call (call_batch_put pairs)) s Q.
Proof.
  intros Hwf HQ. eapply post_call; [done|]. apply HQ; [by apply om_insert_all_wf|].
  intros k. unfold look. cbn [mem_run Memory.batch_put snd with_data data]. rewrite om_get_insert_all by done.
  unfold put_value. by destruct (last _).
Qed.

(** What CREATE CLASS asks for. *)
Record creatable (C : Hierarchy) (s : MemoryKVStore) (name : bytes) (supers disjoints equivalents : list bytes) : Prop := {
  ca_new : C !! name = None;
  ca_no_tag : look s (SchemaKey.tag sp name) = None;
  ca_parents : Forall (parent_ok C name) supers;
  ca_disjoint : Forall (target_ok C name) disjoints;
  ca_equivalent : Forall (target_ok C name) equivalents
}.

(** The program succeeds with [Q] if [P] holds and fails otherwise. *)
Definition outcome {A} (P : Prop) (p : DML A) (s : MemoryKVStore) (Q : A -> MemoryKVStore -> Prop) : Prop :=
  (P /\ succeeds p s Q) \/ (~ P /\ exists e, fails p s e).

Lemma outcome_iff {A} (P P' : Prop) (p : DML A) s Q : (P <-> P') -> outcome P p s Q -> outcome P' p s Q.
Proof. intros HP [[HA HB]|[HA HB]]; [left|right]; (split; [tauto|done]). Qed.

Lemma outcome_fail {A} (P : Prop) e s (Q : A -> MemoryKVStore -> Prop) : ~ P -> outcome P (d_fail e) s Q.
Proof. intros HP. right. split; [done|]. exists e. by apply post_fail. Qed.

Lemma outcome_returns {A B} P (p : DML A) (f : A -> DML B) s a Q :
  returns p s a -> outcome P (f a) s Q -> outcome P (d_bind p f) s Q.
Proof. intros Hp [[HA HB]|[HA [e HB]]]; [left|right]; (split; [done|]); [|exists e]; by eapply post_returns. Qed.

Lemma outcome_decides {A B} P P' (p : DML A) (f : A -> DML B) s a Q :
  decides P p s a -> (P -> outcome P' (f a) s Q) -> outcome (P /\ P') (d_bind p f) s Q.
Proof.
  intros [[HP Hp]|[HP [e He]]] Hf.
  - eapply outcome_iff; [|by eapply outcome_returns; [|by apply Hf]]. tauto.
  - right. split; [tauto|]. exists e. apply post_bind. eapply post_conseq; [|exact He]. done.
Qed.

Context (Hspace : ctx_space ctx = Some sp).

Lemma returns_space s : returns (selected_space ctx) s sp.
Proof. unfold selected_space. rewrite Hspace. apply returns_ret. Qed.

(** The state after a class was created. *)
Definition class_created (C : Hierarchy) (name : bytes) (supers disjoints equivalents : list bytes) (s s' : MemoryKVStore) : Prop :=
  class_rep (created C name supers disjoints equivalents) s' /\ is_Some (look s' (SchemaKey.tag sp name)) /\
  forall k, k <> SchemaKey.tag sp name -> (forall n, k <> SchemaKey.class sp n) -> look s' k = look s k.

Lemma create_batch_created C s s' name tag_data supers disjoints equivalents :
  class_rep C s -> om_wf (data s') -> Forall (target_ok C name) equivalents ->
  (forall k, look s' k =
     match put_value (create_batch C name tag_data (mkClass name (dedup supers) (dedup disjoints) (dedup equivalents))
                        (dedup equivalents)) k with
     | Some v => Some v
     | None => look s k
     end) ->
  class_created C name supers disjoints equivalents s s'.
Proof.
  intros Hrep Hwf Heq Hlook. split; [by eapply created_rows|]. split.
  - rewrite Hlook. destruct (put_value _ _) eqn:E; [done|]. exfalso. apply eq_None_not_Some in E. apply E.
    apply put_value_is_Some. left.
  - intros k Htag Hclass. rewrite Hlook. rewrite put_value_none; [done|]. unfold create_batch. rewrite fmap_app. simpl.
    rewrite !not_elem_of_cons. split_and!; [done|apply Hclass|]. intros ([k' v] & -> & Hin)%list_elem_of_fmap.
    apply list_elem_of_bind in Hin as (t & Hin & _). unfold registration in Hin. destruct (C !! t); [|by apply not_elem_of_nil in Hin].
    destruct (bool_decide _); [by apply not_elem_of_nil in Hin|]. apply list_elem_of_singleton in Hin as [= -> ->]. by apply (Hclass t).
Qed.

Lemma create_new C s name flag props supers disjoints equivalents :
  class_rep C s -> C !! name = None ->
  outcome (creatable C s name supers disjoints equivalents)
    (handle_create_class ctx name flag props supers disjoints equivalents) s
    (fun _ s' => class_created C name supers disjoints equivalents s s').
Proof.
  intros Hrep Hnew. unfold handle_create_class. pose proof (cr_rows _ _ Hrep name) as Hrow. rewrite Hnew in Hrow.
  eapply outcome_returns; [apply returns_space|]. eapply outcome_returns; [apply returns_get|]. rewrite Hrow.
  eapply outcome_returns; [apply returns_get|]. destruct (look s (SchemaKey.tag sp name)) as [tb|] eqn:Htag.
  { apply outcome_fail. intros [_ Hno _ _ _]. congruence. }
  apply (outcome_iff (Forall (parent_ok C name) (dedup supers) /\ Forall (target_ok C name) disjoints /\
    Forall (target_ok C name) equivalents /\ True)).
  { assert (Hd : Forall (parent_ok C name) (dedup supers) <-> Forall (parent_ok C name) supers)
      by (rewrite !Forall_forall; by setoid_rewrite dedup_elem).
    split; [intros (HA & HB & HC & _); split; tauto|intros [_ _ HA HB HC]; tauto]. }
  eapply outcome_decides; [by apply decides_for_each; intros; apply decides_parent|]. intros _.
  eapply outcome_decides; [by apply decides_fold; intros; apply decides_target|]. intros _.
  eapply outcome_decides; [by apply decides_fold; intros; apply decides_target|]. intros Heq. left. split; [done|].
  unfold d_json. destruct (to_vec_total (JObject [(bs "name", JString name); (bs "properties", props)]) I) as [tag_data ->].
  eapply post_returns; [apply returns_ret|]. rewrite encoded_ok. eapply post_returns; [apply returns_ret|].
  eapply post_returns; [apply returns_fold; intros; by apply returns_register|]. rewrite foldl_concat.
  apply post_batch_put; [apply (cr_wf _ _ Hrep)|]. intros s' Hwf Hlook. by apply (create_batch_created C s s' name tag_data).
Qed.

(** ** Dropping a class *)

(** A program that reads and then returns or fails. *)
Definition decided {A} (p : DML A) (s : MemoryKVStore) : Prop := (exists a, returns p s a) \/ (exists e, fails p s e).

Lemma decided_bind {A B} (p : DML A) (f : A -> DML B) s : decided p s -> (forall a, decided (f a) s) -> decided (d_bind p f) s.
Proof.
  intros [[a Ha]|[e He]] Hf.
  - destruct (Hf a) as [[b Hb]|[e He]]; [left; exists b; by eapply returns_bind|right; exists e; by eapply post_returns].
  - right. exists e. apply post_bind. eapply post_conseq; [|exact He]. done.
Qed.
Lemma decided_ret {A} (a : A) s : decided (d_ret a) s.
Proof. left. exists a. apply returns_ret. Qed.
Lemma decided_fail {A} e s : decided (@d_fail A e) s.
Proof. right. exists e. by apply post_fail. Qed.
Lemma decided_result {A} (r : Result ExecutionError A) s : decided (d_result r) s.
Proof. destruct r; [apply decided_ret|apply decided_fail]. Qed.
Lemma decided_get k s : decided (d_call (call_get k)) s.
Proof. left. eexists. apply returns_get. Qed.
Lemma returns_scan p s : om_wf (data s) -> returns (d_call (call_scan_prefix p)) s (List.filter (fun kv => starts_with p kv.1) (data s)).
Proof. intros Hwf. by apply post_scan. Qed.

Lemma decided_indexes kind s : om_wf (data s) -> decided (mutation_indexes ctx sp kind) s.
Proof.
  intros Hwf. unfold mutation_indexes, mutation_space_id. apply decided_bind.
  - destruct (ctx_space_id ctx); [apply decided_ret|]. apply decided_bind; [apply decided_get|]. intros [b|]; [|apply decided_ret].
    destruct (json_from_slice (A := JsonValue) b); [|apply decided_fail]. case_match; [apply decided_ret|apply decided_fail].
  - intros id. apply decided_bind; [left; eexists; by apply returns_scan|]. intros rows. apply decided_result.
Qed.

Lemma collect_results_Forall2 {E A B} (f : A -> Result E B) l bs' :
  Forall2 (fun a b => f a = Ok b) l bs' -> collect_results (f <$> l) = Ok bs'.
Proof. induction 1 as [|a b l l' Hab _ IH]; [done|]. cbn [fmap list_fmap collect_results]. rewrite Hab. cbn [fmap] in IH. by rewrite IH. Qed.

Lemma class_row C s kv :
  class_rep C s -> kv ∈ List.filter (fun kv => starts_with (SchemaKey.class_prefix sp) kv.1) (data s) ->
  exists n d, kv.1 = SchemaKey.class sp n /\ C !! n = Some d /\ read_class kv = Ok d.
Proof.
  intros Hrep Hin. apply list_elem_of_In, filter_In in Hin as [Hin [n Hn]%starts_with_iff]. destruct kv as [k b]. cbn [fst] in Hn. subst k.
  apply list_elem_of_In, om_get_elem in Hin; [|apply (cr_wf _ _ Hrep)].
  assert (Ek : SchemaKey.class_prefix sp ++ n = SchemaKey.class sp n) by (unfold SchemaKey.class_prefix, SchemaKey.class; by rewrite <- !app_assoc).
  rewrite Ek in Hin |- *. pose proof (cr_rows _ _ Hrep n) as Hrow. unfold look in Hrow. rewrite Hin in Hrow.
  destruct (C !! n) as [d|] eqn:Ed; [|done]. destruct Hrow as (b' & Hb & [= <-]). exists n, d. split_and!; [done|done|].
  unfold read_class. cbn [snd]. by rewrite (from_slice_to_vec d b Hb).
Qed.

Lemma returns_list_classes C s :
  class_rep C s -> exists l, returns (list_classes sp) s l /\ forall d, d ∈ l <-> exists n, C !! n = Some d.
Proof.
  intros Hrep. unfold list_classes. set (rows := List.filter (fun kv => starts_with (SchemaKey.class_prefix sp) kv.1) (data s)).
  assert (exists l, Forall2 (fun kv d => read_class kv = Ok d) rows l) as [l Hl].
  { assert (Hall : forall kv, kv ∈ rows -> exists n d, kv.1 = SchemaKey.class sp n /\ C !! n = Some d /\ read_class kv = Ok d)
      by (intros kv; by apply class_row).
    clearbody rows. induction rows as [|kv rows IH]; [by exists []|]. destruct (Hall kv) as (n & d & _ & _ & Hd); [left|].
    destruct IH as [l Hl]; [intros kv' Hin; apply Hall; by right|]. exists (d :: l). by constructor. }
  exists l. split.
  - eapply returns_bind; [apply returns_scan, (cr_wf _ _ Hrep)|]. fold rows. rewrite (collect_results_Forall2 _ _ _ Hl). apply returns_ret.
  - intros d. split.
    + intros [i Hi]%list_elem_of_lookup. destruct (Forall2_lookup_r _ _ _ _ _ Hl Hi) as (kv & Hkv%list_elem_of_lookup_2 & Hread).
      destruct (class_row C s kv Hrep Hkv) as (n & d' & _ & Hn & Hd'). exists n. congruence.
    + intros [n Hn]. pose proof (cr_rows _ _ Hrep n) as Hrow. rewrite Hn in Hrow. destruct Hrow as (b & Hb & Hlook).
      assert (Hkv : (SchemaKey.class sp n, b) ∈ rows).
      { apply list_elem_of_In, filter_In. split; [apply list_elem_of_In, om_get_elem; [apply (cr_wf _ _ Hrep)|done]|].
        apply starts_with_iff. exists n. unfold SchemaKey.class_prefix, SchemaKey.class. by rewrite <- !app_assoc. }
      apply list_elem_of_lookup in Hkv as [i Hi].
      destruct (Forall2_lookup_l _ _ _ _ _ Hl Hi) as (d' & Hd'%list_elem_of_lookup_2 & Hread). unfold read_class in Hread. cbn [snd] in Hread.
      rewrite (from_slice_to_vec d b Hb) in Hread. by injection Hread as <-.
Qed.

(** Reading the edge types and shapes that refer to a class. *)
Definition edge_references (s : MemoryKVStore) (name : bytes) : Result ExecutionError (list (option bytes)) :=
  collect_results (edge_reference sp name <$>
    List.filter (fun kv => starts_with (bs "space:" ++ sp ++ bs ":edge:") kv.1) (data s)).
Definition shape_references (s : MemoryKVStore) (name : bytes) : Result ExecutionError (list (option bytes)) :=
  collect_results (shape_reference sp name <$> List.filter (fun kv => starts_with (SchemaKey.shape_prefix sp) kv.1) (data s)).

(** What DROP CLASS asks for: nothing refers to the class. *)
Record droppable (C : Hierarchy) (s : MemoryKVStore) (name : bytes) : Prop := {
  dr_children n d : C !! n = Some d -> name ∉ superclasses d;
  dr_classes n d : C !! n = Some d -> n <> name -> (name ∉ disjoint d) /\ name ∉ equivalent_classes d;
  dr_edges : exists l, edge_references s name = Ok l /\ names l = [];
  dr_shapes : exists l, shape_references s name = Ok l /\ names l = [];
  dr_indexes : exists ix, returns (mutation_indexes ctx sp IndexTag) s ix /\ names (index_reference name <$> ix) = []
}.

Lemma names_nil l : names l = [] <-> forall x, x ∈ l -> x = None.
Proof.
  unfold names. induction l as [|[x|] l IH]; cbn; [split; [by intros _ x ?%not_elem_of_nil|done]| |].
  - split; [done|]. intros Hl. discriminate (Hl (Some x)); left.
  - rewrite IH. split; intros Hl x; [intros [->|]%elem_of_cons; auto|intros; apply Hl; by right].
Qed.

Lemma returns_not_fails {A} (p : DML A) s a e : returns p s a -> ~ fails p s e.
Proof.
  intros Hr Hf. specialize (Hr (Build_tx_clock 0 0)). specialize (Hf (Build_tx_clock 0 0)).
  by destruct (run_statement _ s) as [[[? ?]|] ?].
Qed.
Lemma returns_eq {A} (p : DML A) s a b : returns p s a -> returns p s b -> a = b.
Proof.
  intros Ha Hb. specialize (Ha (Build_tx_clock 0 0)). specialize (Hb (Build_tx_clock 0 0)).
  destruct (run_statement _ s) as [[[x ?]|] ?]; [|done]. destruct Ha as [<- _], Hb as [<- _]. done.
Qed.

Lemma class_references_nil (C : Hierarchy) name classes :
  (forall d, d ∈ classes <-> exists n, C !! n = Some d) -> (forall n d, C !! n = Some d -> class_name d = n) ->
  names (class_reference name <$> classes) = [] <->
  forall n d, C !! n = Some d -> n <> name -> (name ∉ disjoint d) /\ name ∉ equivalent_classes d.
Proof.
  intros Hin Hnames. rewrite names_nil. setoid_rewrite list_elem_of_fmap. unfold class_reference. split.
  - intros Hall n d Hn Hne. assert (Hd : d ∈ classes) by (apply Hin; eauto).
    pose proof (Hall _ (ex_intro _ d (conj eq_refl Hd))) as Hx. cbv beta in Hx.
    rewrite (Hnames n d Hn), (bool_decide_eq_false_2 (n = name)) in Hx by done. cbn [negb andb] in Hx.
    split; intros Hc; rewrite (bool_decide_eq_true_2 _ Hc), ?orb_true_r in Hx; discriminate Hx.
  - intros Hall x (d & -> & [n Hn]%Hin). rewrite (Hnames n d Hn). case_bool_decide as Hne; [done|]. cbn [negb andb].
    destruct (Hall n d Hn Hne) as [HA HB]. by rewrite !bool_decide_eq_false_2.
Qed.

Lemma post_batch_delete E keys s (Q : unit -> MemoryKVStore -> Prop) :
  om_wf (data s) ->
  (forall s', om_wf (data s') -> (forall k, look s' k = if bool_decide (k ∈ keys) then None else look s k) -> Q tt s') ->
  post E (d_call (call_batch_delete keys)) s Q.
Proof.
  intros Hwf HQ. eapply post_call; [done|]. apply HQ; [by apply om_remove_all_wf|].
  intros k. unfold look. cbn [mem_run Memory.batch_delete snd with_data data]. by apply om_get_remove_all.
Qed.

(** The state after a class was dropped. *)
Definition class_dropped (C : Hierarchy) (name : bytes) (s s' : MemoryKVStore) : Prop :=
  class_rep (delete name C) s' /\
  forall k, look s' k = if bool_decide (k ∈ [SchemaKey.class sp name; SchemaKey.tag sp name]) then None else look s k.

Lemma dropped_rep C s s' name :
  class_rep C s -> om_wf (data s') ->
  (forall k, look s' k = if bool_decide (k ∈ [SchemaKey.class sp name; SchemaKey.tag sp name]) then None else look s k) ->
  class_dropped C name s s'.
Proof.
  intros Hrep Hwf Hlook. split; [|done]. split; [done|]. intros n. rewrite Hlook. destruct (decide (n = name)) as [->|Hn].
  - rewrite lookup_delete_eq. by rewrite bool_decide_eq_true_2 by left.
  - rewrite lookup_delete_ne by done. rewrite bool_decide_eq_false_2; [apply (cr_rows _ _ Hrep)|].
    rewrite !not_elem_of_cons. split_and!; [by intros ?%class_key_inj|intros E; by apply (tag_key_class name n)|apply not_elem_of_nil].
Qed.

Lemma drop_existing C s name flag :
  class_rep C s -> (forall n d, C !! n = Some d -> class_name d = n) -> is_Some (C !! name) ->
  outcome (droppable C s name) (handle_drop_class ctx name flag) s (fun _ s' => class_dropped C name s s').
Proof.
  intros Hrep Hnames Hsome. unfold handle_drop_class. apply (look_class_Some C s) in Hsome as [b Hb]; [|done].
  eapply outcome_returns; [apply returns_space|]. eapply outcome_returns; [apply returns_get|]. rewrite Hb.
  destruct (returns_list_classes C s Hrep) as (classes & Hclasses & Hin). eapply outcome_returns; [exact Hclasses|].
  case_bool_decide as Hch; cbn [negb].
  2:{ apply outcome_fail. intros Hd. apply Hch. destruct (List.filter _ classes) as [|d l] eqn:E; [done|]. exfalso.
      assert (In d (d :: l)) as Hd' by (by left). rewrite <- E in Hd'. apply filter_In in Hd' as [[n Hn]%list_elem_of_In%Hin Hd'].
      apply bool_decide_eq_true in Hd'. by apply (dr_children _ _ _ Hd n d). }
  eapply outcome_returns; [exact Hclasses|]. pose proof (cr_wf _ _ Hrep) as Hwf.
  eapply outcome_returns; [by apply returns_scan|]. fold (edge_references s name).
  destruct (edge_references s name) as [edges|e] eqn:Eedges.
  2:{ right. split; [intros Hd; destruct (dr_edges _ _ _ Hd) as (l & E & _); congruence|]. exists e. apply post_bind. by apply post_fail. }
  eapply outcome_returns; [apply returns_ret|]. eapply outcome_returns; [by apply returns_scan|]. fold (shape_references s name).
  destruct (shape_references s name) as [shapes|e] eqn:Eshapes.
  2:{ right. split; [intros Hd; destruct (dr_shapes _ _ _ Hd) as (l & E & _); congruence|]. exists e. apply post_bind. by apply post_fail. }
  eapply outcome_returns; [apply returns_ret|]. destruct (decided_indexes IndexTag s Hwf) as [[ix Hix]|[e He]].
  2:{ right. split; [|exists e; apply post_bind; eapply post_conseq; [|exact He]; done].
      intros Hd. destruct (dr_indexes _ _ _ Hd) as (ix & Hix & _). by eapply returns_not_fails. }
  eapply outcome_returns; [exact Hix|]. pose proof (class_references_nil C name classes Hin Hnames) as Hrefs.
  case_bool_decide as Hnil; cbn [negb].
  - apply app_eq_nil in Hnil as [N1 [N2 [N3 N4]%app_eq_nil]%app_eq_nil]. left. split.
    + split; [|by apply Hrefs|by eauto|by eauto|by eauto]. intros n d Hn Hsup.
      apply fmap_nil_inv in Hch. assert (d ∈ List.filter (fun d => bool_decide (name ∈ superclasses d)) classes) as Hd.
      { apply list_elem_of_In, filter_In. split; [apply list_elem_of_In, Hin; eauto|by apply bool_decide_eq_true]. }
      rewrite Hch in Hd. by apply not_elem_of_nil in Hd.
    + apply post_batch_delete; [done|]. intros s' Hwf' Hlook. by apply dropped_rep.
  - apply outcome_fail. intros [Hd1 Hd2 (l & E1 & N1) (l' & E2 & N2) (ix' & E3 & N3)]. apply Hnil.
    rewrite (returns_eq _ _ _ _ Hix E3), (proj2 Hrefs Hd2), N3. rewrite Eedges in E1. rewrite Eshapes in E2.
    injection E1 as <-. injection E2 as <-. by rewrite N1, N2.
Qed.

(** ** The invariant of the hierarchy *)

Definition subclass (C : Hierarchy) (c p : bytes) : Prop := exists d, C !! c = Some d /\ p ∈ superclasses d.

Record hierarchy_ok (C : Hierarchy) : Prop := {
  ho_names n d : C !! n = Some d -> class_name d = n;
  ho_closed n d p : C !! n = Some d -> p ∈ superclasses d ++ disjoint d ++ equivalent_classes d -> is_Some (C !! p);
  ho_equivalent n d m : C !! n = Some d -> m ∈ equivalent_classes d ->
    m <> n /\ exists d', C !! m = Some d' /\ n ∈ equivalent_classes d';
  ho_rank : exists rank : bytes -> nat, forall c p, subclass C c p -> (rank p < rank c)%nat
}.

(** No class is its own superclass, directly or through others. *)
Lemma hierarchy_acyclic C c : hierarchy_ok C -> ~ tc (subclass C) c c.
Proof.
  intros Hok Hc. destruct (ho_rank _ Hok) as [rank Hrank].
  assert (Hlt : forall a b, tc (subclass C) a b -> (rank b < rank a)%nat).
  { induction 1 as [a b Hab|a b c' Hab _ IH]; [by apply Hrank|]. apply Hrank in Hab. lia. }
  apply Hlt in Hc. lia.
Qed.

Lemma hierarchy_empty : hierarchy_ok ∅.
Proof.
  split; [by intros n d; rewrite lookup_empty..|]. exists (fun _ => 0%nat). intros c p (d & Hd & _). by rewrite lookup_empty in Hd.
Qed.

Lemma add_equivalent_fields name d :
  class_name (add_equivalent name d) = class_name d /\ superclasses (add_equivalent name d) = superclasses d /\
  disjoint (add_equivalent name d) = disjoint d /\
  forall m, m ∈ equivalent_classes (add_equivalent name d) <-> m ∈ equivalent_classes d \/ m = name.
Proof. unfold add_equivalent. case_bool_decide; split_and!; try done; intros m; set_solver. Qed.

Section created.
Context (C : Hierarchy) (s : MemoryKVStore) (name : bytes) (supers disjoints equivalents : list bytes).
Context (Hok : hierarchy_ok C) (Hcan : creatable C s name supers disjoints equivalents).

Lemma lookup_created_new :
  created C name supers disjoints equivalents !! name = Some (mkClass name (dedup supers) (dedup disjoints) (dedup equivalents)).
Proof. apply lookup_insert_eq. Qed.

Lemma lookup_created_old n d' :
  n <> name -> created C name supers disjoints equivalents !! n = Some d' ->
  exists d, C !! n = Some d /\ class_name d' = class_name d /\ superclasses d' = superclasses d /\ disjoint d' = disjoint d /\
    forall m, m ∈ equivalent_classes d' <-> m ∈ equivalent_classes d \/ (m = name /\ n ∈ equivalents).
Proof.
  intros Hn. unfold created. rewrite lookup_insert_ne, map_lookup_imap by done. destruct (C !! n) as [d|]; [|done].
  cbn. intros [= <-]. exists d. split; [done|]. destruct (add_equivalent_fields name d) as (E1 & E2 & E3 & E4).
  case_bool_decide; split_and!; try done; intros m; [rewrite E4|]; tauto.
Qed.

Lemma created_is_Some n : is_Some (C !! n) -> n <> name -> exists d', created C name supers disjoints equivalents !! n = Some d'.
Proof. intros [d Hd] Hn. unfold created. rewrite lookup_insert_ne, map_lookup_imap, Hd by done. by eexists. Qed.

Lemma old_not_new n d : C !! n = Some d -> n <> name.
Proof. intros Hn ->. rewrite (ca_new _ _ _ _ _ _ Hcan) in Hn. done. Qed.

Lemma created_target t : t ∈ supers \/ t ∈ disjoints \/ t ∈ equivalents -> t <> name /\ is_Some (C !! t).
Proof.
  destruct Hcan as [_ _ Hp Hd He]. rewrite Forall_forall in Hp, Hd, He.
  intros [Ht|[Ht|Ht]]; [destruct (Hp _ Ht) as (? & ? & _)|apply (Hd _ Ht)|apply (He _ Ht)]; done.
Qed.

Lemma created_closed n d p :
  created C name supers disjoints equivalents !! n = Some d -> p ∈ superclasses d ++ disjoint d ++ equivalent_classes d ->
  is_Some (created C name supers disjoints equivalents !! p).
Proof.
  intros Hn Hp. destruct (decide (p = name)) as [->|Hne]; [rewrite lookup_created_new; by eexists|].
  cut (is_Some (C !! p)); [intros Hs; destruct (created_is_Some p Hs Hne) as [d' ->]; by eexists|].
  destruct (decide (n = name)) as [->|Hnn].
  - rewrite lookup_created_new in Hn. injection Hn as <-. cbn [superclasses disjoint equivalent_classes] in Hp.
    rewrite !elem_of_app, !dedup_elem in Hp. by apply created_target.
  - destruct (lookup_created_old n d Hnn Hn) as (d0 & Hd0 & _ & E1 & E2 & E3). apply (ho_closed _ Hok n d0); [done|].
    rewrite !elem_of_app, E1, E2, E3 in Hp. rewrite !elem_of_app. naive_solver.
Qed.

Lemma created_equivalent n d m :
  created C name supers disjoints equivalents !! n = Some d -> m ∈ equivalent_classes d ->
  m <> n /\ exists d', created C name supers disjoints equivalents !! m = Some d' /\ n ∈ equivalent_classes d'.
Proof.
  intros Hn Hm. destruct (decide (n = name)) as [->|Hnn].
  - rewrite lookup_created_new in Hn. injection Hn as <-. cbn [equivalent_classes] in Hm. rewrite dedup_elem in Hm.
    destruct (created_target m) as [Hne Hs]; [auto|]. split; [done|]. destruct (created_is_Some m Hs Hne) as [d' Hd'].
    exists d'. split; [done|]. destruct (lookup_created_old m d' Hne Hd') as (d0 & _ & _ & _ & _ & E). apply E. auto.
  - destruct (lookup_created_old n d Hnn Hn) as (d0 & Hd0 & _ & _ & _ & E). apply E in Hm as [Hm|[-> Hm]].
    + destruct (ho_equivalent _ Hok n d0 m Hd0 Hm) as [Hne (dm & Hdm & Hin)]. split; [done|].
      destruct (created_is_Some m) as [d' Hd']; [by eexists|by eapply old_not_new|]. exists d'. split; [done|].
      destruct (lookup_created_old m d' (old_not_new m dm Hdm) Hd') as (d1 & Hd1 & _ & _ & _ & E'). apply E'. left. congruence.
    + split; [done|]. eexists. split; [apply lookup_created_new|]. cbn [equivalent_classes]. by apply dedup_elem.
Qed.

Lemma created_ok : hierarchy_ok (created C name supers disjoints equivalents).
Proof.
  split.
  - intros n d Hn. destruct (decide (n = name)) as [->|Hnn]; [rewrite lookup_created_new in Hn; by injection Hn as <-|].
    destruct (lookup_created_old n d Hnn Hn) as (d0 & Hd0 & -> & _). by apply (ho_names _ Hok).
  - apply created_closed.
  - apply created_equivalent.
  - destruct (ho_rank _ Hok) as [rank Hrank].
    exists (fun n => if decide (n = name) then S (foldr (fun p m => Nat.max (rank p) m) 0%nat (dedup supers)) else rank n).
    intros c p (d & Hd & Hp). destruct (decide (c = name)) as [->|Hc].
    + rewrite lookup_created_new in Hd. injection Hd as <-. cbn [superclasses] in Hp.
      assert (p <> name) by (apply created_target; left; by apply dedup_elem). rewrite decide_False by done.
      revert Hp. generalize (dedup supers). intros l. induction l as [|q l IH]; [by intros ?%not_elem_of_nil|].
      intros [->|Hl]%elem_of_cons; cbn [foldr]; [lia|]. specialize (IH Hl). lia.
    + destruct (lookup_created_old c d Hc Hd) as (d0 & Hd0 & _ & E & _). rewrite E in Hp.
      assert (Hs : subclass C c p) by (by exists d0). rewrite decide_False; [by apply Hrank|].
      intros ->. destruct (ho_closed _ Hok c d0 name) as [d1 Hd1]; [done|set_solver|]. by apply (old_not_new name d1).
Qed.
End created.

Lemma dropped_ok C s name : hierarchy_ok C -> droppable C s name -> hierarchy_ok (delete name C).
Proof.
  intros Hok Hdrop.
  assert (Hold : forall n d, delete name C !! n = Some d -> n <> name /\ C !! n = Some d) by (intros n d [??]%lookup_delete_Some; auto).
  split.
  - intros n d [_ Hn]%Hold. by apply (ho_names _ Hok).
  - intros n d p [Hne Hn]%Hold Hp. destruct (ho_closed _ Hok n d p Hn Hp) as [d' Hd']. exists d'. apply lookup_delete_Some.
    split; [|done]. intros <-. rewrite !elem_of_app in Hp. pose proof (dr_children _ _ _ Hdrop n d Hn).
    destruct (dr_classes _ _ _ Hdrop n d Hn Hne). tauto.
  - intros n d m [Hne Hn]%Hold Hm. destruct (ho_equivalent _ Hok n d m Hn Hm) as [Hmn (d' & Hd' & Hin)]. split; [done|].
    exists d'. split; [|done]. apply lookup_delete_Some. split; [|done]. intros <-. destruct (dr_classes _ _ _ Hdrop n d Hn Hne). tauto.
  - destruct (ho_rank _ Hok) as [rank Hrank]. exists rank. intros c p (d & [_ Hd]%Hold & Hp). apply Hrank. by exists d.
Qed.

(** ** Statements on classes *)

Inductive ClassOp :=
| CreateClass (name : bytes) (if_not_exists : bool) (props : JsonValue) (supers disjoints equivalents : list bytes)
| DropClass (name : bytes) (if_exists : bool).

Definition class_statement (op : ClassOp) : DML unit :=
  match op with
  | CreateClass name flag props supers disjoints equivalents => handle_create_class ctx name flag props supers disjoints equivalents
  | DropClass name flag => handle_drop_class ctx name flag
  end.

(** One statement, whatever its result. *)
Inductive class_step (s : MemoryKVStore) : MemoryKVStore -> Prop :=
| class_step_run op clock r s' : run_statement (class_statement op clock) s = (r, s') -> class_step s s'.

Lemma reads_ancestors space name : d_reads (class_ancestors_of space name).
Proof.
  unfold class_ancestors_of. generalize (mkWalk [] {[name]} [name]). induction MAX_CLASS_DEPTH as [|n IH]; intros w; cbn [walk_levels].
  - reading.
  - case_match; [reading|]. apply reads_bind; [|intros; apply IH]. unfold visit_class. reading.
Qed.
Lemma reads_list_classes space : d_reads (list_classes space).
Proof. unfold list_classes. reading. Qed.
Lemma reads_indexes space kind : d_reads (mutation_indexes ctx space kind).
Proof. unfold mutation_indexes, mutation_space_id. reading. Qed.
Lemma reads_check_parent space name p : d_reads (check_parent space name p).
Proof. unfold check_parent, exists_class. pose proof reads_ancestors. reading. Qed.
#[local] Hint Resolve reads_ancestors reads_list_classes reads_indexes reads_check_parent : reading.

Lemma class_statement_last op : d_write_last (class_statement op).
Proof.
  destruct op; cbn [class_statement]; unfold handle_create_class, handle_drop_class, selected_space, check_target, exists_class,
    register_equivalent, load_class, d_json; reading.
Qed.

(** A statement on classes takes the hierarchy to the one it describes, or fails and
    changes nothing. *)
Definition class_effect (C : Hierarchy) (op : ClassOp) (s : MemoryKVStore) (r : Result ExecutionError (unit * tx_clock))
    (s' : MemoryKVStore) : Prop :=
  match op with
  | CreateClass name flag _ supers disjoints equivalents =>
      match C !! name with
      | Some _ => s' = s /\ is_ok r = flag
      | None =>
          (creatable C s name supers disjoints equivalents /\ is_ok r = true /\ class_created C name supers disjoints equivalents s s') \/
          (~ creatable C s name supers disjoints equivalents /\ is_ok r = false /\ s' = s)
      end
  | DropClass name flag =>
      match C !! name with
      | None => s' = s /\ is_ok r = flag
      | Some _ =>
          (droppable C s name /\ is_ok r = true /\ class_dropped C name s s') \/
          (~ droppable C s name /\ is_ok r = false /\ s' = s)
      end
  end.

Lemma outcome_run {A} P (p : DML A) s (Q : A -> MemoryKVStore -> Prop) clock r s' :
  d_write_last p -> outcome P p s Q -> run_statement (p clock) s = (r, s') ->
  (P /\ is_ok r = true /\ exists a, Q a s') \/ (~ P /\ is_ok r = false /\ s' = s).
Proof.
  intros Hlast [[HP Hp]|[HP [e He]]] Hrun; [left|right]; (split; [done|]).
  - specialize (Hp clock). rewrite Hrun in Hp. destruct r as [[a c]|]; [eauto|done].
  - pose proof (write_last_error (p clock) s) as Herr. rewrite Hrun in Herr. specialize (He clock). rewrite Hrun in He.
    destruct r as [[a c]|e']; [done|]. split; [done|]. by eapply Herr.
Qed.

Lemma create_existing C s name flag props supers disjoints equivalents :
  class_rep C s -> is_Some (C !! name) ->
  outcome (flag = true) (handle_create_class ctx name flag props supers disjoints equivalents) s (fun _ s' => s' = s).
Proof.
  intros Hrep [b Hb]%(look_class_Some C s); [|done]. unfold handle_create_class.
  eapply outcome_returns; [apply returns_space|]. eapply outcome_returns; [apply returns_get|]. rewrite Hb.
  destruct flag; [left; split; [done|by apply post_ret]|by apply outcome_fail].
Qed.

Lemma drop_absent C s name flag :
  class_rep C s -> C !! name = None -> outcome (flag = true) (handle_drop_class ctx name flag) s (fun _ s' => s' = s).
Proof.
  intros Hrep Hn. pose proof (cr_rows _ _ Hrep name) as Hrow. rewrite Hn in Hrow. unfold handle_drop_class.
  eapply outcome_returns; [apply returns_space|]. eapply outcome_returns; [apply returns_get|]. rewrite Hrow.
  destruct flag; [left; split; [done|by apply post_ret]|by apply outcome_fail].
Qed.

Lemma outcome_flag {A} (flag : bool) (p : DML A) s clock r s' :
  d_write_last p -> outcome (flag = true) p s (fun _ s' => s' = s) -> run_statement (p clock) s = (r, s') -> s' = s /\ is_ok r = flag.
Proof.
  intros Hlast Ho Hrun. destruct (outcome_run _ _ _ _ _ _ _ Hlast Ho Hrun) as [(-> & -> & _ & ->)|(Hf & -> & ->)]; [done|].
  by destruct flag.
Qed.

Lemma class_statement_effect C op clock s r s' :
  class_rep C s -> hierarchy_ok C -> run_statement (class_statement op clock) s = (r, s') -> class_effect C op s r s'.
Proof.
  intros Hrep Hok Hrun. pose proof (class_statement_last op) as Hlast.
  destruct op as [name flag props supers disjoints equivalents|name flag]; cbn [class_effect]; destruct (C !! name) as [d|] eqn:Hn.
  - eapply outcome_flag; [exact Hlast| |exact Hrun]. apply (create_existing C); [done|by eexists].
  - destruct (outcome_run _ _ _ _ _ _ _ Hlast (create_new C s name flag props supers disjoints equivalents Hrep Hn) Hrun)
      as [(? & ? & _ & ?)|?]; tauto.
  - destruct (outcome_run _ _ _ _ _ _ _ Hlast (drop_existing C s name flag Hrep (ho_names C Hok) (mk_is_Some _ _ Hn)) Hrun)
      as [(? & ? & _ & ?)|?]; tauto.
  - eapply outcome_flag; [exact Hlast| |exact Hrun]. by apply (drop_absent C).
Qed.

(** The hierarchy after a statement. *)
Lemma class_effect_ok C op s r s' :
  class_rep C s -> hierarchy_ok C -> class_effect C op s r s' -> exists C', class_rep C' s' /\ hierarchy_ok C'.
Proof.
  intros Hrep Hok. destruct op as [name flag props supers disjoints equivalents|name flag]; cbn [class_effect]; destruct (C !! name) as [d|].
  - intros [-> _]. eauto.
  - intros [(Hc & _ & Hrep' & _)|(_ & _ & ->)]; [|by eauto]. eexists. split; [exact Hrep'|by eapply created_ok].
  - intros [(Hd & _ & Hrep' & _)|(_ & _ & ->)]; [|by eauto]. eexists. split; [exact Hrep'|by eapply dropped_ok].
  - intros [-> _]. eauto.
Qed.

(** C35: the walk over superclasses and equivalent classes returns every class above the
    given one exactly once and no other, if all of them are fewer than
    [MAX_CLASS_DEPTH] links away; otherwise it fails. *)
Theorem class_ancestors_exact C s name :
  class_rep C s ->
  (shallow C MAX_CLASS_DEPTH name /\
   exists l, returns (class_ancestors_of sp name) s l /\ NoDup l /\ forall c, c ∈ l <-> rtc (link C) name c /\ c <> name) \/
  (~ shallow C MAX_CLASS_DEPTH name /\ fails (class_ancestors_of sp name) s (err_depth name)).
Proof. apply class_ancestors_spec. Qed.

(** C33: CREATE CLASS and DROP CLASS do what they say on the hierarchy and the rows that
    hold it, succeed exactly if their conditions hold, and otherwise change nothing. *)
Theorem class_statement_refines C op clock s :
  class_rep C s -> hierarchy_ok C ->
  exists r s', run_statement (class_statement op clock) s = (r, s') /\ class_effect C op s r s'.
Proof.
  intros Hrep Hok. destruct (run_statement (class_statement op clock) s) as [r s'] eqn:Hrun. exists r, s'. split; [done|].
  by eapply class_statement_effect.
Qed.

(** C31: whatever statements on classes are executed, with whatever results, every class
    that a record names exists, equivalence is symmetric and no class is above itself in
    the subclass relation. *)
Theorem class_hierarchy_invariant C s s' :
  class_rep C s -> hierarchy_ok C -> rtc class_step s s' ->
  exists C', class_rep C' s' /\ hierarchy_ok C' /\ forall c, ~ tc (subclass C') c c.
Proof.
  intros Hrep Hok Hsteps. cut (exists C', class_rep C' s' /\ hierarchy_ok C').
  { intros (C' & Hrep' & Hok'). exists C'. split_and!; [done|done|]. intros c. by apply hierarchy_acyclic. }
  revert C Hrep Hok. induction Hsteps as [s|s s1 s2 [op clock r s1' Hrun] _ IH]; intros C Hrep Hok; [by eauto|].
  pose proof (class_statement_effect C op clock s r s1' Hrep Hok Hrun) as Heff.
  destruct (class_effect_ok C op s r s1' Hrep Hok Heff) as (C1 & Hrep1 & Hok1). by apply (IH C1).
Qed.

(** ** A class that is too deep *)

Lemma reach_closed C a c : hierarchy_ok C -> is_Some (C !! a) -> rtc (link C) a c -> is_Some (C !! c).
Proof.
  intros Hok Ha Hc. revert c Hc. apply rtc_ind_r; [done|]. intros y z _ Hl _. unfold link, above in Hl.
  destruct (C !! y) as [d|] eqn:Hd; [|by apply not_elem_of_nil in Hl]. apply (ho_closed _ Hok y d); [done|]. rewrite !elem_of_app. set_solver.
Qed.

Section deep.
Context (C : Hierarchy) (s : MemoryKVStore) (name parent : bytes).
Context (Hok : hierarchy_ok C) (Hnew : C !! name = None) (Hparent : is_Some (C !! parent)).

Lemma link_created a b : a <> name -> link (created C name [parent] [] []) a b <-> link C a b.
Proof.
  intros Ha. unfold link, above, created. rewrite lookup_insert_ne, map_lookup_imap by done. destruct (C !! a) as [d|]; [|done].
  cbn. by rewrite bool_decide_eq_false_2 by apply not_elem_of_nil.
Qed.

Lemma bsteps_created k a c : is_Some (C !! a) -> bsteps (link (created C name [parent] [] [])) k a c -> bsteps (link C) k a c.
Proof.
  intros Ha Hs. induction Hs as [|n x y z Hxy _ IH]; [constructor|].
  assert (Hx : x <> name) by (intros ->; rewrite Hnew in Ha; by destruct Ha). apply link_created in Hxy; [|done].
  eapply bsteps_l; [exact Hxy|]. apply IH. apply (reach_closed C x); [done|done|by apply rtc_once].
Qed.

Lemma rtc_created a c : is_Some (C !! a) -> rtc (link C) a c -> rtc (link (created C name [parent] [] [])) a c.
Proof.
  intros Ha Hs. induction Hs as [|x y z Hxy _ IH]; [constructor|].
  assert (Hx : x <> name) by (intros ->; rewrite Hnew in Ha; by destruct Ha).
  eapply rtc_l; [by apply link_created|]. apply IH. apply (reach_closed C x); [done|done|by apply rtc_once].
Qed.

Lemma link_new b : link (created C name [parent] [] []) name b <-> b = parent.
Proof. unfold link, above, created. rewrite lookup_insert_eq. cbn. apply list_elem_of_singleton. Qed.

(** The new class is one link farther from everything. *)
Lemma created_shallow k : shallow (created C name [parent] [] []) (S (S k)) name -> shallow C (S k) parent.
Proof.
  intros Hs c Hc. pose proof (rtc_created parent c Hparent Hc) as Hc'.
  assert (Hcn : c <> name) by (intros ->; pose proof (reach_closed C parent name Hok Hparent Hc) as [d Hd]; congruence).
  specialize (Hs c ltac:(by eapply rtc_l; [apply link_new|])). cbn [Nat.pred] in *. inversion Hs as [|n x y z Hl Hb]; subst; [done|].
  apply link_new in Hl as ->. by apply bsteps_created.
Qed.
End deep.

(** C40: CREATE CLASS accepts a subclass of a class whose farthest ancestor is as far as
    the walk can reach, but the walk from the new class then always fails: the depth is
    checked for the parent and not for the class that is created. *)
Theorem deep_class_unusable C s name parent flag props clock :
  class_rep C s -> hierarchy_ok C -> C !! name = None -> look s (SchemaKey.tag sp name) = None -> is_Some (C !! parent) ->
  shallow C MAX_CLASS_DEPTH parent -> ~ shallow C (Nat.pred MAX_CLASS_DEPTH) parent ->
  exists c' s', run_statement (handle_create_class ctx name flag props [parent] [] [] clock) s = (Ok (tt, c'), s') /\
    fails (class_ancestors_of sp name) s' (err_depth name).
Proof.
  intros Hrep Hok Hnew Htag Hparent Hsh Hdeep.
  assert (Hcan : creatable C s name [parent] [] []).
  { split; try done. apply Forall_singleton. split_and!; [|done|done|].
    - intros ->. rewrite Hnew in Hparent. by destruct Hparent.
    - intros Hr. pose proof (reach_closed C parent name Hok Hparent Hr) as [d Hd]. congruence. }
  pose proof (class_statement_effect C (CreateClass name flag props [parent] [] []) clock s) as Heff. cbn [class_statement class_effect] in Heff.
  destruct (run_statement _ s) as [r s']. specialize (Heff r s' Hrep Hok eq_refl). rewrite Hnew in Heff.
  destruct Heff as [(_ & Hr & Hrep' & _)|[Hno _]]; [|done]. destruct r as [[[] c']|]; [|done]. exists c', s'. split; [done|].
  destruct (class_ancestors_spec _ s' name Hrep') as [[Hs _]|[_ Hf]]; [|done]. exfalso. apply Hdeep. by apply created_shallow in Hs.
Qed.
End facts.
