(* ===== verification/ShapeFacts.v ===== *)
(** * Shapes

    A vertex passes the check at write time exactly if it conforms to every shape whose
    target is one of its tags or above one. Witnesses of the theorems on classes and
    shapes. *)

From Stdlib Require Import ZArith Lia Strings.Byte Strings.String.
From stdpp Require Import base tactics gmap relations countable list.
From S2P Require Import Prelude OrdMap History KVStore KVStoreFacts KVDyn Temporal Text SchemaKey Value IndexManager Codecs.
From S2P Require Import Exec Evaluator EvaluatorFacts SpaceDdl DmlStaging Dml DmlRules EdgeWrite Classes ClassFacts.

Section shapes.
Context `{SerdeJson ClassDef, !SerdeJsonLaws ClassDef, !SerdeJsonTotal ClassDef (fun _ => True)}.
Context `{SerdeJson ClassLinks, !ClassJson} `{SerdeJson ShapeDef} `{MessageText} `{EvalPlatform}.
Context (sp : bytes).

(** What a constraint asks of the properties of a vertex. *)
Definition conforms (props : gmap bytes Value) (c : ShapeConstraint) : Prop :=
  match kind c with
  | Required => exists v, props !! property c = Some v /\ v <> VEmpty /\ forall n, v <> VNull n
  | OfType dt => forall v, props !! property c = Some v -> value_matches_type v dt = true
  | Predicate e => evaluate_condition e (with_current empty_context props) = Some (Ok true)
  end.

Lemma constraint_violation_none props c : constraint_violation props c = Some None <-> conforms props c.
Proof.
  unfold constraint_violation, conforms. destruct (kind c) as [|dt|e].
  - destruct (props !! property c) as [v|]; [|split; [done|by intros (? & ? & _)]].
    destruct v; simpl; split; first [by intros [=]|by intros (? & [= <-] & He & Hn); destruct (He eq_refl)
      |by intros (? & [= <-] & He & Hn); destruct (Hn _ eq_refl)|intros _; eexists; split_and!; done|done].
  - destruct (props !! property c) as [v|]; [|split; [by intros _ ? ?|done]].
    destruct (is_absent (Some v)) eqn:Ha; cbn [negb andb].
    + split; [|done]. intros _ v' [= <-]. by destruct v.
    + destruct (value_matches_type v dt) eqn:Hv; cbn [negb]; split; try done; [by intros _ v' [= <-]|].
      intros Hall. by rewrite (Hall v eq_refl) in Hv.
  - destruct (evaluate_condition e _) as [[[]|]|]; split; by intros [=].
Qed.

Lemma violations_none props cs : violations props cs = Some [] <-> Forall (conforms props) cs.
Proof.
  induction cs as [|c cs IH]; cbn [violations]; [split; [constructor|done]|].
  transitivity (constraint_violation props c = Some None /\ violations props cs = Some []).
  - destruct (constraint_violation props c) as [[v|]|]; [|..|split; [done|by intros [? _]]];
      destruct (violations props cs) as [vs|]; cbn [option_list app]; split; try done; try (by intros [? ?]).
  - rewrite constraint_violation_none, IH. symmetry. apply List.Forall_cons_iff.
Qed.

(** The classes of a vertex with the given tags. *)
Definition has_class (C : Hierarchy) (tag_names : list bytes) (c : bytes) : Prop := exists tag, tag ∈ tag_names /\ rtc (link C) tag c.

(** The walk over the classes of the tags ends exactly if no tag has a class too far above
    it, and then collects the classes of the vertex. *)
Lemma decides_classes C s tag_names :
  class_rep sp C s ->
  (Forall (shallow C MAX_CLASS_DEPTH) tag_names /\
   exists set, returns (d_fold (add_classes sp) ∅ tag_names) s set /\ forall c, c ∈ set <-> has_class C tag_names c) \/
  (~ Forall (shallow C MAX_CLASS_DEPTH) tag_names /\ exists e, fails (d_fold (add_classes sp) ∅ tag_names) s e).
Proof.
  intros Hrep. unfold has_class.
  assert (Hg : forall acc : gset bytes,
    (Forall (shallow C MAX_CLASS_DEPTH) tag_names /\ exists set, returns (d_fold (add_classes sp) acc tag_names) s set /\
       forall c, c ∈ set <-> c ∈ acc \/ exists tag, tag ∈ tag_names /\ rtc (link C) tag c) \/
    (~ Forall (shallow C MAX_CLASS_DEPTH) tag_names /\ exists e, fails (d_fold (add_classes sp) acc tag_names) s e)).
  { induction tag_names as [|tag tags IH]; intros acc.
    { left. split; [constructor|]. exists acc. split; [apply returns_ret|set_solver]. }
    rewrite Forall_cons. cbn [d_fold]. destruct (class_ancestors_spec sp C s tag Hrep) as [[Htag (l & Hl & _ & Hin)]|[Hno He]].
    2:{ right. split; [tauto|]. exists (err_depth tag). apply post_bind, post_bind. eapply post_conseq; [|exact He]. done. }
    assert (Hadd : returns (add_classes sp acc tag) s (list_to_set l ∪ ({[tag]} ∪ acc)))
      by (eapply returns_bind; [exact Hl|apply returns_ret]).
    destruct (IH (list_to_set l ∪ ({[tag]} ∪ acc))) as [(Hs & set & Hset & Hiff)|[Hno [e He]]].
    2:{ right. split; [tauto|]. exists e. by eapply post_returns. }
    left. split; [done|]. exists set. split; [by eapply returns_bind|].
    intros c. rewrite Hiff. rewrite !elem_of_union, elem_of_list_to_set, elem_of_singleton, Hin. setoid_rewrite elem_of_cons.
    assert (rtc (link C) tag c <-> (rtc (link C) tag c /\ c <> tag) \/ c = tag).
    { destruct (decide (c = tag)) as [->|]; [|tauto]. split; [by right|intros _; constructor]. }
    naive_solver. }
  destruct (Hg ∅) as [(Hs & set & Hset & Hiff)|Hno]; [left; split; [done|]|by right].
  exists set. split; [done|]. intros c. rewrite Hiff. set_solver.
Qed.

(** The shapes a vertex has to conform to. *)
Definition shapes_hold (C : Hierarchy) (shapes : list ShapeDef) (tag_names : list bytes) (props : gmap bytes Value) : Prop :=
  Forall (fun shape => has_class C tag_names (target_class shape) -> Forall (conforms props) (constraints shape)) shapes.

Lemma decides_shape (C : Hierarchy) (set : gset bytes) (s : MemoryKVStore) tag_names props shape :
  (forall c, c ∈ set <-> has_class C tag_names c) ->
  decides (has_class C tag_names (target_class shape) -> Forall (conforms props) (constraints shape)) (check_shape props set shape) s tt.
Proof.
  intros Hset. unfold check_shape. case_bool_decide as Hin; cbn [negb].
  - apply Hset in Hin. rewrite <- violations_none. unfold shape_violations.
    destruct (violations props (constraints shape)) as [[|[prop reason] vs]|]; [left; split; [done|apply returns_ret]|..];
      apply decides_fail; intros Hv; by specialize (Hv Hin).
  - left. split; [|apply returns_ret]. intros Hc. by apply Hset in Hc.
Qed.

(** What the check accepts: without shapes every vertex, otherwise those that conform to
    the shapes and none of whose tags has a class too far above it. *)
Definition shapes_accept (C : Hierarchy) (shapes : list ShapeDef) (tag_names : list bytes) (props : gmap bytes Value) : Prop :=
  shapes = [] \/ (Forall (shallow C MAX_CLASS_DEPTH) tag_names /\ shapes_hold C shapes tag_names props).

Lemma accepted_conforms C shapes tag_names props : shapes_accept C shapes tag_names props -> shapes_hold C shapes tag_names props.
Proof. intros [->|[_ Hs]]; [constructor|done]. Qed.

(** The check of a vertex that is written accepts it exactly if it conforms to every
    declared shape whose target is one of its tags or a class above one: required
    properties are present, typed properties have their type and predicates are true. *)
Lemma decides_write_shapes C s shapes tag_names props :
  class_rep sp C s -> returns (load_shapes sp) s shapes ->
  decides (shapes_accept C shapes tag_names props) (validate_write_shapes sp tag_names props) s tt.
Proof.
  intros Hrep Hshapes. unfold validate_write_shapes, shapes_accept.
  assert (Hb : forall P (f : list ShapeDef -> DML unit), decides P (f shapes) s tt -> decides P (d_bind (load_shapes sp) f) s tt).
  { intros P f Hf. eapply decides_iff; [|eapply decides_bind; [by apply decides_returns|intros _; exact Hf]]. tauto. }
  apply Hb. case_bool_decide as Hn.
  - destruct shapes; [|done]. left. split; [by left|apply returns_ret].
  - assert (Hne : shapes <> []) by by intros ->.
    destruct (decides_classes C s tag_names Hrep) as [(Hsh & set & Hset & Hiff)|[Hno [e He]]].
    + eapply decides_iff; [|eapply decides_bind; [by apply decides_returns|intros _]]; [|by apply decides_for_each; intros; apply decides_shape].
      unfold shapes_hold. tauto.
    + right. split; [tauto|]. exists e. apply post_bind. eapply post_conseq; [|exact He]. done.
Qed.
End shapes.

(** ** Witnesses *)

Module ClassDemo.
Import EvalDemo.

#[export] Instance class_eq_dec : EqDecision ClassDef.
Proof. solve_decision. Defined.
#[export, refine] Instance class_countable : Countable ClassDef :=
  inj_countable' (fun d => (class_name d, superclasses d, disjoint d, equivalent_classes d))
    (fun '(n, sup, dis, eqv) => mkClass n sup dis eqv) _.
Proof. by intros []. Defined.

#[export] Instance class_json : SerdeJson ClassDef := ref_json ClassDef.
#[export] Instance class_json_laws : SerdeJsonLaws ClassDef := ref_json_laws ClassDef.
#[export] Instance class_json_total : SerdeJsonTotal ClassDef (fun _ => True) := ref_json_total ClassDef (fun _ => True).
#[export] Instance links_json : SerdeJson ClassLinks := {|
  json_to_vec _ := Err "unsupported"%string;
  json_from_slice b := match ref_read ClassDef b with Ok d => Ok (class_links d) | Err e => Err e end
|}.
#[export] Instance links_of_class : ClassJson.
Proof. intros d b [= <-]. unfold json_from_slice, links_json. by rewrite ref_read_write. Qed.

(** Ages are required and not negative. *)
Definition person_shape : ShapeDef :=
  mkShape (bs "Adult") (bs "0")
    [mkConstraint (bs "age") Required; mkConstraint (bs "age") (OfType DInt64);
     mkConstraint (bs "age") (Predicate (BinaryOp OpGte (Identifier (bs "age")) (Lit (LInt 0))))].
#[export] Instance shape_json : SerdeJson ShapeDef := {|
  json_to_vec _ := Err "unsupported"%string;
  json_from_slice b := if bool_decide (b = bs "{Adult}") then Ok person_shape else Err "syntax"%string
|}.
#[export] Instance value_json : SerdeJson JsonValue := {|
  json_to_vec _ := Ok []; json_from_slice _ := Err "unsupported"%string
|}.
#[export] Instance value_json_total : SerdeJsonTotal JsonValue (fun _ => True).
Proof. intros v _. by eexists. Qed.
#[export] Instance index_json : SerdeJson IndexDef := {|
  json_to_vec _ := Err "unsupported"%string; json_from_slice _ := Err "unsupported"%string
|}.
#[export] Instance flags_json : FromJson SemanticFlags := fun _ => Err "unsupported"%string.

Definition demo_ctx : Ctx := mkCtx (Some (bs "g")) (Some 1) false 0.
Definition demo_clock : tx_clock := Build_tx_clock 0 0.

(** A store with the rows of a hierarchy and further rows [l]. *)
Definition class_store (l : list kv_pair) (C : Hierarchy) : MemoryKVStore :=
  {| data := om_insert_all (l ++ ((fun nd => (SchemaKey.class (bs "g") nd.1, encoded nd.2)) <$> map_to_list C)) [];
     history := [] |}.

Lemma look_class_store l C k :
  look (class_store l C) k = put_value (l ++ ((fun nd => (SchemaKey.class (bs "g") nd.1, encoded nd.2)) <$> map_to_list C)) k.
Proof. unfold look, class_store. cbn [data]. rewrite om_get_insert_all by apply om_wf_nil. unfold put_value. by destruct (last _). Qed.

Lemma class_store_rep l C :
  (forall k n, k ∈ l.*1 -> k <> SchemaKey.class (bs "g") n) -> class_rep (bs "g") C (class_store l C).
Proof.
  intros Hl. split; [apply om_insert_all_wf, om_wf_nil|]. intros n. rewrite look_class_store, put_value_app.
  set (rows := (fun nd => (SchemaKey.class (bs "g") nd.1, encoded nd.2)) <$> map_to_list C).
  assert (Hnd : NoDup rows.*1).
  { assert (rows.*1 = SchemaKey.class (bs "g") <$> (map_to_list C).*1) as -> by (unfold rows; by rewrite <- !list_fmap_compose).
    assert (Inj (=) (=) (SchemaKey.class (bs "g"))) by (intros a b; apply class_key_inj).
    apply (NoDup_fmap_2 _), NoDup_fst_map_to_list. }
  destruct (C !! n) as [d|] eqn:Hn.
  - exists (encoded d). split; [apply encoded_ok|]. rewrite (put_value_elem rows _ (encoded d)); [done|done|].
    apply (list_elem_of_fmap_2' _ _ (n, d)); [by apply elem_of_map_to_list|done].
  - rewrite (put_value_none rows), put_value_none; [done|by intros Hin; apply (Hl _ n) in Hin|].
    unfold rows. rewrite <- list_fmap_compose. intros ([m d] & E & Hin)%list_elem_of_fmap.
    apply (class_key_inj (bs "g") n m) in E as ->. apply elem_of_map_to_list in Hin. congruence.
Qed.

(** Classes [0] to [15], each a subclass of the one before. *)
Definition label (i : nat) : bytes := dec (Z.of_nat i).
Definition chain_class (i : nat) : bytes * ClassDef :=
  (label i, mkClass (label i) (match i with O => [] | S j => [label j] end) [] []).
Definition chain : Hierarchy := list_to_map (chain_class <$> seq 0 16).
Definition chain_rank (c : bytes) : nat := Z.to_nat (default 0 (parse_i64 c)).

(** What the invariant asks for, without equivalences, as a check of each record. *)
Definition record_ok (C : Hierarchy) (n : bytes) (d : ClassDef) : Prop :=
  class_name d = n /\ Forall (fun p => is_Some (C !! p) /\ (chain_rank p < chain_rank n)%nat) (superclasses d) /\
  disjoint d = [] /\ equivalent_classes d = [].

Lemma records_ok C : map_Forall (record_ok C) C -> hierarchy_ok C.
Proof.
  intros Hall. split.
  - intros n d Hn. apply (Hall n d Hn).
  - intros n d p Hn Hp. destruct (Hall n d Hn) as (_ & Hsup & Ed & Ee). rewrite Ed, Ee, !app_nil_r in Hp.
    rewrite Forall_forall in Hsup. by apply Hsup.
  - intros n d m Hn Hm. destruct (Hall n d Hn) as (_ & _ & _ & Ee). rewrite Ee in Hm. by apply not_elem_of_nil in Hm.
  - exists chain_rank. intros c p (d & Hd & Hp). destruct (Hall c d Hd) as (_ & Hsup & _). rewrite Forall_forall in Hsup. by apply Hsup.
Qed.

Lemma chain_ok : hierarchy_ok chain.
Proof. apply records_ok. apply (bool_decide_unpack _). vm_compute. exact I. Qed.

Definition chain_store : MemoryKVStore := class_store [] chain.
Lemma chain_store_rep : class_rep (bs "g") chain chain_store.
Proof. apply class_store_rep. intros k n ?%not_elem_of_nil. done. Qed.

Lemma class_ancestors_exact_witness :
  (shallow chain MAX_CLASS_DEPTH (label 3) /\
   exists l, returns (class_ancestors_of (bs "g") (label 3)) chain_store l /\ NoDup l /\
     forall c, c ∈ l <-> rtc (link chain) (label 3) c /\ c <> label 3) \/
  (~ shallow chain MAX_CLASS_DEPTH (label 3) /\ fails (class_ancestors_of (bs "g") (label 3)) chain_store (err_depth (label 3))).
Proof. apply (class_ancestors_exact (bs "g") chain chain_store (label 3)), chain_store_rep. Defined.

(** [CREATE CLASS x SUBCLASS OF 3 EQUIVALENT TO 5] *)
Definition demo_create : ClassOp := CreateClass (bs "x") false (JArray []) [label 3] [] [label 5].

Lemma class_statement_refines_witness :
  exists r s', run_statement (class_statement demo_ctx demo_create demo_clock) chain_store = (r, s') /\
    class_effect demo_ctx (bs "g") chain demo_create chain_store r s'.
Proof. apply (class_statement_refines demo_ctx (bs "g") eq_refl); [apply chain_store_rep|apply chain_ok]. Defined.

Lemma class_hierarchy_invariant_witness :
  exists C', class_rep (bs "g") C' (run_statement (class_statement demo_ctx demo_create demo_clock) chain_store).2 /\
    hierarchy_ok C' /\ forall c, ~ tc (subclass C') c c.
Proof.
  apply (class_hierarchy_invariant demo_ctx (bs "g") eq_refl chain chain_store); [apply chain_store_rep|apply chain_ok|].
  apply rtc_once. eapply class_step_run. apply surjective_pairing.
Defined.

Lemma deep_class_unusable_witness :
  exists c' s', run_statement (handle_create_class demo_ctx (bs "x") false (JArray []) [label 15] [] [] demo_clock) chain_store =
      (Ok (tt, c'), s') /\ fails (class_ancestors_of (bs "g") (bs "x")) s' (err_depth (bs "x")).
Proof.
  apply (deep_class_unusable demo_ctx (bs "g") eq_refl chain chain_store (bs "x") (label 15)).
  - apply chain_store_rep.
  - apply chain_ok.
  - vm_compute. reflexivity.
  - vm_compute. reflexivity.
  - apply (bool_decide_unpack _). vm_compute. exact I.
  - apply walk_at_end; [unfold MAX_CLASS_DEPTH; lia|]. vm_compute. reflexivity.
  - rewrite <- walk_at_end by (unfold MAX_CLASS_DEPTH; lia). vm_compute. discriminate.
Defined.
End ClassDemo.
