(* ===== verification/VertexDml.v ===== *)
(** * Statements on vertices

    INSERT VERTEX, UPDATE VERTEX and DELETE VERTEX of
    [byoridb-executor/src/executor/dml.rs]: the record of a vertex, the rows that list
    the vertices of a tag, the entries of the tag indexes and the packed embeddings. A
    statement always has an index manager, which works on the staged store; a failure of
    the store inside it is an error of the store. *)

From Stdlib Require Import ZArith Lia Strings.Byte Strings.String.
From stdpp Require Import base tactics gmap list.
From S2P Require Import Prelude OrdMap History KVStore KVDyn Temporal Text SchemaKey Value StorageKey IndexManager.
From S2P Require Import Exec Evaluator Vid SpaceDdl VertexCodec DmlStaging GraphAlgo Dml Classes.

(** [plan::VertexInsert], [plan::UpdatePlan] of a vertex and [plan::DeletePlan]. *)
Record VertexInsert := mkVertexInsert { vi_vid : Vid; vi_tags : list TagData }.
Record VertexUpdate := mkVertexUpdate {
  vu_space : bytes; vu_vid : Vid; vu_tag : option bytes; vu_updates : gmap bytes Value; vu_conditions : option Expression
}.
Record DeletePlan := mkDelete { dp_space : bytes; dp_vids : list Vid; dp_conditions : option Expression }.

(** What an INSERT VERTEX has gathered so far. *)
Record VertexBatch := mkVertexBatch {
  vb_batch : list kv_pair;
  vb_versions : list kv_pair;
  vb_inserted : Z;
  vb_dirty : gset bytes;
  vb_view_deletes : list bytes;
  vb_final : list (Z * VertexData);
  vb_original_tags : gmap Z (gset bytes);
  vb_final_tags : gmap Z (gset bytes)
}.
Definition no_vertices : VertexBatch := mkVertexBatch [] [] 0 ∅ [] [] ∅ ∅.

Definition tag_names (l : list TagData) : list bytes := tag_name <$> l.
Definition tag_set (l : list TagData) : gset bytes := list_to_set (tag_names l).

(** The embeddings of the tags of a vertex. *)
Definition tag_embeddings (l : list TagData) : list (bytes * bytes) := l ≫= fun tag => embeddings (tag_properties tag).

Section vertices.
Context `{DebugText} `{ProstMessage PbVertex} `{ProstMessage PbEdge}.
Context `{SerdeJson JsonValue} `{SerdeJson IndexDef} `{FromJson SemanticFlags} `{MessageText} `{EvalPlatform}.
Context `{SerdeJson ClassLinks} `{SerdeJson ShapeDef}.
Context (wall : nat -> Z) (ctx : Ctx).

(** [Executor::mark_vector_index_dirty]. *)
Definition mark_vector_index_dirty (space prop : bytes) : DML unit := d_call (call_put (SchemaKey.vec_index_dirty space prop) []).

(** ** INSERT VERTEX *)

Definition validate_vertex (space : bytes) (vid_type : SpaceVidType) (vertex : VertexInsert) : DML unit :=
  d_result (validate_write_vid space vid_type (vi_vid vertex)) ;;-
  d_for_each (fun tag => validate_tag_props space (tag_name tag) (tag_properties tag)) (vi_tags vertex) ;;-
  validate_write_shapes space (tag_names (vi_tags vertex)) (flatten_tags (vi_tags vertex)).

(** The tags a vertex had before the statement, and what its record had put into the
    indexes and the embeddings; looked up once for each vertex. *)
Definition original_vertex (space : bytes) (vid : Z) (b : VertexBatch) : DML VertexBatch :=
  match vb_original_tags b !! vid with
  | Some _ => d_ret b
  | None =>
      found <-- d_call (call_get (SchemaKey.vertex space vid)) ;;
      match found with
      | None =>
          d_ret (mkVertexBatch (vb_batch b) (vb_versions b) (vb_inserted b) (vb_dirty b) (vb_view_deletes b) (vb_final b)
                   (<[vid := ∅]> (vb_original_tags b)) (vb_final_tags b))
      | Some existing =>
          old <-- d_result (decode_vertex_checked vid existing) ;;
          keys <-- vertex_index_keys ctx space old ;;
          let vectors := (tag_embeddings (tags old)).*1 in
          d_ret (mkVertexBatch (vb_batch b) (vb_versions b) (vb_inserted b) (list_to_set vectors ∪ vb_dirty b)
                   (vb_view_deletes b ++ keys ++ ((fun prop => SchemaKey.vec_data space prop vid) <$> vectors)) (vb_final b)
                   (<[vid := tag_set (tags old)]> (vb_original_tags b)) (vb_final_tags b))
      end
  end.

Definition add_vertex (space : bytes) (vid_type : SpaceVidType) (b : VertexBatch) (vertex : VertexInsert) : DML VertexBatch :=
  internal <-- created_vid space vid_type [] (vi_vid vertex) ;;
  vid <-- representative_of space internal ;;
  let key := SchemaKey.vertex space vid in
  b <-- original_vertex space vid b ;;
  let codec_vertex := mkVertex vid (vi_tags vertex) in
  data <-- encode_vertex_io codec_vertex ;;
  d_ret (mkVertexBatch (vb_batch b ++ [(key, data)]) (vb_versions b ++ [(key, data)]) (as_i64 (vb_inserted b + 1)) (vb_dirty b)
           (vb_view_deletes b) (om_insert vid codec_vertex (vb_final b)) (vb_original_tags b)
           (<[vid := tag_set (vi_tags vertex)]> (vb_final_tags b))).

(** The embeddings and index entries of a vertex as it ends up. *)
Definition final_rows (space : bytes) (indexes : list IndexDef) (vv : Z * VertexData) : list kv_pair :=
  ((fun pb => (SchemaKey.vec_data space pb.1 vv.1, pb.2)) <$> tag_embeddings (tags vv.2)) ++
  (indexes ≫= fun index =>
     (fun tag => (vertex_entry index vv.1 tag, [])) <$>
       List.filter (fun tag => bool_decide (tag_name tag = schema_name index)) (tags vv.2)).

Definition tagvid_rows (space : bytes) (b : VertexBatch) : list kv_pair :=
  map_to_list (vb_final_tags b) ≫= fun vt => (fun tag => (SchemaKey.tagvid space tag vt.1, [])) <$> elements vt.2.
Definition tagvid_deletes (space : bytes) (b : VertexBatch) : list bytes :=
  map_to_list (vb_final_tags b) ≫= fun vt =>
    (fun tag => SchemaKey.tagvid space tag vt.1) <$> elements (default ∅ (vb_original_tags b !! vt.1) ∖ vt.2).

Definition execute_insert_vertices (space : bytes) (vertices : list VertexInsert) : DML ExecutorResult :=
  space <-- effective_space ctx space ;;
  vid_type <-- d_prog (space_vid_type (is_distributed ctx) space) ;;
  indexes <-- mutation_indexes ctx space IndexTag ;;
  d_for_each (validate_vertex space vid_type) vertices ;;-
  b <-- d_fold (add_vertex space vid_type) no_vertices vertices ;;
  let dirty := list_to_set (vb_final b ≫= fun vv => (tag_embeddings (tags vv.2)).*1) ∪ vb_dirty b in
  let batch := vb_batch b ++ (vb_final b ≫= final_rows space indexes) ++ tagvid_rows space b in
  let deletes := retain_deletes batch (tagvid_deletes space b ++ vb_view_deletes b) in
  batch <-- fence_semantic_batch space batch ;;
  versions <-- draw_versions wall (vb_versions b) ;;
  d_call (call_batch_apply batch deletes versions) ;;-
  d_for_each (mark_vector_index_dirty space) (elements dirty) ;;-
  d_ret (count_result (bs "Inserted") (vb_inserted b)).

(** ** UPDATE VERTEX *)

(** The properties a condition sees: qualified by their tag, and bare, where the first
    tag wins. *)
Definition condition_tag (m : gmap bytes Value) (tag : TagData) : gmap bytes Value :=
  foldl (fun m kv =>
           let m := <[tag_name tag ++ bs "." ++ kv.1 := kv.2]> m in
           match m !! kv.1 with Some _ => m | None => <[kv.1 := kv.2]> m end)
    m (map_to_list (tag_properties tag)).
Definition vertex_context (l : list TagData) : EvalContext := with_current empty_context (foldl condition_tag ∅ l).

(** [collect] of tags into a map from names to properties: a later tag wins. *)
Definition props_by_tag (l : list TagData) : gmap bytes (gmap bytes Value) :=
  collect_map ((fun t => (tag_name t, tag_properties t)) <$> l).

(** The tags with the updates applied to every one of the name; without one, it is
    added. *)
Definition updated_tags (name : bytes) (updates : gmap bytes Value) (l : list TagData) : list TagData :=
  let l := if existsb (fun t => bool_decide (tag_name t = name)) l then l else l ++ [mkTag name ∅] in
  (fun t => if bool_decide (tag_name t = name) then mkTag (tag_name t) (updates ∪ tag_properties t) else t) <$> l.

(** The old entry of an index is removed and the new one added. *)
Definition move_entries (vid : Z) (old : gmap bytes (gmap bytes Value)) (new : list TagData) (index : IndexDef) : DML unit :=
  match old !! schema_name index with
  | Some props => d_call (call_delete (KeyUtils.tag_index_key 1 (idx_id index) (index_values index props) vid))
  | None => d_ret tt
  end ;;-
  match find_tag (schema_name index) new with
  | Some tag => d_call (call_put (vertex_entry index vid tag) [])
  | None => d_ret tt
  end.

Definition refresh_embedding (space : bytes) (vid : Z) (kv : bytes * Value) : DML unit :=
  let vkey := SchemaKey.vec_data space kv.1 vid in
  match pack_embedding kv.2 with
  | Some b => d_call (call_put vkey b)
  | None => d_call (call_delete vkey)
  end ;;-
  mark_vector_index_dirty space kv.1.

Definition known_vid (space : bytes) (vid_type : SpaceVidType) (v : Vid) : DML (option Z) :=
  found <-- d_prog (resolve_vid space vid_type v false) ;;
  match found with
  | Some internal => rep <-- representative_of space internal ;; d_ret (Some rep)
  | None => d_ret None
  end.

Definition execute_update_vertex (u : VertexUpdate) : DML ExecutorResult :=
  space <-- effective_space ctx (vu_space u) ;;
  vid_type <-- d_prog (space_vid_type (is_distributed ctx) space) ;;
  match vu_tag u with
  | None => d_fail (InvalidOperation (bs "Tag name required for UPDATE"))
  | Some tag_name =>
      d_result (validate_write_vid space vid_type (vu_vid u)) ;;-
      validate_tag_props space tag_name (vu_updates u) ;;-
      existing_vid <-- known_vid space vid_type (vu_vid u) ;;
      existing_data <-- match existing_vid with
                        | Some vid => d_call (call_get (SchemaKey.vertex space vid))
                        | None => d_ret None
                        end ;;
      old <-- match existing_vid, existing_data with
              | Some vid, Some data => d_result (decode_vertex_checked vid data)
              | _, _ => d_ret (mkVertex (default 0 existing_vid) [mkTag tag_name ∅])
              end ;;
      pass <-- match vu_conditions u with
               | None => d_ret true
               | Some cond =>
                   match existing_data with
                   | None => d_ret false
                   | Some _ => d_outcome (evaluate_condition cond (vertex_context (tags old)))
                   end
               end ;;
      if negb pass then d_ret (count_result (bs "Updated") 0) else
      let new_tags := updated_tags tag_name (vu_updates u) (tags old) in
      validate_write_shapes space (tag_names new_tags) (flatten_tags new_tags) ;;-
      vid <-- match existing_vid with
              | Some vid => d_ret vid
              | None => created_vid space vid_type (bs "UPDATE ") (vu_vid u)
              end ;;
      let key := SchemaKey.vertex space vid in
      data <-- encode_vertex_io (mkVertex vid new_tags) ;;
      puts <-- fence_semantic_batch space
                 ((key, data) :: ((fun t => (SchemaKey.tagvid space (VertexCodec.tag_name t) vid, [])) <$> new_tags)) ;;
      versions <-- draw_versions wall [(key, data)] ;;
      d_call (call_batch_apply puts [] versions) ;;-
      indexes <-- mutation_indexes ctx space IndexTag ;;
      d_for_each (move_entries vid (props_by_tag (tags old)) new_tags) indexes ;;-
      d_for_each (refresh_embedding space vid) (map_to_list (vu_updates u)) ;;-
      d_ret (count_result (bs "Updated") 1)
  end.

(** ** DELETE VERTEX *)

Definition err_merged_away (vid rep : Z) : ExecutionError :=
  InvalidOperation (bs "vertex " ++ dec vid ++ bs " was merged into representative " ++ dec rep ++
    bs " via owl:sameAs; deletion is unsupported (insertion-only)").
Definition err_has_members (vid : Z) : ExecutionError :=
  InvalidOperation (bs "vertex " ++ dec vid ++ bs " is a sameAs representative with merged members; deletion is unsupported (insertion-only)").

Definition resolve_known_vid (space : bytes) (vid_type : SpaceVidType) (acc : list Z) (v : Vid) : DML (list Z) :=
  found <-- d_prog (resolve_vid space vid_type v false) ;;
  d_ret (acc ++ option_list found).

Definition check_unmerged (space : bytes) (vid : Z) : DML unit :=
  rep <-- representative_of space vid ;;
  if negb (rep =? vid) then d_fail (err_merged_away vid rep) else
  members <-- members_of space vid ;;
  if negb (bool_decide (members = [])) then d_fail (err_has_members vid) else d_ret tt.

(** The rows and the embeddings that go with the vertices deleted so far. *)
Record VertexDeletes := mkVertexDeletes { vd_keys : list bytes; vd_tombstones : list bytes; vd_deleted : Z; vd_dirty : gset bytes }.

Definition delete_entry (vid : Z) (l : list TagData) (index : IndexDef) : DML unit :=
  match find_tag (schema_name index) l with
  | Some tag => d_call (call_delete (vertex_entry index vid tag))
  | None => d_ret tt
  end.

Definition delete_vertex (space : bytes) (conditions : option Expression) (indexes : list IndexDef) (d : VertexDeletes)
    (row : Z * option bytes) : DML VertexDeletes :=
  let '(vid, exists_) := row in
  match exists_ with
  | None => d_ret d
  | Some data =>
      v <-- d_result (decode_vertex_checked vid data) ;;
      pass <-- match conditions with
               | None => d_ret true
               | Some cond => d_outcome (evaluate_condition cond (vertex_context (tags v)))
               end ;;
      if negb pass then d_ret d else
      let key := SchemaKey.vertex space vid in
      d_for_each (delete_entry vid (tags v)) indexes ;;-
      d_ret (mkVertexDeletes
        (vd_keys d ++ key ::
          (tags v ≫= fun tag => SchemaKey.tagvid space (tag_name tag) vid ::
             ((fun pb => SchemaKey.vec_data space pb.1 vid) <$> embeddings (tag_properties tag))))
        (vd_tombstones d ++ [key]) (as_i64 (vd_deleted d + 1))
        (list_to_set (tag_embeddings (tags v)).*1 ∪ vd_dirty d))
  end.

Definition execute_delete (plan : DeletePlan) : DML ExecutorResult :=
  space <-- effective_space ctx (dp_space plan) ;;
  vid_type <-- d_prog (space_vid_type (is_distributed ctx) space) ;;
  resolved <-- d_fold (resolve_known_vid space vid_type) [] (dp_vids plan) ;;
  d_for_each (check_unmerged space) resolved ;;-
  results <-- d_call (call_batch_get (SchemaKey.vertex space <$> resolved)) ;;
  indexes <-- mutation_indexes ctx space IndexTag ;;
  d <-- d_fold (delete_vertex space (dp_conditions plan) indexes) (mkVertexDeletes [] [] 0 ∅) (zip resolved results) ;;
  puts <-- fence_semantic_batch space [] ;;
  tombstones <-- draw_tombstones wall (vd_tombstones d) ;;
  d_call (call_batch_apply puts (vd_keys d) tombstones) ;;-
  d_for_each (mark_vector_index_dirty space) (elements (vd_dirty d)) ;;-
  d_ret (count_result (bs "Deleted") (vd_deleted d)).
End vertices.
