(* ===== verification/VertexRep.v ===== *)
(** * The vertices a store holds

    The vertices of a space as an abstract finite map from ids to tags, and what it means
    that the rows of the store represent it: the record of each vertex, the rows that
    list the vertices of a tag, the entries of the tag indexes and the packed
    embeddings. *)

From Stdlib Require Import ZArith Lia Strings.Byte Strings.String.
From stdpp Require Import base tactics gmap fin_sets list.
From S2P Require Import Prelude OrdMap KVStore KVStoreBatch Text SchemaKey Value Exec Vid SpaceDdl VertexCodec VertexCodecFacts.
From S2P Require Import StorageKey IndexManager IndexFacts DmlStaging GraphAlgo Dml DmlRules EdgeRep EdgeWrite Classes VertexDml.

(** ** Keys *)

Lemma last_colon_inj (p p' x x' : bytes) :
  colon_free x -> colon_free x' -> p ++ bs ":" ++ x = p' ++ bs ":" ++ x' -> p = p' /\ x = x'.
Proof.
  assert (Hone : forall q k x x', colon_free x' -> bs ":" ++ x' = k ++ bs ":" ++ x -> q = q ++ k /\ x = x').
  { intros q [|b k] y y' Hf E; [injection E as ->; by rewrite app_nil_r|]. injection E as _ ->. destruct Hf. set_solver. }
  intros Hx Hx' E. apply app_eq_inv in E as [(k & -> & E)|(k & -> & E)].
  - apply (Hone p' k x x' Hx') in E as [<- ->]. done.
  - apply (Hone p k x' x Hx) in E as [<- ->]. done.
Qed.

Lemma vertex_key_inj sp v v' : i64_ok v -> i64_ok v' -> SchemaKey.vertex sp v = SchemaKey.vertex sp v' -> v = v'.
Proof. intros Hv Hv' E. apply app_inv_head, app_inv_head in E. by apply dec_inj. Qed.

Lemma tagvid_inj sp t v t' v' : i64_ok v -> i64_ok v' -> SchemaKey.tagvid sp t v = SchemaKey.tagvid sp t' v' -> t = t' /\ v = v'.
Proof.
  intros Hv Hv' E. apply app_inv_head, app_inv_head, last_colon_inj in E as [-> E]; [|apply dec_colon_free..].
  split; [done|by apply dec_inj].
Qed.

Lemma vec_data_inj sp p v p' v' : i64_ok v -> i64_ok v' -> SchemaKey.vec_data sp p v = SchemaKey.vec_data sp p' v' -> p = p' /\ v = v'.
Proof.
  intros Hv Hv' E. apply app_inv_head, app_inv_head, last_colon_inj in E as [-> E]; [|apply dec_colon_free..].
  split; [done|by apply dec_inj].
Qed.

(** The rows of vertices. *)
Definition vertex_kinds : list bytes := [bs ":vertex:"; bs ":tagvid:"; bs ":vec:"; bs ":vecidx-dirty:"].
Definition vertex_row (sp k : bytes) : bool := existsb (fun kind => starts_with (sp ++ kind) k) vertex_kinds.

Lemma vertex_row_app sp x : vertex_row sp (sp ++ x) = existsb (fun kind => starts_with kind x) vertex_kinds.
Proof. unfold vertex_row, vertex_kinds. cbn [existsb]. by rewrite !starts_with_app_both. Qed.

Lemma vertex_not_tagvid sp v t v' : SchemaKey.vertex sp v <> SchemaKey.tagvid sp t v'.
Proof. unfold SchemaKey.vertex, SchemaKey.tagvid. key_kinds. Qed.
Lemma vertex_not_vec sp v p v' : SchemaKey.vertex sp v <> SchemaKey.vec_data sp p v'.
Proof. unfold SchemaKey.vertex, SchemaKey.vec_data. key_kinds. Qed.
Lemma vertex_not_dirty sp v p : SchemaKey.vertex sp v <> SchemaKey.vec_index_dirty sp p.
Proof. unfold SchemaKey.vertex, SchemaKey.vec_index_dirty. key_kinds. Qed.
Lemma tagvid_not_vec sp t v p v' : SchemaKey.tagvid sp t v <> SchemaKey.vec_data sp p v'.
Proof. unfold SchemaKey.tagvid, SchemaKey.vec_data. key_kinds. Qed.
Lemma tagvid_not_dirty sp t v p : SchemaKey.tagvid sp t v <> SchemaKey.vec_index_dirty sp p.
Proof. unfold SchemaKey.tagvid, SchemaKey.vec_index_dirty. key_kinds. Qed.
Lemma vec_not_dirty sp q v p : SchemaKey.vec_data sp q v <> SchemaKey.vec_index_dirty sp p.
Proof. unfold SchemaKey.vec_data, SchemaKey.vec_index_dirty. key_kinds. Qed.
Lemma vertex_not_fence sp v : SchemaKey.vertex sp v <> inference_dirty_key sp.
Proof. unfold SchemaKey.vertex, inference_dirty_key. key_kinds. Qed.
Lemma tagvid_not_fence sp t v : SchemaKey.tagvid sp t v <> inference_dirty_key sp.
Proof. unfold SchemaKey.tagvid, inference_dirty_key. key_kinds. Qed.
Lemma vec_not_fence sp p v : SchemaKey.vec_data sp p v <> inference_dirty_key sp.
Proof. unfold SchemaKey.vec_data, inference_dirty_key. key_kinds. Qed.

(** [solve_kinds] closes a goal when a hypothesis equates keys of different kinds. *)
Create HintDb kinds.
#[export] Hint Resolve vertex_not_tagvid vertex_not_vec vertex_not_dirty tagvid_not_vec tagvid_not_dirty vec_not_dirty : kinds.
#[export] Hint Resolve vertex_not_fence tagvid_not_fence vec_not_fence : kinds.
Ltac solve_kinds :=
  exfalso; match goal with
  | H : ?a = ?b |- _ =>
      solve [apply (fun N : a <> b => N H); auto with kinds nocore | apply (fun N : b <> a => N (eq_sym H)); auto with kinds nocore]
  end.

(** ** Entries of tag indexes *)

(** The entries of a vertex with the tags [l]. *)
Definition vertex_entries (ix : list IndexDef) (v : Z) (l : list TagData) : list bytes :=
  filter_map (fun index => vertex_entry index v <$> find_tag (schema_name index) l) ix.

Definition tag_entry_form (ix : list IndexDef) (k : bytes) : Prop :=
  exists index, index ∈ ix /\ starts_with (KeyUtils.tag_index_prefix 1 (idx_id index)) k = true.

Lemma vertex_entry_form ix index v t : index ∈ ix -> tag_entry_form ix (vertex_entry index v t).
Proof.
  intros Hin. exists index. split; [done|]. unfold vertex_entry, KeyUtils.tag_index_key, KeyUtils.tag_index_prefix.
  apply starts_with_iff. eexists. done.
Qed.

Lemma vertex_entries_elem ix v l k :
  k ∈ vertex_entries ix v l <-> exists index t, index ∈ ix /\ find_tag (schema_name index) l = Some t /\ k = vertex_entry index v t.
Proof.
  unfold vertex_entries. rewrite elem_of_filter_map. split.
  - intros (index & Hin & (t & Ht & ->)%fmap_Some). by exists index, t.
  - intros (index & t & Hin & Ht & ->). exists index. by rewrite Ht.
Qed.

Lemma vertex_entries_snoc ix index v l :
  vertex_entries (ix ++ [index]) v l = vertex_entries ix v l ++ option_list (vertex_entry index v <$> find_tag (schema_name index) l).
Proof. unfold vertex_entries. rewrite filter_map_app. cbn [filter_map]. by destruct (find_tag _ l). Qed.

Lemma vertex_entries_form ix v l k : k ∈ vertex_entries ix v l -> tag_entry_form ix k.
Proof. intros (index & t & Hin & _ & ->)%vertex_entries_elem. by apply vertex_entry_form. Qed.

Lemma name_not_tag_entry ix sp l : identifier sp = true -> ~ tag_entry_form ix (sp ++ l).
Proof.
  intros Hsp (index & _ & [l' E]%starts_with_iff). pose proof (identifier_chars sp Hsp) as Hc.
  destruct sp as [|b sp]; [done|]. unfold KeyUtils.tag_index_prefix in E. injection E as -> _.
  apply Forall_cons in Hc as [Hb _]. by apply name_char_bounds in Hb as [[] _].
Qed.

(** An entry belongs to one vertex and one index. *)
Lemma vertex_entry_inj ix index1 index2 v1 v2 t1 t2 :
  indexes_ok ix -> i64_ok v1 -> i64_ok v2 -> index1 ∈ ix -> index2 ∈ ix ->
  vertex_entry index1 v1 t1 = vertex_entry index2 v2 t2 -> index1 = index2 /\ v1 = v2.
Proof.
  intros Hok Hv1 Hv2 Hi1 Hi2 E. unfold vertex_entry, KeyUtils.tag_index_key in E.
  apply app_inj_1 in E as [Eh E]; [|by rewrite !length_app, !length_be_bytes].
  apply app_inv_head, app_inv_head in Eh. split; [by eapply index_id_inj|].
  apply app_inj_2 in E as [_ E]; [|by rewrite !length_i64_be].
  by rewrite <- (i64_be_roundtrip v1), E, i64_be_roundtrip.
Qed.

Lemma entries_one_vertex ix v1 v2 l1 l2 k :
  indexes_ok ix -> i64_ok v1 -> i64_ok v2 -> k ∈ vertex_entries ix v1 l1 -> k ∈ vertex_entries ix v2 l2 -> v1 = v2.
Proof.
  intros Hok Hv1 Hv2 (i1 & t1 & Hi1 & _ & ->)%vertex_entries_elem (i2 & t2 & Hi2 & _ & E)%vertex_entries_elem.
  by eapply vertex_entry_inj in E as [_ E].
Qed.

Lemma not_vertex_entry ix sp v l x : identifier sp = true -> sp ++ x ∉ vertex_entries ix v l.
Proof. intros Hsp Hk%vertex_entries_form. by apply name_not_tag_entry in Hk. Qed.

(** ** Tags *)

Lemma find_tag_Some name l t : find_tag name l = Some t -> t ∈ l /\ tag_name t = name.
Proof. unfold find_tag. intros [Hin Hn]%List.find_some. by rewrite list_elem_of_In, bool_decide_eq_true in *. Qed.

Lemma find_tag_elem l t : NoDup (tag_names l) -> t ∈ l -> find_tag (tag_name t) l = Some t.
Proof.
  induction l as [|t' l IH]; [by intros _ ?%not_elem_of_nil|]. unfold tag_names. rewrite fmap_cons, NoDup_cons. intros [Hn Hnd].
  rewrite elem_of_cons. unfold find_tag. cbn [List.find]. intros [->|Hin]; [by rewrite bool_decide_eq_true_2|].
  rewrite bool_decide_eq_false_2; [by apply IH|]. intros E. apply Hn. rewrite E. by apply list_elem_of_fmap_2.
Qed.

Lemma find_tag_iff l name t : NoDup (tag_names l) -> find_tag name l = Some t <-> t ∈ l /\ tag_name t = name.
Proof. intros Hnd. split; [apply find_tag_Some|]. intros [Hin <-]. by apply find_tag_elem. Qed.

(** The embedding of a property: that of the last tag with one. *)
Definition embedding (l : list TagData) (prop : bytes) : option bytes := put_value (tag_embeddings l) prop.

Lemma embedding_is_Some l p : is_Some (embedding l p) <-> p ∈ (tag_embeddings l).*1.
Proof. apply put_value_is_Some. Qed.

(** [k] is the row of an embedding, or of a tag, of the vertex. *)
Definition has_embedding (sp : bytes) (v : Z) (l : list TagData) (k : bytes) : Prop :=
  exists p, p ∈ (tag_embeddings l).*1 /\ k = SchemaKey.vec_data sp p v.
Definition has_tag_row (sp : bytes) (v : Z) (l : list TagData) (k : bytes) : Prop :=
  exists t, t ∈ tag_names l /\ k = SchemaKey.tagvid sp t v.

Lemma tag_set_elem l name : name ∈ tag_set l <-> name ∈ tag_names l.
Proof. unfold tag_set. by rewrite elem_of_list_to_set. Qed.

(** ** Records of vertices *)

Section records.
Context `{DebugText} `{ProstMessage PbVertex} `{!ProstLaws PbVertex} `{SerdeJson JsonValue}.

Definition vertex_bytes (v : Z) (l : list TagData) : bytes := PROTO_MAGIC :: prost_encode (vertex_to_proto (mkVertex v l)).

Lemma encode_vertex_bytes v l : encode_vertex (mkVertex v l) = Ok (vertex_bytes v l).
Proof. done. Qed.

(** The tags have different names, and a record keeps them. *)
Definition tags_ok (l : list TagData) : Prop := NoDup (tag_names l) /\ Forall kept_tag l.

Lemma decode_vertex_bytes v l : tags_ok l -> decode_vertex_checked v (vertex_bytes v l) = Ok (mkVertex v l).
Proof.
  intros [_ [Hst Hd]%(kept_tags_vertex v)]. unfold decode_vertex_checked, vertex_bytes. cbn [is_proto_format]. rewrite bool_decide_eq_true_2 by done.
  rewrite vertex_roundtrip, Hst by done. cbn [vid andb]. by rewrite Z.eqb_refl.
Qed.
End records.

(** ** Representation *)

Notation Vertices := (gmap Z (list TagData)).

Section rep.
Context `{DebugText} `{ProstMessage PbVertex} `{SerdeJson JsonValue}.
(** The space and its tag indexes. *)
Context (sp : bytes) (ix : list IndexDef).

(** The rows of [s] are the vertices of [V]. *)
Record vertex_rep (V : Vertices) (s : MemoryKVStore) : Prop := {
  vr_wf : om_wf (data s);
  vr_ids : map_Forall (fun v l => i64_ok v /\ tags_ok l) V;
  (** The record of each vertex. *)
  vr_rows v : i64_ok v ->
    match V !! v with
    | None => look s (SchemaKey.vertex sp v) = None
    | Some l => exists b, look s (SchemaKey.vertex sp v) = Some b /\ decode_vertex_checked v b = Ok (mkVertex v l)
    end;
  (** A tag lists exactly the vertices that have it. *)
  vr_tagvid t v : i64_ok v -> is_Some (look s (SchemaKey.tagvid sp t v)) <-> exists l, V !! v = Some l /\ t ∈ tag_names l;
  (** The indexes hold exactly the entries of the vertices. *)
  vr_index k : tag_entry_form ix k -> is_Some (look s k) <-> exists v l, V !! v = Some l /\ k ∈ vertex_entries ix v l;
  (** The packed embeddings are those of the vertices. *)
  vr_vec p v : i64_ok v -> look s (SchemaKey.vec_data sp p v) = V !! v ≫= fun l => embedding l p
}.

Lemma rep_vertex V s v l : vertex_rep V s -> V !! v = Some l -> i64_ok v /\ tags_ok l.
Proof. intros Hr Hl. exact (vr_ids _ _ Hr v l Hl). Qed.

(** What a statement on vertices may write: rows of vertices, entries of the tag
    indexes and the marker of an unfinished inference. *)
Definition vertex_area (k : bytes) : Prop := vertex_row sp k = true \/ tag_entry_form ix k \/ k = inference_dirty_key sp.

(** The statement took the vertices from [V] to [V'], wrote nothing else, and marked
    the vector index of each property one of whose embeddings changed. *)
Record vertex_effect (V V' : Vertices) (s s' : MemoryKVStore) : Prop := {
  ve_rep : vertex_rep V' s';
  ve_dirty p v : i64_ok v -> look s' (SchemaKey.vec_data sp p v) <> look s (SchemaKey.vec_data sp p v) ->
    look s' (SchemaKey.vec_index_dirty sp p) = Some [];
  ve_frame k : ~ vertex_area k -> look s' k = look s k
}.

Lemma outside_area k : ~ vertex_area k ->
  (forall v, k <> SchemaKey.vertex sp v) /\ (forall t v, k <> SchemaKey.tagvid sp t v) /\ (forall p v, k <> SchemaKey.vec_data sp p v) /\
  (forall p, k <> SchemaKey.vec_index_dirty sp p) /\ (forall v l, k ∉ vertex_entries ix v l) /\ k <> inference_dirty_key sp.
Proof.
  intros Hk. assert (Hrow : forall x, vertex_row sp (sp ++ x) = true -> k <> sp ++ x) by (intros x Hx ->; apply Hk; by left).
  split_and!; try (intros; apply Hrow; by rewrite vertex_row_app).
  - intros v l Hin. apply Hk. right; left. by eapply vertex_entries_form.
  - intros ->. apply Hk. by right; right.
Qed.

(** ** Changes *)

Definition vertex_changes_ok (ch : gmap Z (option (list TagData))) : Prop :=
  forall v o, ch !! v = Some o -> i64_ok v /\ forall l, o = Some l -> tags_ok l.

Definition entry_dropped (ch : gmap Z (option (list TagData))) (V : Vertices) (k : bytes) : Prop :=
  exists v l, is_Some (ch !! v) /\ V !! v = Some l /\ k ∈ vertex_entries ix v l.
Definition entry_added (ch : gmap Z (option (list TagData))) (k : bytes) : Prop :=
  exists v l, ch !! v = Some (Some l) /\ k ∈ vertex_entries ix v l.

Context `{!ProstLaws PbVertex} (Hix : indexes_ok ix).

Lemma vertex_rep_changed ch V s s' :
  vertex_rep V s -> vertex_changes_ok ch -> om_wf (data s') ->
  (forall v, i64_ok v -> look s' (SchemaKey.vertex sp v) =
     match ch !! v with Some o => vertex_bytes v <$> o | None => look s (SchemaKey.vertex sp v) end) ->
  (forall t v, i64_ok v -> is_Some (look s' (SchemaKey.tagvid sp t v)) <->
     match ch !! v with Some o => exists l, o = Some l /\ t ∈ tag_names l | None => is_Some (look s (SchemaKey.tagvid sp t v)) end) ->
  (forall k, tag_entry_form ix k -> is_Some (look s' k) <-> entry_added ch k \/ is_Some (look s k) /\ ~ entry_dropped ch V k) ->
  (forall p v, i64_ok v -> look s' (SchemaKey.vec_data sp p v) =
     match ch !! v with Some o => o ≫= fun l => embedding l p | None => look s (SchemaKey.vec_data sp p v) end) ->
  vertex_rep (changed ch V) s'.
Proof.
  intros Hr Hch Hwf Hrows Htag Hent Hvec. split; [done|..].
  - intros v l Hl. rewrite changed_lookup in Hl. destruct (ch !! v) as [o|] eqn:Ev; [|by eapply rep_vertex].
    apply Hch in Ev as [Hv Ho]. split; [done|]. by apply Ho.
  - intros v Hv. rewrite Hrows, changed_lookup by done. destruct (ch !! v) as [[l|]|] eqn:Ev; [|done|by apply (vr_rows _ _ Hr)].
    exists (vertex_bytes v l). split; [done|]. apply decode_vertex_bytes. apply Hch in Ev as [_ Ho]. by apply Ho.
  - intros t v Hv. rewrite Htag, changed_lookup by done. destruct (ch !! v); [done|]. by apply (vr_tagvid _ _ Hr).
  - intros k Hk. rewrite Hent by done. setoid_rewrite changed_lookup. split.
    + intros [(v & l & Hc & Hin)|[Hs Hnd]]; [exists v, l; by rewrite Hc|].
      apply (vr_index _ _ Hr k Hk) in Hs as (v & l & Hl & Hin). exists v, l.
      destruct (ch !! v) eqn:Ev; [|done]. destruct Hnd. exists v, l. by rewrite Ev.
    + intros (v & l & Hl & Hin). destruct (ch !! v) as [o|] eqn:Ev; [left; subst o; by exists v, l|]. right.
      split; [apply (vr_index _ _ Hr k Hk); by exists v, l|]. intros (v' & l' & Hc & Hl' & Hin').
      destruct (rep_vertex _ _ _ _ Hr Hl) as [Hv _]. destruct (rep_vertex _ _ _ _ Hr Hl') as [Hv' _].
      assert (v = v') as <- by by eapply entries_one_vertex. rewrite Ev in Hc. by destruct Hc.
  - intros p v Hv. rewrite Hvec, changed_lookup by done. destruct (ch !! v); [done|]. by apply (vr_vec _ _ Hr).
Qed.
End rep.

(** ** What the statements read and mark *)

Section ready.
Context `{SerdeJson JsonValue} `{SerdeJson IndexDef} `{FromJson SemanticFlags}.
Context (ctx : Ctx) (sp : bytes) (ix : list IndexDef).

(** The space has integer ids, the tag indexes [ix] and readable edge schemas. *)
Record vertices_ready (s : MemoryKVStore) : Prop := {
  vs_vids : returns (d_prog (space_vid_type (is_distributed ctx) sp)) s Int64;
  vs_indexes : returns (mutation_indexes ctx sp IndexTag) s ix;
  vs_meta : exists m, returns (load_rel_meta sp) s m
}.

Lemma returns_vertex_keys s v l : vertices_ready s -> returns (vertex_index_keys ctx sp (mkVertex v l)) s (vertex_entries ix v l).
Proof. intros Hr. eapply returns_bind; [by apply vs_indexes|]. apply returns_ret. Qed.
End ready.

Lemma look_put s k v k' : om_wf (data s) ->
  look (with_data s (om_insert k v (data s))) k' = if bool_decide (k' = k) then Some v else look s k'.
Proof.
  intros Hwf. unfold look. cbn [data with_data]. rewrite om_get_insert by done. destruct (decide (k' = k)) as [->|Hne].
  - by rewrite cmp_refl, bool_decide_eq_true_2.
  - rewrite bool_decide_eq_false_2 by done. destruct (cmp k' k) eqn:Ec; [by apply cmp_eq_iff in Ec|done..].
Qed.

Lemma look_remove s k k' : om_wf (data s) ->
  look (with_data s (om_remove k (data s))) k' = if bool_decide (k' = k) then None else look s k'.
Proof.
  intros Hwf. unfold look. cbn [data with_data]. rewrite om_get_remove by done. destruct (decide (k' = k)) as [->|Hne].
  - by rewrite cmp_refl, bool_decide_eq_true_2.
  - rewrite bool_decide_eq_false_2 by done. destruct (cmp k' k) eqn:Ec; [by apply cmp_eq_iff in Ec|done..].
Qed.

(** The rows after the vector indexes of some properties were marked. *)
Lemma marks_dirty sp l s (Q : unit -> MemoryKVStore -> Prop) :
  om_wf (data s) ->
  (forall s', om_wf (data s') -> (forall p, p ∈ l -> look s' (SchemaKey.vec_index_dirty sp p) = Some []) ->
    (forall k, (forall p, k <> SchemaKey.vec_index_dirty sp p) -> look s' k = look s k) -> Q tt s') ->
  succeeds (d_for_each (mark_vector_index_dirty sp) l) s Q.
Proof.
  intros Hwf HQ. apply (post_for_each _ _ (fun seen s' => om_wf (data s') /\
    (forall p, p ∈ seen -> look s' (SchemaKey.vec_index_dirty sp p) = Some []) /\
    forall k, (forall p, k <> SchemaKey.vec_index_dirty sp p) -> look s' k = look s k)).
  - split_and!; [done|by intros p ?%not_elem_of_nil|done].
  - intros seen p s' (Hwf' & Hm & Hl) _. apply post_put. split_and!; [by apply om_insert_wf|..].
    + intros q Hq. rewrite look_put by done. case_bool_decide as E; [done|]. apply Hm.
      apply elem_of_app in Hq as [?| ->%list_elem_of_singleton]; done.
    + intros k Hk. rewrite look_put by done. rewrite bool_decide_eq_false_2 by done. by apply Hl.
  - intros s' (Hwf' & Hm & Hl). by apply HQ.
Qed.

(** ** Batches *)

Lemma batch_look_retain puts extra deletes s k :
  k ∉ extra.*1 ->
  batch_look (puts ++ extra) (retain_deletes puts deletes) s k =
    match put_value puts k with Some v => Some v | None => if bool_decide (k ∈ deletes) then None else look s k end.
Proof.
  intros Hx. unfold batch_look. rewrite put_value_app, (put_value_none extra) by done.
  pose proof (put_value_is_Some puts k) as Hp. destruct (put_value puts k) as [v|].
  - rewrite bool_decide_eq_false_2; [done|]. rewrite retain_deletes_elem. intros [_ Hn]. by apply Hn, Hp.
  - rewrite (bool_decide_ext (k ∈ retain_deletes puts deletes) (k ∈ deletes)); [done|]. rewrite retain_deletes_elem, <- Hp.
    split; [by intros []|]. intros Hd. split; [done|by intros []].
Qed.

(** Only the puts for [a] are about [k]. *)
Lemma put_value_bind {A} (f : A -> list kv_pair) l a k :
  a ∈ l -> (forall b, b ∈ l -> k ∈ (f b).*1 -> b = a) -> put_value (l ≫= f) k = put_value (f a) k.
Proof.
  intros Ha Hf. destruct (decide (k ∈ (f a).*1)) as [Hk|Hk].
  - induction l as [|b l IH] using rev_ind; [by apply not_elem_of_nil in Ha|].
    rewrite bind_app, put_value_app. cbn [mbind list_bind]. rewrite app_nil_r. destruct (decide (k ∈ (f b).*1)) as [Hb|Hb].
    + rewrite (Hf b) by set_solver. apply put_value_is_Some in Hk as [v ->]. done.
    + rewrite (put_value_none _ _ Hb). apply IH; [set_solver|]. intros c Hc. apply Hf. set_solver.
  - rewrite (put_value_none _ _ Hk), put_value_none; [done|].
    intros (kv & -> & (b & Hkv & Hb)%list_elem_of_bind)%list_elem_of_fmap. apply Hk.
    rewrite <- (Hf b Hb); by apply list_elem_of_fmap_2.
Qed.

Lemma put_value_fmap (f : bytes -> bytes) l k :
  (forall k', f k' = f k -> k' = k) -> put_value ((fun kv => (f kv.1, kv.2)) <$> l) (f k) = put_value l k.
Proof.
  intros Hinj. induction l as [|[k' v] l IH]; [done|]. rewrite fmap_cons, !put_value_cons, IH. cbn [fst snd].
  by rewrite (bool_decide_ext (f k' = f k) (k' = k)) by (split; [apply Hinj|by intros ->]).
Qed.
