(* ===== verification/VertexInsertion.v ===== *)
(** * INSERT VERTEX

    On a space with integer ids, inserting vertices takes the represented vertices to
    those with the new tags, and keeps the rows of the tags, the entries of the tag
    indexes and the packed embeddings in agreement with them. *)

From Stdlib Require Import ZArith Lia Strings.Byte Strings.String.
From stdpp Require Import base tactics gmap fin_sets list.
From S2P Require Import Prelude OrdMap KVStore KVStoreFacts KVStoreBatch KVDyn Text SchemaKey StorageKey IndexManager IndexFacts Value.
From S2P Require Import Exec Evaluator Vid SpaceDdl VertexCodec VertexCodecFacts DmlStaging GraphAlgo Dml DmlRules EdgeRep EdgeWrite.
From S2P Require Import Classes VertexDml VertexRep.

Section insert.
Context `{DebugText} `{ProstMessage PbVertex} `{!ProstLaws PbVertex} `{ProstMessage PbEdge}.
Context `{SerdeJson JsonValue} `{SerdeJson IndexDef} `{FromJson SemanticFlags} `{MessageText} `{EvalPlatform}.
Context `{SerdeJson ClassLinks} `{SerdeJson ShapeDef}.
Context (wall : nat -> Z) (ctx : Ctx) (sp : bytes) (ix : list IndexDef) (V : Vertices) (s : MemoryKVStore).
(** The representatives of merged vertices. *)
Context (rep : Z -> Z).
Context (Hsp : identifier sp = true) (Hix : indexes_ok ix) (Hrep : vertex_rep sp ix V s) (Hready : vertices_ready ctx sp ix s).

(** What a row of the statement puts. *)
Definition vertex_target (vertex : VertexInsert) : Z * list TagData := (rep (vid_num (vi_vid vertex)), vi_tags vertex).

(** A row that can be inserted: an integer id whose representative can be read, tags
    that exist, properties that fit their schemas, and no shape that is violated. *)
Record vertex_ready (vertex : VertexInsert) : Prop := {
  vy_vid : vid_is_int (vi_vid vertex) = true;
  vy_rep : returns (representative_of sp (vid_num (vi_vid vertex))) s (rep (vid_num (vi_vid vertex)));
  vy_schema : Forall (fun tag => returns (validate_tag_props sp (tag_name tag) (tag_properties tag)) s tt) (vi_tags vertex);
  vy_shapes : returns (validate_write_shapes sp (tag_names (vi_tags vertex)) (flatten_tags (vi_tags vertex))) s tt;
  vy_id : i64_ok (rep (vid_num (vi_vid vertex)));
  vy_names : NoDup (tag_names (vi_tags vertex));
  vy_props : Forall (fun tag => map_Forall (fun _ => vertex_value) (tag_properties tag)) (vi_tags vertex)
}.

Definition targets_ok (vs : list (Z * list TagData)) : Prop := Forall (fun vl => i64_ok vl.1 /\ tags_ok vl.2) vs.
Definition put_vertices (vs : list (Z * list TagData)) : Vertices := put_all vs ∅.

Lemma target_vertex_ok vertex : vertex_ready vertex -> i64_ok (vertex_target vertex).1 /\ tags_ok (vertex_target vertex).2.
Proof. intros [_ _ _ _ Hid Hn Hp]. split; [done|]. split; [done|]. eapply Forall_impl; [done|]. apply values_kept_tag. Qed.

Lemma put_vertices_ok vs v l : targets_ok vs -> put_vertices vs !! v = Some l -> i64_ok v /\ tags_ok l.
Proof. intros Hvs Hl%put_all_elem. unfold targets_ok in Hvs. rewrite Forall_forall in Hvs. exact (Hvs _ Hl). Qed.

(** ** The loop over the vertices *)

(** What was written so far. *)
Record new_inv (vs : list (Z * list TagData)) (b : VertexBatch) : Prop := {
  ni_batch : vb_batch b = (fun vl => (SchemaKey.vertex sp vl.1, vertex_bytes vl.1 vl.2)) <$> vs;
  ni_inserted : vb_inserted b = Z.of_nat (length vs);
  ni_final_wf : om_wf (vb_final b);
  ni_final v : om_get v (vb_final b) = mkVertex v <$> put_vertices vs !! v;
  ni_final_tags : vb_final_tags b = tag_set <$> put_vertices vs
}.

(** What was found about the vertices [N] looked up so far. *)
Record old_inv (N : gset Z) (b : VertexBatch) : Prop := {
  oi_tags v : vb_original_tags b !! v = if bool_decide (v ∈ N) then Some (tag_set (default [] (V !! v))) else None;
  oi_deletes k : k ∈ vb_view_deletes b <-> exists v l, v ∈ N /\ V !! v = Some l /\
    (k ∈ vertex_entries ix v l \/ exists p, p ∈ (tag_embeddings l).*1 /\ k = SchemaKey.vec_data sp p v);
  oi_dirty p : p ∈ vb_dirty b <-> exists v l, v ∈ N /\ V !! v = Some l /\ p ∈ (tag_embeddings l).*1
}.

(** The lookup keeps what was written. *)
Definition same_new (b b' : VertexBatch) : Prop :=
  vb_batch b' = vb_batch b /\ vb_inserted b' = vb_inserted b /\ vb_final b' = vb_final b /\ vb_final_tags b' = vb_final_tags b.

Lemma returns_original N b v :
  i64_ok v -> old_inv N b -> exists b', returns (original_vertex ctx sp v b) s b' /\ old_inv ({[v]} ∪ N) b' /\ same_new b b'.
Proof.
  intros Hv [Ht Hd Hp]. unfold original_vertex. rewrite Ht. case_bool_decide as Hin.
  { exists b. split; [apply returns_ret|]. replace ({[v]} ∪ N) with N by set_solver. done. }
  assert (Hkeys : forall T o v', <[v := T]> (vb_original_tags b) !! v' = o <->
    (if bool_decide (v' = v) then Some T else vb_original_tags b !! v') = o).
  { intros T o v'. destruct (decide (v' = v)) as [->|]; [by rewrite lookup_insert_eq, bool_decide_eq_true_2|].
    by rewrite lookup_insert_ne, bool_decide_eq_false_2. }
  pose proof (vr_rows _ _ _ _ Hrep v Hv) as Hrow. destruct (V !! v) as [l|] eqn:Ev.
  - destruct Hrow as (row & Hl & Hdec). eexists. split.
    { unfold returns. apply post_bind, post_get. rewrite Hl, Hdec. cbn [d_result].
      eapply post_returns; [apply returns_ret|]. eapply post_returns; [by apply returns_vertex_keys|]. apply returns_ret. }
    split; [|done]. split; cbn [vb_original_tags vb_view_deletes vb_dirty tags].
    + intros v'. apply Hkeys. destruct (decide (v' = v)) as [->|Hne].
      * rewrite !bool_decide_eq_true_2 by set_solver. by rewrite Ev.
      * rewrite bool_decide_eq_false_2, Ht by done. by rewrite (bool_decide_ext (v' ∈ N) (v' ∈ {[v]} ∪ N)) by set_solver.
    + intros k. rewrite !elem_of_app, Hd, list_elem_of_fmap. split.
      * intros [(v' & l' & ? & ? & ?)|[Hk|(p & -> & Hpk)]]; [exists v', l'; set_solver|exists v, l; set_solver|].
        exists v, l. split; [set_solver|]. eauto 10.
      * intros (v' & l' & [->%elem_of_singleton|HN]%elem_of_union & Hl' & Hk); [|left; by exists v', l'].
        rewrite Ev in Hl'. injection Hl' as <-. destruct Hk as [Hk|(p & Hpk & ->)]; [by right; left|]. right; right. by exists p.
    + intros p. rewrite elem_of_union, elem_of_list_to_set, Hp. split.
      * intros [Hk|(v' & l' & ? & ? & ?)]; [exists v, l; set_solver|exists v', l'; set_solver].
      * intros (v' & l' & [->%elem_of_singleton|HN]%elem_of_union & Hl' & Hk); [|right; by exists v', l'].
        rewrite Ev in Hl'. injection Hl' as <-. by left.
  - eexists. split; [unfold returns; apply post_bind, post_get; rewrite Hrow; apply returns_ret|]. split; [|done].
    assert (Hsame : forall (P : Z -> list TagData -> Prop),
      (exists v' l', v' ∈ N /\ V !! v' = Some l' /\ P v' l') <-> exists v' l', v' ∈ {[v]} ∪ N /\ V !! v' = Some l' /\ P v' l').
    { intros P. split; intros (v' & l' & HN & Hl' & HP); exists v', l'; (split; [|done]); [set_solver|].
      destruct (decide (v' = v)) as [->|]; [congruence|set_solver]. }
    split; cbn [vb_original_tags vb_view_deletes vb_dirty].
    + intros v'. apply Hkeys. destruct (decide (v' = v)) as [->|Hne].
      * rewrite !bool_decide_eq_true_2 by set_solver. by rewrite Ev.
      * rewrite bool_decide_eq_false_2, Ht by done. by rewrite (bool_decide_ext (v' ∈ N) (v' ∈ {[v]} ∪ N)) by set_solver.
    + intros k. rewrite Hd. apply Hsame.
    + intros p. rewrite Hp. apply Hsame.
Qed.

Lemma add_vertex_inv vs b vertex :
  vertex_ready vertex -> Z.of_nat (length vs) + 1 < two63 -> new_inv vs b -> old_inv (dom (put_vertices vs)) b ->
  succeeds (add_vertex ctx sp Int64 b vertex) s (fun b' s' => s' = s /\
    new_inv (vs ++ [vertex_target vertex]) b' /\ old_inv (dom (put_vertices (vs ++ [vertex_target vertex]))) b').
Proof.
  intros Hy Hlen Hn Ho. unfold add_vertex. eapply post_returns; [apply returns_created_vid, Hy|]. eapply post_returns; [apply Hy|].
  destruct (returns_original _ b _ (vy_id _ Hy) Ho) as (b' & Hb' & [Ht Hd Hp] & Eb & Ei & Ef & Eft).
  eapply post_returns; [exact Hb'|]. eapply post_returns; [apply returns_ret|]. apply post_ret. split; [done|].
  unfold vertex_target, put_vertices. rewrite put_all_snoc, dom_insert_L. fold (put_vertices vs). split.
  - split; cbn [vb_batch vb_inserted vb_final vb_final_tags].
    + rewrite Eb, (ni_batch _ _ Hn), fmap_app. done.
    + rewrite Ei, (ni_inserted _ _ Hn), length_app. simpl. rewrite as_i64_id by (unfold_int; lia). lia.
    + rewrite Ef. by apply om_insert_wf, (ni_final_wf _ _ Hn).
    + intros v. rewrite Ef, om_get_insert, (ni_final _ _ Hn) by apply (ni_final_wf _ _ Hn). unfold put_vertices, vertex_target.
      rewrite put_all_snoc. destruct (decide (rep (vid_num (vi_vid vertex)) = v)) as [<-|Hne]; [by rewrite cmp_refl, lookup_insert_eq|].
      rewrite lookup_insert_ne by done. destruct (cmp v _) eqn:Ec; try done. by apply cmp_eq_iff in Ec.
    + rewrite Eft, (ni_final_tags _ _ Hn). unfold put_vertices, vertex_target. by rewrite put_all_snoc, fmap_insert.
  - split; cbn [vb_original_tags vb_view_deletes vb_dirty]; assumption.
Qed.

(** ** The batch *)

Section loop_done.
Context (vs : list (Z * list TagData)) (b : VertexBatch) (extra : list kv_pair).
Context (Hvs : targets_ok vs) (Hn : new_inv vs b) (Ho : old_inv (dom (put_vertices vs)) b) (Hextra : fence_extra sp extra).

Definition insert_rows : list kv_pair := vb_batch b ++ (vb_final b ≫= final_rows sp ix) ++ tagvid_rows sp b.
Definition insert_stale : list bytes := tagvid_deletes sp b ++ vb_view_deletes b.

Lemma final_elem vv : vv ∈ vb_final b <-> exists l, put_vertices vs !! vv.1 = Some l /\ vv.2 = mkVertex vv.1 l.
Proof.
  destruct vv as [v d]. rewrite <- om_get_elem by apply (ni_final_wf _ _ Hn). rewrite (ni_final _ _ Hn), fmap_Some. cbn [fst snd]. done.
Qed.

Lemma final_rows_keys v l k :
  tags_ok l -> k ∈ (final_rows sp ix (v, mkVertex v l)).*1 <-> has_embedding sp v l k \/ k ∈ vertex_entries ix v l.
Proof.
  intros [Hnd _]. unfold final_rows. cbn [fst snd tags]. rewrite fmap_app, elem_of_app. f_equiv.
  - rewrite <- list_fmap_compose. unfold has_embedding. rewrite list_elem_of_fmap. setoid_rewrite list_elem_of_fmap. split.
    + intros ([p e] & -> & Hin). exists p. split; [by exists (p, e)|done].
    + intros (p & ([p' e] & -> & Hin) & ->). by exists (p', e).
  - rewrite vertex_entries_elem, list_elem_of_fmap. split.
    + intros (kv & -> & (index & Hkv & Hi)%list_elem_of_bind). apply list_elem_of_fmap in Hkv as (t & -> & Ht).
      rewrite list_elem_of_In, filter_In, <- list_elem_of_In, bool_decide_eq_true in Ht. exists index, t. by rewrite find_tag_iff.
    + intros (index & t & Hi & Ht & ->). rewrite find_tag_iff in Ht by done. exists (vertex_entry index v t, []). split; [done|].
      apply list_elem_of_bind. exists index. split; [|done]. apply list_elem_of_fmap. exists t. split; [done|].
      by rewrite list_elem_of_In, filter_In, <- list_elem_of_In, bool_decide_eq_true.
Qed.

Lemma tagvid_rows_keys k : k ∈ (tagvid_rows sp b).*1 <-> exists v l, put_vertices vs !! v = Some l /\ has_tag_row sp v l k.
Proof.
  unfold tagvid_rows, has_tag_row. rewrite (ni_final_tags _ _ Hn), list_elem_of_fmap. split.
  - intros (kv & -> & ([v T] & Hkv & HT%elem_of_map_to_list)%list_elem_of_bind). rewrite lookup_fmap in HT.
    apply fmap_Some in HT as (l & Hl & ->). apply list_elem_of_fmap in Hkv as (t & -> & Ht). cbn [fst snd] in *.
    exists v, l. split; [done|]. exists t. rewrite elem_of_elements, tag_set_elem in Ht. done.
  - intros (v & l & Hl & t & Ht & ->). exists (SchemaKey.tagvid sp t v, []). split; [done|]. apply list_elem_of_bind.
    exists (v, tag_set l). split; [|apply elem_of_map_to_list; by rewrite lookup_fmap, Hl].
    apply list_elem_of_fmap. exists t. cbn [fst snd]. by rewrite elem_of_elements, tag_set_elem.
Qed.

Lemma tagvid_deletes_elem k :
  k ∈ tagvid_deletes sp b <-> exists v l t, put_vertices vs !! v = Some l /\ t ∈ tag_names (default [] (V !! v)) /\ t ∉ tag_names l /\
    k = SchemaKey.tagvid sp t v.
Proof.
  unfold tagvid_deletes. rewrite (ni_final_tags _ _ Hn), list_elem_of_bind. split.
  - intros ([v T] & Hk & HT%elem_of_map_to_list). rewrite lookup_fmap in HT. apply fmap_Some in HT as (l & Hl & ->).
    cbn [fst snd] in Hk. rewrite (oi_tags _ _ Ho), bool_decide_eq_true_2 in Hk by by apply elem_of_dom_2 in Hl.
    apply list_elem_of_fmap in Hk as (t & -> & Ht). cbn [from_option id] in Ht.
    rewrite elem_of_elements, elem_of_difference, !tag_set_elem in Ht. exists v, l, t. tauto.
  - intros (v & l & t & Hl & Hin & Hnin & ->). exists (v, tag_set l). split; [|apply elem_of_map_to_list; by rewrite lookup_fmap, Hl].
    cbn [fst snd]. rewrite (oi_tags _ _ Ho), bool_decide_eq_true_2 by by apply elem_of_dom_2 in Hl.
    apply list_elem_of_fmap. exists t. split; [done|]. cbn [from_option id]. by rewrite elem_of_elements, elem_of_difference, !tag_set_elem.
Qed.

Lemma final_keys k :
  k ∈ (vb_final b ≫= final_rows sp ix).*1 <->
  exists v l, put_vertices vs !! v = Some l /\ (has_embedding sp v l k \/ k ∈ vertex_entries ix v l).
Proof.
  rewrite list_elem_of_fmap. split.
  - intros (kv & -> & ([v d] & Hkv & (l & Hl & Ed)%final_elem)%list_elem_of_bind). cbn [fst snd] in Hl, Ed. subst d.
    exists v, l. split; [done|]. apply final_rows_keys; [by eapply put_vertices_ok|]. by apply list_elem_of_fmap_2.
  - intros (v & l & Hl & Hk). apply final_rows_keys in Hk; [|by eapply put_vertices_ok].
    apply list_elem_of_fmap in Hk as (kv & -> & Hkv). exists kv. split; [done|]. apply list_elem_of_bind.
    exists (v, mkVertex v l). split; [done|]. apply final_elem. by exists l.
Qed.

Lemma insert_rows_keys k :
  k ∈ insert_rows.*1 <-> exists v l, put_vertices vs !! v = Some l /\
    (k = SchemaKey.vertex sp v \/ has_embedding sp v l k \/ k ∈ vertex_entries ix v l \/ has_tag_row sp v l k).
Proof.
  unfold insert_rows. rewrite !fmap_app, !elem_of_app, tagvid_rows_keys, (ni_batch _ _ Hn).
  assert (HA : k ∈ ((fun vl => (SchemaKey.vertex sp vl.1, vertex_bytes vl.1 vl.2)) <$> vs).*1 <->
    exists v l, put_vertices vs !! v = Some l /\ k = SchemaKey.vertex sp v).
  { rewrite <- list_fmap_compose, list_elem_of_fmap. split.
    - intros ([v l] & -> & Hin). assert (v ∈ dom (put_vertices vs)) as [l' Hl']%elem_of_dom; [|by exists v, l'].
      unfold put_vertices. rewrite put_all_dom, elem_of_list_to_set. by apply (list_elem_of_fmap_2 fst) in Hin.
    - intros (v & l & Hl%put_all_elem & ->). by exists (v, l). }
  rewrite HA, final_keys. split.
  - intros [(v & l & Hl & Hk)|[(v & l & Hl & Hk)|(v & l & Hl & Hk)]]; exists v, l; tauto.
  - intros (v & l & Hl & [Hk|[Hk|[Hk|Hk]]]); [left|right; left|right; left|right; right]; exists v, l; tauto.
Qed.

Lemma insert_stale_elem k :
  k ∈ insert_stale <-> exists v l, put_vertices vs !! v = Some l /\
    ((exists t, t ∈ tag_names (default [] (V !! v)) /\ t ∉ tag_names l /\ k = SchemaKey.tagvid sp t v) \/
     exists l', V !! v = Some l' /\ (k ∈ vertex_entries ix v l' \/ has_embedding sp v l' k)).
Proof.
  unfold insert_stale, has_embedding. rewrite elem_of_app, tagvid_deletes_elem, (oi_deletes _ _ Ho). split.
  - intros [(v & l & t & Hl & Ht)|(v & l' & [l Hl]%elem_of_dom & Hr)]; exists v, l; (split; [done|]); [left; by exists t|right].
    by exists l'.
  - intros (v & l & Hl & [(t & Ht)|(l' & Hr)]); [left; by exists v, l, t|right]. exists v, l'. by rewrite elem_of_dom, Hl.
Qed.

(** *** The rows after the batch *)

Definition insert_look (k : bytes) : option bytes := batch_look (insert_rows ++ extra) (retain_deletes insert_rows insert_stale) s k.

Lemma insert_look_eq k : k <> inference_dirty_key sp ->
  insert_look k = match put_value insert_rows k with Some v => Some v | None => if bool_decide (k ∈ insert_stale) then None else look s k end.
Proof. intros Hk. apply batch_look_retain. intros Hx. by apply (fence_extra_keys _ _ _ Hextra) in Hx. Qed.

Lemma vertex_puts_value l v : Forall (fun vl => i64_ok vl.1) l -> i64_ok v ->
  put_value ((fun vl => (SchemaKey.vertex sp vl.1, vertex_bytes vl.1 vl.2)) <$> l) (SchemaKey.vertex sp v) = vertex_bytes v <$> put_vertices l !! v.
Proof.
  intros Hl Hv. unfold put_vertices. induction l as [|[v' t] l IH] using rev_ind; [done|]. apply Forall_app in Hl as [Hl [Hv' _]%Forall_cons].
  rewrite fmap_app, put_value_app, put_all_snoc, IH by done. cbn [fmap list_fmap fst snd]. rewrite put_value_cons. cbn [put_value List.filter last fmap option_fmap option_map].
  destruct (decide (v' = v)) as [->|Hne]; [by rewrite lookup_insert_eq, bool_decide_eq_true_2|].
  rewrite lookup_insert_ne, bool_decide_eq_false_2; [done| |done]. intros E. by apply vertex_key_inj in E.
Qed.

Lemma insert_vertex_look v : i64_ok v ->
  insert_look (SchemaKey.vertex sp v) =
    match put_vertices vs !! v with Some l => Some (vertex_bytes v l) | None => look s (SchemaKey.vertex sp v) end.
Proof.
  intros Hv. rewrite insert_look_eq by apply vertex_not_fence. unfold insert_rows.
  rewrite !put_value_app, (put_value_none (tagvid_rows sp b)), (put_value_none (vb_final b ≫= _)), (ni_batch _ _ Hn), vertex_puts_value.
  - destruct (put_vertices vs !! v) as [l|]; [done|]. rewrite bool_decide_eq_false_2; [done|].
    intros (v' & l & _ & [(t & _ & _ & E)|(l' & _ & [Hk|(p & _ & E)])])%insert_stale_elem; [solve_kinds| |solve_kinds].
    by apply (not_vertex_entry _ _ _ _ _ Hsp) in Hk.
  - eapply Forall_impl; [exact Hvs|]. by intros ? [].
  - done.
  - intros (v' & l & _ & [(p & _ & E)|Hk])%final_keys; [solve_kinds|]. by apply (not_vertex_entry _ _ _ _ _ Hsp) in Hk.
  - intros (v' & l & _ & t & _ & E)%tagvid_rows_keys. solve_kinds.
Qed.

Lemma insert_tagvid_look t v : i64_ok v ->
  is_Some (insert_look (SchemaKey.tagvid sp t v)) <->
    match put_vertices vs !! v with Some l => t ∈ tag_names l | None => is_Some (look s (SchemaKey.tagvid sp t v)) end.
Proof.
  intros Hv. rewrite insert_look_eq by apply tagvid_not_fence.
  assert (Hput : is_Some (put_value insert_rows (SchemaKey.tagvid sp t v)) <-> exists l, put_vertices vs !! v = Some l /\ t ∈ tag_names l).
  { rewrite put_value_is_Some, insert_rows_keys. split.
    - intros (v' & l & Hl & [E|[(p & _ & E)|[Hk|(t' & Ht & E)]]]); [solve_kinds|solve_kinds|by apply (not_vertex_entry _ _ _ _ _ Hsp) in Hk|].
      apply tagvid_inj in E as [-> ->]; [by exists l|done|by eapply put_vertices_ok].
    - intros (l & Hl & Ht). exists v, l. split; [done|]. right; right; right. by exists t. }
  destruct (put_value insert_rows _) as [x|].
  { destruct Hput as [(l & -> & Ht) _]; [by eexists|]. by split. }
  assert (Hno : forall l, put_vertices vs !! v = Some l -> t ∉ tag_names l)
    by (intros l Hl Ht; by destruct (proj2 Hput (ex_intro _ l (conj Hl Ht)))). clear Hput.
  destruct (put_vertices vs !! v) as [l|] eqn:Ev.
  - split; [|intros Ht; by apply Hno in Ht]. case_bool_decide as Hd; [by intros []|]. intros Hs.
    apply (vr_tagvid _ _ _ _ Hrep t v Hv) in Hs as (l' & Hl' & Ht). destruct Hd. apply insert_stale_elem.
    exists v, l. split; [done|]. left. exists t. rewrite Hl'. auto.
  - rewrite bool_decide_eq_false_2; [done|].
    intros (v' & l & Hl & [(t' & _ & _ & E)|(l' & _ & [Hk|(p & _ & E)])])%insert_stale_elem; [|by apply (not_vertex_entry _ _ _ _ _ Hsp) in Hk|solve_kinds].
    apply tagvid_inj in E as [-> ->]; [congruence|done|by eapply put_vertices_ok].
Qed.

Definition inserted : gmap Z (option (list TagData)) := Some <$> put_vertices vs.

Lemma insert_entry_look k : tag_entry_form ix k ->
  is_Some (insert_look k) <-> entry_added ix inserted k \/ is_Some (look s k) /\ ~ entry_dropped ix inserted V k.
Proof.
  intros Hf. assert (Hname : forall x, k <> sp ++ x) by (intros x ->; by apply name_not_tag_entry in Hf).
  rewrite insert_look_eq by apply Hname.
  assert (Hput : is_Some (put_value insert_rows k) <-> entry_added ix inserted k).
  { rewrite put_value_is_Some, insert_rows_keys. unfold entry_added, inserted. setoid_rewrite lookup_fmap. split.
    - intros (v & l & Hl & [E|[(p & _ & E)|[Hk|(t' & Ht & E)]]]); [by apply Hname in E|by apply Hname in E| |by apply Hname in E].
      exists v, l. by rewrite Hl.
    - intros (v & l & (l' & Hl & [= ->])%fmap_Some & Hk). exists v, l'. tauto. }
  assert (Hdel : k ∈ insert_stale <-> entry_dropped ix inserted V k).
  { rewrite insert_stale_elem. unfold entry_dropped, inserted. setoid_rewrite lookup_fmap. setoid_rewrite fmap_is_Some. split.
    - intros (v & l & Hl & [(t' & _ & _ & E)|(l' & Hl' & [Hk|(p & _ & E)])]); [by apply Hname in E| |by apply Hname in E].
      exists v, l'. by rewrite Hl.
    - intros (v & l' & [l Hl] & Hl' & Hk). exists v, l. split; [done|]. right. exists l'. auto. }
  rewrite <- Hput, <- Hdel. destruct (put_value insert_rows k) as [x|]; [by split; [left|]|].
  case_bool_decide; split; [by intros []| |by right|]; intros [[]|[]]; done.
Qed.

(** The embeddings among the rows of a vertex. *)
Lemma final_rows_value v l p : i64_ok v -> put_value (final_rows sp ix (v, mkVertex v l)) (SchemaKey.vec_data sp p v) = embedding l p.
Proof.
  intros Hv. unfold final_rows. cbn [fst snd tags]. rewrite put_value_app, put_value_none.
  - apply (put_value_fmap (fun p => SchemaKey.vec_data sp p v)). intros p' E. by apply vec_data_inj in E as [-> _].
  - intros (kv & E & (index & Hkv & Hi)%list_elem_of_bind)%list_elem_of_fmap. apply list_elem_of_fmap in Hkv as (t & -> & _).
    cbn [fst] in E. pose proof (vertex_entry_form ix index v t Hi) as Hf. rewrite <- E in Hf. by apply name_not_tag_entry in Hf.
Qed.

Lemma insert_vec_look p v : i64_ok v ->
  insert_look (SchemaKey.vec_data sp p v) =
    match put_vertices vs !! v with Some l => embedding l p | None => look s (SchemaKey.vec_data sp p v) end.
Proof.
  intros Hv. rewrite insert_look_eq by apply vec_not_fence.
  assert (Hput : put_value insert_rows (SchemaKey.vec_data sp p v) = put_vertices vs !! v ≫= fun l => embedding l p).
  { unfold insert_rows. rewrite !put_value_app, (put_value_none (tagvid_rows sp b)), (put_value_none (vb_batch b)).
    - destruct (put_vertices vs !! v) as [l|] eqn:Ev; cbn [mbind option_bind].
      + rewrite (put_value_bind _ _ (v, mkVertex v l)); [rewrite final_rows_value by done; by destruct (embedding l p)| |].
        * apply final_elem. by exists l.
        * intros [v' d] (l' & Hl' & Ed)%final_elem Hk. cbn [fst snd] in Hl', Ed. subst d.
          destruct (put_vertices_ok _ _ _ Hvs Hl') as [Hv' Hok].
          apply final_rows_keys in Hk as [(p' & _ & E)|Hk]; [|by apply (not_vertex_entry _ _ _ _ _ Hsp) in Hk|done].
          apply vec_data_inj in E as [_ ->]; [congruence|done|done].
      + rewrite put_value_none; [done|]. intros (v' & l & Hl & [(p' & _ & E)|Hk])%final_keys; [|by apply (not_vertex_entry _ _ _ _ _ Hsp) in Hk].
        apply vec_data_inj in E as [_ ->]; [congruence|done|by eapply put_vertices_ok].
    - rewrite (ni_batch _ _ Hn), <- list_fmap_compose. intros ([v' l] & E & _)%list_elem_of_fmap. cbn in E. solve_kinds.
    - intros (v' & l & _ & t & _ & E)%tagvid_rows_keys. solve_kinds. }
  rewrite Hput. destruct (put_vertices vs !! v) as [l|] eqn:Ev; cbn [mbind option_bind].
  - destruct (embedding l p); [done|]. case_bool_decide as Hd; [done|]. rewrite (vr_vec _ _ _ _ Hrep p v Hv).
    destruct (V !! v) as [l'|] eqn:El; [|done]. cbn [mbind option_bind]. destruct (embedding l' p) eqn:Ee; [|done]. destruct Hd.
    apply insert_stale_elem. exists v, l. split; [done|]. right. exists l'. split; [done|]. right. exists p. split; [|done].
    apply embedding_is_Some. by rewrite Ee.
  - rewrite bool_decide_eq_false_2; [done|].
    intros (v' & l & Hl & [(t & _ & _ & E)|(l' & _ & [Hk|(p' & _ & E)])])%insert_stale_elem; [solve_kinds|by apply (not_vertex_entry _ _ _ _ _ Hsp) in Hk|].
    apply vec_data_inj in E as [_ ->]; [congruence|done|by eapply put_vertices_ok].
Qed.

(** Nothing else is written. *)
Lemma insert_look_frame k : ~ vertex_area sp ix k -> insert_look k = look s k.
Proof.
  intros Hk. rewrite insert_look_eq by (intros ->; apply Hk; by right; right).
  destruct (outside_area sp ix k Hk) as (Hk1 & Hk2 & Hk3 & _ & Hent & _). rewrite put_value_none, bool_decide_eq_false_2; [done|..].
  - intros (v & l & _ & [(t & _ & _ & E)|(l' & _ & [Hin|(p & _ & E)])])%insert_stale_elem;
      [by apply Hk2 in E|by apply Hent in Hin|by apply Hk3 in E].
  - intros (v & l & _ & [E|[(p & _ & E)|[Hin|(t & _ & E)]]])%insert_rows_keys;
      [by apply Hk1 in E|by apply Hk3 in E|by apply Hent in Hin|by apply Hk2 in E].
Qed.

(** The properties whose vector indexes are marked. *)
Definition insert_dirty : gset bytes := list_to_set (vb_final b ≫= fun vv => (tag_embeddings (tags vv.2)).*1) ∪ vb_dirty b.

Lemma insert_dirty_elem v l p : put_vertices vs !! v = Some l ->
  p ∈ (tag_embeddings l).*1 \/ p ∈ (tag_embeddings (default [] (V !! v))).*1 -> p ∈ insert_dirty.
Proof.
  intros Hl. unfold insert_dirty. rewrite elem_of_union, elem_of_list_to_set. intros [Hp|Hp]; [left|right].
  - apply list_elem_of_bind. exists (v, mkVertex v l). split; [done|]. apply final_elem. by exists l.
  - destruct (V !! v) as [l'|] eqn:Ev; [|by apply not_elem_of_nil in Hp]. apply (oi_dirty _ _ Ho). exists v, l'.
    split; [by apply elem_of_dom_2 in Hl|done].
Qed.

Lemma insert_effect s1 s2 :
  (forall k, look s1 k = insert_look k) -> om_wf (data s2) ->
  (forall p, p ∈ elements insert_dirty -> look s2 (SchemaKey.vec_index_dirty sp p) = Some []) ->
  (forall k, (forall p, k <> SchemaKey.vec_index_dirty sp p) -> look s2 k = look s1 k) ->
  vertex_effect sp ix V (put_all vs V) s s2.
Proof.
  intros Hs1 Hwf Hmark Hsame. assert (Hlook : forall k, (forall p, k <> SchemaKey.vec_index_dirty sp p) -> look s2 k = insert_look k)
    by (intros k Hk; by rewrite Hsame, Hs1).
  rewrite put_all_changed. fold (put_vertices vs). fold inserted. split.
  - apply (vertex_rep_changed sp ix Hix inserted V s s2 Hrep); [|done|..].
    + intros v o. unfold inserted. rewrite lookup_fmap, fmap_Some. intros (l & Hl & ->).
      destruct (put_vertices_ok _ _ _ Hvs Hl) as [Hv Hok]. split; [done|]. by intros l' [= <-].
    + intros v Hv. rewrite Hlook, insert_vertex_look by (done || intros; apply vertex_not_dirty). unfold inserted. rewrite lookup_fmap.
      by destruct (put_vertices vs !! v).
    + intros t v Hv. rewrite Hlook, insert_tagvid_look by (done || intros; apply tagvid_not_dirty). unfold inserted. rewrite lookup_fmap.
      destruct (put_vertices vs !! v) as [l|]; cbn; [|done]. split; [by eauto|]. by intros (l' & [= <-] & ?).
    + intros k Hk. rewrite Hlook; [by apply insert_entry_look|]. intros p ->. by apply name_not_tag_entry in Hk.
    + intros p v Hv. rewrite Hlook, insert_vec_look by (done || intros; apply vec_not_dirty). unfold inserted. rewrite lookup_fmap.
      by destruct (put_vertices vs !! v).
  - intros p v Hv. rewrite Hlook, insert_vec_look by (done || intros; apply vec_not_dirty).
    destruct (put_vertices vs !! v) as [l|] eqn:Ev; [|done]. rewrite (vr_vec _ _ _ _ Hrep p v Hv). intros Hne.
    apply Hmark. apply elem_of_elements, (insert_dirty_elem v l); [done|]. rewrite <- !embedding_is_Some.
    destruct (embedding l p) as [x|]; [left; by eexists|right]. destruct (V !! v) as [l'|]; [|done]. cbn [mbind option_bind from_option id] in *.
    destruct (embedding l' p); [by eexists|done].
  - intros k Hk. rewrite Hlook; [by apply insert_look_frame|]. intros p ->. apply Hk. left.
    unfold SchemaKey.vec_index_dirty. by rewrite vertex_row_app.
Qed.
End loop_done.

(** ** The statement *)

Lemma returns_validate_vertices vertices :
  Forall vertex_ready vertices -> returns (d_for_each (validate_vertex sp Int64) vertices) s tt.
Proof.
  induction 1 as [|vertex vertices Hy _ IH]; [apply returns_ret|]. cbn [d_for_each]. eapply returns_bind; [|exact IH].
  unfold validate_vertex. eapply returns_bind; [apply returns_validate_vid, Hy|]. eapply returns_bind; [|apply Hy].
  pose proof (vy_schema _ Hy) as Hs. induction Hs as [|tag tags Ht _ IHt]; [apply returns_ret|]. cbn [d_for_each]. by eapply returns_bind.
Qed.

Lemma insert_start : new_inv [] no_vertices /\ old_inv (dom (put_vertices [])) no_vertices.
Proof.
  split; [split; try done; apply om_wf_nil|]. unfold put_vertices, put_all. cbn [foldl]. rewrite dom_empty_L.
  split; cbn [no_vertices vb_original_tags vb_view_deletes vb_dirty].
  - intros v. by rewrite lookup_empty, bool_decide_eq_false_2 by set_solver.
  - intros k. split; [by intros ?%not_elem_of_nil|]. intros (v & l & Hin & _). set_solver.
  - intros p. split; [set_solver|]. intros (v & l & Hin & _). set_solver.
Qed.

Lemma succeeds_add_vertices vertices :
  Forall vertex_ready vertices -> Z.of_nat (length vertices) < two63 ->
  succeeds (d_fold (add_vertex ctx sp Int64) no_vertices vertices) s (fun b s' => s' = s /\
    new_inv (vertex_target <$> vertices) b /\ old_inv (dom (put_vertices (vertex_target <$> vertices))) b).
Proof.
  intros Hy Hl. apply (post_fold _ _ (fun seen b s' => s' = s /\
    new_inv (vertex_target <$> seen) b /\ old_inv (dom (put_vertices (vertex_target <$> seen))) b)); [split; [done|apply insert_start]|..].
  - intros seen vertex b s' (-> & Hn & Ho) [rest ->]. apply Forall_app in Hy as [_ [Hy _]%Forall_cons].
    rewrite length_app in Hl. simpl in Hl. rewrite fmap_app. apply add_vertex_inv; [done|rewrite length_fmap; lia|done|done].
  - done.
Qed.

Lemma insert_vertices_correct plan_space vertices :
  returns (effective_space ctx plan_space) s sp -> Forall vertex_ready vertices -> Z.of_nat (length vertices) < two63 ->
  succeeds (execute_insert_vertices wall ctx plan_space vertices) s (fun r s' =>
    r = count_result (bs "Inserted") (Z.of_nat (length vertices)) /\
    vertex_effect sp ix V (put_all (vertex_target <$> vertices) V) s s').
Proof.
  intros Hspace Hy Hlen. set (vs := vertex_target <$> vertices).
  assert (Hvs : targets_ok vs) by (apply Forall_fmap; eapply Forall_impl; [exact Hy|]; apply target_vertex_ok).
  unfold execute_insert_vertices. eapply post_returns; [exact Hspace|]. eapply post_returns; [apply (vs_vids _ _ _ _ Hready)|].
  eapply post_returns; [apply (vs_indexes _ _ _ _ Hready)|]. eapply post_returns; [by apply returns_validate_vertices|].
  apply post_bind. eapply post_conseq; [|by apply succeeds_add_vertices]. intros b s0 (-> & Hn & Ho). fold vs in Hn, Ho.
  destruct (vs_meta _ _ _ _ Hready) as [m Hm].
  destruct (returns_fence_meta sp s (insert_rows b) m Hm) as (extra & Hextra & Hfence).
  eapply post_returns; [exact Hfence|]. apply post_bind, post_draw. intros versions.
  apply post_bind, post_batch_apply; [by apply (vr_wf _ _ _ _ Hrep)|]. intros s1 Hwf1 Hlook.
  apply post_bind. apply marks_dirty; [done|]. intros s2 Hwf2 Hmark Hsame. apply post_ret. split.
  - rewrite (ni_inserted _ _ Hn). unfold vs. by rewrite length_fmap.
  - eapply (insert_effect vs b extra Hvs Hn Ho Hextra); [exact Hlook|done|exact Hmark|exact Hsame].
Qed.
End insert.
