(* ===== verification/VertexFrame.v ===== *)
(** * What the statements on vertices leave alone

    Programs that read only some keys, and the reads of the statements on vertices: the
    metadata of a space, its schemas, classes and shapes, the index definitions and the
    representatives of merged vertices lie outside of what such a statement writes, and
    so read the same afterwards. *)

From Stdlib Require Import ZArith Lia Strings.Byte Strings.String.
From stdpp Require Import base tactics gmap fin_sets list.
From S2P Require Import Prelude OrdMap KVStore KVStoreFacts KVStoreBatch KVDyn Text SchemaKey StorageKey IndexManager IndexFacts Value.
From S2P Require Import Exec Evaluator Vid SpaceDdl VertexCodec DmlStaging GraphAlgo Dml DmlRules EdgeRep EdgeWrite.
From S2P Require Import Classes ClassFacts VertexDml VertexRep.

(** ** Programs that read some keys *)

Section within.
Context (K : bytes -> Prop).

Definition call_within {A} (c : kv_call A) : Prop :=
  match c with
  | call_get k => K k
  | call_scan_prefix p => forall x, K (p ++ x)
  | _ => False
  end.

Fixpoint s_within {A} (p : Statement A) : Prop :=
  match p with Finish _ => True | Call _ c k => call_within c /\ forall b, s_within (k b) end.
Definition d_within {A} (p : DML A) : Prop := forall c, s_within (p c).

Lemma within_s_bind {A B} (p : Statement A) (f : A -> Statement B) : s_within p -> (forall a, s_within (f a)) -> s_within (s_bind p f).
Proof. intros Hp Hf. induction p as [[a|e]|T c k IH]; simpl in *; [done|done|]. destruct Hp. auto. Qed.

Lemma within_bind {A B} (p : DML A) (f : A -> DML B) : d_within p -> (forall a, d_within (f a)) -> d_within (d_bind p f).
Proof. intros Hp Hf c. apply within_s_bind; [apply Hp|]. intros [a c']. apply Hf. Qed.
Lemma within_ret {A} (a : A) : d_within (d_ret a).
Proof. by intros c. Qed.
Lemma within_fail {A} e : d_within (@d_fail A e).
Proof. by intros c. Qed.
Lemma within_result {A} (r : Result ExecutionError A) : d_within (d_result r).
Proof. by destruct r; intros c. Qed.
Lemma within_get k : K k -> d_within (d_call (call_get k)).
Proof. by intros Hk c. Qed.
Lemma within_scan p : (forall x, K (p ++ x)) -> d_within (d_call (call_scan_prefix p)).
Proof. by intros Hk c. Qed.
Lemma within_for_each {A} (f : A -> DML unit) l : (forall a, d_within (f a)) -> d_within (d_for_each f l).
Proof. intros Hf. induction l as [|a l IH]; [apply within_ret|]. by apply within_bind. Qed.
Lemma within_fold {A X} (f : X -> A -> DML X) x l : (forall x a, d_within (f x a)) -> d_within (d_fold f x l).
Proof. intros Hf. revert x. induction l as [|a l IH]; intros x; [apply within_ret|]. by apply within_bind. Qed.

Context (s s' : MemoryKVStore) (Hwf : om_wf (data s)) (Hwf' : om_wf (data s')).
Context (Hsame : forall k, K k -> look s' k = look s k).

Lemma scan_same p : (forall x, K (p ++ x)) ->
  List.filter (fun kv => starts_with p kv.1) (data s') = List.filter (fun kv => starts_with p kv.1) (data s).
Proof.
  intros Hp. apply om_ext; [by apply om_filter_wf|by apply om_filter_wf|]. intros k.
  destruct (starts_with p k) eqn:Ek.
  - apply starts_with_iff in Ek as [x ->]. apply option_eq. intros v.
    rewrite !om_get_elem by by apply om_filter_wf. rewrite !list_elem_of_In, !filter_In, <- !list_elem_of_In, <- !om_get_elem by done.
    pose proof (Hsame _ (Hp x)) as E. unfold look in E. by rewrite E.
  - assert (Hnone : forall m : list kv_pair, om_wf m -> om_get k (List.filter (fun kv => starts_with p kv.1) m) = None).
    { intros m Hm. apply eq_None_not_Some. intros [v Hv]. apply om_get_elem in Hv; [|by apply om_filter_wf].
      rewrite list_elem_of_In, filter_In in Hv. destruct Hv as [_ Hv]. cbn [fst] in Hv. congruence. }
    by rewrite !Hnone.
Qed.

Lemma run_within {A} (p : Statement A) : s_within p -> run_statement p s' = ((run_statement p s).1, s').
Proof.
  induction p as [r|T c k IH]; [done|]. intros [Hc Hk]. cbn [run_statement]. unfold dyn_call, memory_dyn.
  destruct c; try done; cbn [call_within] in Hc; cbn [mem_run].
  - unfold Memory.get. pose proof (Hsame _ Hc) as E. unfold look in E. rewrite E. by apply IH.
  - unfold Memory.scan_prefix. rewrite !prefix_walk by done. rewrite (scan_same _ Hc). by apply IH.
Qed.

Lemma returns_within {A} (p : DML A) a : d_within p -> returns p s a -> returns p s' a.
Proof.
  intros Hp Hr c. rewrite (run_within _ (Hp c)). specialize (Hr c). destruct (run_statement (p c) s) as [[[a' c']|e] s2]; [|done].
  by destruct Hr as [-> _].
Qed.
End within.

Create HintDb within.
#[export] Hint Resolve within_ret within_fail within_result : within.
(** Take a program apart; the keys it reads remain. *)
Ltac within :=
  repeat first
    [ progress (eauto with within; fail)
    | apply within_bind; [|intros ?]
    | apply within_for_each; intros ?
    | apply within_fold; intros ? ?
    | progress case_match ];
  eauto with within.

(** ** Keys outside of what the statements write *)

Lemma first_colon_inj (a a' x x' : bytes) :
  colon_free a -> colon_free a' -> a ++ bs ":" ++ x = a' ++ bs ":" ++ x' -> a = a' /\ x = x'.
Proof.
  revert a'. induction a as [|b a IH]; intros [|b' a'] Ha Ha' E.
  - by injection E.
  - exfalso. injection E as <- _. apply Ha'. left.
  - exfalso. injection E as -> _. apply Ha. left.
  - injection E as -> E. apply IH in E as [-> ->]; [done|..]; [intros Hin; apply Ha|intros Hin; apply Ha']; by right.
Qed.

Section outside.
Context (sp : bytes) (ix : list IndexDef) (Hsp : identifier sp = true).

(** A key that starts with another name, or with the space and another kind. *)
Lemma outside_text (k : bytes) :
  (forall l, k <> x00 :: l) -> (forall kind x, kind ∈ vertex_kinds -> k <> sp ++ kind ++ x) -> k <> inference_dirty_key sp ->
  ~ vertex_area sp ix k.
Proof.
  intros Hbyte Hkind Hf [Hrow|[(index & _ & [l E]%starts_with_iff)|E]].
  - unfold vertex_row in Hrow. apply existsb_exists in Hrow as (kind & Hin%list_elem_of_In & [x E]%starts_with_iff).
    rewrite <- app_assoc in E. by apply Hkind in E.
  - unfold KeyUtils.tag_index_prefix in E. rewrite <- !app_assoc in E. by apply Hbyte in E.
  - done.
Qed.

Lemma kind_colon kind : kind ∈ vertex_kinds -> exists b w, kind = bs ":" ++ b :: w /\ b <> "s"%byte /\ b <> "i"%byte.
Proof.
  unfold vertex_kinds. rewrite !elem_of_cons, elem_of_nil. intros [->|[->|[->|[->|[]]]]]; do 2 eexists; (split; [reflexivity|done]).
Qed.

(** [a] is a name and [b] the first letter after it. *)
Lemma outside_name a b y :
  identifier a = true -> a <> sp \/ (b = "s"%byte \/ b = "i"%byte) -> a ++ bs ":" ++ b :: y <> inference_dirty_key sp ->
  ~ vertex_area sp ix (a ++ bs ":" ++ b :: y).
Proof.
  intros Ha Hor Hf. apply outside_text; [| |done].
  - intros l E. pose proof (identifier_chars a Ha) as Hc. destruct a as [|c a]; [done|]. injection E as -> _.
    apply Forall_cons in Hc as [Hc _]. by apply name_char_bounds in Hc as [[] _].
  - intros kind x (b' & w & -> & Hs & Hi)%kind_colon E. rewrite <- app_assoc in E.
    apply first_colon_inj in E as [-> E]; [|by apply identifier_colon_free..]. injection E as -> _. tauto.
Qed.

(** Metadata and schemas of the space. *)
Lemma space_outside x : ~ vertex_area sp ix (bs "space:" ++ sp ++ x).
Proof.
  assert (exists b l, sp = b :: l) as (b & l & Esp) by (clear -Hsp; destruct sp as [|b l]; [done|by exists b, l]).
  replace (bs "space:" ++ sp ++ x) with (bs "space" ++ bs ":" ++ b :: l ++ x) by by rewrite Esp.
  apply outside_name; [done|..].
  - destruct (decide (bs "space" = sp)) as [E|]; [right; left|by left]. rewrite <- E in Esp. by injection Esp as <- _.
  - unfold inference_dirty_key. intros E. apply (first_colon_inj (bs "space") sp) in E as [E' E];
      [|by apply const_colon_free|by apply identifier_colon_free]. rewrite <- E' in Esp. injection Esp as <- _. discriminate E.
Qed.

Lemma space_key_outside : ~ vertex_area sp ix (SchemaKey.space sp).
Proof. pose proof (space_outside []) as Ho. by rewrite app_nil_r in Ho. Qed.

(** Definitions of indexes. *)
Lemma index_def_outside x : ~ vertex_area sp ix (INDEX_DEF_PREFIX ++ x).
Proof.
  change (INDEX_DEF_PREFIX ++ x) with (bs "__meta" ++ bs ":" ++ "i"%byte :: bs "ndex_def:" ++ x).
  apply outside_name; [done|by right; right|]. unfold inference_dirty_key. intros E.
  apply (first_colon_inj (bs "__meta") sp) in E as [_ E]; [discriminate E|by apply const_colon_free|by apply identifier_colon_free].
Qed.

(** Pointers of merged vertices. *)
Lemma sameas_outside x : ~ vertex_area sp ix (sp ++ bs ":sameas" ++ x).
Proof.
  change (sp ++ bs ":sameas" ++ x) with (sp ++ bs ":" ++ "s"%byte :: bs "ameas" ++ x).
  apply outside_name; [done|by right; left|]. unfold inference_dirty_key. intros E. apply app_inv_head in E. discriminate E.
Qed.
End outside.

(** ** The reads of the statements *)

Section reads.
Context `{SerdeJson JsonValue} `{SerdeJson IndexDef} `{FromJson SemanticFlags} `{MessageText} `{EvalPlatform}.
Context `{SerdeJson ClassLinks} `{SerdeJson ShapeDef}.
Context (ctx : Ctx) (sp : bytes) (ix : list IndexDef) (Hsp : identifier sp = true).

#[local] Notation outside := (fun k => ~ vertex_area sp ix k).

Lemma within_schema x : d_within outside (d_call (call_get (bs "space:" ++ sp ++ x))).
Proof. apply within_get. by apply space_outside. Qed.
Lemma within_schemas x : d_within outside (d_call (call_scan_prefix (bs "space:" ++ sp ++ x))).
Proof. apply within_scan. intros y. rewrite <- !app_assoc. by apply space_outside. Qed.
#[local] Hint Resolve within_schema within_schemas : within.

Lemma within_vid_type : d_within outside (d_prog (space_vid_type (is_distributed ctx) sp)).
Proof.
  intros c. unfold d_prog, space_vid_type. cbn -[SchemaKey.space]. split; [by apply space_key_outside|].
  intros [b|]; [|done]. unfold p_result. by repeat case_match.
Qed.

Lemma within_indexes kind : d_within outside (mutation_indexes ctx sp kind).
Proof.
  unfold mutation_indexes, mutation_space_id. within.
  - by apply within_get, space_key_outside.
  - apply within_scan. intros x. rewrite <- !app_assoc. by apply index_def_outside.
Qed.

Lemma within_meta : d_within outside (load_rel_meta sp).
Proof. unfold load_rel_meta, SchemaKey.edge_prefix. within. Qed.

Lemma within_tag_props name props : d_within outside (validate_tag_props sp name props).
Proof. unfold validate_tag_props, SchemaKey.tag. within. Qed.

Lemma within_representative v : d_within outside (representative_of sp v).
Proof.
  unfold representative_of. generalize v at 2. induction MAX_SAMEAS_DEPTH as [|n IH]; intros cur; cbn [follow_sameas]; within.
  apply within_get. exact (sameas_outside sp ix Hsp (bs ":" ++ dec cur)).
Qed.

Lemma within_members v : d_within outside (members_of sp v).
Proof.
  unfold members_of. within. apply within_scan. intros x. unfold SchemaKey.sameas_members_prefix. rewrite <- !app_assoc.
  exact (sameas_outside sp ix Hsp (bs "-members:" ++ dec v ++ bs ":" ++ x)).
Qed.

Lemma within_shapes : d_within outside (load_shapes sp).
Proof. unfold load_shapes, SchemaKey.shape_prefix. within. Qed.

Lemma within_ancestors name : d_within outside (class_ancestors_of sp name).
Proof.
  unfold class_ancestors_of. generalize (mkWalk [] {[name]} [name]).
  induction MAX_CLASS_DEPTH as [|n IH]; intros w; cbn [walk_levels]; unfold visit_class, SchemaKey.class; within.
Qed.
#[local] Hint Resolve within_shapes within_ancestors within_members within_representative : within.

Lemma within_write_shapes names props : d_within outside (validate_write_shapes sp names props).
Proof. unfold validate_write_shapes, add_classes, check_shape. within. Qed.

Lemma within_unmerged v : d_within outside (check_unmerged sp v).
Proof. unfold check_unmerged. within. Qed.

(** After a statement on vertices the space is ready for another one. *)
Lemma vertices_ready_frame s s' :
  om_wf (data s) -> om_wf (data s') -> (forall k, outside k -> look s' k = look s k) ->
  vertices_ready ctx sp ix s -> vertices_ready ctx sp ix s'.
Proof.
  intros Hwf Hwf' Hsame [Hv Hi [m Hm]]. split; [|..|exists m].
  - by apply (returns_within _ s s' Hwf Hwf' Hsame _ _ within_vid_type).
  - by apply (returns_within _ s s' Hwf Hwf' Hsame _ _ (within_indexes IndexTag)).
  - by apply (returns_within _ s s' Hwf Hwf' Hsame _ _ within_meta).
Qed.
End reads.
