(* ===== verification/VertexDeletion.v ===== *)
(** * DELETE VERTEX

    On a space with integer ids, a deletion removes exactly the listed vertices of which
    the condition holds, with the rows of their tags, their index entries and their
    embeddings; it fails if a listed vertex was merged with another one or if the
    condition cannot be evaluated. *)

From Stdlib Require Import ZArith Lia Strings.Byte Strings.String.
From stdpp Require Import base tactics gmap fin_sets list.
From S2P Require Import Prelude OrdMap KVStore KVStoreFacts KVStoreBatch KVDyn Text SchemaKey StorageKey IndexManager IndexFacts Value.
From S2P Require Import Exec Evaluator Vid SpaceDdl VertexCodec VertexCodecFacts DmlStaging GraphAlgo Dml DmlRules EdgeRep EdgeWrite.
From S2P Require Import Classes ClassFacts VertexDml VertexRep VertexFrame.

(** Whether a condition holds of a vertex with the tags [l]. *)
Definition vertex_condition `{MessageText} `{EvalPlatform} (conditions : option Expression) (l : list TagData) : Result ExecutionError bool :=
  match conditions with
  | None => Ok true
  | Some cond => default (Err PANIC) (evaluate_condition cond (vertex_context l))
  end.

Lemma decided_follow n sp v cur s : decided (follow_sameas n sp v cur) s.
Proof.
  revert cur. induction n as [|n IH]; intros cur; [apply decided_fail|]. cbn [follow_sameas]. apply decided_bind; [apply decided_get|].
  intros [row|]; [|apply decided_ret]. destruct (decode_repr row) as [r|]; [|apply decided_fail]. destruct (r =? cur); [apply decided_ret|apply IH].
Qed.
Lemma decided_representative sp v s : decided (representative_of sp v) s.
Proof. apply decided_follow. Qed.

Section delete.
Context `{DebugText} `{ProstMessage PbVertex} `{!ProstLaws PbVertex}.
Context `{SerdeJson JsonValue} `{SerdeJson IndexDef} `{FromJson SemanticFlags} `{MessageText} `{EvalPlatform}.
Context (wall : nat -> Z) (ctx : Ctx) (sp : bytes) (ix : list IndexDef) (V : Vertices) (s : MemoryKVStore).
Context (plan : DeletePlan).
Context (Hsp : identifier sp = true) (Hix : indexes_ok ix) (Hrep : vertex_rep sp ix V s) (Hready : vertices_ready ctx sp ix s).

Definition listed : list Z := vid_num <$> dp_vids plan.

(** The vertex exists and the condition holds of it. *)
Definition hit (v : Z) : bool :=
  match V !! v with Some l => match vertex_condition (dp_conditions plan) l with Ok b => b | Err _ => false end | None => false end.
Definition hits (vs : list Z) : gset Z := list_to_set (List.filter hit vs).

Lemma hits_elem vs v : v ∈ hits vs <-> v ∈ vs /\ hit v = true.
Proof. unfold hits. by rewrite elem_of_list_to_set, list_elem_of_In, filter_In, <- list_elem_of_In. Qed.

Lemma hits_snoc vs v : hits (vs ++ [v]) = (if hit v then {[v]} else ∅) ∪ hits vs.
Proof. unfold hits. rewrite List.filter_app, list_to_set_app_L. cbn [List.filter]. destruct (hit v); set_solver. Qed.

(** A key that goes with one of the vertices [N]. *)
Definition removed_entry (N : gset Z) (k : bytes) : Prop := exists v l, v ∈ N /\ V !! v = Some l /\ k ∈ vertex_entries ix v l.
Definition removed_row (N : gset Z) (k : bytes) : Prop :=
  exists v l, v ∈ N /\ V !! v = Some l /\ (k = SchemaKey.vertex sp v \/ has_tag_row sp v l k \/ has_embedding sp v l k).

(** The store and the batch after the vertices [vs] were looked at. *)
Record delete_inv (vs : list Z) (d : VertexDeletes) (s' : MemoryKVStore) : Prop := {
  di_wf : om_wf (data s');
  di_entries k : removed_entry (hits vs) k -> look s' k = None;
  di_same k : ~ removed_entry (hits vs) k -> look s' k = look s k;
  di_keys k : k ∈ vd_keys d <-> removed_row (hits vs) k;
  di_deleted : vd_deleted d = Z.of_nat (length (List.filter hit vs));
  di_dirty p : p ∈ vd_dirty d <-> exists v l, v ∈ hits vs /\ V !! v = Some l /\ p ∈ (tag_embeddings l).*1;
  di_conditions v l : v ∈ vs -> V !! v = Some l -> exists b, vertex_condition (dp_conditions plan) l = Ok b
}.

(** The entries of a vertex are removed. *)
Lemma post_delete_entries v l s1 (Q : unit -> MemoryKVStore -> Prop) :
  om_wf (data s1) ->
  (forall s2, om_wf (data s2) -> (forall k, k ∈ vertex_entries ix v l -> look s2 k = None) ->
    (forall k, k ∉ vertex_entries ix v l -> look s2 k = look s1 k) -> Q tt s2) ->
  succeeds (d_for_each (delete_entry v l) ix) s1 Q.
Proof.
  intros Hwf HQ. apply (post_for_each _ _ (fun seen s2 => om_wf (data s2) /\
    (forall k, k ∈ vertex_entries seen v l -> look s2 k = None) /\ (forall k, k ∉ vertex_entries seen v l -> look s2 k = look s1 k))).
  - split; [done|]. split; [by intros k ?%not_elem_of_nil|done].
  - intros seen index s2 (Hwf2 & Hin & Hout) _. rewrite vertex_entries_snoc. unfold delete_entry.
    destruct (find_tag (schema_name index) l) as [t|]; cbn [fmap option_fmap option_map option_list].
    + apply post_delete. split; [by apply om_remove_wf|]. split; intros k; rewrite elem_of_app, list_elem_of_singleton, look_remove by done.
      * intros [Hk| ->]; [|by rewrite bool_decide_eq_true_2]. rewrite Hin by done. by case_bool_decide.
      * intros Hk. rewrite bool_decide_eq_false_2 by tauto. apply Hout. tauto.
    + apply post_ret. by rewrite app_nil_r.
  - intros s2 (Hwf2 & Hin & Hout). by apply HQ.
Qed.

Definition condition_fails (e : ExecutionError) : Prop :=
  exists v l, v ∈ listed /\ V !! v = Some l /\ vertex_condition (dp_conditions plan) l = Err e.

(** ** The loop over the vertices *)

Lemma vertex_rows_elem v l k :
  k ∈ (l ≫= fun tag => SchemaKey.tagvid sp (tag_name tag) v ::
         ((fun pb => SchemaKey.vec_data sp pb.1 v) <$> embeddings (tag_properties tag))) <->
  has_tag_row sp v l k \/ has_embedding sp v l k.
Proof.
  unfold has_tag_row, has_embedding, tag_names, tag_embeddings. rewrite list_elem_of_bind. split.
  - intros (tag & [->|Hk]%elem_of_cons & Hin); [left; exists (tag_name tag); split; [by apply list_elem_of_fmap_2|done]|right].
    apply list_elem_of_fmap in Hk as (pb & -> & Hpb). exists pb.1. split; [|done]. apply list_elem_of_fmap_2, list_elem_of_bind. by exists tag.
  - intros [(t & (tag & -> & Hin)%list_elem_of_fmap & ->)|(p & (pb & -> & (tag & Hpb & Hin)%list_elem_of_bind)%list_elem_of_fmap & ->)];
      exists tag; (split; [|done]); [left|right]. by apply (list_elem_of_fmap_2 (fun pb => SchemaKey.vec_data sp pb.1 v)).
Qed.

Lemma removed_add {P : Z -> list TagData -> Prop} (N : gset Z) v l : V !! v = Some l ->
  (exists v' l', v' ∈ {[v]} ∪ N /\ V !! v' = Some l' /\ P v' l') <-> P v l \/ exists v' l', v' ∈ N /\ V !! v' = Some l' /\ P v' l'.
Proof.
  intros Hl. split.
  - intros (v' & l' & [->%elem_of_singleton|HN]%elem_of_union & Hl' & HP); [left; congruence|right; by exists v', l'].
  - intros [HP|(v' & l' & HN & HP)]; [exists v, l|exists v', l']; (split; [set_solver|done]).
Qed.

Lemma vertex_inv_skip vs v d s' :
  hit v = false -> (forall l, V !! v = Some l -> exists b, vertex_condition (dp_conditions plan) l = Ok b) ->
  delete_inv vs d s' -> delete_inv (vs ++ [v]) d s'.
Proof.
  intros Hh Hc [Hwf Hin Hout Hk Hd Hp Hcs].
  assert (E : hits (vs ++ [v]) = hits vs) by (rewrite hits_snoc, Hh; set_solver). split; rewrite ?E; try done.
  - rewrite Hd, List.filter_app. cbn [List.filter]. by rewrite Hh, app_nil_r.
  - intros v' l [Hv'|Hv'%list_elem_of_singleton]%elem_of_app Hl; [by eapply Hcs|subst v'; by apply Hc].
Qed.

Lemma delete_vertex_inv vs v d s' :
  i64_ok v -> v ∈ listed -> Z.of_nat (length vs) + 1 < two63 -> delete_inv vs d s' ->
  post condition_fails (delete_vertex sp (dp_conditions plan) ix d (v, look s (SchemaKey.vertex sp v))) s'
    (fun d' s'' => delete_inv (vs ++ [v]) d' s'').
Proof.
  intros Hv Hlisted Hlen Hinv. pose proof (vr_rows _ _ _ _ Hrep v Hv) as Hrow. unfold delete_vertex.
  destruct (V !! v) as [l|] eqn:Ev.
  2:{ rewrite Hrow. apply post_ret, vertex_inv_skip; [unfold hit; by rewrite Ev|congruence|done]. }
  destruct Hrow as (row & -> & Hdec). rewrite Hdec. cbn [d_result]. eapply post_returns; [apply returns_ret|]. cbn [tags].
  destruct (vertex_condition (dp_conditions plan) l) as [pass|e] eqn:Ec.
  2:{ unfold vertex_condition in Ec. destruct (dp_conditions plan) as [cond|] eqn:Ecs; [|done]. unfold d_outcome. rewrite Ec.
      apply post_bind, post_fail. exists v, l. by rewrite Ecs. }
  eapply (post_returns _ _ _ _ pass).
  { unfold vertex_condition in Ec. destruct (dp_conditions plan); [unfold d_outcome; rewrite Ec|injection Ec as <-]; apply returns_ret. }
  assert (Hhit : hit v = pass) by (unfold hit; by rewrite Ev, Ec). destruct pass; cbn [negb].
  2:{ apply post_ret, vertex_inv_skip; [done| |done]. intros l' Hl'. rewrite Ev in Hl'. injection Hl' as <-. by exists false. }
  destruct Hinv as [Hwf Hin Hout Hk Hd Hp Hcs]. apply post_bind, post_succeeds, post_delete_entries; [done|].
  intros s2 Hwf2 Hin2 Hout2. apply post_ret. assert (E : hits (vs ++ [v]) = {[v]} ∪ hits vs) by (by rewrite hits_snoc, Hhit).
  split; rewrite ?E; cbn [vd_keys vd_deleted vd_dirty].
  - done.
  - intros k Hr. apply (removed_add _ v l Ev) in Hr. destruct (decide (k ∈ vertex_entries ix v l)) as [Hk2|Hk2]; [by apply Hin2|].
    rewrite Hout2 by done. apply Hin. by destruct Hr.
  - intros k Hr. unfold removed_entry in Hr. rewrite (removed_add _ v l Ev) in Hr. rewrite Hout2 by tauto. apply Hout. unfold removed_entry. tauto.
  - intros k. unfold removed_row. rewrite (removed_add _ v l Ev), elem_of_app, Hk, elem_of_cons, vertex_rows_elem. unfold removed_row. tauto.
  - rewrite Hd, List.filter_app. cbn [List.filter]. rewrite Hhit, length_app. cbn [length].
    pose proof (List.filter_length_le hit vs). rewrite as_i64_id by (unfold_int; lia). lia.
  - intros p. rewrite (removed_add _ v l Ev), elem_of_union, elem_of_list_to_set, Hp. done.
  - intros v' l' [Hv'|Hv'%list_elem_of_singleton]%elem_of_app Hl'; [by eapply Hcs|subst v'; eauto].
    rewrite Ev in Hl'. injection Hl' as <-. eauto.
Qed.

(** ** The batch *)

(** The vertices that are not deleted. *)
Definition surviving : Vertices := filter (fun vl => ~ (vl.1 ∈ listed /\ hit vl.1 = true)) V.

Definition removals : gmap Z (option (list TagData)) := gset_to_gmap None (hits listed).

Lemma vertex_removals_lookup v : removals !! v = if bool_decide (v ∈ hits listed) then Some None else None.
Proof. unfold removals. case_bool_decide; [by apply lookup_gset_to_gmap_Some|by apply lookup_gset_to_gmap_None]. Qed.

Lemma surviving_changed : surviving = changed removals V.
Proof.
  apply map_eq. intros v. rewrite changed_lookup, vertex_removals_lookup. unfold surviving. case_bool_decide as Hv.
  - apply map_lookup_filter_None. right. intros l _ Hn. apply Hn. by apply hits_elem.
  - destruct (V !! v) as [l|] eqn:Ev.
    + apply map_lookup_filter_Some. split; [done|]. intros Hn. by apply Hv, hits_elem.
    + apply map_lookup_filter_None. by left.
Qed.

Lemma hit_exists vs v : v ∈ hits vs -> exists l, V !! v = Some l.
Proof. intros [_ Hh]%hits_elem. unfold hit in Hh. destruct (V !! v); [by eexists|done]. Qed.

Section batch.
Context (d : VertexDeletes) (s' s1 s2 : MemoryKVStore) (extra : list kv_pair).
Context (Hids : Forall i64_ok listed) (Hinv : delete_inv listed d s') (Hextra : fence_extra sp extra).
Context (Hlook : forall k, look s1 k = batch_look extra (vd_keys d) s' k) (Hwf2 : om_wf (data s2)).
Context (Hmark : forall p, p ∈ elements (vd_dirty d) -> look s2 (SchemaKey.vec_index_dirty sp p) = Some []).
Context (Hsame : forall k, (forall p, k <> SchemaKey.vec_index_dirty sp p) -> look s2 k = look s1 k).

Lemma hit_ok v : v ∈ hits listed -> i64_ok v.
Proof. intros [Hv _]%hits_elem. rewrite Forall_forall in Hids. by apply Hids. Qed.

Lemma deleted_look k : (forall p, k <> SchemaKey.vec_index_dirty sp p) -> k <> inference_dirty_key sp ->
  (removed_row (hits listed) k -> look s2 k = None) /\
  (~ removed_row (hits listed) k -> look s2 k = look s' k).
Proof.
  intros Hk Hf. rewrite Hsame, Hlook by done. unfold batch_look. rewrite <- (di_keys _ _ _ Hinv).
  assert (Hx : put_value extra k = None) by (apply put_value_none; intros Hx; by apply (fence_extra_keys _ _ _ Hextra) in Hx).
  rewrite Hx. by case_bool_decide.
Qed.

(** A row of a vertex, by its kind. *)
Lemma deleted_row_look (key : bytes) v :
  (forall p, key <> SchemaKey.vec_index_dirty sp p) -> key <> inference_dirty_key sp -> (exists x, key = sp ++ x) -> i64_ok v ->
  (forall v' l, i64_ok v' -> (key = SchemaKey.vertex sp v' \/ has_tag_row sp v' l key \/ has_embedding sp v' l key) -> v' = v) ->
  (forall l, V !! v = Some l -> is_Some (look s key) ->
    key = SchemaKey.vertex sp v \/ has_tag_row sp v l key \/ has_embedding sp v l key) ->
  look s2 key = if bool_decide (v ∈ hits listed) then None else look s key.
Proof.
  intros Hd Hf [x Hx] Hv Hone Hrow. destruct (deleted_look key Hd Hf) as [Hgone Hkept].
  assert (Hs : look s' key = look s key).
  { apply (di_same _ _ _ Hinv). intros (v' & l & _ & _ & Hin). subst key. by apply (not_vertex_entry _ _ _ _ _ Hsp) in Hin. }
  case_bool_decide as Hh.
  - destruct (hit_exists _ _ Hh) as [l Hl]. destruct (look s key) as [b|] eqn:Eb.
    + apply Hgone. exists v, l. split; [done|]. split; [done|]. apply Hrow; [done|]. by eexists.
    + destruct (decide (key ∈ vd_keys d)) as [Hin|Hin]; [by apply Hgone, (di_keys _ _ _ Hinv)|].
      rewrite Hkept by by rewrite <- (di_keys _ _ _ Hinv). done.
  - rewrite Hkept; [done|]. intros (v' & l & Hh' & Hl & Hk). apply Hone in Hk as ->; [done|by apply hit_ok].
Qed.

Lemma deleted_vertex_look v : i64_ok v ->
  look s2 (SchemaKey.vertex sp v) = if bool_decide (v ∈ hits listed) then None else look s (SchemaKey.vertex sp v).
Proof.
  intros Hv. apply deleted_row_look; [intros; apply vertex_not_dirty|apply vertex_not_fence|by eexists|done| |by left].
  intros v' l Hv' [E|[(t & _ & E)|(p & _ & E)]]; [by apply vertex_key_inj in E|solve_kinds..].
Qed.

Lemma deleted_tagvid_look t v : i64_ok v ->
  look s2 (SchemaKey.tagvid sp t v) = if bool_decide (v ∈ hits listed) then None else look s (SchemaKey.tagvid sp t v).
Proof.
  intros Hv. apply deleted_row_look; [intros; apply tagvid_not_dirty|apply tagvid_not_fence|by eexists|done|..].
  - intros v' l Hv' [E|[(t' & _ & E)|(p & _ & E)]]; [solve_kinds|by apply tagvid_inj in E as [_ ->]|solve_kinds].
  - intros l Hl Hs. right; left. apply (vr_tagvid _ _ _ _ Hrep t v Hv) in Hs as (l' & Hl' & Ht). exists t. split; [congruence|done].
Qed.

Lemma deleted_vec_look p v : i64_ok v ->
  look s2 (SchemaKey.vec_data sp p v) = if bool_decide (v ∈ hits listed) then None else look s (SchemaKey.vec_data sp p v).
Proof.
  intros Hv. apply deleted_row_look; [intros; apply vec_not_dirty|apply vec_not_fence|by eexists|done|..].
  - intros v' l Hv' [E|[(t & _ & E)|(p' & _ & E)]]; [solve_kinds|solve_kinds|by apply vec_data_inj in E as [_ ->]].
  - intros l Hl. rewrite (vr_vec _ _ _ _ Hrep p v Hv), Hl. cbn [mbind option_bind]. intros Hp%embedding_is_Some. right; right. by exists p.
Qed.

Lemma deleted_entry_look k : tag_entry_form ix k ->
  is_Some (look s2 k) <-> is_Some (look s k) /\ ~ entry_dropped ix removals V k.
Proof.
  intros Hf. assert (Hname : forall x, k <> sp ++ x) by (intros x ->; by apply name_not_tag_entry in Hf).
  destruct (deleted_look k) as [_ Hkept]; [intros; apply Hname|apply Hname|].
  rewrite Hkept by (intros (v & l & _ & _ & [E|[(t & _ & E)|(p & _ & E)]]); by apply Hname in E).
  assert (Hd : entry_dropped ix removals V k <-> removed_entry (hits listed) k).
  { unfold entry_dropped, removed_entry. setoid_rewrite vertex_removals_lookup. split; intros (v & l & Hv & Hr); exists v, l; (split; [|done]).
    - case_bool_decide; [done|by destruct Hv].
    - by rewrite bool_decide_eq_true_2. }
  rewrite Hd. destruct (decide (k ∈ elements (hits listed) ≫= fun v => vertex_entries ix v (default [] (V !! v)))) as [Hin|Hin].
  - assert (Hr : removed_entry (hits listed) k).
    { apply list_elem_of_bind in Hin as (v & Hk & Hv%elem_of_elements). destruct (hit_exists _ _ Hv) as [l Hl]. rewrite Hl in Hk. by exists v, l. }
    rewrite (di_entries _ _ _ Hinv k Hr). split; [by intros []|]. by intros [].
  - assert (Hr : ~ removed_entry (hits listed) k).
    { intros (v & l & Hv & Hl & Hk). apply Hin, list_elem_of_bind. exists v. rewrite Hl, elem_of_elements. done. }
    rewrite (di_same _ _ _ Hinv k Hr). tauto.
Qed.
End batch.

(** ** The statement *)

Lemma decided_check v : om_wf (data s) -> decided (check_unmerged sp v) s.
Proof.
  intros Hwf. unfold check_unmerged. apply decided_bind; [apply decided_representative|].
  intros r. destruct (negb (r =? v)); [apply decided_fail|]. apply decided_bind.
  - apply decided_bind; [left; eexists; by apply returns_scan|]. intros rows. apply decided_ret.
  - intros members. destruct (negb _); [apply decided_fail|apply decided_ret].
Qed.

Definition merged_fails (e : ExecutionError) : Prop := exists v, v ∈ listed /\ fails (check_unmerged sp v) s e.
Definition all_unmerged : Prop := Forall (fun v => returns (check_unmerged sp v) s tt) listed.

Lemma post_checks : post merged_fails (d_for_each (check_unmerged sp) listed) s (fun _ s' => s' = s /\ all_unmerged).
Proof.
  apply (post_for_each _ _ (fun seen s' => s' = s /\ Forall (fun v => returns (check_unmerged sp v) s tt) seen)); [done| |done].
  intros seen v s' [-> Hseen] [rest El].
  assert (Hv : v ∈ listed) by (rewrite El; set_solver).
  destruct (decided_check v (vr_wf _ _ _ _ Hrep)) as [[[] Hret]|[e Hfail]].
  - eapply post_succeeds, post_conseq; [|exact Hret]. intros [] s2 [_ ->]. split; [done|]. apply Forall_app. by rewrite Forall_singleton.
  - intros c. pose proof (Hfail c) as Hc. destruct (run_statement _ _) as [[[a c']|e'] s2]; [done|]. subst e'. by exists v.
Qed.

Lemma returns_resolved : Forall (fun v => vid_is_int v = true) (dp_vids plan) ->
  returns (d_fold (resolve_known_vid sp Int64) [] (dp_vids plan)) s listed.
Proof.
  intros Hv. apply (post_fold _ _ (fun seen acc s' => acc = vid_num <$> seen /\ s' = s)); [done| |done].
  intros seen v acc s' [-> ->] [rest El]. rewrite El, Forall_app, Forall_cons in Hv. destruct Hv as (_ & Hv & _).
  unfold resolve_known_vid. eapply post_returns; [by apply returns_resolve_vid|]. apply post_ret. by rewrite fmap_app.
Qed.

Lemma post_delete_vertices : Forall i64_ok listed -> Z.of_nat (length listed) < two63 ->
  post condition_fails (d_fold (delete_vertex sp (dp_conditions plan) ix) (mkVertexDeletes [] [] 0 ∅)
    (zip listed ((fun k => look s k) <$> (SchemaKey.vertex sp <$> listed)))) s (delete_inv listed).
Proof.
  intros Hids Hlen.
  assert (Ez : zip listed ((fun k => look s k) <$> (SchemaKey.vertex sp <$> listed)) = (fun v => (v, look s (SchemaKey.vertex sp v))) <$> listed).
  { clear. induction listed as [|v vs IH]; [done|]. cbn [fmap list_fmap zip_with]. by f_equal. }
  rewrite Ez. apply (post_fold _ _ (fun seen d s' => exists vs, seen = (fun v => (v, look s (SchemaKey.vertex sp v))) <$> vs /\ delete_inv vs d s')).
  - exists []. split; [done|]. assert (Eh : hits [] = ∅) by done.
    split; rewrite ?Eh; cbn [vd_keys vd_deleted vd_dirty]; unfold removed_entry, removed_row; try done.
    + apply (vr_wf _ _ _ _ Hrep).
    + intros k (v & l & Hv & _). set_solver.
    + intros k. split; [by intros ?%not_elem_of_nil|]. intros (v & l & Hv & _). set_solver.
    + intros p. split; [set_solver|]. intros (v & l & Hv & _). set_solver.
    + by intros v l ?%not_elem_of_nil.
  - intros seen [v row] d s' (vs & -> & Hinv) [rest El]. apply fmap_app_inv in El as (l1 & l2 & E1 & E2 & El).
    destruct l2 as [|v2 l2]; [done|]. injection E2 as -> -> E2.
    assert (Hvs : vs = l1) by (apply (f_equal (fmap fst)) in E1; rewrite <- !list_fmap_compose in E1; unfold compose in E1; cbn in E1; by rewrite !list_fmap_id in E1).
    subst l1. rewrite El in Hids, Hlen. apply Forall_app in Hids as [_ [Hv _]%Forall_cons]. rewrite length_app in Hlen. cbn [length] in Hlen.
    eapply post_conseq; [|apply (delete_vertex_inv vs); [done|rewrite El; set_solver|lia|done]].
    intros d' s2 Hd. exists (vs ++ [v2]). by rewrite fmap_app.
  - intros d s' (vs & E & Hinv). assert (vs = listed) as <-; [|done].
    apply (f_equal (fmap fst)) in E. rewrite <- !list_fmap_compose in E. unfold compose in E. cbn in E. by rewrite !list_fmap_id in E.
Qed.

Lemma delete_effect d s' s1 s2 extra :
  Forall i64_ok listed -> delete_inv listed d s' -> fence_extra sp extra ->
  (forall k, look s1 k = batch_look extra (vd_keys d) s' k) -> om_wf (data s2) ->
  (forall p, p ∈ elements (vd_dirty d) -> look s2 (SchemaKey.vec_index_dirty sp p) = Some []) ->
  (forall k, (forall p, k <> SchemaKey.vec_index_dirty sp p) -> look s2 k = look s1 k) ->
  vertex_effect sp ix V surviving s s2.
Proof.
  intros Hids Hinv Hextra Hlook Hwf2 Hmark Hsame. rewrite surviving_changed. split.
  - apply (vertex_rep_changed sp ix Hix removals V s s2 Hrep); [|done|..].
    + intros v o. rewrite vertex_removals_lookup. case_bool_decide as Hv; [|done]. intros [= <-]. split; [by apply (hit_ok Hids)|done].
    + intros v Hv. rewrite (deleted_vertex_look d s' s1 s2 extra), vertex_removals_lookup by done. by case_bool_decide.
    + intros t v Hv. rewrite (deleted_tagvid_look d s' s1 s2 extra), vertex_removals_lookup by done. case_bool_decide; [|done].
      split; [by intros []|]. by intros (l & ? & _).
    + intros k Hk. rewrite (deleted_entry_look d s' s1 s2 extra) by done. split; [by right|]. intros [(v & l & Hv & _)|?]; [|done].
      rewrite vertex_removals_lookup in Hv. by case_bool_decide.
    + intros p v Hv. rewrite (deleted_vec_look d s' s1 s2 extra), vertex_removals_lookup by done. by case_bool_decide.
  - intros p v Hv. rewrite (deleted_vec_look d s' s1 s2 extra) by done. case_bool_decide as Hh; [|done]. intros Hne.
    apply Hmark, elem_of_elements, (di_dirty _ _ _ Hinv). destruct (hit_exists _ _ Hh) as [l Hl]. exists v, l. split; [done|]. split; [done|].
    apply embedding_is_Some. rewrite (vr_vec _ _ _ _ Hrep p v Hv), Hl in Hne. cbn [mbind option_bind] in Hne. by destruct (embedding l p).
  - intros k Hk. destruct (outside_area sp ix k Hk) as (Hk1 & Hk2 & Hk3 & Hk4 & Hent & Hf).
    destruct (deleted_look d s' s1 s2 extra Hinv Hextra Hlook Hsame k) as [_ Hkept]; [done|done|]. rewrite Hkept.
    + apply (di_same _ _ _ Hinv). intros (v & l & _ & _ & Hin). by apply Hent in Hin.
    + intros (v & l & _ & _ & [E|[(t & _ & E)|(p & _ & E)]]); [by apply Hk1 in E|by apply Hk2 in E|by apply Hk3 in E].
Qed.

Lemma delete_vertices_correct :
  returns (effective_space ctx (dp_space plan)) s sp -> Forall (fun v => vid_is_int v = true) (dp_vids plan) -> Forall i64_ok listed ->
  Z.of_nat (length listed) < two63 ->
  post (fun e => merged_fails e \/ condition_fails e) (execute_delete wall ctx plan) s (fun r s' =>
    r = count_result (bs "Deleted") (Z.of_nat (length (List.filter hit listed))) /\ all_unmerged /\
    (forall v l, v ∈ listed -> V !! v = Some l -> exists b, vertex_condition (dp_conditions plan) l = Ok b) /\
    vertex_effect sp ix V surviving s s').
Proof.
  intros Hspace Hint Hids Hlen. unfold execute_delete. eapply post_returns; [exact Hspace|]. eapply post_returns; [apply (vs_vids _ _ _ _ Hready)|].
  eapply post_returns; [by apply returns_resolved|]. apply post_bind.
  eapply post_conseq; [|eapply (post_errors merged_fails); [by left|apply post_checks]]. intros [] s0 [-> Hun].
  apply post_bind. eapply post_call; [reflexivity|]. eapply post_returns; [apply (vs_indexes _ _ _ _ Hready)|].
  apply post_bind. eapply post_conseq; [|eapply (post_errors condition_fails); [by right|by apply post_delete_vertices]]. intros d s' Hinv.
  assert (Hready' : vertices_ready ctx sp ix s').
  { apply (vertices_ready_frame ctx sp ix Hsp s s'); [apply (vr_wf _ _ _ _ Hrep)|apply (di_wf _ _ _ Hinv)| |done].
    intros k Hk. apply (di_same _ _ _ Hinv). intros (v & l & _ & _ & Hin). by apply (outside_area sp ix k Hk) in Hin. }
  destruct (vs_meta _ _ _ _ Hready') as [m Hm].
  destruct (returns_fence_meta sp s' [] m Hm) as (extra & Hextra & Hfence).
  eapply post_returns; [exact Hfence|]. apply post_bind, post_draw. intros versions.
  apply post_bind, post_batch_apply; [apply (di_wf _ _ _ Hinv)|]. intros s1 Hwf1 Hlook.
  apply post_bind, post_succeeds, marks_dirty; [done|]. intros s2 Hwf2 Hmark Hsame. apply post_ret.
  split; [by rewrite (di_deleted _ _ _ Hinv)|]. split; [done|]. split; [apply (di_conditions _ _ _ Hinv)|].
  by eapply (delete_effect d s' s1 s2 extra).
Qed.
End delete.
