(* ===== verification/VertexUpdating.v ===== *)
(** * UPDATE VERTEX

    On a space with integer ids, an update changes the properties of one tag of one
    vertex, adding the tag or the vertex if there is none; it changes nothing if the
    condition is false, and fails if the result would violate a shape. The embeddings
    stay exact if no other tag of the vertex has an embedding with an updated name. *)

From Stdlib Require Import ZArith Lia Strings.Byte Strings.String.
From stdpp Require Import base tactics gmap fin_sets list.
From S2P Require Import Prelude OrdMap KVStore KVStoreFacts KVStoreBatch KVDyn Text SchemaKey StorageKey IndexManager IndexFacts Value.
From S2P Require Import Exec Evaluator Vid SpaceDdl VertexCodec VertexCodecFacts DmlStaging GraphAlgo Dml DmlRules EdgeRep EdgeWrite.
From S2P Require Import Classes ClassFacts VertexDml VertexRep VertexFrame VertexDeletion.

(** ** Embeddings of tags *)

Definition tag_embedding (t : TagData) (p : bytes) : option bytes := tag_properties t !! p ≫= pack_embedding.

Lemma embeddings_value m p : put_value (embeddings m) p = m !! p ≫= pack_embedding.
Proof.
  unfold embeddings. assert (Hkeys : forall l : list (bytes * Value),
    (filter_map (fun kv => (fun b => (kv.1, b)) <$> pack_embedding kv.2) l) =
    l ≫= fun kv => option_list ((fun b => (kv.1, b)) <$> pack_embedding kv.2)).
  { intros l. induction l as [|kv l IH]; [done|]. cbn [filter_map mbind list_bind]. destruct (pack_embedding kv.2); cbn; by rewrite IH. }
  rewrite Hkeys. clear Hkeys.
  assert (Hone : forall (kv : bytes * Value) (k : bytes), k ∈ (option_list ((fun b : bytes => (kv.1, b)) <$> pack_embedding kv.2)).*1 -> k = kv.1).
  { intros kv k. destruct (pack_embedding kv.2); cbn; set_solver. }
  destruct (m !! p) as [val|] eqn:Ep; cbn [mbind option_bind].
  - rewrite (put_value_bind _ _ (p, val)).
    + cbn [fst snd]. destruct (pack_embedding val) as [b|]; cbn [fmap option_fmap option_map option_list]; [|done].
      rewrite put_value_cons. cbn [put_value List.filter last fmap option_fmap option_map]. by rewrite bool_decide_eq_true_2.
    + by apply elem_of_map_to_list.
    + intros [k val'] Hin Hk%Hone. cbn [fst] in Hk. subst k. apply elem_of_map_to_list in Hin. congruence.
  - apply put_value_none. intros (kb & -> & (kv & Hkb & Hin)%list_elem_of_bind)%list_elem_of_fmap.
    apply (list_elem_of_fmap_2 fst), Hone in Hkb. destruct kv as [k val]. cbn [fst] in Hkb. rewrite Hkb in Ep.
    apply elem_of_map_to_list in Hin. congruence.
Qed.

Lemma tag_embedding_elem t p : p ∈ (embeddings (tag_properties t)).*1 <-> is_Some (tag_embedding t p).
Proof. by rewrite <- put_value_is_Some, embeddings_value. Qed.

Lemma embedding_cons t l p : embedding (t :: l) p = match embedding l p with Some b => Some b | None => tag_embedding t p end.
Proof. unfold embedding, tag_embeddings. cbn [mbind list_bind]. rewrite put_value_app, embeddings_value. done. Qed.

(** Only one tag has the property. *)
Lemma embedding_one l t p : t ∈ l -> (forall t', t' ∈ l -> is_Some (tag_embedding t' p) -> t' = t) -> embedding l p = tag_embedding t p.
Proof.
  intros Ht Hone. unfold embedding, tag_embeddings. rewrite (put_value_bind _ _ t); [apply embeddings_value|done|].
  intros t' Ht' Hp%tag_embedding_elem. by apply Hone.
Qed.

Lemma embedding_fmap (f : TagData -> TagData) l p :
  (forall t, t ∈ l -> tag_embedding (f t) p = tag_embedding t p) -> embedding (f <$> l) p = embedding l p.
Proof.
  intros Hf. induction l as [|t l IH]; [done|]. rewrite fmap_cons, !embedding_cons, IH by (intros t' Ht'; apply Hf; by right).
  by rewrite (Hf t) by left.
Qed.

Lemma embedding_snoc_empty l name p : embedding (l ++ [mkTag name ∅]) p = embedding l p.
Proof. induction l as [|t l IH]; [done|]. cbn [app]. by rewrite !embedding_cons, IH. Qed.

(** ** The updated tags *)

Section tags.
Context (name : bytes) (updates : gmap bytes Value).

Definition update_tag (t : TagData) : TagData :=
  if bool_decide (tag_name t = name) then mkTag (tag_name t) (updates ∪ tag_properties t) else t.
Definition with_tag (l : list TagData) : list TagData :=
  if existsb (fun t => bool_decide (tag_name t = name)) l then l else l ++ [mkTag name ∅].

Lemma updated_tags_eq l : updated_tags name updates l = update_tag <$> with_tag l.
Proof. done. Qed.

Lemma update_tag_name t : tag_name (update_tag t) = tag_name t.
Proof. unfold update_tag. by case_bool_decide. Qed.

Lemma updated_tag_names l : tag_names (updated_tags name updates l) = tag_names (with_tag l).
Proof. rewrite updated_tags_eq. unfold tag_names. rewrite <- list_fmap_compose. apply list_fmap_ext. intros i t _. apply update_tag_name. Qed.

Lemma has_tag_iff l : existsb (fun t => bool_decide (tag_name t = name)) l = true <-> name ∈ tag_names l.
Proof.
  rewrite existsb_exists. unfold tag_names. rewrite list_elem_of_fmap. split; intros (t & Ht & Hn); exists t;
    rewrite ?list_elem_of_In, ?bool_decide_eq_true in *; by split.
Qed.

Lemma with_tag_names l : NoDup (tag_names l) -> NoDup (tag_names (with_tag l)) /\ name ∈ tag_names (with_tag l) /\
  forall t, t ∈ tag_names l -> t ∈ tag_names (with_tag l).
Proof.
  intros Hnd. unfold with_tag. destruct (existsb _ l) eqn:Eb.
  - apply has_tag_iff in Eb. done.
  - assert (Hn : name ∉ tag_names l) by (rewrite <- has_tag_iff; by rewrite Eb).
    unfold tag_names in *. rewrite fmap_app. cbn [fmap list_fmap tag_name]. split_and!; [|set_solver..].
    apply NoDup_app. split; [done|]. split; [|apply NoDup_singleton]. intros t Ht ->%list_elem_of_singleton. done.
Qed.

Lemma updated_tags_embedding l p : NoDup (tag_names l) ->
  (forall t val, t ∈ l -> tag_name t <> name -> is_Some (updates !! p) -> tag_properties t !! p = Some val -> pack_embedding val = None) ->
  embedding (updated_tags name updates l) p = match updates !! p with Some val => pack_embedding val | None => embedding l p end.
Proof.
  intros Hnd Hsep. rewrite updated_tags_eq. destruct (with_tag_names l Hnd) as (Hnd' & Hin & _). destruct (updates !! p) as [val|] eqn:Ep.
  - unfold tag_names in Hin. apply list_elem_of_fmap in Hin as (t & Hname & Ht).
    assert (Hval : tag_embedding (update_tag t) p = pack_embedding val).
    { unfold tag_embedding, update_tag. rewrite bool_decide_eq_true_2 by done. cbn [tag_properties].
      by rewrite (lookup_union_Some_l _ _ _ _ Ep). }
    rewrite <- Hval. apply embedding_one; [by apply list_elem_of_fmap_2|]. intros t' (t0 & -> & Ht0)%list_elem_of_fmap Hs.
    destruct (decide (tag_name t0 = name)) as [E|E].
    + f_equal. assert (Hf : find_tag (tag_name t) (with_tag l) = Some t) by by apply find_tag_elem.
      assert (Hf0 : find_tag (tag_name t0) (with_tag l) = Some t0) by by apply find_tag_elem. congruence.
    + exfalso. unfold tag_embedding, update_tag in Hs. rewrite bool_decide_eq_false_2 in Hs by done.
      assert (Hl : t0 ∈ l).
      { unfold with_tag in Ht0. destruct (existsb _ l); [done|]. apply elem_of_app in Ht0 as [?| ->%list_elem_of_singleton]; done. }
      destruct (tag_properties t0 !! p) as [val0|] eqn:E0; [|by destruct Hs]. cbn [mbind option_bind] in Hs.
      rewrite (Hsep t0 val0) in Hs; [by destruct Hs|done|done|by eexists|done].
  - rewrite embedding_fmap.
    + unfold with_tag. destruct (existsb _ l); [done|apply embedding_snoc_empty].
    + intros t _. unfold tag_embedding, update_tag. case_bool_decide; [|done]. cbn [tag_properties]. by rewrite lookup_union_r.
Qed.

Lemma updated_tags_ok `{DebugText} l :
  map_Forall (fun _ => vertex_value) updates -> tags_ok l -> tags_ok (updated_tags name updates l).
Proof.
  intros Hu [Hnd Hst]. destruct (with_tag_names l Hnd) as (Hnd' & _). split; [by rewrite updated_tag_names|].
  rewrite updated_tags_eq. apply Forall_fmap. assert (Hst' : Forall kept_tag (with_tag l)).
  { unfold with_tag. destruct (existsb _ l); [done|]. apply Forall_app. split; [done|]. apply Forall_singleton, empty_kept_tag. }
  eapply Forall_impl; [exact Hst'|]. intros [n m] Ht. unfold compose, update_tag. cbn [tag_name tag_properties].
  case_bool_decide; [by apply union_kept_tag|done].
Qed.
End tags.

(** ** The properties by tag *)

Lemma put_all_lookup {K A} `{Countable K} (l : list (K * A)) k a : NoDup l.*1 -> (k, a) ∈ l -> put_all l ∅ !! k = Some a.
Proof.
  induction l as [|[k' a'] l IH] using rev_ind; [by intros _ ?%not_elem_of_nil|]. rewrite fmap_app, put_all_snoc. cbn [fmap list_fmap fst].
  intros (Hnd & Hdis & _)%NoDup_app [Hin|[= -> ->]%list_elem_of_singleton]%elem_of_app; [|by rewrite lookup_insert_eq].
  rewrite lookup_insert_ne; [by apply IH|]. intros ->. apply (Hdis k); [by apply (list_elem_of_fmap_2 fst) in Hin|left].
Qed.

Lemma props_by_tag_lookup l name : NoDup (tag_names l) -> props_by_tag l !! name = tag_properties <$> find_tag name l.
Proof.
  intros Hnd. set (pairs := (fun t => (tag_name t, tag_properties t)) <$> l). change (props_by_tag l) with (put_all pairs ∅).
  assert (Hk : pairs.*1 = tag_names l) by (unfold pairs; by rewrite <- list_fmap_compose).
  destruct (find_tag name l) as [t|] eqn:Ef; cbn [fmap option_fmap option_map].
  - apply find_tag_iff in Ef as [Hin <-]; [|done]. apply put_all_lookup; [by rewrite Hk|].
    by apply (list_elem_of_fmap_2 (fun t => (tag_name t, tag_properties t))).
  - destruct (put_all pairs ∅ !! name) as [m|] eqn:Em; [|done]. apply put_all_elem in Em.
    apply list_elem_of_fmap in Em as (t & [= -> ->] & Hin). rewrite find_tag_elem in Ef by done. done.
Qed.

Section update.
Context `{DebugText} `{ProstMessage PbVertex} `{!ProstLaws PbVertex} `{ProstMessage PbEdge}.
Context `{SerdeJson JsonValue} `{SerdeJson IndexDef} `{FromJson SemanticFlags} `{MessageText} `{EvalPlatform}.
Context `{SerdeJson ClassLinks} `{SerdeJson ShapeDef}.
Context (wall : nat -> Z) (ctx : Ctx) (sp : bytes) (ix : list IndexDef) (V : Vertices) (s : MemoryKVStore).
Context (rep : Z -> Z) (u : VertexUpdate) (name : bytes).
Context (Hsp : identifier sp = true) (Hix : indexes_ok ix) (Hrep : vertex_rep sp ix V s) (Hready : vertices_ready ctx sp ix s).

Definition updated_vid : Z := rep (vid_num (vu_vid u)).

(** The tags before the update; a missing vertex counts as one with the empty tag. *)
Definition old_tags : list TagData := default [mkTag name ∅] (V !! updated_vid).
Definition new_tags : list TagData := updated_tags name (vu_updates u) old_tags.

(** Whether the update applies: a condition is false of a missing vertex. *)
Definition update_condition : Result ExecutionError bool :=
  match V !! updated_vid with
  | Some l => vertex_condition (vu_conditions u) l
  | None => Ok (bool_decide (vu_conditions u = None))
  end.

Record vertex_update_ready : Prop := {
  vu_ready_tag : vu_tag u = Some name;
  vu_ready_vid : vid_is_int (vu_vid u) = true;
  vu_ready_rep : returns (representative_of sp (vid_num (vu_vid u))) s updated_vid;
  vu_ready_schema : returns (validate_tag_props sp name (vu_updates u)) s tt;
  vu_ready_id : i64_ok updated_vid;
  vu_ready_props : map_Forall (fun _ => vertex_value) (vu_updates u)
}.

(** The check of the shapes on the updated vertex. *)
Definition update_shapes : DML unit := validate_write_shapes sp (tag_names new_tags) (flatten_tags new_tags).

(** No other tag has an embedding whose name is updated. *)
Definition embeddings_separate : Prop :=
  forall t p val, t ∈ old_tags -> tag_name t <> name -> is_Some (vu_updates u !! p) -> tag_properties t !! p = Some val -> pack_embedding val = None.

Lemma old_tags_ok : tags_ok old_tags.
Proof.
  unfold old_tags. destruct (V !! updated_vid) as [l|] eqn:El; [by eapply rep_vertex|]. split; [apply NoDup_singleton|].
  apply Forall_singleton, empty_kept_tag.
Qed.

(** ** The entries of the indexes *)

(** The key of the vertex in an index, if it has the tag. *)
Definition entry_of (v : Z) (l : list TagData) (index : IndexDef) : list bytes :=
  option_list (vertex_entry index v <$> find_tag (schema_name index) l).

Lemma post_move_one v old new index s1 :
  NoDup (tag_names old) -> om_wf (data s1) ->
  succeeds (move_entries v (props_by_tag old) new index) s1 (fun _ s2 => om_wf (data s2) /\ forall k, look s2 k =
    if bool_decide (k ∈ entry_of v new index) then Some [] else if bool_decide (k ∈ entry_of v old index) then None else look s1 k).
Proof.
  intros Hnd Hwf. unfold move_entries, entry_of. rewrite props_by_tag_lookup by done.
  assert (Hb : forall k k' : bytes, bool_decide (k ∈ [k']) = bool_decide (k = k')) by (intros; apply bool_decide_ext, list_elem_of_singleton).
  assert (Hn : forall k : bytes, bool_decide (k ∈ []) = false) by (intros; apply bool_decide_eq_false_2, not_elem_of_nil).
  apply post_bind. eapply (post_conseq _ _ _ (fun _ s2 => om_wf (data s2) /\ forall k, look s2 k =
    if bool_decide (k ∈ option_list (vertex_entry index v <$> find_tag (schema_name index) old)) then None else look s1 k)).
  - intros [] s2 [Hwf2 Hl2]. destruct (find_tag (schema_name index) new) as [t|]; cbn [fmap option_fmap option_map option_list].
    + apply post_put. split; [by apply om_insert_wf|]. intros k. by rewrite look_put, Hb, Hl2.
    + apply post_ret. split; [done|]. intros k. by rewrite Hn, Hl2.
  - destruct (find_tag (schema_name index) old) as [t|]; cbn [fmap option_fmap option_map option_list].
    + apply post_delete. split; [by apply om_remove_wf|]. intros k. by rewrite look_remove, Hb.
    + apply post_ret. split; [done|]. intros k. by rewrite Hn.
Qed.

Lemma post_move_entries v old new s1 (Q : unit -> MemoryKVStore -> Prop) :
  i64_ok v -> NoDup (tag_names old) -> om_wf (data s1) ->
  (forall s2, om_wf (data s2) -> (forall k, k ∈ vertex_entries ix v new -> is_Some (look s2 k)) ->
    (forall k, k ∉ vertex_entries ix v new -> k ∈ vertex_entries ix v old -> look s2 k = None) ->
    (forall k, k ∉ vertex_entries ix v new -> k ∉ vertex_entries ix v old -> look s2 k = look s1 k) -> Q tt s2) ->
  succeeds (d_for_each (move_entries v (props_by_tag old) new) ix) s1 Q.
Proof.
  intros Hv Hnd Hwf HQ. apply (post_for_each _ _ (fun seen s2 => om_wf (data s2) /\
    (forall k, k ∈ vertex_entries seen v new -> is_Some (look s2 k)) /\
    (forall k, k ∉ vertex_entries seen v new -> k ∈ vertex_entries seen v old -> look s2 k = None) /\
    (forall k, k ∉ vertex_entries seen v new -> k ∉ vertex_entries seen v old -> look s2 k = look s1 k))).
  - split_and!; [done|by intros k ?%not_elem_of_nil|by intros k _ ?%not_elem_of_nil|done].
  - intros seen index s2 (Hwf2 & Hnew & Hold & Hout) [rest El]. rewrite !vertex_entries_snoc.
    assert (Hfresh : forall k, k ∈ vertex_entries seen v new -> k ∉ entry_of v old index).
    { intros k (index' & t' & Hin & _ & ->)%vertex_entries_elem Hk. unfold entry_of in Hk.
      destruct (find_tag (schema_name index) old) as [t|]; [|by apply not_elem_of_nil in Hk].
      apply list_elem_of_singleton, (vertex_entry_inj ix) in Hk as [-> _]; [|done..|rewrite El; set_solver|rewrite El; set_solver].
      destruct Hix as [Hids _]. rewrite El, fmap_app, fmap_cons in Hids. apply NoDup_app in Hids as (_ & Hdis & _).
      apply (Hdis (idx_id index)); [by apply list_elem_of_fmap_2|left]. }
    eapply post_conseq; [|by apply post_move_one]. intros [] s3 [Hwf3 Hl3]. fold (entry_of v new index) (entry_of v old index).
    split; [done|]. split_and!; intros k; rewrite !elem_of_app, Hl3.
    + intros [Hk|Hk]; [|rewrite bool_decide_eq_true_2 by done; by eexists]. case_bool_decide; [by eexists|].
      rewrite bool_decide_eq_false_2 by by apply Hfresh. by apply Hnew.
    + intros Hn Ho. rewrite bool_decide_eq_false_2 by tauto. case_bool_decide; [done|]. apply Hold; tauto.
    + intros Hn Ho. rewrite !bool_decide_eq_false_2 by tauto. apply Hout; tauto.
  - intros s2 (Hwf2 & Hnew & Hold & Hout). by apply HQ.
Qed.

(** ** The embeddings *)

Lemma post_refresh (v : Z) (m : gmap bytes Value) (s1 : MemoryKVStore) (Q : unit -> MemoryKVStore -> Prop) :
  i64_ok v -> om_wf (data s1) ->
  (forall s2, om_wf (data s2) ->
    (forall p val, m !! p = Some val -> look s2 (SchemaKey.vec_data sp p v) = pack_embedding val /\ look s2 (SchemaKey.vec_index_dirty sp p) = Some []) ->
    (forall k, (forall p, is_Some (m !! p) -> k <> SchemaKey.vec_data sp p v) -> (forall p, k <> SchemaKey.vec_index_dirty sp p) ->
      look s2 k = look s1 k) -> Q tt s2) ->
  succeeds (d_for_each (refresh_embedding sp v) (map_to_list m)) s1 Q.
Proof.
  intros Hv Hwf HQ. apply (post_for_each _ _ (fun seen s2 => om_wf (data s2) /\
    (forall p val, (p, val) ∈ seen -> look s2 (SchemaKey.vec_data sp p v) = pack_embedding val /\ look s2 (SchemaKey.vec_index_dirty sp p) = Some []) /\
    (forall k, (forall p val, (p, val) ∈ seen -> k <> SchemaKey.vec_data sp p v) -> (forall p, k <> SchemaKey.vec_index_dirty sp p) ->
      look s2 k = look s1 k))).
  - split_and!; [done|by intros p val ?%not_elem_of_nil|done].
  - intros seen [p val] s2 (Hwf2 & Hin & Hout) [rest El]. unfold refresh_embedding. cbn [fst snd].
    assert (Hvec : succeeds (match pack_embedding val with
        | Some b => d_call (call_put (SchemaKey.vec_data sp p v) b) | None => d_call (call_delete (SchemaKey.vec_data sp p v)) end) s2
        (fun _ s3 => om_wf (data s3) /\ forall k, look s3 k = if bool_decide (k = SchemaKey.vec_data sp p v) then pack_embedding val else look s2 k)).
    { destruct (pack_embedding val); [apply post_put|apply post_delete];
        (split; [by (apply om_insert_wf || apply om_remove_wf)|]); intros k; by rewrite ?look_put, ?look_remove. }
    apply post_bind. eapply post_conseq; [|exact Hvec]. intros [] s3 [Hwf3 Hl3]. apply post_put. split; [by apply om_insert_wf|].
    assert (Hp : forall p' val', (p', val') ∈ seen -> p' <> p).
    { intros p' val' Hs ->. pose proof (NoDup_fst_map_to_list m) as Hnd. rewrite El, fmap_app, fmap_cons in Hnd.
      apply NoDup_app in Hnd as (_ & Hdis & _). apply (Hdis p); [by apply (list_elem_of_fmap_2 fst) in Hs|left]. }
    split.
    + intros p' val' Hk. rewrite !look_put, !Hl3 by done. rewrite (bool_decide_eq_false_2 (SchemaKey.vec_data sp p' v = _)) by apply vec_not_dirty.
      apply elem_of_app in Hk as [Hs|[= -> ->]%list_elem_of_singleton].
      * destruct (Hin p' val' Hs) as [E1 E2]. rewrite E1. rewrite (bool_decide_eq_false_2 (SchemaKey.vec_data sp p' v = _))
          by (intros E; apply vec_data_inj in E as [E _]; [by eapply Hp|done|done]). split; [done|].
        case_bool_decide; [done|]. rewrite bool_decide_eq_false_2; [done|]. intros E. solve_kinds.
      * by rewrite !bool_decide_eq_true_2.
    + intros k Hk Hd. rewrite look_put, Hl3, !bool_decide_eq_false_2; [|by apply (Hk p val); set_solver|by apply Hd|done].
      apply Hout; [|done]. intros p' val' Hs. apply (Hk p' val'). set_solver.
  - intros s2 (Hwf2 & Hin & Hout). apply HQ; [done|..].
    + intros p val Hp. apply Hin. by apply elem_of_map_to_list.
    + intros k Hk Hd. apply Hout; [|done]. intros p val Hp%elem_of_map_to_list. apply Hk. by eexists.
Qed.

(** ** The batch *)

Definition update_rows : list kv_pair :=
  (SchemaKey.vertex sp updated_vid, vertex_bytes updated_vid new_tags) ::
  ((fun t => (SchemaKey.tagvid sp (tag_name t) updated_vid, [])) <$> new_tags).

Lemma update_rows_keys k :
  k ∈ update_rows.*1 <-> k = SchemaKey.vertex sp updated_vid \/ has_tag_row sp updated_vid new_tags k.
Proof.
  unfold update_rows, has_tag_row, tag_names. rewrite fmap_cons, elem_of_cons, <- list_fmap_compose, list_elem_of_fmap. apply or_iff_compat_l.
  split.
  - intros (t & -> & Ht). exists (tag_name t). split; [by apply list_elem_of_fmap_2|done].
  - intros (? & (t & -> & Ht)%list_elem_of_fmap & ->). by exists t.
Qed.

Section written.
Context (Hu : vertex_update_ready) (extra : list kv_pair) (s1 s2 s3 : MemoryKVStore).
Context (Hextra : fence_extra sp extra) (Hlook1 : forall k, look s1 k = batch_look (update_rows ++ extra) [] s k).
Context (Hnew : forall k, k ∈ vertex_entries ix updated_vid new_tags -> is_Some (look s2 k)).
Context (Hold : forall k, k ∉ vertex_entries ix updated_vid new_tags -> k ∈ vertex_entries ix updated_vid old_tags -> look s2 k = None).
Context (Hsame2 : forall k, k ∉ vertex_entries ix updated_vid new_tags -> k ∉ vertex_entries ix updated_vid old_tags -> look s2 k = look s1 k).
Context (Hvecs : forall p val, vu_updates u !! p = Some val ->
  look s3 (SchemaKey.vec_data sp p updated_vid) = pack_embedding val /\ look s3 (SchemaKey.vec_index_dirty sp p) = Some []).
Context (Hsame3 : forall k, (forall p, is_Some (vu_updates u !! p) -> k <> SchemaKey.vec_data sp p updated_vid) ->
  (forall p, k <> SchemaKey.vec_index_dirty sp p) -> look s3 k = look s2 k).
Context (Hwf3 : om_wf (data s3)) (Hsep : embeddings_separate).

Lemma text_look x : (forall p, is_Some (vu_updates u !! p) -> sp ++ x <> SchemaKey.vec_data sp p updated_vid) ->
  (forall p, sp ++ x <> SchemaKey.vec_index_dirty sp p) -> sp ++ x <> inference_dirty_key sp ->
  look s3 (sp ++ x) = match put_value update_rows (sp ++ x) with Some b => Some b | None => look s (sp ++ x) end.
Proof.
  intros Hv Hd Hf. rewrite Hsame3, Hsame2, Hlook1 by (done || by apply not_vertex_entry). unfold batch_look.
  rewrite bool_decide_eq_false_2, put_value_app, (put_value_none extra); [done| |apply not_elem_of_nil].
  intros Hx. by apply (fence_extra_keys _ _ _ Hextra) in Hx.
Qed.

Definition update_change : gmap Z (option (list TagData)) := {[updated_vid := Some new_tags]}.

Lemma update_change_lookup v : update_change !! v = if bool_decide (v = updated_vid) then Some (Some new_tags) else None.
Proof. unfold update_change. case_bool_decide as E; [subst; apply lookup_singleton_eq|by rewrite lookup_singleton_ne]. Qed.

Lemma updated_vertex_look v : i64_ok v ->
  look s3 (SchemaKey.vertex sp v) = match update_change !! v with Some o => vertex_bytes v <$> o | None => look s (SchemaKey.vertex sp v) end.
Proof.
  intros Hv. unfold SchemaKey.vertex. rewrite text_look; [|intros p _; apply vertex_not_vec|intros p; apply vertex_not_dirty|apply vertex_not_fence].
  fold (SchemaKey.vertex sp v). unfold update_rows. rewrite put_value_cons, put_value_none, update_change_lookup.
  - destruct (decide (v = updated_vid)) as [->|Hne]; [by rewrite !bool_decide_eq_true_2|].
    rewrite !bool_decide_eq_false_2; [done|done|]. intros E. apply vertex_key_inj in E; [done|apply Hu|done].
  - rewrite <- list_fmap_compose. intros (t & E & _)%list_elem_of_fmap. cbn in E. solve_kinds.
Qed.

Lemma updated_tagvid_look t v : i64_ok v ->
  is_Some (look s3 (SchemaKey.tagvid sp t v)) <->
    match update_change !! v with Some o => exists l, o = Some l /\ t ∈ tag_names l | None => is_Some (look s (SchemaKey.tagvid sp t v)) end.
Proof.
  intros Hv. unfold SchemaKey.tagvid. rewrite text_look; [|intros p _; apply tagvid_not_vec|intros p; apply tagvid_not_dirty|apply tagvid_not_fence].
  fold (SchemaKey.tagvid sp t v). rewrite update_change_lookup.
  assert (Hput : is_Some (put_value update_rows (SchemaKey.tagvid sp t v)) <-> v = updated_vid /\ t ∈ tag_names new_tags).
  { rewrite put_value_is_Some, update_rows_keys. split.
    - intros [E|(t' & Ht & E)]; [solve_kinds|]. apply tagvid_inj in E as [-> ->]; [done|done|apply Hu].
    - intros [-> Ht]. right. by exists t. }
  destruct (put_value update_rows _) as [b|].
  - destruct (proj1 Hput (ex_intro _ b eq_refl)) as [-> Ht]. rewrite bool_decide_eq_true_2 by done. split; [by eauto|by eexists].
  - case_bool_decide as E; [|done]. subst v. split.
    + intros (l & Hl & Ht)%(vr_tagvid _ _ _ _ Hrep t _ Hv). exfalso.
      assert (Ht' : t ∈ tag_names new_tags); [|by destruct (proj2 Hput (conj eq_refl Ht'))].
      unfold new_tags. rewrite updated_tag_names. apply with_tag_names; [apply old_tags_ok|]. unfold old_tags. by rewrite Hl.
    + intros (l & [= <-] & Ht). by destruct (proj2 Hput (conj eq_refl Ht)).
Qed.

Lemma updated_entry_look k : tag_entry_form ix k ->
  is_Some (look s3 k) <-> entry_added ix update_change k \/ is_Some (look s k) /\ ~ entry_dropped ix update_change V k.
Proof.
  intros Hf. assert (Hname : forall x, k <> sp ++ x) by (intros x ->; by apply name_not_tag_entry in Hf).
  assert (Hs1 : look s1 k = look s k).
  { rewrite Hlook1. apply batch_look_other; [apply not_elem_of_nil|]. rewrite fmap_app, elem_of_app, update_rows_keys.
    intros [[E|(t & _ & E)]|Hx]; [by apply Hname in E..|]. apply (fence_extra_keys _ _ _ Hextra) in Hx. by apply Hname in Hx. }
  rewrite Hsame3 by (intros; apply Hname).
  assert (Hadd : entry_added ix update_change k <-> k ∈ vertex_entries ix updated_vid new_tags).
  { unfold entry_added. split.
    - intros (v & l & Hl & Hk). rewrite update_change_lookup in Hl. case_bool_decide; [|done]. by simplify_eq.
    - intros Hk. exists updated_vid, new_tags. by rewrite update_change_lookup, bool_decide_eq_true_2. }
  assert (Hdrop : is_Some (look s k) -> entry_dropped ix update_change V k <-> k ∈ vertex_entries ix updated_vid old_tags).
  { intros (v & l & Hl & Hk)%(vr_index _ _ _ _ Hrep k Hf). unfold entry_dropped, old_tags. split.
    - intros (v' & l' & Hc & Hl' & Hk'). rewrite update_change_lookup in Hc. case_bool_decide; [|by destruct Hc]. subst v'. by rewrite Hl'.
    - intros Hk'. destruct (rep_vertex _ _ _ _ _ _ Hrep Hl) as [Hv _]. assert (v = updated_vid) as ->
        by (eapply entries_one_vertex; [exact Hix|exact Hv|apply Hu|exact Hk|exact Hk']).
      exists updated_vid, l. by rewrite update_change_lookup, bool_decide_eq_true_2. }
  rewrite Hadd. destruct (decide (k ∈ vertex_entries ix updated_vid new_tags)) as [Hin|Hin]; [split; [by left|intros _; by apply Hnew]|].
  destruct (decide (k ∈ vertex_entries ix updated_vid old_tags)) as [Ho|Ho].
  - rewrite (Hold k Hin Ho). split; [by intros []|]. intros [?|[Hs Hd]]; [done|]. destruct Hd. by apply Hdrop.
  - rewrite (Hsame2 k Hin Ho), Hs1. split; [|tauto]. intros Hs. right. split; [done|]. by rewrite Hdrop.
Qed.

Lemma updated_vec_look p v : i64_ok v ->
  look s3 (SchemaKey.vec_data sp p v) =
    match update_change !! v with Some o => o ≫= fun l => embedding l p | None => look s (SchemaKey.vec_data sp p v) end.
Proof.
  intros Hv. rewrite update_change_lookup.
  assert (Hs : (v = updated_vid -> vu_updates u !! p = None) -> look s3 (SchemaKey.vec_data sp p v) = look s (SchemaKey.vec_data sp p v)).
  { intros Hno. unfold SchemaKey.vec_data. rewrite text_look.
    - rewrite put_value_none; [done|]. rewrite update_rows_keys. fold (SchemaKey.vec_data sp p v). intros [E|(t & _ & E)]; solve_kinds.
    - intros p' [val Hp'] E. apply (vec_data_inj sp p v) in E as [-> ->]; [|done|apply Hu]. by rewrite Hno in Hp'.
    - intros p'. apply vec_not_dirty.
    - apply vec_not_fence. }
  case_bool_decide as E; [|by apply Hs]. subst v. cbn [mbind option_bind]. unfold new_tags.
  rewrite updated_tags_embedding; [|apply old_tags_ok|intros t val; apply Hsep]. destruct (vu_updates u !! p) as [val|] eqn:Ep; [by apply Hvecs|].
  rewrite Hs, (vr_vec _ _ _ _ Hrep p _ Hv) by done. unfold old_tags. by destruct (V !! updated_vid).
Qed.

Lemma update_effect : vertex_effect sp ix V (<[updated_vid := new_tags]> V) s s3.
Proof.
  assert (Ech : <[updated_vid := new_tags]> V = changed update_change V).
  { apply map_eq. intros v. rewrite changed_lookup, update_change_lookup. case_bool_decide as E; [subst; by rewrite lookup_insert_eq|].
    by rewrite lookup_insert_ne. }
  rewrite Ech. split.
  - apply (vertex_rep_changed sp ix Hix update_change V s s3 Hrep); [|done|apply updated_vertex_look|apply updated_tagvid_look|apply updated_entry_look|apply updated_vec_look].
    intros v o. rewrite update_change_lookup. case_bool_decide as E; [|done]. subst v. intros [= <-]. split; [apply Hu|].
    intros l [= <-]. apply updated_tags_ok; [apply Hu|apply old_tags_ok].
  - intros p v Hv Hne. destruct (vu_updates u !! p) as [val|] eqn:Ep; [by apply (Hvecs p val)|]. destruct Hne.
    rewrite updated_vec_look, update_change_lookup by done. case_bool_decide as E; [|done]. subst v. cbn [mbind option_bind].
    unfold new_tags. rewrite updated_tags_embedding, Ep; [|apply old_tags_ok|intros t val; apply Hsep].
    rewrite (vr_vec _ _ _ _ Hrep p _ Hv). unfold old_tags. by destruct (V !! updated_vid).
  - intros k Hk. destruct (outside_area sp ix k Hk) as (Hk1 & Hk2 & Hk3 & Hk4 & Hent & Hf).
    rewrite Hsame3, Hsame2, Hlook1 by (done || intros; done). apply batch_look_other; [apply not_elem_of_nil|].
    rewrite fmap_app, elem_of_app, update_rows_keys. intros [[E|(t & _ & E)]|Hx]; [by apply Hk1 in E|by apply Hk2 in E|].
    by apply (fence_extra_keys _ _ _ Hextra) in Hx.
Qed.
End written.

(** ** The statement *)

(** What follows the evaluation of the condition. *)
Definition update_rest (old : VertexData) : DML ExecutorResult :=
  let new_tags := updated_tags name (vu_updates u) (tags old) in
  validate_write_shapes sp (tag_names new_tags) (flatten_tags new_tags) ;;-
  let key := SchemaKey.vertex sp updated_vid in
  data <-- encode_vertex_io (mkVertex updated_vid new_tags) ;;
  puts <-- fence_semantic_batch sp
             ((key, data) :: ((fun t => (SchemaKey.tagvid sp (tag_name t) updated_vid, [])) <$> new_tags)) ;;
  versions <-- draw_versions wall [(key, data)] ;;
  d_call (call_batch_apply puts [] versions) ;;-
  indexes <-- mutation_indexes ctx sp IndexTag ;;
  d_for_each (move_entries updated_vid (props_by_tag (tags old)) new_tags) indexes ;;-
  d_for_each (refresh_embedding sp updated_vid) (map_to_list (vu_updates u)) ;;-
  d_ret (count_result (bs "Updated") 1).

Lemma update_until_condition E Q :
  returns (effective_space ctx (vu_space u)) s sp -> vertex_update_ready ->
  match update_condition with
  | Err e => E e
  | Ok false => Q (count_result (bs "Updated") 0) s
  | Ok true => post E (update_rest (mkVertex updated_vid old_tags)) s Q
  end -> post E (execute_update_vertex wall ctx u) s Q.
Proof.
  intros Hspace [Htag Hint Hr Hs Hid Hp] HQ. unfold execute_update_vertex.
  eapply post_returns; [exact Hspace|]. eapply post_returns; [apply (vs_vids _ _ _ _ Hready)|]. rewrite Htag.
  eapply post_returns; [by apply returns_validate_vid|]. eapply post_returns; [exact Hs|].
  eapply (post_returns _ _ _ _ (Some updated_vid)).
  { eapply returns_bind; [by apply returns_resolve_vid|]. eapply returns_bind; [exact Hr|]. apply returns_ret. }
  apply post_bind, post_get. pose proof (vr_rows _ _ _ _ Hrep _ Hid) as Hrow. unfold update_condition, old_tags, vertex_condition in HQ.
  destruct (V !! updated_vid) as [l|] eqn:El.
  - destruct Hrow as (row & -> & Hdec). rewrite Hdec. cbn [d_result]. eapply post_returns; [apply returns_ret|]. cbn [tags].
    destruct (vu_conditions u) as [cond|].
    + apply post_bind. unfold d_outcome. destruct (default _ _) as [[]|e]; cbn [d_result].
      * by apply post_ret.
      * by apply post_ret, post_ret.
      * by apply post_fail.
    + eapply post_returns; [apply returns_ret|]. exact HQ.
  - rewrite Hrow. eapply post_returns; [apply returns_ret|]. cbn [default from_option id] in HQ |- *.
    destruct (vu_conditions u) as [cond|]; (eapply post_returns; [apply returns_ret|]).
    + rewrite bool_decide_eq_false_2 in HQ by done. by apply post_ret.
    + rewrite bool_decide_eq_true_2 in HQ by done. exact HQ.
Qed.

Lemma update_vertex_correct :
  returns (effective_space ctx (vu_space u)) s sp -> vertex_update_ready -> embeddings_separate ->
  update_condition = Ok true -> returns update_shapes s tt ->
  succeeds (execute_update_vertex wall ctx u) s (fun r s' =>
    r = count_result (bs "Updated") 1 /\ vertex_effect sp ix V (<[updated_vid := new_tags]> V) s s').
Proof.
  intros Hspace Hu Hsep Hc Hshapes. apply update_until_condition; [done|done|]. rewrite Hc. unfold update_rest. cbn [tags]. fold new_tags.
  eapply post_returns; [exact Hshapes|]. eapply post_returns; [apply returns_ret|]. destruct (vs_meta _ _ _ _ Hready) as [m Hm].
  destruct (returns_fence_meta sp s update_rows m Hm) as (extra & Hextra & Hfence). eapply post_returns; [exact Hfence|].
  apply post_bind, post_draw. intros versions. apply post_bind, post_batch_apply; [apply (vr_wf _ _ _ _ Hrep)|]. intros s1 Hwf1 Hlook1.
  assert (Hready1 : vertices_ready ctx sp ix s1).
  { apply (vertices_ready_frame ctx sp ix Hsp s s1); [apply (vr_wf _ _ _ _ Hrep)|done| |done]. intros k Hk. rewrite Hlook1.
    destruct (outside_area sp ix k Hk) as (Hk1 & Hk2 & _ & _ & _ & Hf). apply batch_look_other; [apply not_elem_of_nil|].
    rewrite fmap_app, elem_of_app, update_rows_keys. intros [[E|(t & _ & E)]|Hx]; [by apply Hk1 in E|by apply Hk2 in E|].
    by apply (fence_extra_keys _ _ _ Hextra) in Hx. }
  eapply post_returns; [apply (vs_indexes _ _ _ _ Hready1)|]. apply post_bind, post_move_entries; [apply Hu|apply old_tags_ok|done|].
  intros s2 Hwf2 Hnew Hold Hsame2. apply post_bind, post_refresh; [apply Hu|done|]. intros s3 Hwf3 Hvecs Hsame3. apply post_ret. split; [done|].
  by eapply (update_effect Hu extra s1 s2 s3).
Qed.

(** A false condition changes nothing; a condition or a shape that fails is reported. *)
Lemma update_vertex_skipped :
  returns (effective_space ctx (vu_space u)) s sp -> vertex_update_ready ->
  match update_condition with
  | Err e => fails (execute_update_vertex wall ctx u) s e
  | Ok false => returns (execute_update_vertex wall ctx u) s (count_result (bs "Updated") 0)
  | Ok true => forall e, fails update_shapes s e -> fails (execute_update_vertex wall ctx u) s e
  end.
Proof.
  intros Hspace Hu. destruct update_condition as [[]|e] eqn:Ec.
  - intros e He. apply update_until_condition; [done|done|]. rewrite Ec. apply post_bind. eapply post_conseq; [|exact He]. done.
  - apply update_until_condition; [done|done|]. by rewrite Ec.
  - apply update_until_condition; [done|done|]. by rewrite Ec.
Qed.
End update.
