(* ===== verification/VertexStatements.v ===== *)
(** * The statements on vertices, executed

    What the statements on vertices do on a store that represents vertices, classes and
    shapes, and what holds after any sequence of them that is executed over the staged
    store on any backend. *)

From Stdlib Require Import ZArith Lia Strings.Byte Strings.String.
From stdpp Require Import base tactics gmap fin_sets relations list.
From S2P Require Import Prelude OrdMap History KVStore KVStoreFacts KVStoreBatch KVDyn Temporal Text SchemaKey StorageKey IndexManager IndexFacts Value.
From S2P Require Import Exec Evaluator Vid SpaceDdl VertexCodec VertexCodecFacts DmlStaging DmlStagingFacts GraphAlgo Dml DmlRules EdgeRep EdgeWrite.
From S2P Require Import EdgeStatements Classes ClassFacts ShapeFacts VertexDml VertexRep VertexInsertion VertexFrame VertexDeletion VertexUpdating.

(** ** Statements that do not read histories *)

Section current.
Context `{DebugText} `{ProstMessage PbVertex} `{ProstMessage PbEdge}.
Context `{SerdeJson JsonValue} `{SerdeJson IndexDef} `{FromJson SemanticFlags} `{MessageText} `{EvalPlatform}.
Context `{SerdeJson ClassLinks} `{SerdeJson ShapeDef}.
Context (wall : nat -> Z) (ctx : Ctx).

#[local] Hint Resolve current_effective_space current_indexes current_representative current_vertex_keys current_encode_vertex : current.
#[local] Hint Resolve current_versions current_tombstones current_fence : current.

Lemma current_tag_props space name props : d_current (validate_tag_props space name props).
Proof. unfold validate_tag_props. current. Qed.
Lemma current_ancestors space name : d_current (class_ancestors_of space name).
Proof.
  unfold class_ancestors_of. generalize (mkWalk [] {[name]} [name]).
  induction MAX_CLASS_DEPTH as [|n IH]; intros w; cbn [walk_levels]; unfold visit_class; current.
Qed.
#[local] Hint Resolve current_tag_props current_ancestors : current.
Lemma current_write_shapes space names props : d_current (validate_write_shapes space names props).
Proof. unfold validate_write_shapes, load_shapes, add_classes, check_shape. current. Qed.
#[local] Hint Resolve current_write_shapes : current.

Lemma current_insert_vertices space vertices : d_current (execute_insert_vertices wall ctx space vertices).
Proof. unfold execute_insert_vertices, validate_vertex, add_vertex, original_vertex, created_vid, mark_vector_index_dirty. current. Qed.
Lemma current_update_vertex u : d_current (execute_update_vertex wall ctx u).
Proof.
  unfold execute_update_vertex, known_vid, created_vid, move_entries, refresh_embedding, mark_vector_index_dirty, d_outcome. current.
Qed.
Lemma current_delete_vertices plan : d_current (execute_delete wall ctx plan).
Proof.
  unfold execute_delete, resolve_known_vid, check_unmerged, members_of, delete_vertex, delete_entry, mark_vector_index_dirty, d_outcome. current.
Qed.
End current.

(** ** Statements that are refused *)

(** The program fails and leaves [s] alone. *)
Definition refuses {A} (p : DML A) (s : MemoryKVStore) : Prop := forall c, exists e, run_statement (p c) s = (Err e, s).

Lemma refuses_returns {A B} (p : DML A) (f : A -> DML B) s a : returns p s a -> refuses (f a) s -> refuses (d_bind p f) s.
Proof.
  intros Hp Hf c. unfold d_bind. rewrite run_s_bind. specialize (Hp c). destruct (run_statement (p c) s) as [[[a' c']|e] s']; [|done].
  destruct Hp as [-> ->]. apply Hf.
Qed.

Lemma refuses_bind {A B} (p : DML A) (f : A -> DML B) s : refuses p s -> refuses (d_bind p f) s.
Proof. intros Hp c. unfold d_bind. rewrite run_s_bind. destruct (Hp c) as [e ->]. by exists e. Qed.

Lemma reads_run {A} (p : Statement A) (s : MemoryKVStore) : s_reads p -> (run_statement p s).2 = s.
Proof.
  induction p as [r|T c k IH]; [done|]. intros [Hc Hk]. cbn [run_statement]. unfold dyn_call, memory_dyn.
  pose proof (read_call_state c s Hc) as Hs. destruct (mem_run c s) as [[b|e] s']; simpl in Hs; subst s'; [by apply IH|done].
Qed.

Lemma refuses_fails {A} (p : DML A) s e : d_reads p -> fails p s e -> refuses p s.
Proof.
  intros Hr Hf c. specialize (Hf c). pose proof (reads_run (p c) s (Hr c)) as Hs.
  destruct (run_statement (p c) s) as [[[a c']|e'] s']; [done|]. simpl in Hs. subst. by eexists.
Qed.

(** ** Statements with arbitrary rows *)

(** If [p] succeeds, [Q] holds. *)
Notation if_succeeds := (post (fun _ : ExecutionError => True)).

Lemma if_succeeds_pure {A} (P : Prop) (p : DML A) s : P -> if_succeeds p s (fun _ _ => P).
Proof. intros HP c. by destruct (run_statement (p c) s) as [[[a c']|e] s']. Qed.

(** A success shows that [P] holds, and then [Q]. *)
Lemma if_succeeds_when {A} (P : Prop) (p : DML A) s Q : if_succeeds p s (fun _ _ => P) -> (P -> if_succeeds p s Q) -> if_succeeds p s Q.
Proof.
  intros HP HQ c. specialize (HP c). destruct (run_statement (p c) s) as [[[a c']|e] s'] eqn:E; [|done]. specialize (HQ HP c). by rewrite E in HQ.
Qed.

Lemma if_succeeds_decided {A B} (p : DML A) (f : A -> DML B) s Q :
  decided p s -> (forall a, returns p s a -> if_succeeds (f a) s Q) -> if_succeeds (d_bind p f) s Q.
Proof.
  intros [[a Ha]|[e He]] Hf; [eapply post_returns; [exact Ha|by apply Hf]|]. apply post_bind.
  eapply post_errors; [|eapply post_conseq; [|exact He]]; done.
Qed.

Lemma if_succeeds_each {A} (f : A -> DML unit) l s :
  (forall a, decided (f a) s) -> if_succeeds (d_for_each f l) s (fun _ s' => s' = s /\ Forall (fun a => returns (f a) s tt) l).
Proof.
  intros Hf. apply (post_for_each _ _ (fun seen s' => s' = s /\ Forall (fun a => returns (f a) s tt) seen)); [done| |done].
  intros seen a s' [-> Hseen] _. destruct (Hf a) as [[[] Ha]|[e He]].
  - eapply post_succeeds, post_conseq; [|exact Ha]. intros [] s2 [_ ->]. split; [done|]. apply Forall_app. by rewrite Forall_singleton.
  - eapply post_errors; [|eapply post_conseq; [|exact He]]; done.
Qed.

Lemma returns_bind_inv {A B} (p : DML A) (f : A -> DML B) s b :
  decided p s -> (forall a, decided (f a) s) -> returns (d_bind p f) s b -> exists a, returns p s a /\ returns (f a) s b.
Proof.
  intros [[a Ha]|[e He]] Hf Hb; [exists a; split; [done|]|exfalso].
  - destruct (Hf a) as [[b' Hb']|[e He]].
    + by rewrite (returns_eq _ s b b' Hb (returns_bind p f s a b' Ha Hb')).
    + exfalso. apply (returns_not_fails _ s b e Hb). by eapply post_returns.
  - apply (returns_not_fails _ s b e Hb). apply post_bind. eapply post_conseq; [|exact He]. done.
Qed.

(** The history stays sorted. *)
Lemma call_history_wf {A} (c : kv_call A) (s : MemoryKVStore) : om_wf (history s) -> om_wf (history (mem_run c s).2).
Proof.
  intros Hwf. destruct c as [k|k v|k v|k|pairs|keys| |p|ps|deltas|keys|p|start stop limit|p f limit|X p f visitor limit x|e vf vt t v|e|versions|p|puts deletes versions|e va ta];
    cbn [mem_run]; try exact Hwf.
  - unfold Memory.put_if_absent. by destruct (om_get k (data s)).
  - revert s Hwf. induction ps as [|p ps IH]; intros s Hwf; [done|]. cbn. unfold kv_bind. cbn. specialize (IH s Hwf).
    by destruct (default_count_prefixes ps s) as [[ns|e] s'].
  - revert s Hwf. unfold default_add_counters. induction deltas as [|[k d] deltas IH]; intros s Hwf; [done|].
    cbn [kv_for_each]. unfold kv_bind at 1. unfold default_add_counter, kv_bind at 1. cbn [kv_get memory_required Memory.get].
    destruct (as_i64 _ <=? 0); apply IH; done.
  - unfold Memory.scan_range. by destruct (_ || _).
  - unfold Memory.scan_with_filter_visit. by destruct (bool_decide _).
  - by apply om_insert_wf.
  - by apply om_insert_all_wf.
  - by apply om_insert_all_wf.
Qed.

Lemma run_history_wf {A} (p : Statement A) (s : MemoryKVStore) : om_wf (history s) -> om_wf (history (run_statement p s).2).
Proof.
  revert s. induction p as [r|T c k IH]; intros s Hwf; [done|]. cbn [run_statement]. unfold dyn_call, memory_dyn.
  pose proof (call_history_wf c s Hwf) as Hc. destruct (mem_run c s) as [[b|e] s']; [by apply IH|done].
Qed.

(** ** The theorems *)

Section theorems.
Context `{DebugText} `{ProstMessage PbVertex} `{!ProstLaws PbVertex} `{ProstMessage PbEdge}.
Context `{SerdeJson JsonValue} `{SerdeJson IndexDef} `{FromJson SemanticFlags} `{MessageText} `{EvalPlatform}.
Context `{SerdeJson ClassDef, !SerdeJsonLaws ClassDef, !SerdeJsonTotal ClassDef (fun _ => True)}.
Context `{SerdeJson ClassLinks, !ClassJson} `{SerdeJson ShapeDef}.
Context (wall : nat -> Z) (ctx : Ctx) (sp : bytes) (ix : list IndexDef) (C : Hierarchy) (shapes : list ShapeDef).
Context (Hsp : identifier sp = true) (Hix : indexes_ok ix).

Lemma reads_tag_props space name props : d_reads (validate_tag_props space name props).
Proof. unfold validate_tag_props. reading. Qed.
Lemma reads_write_shapes space names props : d_reads (validate_write_shapes space names props).
Proof. pose proof reads_ancestors. unfold validate_write_shapes, load_shapes, add_classes, check_shape. reading. Qed.
#[local] Hint Resolve reads_tag_props reads_write_shapes : reading.
Lemma reads_validate_vertex space t vertex : d_reads (validate_vertex space t vertex).
Proof. unfold validate_vertex. reading. Qed.

(** A space with classes, shapes and vertices. *)
Record vertex_space (V : Vertices) (s : MemoryKVStore) : Prop := {
  space_vertices : vertex_rep sp ix V s;
  space_metadata : vertices_ready ctx sp ix s;
  space_classes : class_rep sp C s;
  space_shapes : returns (load_shapes sp) s shapes
}.

(** A vertex with the tags [l] conforms to the shapes, and the check accepts it. *)
Definition conforming (l : list TagData) : Prop := shapes_hold C shapes (tag_names l) (flatten_tags l).
Definition accepted (l : list TagData) : Prop := shapes_accept C shapes (tag_names l) (flatten_tags l).

Lemma decides_accepted V s l : vertex_space V s ->
  decides (accepted l) (validate_write_shapes sp (tag_names l) (flatten_tags l)) s tt.
Proof. intros [_ _ Hc Hs]. by apply decides_write_shapes. Qed.

(** A row that is well-formed; whether it conforms to the shapes is not part of it. *)
Record row_ready (s : MemoryKVStore) (rep : Z -> Z) (vertex : VertexInsert) : Prop := {
  row_vid : vid_is_int (vi_vid vertex) = true;
  row_rep : returns (representative_of sp (vid_num (vi_vid vertex))) s (rep (vid_num (vi_vid vertex)));
  row_schema : Forall (fun tag => returns (validate_tag_props sp (tag_name tag) (tag_properties tag)) s tt) (vi_tags vertex);
  row_id : i64_ok (rep (vid_num (vi_vid vertex)));
  row_names : NoDup (tag_names (vi_tags vertex));
  row_props : Forall (fun tag => map_Forall (fun _ => vertex_value) (tag_properties tag)) (vi_tags vertex)
}.

Lemma decides_rows V s rep vertices : vertex_space V s -> Forall (row_ready s rep) vertices ->
  decides (Forall (fun vertex => accepted (vi_tags vertex)) vertices) (d_for_each (validate_vertex sp Int64) vertices) s tt.
Proof.
  intros Hsv. induction 1 as [|vertex vertices Hr _ IH]; [left; split; [constructor|apply returns_ret]|].
  eapply decides_iff; [symmetry; apply Forall_cons|]. cbn [d_for_each]. apply (decides_bind _ _ _ _ _ tt); [|intros _; exact IH].
  unfold validate_vertex. eapply decides_iff; [apply (True_and (accepted (vi_tags vertex)))|]. apply (decides_bind _ _ _ _ _ tt).
  { apply decides_returns, returns_validate_vid, Hr. }
  intros _. eapply decides_iff; [apply (True_and (accepted (vi_tags vertex)))|]. apply (decides_bind _ _ _ _ _ tt).
  - apply decides_returns. pose proof (row_schema _ _ _ Hr) as Hs. induction Hs as [|tag tags Ht _ IHt]; [apply returns_ret|].
    cbn [d_for_each]. by eapply returns_bind.
  - intros _. by eapply decides_accepted.
Qed.

(** C7: INSERT VERTEX refines the insertion into a map of vertices and enforces the shapes:
    on a space with integer ids whose rows, tag lists, index entries and embeddings
    represent a map of vertices, a statement with well-formed rows succeeds exactly if
    the check of the shapes accepts every row, which is if it conforms to the shapes on
    its classes, provided that these are within the depth limit; it then reports the number of rows
    and leaves a store that represents the map with the rows put into it, a later row
    replacing an earlier one, that differs only in rows of vertices, and in which the
    vector index of every property with a changed embedding is marked stale. Otherwise
    the store is unchanged. *)
Theorem insert_vertices_refines V s rep plan_space vertices clock :
  vertex_space V s -> returns (effective_space ctx plan_space) s sp ->
  Forall (row_ready s rep) vertices -> Z.of_nat (length vertices) < two63 ->
  match run_statement (execute_insert_vertices wall ctx plan_space vertices clock) s with
  | (Ok (r, _), s') => Forall (fun vertex => accepted (vi_tags vertex)) vertices /\
      r = count_result (bs "Inserted") (Z.of_nat (length vertices)) /\
      vertex_effect sp ix V (put_all (vertex_target rep <$> vertices) V) s s'
  | (Err _, s') => ~ Forall (fun vertex => accepted (vi_tags vertex)) vertices /\ s' = s
  end.
Proof.
  intros Hsv Hspace Hrows Hlen. destruct (decides_rows V s rep vertices Hsv Hrows) as [[Hc _]|[Hc [e He]]].
  - assert (Hy : Forall (vertex_ready sp s rep) vertices).
    { apply Forall_forall. intros vertex Hin. rewrite Forall_forall in Hrows, Hc. destruct (Hrows vertex Hin) as [Hv Hr Hs Hi Hn Hp].
      split; try done. destruct (decides_accepted V s (vi_tags vertex) Hsv) as [[_ Hw]|[Hw _]]; [done|]. by destruct Hw; apply Hc. }
    destruct (succeeds_run _ _ _ clock (insert_vertices_correct wall ctx sp ix V s rep Hsp Hix (space_vertices _ _ Hsv)
      (space_metadata _ _ Hsv) plan_space vertices Hspace Hy Hlen)) as (r & c' & s' & -> & -> & Heff). done.
  - assert (Hr : refuses (execute_insert_vertices wall ctx plan_space vertices) s).
    { unfold execute_insert_vertices. eapply refuses_returns; [exact Hspace|].
      eapply refuses_returns; [apply (vs_vids _ _ _ _ (space_metadata _ _ Hsv))|].
      eapply refuses_returns; [apply (vs_indexes _ _ _ _ (space_metadata _ _ Hsv))|]. apply refuses_bind.
      eapply refuses_fails; [|exact He]. apply reads_for_each. intros. apply reads_validate_vertex. }
    destruct (Hr clock) as [e' ->]. done.
Qed.



(** ** Sequences of statements *)

Lemma decided_each {A} (f : A -> DML unit) l s : (forall a, decided (f a) s) -> decided (d_for_each f l) s.
Proof. intros Hf. induction l as [|a l IH]; [apply decided_ret|]. by apply decided_bind. Qed.

Lemma decided_tag_props name props s : decided (validate_tag_props sp name props) s.
Proof. apply decided_bind; [apply decided_get|]. intros [b|]; [apply decided_result|apply decided_fail]. Qed.

Lemma decided_accepted V s l : vertex_space V s -> decided (validate_write_shapes sp (tag_names l) (flatten_tags l)) s.
Proof. intros Hsv. destruct (decides_accepted V s l Hsv) as [[_ Hr]|[_ He]]; [left; by eexists|by right]. Qed.

(** What was accepted conforms. *)
Lemma returns_conforming V s l : vertex_space V s ->
  returns (validate_write_shapes sp (tag_names l) (flatten_tags l)) s tt -> conforming l.
Proof.
  intros Hsv Hw. destruct (decides_accepted V s l Hsv) as [[Ha _]|[_ [e He]]]; [by apply accepted_conforms|].
  by destruct (returns_not_fails _ s tt e Hw).
Qed.

(** The representative of a vertex, if it can be read. *)
Definition rep_at (s : MemoryKVStore) (v : Z) : Z :=
  match (run_statement (representative_of sp v (Build_tx_clock 0 0)) s).1 with Ok (r, _) => r | Err _ => v end.

Lemma rep_at_returns s v r : returns (representative_of sp v) s r -> r = rep_at s v.
Proof.
  intros Hr. specialize (Hr (Build_tx_clock 0 0)). unfold rep_at. destruct (run_statement _ s) as [[[r' c']|e] s']; [|done].
  by destruct Hr as [-> _].
Qed.

Lemma follow_i64 n s v cur r : i64_ok cur -> returns (follow_sameas n sp v cur) s r -> i64_ok r.
Proof.
  revert cur. induction n as [|n IH]; intros cur Hcur Hr; [by specialize (Hr (Build_tx_clock 0 0))|]. cbn [follow_sameas] in Hr.
  apply returns_bind_inv in Hr as ([row|] & _ & Hr); [..|apply decided_get|].
  - destruct (decode_repr row) as [r'|] eqn:Er; [|by specialize (Hr (Build_tx_clock 0 0))].
    destruct (r' =? cur); [by rewrite (returns_eq _ s r cur Hr (returns_ret cur s))|]. apply (IH r'); [|done].
    unfold decode_repr in Er. case_match; [|done]. injection Er as <-. apply as_i64_ok.
  - by rewrite (returns_eq _ s r cur Hr (returns_ret cur s)).
  - intros [row|]; [|apply decided_ret]. destruct (decode_repr row); [|apply decided_fail]. destruct (_ =? cur); [apply decided_ret|apply decided_follow].
Qed.

Lemma rep_at_spec s v : i64_ok v ->
  (returns (representative_of sp v) s (rep_at s v) /\ i64_ok (rep_at s v)) \/ exists e, fails (representative_of sp v) s e.
Proof.
  intros Hv. destruct (decided_representative sp v s) as [[r Hr]|He]; [left|by right].
  rewrite <- (rep_at_returns s v r Hr). split; [done|by eapply follow_i64].
Qed.

(** What is known of the rows of a statement: ids of 64 bits, different tags and
    properties that a record keeps. *)
Definition row_wf (vertex : VertexInsert) : Prop :=
  i64_ok (vid_num (vi_vid vertex)) /\ NoDup (tag_names (vi_tags vertex)) /\
  Forall (fun tag => map_Forall (fun _ => vertex_value) (tag_properties tag)) (vi_tags vertex).

Lemma validated_vertex V s vertex : vertex_space V s -> returns (validate_vertex sp Int64 vertex) s tt ->
  vid_is_int (vi_vid vertex) = true /\
  Forall (fun tag => returns (validate_tag_props sp (tag_name tag) (tag_properties tag)) s tt) (vi_tags vertex) /\
  returns (validate_write_shapes sp (tag_names (vi_tags vertex)) (flatten_tags (vi_tags vertex))) s tt.
Proof.
  intros Hsv Hr. pose proof (decided_accepted V s (vi_tags vertex) Hsv) as Hshapes.
  assert (Htags : decided (d_for_each (fun tag => validate_tag_props sp (tag_name tag) (tag_properties tag)) (vi_tags vertex)) s)
    by (apply decided_each; intros; apply decided_tag_props).
  unfold validate_vertex in Hr. apply returns_bind_inv in Hr as ([] & Hv & Hr); [|apply decided_result|intros; by apply decided_bind].
  apply returns_bind_inv in Hr as ([] & Ht & Hr); [|done|done]. split_and!; [|..|done].
  - destruct (vi_vid vertex); [done|]. by specialize (Hv (Build_tx_clock 0 0)).
  - clear -Ht. induction (vi_tags vertex) as [|tag l IH]; [constructor|]. cbn [d_for_each] in Ht.
    apply returns_bind_inv in Ht as ([] & Ht & Hl); [|apply decided_tag_props|intros; apply decided_each; intros; apply decided_tag_props].
    constructor; [done|by apply IH].
Qed.

(** A successful INSERT VERTEX had rows that could be inserted. *)
Lemma inserted_ready V s plan_space vertices :
  vertex_space V s -> returns (effective_space ctx plan_space) s sp -> Forall row_wf vertices -> Z.of_nat (length vertices) < two63 ->
  if_succeeds (execute_insert_vertices wall ctx plan_space vertices) s (fun _ _ => Forall (vertex_ready sp s (rep_at s)) vertices).
Proof.
  intros Hsv Hspace Hwf Hlen. pose proof (space_vertices _ _ Hsv) as Hrep. pose proof (space_metadata _ _ Hsv) as Hready.
  unfold execute_insert_vertices. eapply post_returns; [exact Hspace|]. eapply post_returns; [apply (vs_vids _ _ _ _ Hready)|].
  eapply post_returns; [apply (vs_indexes _ _ _ _ Hready)|]. apply post_bind. eapply post_conseq; [|apply if_succeeds_each].
  2:{ intros vertex. apply decided_bind; [apply decided_result|]. intros _. apply decided_bind.
      - apply decided_each. intros. apply decided_tag_props.
      - intros _. by eapply decided_accepted. }
  intros [] s0 [-> Hvalid]. apply post_bind.
  apply (post_fold _ _ (fun seen b s' => s' = s /\ Forall (vertex_ready sp s (rep_at s)) seen /\
    new_inv sp (vertex_target (rep_at s) <$> seen) b /\ old_inv sp ix V (dom (put_vertices (vertex_target (rep_at s) <$> seen))) b)).
  - split; [done|]. split; [constructor|]. by eapply insert_start.
  - intros seen vertex b s' (-> & Hseen & Hn & Ho) [rest El]. rewrite El in Hvalid, Hwf, Hlen.
    apply Forall_app in Hvalid as [_ [Hval _]%Forall_cons]. apply Forall_app in Hwf as [_ [(Hid & Hnames & Hprops) _]%Forall_cons].
    destruct (validated_vertex V s vertex Hsv Hval) as (Hint & Hschema & Hshapes). rewrite length_app in Hlen. cbn [length] in Hlen.
    destruct (rep_at_spec s _ Hid) as [[Hr Hri]|[e He]].
    + assert (Hy : vertex_ready sp s (rep_at s) vertex) by done.
      assert (Hl : Z.of_nat (length (vertex_target (rep_at s) <$> seen)) + 1 < two63) by (rewrite length_fmap; lia).
      eapply post_succeeds, post_conseq; [|apply (add_vertex_inv ctx sp ix V s (rep_at s) Hsp Hix Hrep Hready _ b vertex Hy Hl Hn Ho)].
      intros b' s' (-> & Hn' & Ho'). rewrite fmap_app. split_and!; [done| |done|done]. apply Forall_app. by rewrite Forall_singleton.
    + unfold add_vertex. eapply post_returns; [by apply returns_created_vid|]. apply post_bind.
      eapply post_errors; [|eapply post_conseq; [|exact He]]; done.
  - intros b s' (_ & Hy & _). by apply if_succeeds_pure.
Qed.

(** A successful UPDATE VERTEX named a tag and an integer id. *)
Lemma updated_ready V s u :
  vertex_space V s -> returns (effective_space ctx (vu_space u)) s sp -> i64_ok (vid_num (vu_vid u)) -> map_Forall (fun _ => vertex_value) (vu_updates u) ->
  if_succeeds (execute_update_vertex wall ctx u) s (fun _ _ => exists name, vertex_update_ready sp s (rep_at s) u name).
Proof.
  intros Hsv Hspace Hid Hp. pose proof (space_metadata _ _ Hsv) as Hready.
  unfold execute_update_vertex. eapply post_returns; [exact Hspace|]. eapply post_returns; [apply (vs_vids _ _ _ _ Hready)|].
  destruct (vu_tag u) as [name|] eqn:Etag; [|by apply post_fail]. apply if_succeeds_decided; [apply decided_result|]. intros [] Hv.
  assert (Hint : vid_is_int (vu_vid u) = true) by (destruct (vu_vid u); [done|by specialize (Hv (Build_tx_clock 0 0))]).
  apply if_succeeds_decided; [apply decided_tag_props|]. intros [] Hschema. apply post_bind.
  destruct (rep_at_spec s _ Hid) as [[Hr Hri]|[e He]].
  - eapply post_returns; [by apply returns_resolve_vid|]. eapply post_returns; [exact Hr|]. apply post_ret, if_succeeds_pure. by exists name.
  - eapply post_returns; [by apply returns_resolve_vid|]. apply post_bind. eapply post_errors; [|eapply post_conseq; [|exact He]]; done.
Qed.

(** A successful DELETE VERTEX listed integer ids. *)
Lemma deleted_ready V s plan :
  vertex_space V s -> returns (effective_space ctx (dp_space plan)) s sp ->
  if_succeeds (execute_delete wall ctx plan) s (fun _ _ => Forall (fun v => vid_is_int v = true) (dp_vids plan)).
Proof.
  intros Hsv Hspace. pose proof (space_metadata _ _ Hsv) as Hready.
  unfold execute_delete. eapply post_returns; [exact Hspace|]. eapply post_returns; [apply (vs_vids _ _ _ _ Hready)|]. apply post_bind.
  apply (post_fold _ _ (fun seen _ s' => s' = s /\ Forall (fun v => vid_is_int v = true) seen)); [done| |].
  - intros seen v acc s' [-> Hseen] _. unfold resolve_known_vid. destruct (vid_is_int v) eqn:Ev.
    + eapply post_returns; [by apply returns_resolve_vid|]. apply post_ret. split; [done|]. apply Forall_app. by rewrite Forall_singleton.
    + destruct v; [done|]. by intros c.
  - intros acc s' [_ Hall]. by apply if_succeeds_pure.
Qed.

(** *** What is kept *)

Lemma vertex_space_effect V V' s s' : vertex_space V s -> vertex_effect sp ix V V' s s' -> vertex_space V' s'.
Proof.
  intros [Hrep Hready Hc Hs] [Hrep' _ Hframe]. pose proof (vr_wf _ _ _ _ Hrep) as Hwf. pose proof (vr_wf _ _ _ _ Hrep') as Hwf'. split; [done|..].
  - by apply (vertices_ready_frame ctx sp ix Hsp s s').
  - split; [done|]. intros name. pose proof (cr_rows _ _ _ Hc name) as Hrow. rewrite Hframe; [done|]. by apply space_outside.
  - by apply (returns_within _ s s' Hwf Hwf' Hframe _ _ (within_shapes sp ix Hsp)).
Qed.

Lemma graph_outside ixe k : graph_key sp k = true \/ entry_form ixe k -> ~ vertex_area sp ix k.
Proof.
  intros [Hg|Hf].
  - unfold graph_key in Hg. apply existsb_exists in Hg as (kind & Hin%list_elem_of_In & [x ->]%starts_with_iff). rewrite <- app_assoc.
    unfold graph_kinds in Hin. intros [Hrow|[Hf|E]].
    + rewrite vertex_row_app in Hrow. rewrite !elem_of_cons, elem_of_nil in Hin. by destruct Hin as [->|[->|[->|[->|[]]]]].
    + by apply name_not_tag_entry in Hf.
    + apply app_inv_head in E. rewrite !elem_of_cons, elem_of_nil in Hin. by destruct Hin as [->|[->|[->|[->|[]]]]].
  - intros [Hrow|[(index & _ & [y E]%starts_with_iff)|E]].
    + unfold vertex_row in Hrow. apply existsb_exists in Hrow as (kind & _ & [x ->]%starts_with_iff). rewrite <- app_assoc in Hf.
      by apply name_not_entry in Hf.
    + destruct Hf as (index' & _ & [x ->]%starts_with_iff). unfold KeyUtils.edge_index_prefix, KeyUtils.tag_index_prefix in E.
      rewrite <- !app_assoc in E. apply app_inv_head in E. discriminate E.
    + subst k. by apply dirty_key_not_entry in Hf.
Qed.

Context `{!ProstLaws PbEdge} (ixe : list IndexDef) (G : Graph).

(** A store with vertices that conform to the shapes, and edges. *)
Record vertex_store (V : Vertices) (s : MemoryKVStore) : Prop := {
  store_tables : tables_wf s;
  store_space : vertex_space V s;
  store_conforming : map_Forall (fun _ => conforming) V;
  store_graph : graph_rep sp ixe G s
}.

Lemma post_history {A} E (p : DML A) s Q : om_wf (history s) -> post E p s Q -> post E p s (fun a s' => om_wf (history s') /\ Q a s').
Proof.
  intros Hwf Hp c. specialize (Hp c). pose proof (run_history_wf (p c) s Hwf) as Hh.
  by destruct (run_statement (p c) s) as [[[a c']|e] s'].
Qed.

Lemma vertex_store_effect V V' s s' :
  vertex_store V s -> om_wf (history s') -> vertex_effect sp ix V V' s s' -> map_Forall (fun _ => conforming) V' -> vertex_store V' s'.
Proof.
  intros [_ Hsv _ Hg] Hh Heff Hc. pose proof (vr_wf _ _ _ _ (ve_rep _ _ _ _ _ _ Heff)) as Hwf'. split; [done| |done|].
  - by eapply vertex_space_effect.
  - eapply graph_rep_frame; [exact Hg|done|]. intros k Hk. apply (ve_frame _ _ _ _ _ _ Heff). by eapply graph_outside.
Qed.

Lemma insert_keeps_store V s plan_space vertices :
  vertex_store V s -> returns (effective_space ctx plan_space) s sp -> Forall row_wf vertices -> Z.of_nat (length vertices) < two63 ->
  if_succeeds (execute_insert_vertices wall ctx plan_space vertices) s (fun _ s' => exists V', vertex_store V' s').
Proof.
  intros Hst Hspace Hwf Hlen. pose proof (store_space _ _ Hst) as Hsv. eapply if_succeeds_when; [by eapply inserted_ready|]. intros Hy.
  eapply post_conseq; [|apply post_history; [apply (store_tables _ _ Hst)|eapply post_succeeds;
    apply (insert_vertices_correct wall ctx sp ix V s (rep_at s) Hsp Hix (space_vertices _ _ Hsv) (space_metadata _ _ Hsv) plan_space vertices Hspace Hy Hlen)]].
  intros r s' (Hh & _ & Heff). eexists. eapply vertex_store_effect; [done|done|exact Heff|]. intros v l. rewrite put_all_changed, changed_lookup, lookup_fmap.
  destruct (put_all _ ∅ !! v) as [l'|] eqn:El; cbn [fmap option_fmap option_map]; [|apply (store_conforming _ _ Hst)].
  intros [= <-]. apply put_all_elem, list_elem_of_fmap in El as (vertex & [= -> ->] & Hin).
  rewrite Forall_forall in Hy. eapply returns_conforming; [done|]. by apply Hy.
Qed.

Lemma update_keeps_store V s u :
  vertex_store V s -> returns (effective_space ctx (vu_space u)) s sp -> i64_ok (vid_num (vu_vid u)) -> map_Forall (fun _ => vertex_value) (vu_updates u) ->
  (forall name, vu_tag u = Some name -> embeddings_separate V (rep_at s) u name) ->
  if_succeeds (execute_update_vertex wall ctx u) s (fun _ s' => exists V', vertex_store V' s').
Proof.
  intros Hst Hspace Hid Hp Hsep. pose proof (store_space _ _ Hst) as Hsv. eapply if_succeeds_when; [by eapply updated_ready|]. intros [name Hu].
  pose proof (update_vertex_skipped wall ctx sp ix V s (rep_at s) u name (space_vertices _ _ Hsv) (space_metadata _ _ Hsv) Hspace Hu) as Hskip.
  destruct (update_condition V (rep_at s) u) as [[]|e] eqn:Ec.
  - destruct (decided_accepted V s (new_tags V (rep_at s) u name) Hsv) as [[[] Hw]|[e He]].
    + eapply post_conseq; [|apply post_history; [apply (store_tables _ _ Hst)|eapply post_succeeds;
        apply (update_vertex_correct wall ctx sp ix V s (rep_at s) u name Hsp Hix (space_vertices _ _ Hsv) (space_metadata _ _ Hsv) Hspace Hu
          (Hsep name (vu_ready_tag _ _ _ _ _ Hu)) Ec Hw)]].
      intros r s' (Hh & _ & Heff). eexists. eapply vertex_store_effect; [done|done|exact Heff|].
      apply map_Forall_insert_2; [by eapply returns_conforming|apply (store_conforming _ _ Hst)].
    + eapply post_errors; [|eapply post_conseq; [|exact (Hskip e He)]]; done.
  - eapply post_succeeds, post_conseq; [|exact Hskip]. intros r s' [_ ->]. by exists V.
  - eapply post_errors; [|eapply post_conseq; [|exact Hskip]]; done.
Qed.

Lemma delete_keeps_store V s plan :
  vertex_store V s -> returns (effective_space ctx (dp_space plan)) s sp -> Forall i64_ok (listed plan) -> Z.of_nat (length (listed plan)) < two63 ->
  if_succeeds (execute_delete wall ctx plan) s (fun _ s' => exists V', vertex_store V' s').
Proof.
  intros Hst Hspace Hids Hlen. pose proof (store_space _ _ Hst) as Hsv. eapply if_succeeds_when; [by eapply deleted_ready|]. intros Hint.
  eapply post_conseq; [|apply post_history; [apply (store_tables _ _ Hst)|eapply post_errors; [done|];
    apply (delete_vertices_correct wall ctx sp ix V s plan Hsp Hix (space_vertices _ _ Hsv) (space_metadata _ _ Hsv) Hspace Hint Hids Hlen)]].
  intros r s' (Hh & _ & _ & _ & Heff). eexists. eapply vertex_store_effect; [done|done|exact Heff|].
  intros v l [Hl _]%map_lookup_filter_Some. by apply (store_conforming _ _ Hst v).
Qed.
(** A statement on vertices. *)
Inductive VertexStatement :=
| InsertVertices (plan_space : bytes) (vertices : list VertexInsert)
| UpdateVertex (u : VertexUpdate)
| DeleteVertices (plan : DeletePlan).

Definition vertex_statement (st : VertexStatement) : DML ExecutorResult :=
  match st with
  | InsertVertices plan_space vertices => execute_insert_vertices wall ctx plan_space vertices
  | UpdateVertex u => execute_update_vertex wall ctx u
  | DeleteVertices plan => execute_delete wall ctx plan
  end.

Definition statement_space (st : VertexStatement) : bytes :=
  match st with InsertVertices plan_space _ => plan_space | UpdateVertex u => vu_space u | DeleteVertices plan => dp_space plan end.

(** The other tags of the vertex that is updated have no embedding whose name is
    updated. *)
Definition update_separate (s : MemoryKVStore) (u : VertexUpdate) : Prop :=
  let v := rep_at s (vid_num (vu_vid u)) in
  forall b vertex t p val, look s (SchemaKey.vertex sp v) = Some b -> decode_vertex_checked v b = Ok vertex ->
    t ∈ tags vertex -> Some (tag_name t) <> vu_tag u -> is_Some (vu_updates u !! p) -> tag_properties t !! p = Some val ->
    pack_embedding val = None.

(** A statement in this space with ids of 64 bits and values that a record keeps. *)
Definition statement_wf (s : MemoryKVStore) (st : VertexStatement) : Prop :=
  returns (effective_space ctx (statement_space st)) s sp /\
  match st with
  | InsertVertices _ vertices => Forall row_wf vertices /\ Z.of_nat (length vertices) < two63
  | UpdateVertex u => i64_ok (vid_num (vu_vid u)) /\ map_Forall (fun _ => vertex_value) (vu_updates u) /\ update_separate s u
  | DeleteVertices plan => Forall i64_ok (listed plan) /\ Z.of_nat (length (listed plan)) < two63
  end.

Lemma separate_embeddings V s u name :
  vertex_space V s -> i64_ok (rep_at s (vid_num (vu_vid u))) -> update_separate s u -> vu_tag u = Some name ->
  embeddings_separate V (rep_at s) u name.
Proof.
  intros Hsv Hv Hsep Hn t p val Ht Hne Hp Hval. pose proof (vr_rows _ _ _ _ (space_vertices _ _ Hsv) _ Hv) as Hrow.
  unfold old_tags, updated_vid in Ht. destruct (V !! _) as [l|].
  - destruct Hrow as (b & Hb & Hd). eapply (Hsep b _ t p val Hb Hd); [done|rewrite Hn; congruence|done|done].
  - apply list_elem_of_singleton in Ht. subst t. by destruct Hne.
Qed.

Lemma statement_keeps_store V s st :
  vertex_store V s -> statement_wf s st -> if_succeeds (vertex_statement st) s (fun _ s' => exists V', vertex_store V' s').
Proof.
  intros Hst [Hspace Hwf]. destruct st as [plan_space vertices|u|plan]; cbn [vertex_statement statement_space] in *.
  - destruct Hwf. by eapply insert_keeps_store.
  - destruct Hwf as (Hid & Hp & Hsep). eapply if_succeeds_when; [by apply (updated_ready V); [apply Hst|..]|]. intros [name Hu].
    apply (update_keeps_store V); [done..|]. intros name' Hn. apply separate_embeddings; [apply Hst|apply Hu|done|done].
  - destruct Hwf. by eapply delete_keeps_store.
Qed.

(** One statement is executed over the staged store, with any result. *)
Inductive vertex_step {S} `{StagedBase S} : S -> S -> Prop :=
| vertex_step_run st max_memory_mb clock r s s' :
    statement_wf (base_view s) st ->
    execute_dml_atomically (Some sp) max_memory_mb (fun _ => Some (vertex_statement st clock)) s = (r, s') ->
    vertex_step s s'.

(** C8: whatever statements on vertices are executed over the staged store, on any backend,
    and however each of them ends, the tables represent some map of vertices: the
    records, the lists of each tag, the index entries and the embeddings agree, every
    vertex conforms to the shapes on its classes, and the edges, the classes and the
    shapes are those there were. *)
Theorem vertex_store_invariant {S} `{StagedBase S} V (s s' : S) :
  vertex_store V (base_view s) -> rtc vertex_step s s' -> exists V', vertex_store V' (base_view s').
Proof.
  intros Hst Hrun. revert V Hst. induction Hrun as [s|s s1 s' [st mb clock r s2 s3 Hwf Hrun] _ IH]; intros V Hst; [by exists V|].
  eapply staged_post in Hrun; [..|exact (statement_keeps_store V _ st Hst Hwf)]; [|destruct st; cbn [vertex_statement]|apply Hst].
  - destruct r as [a|e]; [destruct Hrun as [V' HV']; by eapply IH|].
    destruct Hrun as [E|(a & V' & HV')]; [rewrite <- E in Hst|]; by eapply IH.
  - apply current_insert_vertices.
  - apply current_update_vertex.
  - apply current_delete_vertices.
Qed.
End theorems.
