(* ===== verification/VertexWitness.v ===== *)
(** * A space with vertices

    A space with a tag, an index on it, an embedding, a hierarchy of two classes and a
    shape, at which the theorems on statements on vertices are applied. *)

From Stdlib Require Import ZArith Lia Strings.Byte Strings.String.
From stdpp Require Import base tactics gmap fin_sets relations list.
From S2P Require Import Prelude OrdMap History KVStore KVStoreFacts KVStoreBatch KVDyn Temporal Text SchemaKey StorageKey IndexManager IndexFacts Value.
From S2P Require Import Exec Evaluator EvaluatorFacts Vid SpaceDdl VertexCodec VertexCodecFacts DmlStaging DmlStagingFacts GraphAlgo Dml DmlRules.
From S2P Require Import EdgeRep EdgeWrite EdgeStatements Classes ClassFacts ShapeFacts.
From S2P Require Import VertexDml VertexRep VertexInsertion VertexFrame VertexDeletion VertexUpdating VertexStatements.

Module VertexDemo.
Export EvalDemo RefProst ClassDemo.

#[export] Instance vertex_text : DebugText := {|
  float_display _ := []; debug_props _ := []; debug_vertices _ := []; debug_strings _ := []; debug_set _ := []
|}.
Definition field (name type : string) : JsonValue := JObject [(bs "name", JString (bs name)); (bs "data_type", JString (bs type))].
#[export] Instance tag_json : SerdeJson JsonValue := {|
  json_to_vec _ := Err "unsupported"%string;
  json_from_slice b :=
    if bool_decide (b = bs "{Person}") then
      Ok (JObject [(bs "name", JString (bs "Person"));
                   (bs "properties", JArray [field "name" "String"; field "age" "Int64"; field "position" "List"])])
    else Err "syntax"%string
|}.
Definition name_index : IndexDef := {|
  idx_id := 7; idx_space_id := 1; index_name := bs "by_name"; index_type := IndexTag; schema_id := 1;
  schema_name := bs "Person"; fields := [bs "name"]; field_indices := [0%nat]
|}.
#[export] Instance name_index_json : SerdeJson IndexDef := {|
  json_to_vec _ := Err "unsupported"%string;
  json_from_slice b := if bool_decide (b = bs "{by_name}") then Ok name_index else Err "syntax"%string
|}.

Definition wall (n : nat) : Z := Z.of_nat n.

(** Persons are beings of class [0], which need an age. *)
Definition beings : Hierarchy :=
  list_to_map [(bs "Person", mkClass (bs "Person") [bs "0"] [] []); (bs "0", mkClass (bs "0") [] [] [])].
Definition metadata_rows : list kv_pair :=
  [(SchemaKey.tag (bs "g") (bs "Person"), bs "{Person}"); (index_def_key 1 7, bs "{by_name}");
   (SchemaKey.shape (bs "g") (bs "Adult"), bs "{Adult}")].
Definition no_persons : MemoryKVStore := class_store metadata_rows beings.

Lemma no_persons_classes : class_rep (bs "g") beings no_persons.
Proof.
  apply class_store_rep. intros k n Hk. unfold metadata_rows in Hk. cbn [fmap list_fmap fst] in Hk.
  rewrite !elem_of_cons, elem_of_nil in Hk. by destruct Hk as [->|[->|[->|[]]]].
Qed.

(** Every row of the metadata starts with [s] or an underscore. *)
Lemma no_persons_other b l : b <> x73 -> b <> x5f -> look no_persons (b :: l) = None.
Proof.
  intros H1 H2. unfold no_persons. rewrite look_class_store. apply put_value_none. rewrite fmap_app, elem_of_app.
  intros [Hin|Hin].
  - unfold metadata_rows in Hin. cbn [fmap list_fmap fst] in Hin. rewrite !elem_of_cons, elem_of_nil in Hin.
    destruct Hin as [E|[E|[E|[]]]]; injection E; congruence.
  - rewrite <- list_fmap_compose in Hin. apply list_elem_of_fmap in Hin as (nd & E & _). injection E. congruence.
Qed.

Lemma no_persons_rep : vertex_rep (bs "g") [name_index] ∅ no_persons.
Proof.
  assert (Hg : forall l, look no_persons (bs "g" ++ l) = None) by (intros l; by apply no_persons_other).
  split; [apply no_persons_classes|done|..].
  - intros v _. rewrite lookup_empty. apply Hg.
  - intros t v _. unfold SchemaKey.tagvid. rewrite Hg. split; [by intros []|]. intros (l & Hl & _). by rewrite lookup_empty in Hl.
  - intros k (index & _ & [l ->]%starts_with_iff).
    assert (exists l', KeyUtils.tag_index_prefix 1 (idx_id index) ++ l = x00 :: l') as [l' ->].
    { eexists. unfold KeyUtils.tag_index_prefix. rewrite <- !app_assoc. reflexivity. }
    rewrite no_persons_other by done. split; [by intros []|]. intros (v & l0 & Hl & _). by rewrite lookup_empty in Hl.
  - intros p v _. rewrite lookup_empty. apply Hg.
Qed.

Lemma name_index_ok : indexes_ok [name_index].
Proof. split; [apply NoDup_singleton|]. repeat constructor; vm_compute; congruence. Qed.

Ltac evaluate := let c := fresh in intros c; vm_compute; auto.

Lemma no_persons_space : vertex_space demo_ctx (bs "g") [name_index] beings [person_shape] ∅ no_persons.
Proof.
  split; [apply no_persons_rep|split; [evaluate|evaluate|exists no_meta; evaluate]|apply no_persons_classes|evaluate].
Qed.

Definition person (v : Z) (name : string) (age : Z) : VertexInsert :=
  mkVertexInsert (VidInt v)
    [mkTag (bs "Person") (<[bs "name" := VString (bs name)]> (<[bs "age" := VInt age]> {[bs "position" := VList [VInt 1; VInt 2]]}))].
(** Vertex 1 is given twice. *)
Definition persons : list VertexInsert := [person 1 "Ann" 30; person 2 "Bo" 5; person 1 "Anna" 31].
Definition people : Vertices := put_all (vertex_target id <$> persons) ∅.

Lemma person_values v name age : Forall (fun tag => map_Forall (fun _ => vertex_value) (tag_properties tag)) (vi_tags (person v name age)).
Proof.
  assert (Hone : forall val, plain val -> (S (S (S (value_depth val))) <=? RECURSION_LIMIT)%nat = true -> vertex_value val)
    by (intros val Hp Hd; split; [done|by apply Nat.leb_le]).
  apply Forall_singleton. cbn [tag_properties].
  apply map_Forall_insert_2; [by apply Hone|]. apply map_Forall_insert_2; [by apply Hone|]. apply map_Forall_singleton. by apply Hone.
Qed.

Ltac i64_bounds := unfold i64_ok, two63; cbn; lia.

Lemma persons_ready : Forall (row_ready (bs "g") no_persons id) persons.
Proof.
  repeat (apply Forall_cons; split; [split;
    [reflexivity|evaluate|apply Forall_singleton; evaluate|i64_bounds|apply NoDup_singleton|apply person_values]|]). constructor.
Qed.






Lemma people_1 : people !! 1 = Some (vi_tags (person 1 "Anna" 31)).
Proof. exact (lookup_insert_eq _ 1 _). Qed.



Lemma no_persons_graph : graph_rep (bs "g") [] ∅ no_persons.
Proof.
  split; [apply no_persons_classes|done|..].
  - intros i _. rewrite lookup_empty. unfold fwd, rev. split; by apply no_persons_other.
  - intros k (index & Hin & _). by apply not_elem_of_nil in Hin.
  - intros t v _ _. assert (Ha : asserted ∅ = ∅) by (apply set_eq; intros i; rewrite asserted_elem, lookup_empty; set_solver).
    assert (Hg : forall l, look no_persons (bs "g" ++ l) = None) by (intros l; by apply no_persons_other).
    rewrite Ha, !degree_empty. unfold SchemaKey.indeg_counter, SchemaKey.outdeg_counter. by rewrite !Hg.
Qed.

Lemma no_persons_store : vertex_store demo_ctx (bs "g") [name_index] beings [person_shape] [] ∅ ∅ no_persons.
Proof.
  split; [|apply no_persons_space|done|apply no_persons_graph]. split; [apply no_persons_classes|apply om_wf_nil].
Qed.
End VertexDemo.
Import VertexDemo.

Lemma insert_vertices_refines_witness :
  exists clock' s', run_statement (execute_insert_vertices wall demo_ctx [] persons demo_clock) no_persons =
      (Ok (count_result (bs "Inserted") 3, clock'), s') /\
    vertex_rep (bs "g") [name_index] people s' /\ people !! 1 = Some (vi_tags (person 1 "Anna" 31)).
Proof.
  pose proof (insert_vertices_refines wall demo_ctx (bs "g") [name_index] beings [person_shape] eq_refl name_index_ok ∅ no_persons id
    [] persons demo_clock no_persons_space ltac:(evaluate) persons_ready ltac:(reflexivity)) as Hd.
  assert (Hrun : exists clock', (run_statement (execute_insert_vertices wall demo_ctx [] persons demo_clock) no_persons).1 =
    Ok (count_result (bs "Inserted") 3, clock')) by (eexists; vm_compute; reflexivity).
  destruct (run_statement _ _) as [r s']. destruct Hrun as [clock' E]. cbn [fst] in E. subst r.
  destruct Hd as (_ & _ & [Hr _ _]). exists clock', s'. split; [reflexivity|]. split; [exact Hr|exact people_1].
Defined.



(** The insertion of the persons over the staged in-memory store. *)
Lemma vertex_store_invariant_witness :
  exists a s', execute_dml_atomically (Some (bs "g")) 1
      (fun _ => Some (execute_insert_vertices wall demo_ctx [] persons demo_clock)) no_persons = (Ok a, s') /\
    exists V, vertex_store demo_ctx (bs "g") [name_index] beings [person_shape] [] ∅ V s'.
Proof.
  destruct (execute_dml_atomically (Some (bs "g")) 1
      (fun _ => Some (execute_insert_vertices wall demo_ctx [] persons demo_clock)) no_persons) as [r s'] eqn:Erun.
  assert (Hr : exists a, r = Ok a) by (apply (f_equal fst) in Erun; vm_compute in Erun; eexists; symmetry; exact Erun).
  assert (Hst : exists V, vertex_store demo_ctx (bs "g") [name_index] beings [person_shape] [] ∅ V (base_view s')).
  { apply (vertex_store_invariant wall demo_ctx (bs "g") [name_index] beings [person_shape] eq_refl name_index_ok [] ∅ ∅ no_persons s').
    - exact no_persons_store.
    - apply rtc_once. apply (vertex_step_run wall demo_ctx (bs "g") (InsertVertices [] persons) 1 demo_clock r no_persons s'); [|exact Erun].
      split; [evaluate|]. split; [|reflexivity]. repeat (apply Forall_cons; split;
        [split; [i64_bounds|split; [apply NoDup_singleton|apply person_values]]|]). constructor. }
  destruct Hr as [a ->]. exists a, s'. split; [reflexivity|exact Hst].
Defined.
